(* ===== verification/_CoqProject ===== *)
-Q . S2P
Prelude.v
Atomics.v
Concurrent.v
Locks.v
RwLock.v
Abi.v
ShmName.v
Buffer.v
Circ.v
Liveness.v
ChunkStorage.v
SyncAbi.v
Linux.v
RobustMutex.v
Ulock.v
UlockKernel.v
UlockMutex.v
UlockSem.v
Waiter.v
UlockWaiter.v
Posix.v
PosixShm.v
ShmCache.v
CacheShare.v
PosixSem.v
ScopedAccess.v
Notify.v
NotifyWake.v
Ring.v
Channel.v
Fragments.v
Route.v
BroadcastLog.v
Multi.v
Endpoint.v
SecureCodec.v
WireCodecs.v
ShmRing.v
ServiceRegistry.v
ServiceGroup.v
AbiTool.v
AbiDoc.v
AbiGen.v
