(* ===== verification/Prelude.v ===== *)
(** * thoth-ipc: a verification development of the Rust port

    thoth-ipc lets processes exchange messages through shared memory.  The Rust
    crate ([rust/thoth-ipc/src]) has these parts:

    - a layer of names and layouts every process must agree on: the generated ABI
      constants, the names of the shared-memory objects, the ABI stamp of the
      synchronisation primitives;
    - one-word locks and the connection heads built on them;
    - named shared-memory segments with a counter of the handles open in all
      processes, and a cache of mappings per process;
    - the platform's mutex, condition variable and semaphore: on Linux a robust
      futex mutex whose holder may die, on Apple systems words that threads sleep
      on with [__ulock_wait]; and the [Waiter] that blocked senders and receivers
      sleep in;
    - the owner table, by which the bits of dead receivers are reclaimed and a
      route keeps a single sender;
    - the chunk storage for large messages;
    - the ring of 256 slots and, over all of these, [ChanInner], the
      implementation of [Route] (one sender, up to 32 receivers) and [Channel]
      (many senders);
    - the [proto] layer: typed codecs and the secure envelope, a single-producer
      single-consumer ring, a service registry, process management and groups of
      redundant services.

    ** Modelling conventions

    Machine integers are [Z] with their wrap-around written out ([wrap],
    [wrapping_add], [i32], ...); bytes are [Z] in [0, 256); strings are [string]
    or, where the source works on UTF-8 bytes, lists of them.  [io::Result] is
    [io_result], a call that may panic an [outcome] or an [option].

    A function that accesses shared memory is a [prog] (Atomics.v): a tree of
    atomic accesses, each followed by what the function does with the value read.
    [compare_exchange_weak] may fail spuriously.  A tree is run alone
    ([exec] on a tape of the spurious failures, and [runs n p s Q]: whatever the
    tape, as long as it has fewer than [n] entries, [p] returns and [Q] holds of
    its result and final state), or interleaved with others access by access
    ([pool_step], [pool_reach]).  The theorems about the interplay of processes
    quantify over every [pool_reach]able state; those about one operation are
    total-correctness statements in terms of [runs].

    Loops of the source that retry a compare-and-swap or poll take fuel; running
    out is [Spin], which no specification in terms of [runs] accepts.  A retry loop
    run alone is repeated only by a spurious failure, so fuel above the number of
    failures of the tape is enough, and that is what [runs fuel] asks for.  Loops
    over a bounded range (slots, bits, instances) have exactly the fuel of their
    range.  In theorems about interleavings fuel bounds the attempts of each
    thread and is arbitrary: a thread out of fuel just stops where it is.

    What comes from outside is a parameter: the view of the process table ([os] of
    Liveness.v), the clock and the way each wait ends (in the [world] of
    Channel.v), the inner codec and the cipher (type classes of SecureCodec.v), the
    wire formats (type classes of WireCodecs.v), the
    changes the environment makes to processes (ServiceGroup.v), the kernel.  What
    the kernel offers is a class of operations and what the code relies on a class
    of laws, both with a concrete instance: [Kernel] of Linux.v and [KernelLaws] of
    RobustMutex.v (futexes and robust lists), [Ulock] of Ulock.v and [UlockLaws] of
    UlockKernel.v (sleeping on a word), [ShmOs] and [ShmLaws] of Posix.v (segments),
    [SemOs] and [SemLaws] of PosixSem.v (semaphores), [FifoOs], [Reactor] and their
    laws of Notify.v (FIFOs and a runtime that polls).
    In the same way [Waiter] is written against the class [IpcSync] of Waiter.v,
    the mutex and condition it is built from, and UlockWaiter.v instantiates it.  A
    thread that may be killed before any of its accesses is a [mortal] program
    (Concurrent.v).

    ** Files

    - Prelude.v: machine integers, results, bytes and words, automation.
    - Atomics.v: programs over shared memory, the two semantics, the proof rules
      for [runs], the invariant rule for pools.
    - Concurrent.v: a proof method for pools: each thread has ghost state, [wpc]
      says that every access of a program keeps an invariant over the memory and
      all ghosts, and [pool_verified] composes the threads.
    - Locks.v, RwLock.v: [spin_lock.rs], [rw_lock.rs].  [spin_mutual_exclusion]:
      at most one thread is inside.  [rw_lock_excludes]: a writer is alone, readers
      share, and the word is the exact number of shares held.
    - Abi.v: [abi_generated.rs] and the repr(C) layout rules;
      [struct_layouts_match_abi], [ring_slots_disjoint].
    - ShmName.v: [shm_name.rs], the name builders of [channel.rs],
      [chunk_storage.rs], [notify.rs] and the name routine of [tools/abi]; length
      bounds, agreement of the two routines, distinctness of names.
    - Buffer.v: [buffer.rs].
    - Circ.v: [circ.rs]; [connect_allocates_lowest] for a call run alone,
      [connection_bits_unique] for receivers that come and go concurrently: the mask
      has exactly the bits they own.
    - Liveness.v: [liveness.rs]; liveness tests, the reaper, the marks still owed,
      and the sole-owner record: [sole_owner_exclusive] under interleaving,
      [sole_owner_aba] for the case its hypothesis leaves out, [proc_stat_parsed] on
      the parsing of /proc/<pid>/stat.
    - ChunkStorage.v: [chunk_storage.rs]; the id pool refines an abstract
      allocator, chunks do not overlap, a chunk lives until its last reader.
    - SyncAbi.v: [sync_abi.rs]; openers of one stamp agree however they interleave,
      and an opener run alone returns.
    - Linux.v, RobustMutex.v: [platform/linux.rs].  [robust_mutex]: under every
      interleaving with the kernel, threads being killed anywhere, a mutex is free
      or held by a living thread, and sections under it exclude one another;
      [failed_relock_breaks_list]: what a wait does when locking again fails.
    - Ulock.v: [platform/apple.rs] and the wrappers of [mutex.rs], [condition.rs] and
      [semaphore.rs] on Apple systems, over sleeping on words.
    - UlockKernel.v, UlockMutex.v, UlockSem.v: the laws of sleeping with a kernel that
      has them, and theorems about Ulock.v under every interleaving:
      [ulock_mutex_excludes] and [ulock_no_stranded_sleeper] (while somebody sleeps on a
      mutex another thread has an operation on it under way), [timed_lock_can_wait_forever]
      (a time limit under a microsecond is none), [semaphore_conserves_units] (units
      taken and units posted balance) and [semaphore_no_stranded_sleeper].
    - Waiter.v, UlockWaiter.v: [waiter.rs]; [waiter_broadcast_wakes]: a thread whose
      predicate was made false before a broadcast does not sleep through it.
    - Posix.v, PosixShm.v: [platform/posix.rs] and [shm.rs].  [shm_counter_exact]: the
      trailing word counts the handles; [shm_handle_keeps_object]: the name stays with
      the object while somebody holds a handle; [shm_one_first_opener]; and histories
      in which a segment splits in two, or a growing handle leaves its peers behind.
    - ShmCache.v, CacheShare.v: the caches of [platform/posix.rs] and
      [platform/apple.rs] and the handles of mutexes and conditions.
      [cache_shares_mappings], [cache_keeps_mappings]: the threads of a process that
      hold one name share one mapping, which stays mapped; the local count is kept at the
      width each cache gives it; and histories in which opening and dropping interfere.
    - PosixSem.v: [PosixSemaphore] of [semaphore.rs].  [posix_semaphore_is_shared]: while
      somebody keeps a handle, its name stands for one semaphore, whose units add up;
      [last_drop_can_split_semaphore]: dropping the last handle against opening one.
    - ScopedAccess.v: [scoped_access.rs], over the class [Excludes], what a mutex promises, with
      an instance for Linux and one for macOS.  [scoped_access_is_atomic]: reads and writes
      under the guard happen one after the other, whole.  A write may cover the segment's
      counter.
    - Notify.v, NotifyWake.v: the FIFOs of [notify.rs], the hooks of [channel.rs] and
      [async_recv.rs] on Unix.  [async_recv_never_misses]: a receiver that waits on
      its descriptor has every message sent, as long as FIFOs that exist can be opened
      ([FifoPlenty]); [slot_reuse_loses_wakes]: what happens when receivers come and go.
      NotifyWake.v does not compose the notifications with Channel.v: it puts a log with
      atomic appends in the place of the channel.
    - Ring.v: the first half of [channel.rs]: slots, message headers, the ring
      header, [release_mark], [release_stale], [adopt_cursor].
    - Channel.v: the second half: [ChanInner] and the public types, both the
      single-writer and the multi-writer operations, and the waiter they block on.
    - Fragments.v, Route.v, Endpoint.v: theorems about Channel.v on a route: a
      message sent is the message received; a push that may not block evicts the
      receivers it would otherwise have overwritten, and only those; what opening
      (as the first or a later opener, segments that cannot be opened included),
      disconnecting and trying to send do to the shared objects.
    - BroadcastLog.v, Multi.v: the multi-writer operations of Channel.v under every
      interleaving of senders and receivers.  [channel_broadcast]: a channel is a
      log, every receiver gets an initial part of it, in its order.
    - SecureCodec.v: [proto/codec.rs], [proto/codecs/secure_codec.rs],
      [proto/typed_route_codec.rs]; the envelope's parser inverts its builder, the
      decorator round-trips and fails closed.
    - WireCodecs.v: [proto/codecs/protobuf.rs], [proto/codecs/capnp.rs],
      [proto/codecs/flatbuffers.rs], [proto/message.rs] and
      [proto/typed_channel_codec.rs], the wire formats being classes.  A Protobuf
      message survives the decorator; one that the decorator rejects still verifies.
    - ShmRing.v: [proto/shm_ring.rs]; a bounded FIFO under every interleaving of
      one writer and one reader, and the race of [write_overwrite].
    - ServiceRegistry.v: [proto/service_registry.rs]; every operation refines the
      corresponding one on a map of live services.
    - ServiceGroup.v: [proto/process_manager.rs], [proto/service_group.rs]; a group
      that is started only when new or stopped has at most one primary through any run of
      requests, and two histories in which it does less than it means to (one of them a
      second start of a running group).
    - AbiTool.v: [tools/abi]: JSON values, the four generators and the listing of
      protocols, the gates, both commands.  AbiDoc.v: [abi/abi.json] as such a value and
      the files generated from it.  AbiGen.v: the generators do not panic on a description
      that passes the gates and has the further parts [shaped] lists; each of two targets
      reads its own value from what they emit; the
      files of the repository are what they generate, byte for byte, and the constants of
      Abi.v and the names of ShmName.v are what a build reads from them; a passing check
      means agreement with the deployed C++.

    ** What is not modelled

    - Memory orderings: accesses are sequentially consistent.
    - The Windows platform layer, and the pthread mutex and condition of the Unix
      systems other than Linux and macOS.
    - The bytes of a segment beyond 32-bit words: the objects of a channel are opened
      by name in the world of Channel.v, whose waiter is represented by how its waits
      end; Posix.v and Waiter.v model the two on their own.
    - [ChanInner::clear_storage]; the libnotify and Windows backends of [notify.rs]
      and the blocking of SIGPIPE in the one for FIFOs.
    - Windows branches of liveness and process management.
    - The serialisation libraries, the adapter to prost and the cipher behind the
      typed layer.
    - What the ABI tool prints, and how it reads files; the schema validator and the C++
      dumper it runs are arguments.  The cross-language runner, demos and benchmarks.
    - Channels whose receivers come and go while a message is sent:
      [channel_broadcast] is about a fixed set of receivers. *)
From stdpp Require Export gmap strings list numbers pretty.
#[global] Open Scope Z_scope.

(** ** Machine integers

    A [w]-bit unsigned integer is a [Z] in [0, 2^w); wrap-around is written out
    with [mod].  [i32] reinterprets the low 32 bits as a signed number, as the
    [as i32] casts of the source do. *)

(** Memory never written reads as zero. *)
#[export] Instance zero_inhabited : Inhabited Z := populate 0.

Definition is_u (w x : Z) : Prop := 0 <= x < 2 ^ w.

Definition wrap (w x : Z) : Z := x mod 2 ^ w.

Definition wrapping_add (w x y : Z) : Z := wrap w (x + y).

Definition wrapping_sub (w x y : Z) : Z := wrap w (x - y).

Definition wrapping_neg (w x : Z) : Z := wrap w (- x).

(** Bitwise complement at width [w] (the source's [!x]). *)
Definition unot (w x : Z) : Z := Z.ldiff (Z.ones w) x.

(** Two's-complement reading of the low 32 bits. *)
Definition i32 (x : Z) : Z :=
  let y := wrap 32 x in if y <? 2 ^ 31 then y else y - 2 ^ 32.

(** [u32::trailing_zeros] / [u32::count_ones]. *)
Definition trailing_zeros (w : nat) (x : Z) : Z :=
  match list_find (fun i => Z.testbit x (Z.of_nat i) = true) (seq 0 w) with
  | Some (_, i) => Z.of_nat i
  | None => Z.of_nat w
  end.

Definition count_ones (w : nat) (x : Z) : Z :=
  Z.of_nat (length (filter (fun i => Z.testbit x (Z.of_nat i) = true) (seq 0 w))).

(** ** Error results ([std::io::Result]) *)

Inductive error_kind :=
| EkOther
| EkAddrInUse
| EkInvalidInput
| EkInvalidData
| EkTimedOut
| EkUnsupported
| EkOs (errno : Z).

Record io_error := mk_io_error { err_kind : error_kind; err_msg : string }.

Inductive result (A E : Type) :=
| Ok (a : A)
| Err (e : E).
Arguments Ok {A E} _.
Arguments Err {A E} _.

Abbreviation io_result A := (result A io_error).

#[export] Instance error_kind_eq_dec : EqDecision error_kind.
Proof. solve_decision. Defined.
#[export] Instance io_error_eq_dec : EqDecision io_error.
Proof. solve_decision. Defined.
#[export] Instance result_eq_dec {A E} `{EqDecision A, EqDecision E} : EqDecision (result A E).
Proof. solve_decision. Defined.

Definition is_ok {A E} (r : result A E) : bool :=
  match r with Ok _ => true | Err _ => false end.

(** [from_raw_os_error], [last_os_error]. *)
Definition os_error (e : Z) : io_error := mk_io_error (EkOs e) "".

(** A call that may panic. *)
Inductive outcome (A : Type) := Returned (a : A) | Panicked.
Arguments Returned {A} _.
Arguments Panicked {A}.

(** ** Automation *)

Create HintDb width.
Create Rewrite HintDb zbits.

#[export] Hint Rewrite Z.land_spec Z.lor_spec Z.lxor_spec Z.ldiff_spec Z.bits_0 : zbits.
#[export] Hint Rewrite Z.lnot_spec Z.testbit_mod_pow2 Z.pow2_bits_eqb Z.testbit_ones_nonneg
  using lia : zbits.

(** Prove an equality of integers bit by bit. *)
Ltac bitwise :=
  apply Z.bits_inj'; intros ?i ?Hi; autorewrite with zbits.

(** Case analysis on every boolean test of the goal, then [f]. *)
Ltac case_bits :=
  repeat match goal with
         | |- context [Z.testbit ?a ?b] => destruct (Z.testbit a b) eqn:?; simpl
         | |- context [?a <? ?b] => destruct (Z.ltb_spec a b); simpl
         | |- context [?a =? ?b] => destruct (Z.eqb_spec a b); simpl
         end.

Ltac case_if :=
  match goal with
  | |- context [if ?b then _ else _] => destruct b eqn:?
  | H : context [if ?b then _ else _] |- _ => destruct b eqn:?
  end.

(** Membership in finite sets built with union and difference. *)
Ltac mem_solver :=
  rewrite ?elem_of_union, ?elem_of_difference, ?elem_of_singleton, ?elem_of_empty; intuition congruence.

Ltac unwidth := unfold is_u, wrapping_add, wrapping_sub, wrapping_neg, wrap in *.

(** ** Width lemmas *)

Lemma wrap_range w x : 0 <= w -> is_u w (wrap w x).
Proof. intros Hw. unfold is_u, wrap. apply Z.mod_pos_bound. lia. Qed.

Lemma wrap_id w x : is_u w x -> wrap w x = x.
Proof. intros H. apply Z.mod_small, H. Qed.

Lemma wrap_wrap w x : wrap w (wrap w x) = wrap w x.
Proof.
  unfold wrap. destruct (decide (0 <= w)) as [Hw|Hw].
  - apply Z.mod_mod. lia.
  - rewrite Z.pow_neg_r by lia. by rewrite !Z.mod_0_r.
Qed.

Lemma unot_spec w x i : 0 <= w -> 0 <= i -> Z.testbit (unot w x) i = (i <? w) && negb (Z.testbit x i).
Proof. intros. unfold unot. by autorewrite with zbits. Qed.
#[export] Hint Rewrite unot_spec using lia : zbits.

Lemma is_u_bits w x : 0 <= w -> is_u w x <-> 0 <= x /\ forall i, w <= i -> Z.testbit x i = false.
Proof.
  intros Hw. unfold is_u. split; intros [H0 H]; (split; [done|]).
  - by apply Z.bounded_iff_bits_nonneg.
  - by apply Z.bounded_iff_bits_nonneg.
Qed.

Lemma is_u_land_l w x y : 0 <= w -> is_u w x -> is_u w (Z.land x y).
Proof.
  intros Hw [H0 H]%is_u_bits; [|done]. apply is_u_bits; [done|]. split.
  - apply Z.land_nonneg. by left.
  - intros i Hi. rewrite Z.land_spec, H by done. done.
Qed.

Lemma is_u_land_r w x y : 0 <= w -> is_u w y -> is_u w (Z.land x y).
Proof. intros. rewrite Z.land_comm. by apply is_u_land_l. Qed.

Lemma is_u_lor w x y : 0 <= w -> is_u w x -> is_u w y -> is_u w (Z.lor x y).
Proof.
  intros Hw [H0 H]%is_u_bits [H0' H']%is_u_bits; try done. apply is_u_bits; [done|]. split.
  - by apply Z.lor_nonneg.
  - intros i Hi. by rewrite Z.lor_spec, H, H'.
Qed.

Lemma is_u_lxor w x y : 0 <= w -> is_u w x -> is_u w y -> is_u w (Z.lxor x y).
Proof.
  intros Hw [H0 H]%is_u_bits [H0' H']%is_u_bits; try done. apply is_u_bits; [done|]. split.
  - apply Z.lxor_nonneg. lia.
  - intros i Hi. by rewrite Z.lxor_spec, H, H'.
Qed.

Lemma is_u_unot w x : 0 <= w -> is_u w (unot w x).
Proof.
  intros Hw. apply is_u_bits; [done|]. split.
  - apply Z.ldiff_nonneg. left. rewrite Z.ones_equiv. lia.
  - intros i Hi. rewrite unot_spec by lia. case_bits; lia || done.
Qed.

Lemma is_u_pow2 w i : 0 <= i < w -> is_u w (2 ^ i).
Proof. intros. unfold is_u. split; [lia|]. apply Z.pow_lt_mono_r; lia. Qed.

#[export] Hint Resolve wrap_range is_u_land_l is_u_land_r is_u_lor is_u_lxor is_u_unot is_u_pow2 : width.
#[export] Hint Extern 1 (0 <= _) => lia : width.

(** A position at or after [since] in the wrapping order of a 32-bit cursor. *)
Lemma i32_range x : - 2 ^ 31 <= i32 x < 2 ^ 31.
Proof.
  unfold i32. pose proof (wrap_range 32 x ltac:(lia)) as H. unfold is_u in H.
  case_if; [apply Z.ltb_lt in Heqb | apply Z.ltb_ge in Heqb]; lia.
Qed.

Lemma i32_id x : - 2 ^ 31 <= x < 2 ^ 31 -> i32 x = x.
Proof.
  intros H. unfold i32, wrap.
  destruct (decide (0 <= x)).
  - rewrite Z.mod_small by lia. case_if; [done|]. apply Z.ltb_ge in Heqb. lia.
  - replace (x mod 2 ^ 32) with (x + 2 ^ 32)
      by (rewrite <- (Z.mod_small (x + 2 ^ 32) (2 ^ 32)) by lia;
          rewrite <- Zplus_mod_idemp_r, Z_mod_same_full, Z.add_0_r; done).
    case_if; [apply Z.ltb_lt in Heqb; lia | lia].
Qed.

Lemma i32_wrap x : i32 (wrap 32 x) = i32 x.
Proof. unfold i32. by rewrite wrap_wrap. Qed.

(** ** Lowest set and lowest clear bits

    The connection bitmask is allocated with [c | (c + 1)] (set the lowest clear
    bit) and scanned with [m & -m] / [m & (m - 1)] (take the lowest set bit). *)

Lemma first_bit x b (k : nat) :
  (forall j, 0 <= j < Z.of_nat k -> Z.testbit x j = b) \/
  exists i, 0 <= i < Z.of_nat k /\ Z.testbit x i = negb b /\
            forall j, 0 <= j < i -> Z.testbit x j = b.
Proof.
  induction k as [|k [IH|(i & Hi & Hx & Hlow)]].
  - left. intros j Hj. lia.
  - destruct (decide (Z.testbit x (Z.of_nat k) = b)) as [E|E].
    + left. intros j Hj. destruct (decide (j = Z.of_nat k)) as [->|]; [done|]. apply IH. lia.
    + right. exists (Z.of_nat k). repeat split; try lia; [|done].
      destruct (Z.testbit x (Z.of_nat k)), b; done.
  - right. exists i. repeat split; try lia; done.
Qed.

Lemma bits_high_eq a b k j :
  0 <= k <= j -> a / 2 ^ k = b / 2 ^ k -> Z.testbit a j = Z.testbit b j.
Proof.
  intros Hk E. replace j with ((j - k) + k) by lia.
  rewrite <- !Z.div_pow2_bits by lia. by rewrite E.
Qed.

Lemma mod_low_ones c i :
  0 <= i -> Z.testbit c i = false -> (forall j, 0 <= j < i -> Z.testbit c j = true) ->
  c mod 2 ^ (i + 1) = 2 ^ i - 1.
Proof.
  intros Hi Hc Hlow. replace (2 ^ i - 1) with (Z.ones i) by (rewrite Z.ones_equiv; lia).
  apply Z.bits_inj'. intros n Hn. rewrite Z.testbit_mod_pow2, Z.testbit_ones_nonneg by lia.
  destruct (Z.ltb_spec n (i + 1)), (Z.ltb_spec n i); simpl; try lia; try done.
  - apply Hlow. lia.
  - by replace n with i by lia.
Qed.

Lemma mod_low_zeros c i :
  0 <= i -> Z.testbit c i = true -> (forall j, 0 <= j < i -> Z.testbit c j = false) ->
  c mod 2 ^ (i + 1) = 2 ^ i.
Proof.
  intros Hi Hc Hlow. apply Z.bits_inj'. intros n Hn.
  rewrite Z.testbit_mod_pow2, Z.pow2_bits_eqb by lia.
  destruct (Z.ltb_spec n (i + 1)), (Z.eqb_spec i n); simpl; try lia; subst; try done.
  apply Hlow. lia.
Qed.

Lemma div_shift_low q r r' k : 0 <= k -> 0 <= r < 2 ^ k -> 0 <= r' < 2 ^ k ->
  (q * 2 ^ k + r) / 2 ^ k = (q * 2 ^ k + r') / 2 ^ k.
Proof. intros. rewrite !Z.div_add_l by lia. by rewrite !Z.div_small by lia. Qed.

(** Adding one to [c] only changes the bits up to the lowest clear one. *)
Lemma succ_bits c i j :
  0 <= i -> 0 <= j -> Z.testbit c i = false -> (forall j, 0 <= j < i -> Z.testbit c j = true) ->
  Z.testbit (c + 1) j = if j <? i then false else if j =? i then true else Z.testbit c j.
Proof.
  intros Hi Hj Hc Hlow. pose proof (mod_low_ones c i Hi Hc Hlow) as Hm.
  assert (2 ^ (i + 1) = 2 * 2 ^ i) as Hp by (rewrite Z.pow_add_r by lia; lia).
  assert (0 < 2 ^ i) by lia.
  pose proof (Z.div_mod c (2 ^ (i + 1)) ltac:(lia)) as Hd. rewrite Hm in Hd.
  destruct (Z.ltb_spec j (i + 1)) as [Hlt|Hge].
  - rewrite <- (Z.mod_pow2_bits_low (c + 1) (i + 1)) by lia.
    rewrite <- Z.add_mod_idemp_l, Hm by lia.
    replace (2 ^ i - 1 + 1) with (2 ^ i) by lia.
    rewrite Z.mod_small, Z.pow2_bits_eqb by lia.
    destruct (Z.ltb_spec j i), (Z.eqb_spec j i), (Z.eqb_spec i j); lia || done.
  - destruct (Z.ltb_spec j i), (Z.eqb_spec j i); try lia.
    apply (bits_high_eq _ _ (i + 1)); [lia|]. rewrite Hd.
    replace (2 ^ (i + 1) * (c `div` 2 ^ (i + 1)) + (2 ^ i - 1) + 1)
      with (c `div` 2 ^ (i + 1) * 2 ^ (i + 1) + 2 ^ i) by lia.
    rewrite (Z.mul_comm (2 ^ (i + 1))). apply div_shift_low; lia.
Qed.

(** Subtracting one from [m] only changes the bits up to the lowest set one. *)
Lemma pred_bits m i j :
  0 <= i -> 0 <= j -> Z.testbit m i = true -> (forall j, 0 <= j < i -> Z.testbit m j = false) ->
  Z.testbit (m - 1) j = if j <? i then true else if j =? i then false else Z.testbit m j.
Proof.
  intros Hi Hj Hc Hlow. pose proof (mod_low_zeros m i Hi Hc Hlow) as Hm.
  assert (2 ^ (i + 1) = 2 * 2 ^ i) as Hp by (rewrite Z.pow_add_r by lia; lia).
  assert (0 < 2 ^ i) by lia.
  pose proof (Z.div_mod m (2 ^ (i + 1)) ltac:(lia)) as Hd. rewrite Hm in Hd.
  destruct (Z.ltb_spec j (i + 1)) as [Hlt|Hge].
  - rewrite <- (Z.mod_pow2_bits_low (m - 1) (i + 1)) by lia.
    rewrite <- Zminus_mod_idemp_l, Hm. rewrite Z.mod_small by lia.
    replace (2 ^ i - 1) with (Z.ones i) by (rewrite Z.ones_equiv; lia).
    rewrite Z.testbit_ones_nonneg by lia.
    destruct (Z.ltb_spec j i), (Z.eqb_spec j i); lia || done.
  - destruct (Z.ltb_spec j i), (Z.eqb_spec j i); try lia.
    apply (bits_high_eq _ _ (i + 1)); [lia|]. rewrite Hd.
    replace (2 ^ (i + 1) * (m `div` 2 ^ (i + 1)) + 2 ^ i - 1)
      with (m `div` 2 ^ (i + 1) * 2 ^ (i + 1) + (2 ^ i - 1)) by lia.
    rewrite (Z.mul_comm (2 ^ (i + 1))). apply div_shift_low; lia.
Qed.

(** [c | (c + 1)] sets exactly the lowest clear bit. *)
Lemma set_lowest_clear w c :
  0 < w -> is_u w c -> Z.lor c (wrapping_add w c 1) <> c ->
  exists i, 0 <= i < w /\ Z.testbit c i = false /\ (forall j, 0 <= j < i -> Z.testbit c j = true) /\
            Z.lor c (wrapping_add w c 1) = Z.lor c (2 ^ i) /\
            Z.lxor (Z.lor c (wrapping_add w c 1)) c = 2 ^ i.
Proof.
  intros Hw Hc Hne. pose proof (proj1 (is_u_bits w c ltac:(lia)) Hc) as [_ Hhigh].
  destruct (first_bit c true (Z.to_nat w)) as [Hall|(i & Hi & Hx & Hlow)].
  - exfalso. apply Hne. bitwise. unfold wrapping_add, wrap. autorewrite with zbits.
    destruct (Z.ltb_spec i w); simpl; [by rewrite Hall by lia | by rewrite orb_false_r].
  - exists i. simpl in Hx. rewrite Z2Nat.id in Hi by lia.
    assert (Z.lor c (wrapping_add w c 1) = Z.lor c (2 ^ i)) as E.
    { apply Z.bits_inj'. intros j Hj. unfold wrapping_add, wrap. autorewrite with zbits.
      rewrite (succ_bits c i) by (try lia; done).
      destruct (Z.ltb_spec j w), (Z.ltb_spec j i), (Z.eqb_spec j i), (Z.eqb_spec i j);
        simpl; rewrite ?orb_true_r, ?orb_false_r; try done; try lia.
      all: try (by rewrite Hlow by lia); by destruct (Z.testbit c j). }
    repeat split; try lia; try done. rewrite E. apply Z.bits_inj'. intros j Hj.
    autorewrite with zbits. destruct (Z.eqb_spec i j) as [->|]; simpl.
    + by rewrite Hx.
    + by destruct (Z.testbit c j).
Qed.

Lemma lowest_clear_full w c :
  0 < w -> is_u w c -> Z.lor c (wrapping_add w c 1) = c -> c = 2 ^ w - 1.
Proof.
  intros Hw Hc E. pose proof (proj1 (is_u_bits w c ltac:(lia)) Hc) as [_ Hhigh].
  destruct (first_bit c true (Z.to_nat w)) as [Hall|(i & Hi & Hx & Hlow)].
  - replace (2 ^ w - 1) with (Z.ones w) by (rewrite Z.ones_equiv; lia).
    bitwise. destruct (Z.ltb_spec i w); [apply Hall; lia | apply Hhigh; lia].
  - exfalso. simpl in Hx. rewrite Z2Nat.id in Hi by lia.
    assert (Z.testbit (Z.lor c (wrapping_add w c 1)) i = true) as Ht.
    { unfold wrapping_add, wrap. autorewrite with zbits.
      rewrite (succ_bits c i) by (try lia; done).
      destruct (Z.ltb_spec i w), (Z.ltb_spec i i), (Z.eqb_spec i i); try lia.
      all: by rewrite ?orb_true_r. }
    rewrite E in Ht. congruence.
Qed.

Lemma filter_none {A} (P : A -> Prop) `{!forall x, Decision (P x)} (l : list A) :
  (forall x, x ∈ l -> ~ P x) -> filter P l = [].
Proof.
  induction l as [|x l IH]; intros Hl; [done|].
  rewrite filter_cons_False by (apply Hl; left). apply IH. intros y Hy. apply Hl. by right.
Qed.

Lemma filter_ext_in {A} (P Q : A -> Prop) `{!forall x, Decision (P x), !forall x, Decision (Q x)}
    (l : list A) :
  (forall x, x ∈ l -> P x <-> Q x) -> filter P l = filter Q l.
Proof.
  induction l as [|x l IH]; intros Hl; [done|]. pose proof (Hl x ltac:(left)) as Hx.
  rewrite !filter_cons, IH by (intros y Hy; apply Hl; by right).
  by apply decide_ext.
Qed.

(** The scan loop [while m != 0 { bit = m & -m; m &= m - 1; .. }]: the bits it visits. *)
Fixpoint scan_bits (fuel : nat) (m : Z) : list Z :=
  match fuel with
  | O => []
  | S fuel =>
      if m =? 0 then []
      else Z.land m (wrapping_neg 32 m) :: scan_bits fuel (Z.land m (m - 1))
  end.

Lemma lowest_set m i :
  is_u 32 m -> 0 <= i < 32 -> Z.testbit m i = true -> (forall j, 0 <= j < i -> Z.testbit m j = false) ->
  Z.land m (wrapping_neg 32 m) = 2 ^ i /\ Z.land m (m - 1) = Z.ldiff m (2 ^ i).
Proof.
  intros Hm Hi Hx Hlow. pose proof (proj1 (is_u_bits 32 m ltac:(lia)) Hm) as [_ Hhigh].
  replace (wrapping_neg 32 m) with (wrap 32 (Z.lnot (m - 1)))
    by (unfold wrapping_neg, Z.lnot; f_equal; lia).
  unfold wrap. split; apply Z.bits_inj'; intros j Hj; autorewrite with zbits;
    rewrite (pred_bits m i) by (try lia; done);
    destruct (Z.ltb_spec j 32), (Z.ltb_spec j i), (Z.eqb_spec j i), (Z.eqb_spec i j); subst; simpl;
    rewrite ?andb_true_r, ?andb_false_r; try lia; try done;
    try (by rewrite Hlow by lia); by destruct (Z.testbit m j).
Qed.

Lemma ldiff_pow2_bits m i j : 0 <= i -> 0 <= j ->
  Z.testbit (Z.ldiff m (2 ^ i)) j = Z.testbit m j && negb (i =? j).
Proof. intros. by autorewrite with zbits. Qed.

Lemma scan_bits_spec_aux fuel m k :
  is_u 32 m -> 0 <= k <= 32 -> (forall j, 0 <= j < k -> Z.testbit m j = false) ->
  (Z.to_nat (32 - k) <= fuel)%nat ->
  scan_bits fuel m =
  Z.pow 2 <$> filter (fun i => Z.testbit m i = true) (seqZ k (32 - k)).
Proof.
  revert m k. induction fuel as [|fuel IH]; intros m k Hm Hk Hlow Hf.
  - replace (32 - k) with 0 by lia. done.
  - simpl. pose proof (proj1 (is_u_bits 32 m ltac:(lia)) Hm) as [_ Hhigh].
    destruct (first_bit m false 32) as [Hall|(i & Hi & Hx & Hmin)].
    + assert (m = 0) as ->.
      { bitwise. destruct (Z.ltb_spec i 32); [apply Hall | apply Hhigh]; lia. }
      simpl. by rewrite filter_none by (intros x _; by rewrite Z.bits_0).
    + simpl in Hx. replace (Z.of_nat 32) with 32 in Hi by done.
      destruct (Z.eqb_spec m 0) as [->|Hm0]; [by rewrite Z.bits_0 in Hx|].
      assert (k <= i) as Hki.
      { destruct (decide (k <= i)); [done|]. rewrite Hlow in Hx by lia. done. }
      destruct (lowest_set m i) as [-> ->]; try done.
      rewrite (IH _ (i + 1)).
      * replace (seqZ k (32 - k)) with (seqZ k (i - k) ++ i :: seqZ (i + 1) (32 - (i + 1))).
        2:{ replace (32 - k) with ((i - k) + Z.succ (32 - (i + 1))) by lia.
            rewrite seqZ_app by lia. f_equal. rewrite (seqZ_cons _ (Z.succ _)) by lia.
            f_equal; [lia|]. f_equal; lia. }
        rewrite filter_app, filter_cons_True by done.
        replace (filter _ (seqZ k (i - k))) with (@nil Z).
        2:{ symmetry. apply filter_none. intros x Hx'%elem_of_seqZ.
            rewrite Hmin by lia. done. }
        simpl. f_equal. f_equal. apply filter_ext_in. intros x Hx'%elem_of_seqZ.
        rewrite ldiff_pow2_bits by lia. destruct (Z.eqb_spec i x); [lia|]. simpl. by rewrite andb_true_r.
      * apply is_u_bits; [lia|]. split; [apply Z.ldiff_nonneg; left; apply Hm|].
        intros j Hj. rewrite ldiff_pow2_bits, Hhigh by lia. done.
      * lia.
      * intros j Hj. rewrite ldiff_pow2_bits by lia.
        destruct (Z.eqb_spec i j); [by rewrite andb_false_r|]. rewrite Hmin by lia. done.
      * lia.
Qed.

(** Fuel 32 is enough: the loop visits each set bit of a [u32] once, lowest first. *)
Lemma scan_bits_spec m :
  is_u 32 m -> scan_bits 32 m = Z.pow 2 <$> filter (fun i => Z.testbit m i = true) (seqZ 0 32).
Proof. intros Hm. apply scan_bits_spec_aux; try lia; done. Qed.

Lemma elem_of_scan_bits m b :
  is_u 32 m -> b ∈ scan_bits 32 m <-> exists i, 0 <= i < 32 /\ b = 2 ^ i /\ Z.testbit m i = true.
Proof.
  intros Hm. rewrite scan_bits_spec, list_elem_of_fmap by done. split.
  - intros (i & -> & [Hi Hs%elem_of_seqZ]%list_elem_of_filter). exists i. repeat split; lia || done.
  - intros (i & Hi & -> & Ht). exists i. split; [done|]. apply list_elem_of_filter.
    split; [done|]. apply elem_of_seqZ. lia.
Qed.

(** Induction over the scan of a [u32]: to prove [P fuel m] of a loop that clears
    the lowest set bit each round, prove it at 0 and across one round. *)
Lemma scan_ind (P : nat -> Z -> Prop) :
  (forall fuel, P (S fuel) 0) ->
  (forall fuel m i, is_u 32 m -> 0 <= i < 32 -> Z.testbit m i = true ->
     Z.land m (wrapping_neg 32 m) = 2 ^ i -> Z.land m (m - 1) = Z.ldiff m (2 ^ i) -> m <> 0 ->
     is_u 32 (Z.ldiff m (2 ^ i)) -> P fuel (Z.ldiff m (2 ^ i)) -> P (S fuel) m) ->
  forall m, is_u 32 m -> P 33%nat m.
Proof.
  intros H0 HS.
  assert (forall fuel m k, is_u 32 m -> 0 <= k <= 32 -> (forall j, 0 <= j < k -> Z.testbit m j = false) ->
            32 - k < Z.of_nat fuel -> P fuel m) as Hgen.
  { induction fuel as [|fuel IH]; intros m k Hm Hk Hlow Hf; [lia|].
    pose proof (proj1 (is_u_bits 32 m ltac:(lia)) Hm) as [_ Hhigh].
    destruct (first_bit m false 32) as [Hall|(i & Hi & Hx & Hmin)].
    - assert (m = 0) as ->; [|done].
      bitwise. destruct (Z.ltb_spec i 32); [apply Hall | apply Hhigh]; lia.
    - simpl in Hx. replace (Z.of_nat 32) with 32 in Hi by done.
      assert (k <= i) as Hki.
      { destruct (decide (k <= i)); [done|]. rewrite Hlow in Hx by lia. done. }
      destruct (lowest_set m i) as [E1 E2]; try done.
      assert (is_u 32 (Z.ldiff m (2 ^ i))) as Hu.
      { apply is_u_bits; [lia|]. split; [apply Z.ldiff_nonneg; left; apply Hm|].
        intros j Hj. rewrite ldiff_pow2_bits, Hhigh by lia. done. }
      apply (HS fuel m i); try done; [intros ->; by rewrite Z.bits_0 in Hx|].
      apply (IH _ (i + 1)); [done|lia| |lia].
      intros j Hj. rewrite ldiff_pow2_bits by lia.
      destruct (Z.eqb_spec i j); [by rewrite andb_false_r|]. by rewrite Hmin by lia. }
  intros m Hm. apply (Hgen 33%nat m 0); [done|lia| |lia]. intros j Hj. lia.
Qed.

Lemma trailing_zeros_pow2 (w : nat) i : 0 <= i < Z.of_nat w -> trailing_zeros w (2 ^ i) = i.
Proof.
  intros Hi. unfold trailing_zeros.
  destruct (list_find _ _) as [[k j]|] eqn:E.
  - apply list_find_Some in E as (_ & Ht & _). rewrite Z.pow2_bits_eqb in Ht by lia.
    apply Z.eqb_eq in Ht. lia.
  - apply list_find_None in E. rewrite Forall_forall in E.
    exfalso. apply (E (Z.to_nat i)).
    + apply elem_of_seq. lia.
    + rewrite Z2Nat.id by lia. by rewrite Z.pow2_bits_true by lia.
Qed.

(** Disjointness of single bits. *)
Lemma land_pow2 m i : 0 <= i -> Z.land m (2 ^ i) = if Z.testbit m i then 2 ^ i else 0.
Proof.
  intros Hi. apply Z.bits_inj'. intros j Hj. autorewrite with zbits.
  destruct (Z.eqb_spec i j) as [->|].
  - destruct (Z.testbit m j) eqn:E; autorewrite with zbits; [|done]. by rewrite Z.eqb_refl.
  - rewrite andb_false_r. destruct (Z.testbit m i); autorewrite with zbits; [|done].
    destruct (Z.eqb_spec i j); done.
Qed.

Lemma land_pow2_zero m i : 0 <= i -> Z.land m (2 ^ i) = 0 <-> Z.testbit m i = false.
Proof.
  intros Hi. rewrite land_pow2 by done. destruct (Z.testbit m i); split; intros H; try done.
  pose proof (Z.pow_pos_nonneg 2 i). lia.
Qed.

(** ** Bytes

    A byte string is a [list Z] of values in [0, 256).  The targets of the
    library are little-endian, so [to_ne_bytes] / [from_ne_bytes] of a [w]-byte
    integer are [Z_to_little_endian] / [little_endian_to_Z] at 8 bits. *)

Definition is_bytes (bs : list Z) : Prop := Forall (is_u 8) bs.

Definition to_ne_bytes (n : Z) (x : Z) : list Z := Z_to_little_endian n 8 x.

Definition from_ne_bytes (bs : list Z) : Z := little_endian_to_Z 8 bs.

Lemma from_to_ne_bytes n x : 0 <= n -> from_ne_bytes (to_ne_bytes n x) = wrap (n * 8) x.
Proof.
  intros Hn. unfold from_ne_bytes, to_ne_bytes.
  rewrite little_endian_to_Z_to_little_endian by lia. done.
Qed.

Lemma length_to_ne_bytes n x : 0 <= n -> length (to_ne_bytes n x) = Z.to_nat n.
Proof. intros Hn. unfold to_ne_bytes. pose proof (length_Z_to_little_endian n 8 x Hn). lia. Qed.

Lemma to_ne_bytes_range n x : 0 <= n -> is_bytes (to_ne_bytes n x).
Proof.
  intros Hn. unfold is_bytes, to_ne_bytes, is_u.
  by apply Z_to_little_endian_bound.
Qed.

Lemma to_from_ne_bytes bs : is_bytes bs -> to_ne_bytes (Z.of_nat (length bs)) (from_ne_bytes bs) = bs.
Proof.
  intros H. unfold to_ne_bytes, from_ne_bytes. by apply Z_to_little_endian_to_Z.
Qed.

Lemma from_ne_bytes_range bs : is_bytes bs -> is_u (Z.of_nat (length bs) * 8) (from_ne_bytes bs).
Proof. intros H. by apply little_endian_to_Z_bound. Qed.

(** Bytes of a string (the model of [str::as_bytes]): stdpp strings hold 8-bit characters. *)
Fixpoint bytes_of_string (s : string) : list Z :=
  match s with
  | EmptyString => []
  | String c s => Z.of_N (Ascii.N_of_ascii c) :: bytes_of_string s
  end.

Lemma bytes_of_string_range s : is_bytes (bytes_of_string s).
Proof.
  induction s as [|c s IH]; simpl; constructor; [|done].
  unfold is_u. pose proof (Ascii.N_ascii_bounded c). lia.
Qed.

Lemma bytes_of_string_app s t : bytes_of_string (s +:+ t) = bytes_of_string s ++ bytes_of_string t.
Proof. induction s as [|c s IH]; simpl; [done|]. by rewrite IH. Qed.

Lemma bytes_of_string_length s : length (bytes_of_string s) = String.length s.
Proof. induction s as [|c s IH]; simpl; [done|]. by rewrite IH. Qed.

(** ** Slices: [data[a..b]] and [buf[off..off+n].copy_from_slice(src)] *)

Definition slice {A} (a b : nat) (l : list A) : list A := take (b - a) (drop a l).

Definition splice {A} (off : nat) (src l : list A) : list A :=
  take off l ++ src ++ drop (off + length src) l.

Lemma length_splice {A} off (src l : list A) :
  (off + length src <= length l)%nat -> length (splice off src l) = length l.
Proof. intros H. unfold splice. rewrite !length_app, length_take, length_drop. lia. Qed.

Lemma take_splice {A} off (src l : list A) :
  (off + length src <= length l)%nat ->
  take (off + length src) (splice off src l) = take off l ++ src.
Proof.
  intros H. unfold splice. rewrite app_assoc, take_app_le.
  - rewrite take_ge; [done|]. rewrite length_app, length_take. lia.
  - rewrite length_app, length_take. lia.
Qed.

Lemma slice_app_take {A} (l : list A) a b : (a <= b)%nat -> take a l ++ slice a b l = take b l.
Proof.
  intros H. unfold slice. rewrite take_drop_commute.
  replace (a + (b - a))%nat with b by lia.
  rewrite <- (take_drop a (take b l)) at 2. f_equal.
  rewrite take_take. f_equal. lia.
Qed.

Lemma length_slice {A} (l : list A) a b : (b <= length l)%nat -> length (slice a b l) = (b - a)%nat.
Proof. intros H. unfold slice. rewrite length_take, length_drop. lia. Qed.

Lemma lookup_splice {A} off (src l : list A) i :
  (off + length src <= length l)%nat ->
  splice off src l !! i =
  if decide (i < off)%nat then l !! i
  else if decide (i < off + length src)%nat then src !! (i - off)%nat else l !! i.
Proof.
  intros H. unfold splice. destruct (decide (i < off)%nat).
  - rewrite lookup_app_l by (rewrite length_take; lia). by rewrite lookup_take_lt.
  - rewrite lookup_app_r by (rewrite length_take; lia). rewrite length_take, Nat.min_l by lia.
    destruct (decide (i < off + length src)%nat).
    + by rewrite lookup_app_l by lia.
    + rewrite lookup_app_r by lia. rewrite lookup_drop. f_equal. lia.
Qed.

Lemma lookup_window {A} (l : list A) off n i :
  take n (drop off l) !! i = if decide (i < n)%nat then l !! (off + i)%nat else None.
Proof.
  destruct (decide (i < n)%nat).
  - by rewrite lookup_take_lt, lookup_drop.
  - by rewrite lookup_take_ge by lia.
Qed.

(** Reading back what was just written. *)
Lemma window_splice_same {A} off (src l : list A) :
  (off + length src <= length l)%nat -> take (length src) (drop off (splice off src l)) = src.
Proof.
  intros H. apply list_eq. intros i. rewrite lookup_window. destruct (decide (i < length src)%nat).
  - rewrite lookup_splice by lia. repeat destruct (decide _); try lia. f_equal. lia.
  - symmetry. apply lookup_ge_None. lia.
Qed.

(** A write elsewhere does not show. *)
Lemma window_splice_other {A} off (src l : list A) o n :
  (off + length src <= length l)%nat -> (o + n <= off \/ off + length src <= o)%nat ->
  take n (drop o (splice off src l)) = take n (drop o l).
Proof.
  intros H Ho. apply list_eq. intros i. rewrite !lookup_window. destruct (decide (i < n)%nat); [|done].
  rewrite lookup_splice by lia. by repeat destruct (decide _); try lia.
Qed.
