(* ===== verification/Atomics.v ===== *)
(** * Programs over shared memory

    The Rust port manipulates memory shared between processes through atomic
    accesses.  A function of the source that does so is translated to a [prog]:
    a tree of atomic accesses to a shared state [S], each followed by the rest of
    the function as a function of the value read.  A loop that retries until a
    compare-and-swap succeeds takes fuel, and [Spin] is the fuel running out.

    Two semantics are given to the same tree: [exec] runs one program alone (the
    operation-level view), and [pool_step] interleaves the programs of a pool of
    threads access by access.  Accesses are sequentially consistent; the memory
    orderings of the source are not modelled. *)
From S2P Require Import Prelude.

(** ** Programs *)

Inductive prog (S A : Type) : Type :=
| Ret (a : A)
| Spin
| Act (X : Type) (f : S -> X * S) (k : X -> prog S A)
| Flip (k : bool -> prog S A).
Arguments Ret {S A} _.
Arguments Spin {S A}.
Arguments Act {S A X} _ _.
Arguments Flip {S A} _.

Fixpoint prog_bind {S A B : Type} (p : prog S A) (h : A -> prog S B) : prog S B :=
  match p with
  | Ret a => h a
  | Spin => Spin
  | Act f k => Act f (fun x => prog_bind (k x) h)
  | Flip k => Flip (fun b => prog_bind (k b) h)
  end.

#[export] Instance prog_mret S : MRet (prog S) := fun A a => Ret a.
#[export] Instance prog_mbind S : MBind (prog S) := fun A B h p => prog_bind p h.

(** The [?] operator: return early on an error. *)
Notation "x ←? p ; q" :=
  (mbind (fun r => match r with Ok x => q | Err e' => Ret (Err e') end) p)
  (at level 20, p at level 100, q at level 200, only parsing) : stdpp_scope.

(** ** Fields and atomic accesses *)

Record field (S T : Type) := mk_field { fget : S -> T; fset : T -> S -> S }.
Arguments mk_field {S T} _ _.
Arguments fget {S T} _ _.
Arguments fset {S T} _ _ _.

Class LawfulField {S T} (f : field S T) := {
  get_set : forall v s, fget f (fset f v s) = v;
  set_set : forall v w s, fset f v (fset f w s) = fset f v s;
}.

(** A field of a field. *)
Definition sub_field {S T U} (f : field S T) (g : field T U) : field S U :=
  mk_field (fun s => fget g (fget f s)) (fun v s => fset f (fset g v (fget f s)) s).

#[export] Instance sub_field_lawful {S T U} (f : field S T) (g : field T U) :
  LawfulField f -> LawfulField g -> LawfulField (sub_field f g).
Proof.
  intros Hf Hg. split; intros; simpl.
  - by rewrite get_set, get_set.
  - by rewrite get_set, set_set, set_set.
Qed.

(** An entry of a table of slots; a slot never written reads as [inhabitant]. *)
Definition at_key {K V} `{Countable K, Inhabited V} (k : K) : field (gmap K V) V :=
  mk_field (fun m => m !!! k) (fun v m => <[k := v]> m).

#[export] Instance at_key_lawful {K V} `{Countable K, Inhabited V} (k : K) : LawfulField (at_key (V:=V) k).
Proof.
  split; intros; simpl; [apply lookup_total_insert_eq | apply insert_insert_eq].
Qed.

(** Fields that do not overlap. *)
Class Independent {S T U} (f : field S T) (g : field S U) := {
  get_other_l : forall v s, fget f (fset g v s) = fget f s;
  get_other_r : forall v s, fget g (fset f v s) = fget g s;
}.

(** A state change confined to one field. *)
Definition only_changes {S T} (f : field S T) (s s' : S) : Prop := s' = s \/ exists v, s' = fset f v s.

Lemma only_changes_refl {S T} (f : field S T) s : only_changes f s s.
Proof. by left. Qed.

Lemma only_changes_set {S T} (f : field S T) v s : only_changes f s (fset f v s).
Proof. right. by exists v. Qed.

Lemma only_changes_trans {S T} (f : field S T) `{!LawfulField f} s1 s2 s3 :
  only_changes f s1 s2 -> only_changes f s2 s3 -> only_changes f s1 s3.
Proof.
  intros [->|[v ->]] [->|[w ->]]; [by left|by right; exists w|by right; exists v|].
  right. exists w. by rewrite set_set.
Qed.

(** A change of a part is a change of the whole. *)
Lemma only_changes_sub {S T U} (f : field S T) (g : field T U) s s' :
  only_changes (sub_field f g) s s' -> only_changes f s s'.
Proof. intros [->|[v ->]]; [by left|]. right. by exists (fset g v (fget f s)). Qed.

Section accesses.
Context {S : Type}.

Definition act {X} (f : S -> X * S) : prog S X := Act f Ret.

Definition load {T} (f : field S T) : prog S T := act (fun s => (fget f s, s)).

Definition store {T} (f : field S T) (v : T) : prog S unit := act (fun s => (tt, fset f v s)).

(** A read-modify-write access returns the previous value. *)
Definition rmw {T} (f : field S T) (g : T -> T) : prog S T :=
  act (fun s => (fget f s, fset f (g (fget f s)) s)).

Definition swap {T} (f : field S T) (v : T) : prog S T := rmw f (fun _ => v).

Definition fetch_add (w : Z) (f : field S Z) (d : Z) : prog S Z := rmw f (fun x => wrapping_add w x d).

Definition fetch_sub (w : Z) (f : field S Z) (d : Z) : prog S Z := rmw f (fun x => wrapping_sub w x d).

Definition fetch_and (f : field S Z) (m : Z) : prog S Z := rmw f (fun x => Z.land x m).

Definition fetch_or (f : field S Z) (m : Z) : prog S Z := rmw f (fun x => Z.lor x m).

(** [compare_exchange]: [Ok old] on success, [Err actual] otherwise. *)
Definition compare_exchange (f : field S Z) (old new : Z) : prog S (result Z Z) :=
  act (fun s => if fget f s =? old then (Ok old, fset f new s) else (Err (fget f s), s)).

(** [compare_exchange_weak] may also fail spuriously. *)
Definition compare_exchange_weak (f : field S Z) (old new : Z) : prog S (result Z Z) :=
  Flip (fun spurious =>
    if spurious then act (fun s => (Err (fget f s), s)) else compare_exchange f old new).

End accesses.

(** Run a program on a part of a larger state. *)
Fixpoint zoom {S T A} (f : field T S) (p : prog S A) : prog T A :=
  match p with
  | Ret a => Ret a
  | Spin => Spin
  | Act g k => Act (fun t => let '(x, s') := g (fget f t) in (x, fset f s' t)) (fun x => zoom f (k x))
  | Flip k => Flip (fun b => zoom f (k b))
  end.

(** ** Running one program alone

    [tape] decides which weak compare-and-swaps fail spuriously; past its end
    none does.  [None] means the fuel ran out. *)
Fixpoint exec {S A} (p : prog S A) (tape : list bool) (s : S) : option (A * S * list bool) :=
  match p with
  | Ret a => Some (a, s, tape)
  | Spin => None
  | Act f k => let '(x, s') := f s in exec (k x) tape s'
  | Flip k =>
      match tape with
      | [] => exec (k false) [] s
      | b :: tape => exec (k b) tape s
      end
  end.

(** Result of a run with no spurious failure. *)
Definition eval {S A} (p : prog S A) (s : S) : option (A * S) :=
  (fun '(a, s', _) => (a, s')) <$> exec p [] s.

(** [runs n p s Q]: run from [s] with fewer than [n] scheduled decisions (so with
    fewer than [n] spurious failures), [p] returns, and its value and final state satisfy [Q] (total correctness). *)
Definition runs {S A} (n : nat) (p : prog S A) (s : S) (Q : A -> S -> Prop) : Prop :=
  forall tape, (length tape < n)%nat ->
  exists a s' tape', exec p tape s = Some (a, s', tape') /\ (length tape' <= length tape)%nat /\ Q a s'.

Section runs.
Context {S : Type}.
Implicit Type s : S.

Lemma exec_bind {A B} (p : prog S A) (h : A -> prog S B) tape s :
  exec (p ≫= h) tape s =
  match exec p tape s with Some (a, s', tape') => exec (h a) tape' s' | None => None end.
Proof.
  unfold mbind, prog_mbind. revert tape s.
  induction p as [a| |X f k IH|k IH]; intros tape s; simpl; try done.
  - destruct (f s) as [x s']. apply IH.
  - destruct tape; apply IH.
Qed.

Lemma runs_ret {A} n (a : A) s (Q : A -> S -> Prop) : Q a s -> runs n (Ret a) s Q.
Proof. intros HQ tape Ht. exists a, s, tape. done. Qed.

Lemma runs_act {A X} n (f : S -> X * S) (k : X -> prog S A) s Q :
  runs n (k (f s).1) (f s).2 Q -> runs n (Act f k) s Q.
Proof.
  intros H tape Ht. destruct (H tape Ht) as (a & s' & tape' & E & Hl & HQ).
  exists a, s', tape'. split; [|done]. simpl. by destruct (f s).
Qed.

Lemma runs_bind {A B} n (p : prog S A) (h : A -> prog S B) s Q :
  runs n p s (fun a s' => runs n (h a) s' Q) -> runs n (p ≫= h) s Q.
Proof.
  intros H tape Ht. destruct (H tape Ht) as (a & s' & tape' & E & Hl & HQ).
  destruct (HQ tape' ltac:(lia)) as (b & s'' & tape'' & E' & Hl' & HQ').
  exists b, s'', tape''. rewrite exec_bind, E. split; [done|]. split; [lia|done].
Qed.

Lemma runs_conseq {A} n (p : prog S A) s (P Q : A -> S -> Prop) :
  runs n p s P -> (forall a s', P a s' -> Q a s') -> runs n p s Q.
Proof.
  intros H HPQ tape Ht. destruct (H tape Ht) as (a & s' & tape' & E & Hl & HP). eauto 10.
Qed.

Lemma runs_mono {A} n m (p : prog S A) s Q : (m <= n)%nat -> runs n p s Q -> runs m p s Q.
Proof. intros Hm H tape Ht. apply H. lia. Qed.

(** A weak compare-and-swap whose expected value is the current one either
    succeeds or has used up one spurious failure. *)
Lemma runs_cas_weak {A} n (f : field S Z) old new (k : result Z Z -> prog S A) s Q :
  fget f s = old ->
  runs n (k (Ok old)) (fset f new s) Q ->
  runs (n - 1) (k (Err old)) s Q ->
  runs n (compare_exchange_weak f old new ≫= k) s Q.
Proof.
  intros E Hok Herr [|b tape] Ht; simpl in Ht.
  - destruct (Hok [] Ht) as (a & s' & tape' & Ex & Hl & HQ).
    exists a, s', tape'. split; [|done]. unfold compare_exchange_weak, mbind, prog_mbind. simpl.
    rewrite E, Z.eqb_refl. done.
  - destruct b.
    + destruct (Herr tape ltac:(lia)) as (a & s' & tape' & Ex & Hl & HQ).
      exists a, s', tape'. split; [|split; [simpl; lia|done]].
      unfold compare_exchange_weak, mbind, prog_mbind. simpl. by rewrite E.
    + destruct (Hok tape ltac:(lia)) as (a & s' & tape' & Ex & Hl & HQ).
      exists a, s', tape'. split; [|split; [simpl; lia|done]].
      unfold compare_exchange_weak, mbind, prog_mbind. simpl. by rewrite E, Z.eqb_refl.
Qed.

(** One access and the rest of the program. *)
Lemma runs_act_bind {A X} n (f : S -> X * S) (h : X -> prog S A) s Q :
  runs n (h (f s).1) (f s).2 Q -> runs n (act f ≫= h) s Q.
Proof. intros H. apply runs_bind, runs_act, runs_ret. exact H. Qed.

Lemma runs_eval {A} (p : prog S A) s Q : runs 1 p s Q -> exists a s', eval p s = Some (a, s') /\ Q a s'.
Proof.
  intros H. destruct (H [] ltac:(simpl; lia)) as (a & s' & tape' & E & _ & HQ).
  exists a, s'. unfold eval. by rewrite E.
Qed.

End runs.

(** ** Frames: what a program leaves alone

    [keeps g p]: no access of [p] changes [g], whatever the state. *)
Fixpoint keeps {S A T} (g : S -> T) (p : prog S A) : Prop :=
  match p with
  | Ret _ | Spin => True
  | Act f k => (forall s, g (f s).2 = g s) /\ forall x, keeps g (k x)
  | Flip k => forall b, keeps g (k b)
  end.

Section keeps.
Context {S T : Type} (g : S -> T).

Lemma keeps_bind {A B} (p : prog S A) (h : A -> prog S B) :
  keeps g p -> (forall a, keeps g (h a)) -> keeps g (p ≫= h).
Proof.
  intros Hp Hh. induction p as [a| |X f k IH|k IH]; simpl in *; [apply Hh|done| |].
  - destruct Hp as [H1 H2]. split; [done|]. intros x. apply IH, H2.
  - intros b. apply IH, Hp.
Qed.

Lemma keeps_act {X} (f : S -> X * S) : (forall s, g (f s).2 = g s) -> keeps g (act f).
Proof. intros H. by split. Qed.

Lemma keeps_load {U} (f : field S U) : keeps g (load f).
Proof. by split. Qed.

Lemma keeps_store {U} (f : field S U) v : (forall v s, g (fset f v s) = g s) -> keeps g (store f v).
Proof. intros H. split; [|done]. intros s. apply H. Qed.

Lemma keeps_rmw {U} (f : field S U) h : (forall v s, g (fset f v s) = g s) -> keeps g (rmw f h).
Proof. intros H. split; [|done]. intros s. apply H. Qed.

Lemma keeps_cas (f : field S Z) x y : (forall v s, g (fset f v s) = g s) -> keeps g (compare_exchange f x y).
Proof. intros H. split; [|done]. intros s. destruct (_ =? _); [apply H|done]. Qed.

Lemma keeps_cas_weak (f : field S Z) x y : (forall v s, g (fset f v s) = g s) -> keeps g (compare_exchange_weak f x y).
Proof. intros H []; [by split|]. by apply keeps_cas. Qed.

Lemma keeps_if {A} (b : bool) (p q : prog S A) : keeps g p -> keeps g q -> keeps g (if b then p else q).
Proof. by destruct b. Qed.

Lemma exec_keeps {A} (p : prog S A) tape s a s' tape' :
  keeps g p -> exec p tape s = Some (a, s', tape') -> g s' = g s.
Proof.
  revert tape s. induction p as [x| |X f k IH|k IH]; intros tape s Hk E; simpl in *; simplify_eq; try done.
  - destruct Hk as [H1 H2]. specialize (H1 s). destruct (f s) as [x s1]. simpl in *. rewrite <- H1. by eapply IH.
  - destruct tape as [|b tape]; by eapply IH.
Qed.

(** The frame rule. *)
Lemma runs_frame {A} n (p : prog S A) s Q :
  keeps g p -> runs n p s Q -> runs n p s (fun a s' => Q a s' /\ g s' = g s).
Proof.
  intros Hk H tape Ht. destruct (H tape Ht) as (a & s' & tape' & E & Hl & HQ).
  exists a, s', tape'. split; [done|]. split; [done|]. split; [done|]. by eapply exec_keeps.
Qed.

End keeps.

(** Walk through a program to show that it leaves [g] alone. *)
Ltac frame_side := intros; try done; simpl; rewrite ?get_set, ?lookup_total_insert_eq; done.
Ltac keeps_step :=
  match goal with
  | |- keeps _ (Ret _) => exact I
  | |- keeps _ Spin => exact I
  | |- keeps _ (mbind _ _) => apply keeps_bind; [|intros ?]
  | |- keeps _ (load _) => apply keeps_load
  | |- keeps _ (store _ _) => apply keeps_store; frame_side
  | |- keeps _ (rmw _ _) => apply keeps_rmw; frame_side
  | |- keeps _ (swap _ _) => apply keeps_rmw; frame_side
  | |- keeps _ (fetch_add _ _ _) => apply keeps_rmw; frame_side
  | |- keeps _ (fetch_sub _ _ _) => apply keeps_rmw; frame_side
  | |- keeps _ (fetch_and _ _) => apply keeps_rmw; frame_side
  | |- keeps _ (fetch_or _ _) => apply keeps_rmw; frame_side
  | |- keeps _ (compare_exchange _ _ _) => apply keeps_cas; frame_side
  | |- keeps _ (compare_exchange_weak _ _ _) => apply keeps_cas_weak; frame_side
  | |- keeps _ (if ?b then _ else _) => apply keeps_if
  | |- keeps _ (match ?x with _ => _ end) => destruct x
  | |- keeps _ (act _) => apply keeps_act; frame_side
  end.

(** [always p Q]: whatever the states the accesses of [p] meet, if it returns, the result satisfies [Q]. *)
Fixpoint always {S A} (p : prog S A) (Q : A -> Prop) : Prop :=
  match p with
  | Ret a => Q a
  | Spin => True
  | Act f k => forall s, always (k (f s).1) Q
  | Flip k => forall b, always (k b) Q
  end.

Lemma always_bind {S A B} (p : prog S A) (h : A -> prog S B) Q :
  always p (fun a => always (h a) Q) -> always (p ≫= h) Q.
Proof.
  induction p as [a| |X f k IH|k IH]; simpl; [done|done| |].
  - intros H s. apply IH, H.
  - intros H b. apply IH, H.
Qed.

Lemma always_conseq {S A} (p : prog S A) (P Q : A -> Prop) : always p P -> (forall a, P a -> Q a) -> always p Q.
Proof.
  intros H HPQ. induction p as [a| |X f k IH|k IH]; simpl in *; auto.
Qed.

Lemma always_true {S A} (p : prog S A) : always p (fun _ => True).
Proof. induction p; simpl; auto. Qed.

Lemma exec_always {S A} (p : prog S A) Q tape s a s' tape' :
  always p Q -> exec p tape s = Some (a, s', tape') -> Q a.
Proof.
  revert tape s. induction p as [x| |X f k IH|k IH]; intros tape s H E; simpl in *; simplify_eq; try done.
  - specialize (H s). destruct (f s) as [x s1]. by eapply IH.
  - destruct tape as [|b tape]; by eapply IH.
Qed.

(** Step a total-correctness goal through its loads, stores and swaps. *)
Ltac run_step :=
  match goal with
  | |- runs _ (mbind _ (load _)) _ _ => unfold load; apply runs_act_bind; cbn [fst snd]
  | |- runs _ (mbind _ (store _ _)) _ _ => unfold store; apply runs_act_bind; cbn [fst snd]
  | |- runs _ (mbind _ (Ret _)) _ _ => apply runs_bind, runs_ret
  | |- runs _ (mbind _ (mbind _ _)) _ _ => apply runs_bind
  | |- runs _ (mbind _ (act _)) _ _ => apply runs_act_bind; cbn [fst snd]
  | |- runs _ (mbind _ (compare_exchange _ _ _)) _ _ => unfold compare_exchange; apply runs_act_bind; cbn [fst snd]
  | |- runs _ (mbind _ (rmw _ _)) _ _ => unfold rmw; apply runs_act_bind; cbn [fst snd]
  | |- runs _ (mbind _ (swap _ _)) _ _ => unfold swap, rmw; apply runs_act_bind; cbn [fst snd]
  | |- runs _ (load _) _ _ => apply runs_act, runs_ret; cbn [fst snd]
  | |- runs _ (store _ _) _ _ => apply runs_act, runs_ret; cbn [fst snd]
  | |- runs _ (Ret _) _ _ => apply runs_ret
  | |- runs _ (Act _ _) _ _ => apply runs_act; cbn [fst snd]
  end.

(** ** Interleaving

    One access of one thread is a step; a pool is a list of programs over the
    same shared state. *)

Inductive thread_step {S A} : S -> prog S A -> S -> prog S A -> Prop :=
| step_act X (f : S -> X * S) k s : thread_step s (Act f k) (f s).2 (k (f s).1)
| step_flip k b s : thread_step s (Flip k) s (k b).

Inductive pool_step {S A} : S * list (prog S A) -> S * list (prog S A) -> Prop :=
| pool_step_at s s' ps i p p' :
    ps !! i = Some p -> thread_step s p s' p' -> pool_step (s, ps) (s', <[i := p']> ps).

Definition pool_reach {S A} : relation (S * list (prog S A)) := rtc pool_step.

(** Invariants of a pool: proved for the initial state and for each step. *)
Lemma pool_invariant {S A} (I : S -> list (prog S A) -> Prop) s ps s' ps' :
  I s ps ->
  (forall s ps i p s' p', I s ps -> ps !! i = Some p -> thread_step s p s' p' ->
                          I s' (<[i := p']> ps)) ->
  pool_reach (s, ps) (s', ps') -> I s' ps'.
Proof.
  intros H0 Hstep Hr. remember (s, ps) as c eqn:E. remember (s', ps') as c' eqn:E'.
  revert s ps E H0. induction Hr as [c|c d e Hcd _ IH]; intros s ps E H0; subst.
  - by simplify_eq.
  - inversion Hcd; subst. eapply IH; eauto.
Qed.

Lemma pool_reach_length {S A} (s s' : S) (ps ps' : list (prog S A)) : pool_reach (s, ps) (s', ps') -> length ps' = length ps.
Proof.
  intros Hr. apply (pool_invariant (fun _ l => length l = length ps) s ps s' ps'); [done| |done].
  intros. by rewrite length_insert.
Qed.

(** A run alone is a sequence of thread steps. *)
Lemma exec_steps {S A} (p : prog S A) tape s a s' tape' :
  exec p tape s = Some (a, s', tape') ->
  rtc (fun c d => thread_step c.1 c.2 d.1 d.2) (s, p) (s', Ret a).
Proof.
  revert tape s. induction p as [b| |X f k IH|k IH]; intros tape s H; simpl in H; simplify_eq.
  - done.
  - destruct (f s) as [x s1] eqn:E. eapply rtc_l; [|by eapply (IH x tape s1)].
    simpl. pose proof (step_act X f k s) as Hs. by rewrite E in Hs.
  - destruct tape as [|b tape].
    + apply (rtc_l _ _ (s, k false)); [apply (step_flip k)|]. by eapply IH.
    + apply (rtc_l _ _ (s, k b)); [apply (step_flip k)|]. by eapply IH.
Qed.

(** What a step of a known program is. *)
Lemma thread_step_inv {S A} (s s' : S) (p p' : prog S A) :
  thread_step s p s' p' ->
  match p with
  | Act f k => s' = (f s).2 /\ p' = k (f s).1
  | Flip k => s' = s /\ exists b, p' = k b
  | _ => False
  end.
Proof. intros H. destruct H; eauto. Qed.

(** Invert a step of a program whose head is an access. *)
Ltac inv_step H :=
  apply thread_step_inv in H; simpl in H;
  repeat match goal with
         | H : _ /\ _ |- _ => destruct H
         | H : exists _, _ |- _ => destruct H
         | H : False |- _ => destruct H
         end; subst; simpl in *.

Lemma bind_assoc_prog {S A B C} (p : prog S A) (f : A -> prog S B) (g : B -> prog S C) :
  forall tape s, exec ((p ≫= f) ≫= g) tape s = exec (p ≫= (fun a => f a ≫= g)) tape s.
Proof.
  intros tape s. rewrite !exec_bind. destruct (exec p tape s) as [[[a s'] tape']|]; [|done].
  by rewrite exec_bind.
Qed.

(** ** Executable schedules

    A schedule names the thread that moves next (and how a weak
    compare-and-swap fares); entries naming a finished thread are skipped. *)

Definition step_thread {S A} (b : bool) (s : S) (p : prog S A) : option (S * prog S A) :=
  match p with
  | Act f k => Some ((f s).2, k (f s).1)
  | Flip k => Some (s, k b)
  | _ => None
  end.

Definition sched_step {S A} (c : S * list (prog S A)) (ib : nat * bool) : S * list (prog S A) :=
  match c.2 !! ib.1 with
  | Some p =>
      match step_thread ib.2 c.1 p with
      | Some (s', p') => (s', <[ib.1 := p']> c.2)
      | None => c
      end
  | None => c
  end.

Definition run_sched {S A} (l : list (nat * bool)) (c : S * list (prog S A)) : S * list (prog S A) :=
  foldl sched_step c l.

Lemma run_sched_reach {S A} l (s : S) (ps : list (prog S A)) :
  pool_reach (s, ps) ((run_sched l (s, ps)).1, (run_sched l (s, ps)).2).
Proof.
  rewrite <- surjective_pairing. generalize (s, ps). clear s ps.
  induction l as [|[i b] l IH]; intros c; simpl; [done|].
  etransitivity; [|apply IH]. destruct c as [s ps]. unfold sched_step; simpl.
  destruct (ps !! i) as [p|] eqn:E; [|done].
  destruct p as [a| |X f k|k]; simpl; try done.
  - apply rtc_once. econstructor; [done|]. apply step_act.
  - apply rtc_once. econstructor; [done|]. apply step_flip.
Qed.

(** ** The clock

    [Instant::now()], in nanoseconds.  Each reading advances the clock by the next
    tick of the environment's list, by 1 once the list is used up. *)

Record clock := mk_clock { c_now : Z; c_ticks : list Z }.

Definition tick (c : clock) : clock :=
  match c_ticks c with
  | [] => mk_clock (c_now c + 1) []
  | d :: ds => mk_clock (c_now c + d) ds
  end.

Definition now {S} (clk : field S clock) : prog S Z :=
  act (fun s => (c_now (fget clk s), fset clk (tick (fget clk s)) s)).

Definition MILLI : Z := 1000000.
