(* ===== verification/Concurrent.v ===== *)
(** * Reasoning about interleaved programs

    A shared invariant [Inv s Γ] relates the shared state to the ghost state of each
    thread.  [wpc Inv j p g Q]: thread [j], running [p] from ghost state [g], keeps the
    invariant at each of its accesses, whatever the other threads did in between, and
    returns only values that satisfy [Q].  The rules follow the program, and a pool of
    programs each verified this way keeps the invariant under every interleaving. *)
From S2P Require Import Prelude Atomics.

Section logic.
Context {S Gh : Type} (Inv : S -> list Gh -> Prop).

Fixpoint wpc {A} (j : nat) (p : prog S A) (g : Gh) (Q : A -> Gh -> Prop) : Prop :=
  match p with
  | Ret a => Q a g
  | Spin => True
  | Act f k => forall s Γ, Inv s Γ -> Γ !! j = Some g ->
      exists g', Inv (f s).2 (<[j := g']> Γ) /\ wpc j (k (f s).1) g' Q
  | Flip k => forall b, wpc j (k b) g Q
  end.

Lemma wpc_conseq {A} j (p : prog S A) g (P Q : A -> Gh -> Prop) :
  wpc j p g P -> (forall a g', P a g' -> Q a g') -> wpc j p g Q.
Proof.
  intros H HPQ. revert g H. induction p as [a| |X f k IH|k IH]; intros g H; simpl in *; auto.
  intros s Γ HI Hg. destruct (H s Γ HI Hg) as (g' & HI' & H'). eauto.
Qed.

Lemma wpc_bind {A B} j (p : prog S A) (h : A -> prog S B) g Q :
  wpc j p g (fun a g' => wpc j (h a) g' Q) -> wpc j (p ≫= h) g Q.
Proof.
  unfold mbind, prog_mbind. revert g. induction p as [a| |X f k IH|k IH]; intros g H; simpl in *; auto.
  intros s Γ HI Hg. destruct (H s Γ HI Hg) as (g' & HI' & H'). eauto.
Qed.

(** The last call of a program, as one with a continuation. *)
Lemma wpc_tail {A} j (p : prog S A) g Q : wpc j (p ≫= Ret) g Q -> wpc j p g Q.
Proof.
  unfold mbind, prog_mbind. revert g. induction p as [a| |X f k IH|k IH]; intros g H; simpl in *; auto.
  intros s Γ HI Hg. destruct (H s Γ HI Hg) as (g' & HI' & H'). eauto.
Qed.

Lemma wpc_ret {A} j (a : A) g (Q : A -> Gh -> Prop) : Q a g -> wpc j (Ret a) g Q.
Proof. done. Qed.

(** One access: find the new ghost state. *)
Lemma wpc_act {A X} j (f : S -> X * S) (h : X -> prog S A) g Q :
  (forall s Γ, Inv s Γ -> Γ !! j = Some g ->
     exists g', Inv (f s).2 (<[j := g']> Γ) /\ wpc j (h (f s).1) g' Q) ->
  wpc j (act f ≫= h) g Q.
Proof. done. Qed.

(** An access the invariant does not see: the ghost state stays. *)
Lemma wpc_silent {A X} j (f : S -> X * S) (h : X -> prog S A) g Q :
  (forall s Γ, Inv s Γ -> Γ !! j = Some g -> Inv (f s).2 Γ) ->
  (forall x, wpc j (h x) g Q) ->
  wpc j (act f ≫= h) g Q.
Proof.
  intros Hf Hh. apply wpc_act. intros s Γ HI Hg. exists g.
  rewrite list_insert_id by done. eauto.
Qed.

(** A load that teaches [g] a fact about the value read. *)
Lemma wpc_load {A T} j (f : field S T) (h : T -> prog S A) g Q :
  (forall s Γ, Inv s Γ -> Γ !! j = Some g ->
     exists g', Inv s (<[j := g']> Γ) /\ wpc j (h (fget f s)) g' Q) ->
  wpc j (load f ≫= h) g Q.
Proof. done. Qed.

Lemma wpc_load_same {A T} j (f : field S T) (h : T -> prog S A) g Q :
  (forall s Γ, Inv s Γ -> Γ !! j = Some g -> wpc j (h (fget f s)) g Q) ->
  wpc j (load f ≫= h) g Q.
Proof.
  intros H. apply wpc_load. intros s Γ HI Hg. exists g. rewrite list_insert_id by done. eauto.
Qed.

(** A weak compare-and-swap: it succeeds on the expected value, or fails. *)
Lemma wpc_cas_weak {A} j (f : field S Z) old new (h : result Z Z -> prog S A) g Q :
  (forall s Γ, Inv s Γ -> Γ !! j = Some g -> fget f s = old ->
     exists g', Inv (fset f new s) (<[j := g']> Γ) /\ wpc j (h (Ok old)) g' Q) ->
  (forall x, wpc j (h (Err x)) g Q) ->
  wpc j (compare_exchange_weak f old new ≫= h) g Q.
Proof.
  intros Hok Herr []; intros s Γ HI Hg; simpl.
  - exists g. rewrite list_insert_id by done. eauto.
  - destruct (Z.eqb_spec (fget f s) old) as [E|E]; simpl; [by apply Hok|].
    exists g. rewrite list_insert_id by done. eauto.
Qed.

(** A strong compare-and-swap; the failing case may learn something from the state it met. *)
Lemma wpc_cas {A} j (f : field S Z) old new (h : result Z Z -> prog S A) g Q :
  (forall s Γ, Inv s Γ -> Γ !! j = Some g -> fget f s = old ->
     exists g', Inv (fset f new s) (<[j := g']> Γ) /\ wpc j (h (Ok old)) g' Q) ->
  (forall s Γ, Inv s Γ -> Γ !! j = Some g -> fget f s <> old -> wpc j (h (Err (fget f s))) g Q) ->
  wpc j (compare_exchange f old new ≫= h) g Q.
Proof.
  intros Hok Herr s Γ HI Hg. simpl.
  destruct (Z.eqb_spec (fget f s) old) as [E|E]; simpl; [by apply Hok|].
  exists g. rewrite list_insert_id by done. eauto.
Qed.

(** The same when a failing exchange may change the ghost state too. *)
Lemma wpc_cas_weak_fail {A} j (f : field S Z) old new (h : result Z Z -> prog S A) g Q :
  (forall s Γ, Inv s Γ -> Γ !! j = Some g -> fget f s = old ->
     exists g', Inv (fset f new s) (<[j := g']> Γ) /\ wpc j (h (Ok old)) g' Q) ->
  (forall s Γ, Inv s Γ -> Γ !! j = Some g -> exists g', Inv s (<[j := g']> Γ) /\ wpc j (h (Err (fget f s))) g' Q) ->
  wpc j (compare_exchange_weak f old new ≫= h) g Q.
Proof.
  intros Hok Herr []; intros s Γ HI Hg; simpl; [by apply Herr|].
  destruct (Z.eqb_spec (fget f s) old) as [E|E]; simpl; [by apply Hok|by apply Herr].
Qed.

(** The ghost state may change before an access if the invariant allows it. *)
Definition is_act {A} (p : prog S A) : bool := match p with Act _ _ => true | _ => false end.

Lemma wpc_update {A} j (p : prog S A) g g' Q :
  is_act p = true -> (forall s Γ, Inv s Γ -> Γ !! j = Some g -> Inv s (<[j := g']> Γ)) ->
  wpc j p g' Q -> wpc j p g Q.
Proof.
  destruct p as [a| |X f k|k]; try done. intros _ Hu Hp s Γ HI Hj. destruct (Hp s (<[j := g']> Γ)) as (g2 & HI2 & Hh); [by apply Hu| |].
  - apply list_lookup_insert_eq. by eapply lookup_lt_Some.
  - exists g2. by rewrite list_insert_insert_eq in HI2.
Qed.

(** The ghost states after thread [j] has moved. *)
Lemma lookup_moved (Γ : list Gh) j g g' i : Γ !! j = Some g -> (<[j := g']> Γ) !! i = if decide (i = j) then Some g' else Γ !! i.
Proof.
  intros Hj. destruct (decide (i = j)) as [->|Hi]; [apply list_lookup_insert_eq; by eapply lookup_lt_Some|by apply list_lookup_insert_ne].
Qed.

(** One step of one thread. *)
Lemma wpc_step {A} j (p p' : prog S A) s s' g Γ Q :
  Inv s Γ -> Γ !! j = Some g -> wpc j p g Q -> thread_step s p s' p' ->
  exists g', Inv s' (<[j := g']> Γ) /\ wpc j p' g' Q.
Proof.
  intros HI Hg Hp Hs. destruct Hs; simpl in Hp; [by apply Hp|].
  exists g. rewrite list_insert_id by done. auto.
Qed.

(** The pool and its ghost states. *)
Definition verified {A} (Q : nat -> A -> Gh -> Prop) (ps : list (prog S A)) (Γ : list Gh) : Prop :=
  length Γ = length ps /\
  forall j p g, ps !! j = Some p -> Γ !! j = Some g -> wpc j p g (Q j).

Lemma verified_insert {A} (Q : nat -> A -> Gh -> Prop) ps Γ j p g :
  verified Q ps Γ -> wpc j p g (Q j) -> verified Q (<[j := p]> ps) (<[j := g]> Γ).
Proof.
  intros [Hl Hw] Hp. split; [by rewrite !length_insert|]. intros i p' g' Hp' Hg'.
  destruct (decide (i = j)) as [->|Hne].
  - apply list_lookup_insert_Some in Hp' as [(_ & -> & _)|(? & _)]; [|done].
    apply list_lookup_insert_Some in Hg' as [(_ & -> & _)|(? & _)]; done.
  - rewrite list_lookup_insert_ne in Hp' by done. rewrite list_lookup_insert_ne in Hg' by done. eauto.
Qed.

(** Every reachable state satisfies the invariant, and finished threads their postconditions. *)
Lemma pool_verified {A} (Q : nat -> A -> Gh -> Prop) s ps Γ s' ps' :
  Inv s Γ -> verified Q ps Γ -> pool_reach (s, ps) (s', ps') ->
  exists Γ', Inv s' Γ' /\ verified Q ps' Γ'.
Proof.
  intros HI Hv Hr. apply (pool_invariant (fun s ps => exists Γ, Inv s Γ /\ verified Q ps Γ) s ps s' ps'); eauto.
  intros s1 ps1 i p s2 p' (Γ1 & HI1 & Hv1) Hp Hs.
  destruct (lookup_lt_is_Some_2 Γ1 i) as [g Hg].
  { destruct Hv1 as [-> _]. by eapply lookup_lt_Some. }
  destruct (wpc_step i p p' s1 s2 g Γ1 (Q i) HI1 Hg) as (g' & HI2 & Hp2); [by apply Hv1|done|].
  exists (<[i := g']> Γ1). split; [done|]. by apply verified_insert.
Qed.

(** A finished thread's result. *)
Lemma verified_ret {A} (Q : nat -> A -> Gh -> Prop) ps Γ j a :
  verified Q ps Γ -> ps !! j = Some (Ret a) -> exists g, Γ !! j = Some g /\ Q j a g.
Proof.
  intros [Hl Hw] Hj. destruct (lookup_lt_is_Some_2 Γ j) as [g Hg].
  { rewrite Hl. by eapply lookup_lt_Some. }
  exists g. split; [done|]. exact (Hw j _ g Hj Hg).
Qed.

End logic.

(** A program on a part of the state keeps the invariant of that part, and with it an invariant of the
    rest; a thread's ghost state is a pair. *)
Lemma wpc_zoom {S T G1 G2 A} (f : field T S) `{!LawfulField f} (I1 : S -> list G1 -> Prop) (I2 : T -> list G2 -> Prop) j (p : prog S A) g1 g2 Q :
  (forall v t Γ, I2 t Γ -> I2 (fset f v t) Γ) ->
  wpc I1 j p g1 Q ->
  wpc (fun t Γ => I1 (fget f t) (fst <$> Γ) /\ I2 t (snd <$> Γ)) j (zoom f p) (g1, g2) (fun a g => Q a g.1 /\ g.2 = g2).
Proof.
  intros Hf. revert g1. induction p as [a| |X h k IH|k IH]; intros g1 Hp; simpl in *; [done|done| |by auto].
  intros t Γ [H1 H2] Hj. destruct (Hp (fget f t) (fst <$> Γ)) as (g' & HI & Hk); [done|by rewrite list_lookup_fmap, Hj|].
  exists (g', g2). destruct (h (fget f t)) as [x s'] eqn:E. simpl in *. rewrite get_set. rewrite !list_fmap_insert. simpl.
  rewrite (list_insert_id (snd <$> Γ)) by (by rewrite list_lookup_fmap, Hj). auto.
Qed.

Lemma wpc_zoom_bind {S T Gh A B} (f : field T S) (Inv : T -> list Gh -> Prop) j (p : prog S A) (h : A -> prog S B) g Q :
  wpc Inv j (zoom f p) g (fun a g' => wpc Inv j (zoom f (h a)) g' Q) -> wpc Inv j (zoom f (p ≫= h)) g Q.
Proof.
  unfold mbind, prog_mbind. revert g. induction p as [a| |X f' k IH|k IH]; intros g H; simpl in *; auto.
  intros s Γ HI Hg. destruct (H s Γ HI Hg) as (g' & HI' & H'). eauto.
Qed.

(** The same when the invariant of the rest knows the ghost states of both parts, but nothing of that of
    this program. *)
Lemma wpc_zoom_shared {S T G1 G2 A} (f : field T S) `{!LawfulField f} (I1 : S -> list G1 -> Prop) (I2 : T -> list (G1 * G2) -> Prop) j (p : prog S A) g1 g2 Q :
  (forall v t Γ g g', I2 t Γ -> Γ !! j = Some (g, g2) -> I2 (fset f v t) (<[j := (g', g2)]> Γ)) ->
  wpc I1 j p g1 Q ->
  wpc (fun t Γ => I1 (fget f t) Γ.*1 /\ I2 t Γ) j (zoom f p) (g1, g2) (fun a g => Q a g.1 /\ g.2 = g2).
Proof.
  intros Hf. revert g1. induction p as [a| |X h k IH|k IH]; intros g1 Hp; simpl in *; [done|done| |by auto].
  intros t Γ [H1 H2] Hj. destruct (Hp (fget f t) Γ.*1) as (g' & HI & Hk); [done|by rewrite list_lookup_fmap, Hj|].
  exists (g', g2). destruct (h (fget f t)) as [x s'] eqn:E. simpl in *. rewrite get_set, list_fmap_insert. eauto.
Qed.

(** ** Calls into the kernel

    A call is known by what it promises: each of its accesses but the last is an [I] step,
    the last an [R] step. *)
Fixpoint call {S A} (I : S -> S -> Prop) (R : A -> S -> S -> Prop) (p : prog S A) : Prop :=
  match p with
  | Ret _ => False
  | Spin => True
  | Act f k => forall s, (exists a, k (f s).1 = Ret a /\ R a s (f s).2) \/ (I s (f s).2 /\ call I R (k (f s).1))
  | Flip k => forall b, call I R (k b)
  end.

(** The ghost state stays within [G] while the call lasts. *)
Lemma wpc_call {S Gh A B} (Inv : S -> list Gh -> Prop) j (p : prog S B) I R (G : Gh -> Prop) g (h : B -> prog S A) Q :
  call I R p -> G g ->
  (forall s Γ g s', Inv s Γ -> Γ !! j = Some g -> G g -> I s s' -> exists g', G g' /\ Inv s' (<[j := g']> Γ)) ->
  (forall b s Γ g s', Inv s Γ -> Γ !! j = Some g -> G g -> R b s s' -> exists g', Inv s' (<[j := g']> Γ) /\ wpc Inv j (h b) g' Q) ->
  wpc Inv j (p ≫= h) g Q.
Proof.
  intros Hp Hg HI HR. apply wpc_bind. revert g Hg. induction p as [b| |X f k IH|k IH]; intros g Hg; simpl in *; [done|done| |].
  - intros s Γ Hinv Hj. destruct (Hp s) as [(b & Ek & Hr)|[Hi Hc]].
    + destruct (HR _ _ _ _ _ Hinv Hj Hg Hr) as (g' & Hinv' & Hh). exists g'. split; [done|]. by rewrite Ek.
    + destruct (HI _ _ _ _ Hinv Hj Hg Hi) as (g' & Hg' & Hinv'). exists g'. split; [done|]. by apply IH.
  - intros b. by apply IH.
Qed.

(** ** Programs known by their steps

    [stays R p]: every access of [p], whatever the state it meets, is an [R] step. *)
Fixpoint stays {S A} (R : S -> S -> Prop) (p : prog S A) : Prop :=
  match p with
  | Ret _ | Spin => True
  | Act f k => forall s, R s (f s).2 /\ stays R (k (f s).1)
  | Flip k => forall b, stays R (k b)
  end.

Section stays.
Context {S : Type} (R : S -> S -> Prop) `{!Reflexive R}.

Lemma stays_bind {A B} (p : prog S A) (h : A -> prog S B) : stays R p -> (forall a, stays R (h a)) -> stays R (p ≫= h).
Proof.
  intros Hp Hh. unfold mbind, prog_mbind. induction p as [a| |X f k IH|k IH]; simpl in *; [apply Hh|done| |].
  - intros s. destruct (Hp s) as [H1 H2]. auto.
  - intros b. auto.
Qed.

Lemma stays_act {X} (f : S -> X * S) : (forall s, R s (f s).2) -> stays R (act f).
Proof. done. Qed.

Lemma stays_load {T} (f : field S T) : stays R (load f).
Proof. intros s. by split. Qed.

Lemma stays_cas (f : field S Z) x y : (forall v s, R s (fset f v s)) -> stays R (compare_exchange f x y).
Proof. intros H s. split; [|done]. simpl. destruct (_ =? _); [apply H|done]. Qed.

Lemma stays_call {A} I (Q : A -> S -> S -> Prop) (p : prog S A) :
  call I Q p -> (forall s s', I s s' -> R s s') -> (forall a s s', Q a s s' -> R s s') -> stays R p.
Proof.
  intros Hp HI HQ. induction p as [a| |X f k IH|k IH]; simpl in *; [done|done| |].
  - intros s. destruct (Hp s) as [(a & E & Hq)|[Hi Hc]]; [|eauto]. rewrite E. split; [by eapply HQ|done].
  - intros b. auto.
Qed.

End stays.

(** ** Sums over the threads

    [total f i Γ]: what [f] makes of each ghost state and its index, the first of which is [i]. *)
Fixpoint total {Gh} (f : nat -> Gh -> Z) (i : nat) (Γ : list Gh) : Z :=
  match Γ with [] => 0 | g :: Γ => f i g + total f (S i) Γ end.

Lemma total_le {Gh} (f f' : nat -> Gh -> Z) i Γ :
  (forall k g, Γ !! k = Some g -> f (i + k)%nat g <= f' (i + k)%nat g) -> total f i Γ <= total f' i Γ.
Proof.
  revert i. induction Γ as [|g Γ IH]; intros i H; simpl; [lia|].
  pose proof (H 0%nat g eq_refl) as H0. rewrite Nat.add_0_r in H0.
  assert (total f (S i) Γ <= total f' (S i) Γ); [|lia]. apply IH. intros k g' Hk. pose proof (H (S k) g' Hk) as H1.
  by rewrite Nat.add_succ_r in H1.
Qed.

Lemma total_ext {Gh} (f f' : nat -> Gh -> Z) i Γ :
  (forall k g, Γ !! k = Some g -> f (i + k)%nat g = f' (i + k)%nat g) -> total f i Γ = total f' i Γ.
Proof. intros H. apply Z.le_antisymm; apply total_le; intros k g Hk; by rewrite (H k g Hk). Qed.

Lemma total_fmap {A B} (h : A -> B) (f : nat -> B -> Z) i l : total f i (h <$> l) = total (fun k x => f k (h x)) i l.
Proof. revert i. induction l as [|x l IH]; intros i; simpl; [done|]. by rewrite IH. Qed.

Lemma total_insert {Gh} (f : nat -> Gh -> Z) i Γ j g g' :
  Γ !! j = Some g -> total f i (<[j := g']> Γ) = total f i Γ - f (i + j)%nat g + f (i + j)%nat g'.
Proof.
  revert i j. induction Γ as [|x Γ IH]; intros i j Hj; [done|]. destruct j as [|j]; simpl in *.
  - simplify_eq. rewrite Nat.add_0_r. lia.
  - rewrite (IH _ _ Hj), Nat.add_succ_r. simpl. lia.
Qed.

Lemma total_nonneg {Gh} (f : nat -> Gh -> Z) i Γ : (forall k g, 0 <= f k g) -> 0 <= total f i Γ.
Proof. intros H. revert i. induction Γ as [|g Γ IH]; intros i; simpl; [lia|]. specialize (H i g). specialize (IH (S i)). lia. Qed.

(** One term is at most the sum of terms none of which is negative. *)
Lemma total_term {Gh} (f : nat -> Gh -> Z) i Γ j g :
  (forall k g, 0 <= f k g) -> Γ !! j = Some g -> f (i + j)%nat g <= total f i Γ.
Proof.
  intros H. revert i j. induction Γ as [|x Γ IH]; intros i j Hj; [done|]. destruct j as [|j]; simpl in *.
  - simplify_eq. rewrite Nat.add_0_r. pose proof (total_nonneg f (S i) Γ H). lia.
  - specialize (IH (S i) j Hj). rewrite Nat.add_succ_r. simpl in IH. specialize (H i x). lia.
Qed.

Lemma total_lt {Gh} (f f' : nat -> Gh -> Z) i Γ j g :
  (forall k g, Γ !! k = Some g -> f (i + k)%nat g <= f' (i + k)%nat g) -> Γ !! j = Some g -> f (i + j)%nat g < f' (i + j)%nat g ->
  total f i Γ < total f' i Γ.
Proof.
  revert i j. induction Γ as [|x Γ IH]; intros i j H Hj Hlt; [done|].
  assert (forall k g, Γ !! k = Some g -> f (S i + k)%nat g <= f' (S i + k)%nat g) as Hle.
  { intros k g' Hk. pose proof (H (S k) g' Hk) as H1. by rewrite Nat.add_succ_r in H1. }
  pose proof (H 0%nat x eq_refl) as H0. rewrite Nat.add_0_r in H0. destruct j as [|j]; simpl in *.
  - simplify_eq. rewrite Nat.add_0_r in Hlt. pose proof (total_le f f' (S i) Γ Hle). lia.
  - rewrite Nat.add_succ_r in Hlt. specialize (IH (S i) j Hle Hj Hlt). lia.
Qed.

Lemma total_pos {Gh} (f : nat -> Gh -> Z) i Γ : 0 < total f i Γ -> exists j g, Γ !! j = Some g /\ 0 < f (i + j)%nat g.
Proof.
  revert i. induction Γ as [|x Γ IH]; intros i H; simpl in H; [lia|].
  destruct (Z.lt_ge_cases 0 (f i x)) as [Hx|Hx].
  - exists 0%nat, x. rewrite Nat.add_0_r. done.
  - destruct (IH (S i)) as (j & g & Hj & Hg); [lia|]. exists (S j), g. by rewrite Nat.add_succ_r.
Qed.

(** ** Threads that may die

    [with_ghost j P]: the invariant, with thread [j]'s ghost state satisfying [P]. *)
Definition with_ghost {S Gh : Type} (Inv : S -> list Gh -> Prop) (j : nat) (P : Gh -> Prop) (s : S) (Γ : list Gh) : Prop :=
  Inv s Γ /\ forall g, Γ !! j = Some g -> P g.

(** A program that keeps [P] of its ghost state need not say so. *)
Lemma wpc_forget {S Gh A} (Inv : S -> list Gh -> Prop) j (P : Gh -> Prop) (p : prog S A) g Q :
  P g -> wpc (with_ghost Inv j P) j p g Q -> wpc Inv j p g Q.
Proof.
  revert g. induction p as [a| |X f k IH|k IH]; intros g Hg Hp; simpl in *; auto.
  intros s Γ HI Hj. destruct (Hp s Γ) as (g' & [HI' HP] & Hk); [|done|].
  { split; [done|]. intros g0 Hg0. by simplify_eq. }
  exists g'. split; [done|]. apply IH; [|done]. apply HP. apply list_lookup_insert_eq. by eapply lookup_lt_Some.
Qed.

(** A thread that may be killed before any of its accesses, and then runs [die]. *)
Fixpoint mortal {S A} (die : prog S A) (p : prog S A) : prog S A :=
  Flip (fun killed : bool =>
    if killed then die
    else match p with
         | Ret a => Ret a
         | Spin => Spin
         | Act f k => Act f (fun x => mortal die (k x))
         | Flip k => Flip (fun b => mortal die (k b))
         end).

(** A program that keeps [P] of its ghost state can be killed anywhere if [die] can start from [P]. *)
Lemma wpc_mortal {S Gh A} (Inv : S -> list Gh -> Prop) j (P : Gh -> Prop) (die p : prog S A) g Q :
  (forall g, P g -> wpc Inv j die g Q) ->
  P g -> wpc (with_ghost Inv j P) j p g Q -> wpc Inv j (mortal die p) g Q.
Proof.
  intros Hdie. revert g. induction p as [a| |X f k IH|k IH]; intros g Hg Hp [|]; simpl in *; auto.
  intros s Γ HI Hj. destruct (Hp s Γ) as (g' & [HI' HP] & Hk); [|done|].
  { split; [done|]. intros g0 Hg0. by simplify_eq. }
  exists g'. split; [done|]. apply IH; [|done]. apply HP. apply list_lookup_insert_eq. by eapply lookup_lt_Some.
Qed.
