(* ===== verification/Locks.v ===== *)
(** * The spin lock and the read-write lock

    [spin_lock.rs] and [rw_lock.rs]: one-word locks with adaptive backoff.  The
    same test-and-set lock guards the ring header's one-time initialisation
    ([channel.rs], [init_header]) and the chunk pool ([chunk_storage.rs],
    [chunk_lock]), which reuse [spin_acquire] / [spin_release] below. *)
From S2P Require Import Prelude Atomics.

(** ** Adaptive backoff *)

Inductive backoff := BusySpin | SpinHint | YieldNow | Sleep1ms.

(** [adaptive_yield]: what the [k]-th retry does, and the next value of [k]. *)
Definition adaptive_yield (k : Z) : backoff * Z :=
  if k <? 4 then (BusySpin, k + 1)
  else if k <? 16 then (SpinHint, k + 1)
  else if k <? 32 then (YieldNow, k + 1)
  else (Sleep1ms, k).

(** ** SpinLock *)

Section spin.
Context {S : Type} (lc : field S Z).

Fixpoint spin_acquire (fuel : nat) (k : Z) : prog S unit :=
  match fuel with
  | O => Spin
  | Datatypes.S fuel =>
      old ← swap lc 1;
      if old =? 0 then Ret tt else spin_acquire fuel (snd (adaptive_yield k))
  end.

(** [SpinLock::lock]. *)
Definition spin_lock (fuel : nat) : prog S unit := spin_acquire fuel 0.

(** [SpinLock::unlock]. *)
Definition spin_release : prog S unit := store lc 0.

End spin.

(** ** RwLock *)

Definition W_MASK : Z := 2 ^ 31 - 1.
Definition W_FLAG : Z := W_MASK + 1.

Section rw.
Context {S : Type} (lc : field S Z).

(** First loop of [RwLock::lock]: raise the writer flag.  [true] when the lock
    was free, [false] when readers must still leave. *)
Fixpoint rw_raise_flag (fuel : nat) (k : Z) : prog S bool :=
  match fuel with
  | O => Spin
  | Datatypes.S fuel =>
      old ← fetch_or lc W_FLAG;
      if old =? 0 then Ret true
      else if Z.land old W_FLAG =? 0 then Ret false
      else rw_raise_flag fuel (snd (adaptive_yield k))
  end.

(** Second loop of [RwLock::lock]: wait for the readers. *)
Fixpoint rw_wait_readers (fuel : nat) (k : Z) : prog S unit :=
  match fuel with
  | O => Spin
  | Datatypes.S fuel =>
      v ← load lc;
      if Z.land v W_MASK =? 0 then Ret tt else rw_wait_readers fuel (snd (adaptive_yield k))
  end.

(** [RwLock::lock]. *)
Definition rw_lock (fuel : nat) : prog S unit :=
  free ← rw_raise_flag fuel 0;
  if (free : bool) then Ret tt else rw_wait_readers fuel 0.

(** [RwLock::unlock]. *)
Definition rw_unlock : prog S unit := store lc 0.

Fixpoint rw_lock_shared_loop (fuel : nat) (old k : Z) : prog S unit :=
  match fuel with
  | O => Spin
  | Datatypes.S fuel =>
      if negb (Z.land old W_FLAG =? 0) then
        old' ← load lc;
        rw_lock_shared_loop fuel old' (snd (adaptive_yield k))
      else
        r ← compare_exchange_weak lc old (old + 1);
        match r with
        | Ok _ => Ret tt
        | Err _ => old' ← load lc; rw_lock_shared_loop fuel old' k
        end
  end.

(** [RwLock::lock_shared]. *)
Definition rw_lock_shared (fuel : nat) : prog S unit :=
  old ← load lc; rw_lock_shared_loop fuel old 0.

(** [RwLock::unlock_shared]. *)
Definition rw_unlock_shared : prog S unit := _ ← fetch_sub 32 lc 1; Ret tt.

End rw.

(** ** Mutual exclusion of the spin lock

    The clients: each thread repeats [lock; section; unlock], the section being
    an arbitrary program on data [D] the lock protects.  [inside] records which
    threads are between entering and leaving their section. *)
Section spin_clients.
Context {D : Type}.

Record spin_world := mk_spin_world { sw_lc : Z; sw_inside : gset nat; sw_data : D }.

Definition f_lc : field spin_world Z :=
  mk_field sw_lc (fun v w => mk_spin_world v (sw_inside w) (sw_data w)).
Definition f_data : field spin_world D :=
  mk_field sw_data (fun v w => mk_spin_world (sw_lc w) (sw_inside w) v).

Definition enter (i : nat) : prog spin_world unit :=
  act (fun w => (tt, mk_spin_world (sw_lc w) ({[i]} ∪ sw_inside w) (sw_data w))).
Definition leave (i : nat) : prog spin_world unit :=
  act (fun w => (tt, mk_spin_world (sw_lc w) (sw_inside w ∖ {[i]}) (sw_data w))).

Fixpoint spin_client (fuel i : nat) (sections : list (prog D unit)) : prog spin_world unit :=
  match sections with
  | [] => Ret tt
  | q :: rest =>
      _ ← spin_lock f_lc fuel;
      _ ← enter i;
      _ ← zoom f_data q;
      _ ← leave i;
      _ ← spin_release f_lc;
      spin_client fuel i rest
  end.

(** Where a client thread is: waiting for the lock, holding it (inside its
    section or not), or done.  The booleans say whether it holds the lock and
    whether it is inside. *)
Inductive spin_phase (fuel i : nat) : bool -> bool -> prog spin_world unit -> Prop :=
| ph_wait n k (q : prog D unit) rest :
    spin_phase fuel i false false
      (spin_acquire f_lc n k ≫= fun _ => enter i ≫= fun _ => zoom f_data q ≫= fun _ =>
       leave i ≫= fun _ => spin_release f_lc ≫= fun _ => spin_client fuel i rest)
| ph_enter (q : prog D unit) rest :
    spin_phase fuel i true false
      (enter i ≫= fun _ => zoom f_data q ≫= fun _ =>
       leave i ≫= fun _ => spin_release f_lc ≫= fun _ => spin_client fuel i rest)
| ph_body (q : prog D unit) rest :
    spin_phase fuel i true true
      (zoom f_data q ≫= fun _ => leave i ≫= fun _ => spin_release f_lc ≫= fun _ => spin_client fuel i rest)
| ph_exit rest :
    spin_phase fuel i true false (spin_release f_lc ≫= fun _ => spin_client fuel i rest)
| ph_done : spin_phase fuel i false false (Ret tt)
| ph_stuck h ins : spin_phase fuel i h ins Spin.

Definition spin_inv (fuel : nat) (w : spin_world) (ps : list (prog spin_world unit)) : Prop :=
  exists owner : option nat,
    sw_lc w = (if owner is Some _ then 1 else 0) /\
    (forall j, j ∈ sw_inside w -> owner = Some j) /\
    forall j p, ps !! j = Some p ->
      exists h ins, spin_phase fuel j h ins p /\ (h = true <-> owner = Some j) /\
                    (ins = true <-> j ∈ sw_inside w).

Lemma spin_client_phase fuel i sections : spin_phase fuel i false false (spin_client fuel i sections).
Proof. destruct sections as [|q rest]; [constructor | apply ph_wait]. Qed.

(** One step of a thread in a phase: its next phase, the effect on the lock word
    and on [inside]. *)
Lemma spin_phase_step fuel i h ins (p p' : prog spin_world unit) w w' :
  spin_phase fuel i h ins p -> thread_step w p w' p' ->
  exists h' ins',
    spin_phase fuel i h' ins' p' /\
    ((h' = h /\ (h = true -> sw_lc w' = sw_lc w) /\ (h = false -> sw_lc w' = 1 /\ sw_lc w <> 0)) \/
     (h = false /\ h' = true /\ sw_lc w = 0 /\ sw_lc w' = 1) \/
     (h = true /\ h' = false /\ ins = false /\ sw_lc w' = 0)) /\
    ((ins' = ins /\ sw_inside w' = sw_inside w) \/
     (h = true /\ h' = true /\ ins' = true /\ sw_inside w' = {[i]} ∪ sw_inside w) \/
     (h = true /\ h' = true /\ ins' = false /\ sw_inside w' = sw_inside w ∖ {[i]})).
Proof.
  intros Hp Hs. destruct Hp as [n k q rest|q rest|q rest|rest| |h ins].
  - destruct n as [|n]; inv_step Hs.
    destruct (Z.eqb_spec (sw_lc w) 0) as [E|E]; simpl.
    + exists true, false. split; [apply ph_enter|]. split; [by right; left|by left].
    + exists false, false. split; [apply ph_wait|]. split; [|by left]. left. done.
  - inv_step Hs. exists true, true. split; [apply ph_body|]. split; [by left|]. right. left. done.
  - destruct q as [[]| |X g k|k]; inv_step Hs.
    + exists true, false. split; [apply ph_exit|]. split; [by left|]. by right; right.
    + destruct (g (sw_data w)) as [x d]; simpl. exists true, true. split; [apply ph_body|].
      split; [by left|by left].
    + exists true, true. split; [apply ph_body|]. split; [by left|by left].
  - inv_step Hs. exists false, false. split; [apply spin_client_phase|]. split; [by right; right|by left].
  - inv_step Hs.
  - inv_step Hs.
Qed.

Lemma spin_inv_step fuel w ps i p w' p' :
  spin_inv fuel w ps -> ps !! i = Some p -> thread_step w p w' p' -> spin_inv fuel w' (<[i := p']> ps).
Proof.
  intros (o & Hlc & Hin & Hall) Hp Hs.
  destruct (Hall i p Hp) as (h & ins & Hph & Hh & Hi).
  destruct (spin_phase_step fuel i h ins p p' w w' Hph Hs) as (h' & ins' & Hph' & Hl & Hset).
  assert (i < length ps)%nat as Hlt by (by eapply lookup_lt_Some).
  exists (if h' then Some i else if h then None else o).
  assert (sw_lc w' = if (if h' then Some i else if h then None else o) is Some _ then 1 else 0) as Hlc'.
  { destruct Hl as [(-> & H1 & H2)|[(-> & -> & _ & H2)|(-> & -> & _ & H2)]]; [|done..].
    destruct h.
    - rewrite H1, Hlc by done. by rewrite (proj1 Hh eq_refl).
    - destruct (H2 eq_refl) as [-> H3]. rewrite Hlc in H3. by destruct o. }
  split; [done|].
  assert (forall j, j <> i -> (if h' then Some i else if h then None else o) = Some j <-> o = Some j) as Hown.
  { intros j Hj. destruct Hl as [(-> & H1 & H2)|[(-> & -> & H0 & _)|(-> & -> & _)]].
    - destruct h; [|done]. rewrite (proj1 Hh eq_refl). done.
    - rewrite Hlc in H0. destruct o; [lia|]. split; intros; simplify_eq.
    - rewrite (proj1 Hh eq_refl). split; intros; simplify_eq. }
  assert (forall j, j <> i -> j ∈ sw_inside w' <-> j ∈ sw_inside w) as Hinj.
  { intros j Hj. destruct Hset as [(_ & ->)|[(_ & _ & _ & ->)|(_ & _ & _ & ->)]]; mem_solver. }
  assert ((ins' = true <-> i ∈ sw_inside w') /\ (i ∈ sw_inside w' -> h' = true)) as [Hii Hih].
  { destruct Hset as [(-> & ->)|[(-> & -> & -> & ->)|(-> & -> & -> & ->)]];
      [|split; mem_solver|split; mem_solver].
    split; [done|]. intros Hi'. pose proof (proj2 Hh (Hin i Hi')) as ->.
    destruct Hl as [(-> & _)|[(? & _)|(_ & -> & -> & _)]]; try done.
    by apply Hi in Hi'. }
  split.
  - intros j Hj. destruct (decide (j = i)) as [->|Hne].
    + by rewrite (Hih Hj).
    + apply Hown, Hin; [done|]. by apply Hinj.
  - intros j q Hq. destruct (decide (j = i)) as [->|Hne].
    + rewrite list_lookup_insert_eq in Hq by done. simplify_eq. exists h', ins'.
      repeat split; try tauto; destruct h'; try done; destruct h; try done.
      intros Ho. apply Hh in Ho. done.
    + rewrite list_lookup_insert_ne in Hq by done. destruct (Hall j q Hq) as (hj & insj & Hpj & Hhj & Hij).
      exists hj, insj. rewrite (Hown j Hne), (Hinj j Hne). done.
Qed.

Lemma spin_inv_init fuel d (clients : list (list (prog D unit))) :
  spin_inv fuel (mk_spin_world 0 ∅ d) (imap (spin_client fuel) clients).
Proof.
  exists None. split; [done|]. split; [set_solver|]. intros j p Hp.
  rewrite list_lookup_imap in Hp. destruct (clients !! j) as [sections|]; simplify_eq/=.
  exists false, false. split; [apply spin_client_phase|]. split; [done|]. set_solver.
Qed.

(** C20: however the accesses of any number of threads that take and release one spin lock around
    sections of their own interleave, at most one of them is inside its critical section, and the lock word is 1 while one is. *)
Theorem spin_mutual_exclusion fuel (clients : list (list (prog D unit))) d w' ps' :
  pool_reach (mk_spin_world 0 ∅ d, imap (spin_client fuel) clients) (w', ps') ->
  (forall i j, i ∈ sw_inside w' -> j ∈ sw_inside w' -> i = j) /\
  (forall i, i ∈ sw_inside w' -> sw_lc w' = 1).
Proof.
  intros Hr.
  assert (spin_inv fuel w' ps') as (o & Hlc & Hin & _).
  { eapply (pool_invariant (spin_inv fuel)); [apply spin_inv_init| |exact Hr].
    intros. by eapply spin_inv_step. }
  split.
  - intros i j Hi%Hin Hj%Hin. by simplify_eq.
  - intros i Hi%Hin. by rewrite Hlc, Hi.
Qed.

End spin_clients.
Arguments spin_world : clear implicits.

(** Two threads incrementing a counter under the lock, stopped while one is inside. *)
Definition incr_section : prog Z unit := v ← act (fun d : Z => (d, d)); act (fun _ => (tt, v + 1)).

Lemma spin_mutual_exclusion_witness :
  let c := run_sched [(0%nat, false); (1%nat, false); (0%nat, false); (0%nat, false)]
             (mk_spin_world 0 ∅ 0, imap (spin_client 5) [[incr_section]; [incr_section]]) in
  0%nat ∈ sw_inside c.1 /\ (forall i, i ∈ sw_inside c.1 -> sw_lc c.1 = 1).
Proof.
  intros c. split; [by vm_compute|].
  apply (spin_mutual_exclusion 5 [[incr_section]; [incr_section]] 0 c.1 c.2).
  apply run_sched_reach.
Defined.
