(* ===== verification/RwLock.v ===== *)
(** * Exclusion of the read-write lock

    [rw_lock.rs] ([Locks.rw_lock] and its companions) under interleaving: a writer
    inside its section is alone, and readers share.  The clients record themselves
    in [writers] and [readers] while inside. *)
From S2P Require Import Prelude Atomics Locks.

Record rw_world := mk_rw_world { rw_lc : Z; writers : gset nat; readers : gset nat }.

Definition lc_f : field rw_world Z := mk_field rw_lc (fun v w => mk_rw_world v (writers w) (readers w)).

Definition enter_w (i : nat) : prog rw_world unit :=
  act (fun w => (tt, mk_rw_world (rw_lc w) ({[i]} ∪ writers w) (readers w))).
Definition leave_w (i : nat) : prog rw_world unit :=
  act (fun w => (tt, mk_rw_world (rw_lc w) (writers w ∖ {[i]}) (readers w))).
Definition enter_r (i : nat) : prog rw_world unit :=
  act (fun w => (tt, mk_rw_world (rw_lc w) (writers w) ({[i]} ∪ readers w))).
Definition leave_r (i : nat) : prog rw_world unit :=
  act (fun w => (tt, mk_rw_world (rw_lc w) (writers w) (readers w ∖ {[i]}))).

(** A thread takes the lock in turn, [true] for writing. *)
Fixpoint rw_client (fuel i : nat) (sections : list bool) : prog rw_world unit :=
  match sections with
  | [] => Ret tt
  | true :: rest =>
      _ ← rw_lock lc_f fuel; _ ← enter_w i; _ ← leave_w i; _ ← rw_unlock lc_f; rw_client fuel i rest
  | false :: rest =>
      _ ← rw_lock_shared lc_f fuel; _ ← enter_r i; _ ← leave_r i; _ ← rw_unlock_shared lc_f; rw_client fuel i rest
  end.

(** What a thread has of the lock: nothing, the writer flag while readers leave, the lock for
    writing, or a share of it. *)
Inductive holding := HNone | HFlag | HWrite | HRead.

Section phases.
Context (fuel i : nat).

Definition after_w (rest : list bool) (_ : unit) : prog rw_world unit :=
  _ ← enter_w i; _ ← leave_w i; _ ← rw_unlock lc_f; rw_client fuel i rest.
Definition after_r (rest : list bool) (_ : unit) : prog rw_world unit :=
  _ ← enter_r i; _ ← leave_r i; _ ← rw_unlock_shared lc_f; rw_client fuel i rest.

Definition cas_result (n : nat) (k : Z) (r : result Z Z) : prog rw_world unit :=
  match r with Ok _ => Ret tt | Err _ => old' ← load lc_f; rw_lock_shared_loop lc_f n old' k end.

Inductive rw_phase : holding -> bool -> prog rw_world unit -> Prop :=
| rp_done : rw_phase HNone false (Ret tt)
| rp_raise n k rest :
    rw_phase HNone false
      ((rw_raise_flag lc_f n k ≫= fun free : bool => if free then Ret tt else rw_wait_readers lc_f fuel 0) ≫= after_w rest)
| rp_wait n k rest : rw_phase HFlag false (rw_wait_readers lc_f n k ≫= after_w rest)
| rp_got rest : rw_phase HWrite false (after_w rest tt)
| rp_in_w rest : rw_phase HWrite true (leave_w i ≫= fun _ => rw_unlock lc_f ≫= fun _ => rw_client fuel i rest)
| rp_out_w rest : rw_phase HWrite false (rw_unlock lc_f ≫= fun _ => rw_client fuel i rest)
| rp_shared n old k rest : rw_phase HNone false (rw_lock_shared_loop lc_f n old k ≫= after_r rest)
| rp_cas n old k rest :
    Z.land old W_FLAG = 0 ->
    rw_phase HNone false ((compare_exchange lc_f old (old + 1) ≫= cas_result n k) ≫= after_r rest)
| rp_spurious n k rest :
    rw_phase HNone false ((act (fun w => (Err (rw_lc w), w)) ≫= cas_result n k) ≫= after_r rest)
| rp_reload n k rest : rw_phase HNone false ((old' ← load lc_f; rw_lock_shared_loop lc_f n old' k) ≫= after_r rest)
| rp_got_r rest : rw_phase HRead false (after_r rest tt)
| rp_in_r rest : rw_phase HRead true (leave_r i ≫= fun _ => rw_unlock_shared lc_f ≫= fun _ => rw_client fuel i rest)
| rp_out_r rest : rw_phase HRead false (rw_unlock_shared lc_f ≫= fun _ => rw_client fuel i rest).

(** The program of a thread with a share: its compare-and-swap in [rw_lock_shared] has succeeded,
    the subtraction of its [rw_unlock_shared] is to come. *)
Inductive has_share : prog rw_world unit -> Prop :=
| hs_got rest : has_share (after_r rest tt)
| hs_in rest : has_share (leave_r i ≫= fun _ => rw_unlock_shared lc_f ≫= fun _ => rw_client fuel i rest)
| hs_out rest : has_share (rw_unlock_shared lc_f ≫= fun _ => rw_client fuel i rest).

(** What a step does to the lock word. *)
Inductive word_step (w w' : rw_world) : holding -> holding -> Prop :=
| ws_same h : rw_lc w' = rw_lc w -> word_step w w' h h
| ws_again : Z.land (rw_lc w) W_FLAG <> 0 -> rw_lc w' = Z.lor (rw_lc w) W_FLAG -> word_step w w' HNone HNone
| ws_flag : Z.land (rw_lc w) W_FLAG = 0 -> rw_lc w' = Z.lor (rw_lc w) W_FLAG -> word_step w w' HNone HFlag
| ws_free : rw_lc w = 0 -> rw_lc w' = Z.lor (rw_lc w) W_FLAG -> word_step w w' HNone HWrite
| ws_alone : Z.land (rw_lc w) W_MASK = 0 -> rw_lc w' = rw_lc w -> word_step w w' HFlag HWrite
| ws_unlock : rw_lc w' = 0 -> word_step w w' HWrite HNone
| ws_read : Z.land (rw_lc w) W_FLAG = 0 -> rw_lc w' = rw_lc w + 1 -> word_step w w' HNone HRead
| ws_unread : rw_lc w' = wrapping_sub 32 (rw_lc w) 1 -> word_step w w' HRead HNone.

(** What a step does to the sets of threads inside. *)
Definition sets_step (w w' : rw_world) (h h' : holding) (ins ins' : bool) : Prop :=
  (ins' = ins /\ (ins = true -> h' = h) /\ writers w' = writers w /\ readers w' = readers w) \/
  (h = HWrite /\ h' = HWrite /\ ins' = true /\ writers w' = {[i]} ∪ writers w /\ readers w' = readers w) \/
  (h = HWrite /\ h' = HWrite /\ ins' = false /\ writers w' = writers w ∖ {[i]} /\ readers w' = readers w) \/
  (h = HRead /\ h' = HRead /\ ins' = true /\ readers w' = {[i]} ∪ readers w /\ writers w' = writers w) \/
  (h = HRead /\ h' = HRead /\ ins' = false /\ readers w' = readers w ∖ {[i]} /\ writers w' = writers w).

Lemma rw_client_phase sections : rw_phase HNone false (rw_client fuel i sections).
Proof. destruct sections as [|[] rest]; [constructor|apply rp_raise|apply rp_reload]. Qed.

Lemma rw_phase_step h ins p p' w w' :
  rw_phase h ins p -> thread_step w p w' p' ->
  exists h' ins', rw_phase h' ins' p' /\ word_step w w' h h' /\ sets_step w w' h h' ins ins'.
Proof.
  intros Hp Hs. destruct Hp as [|n k rest|n k rest|rest|rest|rest|n old k rest|n old k rest Hold|n k rest|n k rest|rest|rest|rest].
  - inv_step Hs.
  - destruct n as [|n]; inv_step Hs. destruct (Z.eqb_spec (rw_lc w) 0) as [E|E].
    { exists HWrite, false. split; [apply rp_got|]. split; [by apply ws_free|by left]. }
    destruct (Z.eqb_spec (Z.land (rw_lc w) W_FLAG) 0) as [E'|E'].
    + exists HFlag, false. split; [apply rp_wait|]. split; [by apply ws_flag|by left].
    + exists HNone, false. split; [apply rp_raise|]. split; [by apply ws_again|by left].
  - destruct n as [|n]; inv_step Hs. destruct (Z.eqb_spec (Z.land (rw_lc w) W_MASK) 0) as [E|E].
    + exists HWrite, false. split; [apply rp_got|]. split; [by apply ws_alone|by left].
    + exists HFlag, false. split; [apply rp_wait|]. split; [by apply ws_same|by left].
  - inv_step Hs. exists HWrite, true. split; [apply rp_in_w|]. split; [by apply ws_same|by right; left].
  - inv_step Hs. exists HWrite, false. split; [apply rp_out_w|]. split; [by apply ws_same|by right; right; left].
  - inv_step Hs. exists HNone, false. split; [apply rw_client_phase|]. split; [by apply ws_unlock|by left].
  - destruct n as [|n]; [inv_step Hs|]. cbn [rw_lock_shared_loop] in Hs.
    destruct (Z.eqb_spec (Z.land old W_FLAG) 0) as [E|E]; cbn [negb] in Hs; inv_step Hs.
    + match goal with b : bool |- _ => destruct b end; exists HNone, false.
      * split; [apply rp_spurious|]. split; [by apply ws_same|by left].
      * split; [by apply rp_cas|]. split; [by apply ws_same|by left].
    + exists HNone, false. split; [apply rp_shared|]. split; [by apply ws_same|by left].
  - inv_step Hs. destruct (Z.eqb_spec (rw_lc w) old) as [E|E]; cbn [fst snd].
    + exists HRead, false. split; [apply rp_got_r|]. subst old. split; [by apply ws_read|by left].
    + exists HNone, false. split; [apply rp_reload|]. split; [by apply ws_same|by left].
  - inv_step Hs. exists HNone, false. split; [apply rp_reload|]. split; [by apply ws_same|by left].
  - inv_step Hs. exists HNone, false. split; [apply rp_shared|]. split; [by apply ws_same|by left].
  - inv_step Hs. exists HRead, true. split; [apply rp_in_r|]. split; [by apply ws_same|by right; right; right; left].
  - inv_step Hs. exists HRead, false. split; [apply rp_out_r|]. split; [by apply ws_same|by right; right; right; right].
  - inv_step Hs. exists HNone, false. split; [apply rw_client_phase|]. split; [by apply ws_unread|by left].
Qed.

Lemma rw_phase_share ins p : rw_phase HRead ins p -> has_share p.
Proof. inversion 1; subst; constructor. Qed.

Lemma rw_phase_done h ins p : rw_phase h ins p -> p = Ret tt -> h = HNone.
Proof. intros Hp E. destruct Hp as [|[]|[]| | | |[]| | | | | |]; try done. Qed.

End phases.

(** ** Counting *)

Section counting.
Context (weight : holding -> Z).
Hypothesis weight_nonneg : forall h, 0 <= weight h.

Definition total (hs : list holding) : Z := foldr (fun h acc => weight h + acc) 0 hs.

Lemma rw_total_nonneg hs : 0 <= total hs.
Proof. induction hs as [|h hs IH]; simpl; [lia|]. pose proof (weight_nonneg h). lia. Qed.

Lemma rw_total_insert hs i h h' : hs !! i = Some h -> total (<[i := h']> hs) = total hs - weight h + weight h'.
Proof.
  revert i. induction hs as [|x hs IH]; intros [|i] Hi; simplify_eq/=; [lia|]. rewrite IH by done. lia.
Qed.

Lemma total_ge hs i h : hs !! i = Some h -> weight h <= total hs.
Proof.
  revert i. induction hs as [|x hs IH]; intros [|i] Hi; simplify_eq/=; [pose proof (rw_total_nonneg hs); lia|].
  pose proof (weight_nonneg x). pose proof (IH i Hi). lia.
Qed.

Lemma total_two hs i j a b : hs !! i = Some a -> hs !! j = Some b -> i <> j -> weight a + weight b <= total hs.
Proof.
  revert i j. induction hs as [|x hs IH]; intros [|i] [|j] Hi Hj Hne; simplify_eq/=; try done.
  - pose proof (total_ge hs j b Hj). lia.
  - pose proof (total_ge hs i a Hi). lia.
  - pose proof (weight_nonneg x). pose proof (IH i j Hi Hj ltac:(congruence)). lia.
Qed.

End counting.

(** ** The invariant *)

(** How many have the flag (raised or as writer), the lock for writing, a share. *)
Definition w_flag (h : holding) : Z := match h with HFlag | HWrite => 1 | _ => 0 end.
Definition w_write (h : holding) : Z := match h with HWrite => 1 | _ => 0 end.
Definition w_read (h : holding) : Z := match h with HRead => 1 | _ => 0 end.

Lemma w_flag_nonneg h : 0 <= w_flag h. Proof. destruct h; simpl; lia. Qed.
Lemma w_write_nonneg h : 0 <= w_write h. Proof. destruct h; simpl; lia. Qed.
Lemma w_read_nonneg h : 0 <= w_read h. Proof. destruct h; simpl; lia. Qed.

Lemma reads_le_length hs : total w_read hs <= Z.of_nat (length hs).
Proof. induction hs as [|h hs IH]; simpl; [lia|]. destruct h; simpl; lia. Qed.

(** The word is the flag and the number of readers. *)
Definition word_ok (w : rw_world) (hs : list holding) : Prop :=
  Z.of_nat (length hs) < 2 ^ 31 /\
  rw_lc w = 2 ^ 31 * total w_flag hs + total w_read hs /\ total w_flag hs <= 1 /\
  (total w_write hs = 0 \/ total w_read hs = 0).

Lemma word_flag f c : 0 <= c < 2 ^ 31 -> f = 0 \/ f = 1 -> Z.land (2 ^ 31 * f + c) W_FLAG = 2 ^ 31 * f.
Proof.
  intros Hc Hf. change W_FLAG with (2 ^ 31). rewrite land_pow2 by lia.
  assert (Z.testbit (2 ^ 31 * f + c) 31 = (f =? 1)) as ->.
  { apply Z.b2z_inj. rewrite Z.testbit_spec' by lia. rewrite Z.add_comm, Z.mul_comm, Z.div_add, Z.div_small by lia.
    destruct Hf as [-> | ->]; reflexivity. }
  destruct Hf as [-> | ->]; reflexivity.
Qed.

Lemma word_mask f c : 0 <= c < 2 ^ 31 -> f = 0 \/ f = 1 -> Z.land (2 ^ 31 * f + c) W_MASK = c.
Proof.
  intros Hc Hf. change W_MASK with (Z.ones 31). rewrite Z.land_ones by lia.
  rewrite Z.add_comm, Z.mul_comm, Z.mod_add by lia. by apply Z.mod_small.
Qed.

Lemma word_or f c : 0 <= c < 2 ^ 31 -> f = 0 \/ f = 1 -> Z.lor (2 ^ 31 * f + c) W_FLAG = 2 ^ 31 + c.
Proof.
  intros Hc Hf. pose proof (Z.add_lor_land (2 ^ 31 * f + c) W_FLAG) as E. rewrite (word_flag f c Hc Hf) in E.
  change W_FLAG with (2 ^ 31) in *. lia.
Qed.

Lemma word_ok_step i w w' hs h h' :
  word_ok w hs -> hs !! i = Some h -> word_step w w' h h' -> word_ok w' (<[i := h']> hs).
Proof.
  intros (Hn & Hlc & Hf & Hx) Hi Hs. unfold word_ok. rewrite length_insert, !(rw_total_insert _ hs i h h') by done.
  pose proof (rw_total_nonneg w_flag w_flag_nonneg hs). pose proof (rw_total_nonneg w_write w_write_nonneg hs).
  pose proof (rw_total_nonneg w_read w_read_nonneg hs). pose proof (reads_le_length hs).
  pose proof (total_ge w_flag w_flag_nonneg hs i h Hi). pose proof (total_ge w_write w_write_nonneg hs i h Hi).
  pose proof (total_ge w_read w_read_nonneg hs i h Hi).
  assert (total w_write hs <= total w_flag hs) as Hwf by (clear; induction hs as [|[] hs IH]; simpl; lia).
  set (f := total w_flag hs) in *. set (c := total w_read hs) in *. set (e := total w_write hs) in *.
  assert (0 <= c < 2 ^ 31) as Hc by lia. assert (f = 0 \/ f = 1) as Hf' by lia.
  pose proof (word_flag f c Hc Hf') as E1. pose proof (word_mask f c Hc Hf') as E2. pose proof (word_or f c Hc Hf') as E3.
  rewrite <- Hlc in E1, E2, E3. split; [done|].
  destruct Hs as [h Hw|Hw1 Hw2|Hw1 Hw2|Hw1 Hw2|Hw1 Hw2|Hw|Hw1 Hw2|Hw]; cbn [w_flag w_write w_read] in *;
    try rewrite Hw; try rewrite Hw2; try (lia || (split; lia)).
  - rewrite Hlc. unfold wrapping_sub. rewrite wrap_id by (unfold is_u; lia). lia.
Qed.

Definition rw_inv (fuel : nat) (w : rw_world) (ps : list (prog rw_world unit)) : Prop :=
  exists hs, length hs = length ps /\ word_ok w hs /\
    (forall j h p, hs !! j = Some h -> ps !! j = Some p -> exists ins, rw_phase fuel j h ins p /\
       (j ∈ writers w <-> h = HWrite /\ ins = true) /\ (j ∈ readers w <-> h = HRead /\ ins = true)) /\
    (forall j, j ∈ writers w \/ j ∈ readers w -> (j < length ps)%nat).

(** The sets change only at the stepping thread, in step with its phase. *)
Lemma sets_step_other i w w' h h' ins ins' j : sets_step i w w' h h' ins ins' -> j <> i ->
  (j ∈ writers w' <-> j ∈ writers w) /\ (j ∈ readers w' <-> j ∈ readers w).
Proof.
  intros [(_ & _ & -> & ->)|[(_ & _ & _ & -> & ->)|[(_ & _ & _ & -> & ->)|[(_ & _ & _ & -> & ->)|(_ & _ & _ & -> & ->)]]]] Hj;
    split; mem_solver.
Qed.

Lemma sets_step_self i w w' h h' (ins ins' : bool) : sets_step i w w' h h' ins ins' ->
  (i ∈ writers w <-> h = HWrite /\ ins = true) -> (i ∈ readers w <-> h = HRead /\ ins = true) ->
  (i ∈ writers w' <-> h' = HWrite /\ ins' = true) /\ (i ∈ readers w' <-> h' = HRead /\ ins' = true).
Proof.
  intros [(-> & Hh & -> & ->)|[(-> & -> & -> & -> & ->)|[(-> & -> & -> & -> & ->)|[(-> & -> & -> & -> & ->)|(-> & -> & -> & -> & ->)]]]] Hw Hr;
    try (split; mem_solver).
  split; [rewrite Hw|rewrite Hr]; split; intros [H1 H2]; split; try done; pose proof (Hh H2); congruence.
Qed.

Lemma rw_inv_step fuel w ps i p w' p' :
  rw_inv fuel w ps -> ps !! i = Some p -> thread_step w p w' p' -> rw_inv fuel w' (<[i := p']> ps).
Proof.
  intros (hs & Hl & Hword & Hall & Hin) Hp Hs. pose proof (lookup_lt_Some _ _ _ Hp) as Hlt.
  destruct (lookup_lt_is_Some_2 hs i) as [h Hh]; [lia|].
  destruct (Hall i h p Hh Hp) as (ins & Hph & Hw & Hr).
  destruct (rw_phase_step fuel i h ins p p' w w' Hph Hs) as (h' & ins' & Hph' & Hws & Hss).
  exists (<[i := h']> hs). split; [by rewrite !length_insert|]. split; [by eapply word_ok_step|]. split.
  - intros j hj q Hj Hq. destruct (decide (j = i)) as [->|Hne].
    + rewrite list_lookup_insert_eq in Hj by lia. rewrite list_lookup_insert_eq in Hq by lia. simplify_eq. exists ins'. split; [done|].
      by apply (sets_step_self i w w' h hj ins ins').
    + rewrite list_lookup_insert_ne in Hj by done. rewrite list_lookup_insert_ne in Hq by done. destruct (Hall j hj q Hj Hq) as (insj & Hpj & Hwj & Hrj).
      exists insj. split; [done|]. destruct (sets_step_other _ _ _ _ _ _ _ j Hss Hne) as [-> ->]. done.
  - intros j Hj. rewrite length_insert. destruct (decide (j = i)) as [->|Hne]; [done|].
    apply Hin. destruct (sets_step_other _ _ _ _ _ _ _ j Hss Hne) as [<- <-]. done.
Qed.

Lemma total_none (weight : holding -> Z) n : weight HNone = 0 -> total weight (replicate n HNone) = 0.
Proof. intros E. induction n as [|n IH]; simpl; lia. Qed.

Lemma rw_inv_init fuel (clients : list (list bool)) : Z.of_nat (length clients) < 2 ^ 31 ->
  rw_inv fuel (mk_rw_world 0 ∅ ∅) (imap (rw_client fuel) clients).
Proof.
  intros Hn. exists (replicate (length clients) HNone). split; [by rewrite length_replicate, length_imap|]. split.
  - unfold word_ok. rewrite length_replicate, !total_none by done. cbn [rw_lc]. lia.
  - split; [|set_solver]. intros j h p Hj Hp. apply lookup_replicate in Hj as [-> _].
    rewrite list_lookup_imap in Hp. destruct (clients !! j) as [sections|]; simplify_eq/=.
    exists false. split; [apply rw_client_phase|]. set_solver.
Qed.

(** The threads that have a share. *)
Definition sharing (hs : list holding) : list bool :=
  (fun h => match h with HRead => true | _ => false end) <$> hs.

Lemma total_read hs : total w_read hs = Z.of_nat (length (filter Is_true (sharing hs))).
Proof.
  unfold total, sharing. induction hs as [|[] hs IH]; [done|..]; cbn [foldr w_read]; rewrite fmap_cons, IH;
    rewrite ?filter_cons_True, ?filter_cons_False by (simpl; tauto); cbn [length]; lia.
Qed.

Lemma total_idle (weight : holding -> Z) hs : weight HNone = 0 -> (forall h, h ∈ hs -> h = HNone) -> total weight hs = 0.
Proof.
  intros E H. induction hs as [|h hs IH]; [done|]. simpl. rewrite IH; [|set_solver].
  rewrite (H h) by set_solver. lia.
Qed.

Lemma rw_inv_reach fuel clients w ps : Z.of_nat (length clients) < 2 ^ 31 ->
  pool_reach (mk_rw_world 0 ∅ ∅, imap (rw_client fuel) clients) (w, ps) -> rw_inv fuel w ps.
Proof.
  intros Hn Hr. eapply (pool_invariant (rw_inv fuel)); [by apply rw_inv_init|intros; by eapply rw_inv_step|exact Hr].
Qed.

(** Who is inside holds the lock that way. *)
Lemma rw_inside fuel w ps hs :
  length hs = length ps ->
  (forall j h p, hs !! j = Some h -> ps !! j = Some p -> exists ins, rw_phase fuel j h ins p /\
     (j ∈ writers w <-> h = HWrite /\ ins = true) /\ (j ∈ readers w <-> h = HRead /\ ins = true)) ->
  (forall j, j ∈ writers w \/ j ∈ readers w -> (j < length ps)%nat) ->
  forall i, (i ∈ writers w -> hs !! i = Some HWrite) /\ (i ∈ readers w -> hs !! i = Some HRead).
Proof.
  intros Hl Hall Hin i.
  assert (i ∈ writers w \/ i ∈ readers w -> exists h ins, hs !! i = Some h /\
    (i ∈ writers w <-> h = HWrite /\ ins = true) /\ (i ∈ readers w <-> h = HRead /\ ins = true)) as H.
  { intros Hi. pose proof (Hin i Hi). destruct (lookup_lt_is_Some_2 hs i) as [h Hh]; [lia|].
    destruct (lookup_lt_is_Some_2 ps i) as [p Hp]; [lia|]. destruct (Hall i h p Hh Hp) as (ins & _ & Hw & Hr). eauto. }
  split; intros Hi; [destruct (H (or_introl Hi)) as (h & ins & -> & [Hw _] & _)|
                     destruct (H (or_intror Hi)) as (h & ins & -> & _ & [Hw _])]; by destruct (Hw Hi) as [-> _].
Qed.

(** C19: however the accesses of any number of threads (fewer than 2^31) interleave, the
    read-write lock excludes: a thread inside its writing section is the only one inside any
    section, and while one is, the lock word is exactly the writer flag.  The low bits of the word
    count the shares exactly: there is a set of threads with a share, each between its successful
    [lock_shared] and its [unlock_shared], every reader inside among them, and the word is their
    number, with the writer flag or without it.  Once all have finished it is 0. *)
Theorem rw_lock_excludes fuel (clients : list (list bool)) w ps :
  Z.of_nat (length clients) < 2 ^ 31 ->
  pool_reach (mk_rw_world 0 ∅ ∅, imap (rw_client fuel) clients) (w, ps) ->
  (forall i j, i ∈ writers w -> j ∈ writers w -> i = j) /\
  (forall i, i ∈ writers w -> readers w = ∅ /\ rw_lc w = W_FLAG) /\
  (forall i, i ∈ readers w -> writers w = ∅ /\ 0 < Z.land (rw_lc w) W_MASK) /\
  (exists shares : list bool, length shares = length ps /\
     (forall i, i ∈ readers w -> shares !! i = Some true) /\
     (forall i p, shares !! i = Some true -> ps !! i = Some p -> has_share fuel i p) /\
     exists flag, (flag = 0 \/ flag = W_FLAG) /\ rw_lc w = flag + Z.of_nat (length (filter Is_true shares))) /\
  ((forall p, p ∈ ps -> p = Ret tt) -> rw_lc w = 0).
Proof.
  intros Hn Hr. destruct (rw_inv_reach fuel clients w ps Hn Hr) as (hs & Hl & (Hlt & Hlc & Hf & Hx) & Hall & Hin).
  pose proof (rw_inside fuel w ps hs Hl Hall Hin) as Hi. pose proof (fun i => proj1 (Hi i)) as HW. pose proof (fun i => proj2 (Hi i)) as HR.
  pose proof (reads_le_length hs). pose proof (rw_total_nonneg w_read w_read_nonneg hs). pose proof (rw_total_nonneg w_flag w_flag_nonneg hs).
  assert (forall i j, i ∈ writers w -> j ∈ readers w -> False) as Hwr.
  { intros i j Hi'%HW Hj%HR. pose proof (total_ge w_write w_write_nonneg hs i _ Hi'). pose proof (total_ge w_read w_read_nonneg hs j _ Hj).
    cbn in *. lia. }
  split_and!.
  - intros i j Hi'%HW Hj%HW. destruct (decide (i = j)) as [|Hne]; [done|].
    pose proof (total_two w_flag w_flag_nonneg hs i j _ _ Hi' Hj Hne). cbn in *. lia.
  - intros i Hi'. split; [set_solver|]. apply HW in Hi'. pose proof (total_ge w_write w_write_nonneg hs i _ Hi').
    pose proof (total_ge w_flag w_flag_nonneg hs i _ Hi'). cbn in *. change W_FLAG with (2 ^ 31). lia.
  - intros i Hi'. split; [set_solver|]. apply HR in Hi'. pose proof (total_ge w_read w_read_nonneg hs i _ Hi').
    rewrite Hlc, word_mask by lia. cbn in *. lia.
  - exists (sharing hs). unfold sharing at 1. rewrite length_fmap. split; [done|]. split; [|split].
    + intros i Hi'%HR. unfold sharing. by rewrite list_lookup_fmap, Hi'.
    + intros i p Hs Hp. unfold sharing in Hs. rewrite list_lookup_fmap in Hs. destruct (hs !! i) as [[]|] eqn:Hh; try done.
      destruct (Hall i _ p Hh Hp) as (ins & Hph & _). by eapply rw_phase_share.
    + exists (W_FLAG * total w_flag hs). rewrite <- total_read, Hlc. change W_FLAG with (2 ^ 31). lia.
  - intros Hdone. assert (forall h, h ∈ hs -> h = HNone) as Hid.
    { intros h (i & Hh)%list_elem_of_lookup. destruct (lookup_lt_is_Some_2 ps i) as [p Hp]; [rewrite <- Hl; by eapply lookup_lt_Some|].
      destruct (Hall i h p Hh Hp) as (ins & Hph & _). eapply rw_phase_done; [done|]. apply Hdone. by eapply list_elem_of_lookup_2. }
    by rewrite Hlc, !total_idle.
Qed.

(** Two readers inside together while a writer waits for them to leave: the word is the flag and 2. *)
Lemma rw_lock_excludes_witness :
  let c := run_sched ((fun i => (i, false)) <$> ([1; 1; 1; 1; 2; 2; 2; 2; 0; 0])%nat)
             (mk_rw_world 0 ∅ ∅, imap (rw_client 5) [[true]; [false]; [false]]) in
  readers c.1 = {[1; 2]}%nat /\ rw_lc c.1 = W_FLAG + 2 /\ writers c.1 = ∅.
Proof.
  intros c. assert (1%nat ∈ readers c.1) as Hin by (by vm_compute). split; [by vm_compute|]. split; [by vm_compute|].
  destruct (rw_lock_excludes 5 [[true]; [false]; [false]] c.1 c.2 ltac:(vm_compute; reflexivity)) as (_ & _ & H & _).
  - apply run_sched_reach.
  - exact (proj1 (H 1%nat Hin)).
Defined.
