(* ===== verification/Abi.v ===== *)
(** * The generated ABI constants and the shared-memory layouts

    [abi_generated.rs] (emitted from [abi/abi.json]) fixes the byte sizes and
    offsets every port shares.  The constants are transcribed under their source
    names; those the source gates on the alignment class take the target as an
    argument.  [layout] is the repr(C) layout algorithm, used to check the
    structs of the port against the constants, as the [const _] blocks of the
    source do at compile time. *)
From S2P Require Import Prelude.

(** A build target, as far as the ABI depends on it: whether
    [alignof(max_align_t)] is 8 (Apple arm64, MSVC) or 16, and whether POSIX
    shared-memory names are shortened (macOS). *)
Record target := mk_target { align8 : bool; macos : bool }.

Definition apple_arm64 : target := mk_target true true.
Definition x86_64_linux : target := mk_target false false.

(** ** Constants *)

Definition abi_version : string := "1.3.0".
Definition data_length : Z := 64.
Definition ring_size : Z := 256.
Definition large_msg_align : Z := 1024.
Definition large_msg_cache : Z := 32.
Definition chunk_header_size (t : target) : Z :=
  if align8 t then 8 else 16.
Definition route_ep_mask : Z := 0x00000000ffffffff.
Definition route_ep_incr : Z := 0x0000000100000000.
Definition chan_rc_mask : Z := 0x00000000ffffffff.
Definition chan_ep_mask : Z := 0x00ffffffffffffff.
Definition chan_ep_incr : Z := 0x0100000000000000.
Definition chan_ic_mask : Z := 0xff000000ffffffff.
Definition chan_ic_incr : Z := 0x0000000100000000.
Definition syncabi_magic : Z := 1279873857.
Definition syncabi_backend_posix_pthread : Z := 1.
Definition syncabi_backend_ulock : Z := 2.
Definition syncabi_backend_apple_mach : Z := 3.
Definition syncabi_backend_win32 : Z := 4.
Definition syncabi_backend_linux_a0 : Z := 5.
Definition sipc_magic : string := "SIPC".
Definition sipc_version : Z := 1.
Definition notify_hash_xchan : string := "098e889ce378ae04".
Definition sync_abi_suffix_mutex : string := "__thoth_ipc_sync_abi_mutex".
Definition sync_abi_suffix_condition : string := "__thoth_ipc_sync_abi_condition".
Definition msg_t_size : Z := 80.
Definition msg_t_align : Z := 8.
Definition msg_t_cc_id_off : Z := 0.
Definition msg_t_id_off : Z := 4.
Definition msg_t_remain_off : Z := 8.
Definition msg_t_storage_off : Z := 12.
Definition msg_t_payload_off : Z := 16.
Definition ring_header_size : Z := 192.
Definition ring_header_align : Z := 64.
Definition ring_header_cc_off : Z := 0.
Definition ring_header_lc_off : Z := 4.
Definition ring_header_constructed_off : Z := 8.
Definition ring_header_cursor_off : Z := 64.
Definition ring_header_epoch_off : Z := 128.
Definition route_elem_size (t : target) : Z :=
  if align8 t then 88 else 96.
Definition route_elem_align (t : target) : Z :=
  if align8 t then 8 else 16.
Definition route_elem_data_off : Z := 0.
Definition route_elem_rc_off : Z := 80.
Definition channel_elem_size : Z := 96.
Definition channel_elem_align (t : target) : Z :=
  if align8 t then 8 else 16.
Definition channel_elem_data_off : Z := 0.
Definition channel_elem_rc_off : Z := 80.
Definition channel_elem_f_ct_off : Z := 88.
Definition route_ring_size (t : target) : Z :=
  if align8 t then 22784 else 24832.
Definition route_ring_align : Z := 64.
Definition route_ring_sender_owner_off (t : target) : Z :=
  if align8 t then 22720 else 24768.
Definition channel_ring_size : Z := 24832.
Definition channel_ring_align : Z := 64.
Definition chunk_info_size : Z := 40.
Definition chunk_info_align : Z := 4.
Definition chunk_info_next_off : Z := 0.
Definition chunk_info_cursor_off : Z := 32.
Definition chunk_info_prepared_off : Z := 33.
Definition chunk_info_lock_off : Z := 36.
Definition liveness_slot_size : Z := 16.
Definition liveness_slot_align : Z := 8.
Definition liveness_slot_pid_off : Z := 0.
Definition liveness_slot_since_off : Z := 4.
Definition liveness_slot_start_tok_off : Z := 8.
Definition sipc_header_size : Z := 19.
Definition sipc_header_align : Z := 1.
Definition sipc_header_magic_off : Z := 0.
Definition sipc_header_version_off : Z := 4.
Definition sipc_header_alg_id_off : Z := 5.
Definition sipc_header_key_id_off : Z := 7.
Definition sipc_header_nonce_size_off : Z := 11.
Definition sipc_header_tag_size_off : Z := 13.
Definition sipc_header_ct_size_off : Z := 15.
Definition syncabi_stamp_size : Z := 24.
Definition syncabi_stamp_align : Z := 4.
Definition syncabi_stamp_magic_off : Z := 0.
Definition syncabi_stamp_ver_major_off : Z := 4.
Definition syncabi_stamp_ver_minor_off : Z := 8.
Definition syncabi_stamp_backend_id_off : Z := 12.
Definition syncabi_stamp_primitive_id_off : Z := 16.
Definition syncabi_stamp_payload_size_off : Z := 20.
Definition ulock_mutex_size : Z := 8.
Definition ulock_mutex_align : Z := 4.
Definition ulock_mutex_state_off : Z := 0.
Definition ulock_mutex_holder_off : Z := 4.
Definition ulock_cond_size : Z := 8.
Definition ulock_cond_align : Z := 4.
Definition ulock_cond_seq_off : Z := 0.
Definition ulock_cond_waiters_off : Z := 4.
Definition a0_mtx_size : Z := 24.
Definition a0_mtx_align : Z := 8.
Definition a0_mtx_next_off : Z := 0.
Definition a0_mtx_prev_off : Z := 8.
Definition a0_mtx_ftx_off : Z := 16.
Definition a0_cnd_size : Z := 4.
Definition a0_cnd_align : Z := 4.
Definition a0_cnd_seq_off : Z := 0.
Definition name_golden_ring (t : target) : string :=
  if align8 t then "__THOTH_SHM__QU_CONN__xchan__64__8" else "__THOTH_SHM__QU_CONN__xchan__64__16".
Definition name_golden_ring_posix (t : target) : string :=
  if align8 t then "/__THOTH_SHM___7d090bf7fa85c547" else "/__THOTH_SHM__QU_CONN__xchan__64__16".
Definition name_golden_cc_id : string := "__THOTH_SHM__CA_CONN__".
Definition name_golden_msg_id : string := "__THOTH_SHM__AC_CONN__xchan".
Definition name_golden_liveness : string := "__THOTH_SHM__LV_CONN__xchan".
Definition name_golden_chunk : string := "__THOTH_SHM__CHUNK_INFO__1024".
Definition name_golden_notify_key : string := "thoth.ntf.098e889ce378ae04".

(** ** Enums *)

Inductive codec_id := flatbuffers | protobuf | capnp.

Definition codec_id_repr (c : codec_id) : Z :=
  match c with flatbuffers => 1 | protobuf => 2 | capnp => 3 end.

Inductive secure_alg := aes256gcm | chacha20poly1305.

Definition secure_alg_repr (a : secure_alg) : Z :=
  match a with aes256gcm => 1 | chacha20poly1305 => 2 end.

(** ** The repr(C) layout algorithm

    A field is a (size, alignment) pair.  Each field goes to the next multiple of
    its alignment; the struct's alignment is the largest of its fields' and of
    the [align(N)] attribute, and its size is rounded up to it. *)

Definition align_up (a x : Z) : Z := (x + a - 1) `div` a * a.

Fixpoint place (off : Z) (fields : list (Z * Z)) : list Z * Z :=
  match fields with
  | [] => ([], off)
  | (sz, al) :: rest =>
      let o := align_up al off in
      let '(os, e) := place (o + sz) rest in (o :: os, e)
  end.

Record layout := mk_layout { l_offsets : list Z; l_size : Z; l_align : Z }.

Definition repr_c (min_align : Z) (fields : list (Z * Z)) : layout :=
  let al := foldr Z.max min_align (snd <$> fields) in
  let '(os, e) := place 0 fields in mk_layout os (align_up al e) al.

Definition f_u8 : Z * Z := (1, 1).
Definition f_u32 : Z * Z := (4, 4).
Definition f_u64 : Z * Z := (8, 8).
Definition f_bytes (n : Z) : Z * Z := (n, 1).

(** The structs of the port.  [align(8)] or [align(16)] of the slots is the
    target's alignment class. *)
Definition elem_align (t : target) : Z := if align8 t then 8 else 16.

Definition ElemT_layout (t : target) : layout := repr_c (elem_align t) [f_bytes msg_t_size; f_u64].

Definition ChannelElemT_layout (t : target) : layout :=
  repr_c (elem_align t) [f_bytes msg_t_size; f_u64; f_u64].

Definition RingHeader_layout : layout :=
  repr_c 1 [f_u32; f_u32; f_u8; f_bytes 55; f_u32; f_bytes 60; f_u64; f_u32; f_bytes 52].

Definition ChunkInfo_layout : layout :=
  repr_c 1 [f_bytes large_msg_cache; f_u8; f_u8; f_bytes 2; f_u32].

Definition SlotOwner_layout : layout := repr_c 1 [f_u32; f_u32; f_u64].

(** [sync_abi.rs]: [SyncAbiStamp], six [AtomicU32]. *)
Definition SyncAbiStamp_layout : layout := repr_c 1 [f_u32; f_u32; f_u32; f_u32; f_u32; f_u32].

(** Where the slots, the owner record of the sole sender and the owner table lie
    in a mapping: [ring_slot], [channel_slot], [sender_owner]. *)
Definition ring_slot_off (t : target) (idx : Z) : Z := ring_header_size + idx * l_size (ElemT_layout t).

Definition channel_slot_off (t : target) (idx : Z) : Z :=
  ring_header_size + idx * l_size (ChannelElemT_layout t).

Definition sender_owner_off (t : target) : Z := route_ring_sender_owner_off t.

(** ** Properties *)

(** Every struct the port maps onto shared memory has, under the repr(C) rules and on
    every target class, exactly the sizes, alignments and field offsets of the
    generated ABI (what the source's [const _] assertions check). *)
Theorem struct_layouts_match_abi (t : target) :
  ElemT_layout t = mk_layout [route_elem_data_off; route_elem_rc_off] (route_elem_size t) (route_elem_align t) /\
  ChannelElemT_layout t =
    mk_layout [channel_elem_data_off; channel_elem_rc_off; channel_elem_f_ct_off]
      channel_elem_size (channel_elem_align t) /\
  RingHeader_layout =
    mk_layout [ring_header_cc_off; ring_header_lc_off; ring_header_constructed_off; 9;
               ring_header_cursor_off; 68; ring_header_epoch_off; 136; 140] ring_header_size 8 /\
  ChunkInfo_layout =
    mk_layout [chunk_info_next_off; chunk_info_cursor_off; chunk_info_prepared_off; 34; chunk_info_lock_off]
      chunk_info_size chunk_info_align /\
  SlotOwner_layout =
    mk_layout [liveness_slot_pid_off; liveness_slot_since_off; liveness_slot_start_tok_off]
      liveness_slot_size liveness_slot_align /\
  SyncAbiStamp_layout =
    mk_layout [syncabi_stamp_magic_off; syncabi_stamp_ver_major_off; syncabi_stamp_ver_minor_off;
               syncabi_stamp_backend_id_off; syncabi_stamp_primitive_id_off; syncabi_stamp_payload_size_off]
      syncabi_stamp_size syncabi_stamp_align.
Proof. destruct t as [[] ?]; repeat split; vm_compute; reflexivity. Qed.

Lemma elem_size_eq t : l_size (ElemT_layout t) = route_elem_size t.
Proof. by destruct t as [[] ?]. Qed.

Lemma channel_elem_size_eq t : l_size (ChannelElemT_layout t) = channel_elem_size.
Proof. by destruct t as [[] ?]. Qed.

(** The 256 slots of either ring lie in the mapping, after the header, pairwise
    disjoint and aligned; the route's owner record lies after the last slot,
    aligned for its u64 and inside the mapping. *)
Theorem ring_slots_disjoint (t : target) (i j : Z) :
  0 <= i < ring_size -> 0 <= j < ring_size -> i < j ->
  (ring_header_size <= ring_slot_off t i /\
   ring_slot_off t i + route_elem_size t <= ring_slot_off t j /\
   ring_slot_off t j + route_elem_size t <= sender_owner_off t /\
   ring_slot_off t i mod route_elem_align t = 0 /\
   sender_owner_off t mod liveness_slot_align = 0 /\
   sender_owner_off t + liveness_slot_size <= route_ring_size t) /\
  (ring_header_size <= channel_slot_off t i /\
   channel_slot_off t i + channel_elem_size <= channel_slot_off t j /\
   channel_slot_off t j + channel_elem_size <= channel_ring_size /\
   channel_slot_off t i mod channel_elem_align t = 0).
Proof.
  unfold ring_slot_off, channel_slot_off, ring_size. rewrite elem_size_eq, channel_elem_size_eq.
  intros Hi Hj Hij. destruct t as [[] m]; cbv - [Z.add Z.mul Z.le Z.modulo];
    repeat split; try lia.
  - replace (192 + i * 88) with ((24 + i * 11) * 8) by lia. apply Z.mod_mul. lia.
  - replace (192 + i * 96) with ((24 + i * 12) * 8) by lia. apply Z.mod_mul. lia.
  - replace (192 + i * 96) with ((12 + i * 6) * 16) by lia. apply Z.mod_mul. lia.
  - replace (192 + i * 96) with ((12 + i * 6) * 16) by lia. apply Z.mod_mul. lia.
Qed.

Lemma ring_slots_disjoint_witness :
  ring_slot_off x86_64_linux 3 + route_elem_size x86_64_linux <= ring_slot_off x86_64_linux 4.
Proof.
  apply (ring_slots_disjoint x86_64_linux 3 4); unfold ring_size; lia.
Defined.
