(* ===== verification/ShmName.v ===== *)
(** * Names of shared-memory objects

    [shm_name.rs] (FNV-1a hash, POSIX-safe names), the object names built by
    [channel.rs], [chunk_storage.rs] and [notify.rs], and the reference name
    shortening of [tools/abi].  Every process that opens a channel computes
    these names itself, so they are the rendezvous between endpoints. *)
From Stdlib Require Import Ascii.
From S2P Require Import Prelude Abi.

(** ** FNV-1a and hexadecimal *)

Definition FNV_OFFSET : Z := 0xcbf29ce484222325.
Definition FNV_PRIME : Z := 0x100000001b3.

Definition fnv1a_64 (data : list Z) : Z :=
  foldl (fun hash b => wrap 64 (Z.lxor hash b * FNV_PRIME)) FNV_OFFSET data.

Definition DIGITS : list Ascii.ascii := String.list_ascii_of_string "0123456789abcdef".

Definition digit (d : Z) : Ascii.ascii := default "0"%char (DIGITS !! Z.to_nat d).

(** The loop [for i in (0..16).rev()], filling the buffer from its end. *)
Fixpoint to_hex_loop (n : nat) (v : Z) (buf : string) : string :=
  match n with
  | O => buf
  | S n => to_hex_loop n (Z.shiftr v 4) (String (digit (Z.land v 0xf)) buf)
  end.

Definition to_hex (val : Z) : string := to_hex_loop 16 val "".

(** ** [make_shm_name] *)

Definition SHM_NAME_MAX (t : target) : Z := if macos t then 31 else 0.

(** [str::is_char_boundary]: not in the middle of a UTF-8 sequence. *)
Definition is_char_boundary (s : string) (n : nat) : bool :=
  match bytes_of_string s !! n with
  | Some b => negb ((128 <=? b) && (b <? 192))
  | None => bool_decide (n = String.length s)
  end.

Definition slen (s : string) : Z := Z.of_nat (String.length s).

Definition starts_with_slash (s : string) : bool :=
  match s with String c _ => bool_decide (c = "/"%char) | EmptyString => false end.

Definition with_slash (name : string) : string :=
  if starts_with_slash name then name else "/" +:+ name.

Definition HASH_SUFFIX_LEN : Z := 1 + 16.

Definition prefix_len (max : Z) : Z :=
  if HASH_SUFFIX_LEN + 1 <? max then max - HASH_SUFFIX_LEN - 1 else 0.

(** [None] is the panic of slicing a string inside a character. *)
Definition make_shm_name (t : target) (name : string) : option string :=
  let max := SHM_NAME_MAX t in
  let result := with_slash name in
  if max =? 0 then Some result
  else if slen result <=? max then Some result
  else
    let hex_str := to_hex (fnv1a_64 (bytes_of_string result)) in
    if 0 <? prefix_len max then
      let original_body := String.substring 1 (String.length result - 1) result in
      let take := Nat.min (Z.to_nat (prefix_len max)) (String.length original_body) in
      if is_char_boundary original_body take then
        Some ("/" +:+ String.substring 0 take original_body +:+ "_" +:+ hex_str)
      else None
    else Some ("/" +:+ "_" +:+ hex_str).

(** [tools/abi]: the reference used by the naming gate.  It counts characters, so
    it never splits one; on ASCII names characters are bytes. *)
Definition abi_make_shm_name (name : string) (shm_name_max : Z) : string :=
  let result := with_slash name in
  if (shm_name_max =? 0) || (slen result <=? shm_name_max) then result
  else
    let hash := fnv1a_64 (bytes_of_string result) in
    let prefix_len := if 17 + 1 <? shm_name_max then shm_name_max - 17 - 1 else 0 in
    let body := String.substring 1 (Z.to_nat prefix_len) result in
    "/" +:+ body +:+ "_" +:+ to_hex hash.

(** ** Object names *)

Definition DATA_LENGTH : Z := data_length.

Definition max_align (t : target) : Z := if align8 t then 8 else 16.

Definition RING_ALIGN (t : target) : Z := if DATA_LENGTH <? max_align t then DATA_LENGTH else max_align t.

Definition ring_shm_name (t : target) (prefix name : string) : string :=
  prefix +:+ "__THOTH_SHM__QU_CONN__" +:+ name +:+ "__" +:+ pretty DATA_LENGTH +:+ "__" +:+ pretty (RING_ALIGN t).

Definition cc_id_shm_name (prefix : string) : string := prefix +:+ "__THOTH_SHM__CA_CONN__".

Definition msg_id_shm_name (prefix name : string) : string :=
  prefix +:+ "__THOTH_SHM__AC_CONN__" +:+ name.

Definition liveness_shm_name (prefix name : string) : string :=
  prefix +:+ "__THOTH_SHM__LV_CONN__" +:+ name.

(** The names [ChanInner::open] builds for its waiters and its chunk prefix. *)
Definition full_prefix (prefix : string) : string := prefix +:+ "__THOTH_SHM__".
Definition wt_name (prefix name : string) : string := full_prefix prefix +:+ "WT_CONN__" +:+ name.
Definition rd_name (prefix name : string) : string := full_prefix prefix +:+ "RD_CONN__" +:+ name.
Definition cc_name (prefix name : string) : string := full_prefix prefix +:+ "CC_CONN__" +:+ name.
Definition chunk_prefix (prefix name : string) : string := full_prefix prefix +:+ name +:+ "_".

(** [chunk_storage.rs]: [chunk_shm_name]. *)
Definition chunk_shm_name (full_prefix : string) (chunk_size : Z) : string :=
  full_prefix +:+ "CHUNK_INFO__" +:+ pretty chunk_size.

(** [notify.rs]: [notify_hash] (whose digit loop is that of [to_hex]), the
    libnotify key and the FIFO path ([dir] is THOTH_IPC_NOTIFY_DIR when set and
    not empty). *)
Definition notify_hash (prefix name : string) : string :=
  to_hex (fnv1a_64 (bytes_of_string (prefix +:+ "__THOTH_SHM__NOTIFY__" +:+ name))).

Definition notify_key (prefix name : string) : string := "thoth.ntf." +:+ notify_hash prefix name.

Definition notify_dir (env : option string) : string :=
  match env with
  | Some s => if bool_decide (s = "") then "/tmp" else s
  | None => "/tmp"
  end.

Definition fifo_path (env : option string) (prefix name : string) (slot : Z) : string :=
  notify_dir env +:+ "/thothntf_" +:+ notify_hash prefix name +:+ "." +:+ pretty slot.

(** ** Lemmas *)

Lemma string_app_cons c (s t : string) : String c s +:+ t = String c (s +:+ t).
Proof. done. Qed.

Lemma string_app_nil (t : string) : "" +:+ t = t.
Proof. done. Qed.

Lemma string_app_assoc (s t u : string) : (s +:+ t) +:+ u = s +:+ (t +:+ u).
Proof. induction s as [|c s IH]; [done|]. rewrite !string_app_cons. simpl. by rewrite IH. Qed.

Lemma string_length_app (s t : string) : String.length (s +:+ t) = (String.length s + String.length t)%nat.
Proof. induction s as [|c s IH]; [done|]. rewrite !string_app_cons. simpl. by rewrite IH. Qed.

Lemma to_hex_loop_app n v buf : to_hex_loop n v buf = to_hex_loop n v "" +:+ buf.
Proof.
  revert v buf. induction n as [|n IH]; intros v buf; simpl; [done|].
  set (d := digit _). rewrite (IH _ (String d buf)), (IH _ (String d "")). by rewrite string_app_assoc.
Qed.

Lemma to_hex_loop_length n v buf : String.length (to_hex_loop n v buf) = (n + String.length buf)%nat.
Proof. revert v buf. induction n as [|n IH]; intros v buf; simpl; [done|]. rewrite IH. simpl. lia. Qed.

Lemma to_hex_length v : String.length (to_hex v) = 16%nat.
Proof. unfold to_hex. by rewrite to_hex_loop_length. Qed.

Lemma fnv1a_64_range data : is_u 64 (fnv1a_64 data).
Proof.
  unfold fnv1a_64. assert (is_u 64 FNV_OFFSET) as H by (unfold is_u, FNV_OFFSET; lia).
  revert H. generalize FNV_OFFSET. induction data as [|b data IH]; intros h Hh; simpl; [done|].
  apply IH. apply wrap_range. lia.
Qed.

Lemma substring_length n m s : (n + m <= String.length s)%nat -> String.length (String.substring n m s) = m.
Proof.
  revert n m. induction s as [|c s IH]; intros n m H; destruct n, m; simpl in *; try lia.
  - rewrite IH; simpl; lia.
  - apply IH. lia.
  - apply IH. lia.
Qed.

Lemma substring_min n s : String.substring 0 (Nat.min n (String.length s)) s = String.substring 0 n s.
Proof.
  revert n. induction s as [|c s IH]; intros n; destruct n; simpl; try done.
  by rewrite IH.
Qed.

Lemma with_slash_shape name : exists body, with_slash name = String "/" body.
Proof.
  unfold with_slash, starts_with_slash. destruct name as [|c s]; simpl; [by eexists|].
  case_bool_decide; subst; by eexists.
Qed.

Lemma tail_length c s : String.length (String.substring 1 (String.length (String c s) - 1) (String c s)) = String.length s.
Proof. rewrite substring_length; simpl; lia. Qed.

(** ASCII strings have a character boundary everywhere. *)
Definition ascii_only (s : string) : Prop := Forall (fun b => b < 128) (bytes_of_string s).

Lemma ascii_boundary s n : ascii_only s -> (n <= String.length s)%nat -> is_char_boundary s n = true.
Proof.
  intros Ha Hn. unfold is_char_boundary. destruct (_ !! n) as [b|] eqn:E.
  - eapply Forall_lookup_1 in Ha; [|exact E]. destruct (Z.leb_spec 128 b); simpl; [lia|done].
  - apply lookup_ge_None in E. rewrite bytes_of_string_length in E. case_bool_decide; lia.
Qed.

Lemma substring_1_tail (c : Ascii.ascii) s : String.substring 1 (String.length (String c s) - 1) (String c s) = s.
Proof. simpl. rewrite Nat.sub_0_r. induction s as [|d s IH]; simpl; [done|]. by rewrite IH. Qed.

(** ** Properties *)

(** Reading a hexadecimal string back. *)
Definition digit_value (c : ascii) : Z :=
  match list_find (fun d => d = c) DIGITS with Some (i, _) => Z.of_nat i | None => 0 end.

Fixpoint of_hex (s : string) (acc : Z) : Z :=
  match s with EmptyString => acc | String c s => of_hex s (16 * acc + digit_value c) end.

Lemma digit_value_digit d : 0 <= d < 16 -> digit_value (digit d) = d.
Proof.
  intros H. assert (d ∈ seqZ 0 16) as Hd by (apply elem_of_seqZ; lia).
  clear H. revert d Hd. apply Forall_forall. vm_compute. repeat (constructor; [reflexivity|]). constructor.
Qed.

Lemma of_hex_app s t acc : of_hex (s +:+ t) acc = of_hex t (of_hex s acc).
Proof. revert acc. induction s as [|c s IH]; intros acc; [done|]. rewrite string_app_cons. simpl. apply IH. Qed.

Lemma land_15 v : Z.land v 0xf = v mod 16.
Proof. change 0xf with (Z.ones 4). rewrite Z.land_ones by lia. done. Qed.

Lemma of_hex_loop n v acc :
  0 <= v < 16 ^ Z.of_nat n -> of_hex (to_hex_loop n v "") acc = 16 ^ Z.of_nat n * acc + v.
Proof.
  revert v acc. induction n as [|n IH]; intros v acc Hv.
  - simpl in *. lia.
  - cbn [to_hex_loop]. rewrite to_hex_loop_app, of_hex_app, land_15.
    replace (Z.of_nat (S n)) with (Z.succ (Z.of_nat n)) in * by lia.
    rewrite Z.pow_succ_r in * by lia. rewrite Z.shiftr_div_pow2 by lia. change (2 ^ 4) with 16.
    pose proof (Z.div_mod v 16 ltac:(lia)). pose proof (Z.mod_pos_bound v 16 ltac:(lia)).
    rewrite IH by (split; [apply Z.div_pos; lia | apply Z.div_lt_upper_bound; lia]).
    cbn [of_hex]. rewrite digit_value_digit by lia. lia.
Qed.

(** [to_hex] prints every 64-bit value with exactly 16 digits that read back to
    it, so distinct hashes give distinct names. *)
Theorem to_hex_roundtrip v : is_u 64 v -> String.length (to_hex v) = 16%nat /\ of_hex (to_hex v) 0 = v.
Proof.
  intros Hv. split; [apply to_hex_length|]. unfold to_hex. rewrite of_hex_loop; [lia|].
  unfold is_u in Hv. simpl. lia.
Qed.

Lemma to_hex_roundtrip_witness : of_hex (to_hex 0x0123456789abcdef) 0 = 0x0123456789abcdef.
Proof. apply (to_hex_roundtrip 0x0123456789abcdef). unfold is_u. lia. Defined.

Lemma make_shm_name_long t name c body :
  macos t = true -> ascii_only name -> with_slash name = String c body -> 31 < slen (String c body) ->
  make_shm_name t name =
  Some ("/" +:+ String.substring 0 13 body +:+ "_" +:+ to_hex (fnv1a_64 (bytes_of_string (String c body)))).
Proof.
  intros Hm Ha E Hl. unfold make_shm_name, SHM_NAME_MAX. rewrite Hm, E.
  change (31 =? 0) with false. cbn iota. destruct (Z.leb_spec (slen (String c body)) 31); [lia|].
  change (0 <? prefix_len 31) with true. cbn iota. rewrite substring_1_tail.
  change (Z.to_nat (prefix_len 31)) with 13%nat.
  rewrite ascii_boundary; [by rewrite substring_min| |lia].
  unfold with_slash in E. unfold ascii_only in *. destruct (starts_with_slash name).
  - rewrite E in Ha. simpl in Ha. by apply Forall_cons in Ha as [_ Ha].
  - change (String "/" name = String c body) in E. by simplify_eq.
Qed.

(** C36: on macOS an ASCII name always gets a POSIX name: it starts with a slash, fits the
    31 bytes of [PSHMNAMLEN], is the name itself when that fits, and otherwise
    is the first 13 bytes of the name and the hash of the whole of it. *)
Theorem make_shm_name_macos t name body :
  macos t = true -> ascii_only name -> with_slash name = String "/" body ->
  exists r, make_shm_name t name = Some r /\ starts_with_slash r = true /\ slen r <= 31 /\
    (slen (with_slash name) <= 31 -> r = with_slash name) /\
    (31 < slen (with_slash name) -> slen r = 31 /\
       r = "/" +:+ String.substring 0 13 body +:+ "_" +:+ to_hex (fnv1a_64 (bytes_of_string (with_slash name)))).
Proof.
  intros Hm Ha E. destruct (decide (slen (with_slash name) <= 31)) as [Hs|Hs].
  - exists (with_slash name). split; [|split; [by rewrite E|]; split; [lia|]; split; [done|intros; lia]].
    unfold make_shm_name, SHM_NAME_MAX. rewrite Hm. change (31 =? 0) with false. cbn iota.
    destruct (Z.leb_spec (slen (with_slash name)) 31); [done|lia].
  - eexists. split; [eapply make_shm_name_long; try done; rewrite <- E; lia|].
    split; [done|]. rewrite <- E.
    assert (slen ("/" +:+ String.substring 0 13 body +:+ "_" +:+
              to_hex (fnv1a_64 (bytes_of_string (with_slash name)))) = 31) as Hl.
    { unfold slen in *. rewrite !string_length_app, to_hex_length, substring_length; [simpl; lia|].
      rewrite E in Hs. simpl in Hs. lia. }
    rewrite Hl. repeat split; lia || done.
Qed.

Lemma make_shm_name_macos_witness :
  exists r, make_shm_name apple_arm64 (ring_shm_name apple_arm64 "" "xchan") = Some r /\ slen r <= 31.
Proof.
  destruct (make_shm_name_macos apple_arm64 (ring_shm_name apple_arm64 "" "xchan")
              (ring_shm_name apple_arm64 "" "xchan")) as (r & Hr & _ & Hl & _).
  - reflexivity.
  - vm_compute. repeat constructor.
  - reflexivity.
  - exists r. done.
Defined.

(** On ASCII names, [make_shm_name] computes the name the ABI gate's reference
    implementation computes, on every target. *)
Theorem make_shm_name_matches_reference t name :
  ascii_only name -> make_shm_name t name = Some (abi_make_shm_name name (SHM_NAME_MAX t)).
Proof.
  intros Ha. unfold abi_make_shm_name. destruct (with_slash_shape name) as [body E].
  destruct (macos t) eqn:Hm.
  - destruct (Z.leb_spec (slen (with_slash name)) 31) as [Hs|Hs].
    + unfold make_shm_name, SHM_NAME_MAX. rewrite Hm. change (31 =? 0) with false. cbn iota.
      destruct (Z.leb_spec (slen (with_slash name)) 31); [done|lia].
    + rewrite (make_shm_name_long t name "/" body) by (try done; by rewrite <- E).
      unfold SHM_NAME_MAX. rewrite Hm, E in *. change (31 =? 0) with false. cbn [orb].
      destruct (Z.leb_spec (slen (String "/" body)) 31); [lia|]. done.
  - unfold make_shm_name, SHM_NAME_MAX. by rewrite Hm.
Qed.

Lemma make_shm_name_matches_reference_witness :
  make_shm_name x86_64_linux "foo" = Some (abi_make_shm_name "foo" 0).
Proof. apply (make_shm_name_matches_reference x86_64_linux "foo"). vm_compute. repeat constructor. Defined.

(** The names the port builds for the canonical channel are the generated goldens
    on both targets of the ABI, before and after POSIX shortening. *)
Theorem names_match_goldens :
  (forall t, ring_shm_name t "" "xchan" = name_golden_ring t) /\
  cc_id_shm_name "" = name_golden_cc_id /\ msg_id_shm_name "" "xchan" = name_golden_msg_id /\
  liveness_shm_name "" "xchan" = name_golden_liveness /\
  chunk_shm_name (full_prefix "") 1024 = name_golden_chunk /\
  notify_hash "" "xchan" = notify_hash_xchan /\ notify_key "" "xchan" = name_golden_notify_key /\
  make_shm_name apple_arm64 (name_golden_ring apple_arm64) = Some (name_golden_ring_posix apple_arm64) /\
  make_shm_name x86_64_linux (name_golden_ring x86_64_linux) = Some (name_golden_ring_posix x86_64_linux).
Proof. split; [intros [[] ?]; vm_compute; reflexivity|]. vm_compute. repeat split. Qed.

(** A long name with a two-byte UTF-8 character at bytes 12 and 13. *)
Definition split_char_name : string :=
  "aaaaaaaaaaaa" +:+ String "195" (String "169" "") +:+ "aaaaaaaaaaaaaaaaaaaaaa".

(** On macOS the byte slice of [make_shm_name] panics when the cut at byte 13 falls
    inside a character; the reference shortening, which counts characters, does not. *)
Theorem make_shm_name_can_panic : make_shm_name apple_arm64 split_char_name = None.
Proof. vm_compute. reflexivity. Qed.

Lemma string_app_inj_l (s t u : string) : s +:+ t = s +:+ u -> t = u.
Proof.
  induction s as [|c s IH]; [done|]. rewrite !string_app_cons. intros E. apply IH. by injection E.
Qed.

Lemma string_app_inj_r (s t u : string) : s +:+ u = t +:+ u -> s = t.
Proof.
  revert t. induction s as [|c s IH]; intros [|d t] E; try done.
  - exfalso. apply (f_equal String.length) in E. rewrite !string_length_app in E. simpl in E. lia.
  - exfalso. apply (f_equal String.length) in E. rewrite !string_length_app in E. simpl in E. lia.
  - rewrite !string_app_cons in E. injection E as -> E. f_equal. by apply IH.
Qed.

(** Under one prefix, channels with different names use different objects, and the
    objects of one channel never coincide with one another or with those of another. *)
Theorem channel_names_distinct t prefix n m :
  (n <> m -> ring_shm_name t prefix n <> ring_shm_name t prefix m /\
             msg_id_shm_name prefix n <> msg_id_shm_name prefix m /\
             liveness_shm_name prefix n <> liveness_shm_name prefix m /\
             wt_name prefix n <> wt_name prefix m /\ rd_name prefix n <> rd_name prefix m /\
             cc_name prefix n <> cc_name prefix m) /\
  NoDup [ring_shm_name t prefix n; msg_id_shm_name prefix m; liveness_shm_name prefix m;
         wt_name prefix m; rd_name prefix m; cc_name prefix m; cc_id_shm_name prefix].
Proof.
  unfold ring_shm_name, msg_id_shm_name, liveness_shm_name, wt_name, rd_name, cc_name, cc_id_shm_name,
    full_prefix. rewrite !string_app_assoc. split.
  - intros Hne. repeat split; intros E; apply Hne; repeat apply string_app_inj_l in E; try done.
    by apply string_app_inj_r in E.
  - repeat (apply NoDup_cons; split; [|]); try apply NoDup_nil_2;
      rewrite ?elem_of_cons, ?elem_of_nil; intros H;
      repeat match goal with H : _ \/ _ |- _ => destruct H as [H|H] end; try done;
      apply string_app_inj_l in H; by vm_compute in H.
Qed.
