(* ===== verification/Buffer.v ===== *)
(** * The message buffer

    [buffer.rs]: an owning byte buffer, the message type of the channels. *)
From S2P Require Import Prelude.

Record IpcBuffer := mk_IpcBuffer { buf_data : list Z }.

#[export] Instance IpcBuffer_eq_dec : EqDecision IpcBuffer.
Proof. solve_decision. Defined.

Module IpcBuffer.

Definition new : IpcBuffer := mk_IpcBuffer [].

Definition from_slice (data : list Z) : IpcBuffer := mk_IpcBuffer data.

Definition from_vec (data : list Z) : IpcBuffer := mk_IpcBuffer data.

(** The terminating NUL is included. *)
Definition from_str (s : string) : IpcBuffer := mk_IpcBuffer (bytes_of_string s ++ [0]).

Definition is_empty (b : IpcBuffer) : bool := bool_decide (buf_data b = []).

Definition len (b : IpcBuffer) : Z := Z.of_nat (length (buf_data b)).

Definition data (b : IpcBuffer) : list Z := buf_data b.

Definition into_vec (b : IpcBuffer) : list Z := buf_data b.

Definition to_vec (b : IpcBuffer) : list Z := buf_data b.

(** [swap] exchanges the contents of two buffers. *)
Definition swap (b other : IpcBuffer) : IpcBuffer * IpcBuffer :=
  (mk_IpcBuffer (buf_data other), mk_IpcBuffer (buf_data b)).

End IpcBuffer.
