(* ===== verification/Circ.v ===== *)
(** * Connection heads

    [circ.rs]: the connection bitmask of a broadcast ring (one bit per receiver)
    and the counter of a unicast one, with their double-checked one-time
    initialisation.  The operations are written over the fields of whatever
    structure embeds them: [channel.rs] repeats the initialisation
    ([init_header]) and the bit allocation (in [ChanInner::open]) on its own
    [RingHeader], which shares these definitions. *)
From S2P Require Import Prelude Atomics Locks.

(** [index_of]: truncation of a cursor to [u8]. *)
Definition index_of (cursor : Z) : Z := wrap 8 cursor.

Definition ELEM_MAX : Z := 256.

Section head.
Context {S : Type} (cc lc constructed : field S Z).

(** [BroadcastConnHead::init] and [init_header]: double-checked locking. *)
Definition init (fuel : nat) : prog S unit :=
  c ← load constructed;
  if negb (c =? 0) then Ret tt
  else
    _ ← spin_acquire lc fuel 0;
    c ← load constructed;
    if c =? 0 then
      _ ← store cc 0;
      _ ← store constructed 1;
      spin_release lc
    else spin_release lc.

(** [connect]: set the lowest clear bit; the bit, or 0 when all 32 are taken. *)
Fixpoint connect (fuel : nat) (k : Z) : prog S Z :=
  match fuel with
  | O => Spin
  | Datatypes.S fuel =>
      curr ← load cc;
      let next := Z.lor curr (wrapping_add 32 curr 1) in
      if next =? curr then Ret 0
      else
        r ← compare_exchange_weak cc curr next;
        match r with
        | Ok _ => Ret (Z.lxor next curr)
        | Err _ => connect fuel (snd (adaptive_yield k))
        end
  end.

(** [disconnect]: clear the given bits; the remaining mask. *)
Definition disconnect (cc_id : Z) : prog S Z :=
  old ← fetch_and cc (unot 32 cc_id);
  Ret (Z.land old (unot 32 cc_id)).

Definition connected (cc_id : Z) : prog S bool :=
  v ← load cc; Ret (negb (Z.land v cc_id =? 0)).

Definition conn_count : prog S Z := v ← load cc; Ret (count_ones 32 v).

(** [UnicastConnHead] (release-build arithmetic: the [+ 1] and [- 1] wrap). *)
Definition unicast_connect : prog S Z :=
  old ← fetch_add 32 cc 1; Ret (wrapping_add 32 old 1).

Definition unicast_disconnect (cc_id : Z) : prog S Z :=
  if cc_id =? unot 32 0 then _ ← store cc 0; Ret 0
  else old ← fetch_sub 32 cc 1; Ret (wrapping_sub 32 old 1).

Definition unicast_connected (cc_id : Z) : prog S bool :=
  v ← load cc; Ret (negb (v =? 0) && negb (cc_id =? 0)).

Definition unicast_conn_count : prog S Z := load cc.

(** ** One operation at a time *)

Context `{!LawfulField cc}.

(** A free bit exists: [connect] returns and takes the lowest one. *)
Lemma connect_runs fuel k s :
  is_u 32 (fget cc s) -> fget cc s <> 2 ^ 32 - 1 ->
  runs fuel (connect fuel k) s (fun b s' =>
    exists i, 0 <= i < 32 /\ b = 2 ^ i /\ Z.testbit (fget cc s) i = false /\
      (forall j, 0 <= j < i -> Z.testbit (fget cc s) j = true) /\
      s' = fset cc (Z.lor (fget cc s) (2 ^ i)) s).
Proof.
  revert k. induction fuel as [|fuel IH]; intros k Hu Hne.
  - intros tape Ht. lia.
  - cbn [connect]. apply runs_bind, runs_act, runs_ret. simpl.
    destruct (Z.eqb_spec (Z.lor (fget cc s) (wrapping_add 32 (fget cc s) 1)) (fget cc s)) as [E|E].
    { exfalso. apply Hne. by apply lowest_clear_full. }
    destruct (set_lowest_clear 32 (fget cc s)) as (i & Hi & Hc & Hlow & E1 & E2); try done; try lia.
    apply runs_cas_weak; [done| |].
    + apply runs_ret. exists i. rewrite E2. split; [lia|]. split; [done|]. split; [done|]. split; [done|].
      by rewrite E1.
    + replace (Datatypes.S fuel - 1)%nat with fuel by lia. by apply IH.
Qed.

Lemma connect_runs_full fuel k s :
  fget cc s = 2 ^ 32 - 1 ->
  runs (Datatypes.S fuel) (connect (Datatypes.S fuel) k) s (fun b s' => b = 0 /\ s' = s).
Proof.
  intros E. cbn [connect]. apply runs_bind, runs_act, runs_ret. simpl. rewrite E.
  change (Z.lor (2 ^ 32 - 1) (wrapping_add 32 (2 ^ 32 - 1) 1) =? 2 ^ 32 - 1) with true.
  by apply runs_ret.
Qed.

End head.

(** ** The header as a structure of its own *)

Record conn_head := mk_conn_head { ch_cc : Z; ch_lock : Z; ch_constructed : Z }.

Definition cf_cc : field conn_head Z :=
  mk_field ch_cc (fun v h => mk_conn_head v (ch_lock h) (ch_constructed h)).
Definition cf_lock : field conn_head Z :=
  mk_field ch_lock (fun v h => mk_conn_head (ch_cc h) v (ch_constructed h)).
Definition cf_constructed : field conn_head Z :=
  mk_field ch_constructed (fun v h => mk_conn_head (ch_cc h) (ch_lock h) v).

#[export] Instance cf_cc_lawful : LawfulField cf_cc.
Proof. split; intros; by destruct s. Qed.

(** [connect] always returns (fewer spurious failures than fuel): with a free bit it
    sets the lowest one and returns it, and with all 32 taken it returns 0 and changes nothing. *)
Theorem connect_allocates_lowest fuel h :
  is_u 32 (ch_cc h) ->
  runs (S fuel) (connect cf_cc (S fuel) 0) h (fun b h' =>
    if ch_cc h =? 2 ^ 32 - 1 then b = 0 /\ h' = h
    else exists i, 0 <= i < 32 /\ b = 2 ^ i /\ Z.testbit (ch_cc h) i = false /\
           (forall j, 0 <= j < i -> Z.testbit (ch_cc h) j = true) /\
           h' = mk_conn_head (Z.lor (ch_cc h) b) (ch_lock h) (ch_constructed h)).
Proof.
  intros Hu. destruct (Z.eqb_spec (ch_cc h) (2 ^ 32 - 1)) as [E|E].
  - by apply connect_runs_full.
  - eapply runs_conseq; [by apply (connect_runs cf_cc)|]. intros b h' (i & Hi & -> & Hc & Hl & ->).
    exists i. done.
Qed.

Lemma connect_allocates_lowest_witness :
  exists b h', eval (connect cf_cc 4 0) (mk_conn_head 5 0 1) = Some (b, h') /\ b = 2.
Proof.
  destruct (runs_eval _ _ _ (runs_mono 4 1 _ _ _ ltac:(lia)
    (connect_allocates_lowest 3 (mk_conn_head 5 0 1) ltac:(unfold is_u; simpl; lia)))) as (b & h' & E & H).
  exists b, h'. split; [exact E|]. vm_compute in E. congruence.
Defined.

(** ** Receivers racing on one header

    Each thread initialises the header, connects, holds its bit for a while and
    disconnects, any number of times.  [hw_held] records which bit a thread
    believes is its own between [hold] and [drop]. *)

Record head_world := mk_head_world { hw_head : conn_head; hw_held : gmap nat Z }.

Definition f_head : field head_world conn_head :=
  mk_field hw_head (fun h w => mk_head_world h (hw_held w)).

Definition h_cc := sub_field f_head cf_cc.
Definition h_lc := sub_field f_head cf_lock.
Definition h_con := sub_field f_head cf_constructed.

Definition hold (i : nat) (b : Z) : prog head_world unit :=
  act (fun w => (tt, mk_head_world (hw_head w) (<[i := b]> (hw_held w)))).
Definition drop_bit (i : nat) : prog head_world unit :=
  act (fun w => (tt, mk_head_world (hw_head w) (delete i (hw_held w)))).

Definition after_connect (i : nat) (k : prog head_world unit) (b : Z) : prog head_world unit :=
  if b =? 0 then k
  else _ ← hold i b; _ ← drop_bit i; _ ← disconnect h_cc b; k.

Definition after_init (fuel i : nat) (k : prog head_world unit) (_ : unit) : prog head_world unit :=
  connect h_cc fuel 0 ≫= after_connect i k.

Fixpoint receiver (fuel i rounds : nat) : prog head_world unit :=
  match rounds with
  | O => Ret tt
  | S rounds => init h_cc h_lc h_con fuel ≫= after_init fuel i (receiver fuel i rounds)
  end.

(** The second half of [init], entered with the lock held. *)
Definition init_locked : prog head_world unit :=
  c ← load h_con;
  if c =? 0 then _ ← store h_cc 0; _ ← store h_con 1; spin_release h_lc else spin_release h_lc.

(** The compare-and-swap of [connect], having read [curr]. *)
Definition connect_cas (n : nat) (k curr : Z) : result Z Z -> prog head_world Z :=
  fun r => match r with
           | Ok _ => Ret (Z.lxor (Z.lor curr (wrapping_add 32 curr 1)) curr)
           | Err _ => connect h_cc n (snd (adaptive_yield k))
           end.

(** What a thread knows of [constructed]. *)
Inductive knows := KNothing | KZero | KOne.

(** What a thread holds: the lock, its bit, the bit it recorded, and what it
    knows of [constructed]. *)
Record ghost := mk_ghost { g_lock : bool; g_own : option Z; g_held : option Z; g_knows : knows }.

Definition idle : ghost := mk_ghost false None None KNothing.
Definition locked (kn : knows) : ghost := mk_ghost true None None kn.
Definition connecting : ghost := mk_ghost false None None KOne.
Definition owning (b : Z) (held : option Z) : ghost := mk_ghost false (Some b) held KOne.

(** [recv_phase fuel i g p]: where thread [i] is. *)
Inductive recv_phase (fuel i : nat) : ghost -> prog head_world unit -> Prop :=
| rp_start r : recv_phase fuel i idle (receiver fuel i r)
| rp_spin n k r :
    recv_phase fuel i idle
      ((spin_acquire h_lc n k ≫= fun _ => init_locked) ≫= after_init fuel i (receiver fuel i r))
| rp_check r :
    recv_phase fuel i (locked KNothing) (init_locked ≫= after_init fuel i (receiver fuel i r))
| rp_zero r :
    recv_phase fuel i (locked KZero)
      ((store h_cc 0 ≫= fun _ => store h_con 1 ≫= fun _ => spin_release h_lc)
         ≫= after_init fuel i (receiver fuel i r))
| rp_construct r :
    recv_phase fuel i (locked KZero)
      ((store h_con 1 ≫= fun _ => spin_release h_lc) ≫= after_init fuel i (receiver fuel i r))
| rp_unlock r :
    recv_phase fuel i (locked KOne) (spin_release h_lc ≫= after_init fuel i (receiver fuel i r))
| rp_connect n k r :
    recv_phase fuel i connecting (connect h_cc n k ≫= after_connect i (receiver fuel i r))
| rp_flip n k curr r :
    Z.lor curr (wrapping_add 32 curr 1) <> curr ->
    recv_phase fuel i connecting
      ((compare_exchange_weak h_cc curr (Z.lor curr (wrapping_add 32 curr 1)) ≫= connect_cas n k curr)
         ≫= after_connect i (receiver fuel i r))
| rp_cas n k curr r :
    Z.lor curr (wrapping_add 32 curr 1) <> curr ->
    recv_phase fuel i connecting
      ((compare_exchange h_cc curr (Z.lor curr (wrapping_add 32 curr 1)) ≫= connect_cas n k curr)
         ≫= after_connect i (receiver fuel i r))
| rp_spurious n k curr r :
    recv_phase fuel i connecting
      ((act (fun s => (Err (fget h_cc s), s)) ≫= connect_cas n k curr)
         ≫= after_connect i (receiver fuel i r))
| rp_hold b r :
    recv_phase fuel i (owning b None)
      (hold i b ≫= fun _ => drop_bit i ≫= fun _ => disconnect h_cc b ≫= fun _ => receiver fuel i r)
| rp_drop b r :
    recv_phase fuel i (owning b (Some b))
      (drop_bit i ≫= fun _ => disconnect h_cc b ≫= fun _ => receiver fuel i r)
| rp_disconnect b r :
    recv_phase fuel i (owning b None) (disconnect h_cc b ≫= fun _ => receiver fuel i r).

(** Effects of one step on the shared header and on what the thread holds. *)
Inductive recv_effect (i : nat) : head_world -> head_world -> ghost -> ghost -> Prop :=
| re_none w g : recv_effect i w w g g
| re_spin w : ch_lock (hw_head w) <> 0 -> recv_effect i w (fset h_lc 1 w) idle idle
| re_lock w : ch_lock (hw_head w) = 0 -> recv_effect i w (fset h_lc 1 w) idle (locked KNothing)
| re_see w : ch_constructed (hw_head w) <> 0 -> recv_effect i w w idle connecting
| re_see0 w : ch_constructed (hw_head w) = 0 -> recv_effect i w w (locked KNothing) (locked KZero)
| re_see1 w : ch_constructed (hw_head w) <> 0 -> recv_effect i w w (locked KNothing) (locked KOne)
| re_zero w : recv_effect i w (fset h_cc 0 w) (locked KZero) (locked KZero)
| re_construct w : recv_effect i w (fset h_con 1 w) (locked KZero) (locked KOne)
| re_unlock w : recv_effect i w (fset h_lc 0 w) (locked KOne) connecting
| re_giveup w : recv_effect i w w connecting idle
| re_claim w c : c = ch_cc (hw_head w) -> Z.lor c (wrapping_add 32 c 1) <> c ->
    recv_effect i w (fset h_cc (Z.lor c (wrapping_add 32 c 1)) w) connecting
      (owning (Z.lxor (Z.lor c (wrapping_add 32 c 1)) c) None)
| re_hold w b : recv_effect i w (mk_head_world (hw_head w) (<[i := b]> (hw_held w)))
                  (owning b None) (owning b (Some b))
| re_drop w b : recv_effect i w (mk_head_world (hw_head w) (delete i (hw_held w)))
                  (owning b (Some b)) (owning b None)
| re_disconnect w b :
    recv_effect i w (fset h_cc (Z.land (ch_cc (hw_head w)) (unot 32 b)) w) (owning b None) idle.

Lemma lor_lxor_nonzero c : Z.lor c (wrapping_add 32 c 1) <> c ->
  (Z.lxor (Z.lor c (wrapping_add 32 c 1)) c =? 0) = false.
Proof. intros H. apply Z.eqb_neq. intros E. by apply Z.lxor_eq in E. Qed.

(** Every step of a thread in a phase is one of the effects and leads to a phase. *)
Lemma recv_phase_step fuel i g p p' w w' :
  recv_phase fuel i g p -> thread_step w p w' p' ->
  exists g', recv_phase fuel i g' p' /\ recv_effect i w w' g g'.
Proof.
  intros Hp Hs. destruct Hp as [r|n k r|r|r|r|r|n k r|n k c r Hc|n k c r Hc|n k c r|b r|b r|b r].
  - destruct r as [|r]; inv_step Hs. destruct (Z.eqb_spec (ch_constructed (hw_head w)) 0) as [E|E]; simpl.
    + exists idle. split; [apply rp_spin|constructor].
    + exists connecting. split; [apply rp_connect|by constructor].
  - destruct n as [|n]; inv_step Hs. destruct (Z.eqb_spec (ch_lock (hw_head w)) 0) as [E|E]; simpl.
    + exists (locked KNothing). split; [apply rp_check|by constructor].
    + exists idle. split; [apply rp_spin|by constructor].
  - inv_step Hs. destruct (Z.eqb_spec (ch_constructed (hw_head w)) 0) as [E|E]; simpl.
    + exists (locked KZero). split; [apply rp_zero|by constructor].
    + exists (locked KOne). split; [apply rp_unlock|by constructor].
  - inv_step Hs. exists (locked KZero). split; [apply rp_construct|constructor].
  - inv_step Hs. exists (locked KOne). split; [apply rp_unlock|constructor].
  - inv_step Hs. exists connecting. split; [apply rp_connect|constructor].
  - destruct n as [|n]; inv_step Hs.
    set (c := ch_cc (hw_head w)). destruct (Z.eqb_spec (Z.lor c (wrapping_add 32 c 1)) c) as [E|E]; simpl.
    + exists idle. split; [apply rp_start|constructor].
    + exists connecting. split; [by apply (rp_flip fuel i n k c r)|constructor].
  - inv_step Hs. destruct x; simpl.
    + exists connecting. split; [apply (rp_spurious fuel i n k c r)|constructor].
    + exists connecting. split; [by apply (rp_cas fuel i n k c r)|constructor].
  - inv_step Hs. destruct (Z.eqb_spec (ch_cc (hw_head w)) c) as [E|E]; simpl.
    + exists (owning (Z.lxor (Z.lor c (wrapping_add 32 c 1)) c) None).
      unfold after_connect. rewrite lor_lxor_nonzero by done.
      split; [apply rp_hold|by apply re_claim].
    + exists connecting. split; [apply rp_connect|constructor].
  - inv_step Hs. exists connecting. split; [apply rp_connect|constructor].
  - inv_step Hs. exists (owning b (Some b)). split; [apply rp_drop|constructor].
  - inv_step Hs. exists (owning b None). split; [apply rp_disconnect|constructor].
  - inv_step Hs. exists idle. split; [apply rp_start|constructor].
Qed.

(** The invariant of the header. *)
Record head_ok (w : head_world) (gs : list ghost) : Prop := {
  ho_u : is_u 32 (ch_cc (hw_head w));
  ho_owner : exists o : option nat,
    ch_lock (hw_head w) = (if o is Some _ then 1 else 0) /\
    forall j g, gs !! j = Some g -> g_lock g = true <-> o = Some j;
  ho_bit : forall j g b, gs !! j = Some g -> g_own g = Some b ->
    exists q, 0 <= q < 32 /\ b = 2 ^ q /\ Z.testbit (ch_cc (hw_head w)) q = true;
  ho_unique : forall j j' g g' b, gs !! j = Some g -> gs !! j' = Some g' ->
    g_own g = Some b -> g_own g' = Some b -> j = j';
  ho_noleak : forall q, 0 <= q < 32 -> Z.testbit (ch_cc (hw_head w)) q = true ->
    exists j g, gs !! j = Some g /\ g_own g = Some (2 ^ q);
  ho_zero : forall j g, gs !! j = Some g -> g_knows g = KZero ->
    g_lock g = true /\ ch_constructed (hw_head w) = 0;
  ho_one : forall j g, gs !! j = Some g -> g_knows g = KOne -> ch_constructed (hw_head w) <> 0;
  ho_own_one : forall j g, gs !! j = Some g -> g_own g <> None -> g_knows g = KOne;
  ho_held : forall j b, hw_held w !! j = Some b ->
    exists g, gs !! j = Some g /\ g_held g = Some b /\ g_own g = Some b;
}.

(** Lookups in a list updated at one place. *)
Ltac ins_cases :=
  repeat match goal with
         | H : <[_ := _]> _ !! _ = Some _ |- _ =>
             apply list_lookup_insert_Some in H as [(<- & <- & _)|[? H]]
         end.

Lemma insert_transfer {A} (l : list A) i x y (P : nat -> A -> Prop) :
  l !! i = Some x -> (P i x -> P i y) ->
  (exists j z, l !! j = Some z /\ P j z) -> exists j z, <[i := y]> l !! j = Some z /\ P j z.
Proof.
  intros Hi Hxy (j & z & Hj & HP). destruct (decide (j = i)) as [->|Hne].
  - exists i, y. rewrite list_lookup_insert_eq by (by eapply lookup_lt_Some). simplify_eq. auto.
  - exists j, z. by rewrite list_lookup_insert_ne.
Qed.

(** The lock clause, for each way a step can change the lock. *)
Lemma lock_clause_step i w w' gs g g' :
  head_ok w gs -> gs !! i = Some g -> recv_effect i w w' g g' ->
  exists o : option nat,
    ch_lock (hw_head w') = (if o is Some _ then 1 else 0) /\
    forall j x, <[i := g']> gs !! j = Some x -> g_lock x = true <-> o = Some j.
Proof.
  intros [_ (o & Hlc & Ho) _ _ _ _ _ _ _] Hi He.
  assert (forall o', (forall j, j <> i -> o' = Some j <-> o = Some j) -> (g_lock g' = true <-> o' = Some i) ->
          forall j x, <[i := g']> gs !! j = Some x -> g_lock x = true <-> o' = Some j) as Hins.
  { intros o' H1 H2 j x Hx. ins_cases; [done|]. rewrite H1 by done. by apply Ho. }
  pose proof (Ho i g Hi) as Hg.
  destruct He; simpl in *; try (exists o; split; [done|]; apply Hins; [done|]; done).
  - exists o. split; [by destruct o|]. by apply Hins.
  - exists (Some i). split; [done|]. apply Hins; [|done].
    intros j Hj. destruct o; [lia|]. split; intros; simplify_eq.
  - exists None. split; [done|]. apply Hins; [|done].
    pose proof (proj1 Hg eq_refl) as ->. intros j Hj. split; intros; simplify_eq.
Qed.

Lemma recv_effect_constructed i w w' g g' :
  recv_effect i w w' g g' ->
  ch_constructed (hw_head w') = ch_constructed (hw_head w) \/
  (g = locked KZero /\ g' = locked KOne /\ ch_constructed (hw_head w') = 1).
Proof. intros He. destruct He; simpl; auto. Qed.

(** What threads know of [constructed] stays true. *)
Lemma knows_step i w w' gs g g' :
  head_ok w gs -> gs !! i = Some g -> recv_effect i w w' g g' ->
  (forall j x, <[i := g']> gs !! j = Some x -> g_knows x = KZero ->
     g_lock x = true /\ ch_constructed (hw_head w') = 0) /\
  (forall j x, <[i := g']> gs !! j = Some x -> g_knows x = KOne -> ch_constructed (hw_head w') <> 0) /\
  (forall j x, <[i := g']> gs !! j = Some x -> g_own x <> None -> g_knows x = KOne).
Proof.
  intros [_ (o & Hlc & Ho) _ _ _ Hz H1 Hoo _] Hi He.
  assert ((g_knows g' = KZero -> g_lock g' = true /\ ch_constructed (hw_head w') = 0) /\
          (g_knows g' = KOne -> ch_constructed (hw_head w') <> 0) /\
          (g_own g' <> None -> g_knows g' = KOne)) as (Z' & O' & W').
  { pose proof (Hz i g Hi) as HZ. pose proof (H1 i g Hi) as HO. pose proof (Hoo i g Hi) as HW.
    destruct He; simpl in *; repeat split; intros; try done; try (by apply HZ); try (by apply HO);
      try (by apply HW). }
  apply recv_effect_constructed in He as [E|(-> & -> & E)].
  - repeat split; intros; ins_cases; try done; try (by apply Z'); try (by apply O'); try (by apply W');
      rewrite ?E; eauto; by eapply Hz.
  - pose proof (proj1 (Ho i _ Hi) eq_refl) as Hoi.
    repeat split; intros; ins_cases; try done; try (by rewrite E); eauto.
    + by eapply Hz.
    + destruct (Hz j x) as [Hl _]; try done. apply (Ho j) in Hl; [|done]. simplify_eq.
Qed.

(** What threads hold: distinct bits, all of them set, and nothing else set. *)
Definition bits_ok (cc : Z) (gs : list ghost) : Prop :=
  is_u 32 cc /\
  (forall j g b, gs !! j = Some g -> g_own g = Some b ->
     exists q, 0 <= q < 32 /\ b = 2 ^ q /\ Z.testbit cc q = true) /\
  (forall j j' g g' b, gs !! j = Some g -> gs !! j' = Some g' ->
     g_own g = Some b -> g_own g' = Some b -> j = j') /\
  (forall q, 0 <= q < 32 -> Z.testbit cc q = true -> exists j g, gs !! j = Some g /\ g_own g = Some (2 ^ q)).

Lemma bits_ok_same cc gs i g g' :
  bits_ok cc gs -> gs !! i = Some g -> g_own g' = g_own g -> bits_ok cc (<[i := g']> gs).
Proof.
  intros (Hu & Hb & Hq & Hn) Hi E. repeat split; [apply Hu|apply Hu| | |].
  - intros j x b Hx Ho. ins_cases; [|by eapply Hb]. rewrite E in Ho. by eapply Hb.
  - intros j j' x x' b Hx Hx' Ho Ho'. ins_cases; try done.
    + eapply (Hq j i x g b); try done. by rewrite <- E.
    + eapply (Hq i j' g x' b); try done. by rewrite <- E.
    + by eapply (Hq j j' x x' b).
  - intros q Hq' Ht. eapply (insert_transfer gs i g g' (fun _ z => g_own z = Some (2 ^ q))); [done| |by apply Hn].
    by rewrite E.
Qed.

Lemma bits_ok_zero gs i g g' cc :
  bits_ok cc gs -> gs !! i = Some g -> g_own g' = None -> (forall j x, gs !! j = Some x -> g_own x = None) ->
  bits_ok 0 (<[i := g']> gs).
Proof.
  intros _ Hi E Hall. repeat split; try lia.
  - intros j x b Hx Ho. ins_cases; [congruence|]. rewrite (Hall j x) in Ho by done. done.
  - intros j j' x x' b Hx Hx' Ho. ins_cases; try congruence; rewrite (Hall j x) in Ho by done; done.
  - intros q _ Ht. by rewrite Z.bits_0 in Ht.
Qed.

Lemma bits_ok_claim cc gs i g g' :
  bits_ok cc gs -> gs !! i = Some g -> g_own g = None -> Z.lor cc (wrapping_add 32 cc 1) <> cc ->
  g_own g' = Some (Z.lxor (Z.lor cc (wrapping_add 32 cc 1)) cc) ->
  bits_ok (Z.lor cc (wrapping_add 32 cc 1)) (<[i := g']> gs).
Proof.
  intros (Hu & Hb & Hq & Hn) Hi Hg Hne E.
  destruct (set_lowest_clear 32 cc) as (q & Hq32 & Hc & _ & E1 & E2); try done; try lia.
  rewrite E2 in E. rewrite E1. clear E1 E2.
  assert (forall j x, gs !! j = Some x -> g_own x <> Some (2 ^ q)) as Hfresh.
  { intros j x Hx Ho. destruct (Hb j x _ Hx Ho) as (q' & Hq' & E' & Ht).
    apply Z.pow_inj_r in E'; [|lia..]. subst q'. congruence. }
  split; [apply is_u_lor; [lia|done|apply is_u_pow2; lia]|]. split; [|split].
  - intros j x b Hx Ho. ins_cases.
    + rewrite E in Ho. simplify_eq. exists q. split; [done|]. split; [done|].
      rewrite Z.lor_spec, Z.pow2_bits_true by lia. by rewrite orb_true_r.
    + destruct (Hb j x b Hx Ho) as (q' & ? & ? & Ht). exists q'. by rewrite Z.lor_spec, Ht.
  - intros j j' x x' b Hx Hx' Ho Ho'. ins_cases; try done.
    + exfalso. rewrite E in Ho'. simplify_eq. by eapply Hfresh.
    + exfalso. rewrite E in Ho. simplify_eq. by eapply Hfresh.
    + by eapply (Hq j j' x x' b).
  - intros p Hp Ht. rewrite Z.lor_spec, Z.pow2_bits_eqb in Ht by lia.
    destruct (Z.eqb_spec q p) as [->|Hqp].
    + exists i, g'. rewrite list_lookup_insert_eq by (by eapply lookup_lt_Some). done.
    + rewrite orb_false_r in Ht.
      eapply (insert_transfer gs i g g' (fun _ z => g_own z = Some (2 ^ p))); [done| |by apply Hn].
      congruence.
Qed.

Lemma bits_ok_release cc gs i g g' b :
  bits_ok cc gs -> gs !! i = Some g -> g_own g = Some b -> g_own g' = None ->
  bits_ok (Z.land cc (unot 32 b)) (<[i := g']> gs).
Proof.
  intros (Hu & Hb & Hq & Hn) Hi Hg E. destruct (Hb i g b Hi Hg) as (q & Hq32 & -> & Hset).
  assert (forall p, 0 <= p < 32 -> Z.testbit (Z.land cc (unot 32 (2 ^ q))) p = Z.testbit cc p && negb (q =? p))
    as Hbits.
  { intros p Hp. autorewrite with zbits. destruct (Z.ltb_spec p 32); [done|lia]. }
  split; [apply is_u_land_l; [lia|done]|]. split; [|split].
  - intros j x b Hx Ho. ins_cases; [congruence|]. destruct (Hb j x b Hx Ho) as (q' & Hq' & -> & Ht).
    exists q'. rewrite Hbits, Ht by lia. destruct (Z.eqb_spec q q') as [->|]; [|done].
    exfalso. by pose proof (Hq i j g x _ Hi Hx Hg Ho).
  - intros j j' x x' b Hx Hx' Ho Ho'. ins_cases; try congruence. by eapply (Hq j j' x x' b).
  - intros p Hp Ht. rewrite Hbits in Ht by lia. apply andb_prop in Ht as [Ht Hqp].
    eapply (insert_transfer gs i g g' (fun _ z => g_own z = Some (2 ^ p))); [done| |by apply Hn].
    rewrite Hg. intros Heq. simplify_eq. apply Z.pow_inj_r in Heq; [|lia..]. subst.
    by rewrite Z.eqb_refl in Hqp.
Qed.

Lemma head_ok_bits w gs : head_ok w gs -> bits_ok (ch_cc (hw_head w)) gs.
Proof. intros [H1 _ H2 H3 H4 _ _ _ _]. done. Qed.

Lemma bits_step i w w' gs g g' :
  head_ok w gs -> gs !! i = Some g -> recv_effect i w w' g g' -> bits_ok (ch_cc (hw_head w')) (<[i := g']> gs).
Proof.
  intros Hok Hi He. pose proof (head_ok_bits w gs Hok) as Hb.
  destruct He; try (eapply (bits_ok_same _ gs); done).
  - eapply bits_ok_zero; try done. intros j x Hx. destruct (g_own x) eqn:E; [|done]. exfalso.
    apply (ho_one w gs Hok j x Hx); [|by apply (ho_zero w gs Hok i (locked KZero))].
    apply (ho_own_one w gs Hok j x Hx). by rewrite E.
  - subst c. by eapply bits_ok_claim.
  - by eapply bits_ok_release.
Qed.

Lemma held_step i w w' gs g g' :
  head_ok w gs -> gs !! i = Some g -> recv_effect i w w' g g' ->
  forall j b, hw_held w' !! j = Some b ->
    exists x, <[i := g']> gs !! j = Some x /\ g_held x = Some b /\ g_own x = Some b.
Proof.
  intros Hok Hi He j b Hb.
  assert (i < length gs)%nat as Hlt by (by eapply lookup_lt_Some).
  destruct (decide (j = i)) as [->|Hne].
  - exists g'. rewrite list_lookup_insert_eq by done. split; [done|].
    destruct He; simpl in Hb;
      try (destruct (ho_held w gs Hok i b Hb) as (x & Hx & Hh & Ho); simplify_eq; done).
    + rewrite lookup_insert_eq in Hb. by simplify_eq.
    + by rewrite lookup_delete_eq in Hb.
  - rewrite list_lookup_insert_ne by done. apply (ho_held w gs Hok).
    destruct He; simpl in Hb; try done.
    + by rewrite lookup_insert_ne in Hb.
    + by rewrite lookup_delete_ne in Hb.
Qed.

Lemma head_ok_step i w w' gs g g' :
  head_ok w gs -> gs !! i = Some g -> recv_effect i w w' g g' -> head_ok w' (<[i := g']> gs).
Proof.
  intros Hok Hi He. destruct (knows_step i w w' gs g g' Hok Hi He) as (? & ? & ?).
  destruct (bits_step i w w' gs g g' Hok Hi He) as (? & ? & ? & ?).
  split; try done; [by eapply lock_clause_step | by eapply held_step].
Qed.

Definition recv_inv (fuel : nat) (w : head_world) (ps : list (prog head_world unit)) : Prop :=
  exists gs, length gs = length ps /\ head_ok w gs /\
    forall j p g, ps !! j = Some p -> gs !! j = Some g -> recv_phase fuel j g p.

Lemma recv_inv_step fuel w ps i p w' p' :
  recv_inv fuel w ps -> ps !! i = Some p -> thread_step w p w' p' -> recv_inv fuel w' (<[i := p']> ps).
Proof.
  intros (gs & Hlen & Hok & Hph) Hp Hs.
  destruct (lookup_lt_is_Some_2 gs i) as [g Hg].
  { rewrite Hlen. by eapply lookup_lt_Some. }
  destruct (recv_phase_step fuel i g p p' w w') as (g' & Hph' & He); [by apply Hph|done|].
  exists (<[i := g']> gs). split; [by rewrite !length_insert|].
  split; [by eapply head_ok_step|]. intros j q x Hq Hx. destruct (decide (j = i)) as [->|Hne].
  - rewrite list_lookup_insert_eq in Hq by (by eapply lookup_lt_Some).
    rewrite list_lookup_insert_eq in Hx by (by eapply lookup_lt_Some). by simplify_eq.
  - rewrite list_lookup_insert_ne in Hq by done. rewrite list_lookup_insert_ne in Hx by done. by apply Hph.
Qed.

Definition fresh_head : head_world := mk_head_world (mk_conn_head 0 0 0) ∅.

Lemma recv_inv_init fuel rounds : recv_inv fuel fresh_head (imap (receiver fuel) rounds).
Proof.
  exists ((fun _ => idle) <$> rounds). split; [by rewrite length_fmap, length_imap|]. split.
  - assert (forall j g, ((fun _ => idle) <$> rounds) !! j = Some g -> g = idle) as Hid.
    { intros j g Hj. rewrite list_lookup_fmap in Hj. by destruct (rounds !! j); simplify_eq/=. }
    split; simpl; try (by intros; simplify_map_eq); try (intros j g Hj; rewrite (Hid j g Hj); done).
    + exists None. split; [done|]. intros j g Hj. by rewrite (Hid j g Hj).
    + intros j g b Hj. by rewrite (Hid j g Hj).
    + intros j j' g g' b Hj _. by rewrite (Hid j g Hj).
    + intros q _ Hq. by rewrite Z.bits_0 in Hq.
  - intros j p g Hp Hg. rewrite list_lookup_imap in Hp. rewrite list_lookup_fmap in Hg.
    destruct (rounds !! j); simplify_eq/=. apply rp_start.
Qed.

(** [bit_held fuel i b p]: [connect] has returned [b] to thread [i], whose [disconnect] has yet to
    clear it. *)
Inductive bit_held (fuel i : nat) (b : Z) : prog head_world unit -> Prop :=
| con_got r : bit_held fuel i b
    (hold i b ≫= fun _ => drop_bit i ≫= fun _ => disconnect h_cc b ≫= fun _ => receiver fuel i r)
| con_in r : bit_held fuel i b (drop_bit i ≫= fun _ => disconnect h_cc b ≫= fun _ => receiver fuel i r)
| con_leaving r : bit_held fuel i b (disconnect h_cc b ≫= fun _ => receiver fuel i r).

Lemma recv_phase_owns fuel i g p b : recv_phase fuel i g p -> g_own g = Some b -> bit_held fuel i b p.
Proof. intros Hp E. destruct Hp; simplify_eq/=; constructor. Qed.

Lemma bit_held_unfinished fuel i b p : bit_held fuel i b p -> p <> Ret tt.
Proof. by intros []. Qed.

(** The mask has exactly the bits of those that own one. *)
Lemma head_ok_mask w gs : head_ok w gs -> forall q, 0 <= q ->
  Z.testbit (ch_cc (hw_head w)) q = true <-> exists i, (g_own <$> gs) !! i = Some (Some (2 ^ q)).
Proof.
  intros Hok q Hq. destruct (proj1 (is_u_bits 32 _ ltac:(lia)) (ho_u w gs Hok)) as [_ Hhigh]. split.
  - intros Ht. destruct (decide (q < 32)); [|rewrite Hhigh in Ht by lia; done].
    destruct (ho_noleak w gs Hok q) as (j & g & Hg & Ho); [lia|done|].
    exists j. by rewrite list_lookup_fmap, Hg, <- Ho.
  - intros (j & Hj). rewrite list_lookup_fmap in Hj. destruct (gs !! j) as [g|] eqn:Hg; simplify_eq/=.
    destruct (ho_bit w gs Hok j g (2 ^ q) Hg) as (q' & ? & E & Ht); [done|].
    apply Z.pow_inj_r in E; [|lia..]. by subst.
Qed.

(** C18: receivers that initialise a fresh header, connect and disconnect in any interleaving never
    share a connection bit, and the mask has exactly the bits they have.  At any moment the threads
    own distinct bits or none: an owner is between the return of its [connect] and the clearing
    access of its [disconnect], a receiver that has recorded a bit owns that bit, and bit [q] of the
    mask is set just when some thread owns [2^q] (so a late initialisation never wipes a bit and none
    is left behind).  Once every receiver is done the mask is 0. *)
Theorem connection_bits_unique fuel rounds w' ps' :
  pool_reach (fresh_head, imap (receiver fuel) rounds) (w', ps') ->
  (exists owned : list (option Z), length owned = length ps' /\
     (forall i j b, owned !! i = Some (Some b) -> owned !! j = Some (Some b) -> i = j) /\
     (forall i b p, owned !! i = Some (Some b) -> ps' !! i = Some p -> bit_held fuel i b p) /\
     (forall i b, hw_held w' !! i = Some b -> owned !! i = Some (Some b)) /\
     (forall i b, owned !! i = Some (Some b) -> exists q, 0 <= q < 32 /\ b = 2 ^ q) /\
     (forall q, 0 <= q -> Z.testbit (ch_cc (hw_head w')) q = true <-> exists i, owned !! i = Some (Some (2 ^ q)))) /\
  ((forall p, p ∈ ps' -> p = Ret tt) -> ch_cc (hw_head w') = 0).
Proof.
  intros Hr.
  assert (recv_inv fuel w' ps') as (gs & Hlen & Hok & Hph).
  { eapply (pool_invariant (recv_inv fuel)); [apply recv_inv_init| |exact Hr].
    intros. by eapply recv_inv_step. }
  assert (forall i b, (g_own <$> gs) !! i = Some (Some b) -> exists g, gs !! i = Some g /\ g_own g = Some b) as Hg.
  { intros i b H. rewrite list_lookup_fmap in H. destruct (gs !! i) as [g|]; simplify_eq/=. by exists g. }
  assert (forall i b p, (g_own <$> gs) !! i = Some (Some b) -> ps' !! i = Some p -> bit_held fuel i b p) as Hcon.
  { intros i b p (g & Hi & Ho)%Hg Hp. by eapply recv_phase_owns; [apply Hph|]. }
  pose proof (head_ok_mask w' gs Hok) as Hmask. split.
  - exists (g_own <$> gs). split; [by rewrite length_fmap|]. split; [|split; [done|split; [|split; [|done]]]].
    + intros i j b (g & Hi & Ho)%Hg (g' & Hj & Ho')%Hg. by eapply (ho_unique w' gs Hok i j g g' b).
    + intros i b Hi. destruct (ho_held w' gs Hok i b Hi) as (g & Hi' & _ & <-). by rewrite list_lookup_fmap, Hi'.
    + intros i b (g & Hi & Ho)%Hg. destruct (ho_bit w' gs Hok i g b Hi Ho) as (q & ? & ? & _). by exists q.
  - intros Hdone. apply Z.bits_inj'. intros q Hq. rewrite Z.bits_0. apply not_true_iff_false.
    intros (j & Hj)%Hmask; [|done]. destruct (lookup_lt_is_Some_2 ps' j) as [p Hp].
    { rewrite <- Hlen, <- (length_fmap g_own). by eapply lookup_lt_Some. }
    apply (bit_held_unfinished fuel j (2 ^ q) p); [by apply Hcon|]. apply Hdone. by eapply list_elem_of_lookup_2.
Qed.

(** Two receivers; thread 0 has connected and recorded its bit while thread 1 is connecting: the mask
    is the bit of thread 0, so somebody owns it. *)
Lemma connection_bits_unique_witness :
  let c := run_sched (repeat (0%nat, false) 10 ++ repeat (1%nat, false) 2)
             (fresh_head, imap (receiver 4) [1%nat; 1%nat]) in
  hw_held c.1 !! 0%nat = Some 1 /\ ch_cc (hw_head c.1) = 1 /\
  exists owned : list (option Z), owned !! 0%nat = Some (Some 1) /\
    forall q, 0 <= q -> Z.testbit (ch_cc (hw_head c.1)) q = true <-> exists i, owned !! i = Some (Some (2 ^ q)).
Proof.
  intros c. split; [vm_compute; reflexivity|]. split; [vm_compute; reflexivity|].
  destruct (connection_bits_unique 4 [1%nat; 1%nat] c.1 c.2) as [(owned & _ & _ & _ & Hh & _ & Hm) _].
  - apply run_sched_reach.
  - exists owned. split; [apply Hh; vm_compute; reflexivity|exact Hm].
Defined.
