(* ===== verification/Liveness.v ===== *)
(** * The owner table of a channel

    [liveness.rs]: which process owns each connection bit, whether that process
    is still alive, the reaper that reclaims the bits of dead receivers, and the
    sole-owner record that makes a route single-sender.  What the operating
    system reports about processes is a parameter ([os]). *)
From S2P Require Import Prelude Atomics Locks Abi.

Definition MAX_SLOTS : Z := 32.
Definition LIVENESS_SHM_SIZE : Z := 512.

(** ** The operating system's view of processes *)

Record os := mk_os {
  os_apple : bool;                       (** which backend is compiled in *)
  os_getpid : Z;                         (** [getpid()] *)
  os_kill : Z -> option Z;               (** errno of [kill(pid, 0)], [None] on success *)
  os_proc_stat : Z -> option (list Z);   (** [/proc/<pid>/stat] *)
  os_bsdinfo : Z -> option (Z * Z);      (** [proc_pidinfo]: start time (sec, usec) *)
  os_p_stat : Z -> option Z;             (** [sysctl(KERN_PROC_PID)]: [p_stat] *)
}.

Definition ESRCH : Z := 3.
Definition SZOMB : Z := 5.

Definition self_pid (o : os) : Z := os_getpid o.

(** ** Reading [/proc/<pid>/stat] *)

Definition RPAREN : Z := 41.

(** [str::rfind(')')]: the index of the last closing parenthesis. *)
Fixpoint rfind (c : Z) (s : list Z) : option nat :=
  match s with
  | [] => None
  | b :: s => match rfind c s with
              | Some i => Some (S i)
              | None => if b =? c then Some O else None
              end
  end.

Definition is_whitespace (b : Z) : bool := ((9 <=? b) && (b <=? 13)) || (b =? 32).

(** [str::split_whitespace]: the maximal runs of non-blank bytes ([cur] is the run being read). *)
Fixpoint split_whitespace (cur : list Z) (s : list Z) : list (list Z) :=
  match s with
  | [] => if bool_decide (cur = []) then [] else [cur]
  | b :: s =>
      if is_whitespace b then
        if bool_decide (cur = []) then split_whitespace [] s else cur :: split_whitespace [] s
      else split_whitespace (cur ++ [b]) s
  end.

Fixpoint parse_digits (acc : Z) (s : list Z) : option Z :=
  match s with
  | [] => Some acc
  | b :: s =>
      if (48 <=? b) && (b <=? 57) then
        let acc := 10 * acc + (b - 48) in
        if acc <? 2 ^ 64 then parse_digits acc s else None
      else None
  end.

(** [str::parse::<u64>]: an optional plus sign, then digits, without overflow. *)
Definition parse_u64 (s : list Z) : option Z :=
  let s := match s with 43 :: s => s | _ => s end in
  if bool_decide (s = []) then None else parse_digits 0 s.

Module linux.

Definition is_zombie (o : os) (pid : Z) : bool :=
  if pid <=? 0 then false
  else match os_proc_stat o pid with
       | None => false
       | Some stat =>
           match rfind RPAREN stat with
           | None => false
           | Some e => match stat !! (e + 2)%nat with
                       | Some b => (b =? 90) || (b =? 88)    (** 'Z' or 'X' *)
                       | None => false
                       end
           end
       end.

(** Field 22 is the 20th after the command name. *)
Definition start_token (o : os) (pid : Z) : Z :=
  if pid <=? 0 then 0
  else match os_proc_stat o pid with
       | None => 0
       | Some data =>
           match rfind RPAREN data with
           | None => 0
           | Some i => default 0 (split_whitespace [] (drop (i + 1) data) !! 19%nat ≫= parse_u64)
           end
       end.

End linux.

Module apple.

Definition is_zombie (o : os) (pid : Z) : bool :=
  if pid <=? 0 then false
  else match os_p_stat o pid with Some p_stat => p_stat =? SZOMB | None => false end.

Definition start_token (o : os) (pid : Z) : Z :=
  if pid <=? 0 then 0
  else match os_bsdinfo o pid with
       | None => 0
       | Some (tvsec, tvusec) => wrapping_add 64 (wrap 64 (tvsec * 1000000)) tvusec
       end.

End apple.

Definition is_zombie (o : os) (pid : Z) : bool :=
  if os_apple o then apple.is_zombie o pid else linux.is_zombie o pid.

Definition start_token (o : os) (pid : Z) : Z :=
  if os_apple o then apple.start_token o pid else linux.start_token o pid.

Definition is_process_alive (o : os) (pid tok : Z) : bool :=
  if pid <=? 0 then false
  else
    let exists_ := match os_kill o pid with
                   | None => true
                   | Some errno => negb (errno =? ESRCH)
                   end in
    if negb exists_ then false
    else if is_zombie o pid then false
    else if tok =? 0 then true
    else
      let cur := start_token o pid in
      if cur =? 0 then true else cur =? tok.

(** ** The table *)

Record SlotOwner := mk_SlotOwner { so_pid : Z; so_since : Z; so_start_tok : Z }.

#[export] Instance SlotOwner_inhabited : Inhabited SlotOwner := populate (mk_SlotOwner 0 0 0).
#[export] Instance SlotOwner_eq_dec : EqDecision SlotOwner.
Proof. solve_decision. Defined.

(** Fresh shared memory is zero-filled: a slot never written is all zero. *)
Abbreviation ConnLiveness := (gmap Z SlotOwner).

Definition pid_f : field SlotOwner Z :=
  mk_field so_pid (fun v s => mk_SlotOwner v (so_since s) (so_start_tok s)).
Definition since_f : field SlotOwner Z :=
  mk_field so_since (fun v s => mk_SlotOwner (so_pid s) v (so_start_tok s)).
Definition start_tok_f : field SlotOwner Z :=
  mk_field so_start_tok (fun v s => mk_SlotOwner (so_pid s) (so_since s) v).

#[export] Instance pid_f_lawful : LawfulField pid_f. Proof. split; by intros. Qed.
#[export] Instance since_f_lawful : LawfulField since_f. Proof. split; by intros. Qed.
#[export] Instance start_tok_f_lawful : LawfulField start_tok_f. Proof. split; by intros. Qed.

(** [slot_index]: the position of a single-bit connection id. *)
Definition slot_index (bit : Z) : Z := trailing_zeros 32 bit.

Section table.
Context {S : Type} (o : os).

Definition slot_f (lv : field S ConnLiveness) (bit : Z) : field S SlotOwner :=
  sub_field lv (at_key (slot_index bit)).

(** A null table pointer is [None]. *)
Definition set_owner (lv : option (field S ConnLiveness)) (bit : Z) : prog S unit :=
  match lv with
  | None => Ret tt
  | Some lv =>
      if bit =? 0 then Ret tt
      else
        _ ← store (sub_field (slot_f lv bit) start_tok_f) (start_token o (self_pid o));
        store (sub_field (slot_f lv bit) pid_f) (self_pid o)
  end.

Definition set_since (lv : option (field S ConnLiveness)) (bit since : Z) : prog S unit :=
  match lv with
  | None => Ret tt
  | Some lv => if bit =? 0 then Ret tt else store (sub_field (slot_f lv bit) since_f) since
  end.

(** The scan loops run on a [u32]: 33 rounds are enough (at most 32 bits, then the exit test). *)
Fixpoint live_marks_loop (fuel : nat) (lv : field S ConnLiveness) (m pos live : Z) : prog S Z :=
  match fuel with
  | O => Spin
  | Datatypes.S fuel =>
      if m =? 0 then Ret live
      else
        let bit := Z.land m (wrapping_neg 32 m) in
        since ← load (sub_field (slot_f lv bit) since_f);
        live_marks_loop fuel lv (Z.land m (m - 1)) pos
          (if 0 <=? i32 (wrapping_sub 32 pos since) then Z.lor live bit else live)
  end.

Definition live_marks (lv : option (field S ConnLiveness)) (bits pos : Z) : prog S Z :=
  match lv with
  | None => Ret bits
  | Some lv => live_marks_loop 33 lv bits pos 0
  end.

Definition clear_owner (lv : option (field S ConnLiveness)) (bit : Z) : prog S unit :=
  match lv with
  | None => Ret tt
  | Some lv =>
      if bit =? 0 then Ret tt
      else
        _ ← store (sub_field (slot_f lv bit) pid_f) 0;
        store (sub_field (slot_f lv bit) start_tok_f) 0
  end.

(** ** Sole-owner record *)

Definition OWNER_CLAIMING : Z := -1.

Definition claim_sole_owner (ow : field S SlotOwner) : prog S bool :=
  cur ← load (sub_field ow pid_f);
  if cur =? OWNER_CLAIMING then Ret false
  else
    held ← (if cur =? 0 then Ret false
            else tok ← load (sub_field ow start_tok_f); Ret (is_process_alive o cur tok));
    if (held : bool) then Ret false
    else
      r ← compare_exchange (sub_field ow pid_f) cur OWNER_CLAIMING;
      match r with
      | Err _ => Ret false
      | Ok _ =>
          _ ← store (sub_field ow start_tok_f) (start_token o (self_pid o));
          _ ← store (sub_field ow pid_f) (self_pid o);
          Ret true
      end.

Definition release_sole_owner (ow : field S SlotOwner) : prog S unit :=
  let me := self_pid o in
  cur ← load (sub_field ow pid_f);
  if negb (cur =? me) then Ret tt
  else
    _ ← store (sub_field ow start_tok_f) 0;
    _ ← compare_exchange (sub_field ow pid_f) me 0;
    Ret tt.

(** ** The reaper *)

Fixpoint reap_loop (fuel : nat) (lv : field S ConnLiveness) (disconnect_fn : Z -> prog S unit)
    (m reaped : Z) : prog S Z :=
  match fuel with
  | O => Spin
  | Datatypes.S fuel =>
      if m =? 0 then Ret reaped
      else
        let bit := Z.land m (wrapping_neg 32 m) in
        let m := Z.land m (m - 1) in
        let s := slot_f lv bit in
        p ← load (sub_field s pid_f);
        if p =? 0 then reap_loop fuel lv disconnect_fn m reaped
        else
          tok ← load (sub_field s start_tok_f);
          if is_process_alive o p tok then reap_loop fuel lv disconnect_fn m reaped
          else
            r ← compare_exchange (sub_field s pid_f) p 0;
            match r with
            | Ok _ =>
                _ ← store (sub_field s start_tok_f) 0;
                _ ← disconnect_fn bit;
                reap_loop fuel lv disconnect_fn m (Z.lor reaped bit)
            | Err _ => reap_loop fuel lv disconnect_fn m reaped
            end
  end.

Definition reap_dead_receivers (lv : option (field S ConnLiveness)) (live : Z)
    (disconnect_fn : Z -> prog S unit) : prog S Z :=
  match lv with
  | None => Ret 0
  | Some lv => reap_loop 33 lv disconnect_fn live 0
  end.

End table.

(** ** Lemmas *)

Lemma slot_index_pow2 i : 0 <= i < 32 -> slot_index (2 ^ i) = i.
Proof. intros. unfold slot_index. apply trailing_zeros_pow2. lia. Qed.

(** A mark of position [pos] belongs to a receiver that started at [since] when
    [pos] is at or after [since] in the wrapping order. *)
Definition at_or_after (pos since : Z) : bool := 0 <=? i32 (wrapping_sub 32 pos since).

(** The owner recorded in a slot is known to be gone. *)
Definition dead (o : os) (s : SlotOwner) : bool :=
  negb (so_pid s =? 0) && negb (is_process_alive o (so_pid s) (so_start_tok s)).

Definition cleared (s : SlotOwner) : SlotOwner := mk_SlotOwner 0 (so_since s) 0.

Section table_lemmas.
Context {S : Type} (o : os) (lv : field S ConnLiveness) `{!LawfulField lv}.

Lemma slot_get {T} (f : field SlotOwner T) i s :
  0 <= i < 32 -> fget (sub_field (slot_f lv (2 ^ i)) f) s = fget f (fget lv s !!! i).
Proof. intros. simpl. by rewrite slot_index_pow2. Qed.

Lemma slot_set {T} (f : field SlotOwner T) i v s :
  0 <= i < 32 ->
  fget lv (fset (sub_field (slot_f lv (2 ^ i)) f) v s) = <[i := fset f v (fget lv s !!! i)]> (fget lv s).
Proof. intros. simpl. by rewrite get_set, slot_index_pow2. Qed.

Lemma live_marks_runs n bits pos s :
  is_u 32 bits ->
  runs n (live_marks (Some lv) bits pos) s (fun r s' => s' = s /\
    forall j, 0 <= j ->
      Z.testbit r j = Z.testbit bits j && at_or_after pos (so_since (fget lv s !!! j))).
Proof.
  intros Hb. unfold live_marks.
  assert (forall live, runs n (live_marks_loop 33 lv bits pos live) s (fun r s' => s' = s /\
    forall j, 0 <= j -> Z.testbit r j =
      Z.testbit live j || (Z.testbit bits j && at_or_after pos (so_since (fget lv s !!! j))))) as H.
  { revert bits Hb. apply (scan_ind (fun fuel m => forall live,
      runs n (live_marks_loop fuel lv m pos live) s (fun r s' => s' = s /\ forall j, 0 <= j ->
        Z.testbit r j = Z.testbit live j || (Z.testbit m j && at_or_after pos (so_since (fget lv s !!! j)))))).
    - intros fuel live. cbn. apply runs_ret. split; [done|]. intros j Hj.
      by rewrite Z.bits_0, orb_false_r.
    - intros fuel m i Hm Hi Ht E1 E2 H0 Hu IH live. cbn [live_marks_loop].
      destruct (Z.eqb_spec m 0); [done|]. rewrite E1, E2. run_step. rewrite slot_get by lia.
      eapply runs_conseq; [apply IH|]. intros r s' [-> Hr]. split; [done|]. intros j Hj.
      rewrite Hr, ldiff_pow2_bits by lia. cbn [fget since_f].
      change (0 <=? i32 (wrapping_sub 32 pos (so_since (fget lv s !!! i))))
        with (at_or_after pos (so_since (fget lv s !!! i))).
      destruct (Z.eqb_spec i j) as [->|Hij].
      + rewrite Ht. simpl. destruct (at_or_after _ _); autorewrite with zbits; rewrite ?orb_false_r; [|done].
        by rewrite Z.eqb_refl, orb_true_r.
      + rewrite andb_true_r. destruct (at_or_after pos (so_since (fget lv s !!! i))); [|done].
        autorewrite with zbits. destruct (Z.eqb_spec i j); [done|]. by rewrite orb_false_r. }
  eapply runs_conseq; [apply H|]. intros r s' [-> Hr]. split; [done|]. intros j Hj.
  by rewrite Hr, Z.bits_0 by done.
Qed.

Context (cc : field S Z) `{!LawfulField cc, !Independent lv cc}.

(** The callback [ChanInner::open] passes to the reaper. *)
Definition clear_bit (bit : Z) : prog S unit := _ ← fetch_and cc (unot 32 bit); Ret tt.

Definition reap_post (live reaped0 : Z) (s : S) (r : Z) (s' : S) : Prop :=
  (forall j, 0 <= j -> Z.testbit r j =
     Z.testbit reaped0 j || (Z.testbit live j && dead o (fget lv s !!! j))) /\
  (forall j, 0 <= j -> fget lv s' !!! j =
     if Z.testbit live j && dead o (fget lv s !!! j) then cleared (fget lv s !!! j) else fget lv s !!! j) /\
  (forall j, 0 <= j -> Z.testbit (fget cc s') j =
     Z.testbit (fget cc s) j && negb (Z.testbit live j && dead o (fget lv s !!! j))).

Lemma reap_post_skip live i reaped0 s r s' :
  0 <= i -> dead o (fget lv s !!! i) = false ->
  reap_post (Z.ldiff live (2 ^ i)) reaped0 s r s' -> reap_post live reaped0 s r s'.
Proof.
  intros Hi Hd (H1 & H2 & H3).
  assert (forall j, 0 <= j -> Z.testbit (Z.ldiff live (2 ^ i)) j && dead o (fget lv s !!! j) =
                              Z.testbit live j && dead o (fget lv s !!! j)) as E.
  { intros j Hj. rewrite ldiff_pow2_bits by lia. destruct (Z.eqb_spec i j) as [->|].
    - by rewrite Hd, !andb_false_r.
    - by rewrite andb_true_r. }
  repeat split; intros j Hj; [rewrite H1|rewrite H2|rewrite H3]; try done; by rewrite E.
Qed.

Lemma reap_post_take live i reaped0 s s1 r s' :
  0 <= i < 32 -> is_u 32 (fget cc s) -> Z.testbit live i = true -> dead o (fget lv s !!! i) = true ->
  (forall j, 0 <= j -> fget lv s1 !!! j = if j =? i then cleared (fget lv s !!! i) else fget lv s !!! j) ->
  fget cc s1 = Z.land (fget cc s) (unot 32 (2 ^ i)) ->
  reap_post (Z.ldiff live (2 ^ i)) (Z.lor reaped0 (2 ^ i)) s1 r s' -> reap_post live reaped0 s r s'.
Proof.
  intros Hi Hu Hl Hd Hlv Hcc (H1 & H2 & H3).
  pose proof (proj1 (is_u_bits 32 _ ltac:(lia)) Hu) as [_ Hhigh].
  repeat split; intros j Hj; [rewrite H1|rewrite H2|rewrite H3]; try done;
    rewrite Hlv, ldiff_pow2_bits by lia; rewrite ?Hcc; autorewrite with zbits;
    destruct (Z.eqb_spec j i) as [->|Hne]; rewrite ?Z.eqb_refl; simpl;
    rewrite ?Hl, ?Hd, ?andb_false_r, ?orb_true_r, ?orb_false_r; simpl; try done;
    destruct (Z.eqb_spec i j); try lia; simpl; rewrite ?orb_false_r, ?andb_true_r; try done.
  destruct (Z.ltb_spec j 32); simpl; rewrite ?andb_true_r; [done|]. by rewrite Hhigh by lia.
Qed.

Lemma cc_other {T} (f : field SlotOwner T) b v s : fget cc (fset (sub_field (slot_f lv b) f) v s) = fget cc s.
Proof. simpl. apply get_other_r. Qed.

Lemma reap_loop_runs n live s :
  is_u 32 live -> is_u 32 (fget cc s) ->
  runs n (reap_loop o 33 lv clear_bit live 0) s (reap_post live 0 s).
Proof.
  intros Hl. assert (forall reaped0 s, is_u 32 (fget cc s) ->
    runs n (reap_loop o 33 lv clear_bit live reaped0) s (reap_post live reaped0 s)) as H; [|by apply H].
  revert live Hl. apply (scan_ind (fun fuel m => forall reaped0 s, is_u 32 (fget cc s) ->
    runs n (reap_loop o fuel lv clear_bit m reaped0) s (reap_post m reaped0 s))).
  - intros fuel r0 s' _. cbn. apply runs_ret. repeat split; intros j Hj; rewrite ?Z.bits_0; simpl;
      by rewrite ?orb_false_r, ?andb_true_r.
  - clear s. intros fuel m i Hm Hi Ht E1 E2 H0 Hu IH r0 s Hcc. cbn [reap_loop].
    destruct (Z.eqb_spec m 0); [done|]. rewrite E1, E2. run_step. rewrite slot_get by lia. cbn [fget pid_f].
    pose proof (reap_post_skip m i r0 s) as Hskip. unfold dead in Hskip.
    destruct (Z.eqb_spec (so_pid (fget lv s !!! i)) 0) as [E|E].
    { eapply runs_conseq; [by apply IH|]. intros r s' Hr. apply Hskip; try done; lia. }
    run_step. rewrite slot_get by lia. cbn [fget start_tok_f].
    destruct (is_process_alive o _ _) eqn:Ha.
    { eapply runs_conseq; [by apply IH|]. intros r s' Hr. apply Hskip; try done; lia. }
    run_step. rewrite slot_get, Z.eqb_refl by lia. cbn [fst snd]. run_step. unfold clear_bit.
    run_step. unfold fetch_and. run_step. run_step.
    eapply runs_conseq; [apply IH|].
    { rewrite get_set. apply is_u_land_l; [lia|]. by rewrite !cc_other. }
    intros r s' Hr. eapply (reap_post_take m i r0 s); try exact Hr; try done.
    + unfold dead. rewrite Ha. destruct (Z.eqb_spec (so_pid (fget lv s !!! i)) 0); done.
    + intros j Hj. rewrite get_other_l, !slot_set by lia. destruct (Z.eqb_spec j i) as [->|].
      * by rewrite !lookup_total_insert_eq.
      * by rewrite !lookup_total_insert_ne by done.
    + by rewrite get_set, !cc_other.
Qed.

End table_lemmas.

(** ** Properties *)

(** Of the marks on an element that held position [pos], [live_marks] keeps
    exactly those whose current receiver started at or before [pos] in the wrapping order
    of the cursor; it reads the table and changes nothing. *)
Theorem live_marks_spec n (t : ConnLiveness) bits pos :
  is_u 32 bits ->
  runs n (live_marks (Some (mk_field id (fun v _ => v))) bits pos) t (fun r t' => t' = t /\
    forall j, 0 <= j -> Z.testbit r j = Z.testbit bits j && at_or_after pos (so_since (t !!! j))).
Proof. intros Hb. by apply live_marks_runs. Qed.

(** Receivers of bits 0 and 2; the one of bit 2 started after position 5. *)
Definition two_receivers : ConnLiveness :=
  <[0 := mk_SlotOwner 7 4294967295 1]> (<[2 := mk_SlotOwner 8 6 1]> ∅).

Lemma live_marks_spec_witness :
  exists r t', eval (live_marks (Some (mk_field id (fun v _ => v))) 5 5) two_receivers = Some (r, t') /\ r = 1.
Proof.
  destruct (runs_eval _ _ _ (live_marks_spec 1 two_receivers 5 5 ltac:(unfold is_u; lia))) as (r & t' & E & _).
  exists r, t'. split; [exact E|]. vm_compute in E. congruence.
Defined.

(** A table and a connection mask side by side, as the reaper sees them. *)
Record reap_world := mk_reap_world { rw_lv : ConnLiveness; rw_cc : Z }.
Definition rw_lv_f : field reap_world ConnLiveness := mk_field rw_lv (fun v w => mk_reap_world v (rw_cc w)).
Definition rw_cc_f : field reap_world Z := mk_field rw_cc (fun v w => mk_reap_world (rw_lv w) v).
#[export] Instance rw_lv_lawful : LawfulField rw_lv_f. Proof. split; by intros. Qed.
#[export] Instance rw_cc_lawful : LawfulField rw_cc_f. Proof. split; by intros. Qed.
#[export] Instance rw_independent : Independent rw_lv_f rw_cc_f. Proof. split; by intros. Qed.

(** C16: the reaper returns, and reaps exactly the receivers among [live] whose recorded
    owner is known to be gone: an unknown owner (pid 0) or a live one keeps its bit and its
    record; a reaped one loses its bit, its pid and its token (not its [since]). *)
Theorem reap_dead_receivers_spec o n live (w : reap_world) :
  is_u 32 live -> is_u 32 (rw_cc w) ->
  runs n (reap_dead_receivers o (Some rw_lv_f) live (clear_bit rw_cc_f)) w (fun reaped w' =>
    forall j, 0 <= j ->
      let gone := Z.testbit live j && dead o (rw_lv w !!! j) in
      Z.testbit reaped j = gone /\
      rw_lv w' !!! j = (if gone then cleared (rw_lv w !!! j) else rw_lv w !!! j) /\
      Z.testbit (rw_cc w') j = Z.testbit (rw_cc w) j && negb gone).
Proof.
  intros Hl Hc. eapply runs_conseq; [by apply (reap_loop_runs o rw_lv_f rw_cc_f)|].
  intros r w' (H1 & H2 & H3) j Hj gone. split; [|by split; [apply H2|apply H3]].
  rewrite H1, Z.bits_0 by done. done.
Qed.

(** A system whose only processes are 7 (live, token 42) and 9 (a zombie). *)
Definition demo_os : os := {|
  os_apple := true; os_getpid := 7;
  os_kill := fun pid => if (pid =? 7) || (pid =? 9) then None else Some ESRCH;
  os_proc_stat := fun _ => None;
  os_bsdinfo := fun pid => if pid =? 7 then Some (0, 42) else None;
  os_p_stat := fun pid => if pid =? 9 then Some SZOMB else Some 2;
|}.

Lemma reap_dead_receivers_spec_witness :
  exists r w', eval (reap_dead_receivers demo_os (Some rw_lv_f) 15 (clear_bit rw_cc_f))
    (mk_reap_world (<[0 := mk_SlotOwner 7 0 42]> (<[1 := mk_SlotOwner 9 0 1]> (<[2 := mk_SlotOwner 7 0 41]> ∅))) 15)
    = Some (r, w') /\ r = 6.
Proof.
  destruct (runs_eval _ _ _ (reap_dead_receivers_spec demo_os 1 15
    (mk_reap_world (<[0 := mk_SlotOwner 7 0 42]> (<[1 := mk_SlotOwner 9 0 1]> (<[2 := mk_SlotOwner 7 0 41]> ∅))) 15)
    ltac:(unfold is_u; lia) ltac:(unfold is_u; simpl; lia))) as (r & w' & E & _).
  exists r, w'. split; [exact E|]. vm_compute in E. congruence.
Defined.

(** A process counts as gone only on positive evidence: its pid is not a pid, the kernel
    says there is none (ESRCH), it is a zombie, or its start token can be read and differs
    from the recorded one. *)
Theorem is_process_alive_conservative o pid tok :
  is_process_alive o pid tok = false <->
  pid <= 0 \/ os_kill o pid = Some ESRCH \/ is_zombie o pid = true \/
  (tok <> 0 /\ start_token o pid <> 0 /\ start_token o pid <> tok).
Proof.
  unfold is_process_alive. destruct (Z.leb_spec pid 0) as [Hp|Hp]; [split; [by left|done]|].
  destruct (os_kill o pid) as [e|] eqn:Ek; simpl.
  - destruct (Z.eqb_spec e ESRCH) as [->|He]; simpl; [tauto|].
    destruct (is_zombie o pid); [tauto|].
    destruct (Z.eqb_spec tok 0), (Z.eqb_spec (start_token o pid) 0), (Z.eqb_spec (start_token o pid) tok);
      split; intros; try done; try (destruct_or!; simplify_eq; lia || tauto || done); tauto.
  - destruct (is_zombie o pid); [tauto|].
    destruct (Z.eqb_spec tok 0), (Z.eqb_spec (start_token o pid) 0), (Z.eqb_spec (start_token o pid) tok);
      split; intros; try done; try (destruct_or!; simplify_eq; lia || tauto || done); tauto.
Qed.

(** ** The sole-owner claim under interleaving

    Processes race for one record.  Each tries a number of times; one that
    succeeds is the sender for a while ([ow_inside]), then releases the record.
    [again] says whether it starts over after releasing. *)

Record owner_world := mk_owner_world { ow_rec : SlotOwner; ow_inside : gset nat }.

Definition ow_f : field owner_world SlotOwner := mk_field ow_rec (fun v w => mk_owner_world v (ow_inside w)).

Definition start_sending (i : nat) : prog owner_world unit :=
  act (fun w => (tt, mk_owner_world (ow_rec w) ({[i]} ∪ ow_inside w))).
Definition stop_sending (i : nat) : prog owner_world unit :=
  act (fun w => (tt, mk_owner_world (ow_rec w) (ow_inside w ∖ {[i]}))).

Fixpoint sender (again : bool) (tries : nat) (i : nat) (o : os) : prog owner_world unit :=
  match tries with
  | O => Ret tt
  | S tries =>
      claim_sole_owner o ow_f ≫= fun ok : bool =>
      if ok then
        start_sending i ≫= fun _ => stop_sending i ≫= fun _ => release_sole_owner o ow_f ≫= fun _ =>
        if again then sender again tries i o else Ret tt
      else sender again tries i o
  end.

Definition free_record : owner_world := mk_owner_world (mk_SlotOwner 0 0 0) ∅.

(** Three processes, each alive for the others, with different start tokens. *)
Definition three_os (pid : Z) : os := {|
  os_apple := true; os_getpid := pid;
  os_kill := fun p => if (1 <=? p) && (p <=? 3) then None else Some ESRCH;
  os_proc_stat := fun _ => None;
  os_bsdinfo := fun p => Some (0, 100 + p);
  os_p_stat := fun _ => Some 2;
|}.

(** The reader of process 2 (thread 1) pairs process 1's pid with process 3's token. *)
Definition aba_schedule : list (nat * bool) :=
  repeat (0%nat, false) 4 ++ [(1%nat, false)] ++ repeat (0%nat, false) 5 ++ repeat (2%nat, false) 4 ++
  [(1%nat, false)] ++ repeat (2%nat, false) 5 ++ repeat (0%nat, false) 5 ++ repeat (1%nat, false) 4.

(** A process that releases the record and claims it again can lose it to another while
    it is alive and sending: a claimant that read its pid before the release, and the token
    of a third process in between, takes its pid for reused.  Two live processes are
    then both sending. *)
Theorem sole_owner_aba :
  let c := run_sched aba_schedule (free_record, imap (sender true 3) (three_os <$> [1; 2; 3])) in
  ow_inside c.1 = {[0%nat; 1%nat]}.
Proof. vm_compute. reflexivity. Qed.

(** Where a process stands; [ReadPid c] and [Judged c] carry the pid it read. *)
Inductive stage :=
| Trying | ReadPid (c : Z) | Judged (c : Z) | Claiming | Stamped
| Holding (inside : bool) | Releasing | Unstamping | Dropping | Gone.

#[export] Instance stage_eq_dec : EqDecision stage.
Proof. solve_decision. Defined.

(** Holding the record, or on the way in or out of it. *)
Definition active (st : stage) : bool :=
  match st with
  | Claiming | Stamped | Holding _ | Releasing | Unstamping | Dropping => true
  | _ => false
  end.

(** The pid and token fields while a process with this os is at a stage. *)
Definition shown_pid (o : os) (st : stage) : Z :=
  match st with Claiming | Stamped => OWNER_CLAIMING | _ => self_pid o end.
Definition shown_tok (o : os) (st : stage) (tok : Z) : Prop :=
  match st with
  | Claiming => True
  | Dropping => tok = 0
  | _ => tok = start_token o (self_pid o)
  end.

Section exclusive.
Context (i : nat) (o : os).

Definition after_claim (n : nat) (ok : bool) : prog owner_world unit :=
  if ok then
    start_sending i ≫= fun _ => stop_sending i ≫= fun _ => release_sole_owner o ow_f ≫= fun _ => Ret tt
  else sender false n i o.

(** The compare-and-swap of the claim and what follows it. *)
Definition claim_cas (c : Z) : prog owner_world bool :=
  compare_exchange (sub_field ow_f pid_f) c OWNER_CLAIMING ≫= fun r =>
  match r with
  | Err _ => Ret false
  | Ok _ =>
      store (sub_field ow_f start_tok_f) (start_token o (self_pid o)) ≫= fun _ =>
      store (sub_field ow_f pid_f) (self_pid o) ≫= fun _ => Ret true
  end.

Inductive sender_phase : stage -> prog owner_world unit -> Prop :=
| sp_try n : sender_phase Trying (sender false n i o)
| sp_tok n c : sender_phase (ReadPid c)
    (((load (sub_field ow_f start_tok_f) ≫= fun tok => Ret (is_process_alive o c tok)) ≫= fun held : bool =>
      if held then Ret false else claim_cas c) ≫= after_claim n)
| sp_cas n c : sender_phase (Judged c) (claim_cas c ≫= after_claim n)
| sp_stamp n : sender_phase Claiming
    ((store (sub_field ow_f start_tok_f) (start_token o (self_pid o)) ≫= fun _ =>
      store (sub_field ow_f pid_f) (self_pid o) ≫= fun _ => Ret true) ≫= after_claim n)
| sp_publish n : sender_phase Stamped
    ((store (sub_field ow_f pid_f) (self_pid o) ≫= fun _ => Ret true) ≫= after_claim n)
| sp_enter : sender_phase (Holding false)
    (start_sending i ≫= fun _ => stop_sending i ≫= fun _ => release_sole_owner o ow_f ≫= fun _ => Ret tt)
| sp_leave : sender_phase (Holding true)
    (stop_sending i ≫= fun _ => release_sole_owner o ow_f ≫= fun _ => Ret tt)
| sp_release : sender_phase Releasing (release_sole_owner o ow_f ≫= fun _ => Ret tt)
| sp_unstamp : sender_phase Unstamping
    ((store (sub_field ow_f start_tok_f) 0 ≫= fun _ =>
      compare_exchange (sub_field ow_f pid_f) (self_pid o) 0 ≫= fun _ => Ret tt) ≫= fun _ => Ret tt)
| sp_drop : sender_phase Dropping
    ((compare_exchange (sub_field ow_f pid_f) (self_pid o) 0 ≫= fun _ => Ret tt) ≫= fun _ => Ret tt)
| sp_gone : sender_phase Gone (Ret tt).

Inductive sender_effect : owner_world -> owner_world -> stage -> stage -> Prop :=
| se_retry w st : active st = false -> st <> Gone -> (forall c, st = ReadPid c -> is_process_alive o c (so_start_tok (ow_rec w)) = true) ->
    sender_effect w w st Trying
| se_read w : so_pid (ow_rec w) <> 0 -> so_pid (ow_rec w) <> OWNER_CLAIMING ->
    sender_effect w w Trying (ReadPid (so_pid (ow_rec w)))
| se_free w : sender_effect w w Trying (Judged 0)
| se_judge w c : is_process_alive o c (so_start_tok (ow_rec w)) = false ->
    sender_effect w w (ReadPid c) (Judged c)
| se_claim w c : so_pid (ow_rec w) = c ->
    sender_effect w (fset (sub_field ow_f pid_f) OWNER_CLAIMING w) (Judged c) Claiming
| se_stamp w : sender_effect w (fset (sub_field ow_f start_tok_f) (start_token o (self_pid o)) w) Claiming Stamped
| se_publish w : sender_effect w (fset (sub_field ow_f pid_f) (self_pid o) w) Stamped (Holding false)
| se_enter w : sender_effect w (mk_owner_world (ow_rec w) ({[i]} ∪ ow_inside w)) (Holding false) (Holding true)
| se_leave w : sender_effect w (mk_owner_world (ow_rec w) (ow_inside w ∖ {[i]})) (Holding true) Releasing
| se_release w : sender_effect w w Releasing Unstamping
| se_lost w st : so_pid (ow_rec w) <> self_pid o -> st = Releasing \/ st = Dropping -> sender_effect w w st Gone
| se_unstamp w : sender_effect w (fset (sub_field ow_f start_tok_f) 0 w) Unstamping Dropping
| se_drop w : so_pid (ow_rec w) = self_pid o ->
    sender_effect w (fset (sub_field ow_f pid_f) 0 w) Dropping Gone.

Lemma sender_phase_step st p p' w w' :
  sender_phase st p -> thread_step w p w' p' ->
  exists st', sender_phase st' p' /\ sender_effect w w' st st'.
Proof.
  intros Hp Hs. destruct Hp as [n|n c|n c|n|n| | | | | | ].
  - destruct n as [|n]; inv_step Hs. destruct (Z.eqb_spec (so_pid (ow_rec w)) OWNER_CLAIMING) as [E|E]; simpl.
    + exists Trying. split; [apply sp_try|by apply se_retry].
    + destruct (Z.eqb_spec (so_pid (ow_rec w)) 0) as [E0|E0]; simpl.
      * exists (Judged 0). split; [rewrite E0; apply (sp_cas n 0)|constructor].
      * eexists. split; [apply (sp_tok n)|by constructor].
  - inv_step Hs. destruct (is_process_alive o c _) eqn:E; simpl.
    + exists Trying. split; [apply sp_try|]. apply se_retry; [done|done|]. intros c' ?. by simplify_eq.
    + exists (Judged c). split; [apply (sp_cas n)|by constructor].
  - inv_step Hs. destruct (Z.eqb_spec (so_pid (ow_rec w)) c) as [E|E]; simpl.
    + exists Claiming. split; [apply (sp_stamp n)|by constructor].
    + exists Trying. split; [apply sp_try|by apply se_retry].
  - inv_step Hs. exists Stamped. split; [apply (sp_publish n)|constructor].
  - inv_step Hs. exists (Holding false). split; [apply sp_enter|constructor].
  - inv_step Hs. exists (Holding true). split; [apply sp_leave|constructor].
  - inv_step Hs. exists Releasing. split; [apply sp_release|constructor].
  - inv_step Hs. destruct (Z.eqb_spec (so_pid (ow_rec w)) (self_pid o)) as [E|E]; simpl.
    + exists Unstamping. split; [apply sp_unstamp|constructor].
    + exists Gone. split; [apply sp_gone|apply se_lost; auto].
  - inv_step Hs. exists Dropping. split; [apply sp_drop|constructor].
  - inv_step Hs. exists Gone. destruct (Z.eqb_spec (so_pid (ow_rec w)) (self_pid o)) as [E|E]; simpl.
    + split; [apply sp_gone|by constructor].
    + split; [apply sp_gone|apply se_lost; auto].
  - inv_step Hs.
Qed.

End exclusive.

(** The pid of a process is in the record, or was there and was withdrawn. *)
Definition published (st : stage) : bool :=
  match st with Holding _ | Releasing | Unstamping | Dropping | Gone => true | _ => false end.

Lemma published_step i o w w' st st' : sender_effect i o w w' st st' -> published st = true -> published st' = true.
Proof. intros He. destruct He; simpl; try done. by destruct st. Qed.

Lemma published_active st : published st = true -> st <> Gone -> active st = true.
Proof. by destruct st. Qed.

Lemma alive_without_token o p t : is_process_alive o p t = true -> is_process_alive o p 0 = true.
Proof.
  unfold is_process_alive. destruct (p <=? 0); [done|]. destruct (os_kill o p) as [e|]; simpl.
  - destruct (e =? ESRCH); [done|]. by destruct (is_zombie o p).
  - by destruct (is_zombie o p).
Qed.

Section sole_owner.
Context (procs : list os).
Hypothesis pids_positive : forall k o, procs !! k = Some o -> 0 < self_pid o.
Hypothesis pids_distinct : forall k k' o o', procs !! k = Some o -> procs !! k' = Some o' ->
  self_pid o = self_pid o' -> k = k'.
Hypothesis all_alive : forall k k' o o', procs !! k = Some o -> procs !! k' = Some o' ->
  is_process_alive o (self_pid o') (start_token o' (self_pid o')) = true.

Record owner_ok (w : owner_world) (sts : list stage) : Prop := {
  oo_unique : forall j j' st st', sts !! j = Some st -> sts !! j' = Some st' ->
    active st = true -> active st' = true -> j = j';
  oo_shown : forall j st o, sts !! j = Some st -> procs !! j = Some o -> active st = true ->
    so_pid (ow_rec w) = shown_pid o st /\ shown_tok o st (so_start_tok (ow_rec w));
  oo_free : (forall j st, sts !! j = Some st -> active st = false) -> so_pid (ow_rec w) = 0;
  oo_read : forall j c, sts !! j = Some (ReadPid c) ->
    exists k o st, procs !! k = Some o /\ sts !! k = Some st /\ c = self_pid o /\ published st = true;
  oo_judged : forall j c, sts !! j = Some (Judged c) -> c = 0 \/
    exists k o, procs !! k = Some o /\ sts !! k = Some Gone /\ c = self_pid o;
  oo_inside : forall j, j ∈ ow_inside w <-> sts !! j = Some (Holding true);
}.

(** Either nobody is active and the record is free, or exactly one is. *)
Lemma owner_cases w sts : length sts = length procs -> owner_ok w sts ->
  (forall j st, sts !! j = Some st -> active st = false) \/
  exists k st o, sts !! k = Some st /\ procs !! k = Some o /\ active st = true.
Proof.
  intros Hlen Hok. destruct (decide (Exists (fun st => active st = true) sts)) as [He|Hn].
  - right. apply Exists_exists in He as (st & Hin & Ha). apply list_elem_of_lookup in Hin as [k Hk].
    destruct (lookup_lt_is_Some_2 procs k) as [o Ho]; [rewrite <- Hlen; by eapply lookup_lt_Some|].
    by exists k, st, o.
  - left. intros j st Hj. destruct (active st) eqn:Ha; [|done]. exfalso. apply Hn.
    apply Exists_exists. exists st. split; [by eapply list_elem_of_lookup_2|done].
Qed.

(** A pid found in the record is the published pid of an active process. *)
Lemma record_pid w sts : length sts = length procs -> owner_ok w sts ->
  so_pid (ow_rec w) <> 0 -> so_pid (ow_rec w) <> OWNER_CLAIMING ->
  exists k st o, sts !! k = Some st /\ procs !! k = Some o /\ active st = true /\ published st = true /\
    so_pid (ow_rec w) = self_pid o.
Proof.
  intros Hlen Hok H0 Hc. destruct (owner_cases w sts Hlen Hok) as [Hn|(k & st & o & Hk & Ho & Ha)].
  - by destruct H0; apply (oo_free w sts Hok).
  - exists k, st, o. destruct (oo_shown w sts Hok k st o Hk Ho Ha) as [Hp _]. rewrite Hp in Hc.
    repeat split; try done; by destruct st.
Qed.

(** Only a free record can be claimed by a process that judged it claimable. *)
Lemma claim_only_free w sts j c : length sts = length procs -> owner_ok w sts ->
  sts !! j = Some (Judged c) -> so_pid (ow_rec w) = c ->
  forall k st, sts !! k = Some st -> active st = false.
Proof.
  intros Hlen Hok Hj Hpid k st Hk. destruct (active st) eqn:Ha; [|done]. exfalso.
  destruct (lookup_lt_is_Some_2 procs k) as [o Ho]; [rewrite <- Hlen; by eapply lookup_lt_Some|].
  destruct (oo_shown w sts Hok k st o Hk Ho Ha) as [Hp _]. pose proof (pids_positive k o Ho) as Hpos.
  destruct (oo_judged w sts Hok j c Hj) as [->|(k' & o' & Ho' & Hk' & ->)].
  - unfold OWNER_CLAIMING in *. destruct st; simpl in Hp; unfold OWNER_CLAIMING in Hp; try done; lia.
  - pose proof (pids_positive k' o' Ho') as Hpos'.
    assert (self_pid o = self_pid o') as E.
    { rewrite Hpid in Hp. destruct st; simpl in Hp; unfold OWNER_CLAIMING in Hp; try done; lia. }
    pose proof (pids_distinct k k' o o' Ho Ho' E) as ->. by simplify_eq.
Qed.

(** A process whose published pid looks dead has withdrawn it. *)
Lemma judged_is_gone w sts i oi c : owner_ok w sts -> procs !! i = Some oi ->
  sts !! i = Some (ReadPid c) -> is_process_alive oi c (so_start_tok (ow_rec w)) = false ->
  exists k o, procs !! k = Some o /\ sts !! k = Some Gone /\ c = self_pid o.
Proof.
  intros Hok Hi Hr Hd. destruct (oo_read w sts Hok i c Hr) as (k & o & st & Ho & Hk & -> & Hp).
  exists k, o. split; [done|]. split; [|done]. destruct (decide (st = Gone)) as [->|Hne]; [done|]. exfalso.
  pose proof (published_active st Hp Hne) as Ha.
  destruct (oo_shown w sts Hok k st o Hk Ho Ha) as [_ Ht].
  pose proof (all_alive i k oi o Hi Ho) as Hal.
  destruct st; try done; simpl in Ht; rewrite Ht in Hd; try congruence.
  apply alive_without_token in Hal. congruence.
Qed.

Lemma stage_insert (sts : list stage) i st st' j x :
  sts !! i = Some st -> <[i := st']> sts !! j = Some x ->
  (j = i /\ x = st') \/ (j <> i /\ sts !! j = Some x).
Proof.
  intros Hi Hx. apply list_lookup_insert_Some in Hx as [(<- & <- & _)|[? Hx]]; [by left|right; done].
Qed.

(** Who is active after a step: the mover, unless it left, or whoever was. *)
Lemma active_step i o w w' sts st st' :
  length sts = length procs -> owner_ok w sts -> sts !! i = Some st -> sender_effect i o w w' st st' ->
  forall j x, <[i := st']> sts !! j = Some x -> active x = true ->
    (j = i /\ x = st' /\ forall k y, sts !! k = Some y -> active y = true -> k = i) \/
    (j <> i /\ sts !! j = Some x /\ active st = false /\ active st' = false).
Proof.
  intros Hlen Hok Hi He j x Hx Ha.
  assert (active st' = true -> forall k y, sts !! k = Some y -> active y = true -> k = i) as Honly.
  { intros Ha' k y Hk Hy. destruct (active st) eqn:Hst; [by eapply (oo_unique w sts Hok k i y st)|].
    destruct He; simpl in *; try done. by rewrite (claim_only_free w sts i c Hlen Hok Hi H k y Hk) in Hy. }
  destruct (stage_insert sts i st st' j x Hi Hx) as [[-> ->]|[Hne Hj]].
  - left. split; [done|]. split; [done|]. by apply Honly.
  - right. split; [done|]. split; [done|]. split.
    + destruct (active st) eqn:Hst; [|done]. by pose proof (oo_unique w sts Hok j i x st Hj Hi Ha Hst).
    + destruct (active st') eqn:Hst; [|done]. by pose proof (Honly eq_refl j x Hj Ha).
Qed.

(** The record shows the active process after a step. *)
Lemma shown_step i o w w' sts st st' :
  length sts = length procs -> owner_ok w sts -> sts !! i = Some st -> procs !! i = Some o ->
  sender_effect i o w w' st st' ->
  forall j x oj, <[i := st']> sts !! j = Some x -> procs !! j = Some oj -> active x = true ->
    so_pid (ow_rec w') = shown_pid oj x /\ shown_tok oj x (so_start_tok (ow_rec w')).
Proof.
  intros Hlen Hok Hi Ho He j x oj Hx Hoj Ha.
  destruct (active_step i o w w' sts st st' Hlen Hok Hi He j x Hx Ha) as [(-> & -> & _)|(Hne & Hj & Hs & Hs')].
  - assert (oj = o) as -> by congruence. pose proof (oo_shown w sts Hok i st o Hi Ho) as Hsh.
    destruct He; simpl in *; try done; try (destruct (Hsh eq_refl) as [E1 E2]; rewrite ?E1, ?E2; done).
  - pose proof (oo_shown w sts Hok j x oj Hj Hoj Ha) as Hsh.
    destruct He; simpl in *; try done.
Qed.

Lemma free_step i o w w' sts st st' :
  length sts = length procs -> owner_ok w sts -> sts !! i = Some st -> procs !! i = Some o ->
  sender_effect i o w w' st st' ->
  (forall j x, <[i := st']> sts !! j = Some x -> active x = false) -> so_pid (ow_rec w') = 0.
Proof.
  intros Hlen Hok Hi Ho He Hall.
  assert (i < length sts)%nat as Hlt by (by eapply lookup_lt_Some).
  assert (active st' = false) as Hs' by (apply (Hall i); by rewrite list_lookup_insert_eq).
  destruct (active st) eqn:Hs.
  - pose proof (oo_shown w sts Hok i st o Hi Ho Hs) as [E _].
    destruct He as [| | | | | | | | | |w st Hne [-> | ->]| |]; simpl in *; done || congruence.
  - assert (so_pid (ow_rec w) = 0) as E; [|by destruct He].
    apply (oo_free w sts Hok). intros j x Hj. destruct (decide (j = i)) as [->|Hne]; [by simplify_eq|].
    apply (Hall j). by rewrite list_lookup_insert_ne.
Qed.

(** What claimants have read stays justified. *)
Lemma readers_step i o w w' sts st st' :
  length sts = length procs -> owner_ok w sts -> sts !! i = Some st -> procs !! i = Some o ->
  sender_effect i o w w' st st' ->
  (forall j c, <[i := st']> sts !! j = Some (ReadPid c) ->
     exists k ok x, procs !! k = Some ok /\ <[i := st']> sts !! k = Some x /\ c = self_pid ok /\ published x = true) /\
  (forall j c, <[i := st']> sts !! j = Some (Judged c) -> c = 0 \/
     exists k ok, procs !! k = Some ok /\ <[i := st']> sts !! k = Some Gone /\ c = self_pid ok).
Proof.
  intros Hlen Hok Hi Ho He. assert (i < length sts)%nat as Hlt by (by eapply lookup_lt_Some).
  assert (forall k x, sts !! k = Some x -> published x = true ->
            exists y, <[i := st']> sts !! k = Some y /\ published y = true /\ (x = Gone -> y = Gone)) as Hpub.
  { intros k x Hk Hp. destruct (decide (k = i)) as [->|Hne].
    - exists st'. rewrite list_lookup_insert_eq by done. simplify_eq.
      split; [done|]. split; [by eapply published_step|]. intros ->. inversion He; destruct_or?; simplify_eq.
    - exists x. rewrite list_lookup_insert_ne by done. done. }
  split; intros j c Hj; destruct (stage_insert sts i st st' j _ Hi Hj) as [[-> E]|[Hne Hj']].
  - subst st'. inversion He; subst.
    destruct (record_pid w' sts Hlen Hok) as (k & x & ok & Hk & Hok' & _ & Hp & E); [done..|].
    destruct (Hpub k x Hk Hp) as (y & Hy & Hpy & _). by exists k, ok, y.
  - destruct (oo_read w sts Hok j c Hj') as (k & ok & x & Hok' & Hk & -> & Hp).
    destruct (Hpub k x Hk Hp) as (y & Hy & Hpy & _). by exists k, ok, y.
  - subst st'. inversion He; subst; [by left|]. right.
    destruct (judged_is_gone w' sts i o c Hok Ho Hi) as (k & ok & Hok' & Hk & ->); [done|].
    destruct (Hpub k Gone Hk eq_refl) as (y & Hy & _ & Hg). exists k, ok. by rewrite <- (Hg eq_refl).
  - destruct (oo_judged w sts Hok j c Hj') as [->|(k & ok & Hok' & Hk & ->)]; [by left|right].
    destruct (Hpub k Gone Hk eq_refl) as (y & Hy & _ & Hg). exists k, ok. by rewrite <- (Hg eq_refl).
Qed.

Lemma inside_step i o w w' sts st st' :
  owner_ok w sts -> sts !! i = Some st -> sender_effect i o w w' st st' ->
  forall j, j ∈ ow_inside w' <-> <[i := st']> sts !! j = Some (Holding true).
Proof.
  intros Hok Hi He j. assert (i < length sts)%nat as Hlt by (by eapply lookup_lt_Some).
  pose proof (oo_inside w sts Hok j) as Hj. destruct (decide (j = i)) as [->|Hne].
  - rewrite list_lookup_insert_eq by done. rewrite Hi in Hj. destruct He; simpl; rewrite ?Hj;
      try (split; intros; simplify_eq; done); mem_solver.
  - rewrite list_lookup_insert_ne by done. rewrite <- Hj. destruct He; simpl; try done; mem_solver.
Qed.

Lemma owner_ok_step i o w w' sts st st' :
  length sts = length procs -> owner_ok w sts -> sts !! i = Some st -> procs !! i = Some o ->
  sender_effect i o w w' st st' -> owner_ok w' (<[i := st']> sts).
Proof.
  intros Hlen Hok Hi Ho He. destruct (readers_step i o w w' sts st st') as [Hr Hj]; try done.
  split; try done; [|by eapply shown_step|by eapply free_step|by eapply inside_step].
  intros j j' x x' Hx Hx' Ha Ha'. pose proof (active_step i o w w' sts st st' Hlen Hok Hi He) as Hact.
  destruct (Hact j x Hx Ha) as [(-> & -> & H1)|(Hne & Hj1 & Hs & Hs')],
    (Hact j' x' Hx' Ha') as [(-> & -> & H2)|(Hne' & Hj2 & Hs2 & Hs2')]; try congruence.
  by eapply (oo_unique w sts Hok).
Qed.

Definition owner_inv (w : owner_world) (ps : list (prog owner_world unit)) : Prop :=
  exists sts, length sts = length procs /\ length ps = length procs /\ owner_ok w sts /\
    forall j p o st, ps !! j = Some p -> procs !! j = Some o -> sts !! j = Some st -> sender_phase j o st p.

Lemma owner_inv_step w ps i p w' p' :
  owner_inv w ps -> ps !! i = Some p -> thread_step w p w' p' -> owner_inv w' (<[i := p']> ps).
Proof.
  intros (sts & Hlen & Hlen' & Hok & Hph) Hp Hs. assert (i < length procs)%nat as Hlt.
  { rewrite <- Hlen'. by eapply lookup_lt_Some. }
  destruct (lookup_lt_is_Some_2 procs i Hlt) as [o Ho].
  destruct (lookup_lt_is_Some_2 sts i) as [st Hst]; [lia|].
  destruct (sender_phase_step i o st p p' w w') as (st' & Hph' & He); [by eapply Hph|done|].
  exists (<[i := st']> sts). rewrite !length_insert. split; [done|]. split; [done|].
  split; [by eapply owner_ok_step|]. intros j q oj x Hq Hoj Hx. destruct (decide (j = i)) as [->|Hne].
  - rewrite list_lookup_insert_eq in Hq by lia. rewrite list_lookup_insert_eq in Hx by lia. by simplify_eq.
  - rewrite list_lookup_insert_ne in Hq by done. rewrite list_lookup_insert_ne in Hx by done. by eapply Hph.
Qed.

Lemma owner_inv_init tries : owner_inv free_record (imap (sender false tries) procs).
Proof.
  exists ((fun _ => Trying) <$> procs). rewrite length_fmap, length_imap. split; [done|]. split; [done|].
  assert (forall j st, ((fun _ => Trying) <$> procs) !! j = Some st -> st = Trying) as Htry.
  { intros j st Hj. rewrite list_lookup_fmap in Hj. by destruct (procs !! j); simplify_eq/=. }
  split.
  - split.
    + intros j j' st st' Hj _ Ha. by rewrite (Htry j st Hj) in Ha.
    + intros j st o Hj _ Ha. by rewrite (Htry j st Hj) in Ha.
    + done.
    + intros j c Hj. by apply Htry in Hj.
    + intros j c Hj. by apply Htry in Hj.
    + intros j. split; [set_solver|]. intros Hj. by apply Htry in Hj.
  - intros j p o st Hp Ho Hst. rewrite (Htry j st Hst). rewrite list_lookup_imap, Ho in Hp.
    simplify_eq/=. apply sp_try.
Qed.

(** C15: among live processes that each win the record at most once, however their
    accesses interleave, at most one is the sender, and while it is, the record shows its pid
    and its token. *)
Theorem sole_owner_exclusive tries w' ps' :
  pool_reach (free_record, imap (sender false tries) procs) (w', ps') ->
  (forall i j, i ∈ ow_inside w' -> j ∈ ow_inside w' -> i = j) /\
  (forall i o, i ∈ ow_inside w' -> procs !! i = Some o ->
     so_pid (ow_rec w') = self_pid o /\ so_start_tok (ow_rec w') = start_token o (self_pid o)).
Proof.
  intros Hr. assert (owner_inv w' ps') as (sts & Hlen & _ & Hok & _).
  { eapply (pool_invariant owner_inv); [apply owner_inv_init| |exact Hr].
    intros. by eapply owner_inv_step. }
  split.
  - intros i j Hi%(oo_inside w' sts Hok) Hj%(oo_inside w' sts Hok). by eapply (oo_unique w' sts Hok).
  - intros i o Hi%(oo_inside w' sts Hok) Ho. by apply (oo_shown w' sts Hok i (Holding true) o).
Qed.

End sole_owner.

Lemma sole_owner_exclusive_witness :
  let procs := three_os <$> [1; 2; 3] in
  let c := run_sched (repeat (1%nat, false) 5 ++ repeat (0%nat, false) 4 ++ repeat (2%nat, false) 4)
             (free_record, imap (sender false 3) procs) in
  1%nat ∈ ow_inside c.1 /\ (forall i j, i ∈ ow_inside c.1 -> j ∈ ow_inside c.1 -> i = j).
Proof.
  intros procs c. split; [by vm_compute|].
  assert (forall k o, procs !! k = Some o -> o = three_os 1 /\ k = 0%nat \/ o = three_os 2 /\ k = 1%nat \/
            o = three_os 3 /\ k = 2%nat) as Hp.
  { intros [|[|[|k]]] o Hk; simplify_eq/=; auto. }
  apply (sole_owner_exclusive procs) with (tries := 3%nat) (ps' := c.2).
  - intros k o [[-> _]|[[-> _]|[-> _]]]%Hp; simpl; lia.
  - intros k k' o o' [[-> ->]|[[-> ->]|[-> ->]]]%Hp [[-> ->]|[[-> ->]|[-> ->]]]%Hp; simpl; congruence || lia.
  - intros k k' o o' [[-> _]|[[-> _]|[-> _]]]%Hp [[-> _]|[[-> _]|[-> _]]]%Hp; reflexivity.
  - apply run_sched_reach.
Defined.

(** ** One claim at a time *)

Definition rec_f : field SlotOwner SlotOwner := mk_field id (fun v _ => v).

Definition refused (o : os) (r : SlotOwner) : bool :=
  (so_pid r =? OWNER_CLAIMING) || (negb (so_pid r =? 0) && is_process_alive o (so_pid r) (so_start_tok r)).

Section record.
Context {S : Type} (ow : field S SlotOwner) `{!LawfulField ow}.

Lemma claim_runs_at o n s :
  runs n (claim_sole_owner o ow) s (fun ok s' =>
    let r := fget ow s in
    ok = negb (refused o r) /\
    s' = if refused o r then s else fset ow (mk_SlotOwner (self_pid o) (so_since r) (start_token o (self_pid o))) s).
Proof.
  unfold claim_sole_owner, refused. run_step. cbn [fget sub_field pid_f].
  assert (forall c, so_pid (fget ow s) = c ->
    runs n (r ← compare_exchange (sub_field ow pid_f) c OWNER_CLAIMING;
            match r with
            | Err _ => Ret false
            | Ok _ => _ ← store (sub_field ow start_tok_f) (start_token o (self_pid o));
                      _ ← store (sub_field ow pid_f) (self_pid o); Ret true
            end) s (fun ok s' => ok = true /\
      s' = fset ow (mk_SlotOwner (self_pid o) (so_since (fget ow s)) (start_token o (self_pid o))) s)) as Htake.
  { intros c Ec. run_step. cbn [fget fset sub_field pid_f]. rewrite Ec, Z.eqb_refl. cbn [fst snd]. run_step. run_step.
    run_step. split; [done|]. simpl. rewrite !get_set. simpl. by rewrite !set_set. }
  destruct (Z.eqb_spec (so_pid (fget ow s)) OWNER_CLAIMING) as [E|E]; cbn [orb negb]; [by run_step|].
  destruct (Z.eqb_spec (so_pid (fget ow s)) 0) as [E0|E0]; cbn [negb andb].
  - run_step. by apply Htake.
  - run_step. run_step. run_step. cbn [fget sub_field start_tok_f].
    destruct (is_process_alive o _ _); cbn [negb]; [by run_step|by apply Htake].
Qed.

Lemma release_runs_at o n s :
  runs n (release_sole_owner o ow) s (fun _ s' =>
    let r := fget ow s in
    s' = if so_pid r =? self_pid o then fset ow (mk_SlotOwner 0 (so_since r) 0) s else s).
Proof.
  unfold release_sole_owner. run_step. cbn [fget sub_field pid_f].
  destruct (Z.eqb_spec (so_pid (fget ow s)) (self_pid o)) as [E|E]; cbn [negb]; [|by run_step].
  run_step. run_step. cbn [fget fset sub_field pid_f start_tok_f]. rewrite get_set. cbn [so_pid]. rewrite E, Z.eqb_refl. simpl.
  run_step. rewrite ?get_set. simpl. by rewrite ?set_set.
Qed.

End record.

#[local] Instance rec_lawful : LawfulField rec_f. Proof. split; by intros. Qed.

Lemma claim_runs o n r :
  runs n (claim_sole_owner o rec_f) r (fun ok r' =>
    ok = negb (refused o r) /\
    r' = if refused o r then r else mk_SlotOwner (self_pid o) (so_since r) (start_token o (self_pid o))).
Proof. exact (claim_runs_at rec_f o n r). Qed.

Lemma release_runs o n r :
  runs n (release_sole_owner o rec_f) r (fun _ r' =>
    r' = if so_pid r =? self_pid o then mk_SlotOwner 0 (so_since r) 0 else r).
Proof. exact (release_runs_at rec_f o n r). Qed.

Lemma claim_eval o r : eval (claim_sole_owner o rec_f) r = Some (negb (refused o r),
  if refused o r then r else mk_SlotOwner (self_pid o) (so_since r) (start_token o (self_pid o))).
Proof. by destruct (runs_eval _ _ _ (claim_runs o 1 r)) as (ok & r' & -> & -> & ->). Qed.

Lemma release_eval o r : eval (release_sole_owner o rec_f) r =
  Some (tt, if so_pid r =? self_pid o then mk_SlotOwner 0 (so_since r) 0 else r).
Proof. by destruct (runs_eval _ _ _ (release_runs o 1 r)) as ([] & r' & -> & ->). Qed.

(** A claim run alone is refused exactly when another claim is in flight or the
    recorded holder is not known to be gone, leaving the record as it was; otherwise it
    records this process's pid and token.  Releasing a record this process holds frees it;
    releasing one it does not hold does nothing. *)
Theorem claim_release_spec o n r :
  runs n (claim_sole_owner o rec_f) r (fun ok r' =>
    ok = negb (refused o r) /\
    r' = if refused o r then r else mk_SlotOwner (self_pid o) (so_since r) (start_token o (self_pid o))) /\
  runs n (release_sole_owner o rec_f) r (fun _ r' =>
    r' = if so_pid r =? self_pid o then mk_SlotOwner 0 (so_since r) 0 else r).
Proof. split; [apply claim_runs | apply release_runs]. Qed.

(** ** The conformance probe *)

Definition DEAD_PID : Z := 0x7ffffffe.

Definition probe_dump (me my_tok : Z) (step : string) (ok : option bool) (r : SlotOwner) : string :=
  let pid := so_pid r in
  let tok := so_start_tok r in
  let p := if negb (pid =? 0) && (pid =? me) then "self" else pretty pid in
  let t := if negb (tok =? 0) && (tok =? my_tok) then "self" else pretty tok in
  let ok := match ok with None => "-" | Some true => "1" | Some false => "0" end in
  "step=" +:+ step +:+ " ok=" +:+ ok +:+ " pid=" +:+ p +:+ " tok=" +:+ t.

Definition conform_sole_owner (o : os) : option (list string) :=
  let me := self_pid o in
  let my_tok := start_token o me in
  let dump := probe_dump me my_tok in
  let set pid tok (r : SlotOwner) := mk_SlotOwner pid (so_since r) tok in
  let r0 := mk_SlotOwner 0 0 0 in
  '(ok1, r1) ← eval (claim_sole_owner o rec_f) r0;
  '(ok2, r2) ← eval (claim_sole_owner o rec_f) r1;
  '(_, r3) ← eval (release_sole_owner o rec_f) r2;
  let r4 := set 1 0 r3 in
  '(ok5, r5) ← eval (claim_sole_owner o rec_f) r4;
  '(_, r6) ← eval (release_sole_owner o rec_f) r5;
  let r7 := set OWNER_CLAIMING 0 r6 in
  '(ok8, r8) ← eval (claim_sole_owner o rec_f) r7;
  let r9 := set DEAD_PID 12345 r8 in
  '(ok10, r10) ← eval (claim_sole_owner o rec_f) r9;
  let r11 := set me (my_tok + 1) r10 in
  '(ok12, r12) ← eval (claim_sole_owner o rec_f) r11;
  Some [dump "zeroed" None r0; dump "claim-free" (Some ok1) r1; dump "claim-held-by-self" (Some ok2) r2;
        dump "release" None r3; dump "claim-legacy-flag" (Some ok5) r5; dump "release-not-owner" None r6;
        dump "claim-in-flight" (Some ok8) r8; dump "claim-dead-holder" (Some ok10) r10;
        dump "claim-reused-pid" (Some ok12) r12].

(** The demo system with an init process. *)
Definition probe_os : os := {|
  os_apple := true; os_getpid := 7;
  os_kill := fun pid => if (pid =? 7) || (pid =? 1) then None else Some ESRCH;
  os_proc_stat := fun _ => None;
  os_bsdinfo := fun pid => if pid =? 7 then Some (0, 42) else None;
  os_p_stat := fun pid => Some 2;
|}.

(** On any system where this process can see itself and process 1 alive, with a start token,
    and where the pid [0x7ffffffe] does not exist, the sole-owner probe prints the trace the
    ports agree on: granted when free, refused to a live holder (itself included), to a
    legacy flag byte and to a claim in flight, granted over a dead holder and a reused pid. *)
Theorem conform_sole_owner_trace o :
  1 < self_pid o -> self_pid o <> DEAD_PID -> start_token o (self_pid o) <> 0 ->
  is_process_alive o (self_pid o) (start_token o (self_pid o)) = true ->
  is_process_alive o 1 0 = true -> is_process_alive o DEAD_PID 12345 = false ->
  start_token o (self_pid o) + 1 <> 0 ->
  conform_sole_owner o = Some
    ["step=zeroed ok=- pid=0 tok=0"; "step=claim-free ok=1 pid=self tok=self";
     "step=claim-held-by-self ok=0 pid=self tok=self"; "step=release ok=- pid=0 tok=0";
     "step=claim-legacy-flag ok=0 pid=1 tok=0"; "step=release-not-owner ok=- pid=1 tok=0";
     "step=claim-in-flight ok=0 pid=-1 tok=0"; "step=claim-dead-holder ok=1 pid=self tok=self";
     "step=claim-reused-pid ok=1 pid=self tok=self"].
Proof.
  intros Hpid Hdp Htok Hself H1 Hdead Ht1. set (me := self_pid o) in *. set (t := start_token o me) in *.
  assert (is_process_alive o me (t + 1) = false) as Hreuse.
  { destruct (is_process_alive o me (t + 1)) eqn:E; [|done]. exfalso. revert Hself E.
    unfold is_process_alive. fold t. destruct (me <=? 0); [done|].
    destruct (negb _); [done|]. destruct (is_zombie o me); [done|].
    destruct (Z.eqb_spec t 0), (Z.eqb_spec (t + 1) 0), (Z.eqb_spec t (t + 1)); done || lia. }
  assert (forall r, refused o r = (so_pid r =? OWNER_CLAIMING) ||
            (negb (so_pid r =? 0) && is_process_alive o (so_pid r) (so_start_tok r))) as Hr by done.
  assert ((me =? OWNER_CLAIMING) = false) as E1 by (apply Z.eqb_neq; unfold OWNER_CLAIMING; lia).
  assert ((me =? 0) = false) as E2 by (apply Z.eqb_neq; lia).
  assert ((t =? 0) = false) as E3 by (by apply Z.eqb_neq).
  assert ((1 =? me) = false) as E4 by (apply Z.eqb_neq; lia).
  assert ((OWNER_CLAIMING =? me) = false) as E5 by (apply Z.eqb_neq; unfold OWNER_CLAIMING; lia).
  unfold conform_sole_owner. fold me. fold t.
  repeat (rewrite ?claim_eval, ?release_eval; fold me; fold t; rewrite ?Hr;
    cbn [mbind option_bind so_pid so_start_tok so_since];
    rewrite ?E1, ?E2, ?Hself, ?H1, ?Hdead, ?Hreuse, ?E4, ?Z.eqb_refl; simpl).
  unfold probe_dump. cbn [so_pid so_start_tok so_since].
  rewrite ?Z.eqb_refl, ?E1, ?E2, ?E3, ?E4, ?E5. vm_compute. reflexivity.
Qed.

Lemma conform_sole_owner_trace_witness : exists l, conform_sole_owner probe_os = Some l /\ length l = 9%nat.
Proof.
  eexists. split; [apply conform_sole_owner_trace; done || reflexivity | reflexivity].
Defined.

(** ** Parsing [/proc/<pid>/stat] *)











