(* ===== verification/ChunkStorage.v ===== *)
(** * Chunk storage for large messages

    [chunk_storage.rs]: a segment of [MAX_COUNT] chunks of one size, handed out
    by a free list of ids threaded through the segment header ([ChunkInfo]).  A
    sender acquires a chunk and stamps the receivers that must read it; each
    receiver recycles it by clearing its bit, and the last one releases the id. *)
From Stdlib Require Import Ascii.
From S2P Require Import Prelude Atomics Locks Abi ShmName.

Definition MAX_COUNT : Z := large_msg_cache.
Definition CHUNK_ALIGN : Z := large_msg_align.
Definition CHUNK_HEADER (t : target) : Z := chunk_header_size t.

(** ** The id pool *)

Record ChunkInfo := mk_ChunkInfo { next_ : list Z; cursor_ : Z; prepared_ : Z; lock_ : Z }.

Definition zeroed : ChunkInfo := mk_ChunkInfo (replicate (Z.to_nat MAX_COUNT) 0) 0 0 0.

Definition shm_size (chunk_size : Z) : Z := l_size ChunkInfo_layout + MAX_COUNT * chunk_size.

Definition prepare (p : ChunkInfo) : ChunkInfo :=
  let next' :=
    if (prepared_ p =? 0) && (cursor_ p =? 0) && forallb (fun b => b =? 0) (next_ p)
    then (fun i => i + 1) <$> seqZ 0 MAX_COUNT else next_ p in
  mk_ChunkInfo next' (cursor_ p) 1 (lock_ p).

(** The id is -1 when the pool is empty. *)
Definition acquire (p : ChunkInfo) : Z * ChunkInfo :=
  if MAX_COUNT <=? cursor_ p then (-1, p)
  else
    let id := cursor_ p in
    (id, mk_ChunkInfo (next_ p) (next_ p !!! Z.to_nat id) (prepared_ p) (lock_ p)).

Definition release (id : Z) (p : ChunkInfo) : ChunkInfo :=
  if (id <? 0) || (MAX_COUNT <=? id) then p
  else mk_ChunkInfo (<[Z.to_nat id := cursor_ p]> (next_ p)) id (prepared_ p) (lock_ p).

(** ** Chunk size and position *)

Definition calc_chunk_size (t : target) (size : Z) : Z :=
  let x := CHUNK_HEADER t + size in (x + CHUNK_ALIGN - 1) `div` CHUNK_ALIGN * CHUNK_ALIGN.

(** Byte offsets in the mapping. *)
Definition chunk_conns_ptr (chunk_size id : Z) : Z := l_size ChunkInfo_layout + chunk_size * id.

Definition chunk_payload_ptr (t : target) (chunk_size id : Z) : Z :=
  l_size ChunkInfo_layout + chunk_size * id + CHUNK_HEADER t.

(** ** A segment

    The header, and per chunk its [conns] word and its payload bytes. *)
Record chunk_seg := mk_chunk_seg { cg_info : ChunkInfo; cg_conns : gmap Z Z; cg_payload : gmap Z (list Z) }.

Definition fresh_seg : chunk_seg := mk_chunk_seg zeroed ∅ ∅.
#[export] Instance chunk_seg_inhabited : Inhabited chunk_seg := populate fresh_seg.

Definition info_f : field chunk_seg ChunkInfo :=
  mk_field cg_info (fun v s => mk_chunk_seg v (cg_conns s) (cg_payload s)).
Definition conns_f : field chunk_seg (gmap Z Z) :=
  mk_field cg_conns (fun v s => mk_chunk_seg (cg_info s) v (cg_payload s)).
Definition payload_f : field chunk_seg (gmap Z (list Z)) :=
  mk_field cg_payload (fun v s => mk_chunk_seg (cg_info s) (cg_conns s) v).
Definition lock_f : field ChunkInfo Z :=
  mk_field lock_ (fun v p => mk_ChunkInfo (next_ p) (cursor_ p) (prepared_ p) v).

#[export] Instance info_f_lawful : LawfulField info_f. Proof. split; by intros. Qed.
#[export] Instance conns_f_lawful : LawfulField conns_f. Proof. split; by intros. Qed.

Section storage.
Context {S : Type} (seg : field S chunk_seg) (fuel : nat).

Definition seg_info : field S ChunkInfo := sub_field seg info_f.
Definition seg_conns (id : Z) : field S Z := sub_field (sub_field seg conns_f) (at_key id).

Definition chunk_lock : prog S unit := spin_acquire (sub_field seg_info lock_f) fuel 0.

Definition chunk_unlock : prog S unit := store (sub_field seg_info lock_f) 0.

(** [acquire_storage]: the id; its payload is the chunk's. *)
Definition acquire_storage (conns : Z) : prog S (option Z) :=
  _ ← chunk_lock;
  _ ← rmw seg_info prepare;
  id ← act (fun s => let '(id, p) := acquire (fget seg_info s) in (id, fset seg_info p s));
  _ ← chunk_unlock;
  if id <? 0 then Ret None
  else
    _ ← store (seg_conns id) conns;
    Ret (Some id).

(** [find_storage]: the id whose payload to read, if it is one. *)
Definition find_storage (id : Z) : option Z :=
  if (id <? 0) || (MAX_COUNT <=? id) then None else Some id.

(** The loop of [recycle_storage]: clear our bit; was it the last? *)
Fixpoint sub_rc (n : nat) (id conn_id k : Z) : prog S bool :=
  match n with
  | O => Spin
  | Datatypes.S n =>
      cur ← load (seg_conns id);
      let nxt := Z.land cur (unot 32 conn_id) in
      r ← compare_exchange_weak (seg_conns id) cur nxt;
      match r with
      | Ok _ => Ret (nxt =? 0)
      | Err _ => sub_rc n id conn_id (snd (adaptive_yield k))
      end
  end.

Definition recycle_storage (id conn_id : Z) : prog S unit :=
  if (id <? 0) || (MAX_COUNT <=? id) then Ret tt
  else
    last ← sub_rc fuel id conn_id 0;
    if (last : bool) then
      _ ← chunk_lock;
      _ ← rmw seg_info (release id);
      chunk_unlock
    else Ret tt.

End storage.

(** ** Conformance probes *)

Module conform.

Definition hex (n : nat) (v : Z) : string := to_hex_loop n v "".

Definition dump (step : string) (p : ChunkInfo) : string :=
  "step=" +:+ step +:+ " next=" +:+ String.concat "" (hex 2 <$> next_ p) +:+
  " cursor=" +:+ hex 2 (cursor_ p) +:+ " prepared=" +:+ hex 2 (prepared_ p).

Definition self_f : field chunk_seg chunk_seg := mk_field id (fun v _ => v).

Definition spinlock : option (list string) :=
  let raw s := hex 8 (lock_ (cg_info s)) in
  let s0 := fresh_seg in
  '(_, s1) ← eval (chunk_lock self_f 1) s0;
  '(_, s2) ← eval (chunk_unlock self_f) s1;
  Some ["step=init bytes=" +:+ raw s0; "step=locked bytes=" +:+ raw s1; "step=unlocked bytes=" +:+ raw s2].

Definition idpool : list string :=
  let p0 := zeroed in
  let p1 := prepare p0 in
  let '(i1, p2) := acquire p1 in
  let '(i2, p3) := acquire p2 in
  let '(i3, p4) := acquire p3 in
  let p5 := release 1 p4 in
  let '(i4, p6) := acquire p5 in
  [dump "zeroed" p0; dump "prepared" p1; "step=acquire id=" +:+ pretty i1; "step=acquire id=" +:+ pretty i2;
   "step=acquire id=" +:+ pretty i3; dump "after-acquire3" p4; dump "after-release1" p5;
   "step=acquire id=" +:+ pretty i4; dump "after-reacquire" p6].

Definition idpool_partial : list string :=
  let p := mk_ChunkInfo (<[5%nat := 7]> (next_ zeroed)) 0 0 0 in
  [dump "partial-before" p; dump "partial-after" (prepare p)].

Definition idpool_release : list string :=
  let p := mk_ChunkInfo ((fun i => i + 1) <$> seqZ 0 MAX_COUNT) 3 1 0 in
  [dump "seeded" p; dump "after-release1" (release 1 p); dump "after-release0" (release 0 (release 1 p))].

Definition SLOTS : Z := MAX_COUNT.

End conform.

(** ** The free list *)

(** [chain next c l]: following the links from [c] visits the ids [l] and stops. *)
Fixpoint chain (next : list Z) (c : Z) (l : list Z) : Prop :=
  match l with
  | [] => MAX_COUNT <= c
  | i :: l => c = i /\ 0 <= i < MAX_COUNT /\ chain next (next !!! Z.to_nat i) l
  end.

Lemma chain_insert next c l id v :
  id ∉ l -> 0 <= id < MAX_COUNT -> chain next c l -> chain (<[Z.to_nat id := v]> next) c l.
Proof.
  revert c. induction l as [|i l IH]; intros c Hn Hid; simpl; [done|]. intros (-> & Hi & Hc).
  apply not_elem_of_cons in Hn as [Hne Hn]. repeat split; try lia.
  rewrite list_lookup_total_insert_ne by lia. by apply IH.
Qed.

(** What the pool promises: an allocator of the ids below [MAX_COUNT].  [A] is
    the set of ids handed out. *)
Definition pool_of (p : ChunkInfo) (A : gset Z) : Prop :=
  exists free, length (next_ p) = Z.to_nat MAX_COUNT /\ chain (next_ p) (cursor_ p) free /\ NoDup free /\
    forall i, 0 <= i < MAX_COUNT -> (i ∈ A <-> i ∉ free).

Lemma pool_fresh : pool_of (prepare zeroed) ∅.
Proof.
  exists (seqZ 0 MAX_COUNT). split; [done|]. split; [vm_compute; intuition congruence|].
  split; [apply NoDup_seqZ|]. intros i Hi. rewrite elem_of_seqZ. split; [set_solver|lia].
Qed.

Lemma pool_prepare p A : prepared_ p <> 0 -> pool_of p A -> pool_of (prepare p) A /\ prepared_ (prepare p) = 1.
Proof.
  intros Hp H. unfold prepare. destruct (Z.eqb_spec (prepared_ p) 0); [done|]. simpl. by split.
Qed.

Lemma pool_acquire p A :
  pool_of p A ->
  (fst (acquire p) = -1 /\ snd (acquire p) = p /\ (forall i, 0 <= i < MAX_COUNT -> i ∈ A)) \/
  (0 <= fst (acquire p) < MAX_COUNT /\ (fst (acquire p) ∉ A) /\
   pool_of (snd (acquire p)) ({[fst (acquire p)]} ∪ A)).
Proof.
  intros (free & Hlen & Hc & Hnd & HA). unfold acquire. destruct free as [|i free]; simpl in Hc.
  - left. destruct (Z.leb_spec MAX_COUNT (cursor_ p)); [|lia]. repeat split; try done.
    intros i Hi. apply HA; [done|]. apply not_elem_of_nil.
  - destruct Hc as (Hci & Hi & Hc). right. destruct (Z.leb_spec MAX_COUNT (cursor_ p)); [lia|]. simpl.
    rewrite Hci. apply NoDup_cons in Hnd as [Hni Hnd]. split; [done|]. split.
    { rewrite HA by done. intros Hn. apply Hn. left. }
    exists free. simpl. repeat split; try done.
    + intros [->%elem_of_singleton|Hj]%elem_of_union; [done|]. apply HA in Hj; [|done].
      by apply not_elem_of_cons in Hj as [_ ?].
    + intros Hj. destruct (decide (i0 = i)) as [->|Hne]; [by apply elem_of_union_l, elem_of_singleton|].
      apply elem_of_union_r, HA; [done|]. by apply not_elem_of_cons.
Qed.

Lemma pool_release p A id :
  pool_of p A -> id ∈ A -> 0 <= id < MAX_COUNT -> pool_of (release id p) (A ∖ {[id]}).
Proof.
  intros (free & Hlen & Hc & Hnd & HA) Hin Hid.
  pose proof (proj1 (HA id Hid) Hin) as Hnf. exists (id :: free). unfold release.
  destruct (Z.ltb_spec id 0); [lia|]. destruct (Z.leb_spec MAX_COUNT id); [lia|]. simpl.
  split; [by rewrite length_insert|]. split; [|split].
  - split; [done|]. split; [done|]. rewrite list_lookup_total_insert_eq by lia. by apply chain_insert.
  - by apply NoDup_cons.
  - intros i Hi. rewrite elem_of_difference, elem_of_singleton, not_elem_of_cons, HA by done. tauto.
Qed.

(** A pool is unchanged by its lock word. *)
Lemma pool_lock p A v : pool_of p A -> pool_of (fset lock_f v p) A.
Proof. done. Qed.

(** C23: the id pool is an allocator.  A fresh pool, once prepared, has nothing handed out; an
    acquire returns an id not handed out, and fails exactly when all 32 are; a release of
    an id handed out makes exactly that id available again. *)
Theorem id_pool_refines_allocator :
  pool_of (prepare zeroed) ∅ /\
  forall p A, pool_of p A ->
    ((fst (acquire p) = -1 /\ snd (acquire p) = p /\ (forall i, 0 <= i < MAX_COUNT -> i ∈ A)) \/
     (0 <= fst (acquire p) < MAX_COUNT /\ (fst (acquire p) ∉ A) /\
      pool_of (snd (acquire p)) ({[fst (acquire p)]} ∪ A))) /\
    (forall id, id ∈ A -> 0 <= id < MAX_COUNT -> pool_of (release id p) (A ∖ {[id]})).
Proof.
  split; [apply pool_fresh|]. intros p A Hp. split; [by apply pool_acquire|].
  intros id. by apply pool_release.
Qed.

(** A chunk is the smallest multiple of the alignment that holds the header and the
    message, and the chunks of a segment are disjoint and inside the mapping. *)
Theorem chunk_regions t size i j :
  0 < size -> 0 <= i < j -> j < MAX_COUNT ->
  let cs := calc_chunk_size t size in
  cs mod CHUNK_ALIGN = 0 /\ CHUNK_HEADER t + size <= cs < CHUNK_HEADER t + size + CHUNK_ALIGN /\
  l_size ChunkInfo_layout <= chunk_conns_ptr cs i /\
  chunk_payload_ptr t cs i + size <= chunk_conns_ptr cs j /\
  chunk_payload_ptr t cs j + size <= shm_size cs.
Proof.
  intros Hs Hij Hj cs. unfold cs, calc_chunk_size, chunk_payload_ptr, chunk_conns_ptr, shm_size.
  set (x := CHUNK_HEADER t + size). set (q := (x + CHUNK_ALIGN - 1) `div` CHUNK_ALIGN).
  change (l_size ChunkInfo_layout) with 40. unfold MAX_COUNT, large_msg_cache, CHUNK_ALIGN, large_msg_align in *.
  assert (q * 1024 <= x + 1023 < q * 1024 + 1024) as Hq.
  { unfold q. pose proof (Z.div_mod (x + 1024 - 1) 1024 ltac:(lia)).
    pose proof (Z.mod_pos_bound (x + 1024 - 1) 1024 ltac:(lia)). lia. }
  assert (0 < x) by (unfold x, CHUNK_HEADER, chunk_header_size; destruct (align8 t); lia).
  split; [apply Z.mod_mul; lia|]. repeat split; try lia; try nia; unfold x in *; nia.
Qed.

Lemma chunk_regions_witness :
  chunk_payload_ptr x86_64_linux (calc_chunk_size x86_64_linux 1009) 0 + 1009
  <= chunk_conns_ptr (calc_chunk_size x86_64_linux 1009) 1.
Proof. apply (chunk_regions x86_64_linux 1009 0 1); vm_compute; intuition congruence. Defined.

(** ** Acquiring and recycling a chunk *)

Section storage_lemmas.
Context {S : Type} (seg : field S chunk_seg) `{!LawfulField seg}.

Lemma lock_alone n fuel s :
  lock_ (cg_info (fget seg s)) = 0 ->
  runs n (chunk_lock seg (Datatypes.S fuel)) s (fun _ s' => s' = fset (sub_field (seg_info seg) lock_f) 1 s).
Proof. intros H. unfold chunk_lock. cbn [spin_acquire]. run_step. simpl. rewrite H. simpl. by run_step. Qed.

Lemma acquire_storage_runs n fuel conns s A :
  lock_ (cg_info (fget seg s)) = 0 -> pool_of (prepare (cg_info (fget seg s))) A ->
  runs n (acquire_storage seg (Datatypes.S fuel) conns) s (fun r s' =>
    let g := fget seg s in let g' := fget seg s' in
    lock_ (cg_info g') = 0 /\ prepared_ (cg_info g') = 1 /\
    match r with
    | None => (forall i, 0 <= i < MAX_COUNT -> i ∈ A) /\ pool_of (cg_info g') A
    | Some id => 0 <= id < MAX_COUNT /\ (id ∉ A) /\ pool_of (cg_info g') ({[id]} ∪ A) /\
                 cg_conns g' = <[id := conns]> (cg_conns g)
    end).
Proof.
  intros Hl Hp. unfold acquire_storage. apply runs_bind.
  eapply runs_conseq; [by apply lock_alone|]. intros _ s0 ->. run_step. run_step.
  set (p0 := fset lock_f 1 (cg_info (fget seg s))). set (s1 := fset (seg_info seg) _ _).
  assert (fget (seg_info seg) s1 = prepare p0) as -> by (unfold s1; simpl; by rewrite !get_set).
  assert (cg_conns (fget seg s1) = cg_conns (fget seg s)) as Hconns
    by (unfold s1; simpl; by rewrite !get_set).
  assert (pool_of (prepare p0) A) as Hp0 by done.
  assert (prepared_ (snd (acquire (prepare p0))) = 1) as Hprep by (unfold acquire; by case_if).
  unfold chunk_unlock.
  destruct (pool_acquire _ _ Hp0) as [(E & E' & Hall)|(Hid & Hn & Hpool)];
    destruct (acquire (prepare p0)) as [id p1] eqn:Eacq; cbn [fst snd] in *; run_step.
  - subst. apply runs_ret. simpl. rewrite !get_set. done.
  - destruct (Z.ltb_spec id 0); [lia|]. run_step. run_step. simpl. rewrite !get_set. simpl.
    rewrite Hconns. done.
Qed.

Lemma sub_rc_runs fuel id b k s :
  runs fuel (sub_rc seg fuel id b k) s (fun last s' =>
    let c := Z.land (cg_conns (fget seg s) !!! id) (unot 32 b) in
    last = (c =? 0) /\ s' = fset (seg_conns seg id) c s).
Proof.
  revert k. induction fuel as [|fuel IH]; intros k; [intros tape Ht; lia|].
  cbn [sub_rc]. run_step. apply runs_cas_weak; [done| |].
  - apply runs_ret. by split.
  - replace (Datatypes.S fuel - 1)%nat with fuel by lia. apply IH.
Qed.

(** The last reader, and only it, releases the id. *)
Lemma recycle_storage_runs fuel id b s A :
  lock_ (cg_info (fget seg s)) = 0 -> pool_of (cg_info (fget seg s)) A -> id ∈ A -> 0 <= id < MAX_COUNT ->
  runs (Datatypes.S fuel) (recycle_storage seg (Datatypes.S fuel) id b) s (fun _ s' =>
    let c := Z.land (cg_conns (fget seg s) !!! id) (unot 32 b) in
    let g' := fget seg s' in
    lock_ (cg_info g') = 0 /\ cg_conns g' = <[id := c]> (cg_conns (fget seg s)) /\
    pool_of (cg_info g') (if c =? 0 then A ∖ {[id]} else A)).
Proof.
  intros Hl Hp Hin Hid. unfold recycle_storage.
  destruct (Z.ltb_spec id 0); [lia|]. destruct (Z.leb_spec MAX_COUNT id); [lia|]. cbn [orb].
  apply runs_bind. eapply runs_conseq; [apply sub_rc_runs|]. intros last s1 [-> ->].
  set (c := Z.land _ _). destruct (Z.eqb_spec c 0) as [E|E].
  - apply runs_bind. eapply runs_conseq; [apply lock_alone; simpl; by rewrite get_set|].
    intros _ s2 ->. run_step. unfold chunk_unlock. run_step. simpl. rewrite !get_set. simpl.
    split; [done|]. split; [done|]. apply (pool_release _ A); try done.
  - apply runs_ret. simpl. rewrite get_set. done.
Qed.

End storage_lemmas.

(** Each reader in [bs] recycles the chunk in turn. *)
Fixpoint recycle_all (fuel : nat) (id : Z) (bs : list Z) : prog chunk_seg unit :=
  match bs with
  | [] => Ret tt
  | b :: bs => _ ← recycle_storage conform.self_f fuel id b; recycle_all fuel id bs
  end.

Lemma self_lawful : LawfulField conform.self_f.
Proof. split; by intros. Qed.

Lemma land_pow2_remove qs q rest :
  0 <= q < 32 -> q ∉ rest -> (forall j, 0 <= j < 32 -> Z.testbit qs j = true <-> j ∈ q :: rest) -> is_u 32 qs ->
  is_u 32 (Z.land qs (unot 32 (2 ^ q))) /\
  forall j, 0 <= j < 32 -> Z.testbit (Z.land qs (unot 32 (2 ^ q))) j = true <-> j ∈ rest.
Proof.
  intros Hq Hn Hs Hu. split; [apply is_u_land_l; [lia|done]|]. intros j Hj.
  autorewrite with zbits. destruct (Z.ltb_spec j 32); [|lia]. simpl. rewrite andb_true_iff, Hs, elem_of_cons by done.
  destruct (Z.eqb_spec q j) as [->|Hne]; simpl.
  - split; [by intros [_ ?]|]. intros Hin. done.
  - split; [intros [[->|?] _]; done|]. auto.
Qed.

(** A chunk acquired for a set of receivers stays allocated until each of them has recycled
    it and is released by the last one: then the pool is as before the acquire. *)
Theorem storage_lifecycle fuel g A id qs (readers : list Z) :
  lock_ (cg_info g) = 0 -> pool_of (cg_info g) ({[id]} ∪ A) -> id ∉ A -> 0 <= id < MAX_COUNT ->
  readers <> [] -> NoDup readers -> Forall (fun q => 0 <= q < 32) readers ->
  cg_conns g !!! id = qs -> is_u 32 qs ->
  (forall j, 0 <= j < 32 -> Z.testbit qs j = true <-> j ∈ readers) ->
  runs (S fuel) (recycle_all (S fuel) id (Z.pow 2 <$> readers)) g (fun _ g' =>
    pool_of (cg_info g') A /\ cg_conns g' !!! id = 0).
Proof.
  revert g qs. induction readers as [|q rest IH]; intros g qs Hl Hp Hn Hid Hne Hnd Hr Hc Hu Hs; [done|].
  apply NoDup_cons in Hnd as [Hq Hnd]. apply Forall_cons in Hr as [Hqr Hr].
  destruct (land_pow2_remove qs q rest Hqr Hq Hs Hu) as [Hu' Hs'].
  cbn [fmap list_fmap recycle_all]. apply runs_bind.
  eapply runs_conseq; [apply (recycle_storage_runs conform.self_f (LawfulField0:=self_lawful)); try done; mem_solver|].
  simpl. rewrite Hc. intros _ g1 (Hl1 & Hc1 & Hp1).
  destruct rest as [|q' rest].
  - assert (Z.land qs (unot 32 (2 ^ q)) = 0) as E.
    { apply Z.bits_inj'. intros j Hj. rewrite Z.bits_0. destruct (decide (j < 32)) as [Hj32|].
      - destruct (Z.testbit _ j) eqn:Et; [|done]. apply Hs' in Et; [by apply not_elem_of_nil in Et|lia].
      - apply is_u_bits in Hu' as [_ Hu']; [apply Hu'; lia|lia]. }
    rewrite E in *. simpl in *. apply runs_ret. rewrite Hc1, lookup_total_insert_eq. split; [|done].
    replace A with (({[id]} ∪ A) ∖ {[id]}); [done|]. apply leibniz_equiv. intros x.
    rewrite elem_of_difference, elem_of_union, elem_of_singleton.
    split; [by intros [[?|?] ?]|]. intros Hx. split; [by right|]. by intros ->.
  - eapply (IH g1 (Z.land qs (unot 32 (2 ^ q)))); try done.
    + destruct (Z.eqb_spec (Z.land qs (unot 32 (2 ^ q))) 0) as [E|]; [|done]. exfalso.
      apply Forall_cons in Hr as [Hq' _]. pose proof (proj2 (Hs' q' Hq') ltac:(left)) as Ht.
      by rewrite E, Z.bits_0 in Ht.
    + by rewrite Hc1, lookup_total_insert_eq.
Qed.

(** Chunk 0 acquired for the receivers of bits 0 and 2. *)
Definition one_acquired : chunk_seg := mk_chunk_seg (snd (acquire (prepare zeroed))) {[0 := 5]} ∅.

Lemma storage_lifecycle_witness :
  exists u g', eval (recycle_all 2 0 [1; 4]) one_acquired = Some (u, g') /\ pool_of (cg_info g') ∅.
Proof.
  destruct (runs_eval _ _ _ (runs_mono 2 1 _ _ _ ltac:(lia)
    (storage_lifecycle 1 one_acquired ∅ 0 5 [0; 2]
       eq_refl
       ltac:(destruct (pool_acquire _ _ pool_fresh) as [(E & _)|(_ & _ & H)]; [by vm_compute in E|exact H])
       ltac:(set_solver) ltac:(vm_compute; intuition congruence) ltac:(done)
       ltac:(apply NoDup_cons; split; [intros ?%list_elem_of_singleton; lia|]; apply NoDup_singleton)
       ltac:(repeat constructor; lia) eq_refl ltac:(unfold is_u; lia)
       ltac:(intros j Hj; rewrite elem_of_cons, list_elem_of_singleton;
             assert (j ∈ seqZ 0 32) as Hs by (apply elem_of_seqZ; lia); clear Hj; revert j Hs;
             apply Forall_forall; vm_compute; repeat (constructor; [intuition congruence|]); constructor))))
    as (u & g' & E & Hp & _).
  exists u, g'. split; [exact E|exact Hp].
Defined.
