(* ===== verification/SyncAbi.v ===== *)
(** * The ABI stamp of a synchronisation primitive

    [sync_abi.rs]: every named mutex or condition has a sidecar segment whose stamp
    says which ABI, backend and payload size its first opener used.  The first
    opener writes it; the others validate theirs against it and refuse to share a
    primitive they would read differently. *)
From Stdlib Require Import Ascii.
From S2P Require Import Prelude Atomics Abi ShmName.

Definition SYNC_ABI_MAGIC : Z := syncabi_magic.
Definition SYNC_ABI_INIT_IN_PROGRESS : Z := 2 ^ 32 - 1.
Definition SYNC_ABI_VERSION_MAJOR : Z := 1.
Definition SYNC_ABI_VERSION_MINOR : Z := 0.
Definition SYNC_ABI_INIT_TIMEOUT : Z := 2000 * MILLI.

(** The operating systems the source distinguishes; on another POSIX system the
    payload sizes are those of libc's pthread types. *)
Inductive sync_os :=
| MacOS | LinuxAndroid | OtherPosix (mutex_size cond_size : Z) | Windows.

Definition SYNC_BACKEND_ID (o : sync_os) : Z :=
  match o with
  | MacOS => syncabi_backend_ulock
  | LinuxAndroid => syncabi_backend_linux_a0
  | OtherPosix _ _ => syncabi_backend_posix_pthread
  | Windows => syncabi_backend_win32
  end.

Inductive PrimitiveKind := Mutex | Condition.

Definition primitive_id (p : PrimitiveKind) : Z := match p with Mutex => 1 | Condition => 2 end.

Definition sidecar_suffix (p : PrimitiveKind) : string :=
  match p with Mutex => sync_abi_suffix_mutex | Condition => sync_abi_suffix_condition end.

Definition label (p : PrimitiveKind) : string :=
  match p with Mutex => "mutex" | Condition => "condition" end.

Definition expected_payload_size (o : sync_os) (p : PrimitiveKind) : Z :=
  match p, o with
  | Mutex, MacOS => ulock_mutex_size
  | Mutex, LinuxAndroid => a0_mtx_size
  | Mutex, OtherPosix m _ => m
  | Condition, MacOS => ulock_cond_size
  | Condition, LinuxAndroid => a0_cnd_size
  | Condition, OtherPosix _ c => c
  | _, Windows => 0
  end.

Record SyncAbiExpected := mk_expected {
  e_major : Z; e_minor : Z; e_backend : Z; e_kind : Z; e_payload : Z }.

#[export] Instance SyncAbiExpected_eq_dec : EqDecision SyncAbiExpected.
Proof. solve_decision. Defined.

Record SyncAbiStamp := mk_stamp { st_magic : Z; st_body : SyncAbiExpected }.

Definition zero_stamp : SyncAbiStamp := mk_stamp 0 (mk_expected 0 0 0 0 0).

Definition metadata_name (name : string) (p : PrimitiveKind) : string := name +:+ sidecar_suffix p.

Definition expected_for (o : sync_os) (p : PrimitiveKind) : SyncAbiExpected :=
  mk_expected SYNC_ABI_VERSION_MAJOR SYNC_ABI_VERSION_MINOR (SYNC_BACKEND_ID o) (primitive_id p)
    (expected_payload_size o p).

Definition backend_mismatch_hint (o : sync_os) (expected_backend actual_backend : Z) : string :=
  match o with
  | MacOS =>
      if ((expected_backend =? 2) && (actual_backend =? 3)) || ((expected_backend =? 3) && (actual_backend =? 2))
      then "; macOS profile mismatch: apple_ulock (2) cannot interop with apple_mach (3)" else ""
  | _ => ""
  end.

(** [{:#x}] *)
Fixpoint strip_zeros (s : string) : string :=
  match s with
  | String "0" (String _ _ as s') => strip_zeros s'
  | _ => s
  end.
Definition fmt_hex (v : Z) : string := "0x" +:+ strip_zeros (to_hex v).

Definition fmt_stamp (e : SyncAbiExpected) : string :=
  "major.minor=" +:+ pretty (e_major e) +:+ "." +:+ pretty (e_minor e) +:+ ", backend=" +:+ pretty (e_backend e)
  +:+ ", kind=" +:+ pretty (e_kind e) +:+ ", payload=" +:+ pretty (e_payload e).

Definition mismatch_error (o : sync_os) (p : PrimitiveKind) (expected actual : SyncAbiExpected) : io_error :=
  mk_io_error EkInvalidData
    ("sync ABI mismatch for " +:+ label p +:+ ": expected " +:+ fmt_stamp expected +:+ " but found " +:+
     fmt_stamp actual +:+ backend_mismatch_hint o (e_backend expected) (e_backend actual)).

Definition stalled_error (p : PrimitiveKind) : io_error :=
  mk_io_error EkTimedOut ("sync ABI init stalled for " +:+ label p +:+ ": stuck at INIT_IN_PROGRESS").

Definition magic_error (p : PrimitiveKind) (magic : Z) : io_error :=
  mk_io_error EkInvalidData
    ("sync ABI stamp magic mismatch for " +:+ label p +:+ ": expected " +:+ fmt_hex SYNC_ABI_MAGIC +:+
     ", found " +:+ fmt_hex magic).

(** ** Fields of the stamp *)

Definition magic_f : field SyncAbiStamp Z := mk_field st_magic (fun v s => mk_stamp v (st_body s)).
Definition body_f : field SyncAbiStamp SyncAbiExpected := mk_field st_body (fun v s => mk_stamp (st_magic s) v).
Definition major_f : field SyncAbiExpected Z :=
  mk_field e_major (fun v e => mk_expected v (e_minor e) (e_backend e) (e_kind e) (e_payload e)).
Definition minor_f : field SyncAbiExpected Z :=
  mk_field e_minor (fun v e => mk_expected (e_major e) v (e_backend e) (e_kind e) (e_payload e)).
Definition backend_f : field SyncAbiExpected Z :=
  mk_field e_backend (fun v e => mk_expected (e_major e) (e_minor e) v (e_kind e) (e_payload e)).
Definition kind_f : field SyncAbiExpected Z :=
  mk_field e_kind (fun v e => mk_expected (e_major e) (e_minor e) (e_backend e) v (e_payload e)).
Definition payload_f : field SyncAbiExpected Z :=
  mk_field e_payload (fun v e => mk_expected (e_major e) (e_minor e) (e_backend e) (e_kind e) v).

Section stamp.
Context {S : Type} (stamp : field S SyncAbiStamp) (clk : field S clock) (o : sync_os) (p : PrimitiveKind).

Definition body : field S SyncAbiExpected := sub_field stamp body_f.

Definition validate (expected : SyncAbiExpected) : prog S (io_result unit) :=
  a1 ← load (sub_field body major_f);
  a2 ← load (sub_field body minor_f);
  a3 ← load (sub_field body backend_f);
  a4 ← load (sub_field body kind_f);
  a5 ← load (sub_field body payload_f);
  let actual := mk_expected a1 a2 a3 a4 a5 in
  if bool_decide (actual = expected) then Ret (Ok tt)
  else Ret (Err (mismatch_error o p expected actual)).

(** The stores of the winning opener. *)
Definition publish (expected : SyncAbiExpected) : prog S (io_result unit) :=
  _ ← store (sub_field body major_f) (e_major expected);
  _ ← store (sub_field body minor_f) (e_minor expected);
  _ ← store (sub_field body backend_f) (e_backend expected);
  _ ← store (sub_field body kind_f) (e_kind expected);
  _ ← store (sub_field body payload_f) (e_payload expected);
  _ ← store (sub_field stamp magic_f) SYNC_ABI_MAGIC;
  Ret (Ok tt).

Fixpoint init_or_validate_within (fuel : nat) (expected : SyncAbiExpected) (init_timeout : Z)
    (deadline : option Z) : prog S (io_result unit) :=
  match fuel with
  | O => Spin
  | Datatypes.S fuel =>
      magic ← load (sub_field stamp magic_f);
      if magic =? SYNC_ABI_MAGIC then validate expected
      else if magic =? SYNC_ABI_INIT_IN_PROGRESS then
        dl ← (match deadline with
              | Some dl => Ret dl
              | None => t ← now clk; Ret (t + init_timeout)
              end);
        t ← now clk;
        if dl <=? t then Ret (Err (stalled_error p))
        else init_or_validate_within fuel expected init_timeout (Some dl)
      else if magic =? 0 then
        r ← compare_exchange (sub_field stamp magic_f) 0 SYNC_ABI_INIT_IN_PROGRESS;
        match r with
        | Err _ => init_or_validate_within fuel expected init_timeout None
        | Ok _ => publish expected
        end
      else Ret (Err (magic_error p magic))
  end.

Definition init_or_validate (fuel : nat) (expected : SyncAbiExpected) : prog S (io_result unit) :=
  init_or_validate_within fuel expected SYNC_ABI_INIT_TIMEOUT None.

End stamp.

(** [ensure]: the sidecar segments by name.  What the shared-memory layer reports for
    a name it cannot open is [sw_shm_err].  The guard keeps the segment mapped. *)
Record sync_world := mk_sync_world {
  sw_stamps : gmap string SyncAbiStamp; sw_shm_err : gmap string io_error; sw_clock : clock }.

#[export] Instance SyncAbiStamp_inhabited : Inhabited SyncAbiStamp := populate zero_stamp.

Definition sw_stamps_f : field sync_world (gmap string SyncAbiStamp) :=
  mk_field sw_stamps (fun v w => mk_sync_world v (sw_shm_err w) (sw_clock w)).
Definition sw_stamp_f (n : string) : field sync_world SyncAbiStamp := sub_field sw_stamps_f (at_key n).
Definition sw_clock_f : field sync_world clock :=
  mk_field sw_clock (fun v w => mk_sync_world (sw_stamps w) (sw_shm_err w) v).

Record SyncAbiGuard := mk_SyncAbiGuard { g_shm : string }.

Definition ensure (fuel : nat) (o : sync_os) (name : string) (p : PrimitiveKind)
    : prog sync_world (io_result SyncAbiGuard) :=
  if bool_decide (name = "") then Ret (Err (mk_io_error EkInvalidInput "name is empty"))
  else
    e ← act (fun w => (sw_shm_err w !! metadata_name name p, w));
    match e with
    | Some e => Ret (Err e)
    | None =>
        _ ←? init_or_validate (sw_stamp_f (metadata_name name p)) sw_clock_f o p fuel (expected_for o p);
        Ret (Ok (mk_SyncAbiGuard (metadata_name name p)))
    end.

Definition open_mutex_guard (fuel : nat) (o : sync_os) (name : string) := ensure fuel o name Mutex.

Definition open_condition_guard (fuel : nat) (o : sync_os) (name : string) := ensure fuel o name Condition.

(** Unlinking the sidecar: the next opener finds a fresh segment. *)
Definition clear_mutex_storage (name : string) : prog sync_world unit :=
  act (fun w => (tt, fset sw_stamps_f (delete (metadata_name name Mutex) (sw_stamps w)) w)).

Definition clear_condition_storage (name : string) : prog sync_world unit :=
  act (fun w => (tt, fset sw_stamps_f (delete (metadata_name name Condition) (sw_stamps w)) w)).

(** ** Openers racing for one stamp *)

Record stamp_world := mk_stamp_world { tw_stamp : SyncAbiStamp; tw_clock : clock }.
Definition tw_stamp_f : field stamp_world SyncAbiStamp := mk_field tw_stamp (fun v w => mk_stamp_world v (tw_clock w)).
Definition tw_clock_f : field stamp_world clock := mk_field tw_clock (fun v w => mk_stamp_world (tw_stamp w) v).

(** An opener: its system, the primitive and what it expects. *)
Record opener := mk_opener { op_os : sync_os; op_kind : PrimitiveKind; op_expected : SyncAbiExpected; op_timeout : Z }.

Definition open_stamp (fuel : nat) (op : opener) : prog stamp_world (io_result unit) :=
  init_or_validate_within tw_stamp_f tw_clock_f (op_os op) (op_kind op) fuel (op_expected op) (op_timeout op) None.

(** Where an opener stands: looking, validating (so the stamp is final, and it has
    read some of its fields), publishing (it has written [k] fields), or finished. *)
Inductive open_stage :=
| Looking | Validating (read : list Z) | Publishing (k : nat) | Won | Agreed
| Mismatched (actual : SyncAbiExpected) | Stalled.

Definition publish_from (k : nat) (e : SyncAbiExpected) : prog stamp_world (io_result unit) :=
  let b := body tw_stamp_f in
  let p5 := store (sub_field tw_stamp_f magic_f) SYNC_ABI_MAGIC ≫= fun _ => Ret (Ok tt) in
  let p4 := store (sub_field b payload_f) (e_payload e) ≫= fun _ => p5 in
  let p3 := store (sub_field b kind_f) (e_kind e) ≫= fun _ => p4 in
  let p2 := store (sub_field b backend_f) (e_backend e) ≫= fun _ => p3 in
  let p1 := store (sub_field b minor_f) (e_minor e) ≫= fun _ => p2 in
  let p0 := store (sub_field b major_f) (e_major e) ≫= fun _ => p1 in
  match k with 0%nat => p0 | 1%nat => p1 | 2%nat => p2 | 3%nat => p3 | 4%nat => p4 | _ => p5 end.

Definition validate_from (op : opener) (read : list Z) : prog stamp_world (io_result unit) :=
  let b := body tw_stamp_f in
  let fin a1 a2 a3 a4 a5 :=
    if bool_decide (mk_expected a1 a2 a3 a4 a5 = op_expected op) then Ret (Ok tt)
    else Ret (Err (mismatch_error (op_os op) (op_kind op) (op_expected op) (mk_expected a1 a2 a3 a4 a5))) in
  let v4 a1 a2 a3 a4 := load (sub_field b payload_f) ≫= fin a1 a2 a3 a4 in
  let v3 a1 a2 a3 := load (sub_field b kind_f) ≫= v4 a1 a2 a3 in
  let v2 a1 a2 := load (sub_field b backend_f) ≫= v3 a1 a2 in
  let v1 a1 := load (sub_field b minor_f) ≫= v2 a1 in
  match read with
  | [] => load (sub_field b major_f) ≫= v1
  | [a1] => v1 a1
  | [a1; a2] => v2 a1 a2
  | [a1; a2; a3] => v3 a1 a2 a3
  | a1 :: a2 :: a3 :: a4 :: _ => v4 a1 a2 a3 a4
  end.

(** The fields of a stamp in the order they are read and written. *)
Definition stamp_fields (e : SyncAbiExpected) : list Z := [e_major e; e_minor e; e_backend e; e_kind e; e_payload e].

Definition list_to_expected (l : list Z) : SyncAbiExpected :=
  match l with
  | [a1; a2; a3; a4; a5] => mk_expected a1 a2 a3 a4 a5
  | _ => mk_expected 0 0 0 0 0
  end.

Section opener_phase.
Context (op : opener).

Definition loop (n : nat) (dl : option Z) : prog stamp_world (io_result unit) :=
  init_or_validate_within tw_stamp_f tw_clock_f (op_os op) (op_kind op) n (op_expected op) (op_timeout op) dl.

Definition check_deadline (n : nat) (dl : Z) : prog stamp_world (io_result unit) :=
  now tw_clock_f ≫= fun t => if dl <=? t then Ret (Err (stalled_error (op_kind op))) else loop n (Some dl).

Definition claim_stamp (n : nat) : prog stamp_world (io_result unit) :=
  compare_exchange (sub_field tw_stamp_f magic_f) 0 SYNC_ABI_INIT_IN_PROGRESS ≫= fun r =>
  match r with Err _ => loop n None | Ok _ => publish tw_stamp_f (op_expected op) end.

Inductive open_phase : open_stage -> prog stamp_world (io_result unit) -> Prop :=
| ph_look n dl : open_phase Looking (loop n dl)
| ph_arm n : open_phase Looking
    ((now tw_clock_f ≫= fun t => Ret (t + op_timeout op)) ≫= check_deadline n)
| ph_check n dl : open_phase Looking (check_deadline n dl)
| ph_cas n : open_phase Looking (claim_stamp n)
| ph_validate read : (length read <= 4)%nat -> open_phase (Validating read) (validate_from op read)
| ph_publish k : (k <= 5)%nat -> open_phase (Publishing k) (publish_from k (op_expected op))
| ph_won : open_phase Won (Ret (Ok tt))
| ph_agreed : open_phase Agreed (Ret (Ok tt))
| ph_mismatched actual : open_phase (Mismatched actual)
    (Ret (Err (mismatch_error (op_os op) (op_kind op) (op_expected op) actual)))
| ph_stalled : open_phase Stalled (Ret (Err (stalled_error (op_kind op)))).

(** Effects of a step on the stamp. *)
Inductive open_effect : SyncAbiStamp -> SyncAbiStamp -> open_stage -> open_stage -> Prop :=
| oe_wait s : open_effect s s Looking Looking
| oe_stall s : open_effect s s Looking Stalled
| oe_final s : st_magic s = SYNC_ABI_MAGIC -> open_effect s s Looking (Validating [])
| oe_claim s : st_magic s = 0 ->
    open_effect s (mk_stamp SYNC_ABI_INIT_IN_PROGRESS (st_body s)) Looking (Publishing 0)
| oe_read s read v : stamp_fields (st_body s) !! length read = Some v -> (length read < 4)%nat ->
    open_effect s s (Validating read) (Validating (read ++ [v]))
| oe_agree s read : length read = 4%nat ->
    list_to_expected (read ++ [e_payload (st_body s)]) = op_expected op -> open_effect s s (Validating read) Agreed
| oe_mismatch s read : length read = 4%nat ->
    list_to_expected (read ++ [e_payload (st_body s)]) <> op_expected op ->
    open_effect s s (Validating read) (Mismatched (list_to_expected (read ++ [e_payload (st_body s)])))
| oe_write s b k : (k < 5)%nat ->
    take (S k) (stamp_fields b) = take k (stamp_fields (st_body s)) ++ take 1 (drop k (stamp_fields (op_expected op))) ->
    open_effect s (mk_stamp (st_magic s) b) (Publishing k) (Publishing (S k))
| oe_won s : open_effect s (mk_stamp SYNC_ABI_MAGIC (st_body s)) (Publishing 5) Won.

(** While an opener looks, the magic is one of the three values the protocol uses. *)
Definition good_magic (m : Z) : Prop := m = 0 \/ m = SYNC_ABI_INIT_IN_PROGRESS \/ m = SYNC_ABI_MAGIC.

Ltac reading r v :=
  exists (Validating (r ++ [v])); split;
  [apply (ph_validate (r ++ [v])); simpl; lia | apply oe_read; [done|simpl; lia]].

Ltac writing k :=
  exists (Publishing k); split; [apply (ph_publish k); lia | apply oe_write; [lia|done]].

Lemma open_phase_step st pr pr' w w' :
  good_magic (st_magic (tw_stamp w)) ->
  open_phase st pr -> thread_step w pr w' pr' ->
  exists st', open_phase st' pr' /\ open_effect (tw_stamp w) (tw_stamp w') st st'.
Proof.
  intros Hgm Hp Hs. destruct Hp as [n dl|n|n dl|n|read Hr|k Hk| | | |].
  - destruct n as [|n]; inv_step Hs. destruct Hgm as [E|[E|E]]; rewrite E; simpl.
    + exists Looking. split; [apply (ph_cas n)|constructor].
    + exists Looking. split; [|constructor]. destruct dl as [dl|]; [apply (ph_check n dl)|apply (ph_arm n)].
    + exists (Validating []). split; [apply (ph_validate []); simpl; lia|by constructor].
  - inv_step Hs. exists Looking. split; [apply ph_check|constructor].
  - inv_step Hs. destruct (dl <=? c_now (tw_clock w)).
    + exists Stalled. split; constructor.
    + exists Looking. split; constructor.
  - inv_step Hs. destruct (Z.eqb_spec (st_magic (tw_stamp w)) 0) as [E|E]; simpl.
    + exists (Publishing 0). split; [apply (ph_publish 0); lia|by constructor].
    + exists Looking. split; constructor.
  - destruct read as [|a1 [|a2 [|a3 [|a4 [|a5 read]]]]]; try (simpl in Hr; lia); inv_step Hs.
    + reading (@nil Z) (e_major (st_body (tw_stamp w))).
    + reading [a1] (e_minor (st_body (tw_stamp w))).
    + reading [a1; a2] (e_backend (st_body (tw_stamp w))).
    + reading [a1; a2; a3] (e_kind (st_body (tw_stamp w))).
    + case_bool_decide as E.
      * exists Agreed. split; [constructor|by apply oe_agree].
      * eexists (Mismatched _). split; [constructor|]. by apply (oe_mismatch _ [a1; a2; a3; a4]).
  - destruct k as [|[|[|[|[|[|k]]]]]]; try lia; inv_step Hs.
    + writing 1%nat.
    + writing 2%nat.
    + writing 3%nat.
    + writing 4%nat.
    + writing 5%nat.
    + exists Won. split; constructor.
  - inv_step Hs.
  - inv_step Hs.
  - inv_step Hs.
  - inv_step Hs.
Qed.

End opener_phase.

Definition writer (st : open_stage) : bool :=
  match st with Publishing _ | Won => true | _ => false end.

Section race.
Context (ops : list opener).

(** What an opener at a stage knows of the stamp. *)
Definition stage_ok (s : SyncAbiStamp) (op : opener) (st : open_stage) : Prop :=
  match st with
  | Looking | Stalled => True
  | Publishing k => st_magic s = SYNC_ABI_INIT_IN_PROGRESS /\
      take k (stamp_fields (st_body s)) = take k (stamp_fields (op_expected op))
  | Won | Agreed => st_magic s = SYNC_ABI_MAGIC /\ st_body s = op_expected op
  | Validating read => st_magic s = SYNC_ABI_MAGIC /\ read = take (length read) (stamp_fields (st_body s))
  | Mismatched actual => st_magic s = SYNC_ABI_MAGIC /\ actual = st_body s /\ actual <> op_expected op
  end.

Record stamp_ok (s : SyncAbiStamp) (sts : list open_stage) : Prop := {
  sk_unique : forall j j' st st', sts !! j = Some st -> sts !! j' = Some st' ->
    writer st = true -> writer st' = true -> j = j';
  sk_none : (forall j st, sts !! j = Some st -> writer st = false) -> st_magic s = 0;
  sk_stage : forall j st op, sts !! j = Some st -> ops !! j = Some op -> stage_ok s op st;
}.

Lemma writer_or_none (sts : list open_stage) :
  (forall j st, sts !! j = Some st -> writer st = false) \/ exists j st, sts !! j = Some st /\ writer st = true.
Proof.
  destruct (decide (Exists (fun st => writer st = true) sts)) as [He|Hn].
  - right. apply Exists_exists in He as (st & Hin & Ha). apply list_elem_of_lookup in Hin as [k Hk]. eauto.
  - left. intros j st Hj. destruct (writer st) eqn:Ha; [|done]. exfalso. apply Hn.
    apply Exists_exists. exists st. split; [by eapply list_elem_of_lookup_2|done].
Qed.

Lemma stamp_ok_magic s sts : length sts = length ops -> stamp_ok s sts -> good_magic (st_magic s).
Proof.
  intros Hlen Hok. destruct (writer_or_none sts) as [Hn|(j & st & Hj & Hw)].
  - left. by apply (sk_none s sts Hok).
  - destruct (lookup_lt_is_Some_2 ops j) as [op Hop]; [rewrite <- Hlen; by eapply lookup_lt_Some|].
    pose proof (sk_stage s sts Hok j st op Hj Hop) as Hst.
    destruct st; try done; destruct Hst as [E _]; rewrite E; unfold good_magic; auto.
Qed.

(** A claimable stamp has no writer. *)
Lemma zero_no_writer s sts : length sts = length ops -> stamp_ok s sts -> st_magic s = 0 ->
  forall j st, sts !! j = Some st -> writer st = false.
Proof.
  intros Hlen Hok Hm j st Hj. destruct (writer st) eqn:Hw; [|done]. exfalso.
  destruct (lookup_lt_is_Some_2 ops j) as [op Hop]; [rewrite <- Hlen; by eapply lookup_lt_Some|].
  pose proof (sk_stage s sts Hok j st op Hj Hop) as Hst.
  destruct st; try done; destruct Hst as [E _]; rewrite Hm in E; done.
Qed.

Lemma take_fields_full b read : length read = 4%nat -> read = take 4 (stamp_fields b) ->
  list_to_expected (read ++ [e_payload b]) = b.
Proof. intros _ ->. by destruct b. Qed.

(** The mover's own knowledge after its step. *)
Lemma mover_ok s s' op st st' : open_effect op s s' st st' -> stage_ok s op st -> stage_ok s' op st'.
Proof.
  intros He Hst. destruct He as [s|s|s Hm|s Hm|s read v Hv Hl|s read Hl E|s read Hl E|s b k Hk E|s]; cbn [stage_ok st_magic st_body] in *; try done.
  - destruct Hst as [Hm Hr]. split; [done|]. rewrite length_app. simpl. replace (length read + 1)%nat with (S (length read)) by lia.
    by rewrite (take_S_r _ _ v), <- Hr.
  - destruct Hst as [Hm Hr]. split; [done|]. rewrite Hl in Hr. by rewrite take_fields_full in E.
  - destruct Hst as [Hm Hr]. rewrite Hl in Hr. rewrite take_fields_full in * by done. done.
  - destruct Hst as [Hm Hr]. split; [done|]. rewrite E, Hr. by destruct k as [|[|[|[|[|k]]]]]; try lia.
  - destruct Hst as [Hm Hr]. split; [done|]. destruct (st_body s), (op_expected op). simpl in Hr. congruence.
Qed.

(** The others' knowledge: a final stamp does not change, and a stamp being published
    changes only at the hands of its writer. *)
Lemma others_ok s s' opi st st' opj stj :
  open_effect opi s s' st st' -> stage_ok s opi st -> stage_ok s opj stj ->
  (writer st = true -> writer stj = false) -> (st_magic s = 0 -> writer stj = false) -> stage_ok s' opj stj.
Proof.
  intros He Hi Hj Hw Hz.
  assert (s' = s \/ ((writer st = true \/ st_magic s = 0) /\ st_magic s <> SYNC_ABI_MAGIC)) as [->|[Hws Hm]]; [|done|].
  { destruct He; auto; right; simpl in *; split; auto.
    - by rewrite H.
    - destruct Hi as [-> _]. done.
    - destruct Hi as [-> _]. done. }
  assert (writer stj = false) as Hwj by (destruct Hws; auto).
  destruct stj; try done; simpl in *; destruct Hj as [? _]; done.
Qed.

Lemma stamp_ok_step i op s s' sts st st' :
  length sts = length ops -> stamp_ok s sts -> sts !! i = Some st -> ops !! i = Some op ->
  open_effect op s s' st st' -> stamp_ok s' (<[i := st']> sts).
Proof.
  intros Hlen Hok Hi Hop He. assert (i < length sts)%nat as Hlt by (by eapply lookup_lt_Some).
  assert (forall j stj, j <> i -> sts !! j = Some stj -> writer st' = true -> writer stj = false) as Hone.
  { intros j stj Hne Hj Hw'. destruct (writer stj) eqn:Hwj; [|done]. exfalso.
    destruct (writer st) eqn:Hw; [by apply Hne; eapply (sk_unique s sts Hok)|].
    destruct He; try done. by rewrite (zero_no_writer s sts Hlen Hok H j stj Hj) in Hwj. }
  split.
  - intros j j' x x' Hx Hx' Hw Hw'.
    apply list_lookup_insert_Some in Hx as [(<- & <- & _)|[Hne Hx]];
      apply list_lookup_insert_Some in Hx' as [(<- & <- & _)|[Hne' Hx']]; try done.
    + by rewrite (Hone j' x') in Hw' by done.
    + by rewrite (Hone j x) in Hw by done.
    + by eapply (sk_unique s sts Hok j j' x x').
  - intros Hall. assert (writer st' = false) as Hw' by (apply (Hall i); by rewrite list_lookup_insert_eq).
    assert (st_magic s = 0) as Hm; [|by destruct He].
    apply (sk_none s sts Hok). intros j x Hj. destruct (decide (j = i)) as [->|Hne].
    + simplify_eq. by destruct He.
    + apply (Hall j). by rewrite list_lookup_insert_ne.
  - intros j x opj Hx Hopj. pose proof (sk_stage s sts Hok i st op Hi Hop) as Hsti.
    apply list_lookup_insert_Some in Hx as [(<- & <- & _)|[Hne Hx]].
    + simplify_eq. by eapply mover_ok.
    + eapply others_ok; [done|done|by eapply (sk_stage s sts Hok)| |].
      * intros Hw. destruct (writer x) eqn:Hwx; [|done]. by destruct Hne; eapply (sk_unique s sts Hok).
      * intros Hz. by eapply zero_no_writer.
Qed.

Definition stamp_inv (w : stamp_world) (ps : list (prog stamp_world (io_result unit))) : Prop :=
  exists sts, length sts = length ops /\ length ps = length ops /\ stamp_ok (tw_stamp w) sts /\
    forall j p op st, ps !! j = Some p -> ops !! j = Some op -> sts !! j = Some st -> open_phase op st p.

Lemma stamp_inv_step w ps i p w' p' :
  stamp_inv w ps -> ps !! i = Some p -> thread_step w p w' p' -> stamp_inv w' (<[i := p']> ps).
Proof.
  intros (sts & Hlen & Hlen' & Hok & Hph) Hp Hs. assert (i < length ops)%nat as Hlt.
  { rewrite <- Hlen'. by eapply lookup_lt_Some. }
  destruct (lookup_lt_is_Some_2 ops i Hlt) as [op Hop].
  destruct (lookup_lt_is_Some_2 sts i) as [st Hst]; [lia|].
  destruct (open_phase_step op st p p' w w') as (st' & Hph' & He);
    [by eapply stamp_ok_magic|by eapply Hph|done|].
  exists (<[i := st']> sts). rewrite !length_insert. split; [done|]. split; [done|].
  split; [by eapply stamp_ok_step|]. intros j q opj x Hq Hoj Hx. destruct (decide (j = i)) as [->|Hne].
  - rewrite list_lookup_insert_eq in Hq by lia. rewrite list_lookup_insert_eq in Hx by lia. by simplify_eq.
  - rewrite list_lookup_insert_ne in Hq by done. rewrite list_lookup_insert_ne in Hx by done. by eapply Hph.
Qed.

Lemma stamp_inv_init fuel clk : stamp_inv (mk_stamp_world zero_stamp clk) (open_stamp fuel <$> ops).
Proof.
  exists ((fun _ => Looking) <$> ops). rewrite !length_fmap. split; [done|]. split; [done|].
  assert (forall j st, ((fun _ => Looking) <$> ops) !! j = Some st -> st = Looking) as Hl.
  { intros j st Hj. rewrite list_lookup_fmap in Hj. by destruct (ops !! j); simplify_eq/=. }
  split.
  - split; [|done|].
    + intros j j' st st' Hj _ Hw. by rewrite (Hl j st Hj) in Hw.
    + intros j st op Hj _. by rewrite (Hl j st Hj).
  - intros j p op st Hp Hop Hst. rewrite (Hl j st Hst). rewrite list_lookup_fmap, Hop in Hp.
    simplify_eq/=. apply ph_look.
Qed.

(** The result of a finished opener, from its phase. *)
Lemma open_phase_ret op st r s : open_phase op st (Ret r) -> stage_ok s op st ->
  match r with
  | Ok _ => s = mk_stamp SYNC_ABI_MAGIC (op_expected op)
  | Err e => e = stalled_error (op_kind op) \/
      (st_magic s = SYNC_ABI_MAGIC /\ st_body s <> op_expected op /\
       e = mismatch_error (op_os op) (op_kind op) (op_expected op) (st_body s))
  end.
Proof.
  intros Hp Hst. remember (Ret r) as p eqn:E. destruct Hp as [n dl|n|n dl|n|read Hr|k Hk| | |a|]; simplify_eq.
  - by destruct n.
  - by destruct read as [|a1 [|a2 [|a3 [|a4 [|a5 read]]]]]; try (simpl in Hr; lia).
  - by destruct k as [|[|[|[|[|[|k]]]]]]; try lia.
  - destruct s, Hst; simpl in *; by subst.
  - destruct s, Hst; simpl in *; by subst.
  - right. destruct Hst as (? & -> & ?). done.
  - by left.
Qed.

(** C21: however the openers of one fresh stamp interleave, every opener that succeeds
    finds or leaves the stamp equal to what it expects (so all of them agree on version,
    backend, kind and payload size), and one that fails either timed out on a stalled
    initialiser or reports the very stamp it does not agree with. *)
Theorem sync_abi_openers_agree fuel clk w' ps' i op r :
  pool_reach (mk_stamp_world zero_stamp clk, open_stamp fuel <$> ops) (w', ps') ->
  ops !! i = Some op -> ps' !! i = Some (Ret r) ->
  match r with
  | Ok _ => tw_stamp w' = mk_stamp SYNC_ABI_MAGIC (op_expected op)
  | Err e => e = stalled_error (op_kind op) \/
      (st_magic (tw_stamp w') = SYNC_ABI_MAGIC /\ st_body (tw_stamp w') <> op_expected op /\
       e = mismatch_error (op_os op) (op_kind op) (op_expected op) (st_body (tw_stamp w')))
  end.
Proof.
  intros Hr Hop Hp. assert (stamp_inv w' ps') as (sts & Hlen & Hlen' & Hok & Hph).
  { eapply (pool_invariant stamp_inv); [apply stamp_inv_init| |exact Hr].
    intros. by eapply stamp_inv_step. }
  destruct (lookup_lt_is_Some_2 sts i) as [st Hst]; [rewrite Hlen; by eapply lookup_lt_Some|].
  eapply open_phase_ret; [by eapply Hph|]. by eapply (sk_stage _ sts Hok).
Qed.

End race.

(** Two openers that expect the same stamp; the first wins and the second validates. *)
Definition linux_mutex_opener : opener := mk_opener LinuxAndroid Mutex (expected_for LinuxAndroid Mutex) SYNC_ABI_INIT_TIMEOUT.

Lemma sync_abi_openers_agree_witness :
  let ops := [linux_mutex_opener; linux_mutex_opener] in
  let c := run_sched (repeat (0%nat, false) 8 ++ repeat (1%nat, false) 6)
             (mk_stamp_world zero_stamp (mk_clock 0 []), open_stamp 3 <$> ops) in
  c.2 !! 1%nat = Some (Ret (Ok tt)) /\ tw_stamp c.1 = mk_stamp SYNC_ABI_MAGIC (expected_for LinuxAndroid Mutex).
Proof.
  intros ops c. assert (c.2 !! 1%nat = Some (Ret (Ok tt))) as E by (vm_compute; reflexivity).
  split; [exact E|].
  apply (sync_abi_openers_agree ops 3 (mk_clock 0 []) c.1 c.2 1 linux_mutex_opener (Ok tt)); try done.
  apply run_sched_reach.
Defined.

(** ** One opener *)

Definition open_outcome (op : opener) (s : SyncAbiStamp) : io_result unit * SyncAbiStamp :=
  if st_magic s =? SYNC_ABI_MAGIC then
    (if bool_decide (st_body s = op_expected op) then Ok tt
     else Err (mismatch_error (op_os op) (op_kind op) (op_expected op) (st_body s)), s)
  else if st_magic s =? SYNC_ABI_INIT_IN_PROGRESS then (Err (stalled_error (op_kind op)), s)
  else if st_magic s =? 0 then (Ok tt, mk_stamp SYNC_ABI_MAGIC (op_expected op))
  else (Err (magic_error (op_kind op) (st_magic s)), s).

Lemma stalled_runs n fuel op w dl :
  st_magic (tw_stamp w) = SYNC_ABI_INIT_IN_PROGRESS -> c_ticks (tw_clock w) = [] ->
  dl - c_now (tw_clock w) < Z.of_nat fuel ->
  (0 < fuel)%nat ->
  runs n (loop op fuel (Some dl)) w (fun r w' => r = Err (stalled_error (op_kind op)) /\ tw_stamp w' = tw_stamp w).
Proof.
  revert w. induction fuel as [|fuel IH]; intros w Hm Ht Hf H0; [lia|].
  unfold loop. cbn [init_or_validate_within]. run_step. simpl. rewrite Hm. simpl.
  run_step. destruct (Z.leb_spec dl (c_now (tw_clock w))) as [Hle|Hgt]; [by run_step|].
  assert (tick (tw_clock w) = mk_clock (c_now (tw_clock w) + 1) []) as E by (unfold tick; by rewrite Ht).
  rewrite E. eapply runs_conseq; [apply IH; simpl; try done; lia|]. done.
Qed.

(** C22: an opener running alone, on a clock that advances by one at each look and with fuel above
    its timeout, returns and does what each state of the stamp asks for: validate a finished stamp, report a foreign magic, initialise a fresh one,
    and give up on one whose initialiser never finishes, without touching it. *)
Theorem sync_abi_open_alone n fuel op w :
  c_ticks (tw_clock w) = [] -> 0 <= op_timeout op < Z.of_nat fuel ->
  runs n (open_stamp (S fuel) op) w (fun r w' => (r, tw_stamp w') = open_outcome op (tw_stamp w)).
Proof.
  intros Ht Hf. unfold open_stamp, open_outcome. cbn [init_or_validate_within]. run_step.
  cbn [fget sub_field tw_stamp_f magic_f].
  destruct (Z.eqb_spec (st_magic (tw_stamp w)) SYNC_ABI_MAGIC) as [E|E].
  { unfold validate. repeat run_step. simpl. destruct (st_body (tw_stamp w)) eqn:Eb. simpl.
    case_bool_decide; by run_step. }
  destruct (Z.eqb_spec (st_magic (tw_stamp w)) SYNC_ABI_INIT_IN_PROGRESS) as [E'|E'].
  { simpl. run_step. run_step. unfold tick. rewrite Ht. simpl.
    destruct (Z.leb_spec (c_now (tw_clock w) + op_timeout op) (c_now (tw_clock w) + 1)); [by run_step|].
    eapply runs_conseq; [apply stalled_runs; simpl; try done; lia|]. simpl. by intros r w' [-> ->]. }
  destruct (Z.eqb_spec (st_magic (tw_stamp w)) 0) as [E0|E0]; [|by run_step].
  run_step. simpl. rewrite E0. simpl. unfold publish. repeat run_step. simpl. by destruct (op_expected op).
Qed.

Lemma sync_abi_open_alone_witness :
  let op := mk_opener MacOS Condition (expected_for MacOS Condition) 3 in
  let w := mk_stamp_world (mk_stamp SYNC_ABI_INIT_IN_PROGRESS (expected_for MacOS Condition)) (mk_clock 0 []) in
  exists r w', eval (open_stamp 6 op) w = Some (r, w') /\ (r, tw_stamp w') = open_outcome op (tw_stamp w).
Proof.
  intros op w. apply (runs_eval _ _ _ (sync_abi_open_alone 1 5 op w eq_refl ltac:(simpl; lia))).
Defined.
