(* ===== verification/Linux.v ===== *)
(** * The Linux mutex and condition variable

    [platform/linux.rs]: the robust priority-inheriting futex mutex and the
    requeueing condition variable, in memory shared with other processes.  The kernel
    is a parameter ([Kernel]): its calls are programs over the same memory, and
    [KernelLaws] states of them what futex(2), set_robust_list(2) and the kernel's
    robust-futex document say.

    A mutex is named by an integer, and so is a thread: by its kernel thread id.  A
    pointer to a mutex is only followed by the thread that holds it, in whose address
    space it is meant; so pointers name mutexes, whatever process they belong to. *)
From S2P Require Import Prelude Atomics Abi.

(** ** Memory *)

Inductive ptr := PNull | PHead (t : Z) | PMtx (a : Z).

#[export] Instance ptr_eq_dec : EqDecision ptr.
Proof. solve_decision. Defined.

Record A0Mtx := mk_A0Mtx { next : ptr; prev : ptr; ftx : Z }.
#[export] Instance A0Mtx_inhabited : Inhabited A0Mtx := populate (mk_A0Mtx PNull PNull 0).

Record RobustListHead := mk_RobustListHead { list_next : ptr; futex_offset : Z; list_op_pending : ptr }.

(** The thread-local statics [ROBUST_HEAD], [ROBUST_INIT] and [TID_CACHE]. *)
Record thread_locals := mk_thread_locals { ROBUST_HEAD : RobustListHead; ROBUST_INIT : bool; TID_CACHE : Z }.

Definition fresh_thread : thread_locals := mk_thread_locals (mk_RobustListHead PNull 0 PNull) false 0.
#[export] Instance thread_locals_inhabited : Inhabited thread_locals := populate fresh_thread.

(** The shared memory (mutexes, conditions and the data they protect), the threads' own
    memory, whether the fork handler is registered, and the kernel's own state. *)
Record mem (K : Type) := mk_mem {
  mtxs : gmap Z A0Mtx; cnds : gmap Z Z; cells : gmap Z Z;
  threads : gmap Z thread_locals; atfork : bool; kern : K }.
Arguments mk_mem {K} _ _ _ _ _ _.
Arguments mtxs {K} _.
Arguments cnds {K} _.
Arguments cells {K} _.
Arguments threads {K} _.
Arguments atfork {K} _.
Arguments kern {K} _.

Section fields.
Context {K : Type}.

Definition mtxs_f : field (mem K) (gmap Z A0Mtx) := mk_field mtxs (fun v m => mk_mem v (cnds m) (cells m) (threads m) (atfork m) (kern m)).
Definition cnds_f : field (mem K) (gmap Z Z) := mk_field cnds (fun v m => mk_mem (mtxs m) v (cells m) (threads m) (atfork m) (kern m)).
Definition cells_f : field (mem K) (gmap Z Z) := mk_field cells (fun v m => mk_mem (mtxs m) (cnds m) v (threads m) (atfork m) (kern m)).
Definition threads_f : field (mem K) (gmap Z thread_locals) := mk_field threads (fun v m => mk_mem (mtxs m) (cnds m) (cells m) v (atfork m) (kern m)).
Definition atfork_f : field (mem K) bool := mk_field atfork (fun v m => mk_mem (mtxs m) (cnds m) (cells m) (threads m) v (kern m)).
Definition kern_f : field (mem K) K := mk_field kern (fun v m => mk_mem (mtxs m) (cnds m) (cells m) (threads m) (atfork m) v).

Definition next_f : field A0Mtx ptr := mk_field next (fun v x => mk_A0Mtx v (prev x) (ftx x)).
Definition prev_f : field A0Mtx ptr := mk_field prev (fun v x => mk_A0Mtx (next x) v (ftx x)).
Definition ftx_f : field A0Mtx Z := mk_field ftx (fun v x => mk_A0Mtx (next x) (prev x) v).

Definition mtx_at (a : Z) : field (mem K) A0Mtx := sub_field mtxs_f (at_key a).
Definition ftx_of (a : Z) : field (mem K) Z := sub_field (mtx_at a) ftx_f.
Definition cnd_at (c : Z) : field (mem K) Z := sub_field cnds_f (at_key c).
Definition cell_at (a : Z) : field (mem K) Z := sub_field cells_f (at_key a).

Definition locals (me : Z) : field (mem K) thread_locals := sub_field threads_f (at_key me).
Definition ROBUST_HEAD_f : field thread_locals RobustListHead := mk_field ROBUST_HEAD (fun v x => mk_thread_locals v (ROBUST_INIT x) (TID_CACHE x)).
Definition ROBUST_INIT_f : field thread_locals bool := mk_field ROBUST_INIT (fun v x => mk_thread_locals (ROBUST_HEAD x) v (TID_CACHE x)).
Definition TID_CACHE_f : field thread_locals Z := mk_field TID_CACHE (fun v x => mk_thread_locals (ROBUST_HEAD x) (ROBUST_INIT x) v).
Definition list_next_f : field RobustListHead ptr := mk_field list_next (fun v x => mk_RobustListHead v (futex_offset x) (list_op_pending x)).
Definition futex_offset_f : field RobustListHead Z := mk_field futex_offset (fun v x => mk_RobustListHead (list_next x) v (list_op_pending x)).
Definition list_op_pending_f : field RobustListHead ptr := mk_field list_op_pending (fun v x => mk_RobustListHead (list_next x) (futex_offset x) v).
Definition robust_head (me : Z) : field (mem K) RobustListHead := sub_field (locals me) ROBUST_HEAD_f.

End fields.

(** ** Words *)

Definition FUTEX_TID_MASK : Z := 0x3fffffff.
Definition FUTEX_OWNER_DIED : Z := 0x40000000.
Definition FTX_NOTRECOVERABLE : Z := Z.lor FUTEX_TID_MASK FUTEX_OWNER_DIED.
Definition NS_PER_SEC : Z := 1000000000.
Definition INFINITE_MS : Z := 2 ^ 32 - 1.

Definition ftx_tid (ftx : Z) : Z := Z.land ftx FUTEX_TID_MASK.
Definition ftx_owner_died (ftx : Z) : bool := negb (Z.land ftx FUTEX_OWNER_DIED =? 0).
Definition ftx_notrecoverable (ftx : Z) : bool := Z.land ftx FTX_NOTRECOVERABLE =? FTX_NOTRECOVERABLE.

Definition EPERM : Z := 1.
Definition EINTR : Z := 4.
Definition EAGAIN : Z := 11.
Definition EBUSY : Z := 16.
Definition EINVAL : Z := 22.
Definition EDEADLK : Z := 35.
Definition ETIMEDOUT : Z := 110.
Definition EOWNERDEAD : Z := 130.
Definition ENOTRECOVERABLE : Z := 131.

Abbreviation A0Result := (result unit Z).

(** ** Time *)

Record timespec := mk_timespec { tv_sec : Z; tv_nsec : Z }.
Inductive clockid := CLOCK_REALTIME | CLOCK_MONOTONIC | CLOCK_BOOTTIME.

Definition clock_add (ts : timespec) (add_nsec : Z) : timespec :=
  let sec := tv_sec ts + Z.quot add_nsec NS_PER_SEC in
  let nsec := tv_nsec ts + Z.rem add_nsec NS_PER_SEC in
  if NS_PER_SEC <=? nsec then mk_timespec (sec + 1) (nsec - NS_PER_SEC)
  else if nsec <? 0 then mk_timespec (sec - 1) (nsec + NS_PER_SEC)
  else mk_timespec sec nsec.

Definition deadline_valid (ts : timespec) : bool :=
  negb ((tv_sec ts <? 0) || (tv_nsec ts <? 0) || ((tv_sec ts =? 0) && (tv_nsec ts =? 0)) || (NS_PER_SEC <=? tv_nsec ts)).

(** ** The kernel *)

(** Its calls, made by thread [me].  [k_blocked]: the mutex a thread sleeps on in a call that
    would lock it; [k_registered]: the thread's robust list is known. *)
Class Kernel (K : Type) := {
  clock_gettime : clockid -> prog (mem K) (result timespec Z);
  gettid : Z -> prog (mem K) Z;
  set_robust_list : Z -> prog (mem K) unit;
  futex_lock_pi : Z -> Z -> option timespec -> prog (mem K) A0Result;
  futex_trylock_pi : Z -> Z -> prog (mem K) A0Result;
  futex_unlock_pi : Z -> Z -> prog (mem K) A0Result;
  futex_wait_requeue_pi : Z -> Z -> Z -> option timespec -> Z -> prog (mem K) A0Result;
  futex_cmp_requeue_pi : Z -> Z -> Z -> Z -> Z -> prog (mem K) A0Result;
  exit_thread : Z -> prog (mem K) unit;
  k_blocked : K -> Z -> option Z;
  k_registered : K -> Z -> bool;
}.

(** ** The port *)

Section port.
Context {K : Type} `{!Kernel K}.
Abbreviation M := (prog (mem K)).

Definition clock_now (clk : clockid) : M (result timespec Z) := clock_gettime clk.

Definition clock_convert (orig_clk : clockid) (orig_ts : timespec) (target_clk : clockid) : M (result timespec Z) :=
  orig_now ←? clock_now orig_clk;
  target_now ←? clock_now target_clk;
  let add_nsec := (tv_sec orig_ts - tv_sec orig_now) * NS_PER_SEC + (tv_nsec orig_ts - tv_nsec orig_now) in
  Ret (Ok (clock_add target_now add_nsec)).

Definition make_deadline (tm : Z) : M (result timespec Z) :=
  let add_ns := let w := wrap 64 (tm * 1000000) in if w <? 2 ^ 63 then w else w - 2 ^ 64 in
  if add_ns <? 0 then Ret (Err EINVAL)
  else now ←? clock_now CLOCK_BOOTTIME; Ret (Ok (clock_add now add_ns)).

(** *** The calling thread *)

(** Registers [reset_after_fork], once per process. *)
Definition register_atfork : M unit := store atfork_f true.

(** What the fork handler does in the child, whose only thread is [me]. *)
Definition reset_after_fork (me : Z) : M unit :=
  _ ← store (sub_field (locals me) ROBUST_INIT_f) false;
  store (sub_field (locals me) TID_CACHE_f) 0.

Definition tid (me : Z) : M Z :=
  c ← load (sub_field (locals me) TID_CACHE_f);
  if c =? 0 then
    x ← gettid me;
    _ ← store (sub_field (locals me) TID_CACHE_f) (wrap 32 x);
    _ ← register_atfork;
    load (sub_field (locals me) TID_CACHE_f)
  else Ret c.

(** *** The robust list *)

Definition robust_init (me : Z) : M unit :=
  _ ← store (sub_field (robust_head me) list_next_f) (PHead me);
  _ ← store (sub_field (robust_head me) futex_offset_f) a0_mtx_ftx_off;
  _ ← store (sub_field (robust_head me) list_op_pending_f) PNull;
  set_robust_list me.

Definition init_thread (me : Z) : M unit :=
  i ← load (sub_field (locals me) ROBUST_INIT_f);
  if (i : bool) then Ret tt
  else
    _ ← register_atfork;
    _ ← robust_init me;
    store (sub_field (locals me) ROBUST_INIT_f) true.

Definition robust_op_start (me a : Z) : M unit :=
  _ ← init_thread me;
  store (sub_field (robust_head me) list_op_pending_f) (PMtx a).

Definition robust_op_end (me a : Z) : M unit :=
  store (sub_field (robust_head me) list_op_pending_f) PNull.

Definition robust_is_head (me : Z) (p : ptr) : bool := bool_decide (p = PHead me).

(** Stores through a pointer; a head is addressed through [next] only. *)
Definition set_next (p v : ptr) : M unit :=
  match p with
  | PMtx a => store (sub_field (mtx_at a) next_f) v
  | PHead t => store (sub_field (robust_head t) list_next_f) v
  | PNull => Spin
  end.

Definition set_prev (p v : ptr) : M unit :=
  match p with PMtx a => store (sub_field (mtx_at a) prev_f) v | _ => Spin end.

Definition robust_op_add (me a : Z) : M unit :=
  old_first ← load (sub_field (robust_head me) list_next_f);
  _ ← set_prev (PMtx a) (PHead me);
  _ ← set_next (PMtx a) old_first;
  _ ← store (sub_field (robust_head me) list_next_f) (PMtx a);
  if negb (robust_is_head me old_first) then set_prev old_first (PMtx a) else Ret tt.

Definition robust_op_del (me a : Z) : M unit :=
  p ← load (sub_field (mtx_at a) prev_f);
  n ← load (sub_field (mtx_at a) next_f);
  _ ← set_next p n;
  if negb (robust_is_head me n) then set_prev n p else Ret tt.

(** *** Futex calls *)

Definition ftx_lock_pi (me a : Z) (deadline : option timespec) : M A0Result :=
  match deadline with
  | None => futex_lock_pi me a None
  | Some deadline =>
      ts_wall ←? clock_convert CLOCK_BOOTTIME deadline CLOCK_REALTIME;
      futex_lock_pi me a (Some ts_wall)
  end.

Definition ftx_trylock_pi (me a : Z) : M A0Result := futex_trylock_pi me a.

Definition ftx_unlock_pi (me a : Z) : M A0Result := futex_unlock_pi me a.

Definition ftx_cmp_requeue_pi (me c confirm_val a max_requeue : Z) : M A0Result :=
  futex_cmp_requeue_pi me c confirm_val a max_requeue.

Definition ftx_wait_requeue_pi (me c confirm_val : Z) (deadline : option timespec) (a : Z) : M A0Result :=
  match deadline with
  | None => futex_wait_requeue_pi me c confirm_val None a
  | Some deadline =>
      ts_mono ←? clock_convert CLOCK_BOOTTIME deadline CLOCK_MONOTONIC;
      futex_wait_requeue_pi me c confirm_val (Some ts_mono) a
  end.

Definition cas (word : field (mem K) Z) (old new : Z) : M bool :=
  r ← compare_exchange word old new; Ret (is_ok r).

(** *** The mutex *)

(** The loop of [mtx_timedlock_robust]: it ends with an errno other than EINTR, or 0. *)
Fixpoint mtx_timedlock_loop (n : nat) (me tid a : Z) (deadline : option timespec) : M A0Result :=
  match n with
  | O => Spin
  | S n =>
      v ← load (ftx_of a);
      if ftx_notrecoverable v then Ret (Err ENOTRECOVERABLE)
      else
        ok ← cas (ftx_of a) 0 tid;
        if (ok : bool) then Ret (Ok tt)
        else
          r ← ftx_lock_pi me a deadline;
          match r with
          | Err e => if e =? EINTR then mtx_timedlock_loop n me tid a deadline else Ret (Err e)
          | Ok _ => v ← load (ftx_of a); Ret (if ftx_owner_died v then Err EOWNERDEAD else Ok tt)
          end
  end.

Definition mtx_timedlock_robust (fuel : nat) (me a : Z) (deadline : option timespec) : M A0Result :=
  tid ← tid me;
  mtx_timedlock_loop fuel me tid a deadline.

Definition mtx_timedlock (fuel : nat) (me a : Z) (deadline : option timespec) : M A0Result :=
  _ ← robust_op_start me a;
  r ← mtx_timedlock_robust fuel me a deadline;
  _ ← (match r with
       | Ok _ => robust_op_add me a
       | Err e => if e =? EOWNERDEAD then robust_op_add me a else Ret tt
       end);
  _ ← robust_op_end me a;
  Ret r.

Definition mtx_trylock_impl (me a : Z) : M A0Result :=
  tid ← tid me;
  r ← compare_exchange (ftx_of a) 0 tid;
  match r with
  | Ok _ => _ ← robust_op_add me a; Ret (Ok tt)
  | Err old =>
      if ftx_notrecoverable old then Ret (Err ENOTRECOVERABLE)
      else if negb (ftx_owner_died old) then Ret (Err EBUSY)
      else
        r ← ftx_trylock_pi me a;
        match r with
        | Ok _ =>
            _ ← robust_op_add me a;
            v ← load (ftx_of a);
            Ret (if ftx_owner_died v then Err EOWNERDEAD else Ok tt)
        | Err e => Ret (Err (if e =? EAGAIN then EBUSY else ENOTRECOVERABLE))
        end
  end.

Definition mtx_trylock (me a : Z) : M A0Result :=
  _ ← robust_op_start me a;
  r ← mtx_trylock_impl me a;
  _ ← robust_op_end me a;
  Ret r.

Definition mtx_consistent (me a : Z) : M A0Result :=
  v ← load (ftx_of a);
  if negb (ftx_owner_died v) then Ret (Err EINVAL)
  else
    t ← tid me;
    if negb (ftx_tid v =? t) then Ret (Err EPERM)
    else _ ← fetch_and (ftx_of a) (unot 32 FUTEX_OWNER_DIED); Ret (Ok tt).

Definition mtx_unlock (me a : Z) : M A0Result :=
  tid ← tid me;
  v ← load (ftx_of a);
  if negb (ftx_tid v =? tid) then Ret (Err EPERM)
  else
    let new_val := if ftx_owner_died v then FTX_NOTRECOVERABLE else 0 in
    _ ← robust_op_start me a;
    _ ← robust_op_del me a;
    ok ← cas (ftx_of a) tid new_val;
    _ ← (if negb ok then
           _ ← ftx_unlock_pi me a;
           if negb (new_val =? 0) then _ ← fetch_or (ftx_of a) new_val; Ret tt else Ret tt
         else Ret tt);
    _ ← robust_op_end me a;
    Ret (Ok tt).

(** *** The condition *)

Fixpoint cnd_wait_loop (n : nat) (me c init_cnd : Z) (deadline : option timespec) (a : Z) : M A0Result :=
  match n with
  | O => Spin
  | S n =>
      err ← ftx_wait_requeue_pi me c init_cnd deadline a;
      if bool_decide (err = Err EINTR) then cnd_wait_loop n me c init_cnd deadline a else Ret err
  end.

Definition cnd_timedwait (fuel : nat) (me c a : Z) (deadline : option timespec) : M A0Result :=
  init_cnd ← load (cnd_at c);
  _ ←? mtx_unlock me a;
  _ ← robust_op_start me a;
  err ← cnd_wait_loop fuel me c init_cnd deadline a;
  err ← (if bool_decide (err = Err ETIMEDOUT) then
           r ← mtx_timedlock_robust fuel me a None;
           Ret (match r with Err e => Err e | Ok _ => err end)
         else Ret err);
  err ← (if bool_decide (err = Err EAGAIN) then mtx_timedlock_robust fuel me a None else Ret err);
  _ ← robust_op_add me a;
  err ← (match err with
         | Ok _ => v ← load (ftx_of a); Ret (if ftx_owner_died v then Err EOWNERDEAD else Ok tt)
         | Err e => Ret (Err e)
         end);
  _ ← robust_op_end me a;
  Ret err.

Fixpoint cnd_wake_loop (n : nat) (me c a val cnt : Z) : M A0Result :=
  match n with
  | O => Spin
  | S n =>
      r ← ftx_cmp_requeue_pi me c val a cnt;
      match r with
      | Err e => if e =? EAGAIN then val ← load (cnd_at c); cnd_wake_loop n me c a val cnt else Ret (Err e)
      | other => Ret other
      end
  end.

Definition cnd_wake (fuel : nat) (me c a cnt : Z) : M A0Result :=
  old ← fetch_add 32 (cnd_at c) 1;
  cnd_wake_loop fuel me c a (wrapping_add 32 old 1) cnt.

(** *** [PlatformMutex] and [PlatformCondition], by the address of their payload *)

Definition check (r : A0Result) : io_result unit := match r with Ok _ => Ok tt | Err e => Err (os_error e) end.

Fixpoint lock_for (n fuel : nat) (me a tm : Z) : M (io_result bool) :=
  match n with
  | O => Spin
  | S n =>
      r ←? (if tm =? INFINITE_MS then r ← mtx_timedlock fuel me a None; Ret (Ok r)
            else
              d ← make_deadline tm;
              match d with
              | Err e => Ret (Err (os_error e))
              | Ok deadline => r ← mtx_timedlock fuel me a (Some deadline); Ret (Ok r)
              end);
      match r : A0Result with
      | Ok _ => Ret (Ok true)
      | Err e =>
          if e =? ETIMEDOUT then Ret (Ok false)
          else if e =? EOWNERDEAD then
            c ← mtx_consistent me a;
            match check c with
            | Err e => Ret (Err e)
            | Ok _ =>
                u ← mtx_unlock me a;
                match check u with
                | Err e => Ret (Err e)
                | Ok _ => lock_for n fuel me a tm
                end
            end
          else Ret (Err (os_error e))
      end
  end.

Definition lock (n fuel : nat) (me a : Z) : M (io_result unit) :=
  ok ←? lock_for n fuel me a INFINITE_MS;
  Ret (if (ok : bool) then Ok tt else Err (os_error ETIMEDOUT)).

Definition lock_timeout (n fuel : nat) (me a timeout_ms : Z) : M (io_result bool) := lock_for n fuel me a timeout_ms.

Definition try_lock (n fuel : nat) (me a : Z) : M (io_result bool) :=
  r ← lock_for n fuel me a 0;
  Ret (match r with
       | Err e => if bool_decide (err_kind e = EkOs EDEADLK) then Ok false else r
       | Ok _ => r
       end).

Definition unlock (me a : Z) : M (io_result unit) := r ← mtx_unlock me a; Ret (check r).

Definition wait (fuel : nat) (me c a : Z) (timeout_ms : option Z) : M (io_result bool) :=
  let tm := default INFINITE_MS timeout_ms in
  r ←? (if tm =? INFINITE_MS then r ← cnd_timedwait fuel me c a None; Ret (Ok r)
        else
          d ← make_deadline tm;
          match d with
          | Err e => Ret (Err (os_error e))
          | Ok deadline =>
              if negb (deadline_valid deadline) then Ret (Err (os_error EINVAL))
              else r ← cnd_timedwait fuel me c a (Some deadline); Ret (Ok r)
          end);
  match r : A0Result with
  | Ok _ => Ret (Ok true)
  | Err e =>
      if e =? ETIMEDOUT then Ret (Ok false)
      else if e =? EOWNERDEAD then c ← mtx_consistent me a; Ret (match check c with Ok _ => Ok true | Err e => Err e end)
      else Ret (Err (os_error e))
  end.

Definition notify (fuel : nat) (me c a : Z) : M (io_result unit) := r ← cnd_wake fuel me c a 1; Ret (check r).

Definition broadcast (fuel : nat) (me c a : Z) : M (io_result unit) := r ← cnd_wake fuel me c a (2 ^ 31 - 1); Ret (check r).

End port.
