(* ===== verification/RobustMutex.v ===== *)
(** * The Linux mutex under interleaving and thread death

    Threads that lock and unlock mutexes through [PlatformMutex] (Linux.v), interleaved
    access by access with each other and with the kernel, each of which may be killed
    before any of its accesses.  A mutex has one holder, a lock call that reports success
    has made the caller that holder, and whatever a dead thread held is released by the
    kernel: the robust list and the pending entry cover it at every instruction. *)
From S2P Require Import Prelude Atomics Abi Concurrent Linux.

(** ** What the kernel promises *)

Section views.
Context {K : Type} `{!Kernel K}.
Implicit Type s : mem K.

Definition owner s (a : Z) : Z := ftx_tid (ftx (mtxs s !!! a)).
Definition died s (a : Z) : bool := ftx_owner_died (ftx (mtxs s !!! a)).
Definition blocked s (t : Z) : option Z := k_blocked (kern s) t.
Definition registered s (t : Z) : bool := k_registered (kern s) t.

(** A step that changes nothing but the kernel's own state, or that and the word of [a]. *)
Definition only_kern s s' : Prop := exists κ, s' = fset kern_f κ s.
Definition only_word (a : Z) s s' : Prop := only_kern s s' \/ exists v κ, s' = fset kern_f κ (fset (ftx_of a) v s).

Definition same_owner (a : Z) s s' : Prop := owner s' a = owner s a /\ died s' a = died s a.

(** What a call of [me] leaves alone of the kernel's view of threads. *)
Definition kframe (me : Z) s s' : Prop :=
  (forall t, t <> me -> blocked s' t = blocked s t) /\ forall t, registered s' t = registered s t.

Definition silent s s' : Prop :=
  only_kern s s' /\ (forall t, blocked s' t = blocked s t) /\ forall t, registered s' t = registered s t.

(** FUTEX_LOCK_PI.  While it waits, only the waiters bit of the word changes, and the caller goes to
    sleep on a mutex it does not hold; the mutex may then be handed to it by the thread that unlocks.
    It succeeds by taking a free mutex, or when it has been handed one, and keeps the owner-died bit;
    EOWNERDEAD is not among its errors. *)
Definition lock_waits (me a : Z) s s' : Prop :=
  only_word a s s' /\ same_owner a s s' /\ kframe me s s' /\
  (owner s a = me -> blocked s' me = blocked s me) /\ (blocked s' me = None \/ blocked s' me = Some a).

Definition lock_returns (me a : Z) (r : A0Result) s s' : Prop :=
  only_word a s s' /\ kframe me s s' /\ blocked s' me = None /\
  match r with
  | Ok _ => owner s' a = me /\ died s' a = died s a /\ (owner s a = 0 \/ owner s a = me /\ blocked s me = Some a)
  | Err e => same_owner a s s' /\ (owner s a = me -> blocked s me = None) /\ e <> EOWNERDEAD
  end.

(** FUTEX_UNLOCK_PI by the holder: the mutex is free, or belongs to a thread that slept on it. *)
Definition unlock_returns (me a : Z) (r : A0Result) s s' : Prop :=
  only_word a s s' /\ (forall t, blocked s' t = blocked s t) /\ (forall t, registered s' t = registered s t) /\
  match r with
  | Ok _ => owner s a = me /\ died s' a = false /\
      (owner s' a = 0 \/ (owner s' a <> me /\ blocked s (owner s' a) = Some a))
  | Err _ => same_owner a s s' /\ owner s a <> me
  end.

Definition registers (me : Z) s s' : Prop :=
  only_kern s s' /\ (forall t, blocked s' t = blocked s t) /\ registered s' me = true /\
  forall t, t <> me -> registered s' t = registered s t.

(** The robust list: from [p] along [next] to the head. *)
Fixpoint chained s (me : Z) (p : ptr) (l : list Z) : Prop :=
  match l with
  | [] => p = PHead me
  | a :: l => p = PMtx a /\ chained s me (next (mtxs s !!! a)) l
  end.

(** What the kernel finds when thread [me] dies: the list and the pending entry. *)
Definition listed s (me : Z) (l pend : list Z) : Prop :=
  let h := ROBUST_HEAD (threads s !!! me) in
  if registered s me then
    futex_offset h = a0_mtx_ftx_off /\ chained s me (list_next h) l /\
    pend = match list_op_pending h with PMtx a => [a] | _ => [] end
  else l = [] /\ pend = [].

(** The kernel releases a futex that carries the dead thread's id, and marks it. *)
Definition dies (me a : Z) s s' : Prop :=
  only_word a s s' /\ (forall t, blocked s' t = blocked s t) /\ (forall t, registered s' t = registered s t) /\
  if decide (owner s a = me) then owner s' a = 0 /\ died s' a = true else same_owner a s s'.

(** The walk, with [l] and [pend] still to be visited: as long as the rest of the list is intact, an
    access visits its first entry (or skips it if it is the pending one), the pending entry after the
    list, or nothing. *)
Fixpoint exits {A} (me : Z) (l pend : list Z) (p : prog (mem K) A) : Prop :=
  match p with
  | Ret _ => l = [] /\ pend = []
  | Spin => True
  | Act f k => forall s q, chained s me q l ->
      (silent s (f s).2 /\ exits me l pend (k (f s).1)) \/
      (exists a l', l = a :: l' /\ a ∈ pend /\ silent s (f s).2 /\ exits me l' pend (k (f s).1)) \/
      (exists a l', l = a :: l' /\ dies me a s (f s).2 /\ exits me l' pend (k (f s).1)) \/
      (exists a, l = [] /\ pend = [a] /\ dies me a s (f s).2 /\ exits me [] [] (k (f s).1))
  | Flip k => forall b, exits me l pend (k b)
  end.

Definition exit_starts {A} (me : Z) (p : prog (mem K) A) : Prop :=
  match p with
  | Act f k => forall s l pend, listed s me l pend ->
      only_kern s (f s).2 /\ kframe me s (f s).2 /\ blocked (f s).2 me = None /\ exits me l pend (k (f s).1)
  | _ => False
  end.

End views.

Class KernelLaws (K : Type) `{!Kernel K} : Prop := {
  law_clock clk : call silent (fun r s s' => r <> Err EOWNERDEAD /\ silent s s') (clock_gettime clk);
  law_gettid me : call silent (fun x s s' => x = me /\ silent s s') (gettid me);
  law_set_robust_list me : call silent (fun _ => registers me) (set_robust_list me);
  law_lock_pi me a tm : 0 < me < FUTEX_TID_MASK -> call (lock_waits me a) (lock_returns me a) (futex_lock_pi me a tm);
  law_unlock_pi me a : call silent (unlock_returns me a) (futex_unlock_pi me a);
  law_exit me : exit_starts me (exit_thread me);
}.

(** ** The robust list as a doubly linked list *)

Definition upd {A} (f : Z -> A) (x : Z) (v : A) : Z -> A := fun y => if decide (y = x) then v else f y.

Lemma upd_eq {A} (f : Z -> A) x v : upd f x v x = v.
Proof. unfold upd. by rewrite decide_True. Qed.
Lemma upd_ne {A} (f : Z -> A) x y v : y <> x -> upd f x v y = f y.
Proof. intros. unfold upd. by rewrite decide_False. Qed.

(** The links of the entries from [p] to the head; [pp] is what the first points back to. *)
Fixpoint dl (links : Z -> ptr * ptr) (me : Z) (pp p : ptr) (l : list Z) : Prop :=
  match l with
  | [] => p = PHead me
  | a :: l => p = PMtx a /\ (links a).2 = pp /\ dl links me (PMtx a) (links a).1 l
  end.

(** The forward links only: what the kernel follows. *)
Fixpoint nl (links : Z -> ptr * ptr) (me : Z) (p : ptr) (l : list Z) : Prop :=
  match l with
  | [] => p = PHead me
  | a :: l => p = PMtx a /\ nl links me (links a).1 l
  end.

Lemma dl_nl links me pp p l : dl links me pp p l -> nl links me p l.
Proof. revert pp p. induction l as [|a l IH]; intros pp p; simpl; [done|]. intros (? & _ & ?). split; [done|eauto]. Qed.

Lemma nl_ext links links' me p l : (forall a, a ∈ l -> (links' a).1 = (links a).1) -> nl links me p l -> nl links' me p l.
Proof.
  revert p. induction l as [|a l IH]; intros p He; simpl; [done|]. intros [-> Hl]. split; [done|].
  rewrite He by (by left). apply IH; [|done]. intros b Hb. apply He. by right.
Qed.

Lemma dl_ext links links' me pp p l : (forall a, a ∈ l -> links' a = links a) -> dl links me pp p l -> dl links' me pp p l.
Proof.
  revert pp p. induction l as [|a l IH]; intros pp p He; simpl; [done|]. intros (-> & ? & Hl). split; [done|].
  rewrite He by (by left). split; [done|]. apply IH; [|done]. intros b Hb. apply He. by right.
Qed.

(** The first entry of a list, and what it points back to. *)
Lemma dl_first links me pp p l : dl links me pp p l -> p = match l with [] => PHead me | b :: _ => PMtx b end.
Proof. destruct l; simpl; [done|by intros (? & _)]. Qed.

(** The first entry's back link may change with what it should point to. *)
Definition back (links : Z -> ptr * ptr) (pp : ptr) (l : list Z) : Z -> ptr * ptr :=
  match l with [] => links | b :: _ => upd links b ((links b).1, pp) end.

Lemma dl_back links me pp pp' p l : NoDup l -> dl links me pp p l -> dl (back links pp' l) me pp' p l.
Proof.
  destruct l as [|b l]; simpl; [done|]. intros [Hb _]%NoDup_cons (-> & _ & Hl). rewrite upd_eq. split; [done|]. split; [done|].
  eapply dl_ext; [|done]. intros x Hx. apply upd_ne. by intros ->.
Qed.

Lemma back_out links pp l x : x ∉ l -> back links pp l x = links x.
Proof. destruct l as [|b l]; [done|]. intros Hx. apply upd_ne. intros ->. apply Hx. by left. Qed.

(** Unlinking [a]: its predecessor's forward link, then its successor's back link. *)
Definition before (pp : ptr) (l1 : list Z) : ptr := match last l1 with Some b => PMtx b | None => pp end.

Definition forward (links : Z -> ptr * ptr) (q : ptr) (l1 : list Z) : Z -> ptr * ptr :=
  match last l1 with Some b => upd links b (q, (links b).2) | None => links end.

Lemma before_cons pp b l1 : before pp (b :: l1) = before (PMtx b) l1.
Proof. unfold before. rewrite last_cons. by destruct (last l1). Qed.

Lemma dl_middle links me pp p l1 a l2 : dl links me pp p (l1 ++ a :: l2) ->
  (links a).2 = before pp l1 /\ dl links me (PMtx a) (links a).1 l2.
Proof.
  revert pp p. induction l1 as [|b l1 IH]; intros pp p; simpl; [by intros (_ & ? & ?)|].
  intros (_ & _ & H). apply IH in H as [E1 E2]. split; [|done]. by rewrite E1, before_cons.
Qed.

Lemma dl_del links me pp p l1 a l2 : NoDup (l1 ++ a :: l2) -> dl links me pp p (l1 ++ a :: l2) ->
  let q := fst (links a) in
  nl (forward links q l1) me (match l1 with [] => q | _ => p end) (l1 ++ l2) /\
  dl (back (forward links q l1) (before pp l1) l2) me pp (match l1 with [] => q | _ => p end) (l1 ++ l2).
Proof.
  intros Hnd Hl q. assert (dl (back (forward links q l1) (before pp l1) l2) me pp (match l1 with [] => q | _ => p end) (l1 ++ l2)) as Hd.
  - unfold q. clear q. revert pp p Hnd Hl. induction l1 as [|b l1 IH]; intros pp p Hnd Hl.
    + simpl in *. destruct Hl as (_ & _ & Hl). apply NoDup_cons in Hnd as [_ Hnd]. by eapply dl_back.
    + simpl in Hnd, Hl. destruct Hl as (-> & Eb & Hl). apply NoDup_cons in Hnd as [Hb Hnd].
      assert ((b ∉ l1) /\ b <> a /\ (b ∉ l2)) as (Hb1 & Hba & Hb2).
      { rewrite elem_of_app, elem_of_cons in Hb. split_and!; intros ?; apply Hb; auto. }
      destruct l1 as [|c l1].
      * simpl in *. destruct Hl as (_ & _ & Hl). unfold before, forward. simpl. rewrite back_out, upd_eq by done.
        split; [done|]. split; [done|]. simpl. apply NoDup_cons in Hnd as [_ Hnd]. eapply dl_back; [done|].
        eapply dl_ext; [|done]. intros x Hx. apply upd_ne. by intros ->.
      * specialize (IH (PMtx b) (links b).1 Hnd Hl). cbn [app dl]. split; [done|].
        assert (forward links (links a).1 (b :: c :: l1) = forward links (links a).1 (c :: l1)) as E1 by (unfold forward; by rewrite last_cons_cons).
        rewrite E1, before_cons. rewrite back_out by done.
        assert (forward links (links a).1 (c :: l1) b = links b) as ->.
        { unfold forward. destruct (last (c :: l1)) as [x|] eqn:El; [|done]. apply upd_ne. intros <-. apply Hb1. by apply last_Some_elem_of. }
        split; [done|]. exact IH.
  - split; [|done]. apply dl_nl in Hd. eapply nl_ext; [|exact Hd]. intros x _. destruct l2 as [|c l2]; [done|]. simpl.
    unfold upd. destruct (decide _) as [->|]; done.
Qed.

(** ** The invariant *)

(** What a thread knows: its own memory, the links of the mutexes it holds, the mutexes it holds
    ([g_new]: the one it has just got, perhaps or certainly from a dead holder), the mutex it asks the kernel
    for, whether its list is registered, and the cells it has written. *)
Record ghost := mk_ghost {
  g_me : Z; g_loc : thread_locals; g_links : Z -> ptr * ptr; g_own : list Z; g_new : option (Z * bool);
  g_call : option Z; g_reg : bool; g_in : list Z }.

Section invariant.
Context {K : Type} `{!Kernel K, !KernelLaws K}.
Implicit Type s : mem K.

Record thread_inv s (g : ghost) : Prop := {
  ti_id : 0 < g_me g < FUTEX_TID_MASK;
  ti_loc : threads s !!! g_me g = g_loc g;
  ti_reg : registered s (g_me g) = g_reg g;
  ti_own : forall a, a ∈ g_own g -> owner s a = g_me g /\ (next (mtxs s !!! a), prev (mtxs s !!! a)) = g_links g a;
  ti_all : forall a, owner s a = g_me g -> a ∈ g_own g \/ blocked s (g_me g) = Some a;
  ti_blk : forall a, blocked s (g_me g) = Some a -> g_call g = Some a /\ (a ∉ g_own g) /\ g_new g = None;
  ti_died : forall a, a ∈ g_own g -> (forall k, g_new g <> Some (a, k)) -> died s a = false;
  ti_dead : forall a, a ∈ g_own g -> g_new g = Some (a, true) -> died s a = true;
  ti_cells : forall a, a ∈ g_in g -> a ∈ g_own g /\ cells s !!! a = g_me g;
}.

(** The threads of the pool. *)
Context (ids : list Z).

Record lock_inv s (Γ : list ghost) : Prop := {
  lk_ids : g_me <$> Γ = ids;
  lk_threads : forall j g, Γ !! j = Some g -> thread_inv s g;
  lk_distinct : forall j j' g g', Γ !! j = Some g -> Γ !! j' = Some g' -> g_me g = g_me g' -> j = j';
  lk_words : forall a, owner s a = 0 \/ exists j g, Γ !! j = Some g /\ owner s a = g_me g;
  lk_blocked : forall t a, blocked s t = Some a -> exists j g, Γ !! j = Some g /\ t = g_me g;
}.

(** A step of thread [me], as the others see it. *)
Record frame (me : Z) s s' : Prop := {
  fr_loc : forall t, t <> me -> threads s' !!! t = threads s !!! t;
  fr_blk : forall t, t <> me -> blocked s' t = blocked s t;
  fr_reg : forall t, t <> me -> registered s' t = registered s t;
  fr_mtx : forall a, owner s a <> me -> owner s a <> 0 ->
    owner s' a = owner s a /\ died s' a = died s a /\ next (mtxs s' !!! a) = next (mtxs s !!! a) /\
    prev (mtxs s' !!! a) = prev (mtxs s !!! a) /\ cells s' !!! a = cells s !!! a;
  fr_new : forall a, owner s' a = 0 \/ owner s' a = me \/ owner s' a = owner s a \/ blocked s (owner s' a) = Some a;
}.

Lemma lock_inv_step s s' Γ j g g' :
  lock_inv s Γ -> Γ !! j = Some g -> g_me g' = g_me g -> frame (g_me g) s s' -> thread_inv s' g' ->
  lock_inv s' (<[j := g']> Γ).
Proof.
  intros [] Hj Eme [] Hg'.
  assert (forall i h, Γ !! i = Some h -> i <> j -> g_me h <> g_me g) as Hne.
  { intros i h Hi Hij E. destruct Hij. by eapply lk_distinct0. }
  assert (forall i h, Γ !! i = Some h -> exists h', <[j := g']> Γ !! i = Some h' /\ g_me h' = g_me h) as Hkeep.
  { intros i h Hi. destruct (decide (i = j)) as [->|Hij].
    - exists g'. rewrite list_lookup_insert_eq by (by eapply lookup_lt_Some). split; [done|]. congruence.
    - exists h. by rewrite list_lookup_insert_ne. }
  constructor.
  - rewrite list_fmap_insert, Eme, list_insert_id; [done|]. by rewrite list_lookup_fmap, Hj.
  - intros i h [(<- & <- & _)|(Hij & Hi)]%list_lookup_insert_Some; [done|].
    pose proof (lk_threads0 i h Hi) as []. specialize (Hne i h Hi ltac:(congruence)).
    assert (forall a, a ∈ g_own h -> owner s a <> g_me g /\ owner s a <> 0) as Hown.
    { intros a Ha. destruct (ti_own0 a Ha) as [-> _]. split; [done|lia]. }
    constructor; try done.
    + by rewrite fr_loc0.
    + by rewrite fr_reg0.
    + intros a Ha. destruct (ti_own0 a Ha) as [E1 E2]. destruct (Hown a Ha). destruct (fr_mtx0 a) as (-> & _ & -> & -> & _); done.
    + intros a Ha. rewrite fr_blk0 by done. destruct (fr_new0 a) as [E|[E|[E|E]]]; [lia|congruence| |right; congruence].
      apply ti_all0. congruence.
    + intros a Ha. apply ti_blk0. by rewrite <- fr_blk0.
    + intros a Ha Hn. destruct (Hown a Ha). destruct (fr_mtx0 a) as (_ & -> & _); auto.
    + intros a Ha Hn. destruct (Hown a Ha). destruct (fr_mtx0 a) as (_ & -> & _); auto.
    + intros a Ha. destruct (ti_cells0 a Ha) as [Ha' E]. destruct (Hown a Ha'). destruct (fr_mtx0 a) as (_ & _ & _ & _ & ->); auto.
  - intros i i' h h' Hi Hi' E.
    assert (forall k x, <[j := g']> Γ !! k = Some x -> exists y, Γ !! k = Some y /\ g_me y = g_me x) as Hback.
    { intros k x [(<- & <- & _)|(_ & Hk)]%list_lookup_insert_Some; [exists g; split; [done|congruence]|by exists x]. }
    destruct (Hback _ _ Hi) as (y & Hy & Ey), (Hback _ _ Hi') as (y' & Hy' & Ey'). eapply lk_distinct0; [done|done|congruence].
  - intros a. destruct (fr_new0 a) as [E|[E|[E|E]]]; [by left|right|rewrite E|right].
    + destruct (Hkeep j g Hj) as (h' & Hh' & Eh). exists j, h'. split; [done|congruence].
    + destruct (lk_words0 a) as [?|(i & h & Hi & Eo)]; [by left|right]. destruct (Hkeep i h Hi) as (h' & Hh' & Eh). exists i, h'. split; [done|congruence].
    + destruct (lk_blocked0 _ _ E) as (i & h & Hi & Eo). destruct (Hkeep i h Hi) as (h' & Hh' & Eh). exists i, h'. split; [done|congruence].
  - intros t a Hb. destruct (decide (t = g_me g)) as [->|Hne'].
    + destruct (Hkeep j g Hj) as (h' & Hh' & Eh). exists j, h'. split; [done|congruence].
    + rewrite fr_blk0 in Hb by done. destruct (lk_blocked0 _ _ Hb) as (i & h & Hi & Eo). destruct (Hkeep i h Hi) as (h' & Hh' & Eh).
      exists i, h'. split; [done|congruence].
Qed.

(** ** Threads that may die at any access *)

(** What the kernel would find now covers all the thread holds. *)
Definition safe (g : ghost) : Prop :=
  let h := ROBUST_HEAD (g_loc g) in
  NoDup (g_own g) /\
  if g_reg g then
    futex_offset h = a0_mtx_ftx_off /\
    exists l, nl (g_links g) (g_me g) (list_next h) l /\ NoDup l /\ (forall a, a ∈ l -> a ∈ g_own g) /\
      (forall a, a ∈ g_own g \/ g_call g = Some a -> a ∈ l \/ list_op_pending h = PMtx a)
  else g_own g = [] /\ g_call g = None.

(** Thread [j] of the pool is the thread [id j]. *)
Context (id : nat -> Z).

Definition alive (j : nat) (g : ghost) : Prop := safe g /\ g_me g = id j.

Definition inv (j : nat) : mem K -> list ghost -> Prop := with_ghost lock_inv j (alive j).
Abbreviation wp j := (wpc (inv j) j).

Lemma inv_step s s' Γ j g g' :
  inv j s Γ -> Γ !! j = Some g -> g_me g' = g_me g -> frame (g_me g) s s' -> thread_inv s' g' -> safe g' ->
  inv j s' (<[j := g']> Γ).
Proof.
  intros [HI Ha] Hj Em Hf Ht Hs. split; [by eapply lock_inv_step|]. intros h Hh. destruct (Ha g Hj).
  rewrite list_lookup_insert_eq in Hh by (by eapply lookup_lt_Some). simplify_eq. split; [done|congruence].
Qed.

Lemma inv_thread s Γ j g : inv j s Γ -> Γ !! j = Some g -> thread_inv s g /\ safe g.
Proof. intros [[_ Ht _ _ _] Hs] Hj. split; [eauto|]. by apply Hs. Qed.

Lemma frame_same me s s' :
  (forall t, t <> me -> threads s' !!! t = threads s !!! t) -> kern s' = kern s ->
  (forall a, ftx (mtxs s' !!! a) = ftx (mtxs s !!! a)) ->
  (forall a, owner s a <> me -> next (mtxs s' !!! a) = next (mtxs s !!! a) /\ prev (mtxs s' !!! a) = prev (mtxs s !!! a) /\
     cells s' !!! a = cells s !!! a) ->
  frame me s s'.
Proof.
  intros Ht Ek Ef Hm. constructor; unfold owner, died, blocked, registered; rewrite ?Ek; try done.
  - intros a Ho _. rewrite Ef. by destruct (Hm a Ho) as (? & ? & ?).
  - intros a. rewrite Ef. auto.
Qed.

Definition set_loc (v : thread_locals) (g : ghost) : ghost :=
  mk_ghost (g_me g) v (g_links g) (g_own g) (g_new g) (g_call g) (g_reg g) (g_in g).
Definition set_links (f : Z -> ptr * ptr) (g : ghost) : ghost :=
  mk_ghost (g_me g) (g_loc g) f (g_own g) (g_new g) (g_call g) (g_reg g) (g_in g).
Definition set_call (c : option Z) (g : ghost) : ghost :=
  mk_ghost (g_me g) (g_loc g) (g_links g) (g_own g) (g_new g) c (g_reg g) (g_in g).
Definition set_new (n : option (Z * bool)) (g : ghost) : ghost :=
  mk_ghost (g_me g) (g_loc g) (g_links g) (g_own g) n (g_call g) (g_reg g) (g_in g).
Definition set_in (l : list Z) (g : ghost) : ghost :=
  mk_ghost (g_me g) (g_loc g) (g_links g) (g_own g) (g_new g) (g_call g) (g_reg g) l.

(** A thread's own memory. *)
Lemma wp_load_local {A T} j me (f : field thread_locals T) (h : T -> prog (mem K) A) g Q :
  g_me g = me -> wp j (h (fget f (g_loc g))) g Q -> wp j (load (sub_field (locals me) f) ≫= h) g Q.
Proof.
  intros Em Hh. apply wpc_load_same. intros s Γ HI Hj. destruct (inv_thread _ _ _ _ HI Hj) as [[] _].
  cbn [fget sub_field locals threads_f at_key]. subst me. by rewrite ti_loc0.
Qed.

Lemma wp_store_local {A T} j me (f : field thread_locals T) v (h : unit -> prog (mem K) A) g Q :
  g_me g = me -> safe (set_loc (fset f v (g_loc g)) g) ->
  wp j (h tt) (set_loc (fset f v (g_loc g)) g) Q -> wp j (store (sub_field (locals me) f) v ≫= h) g Q.
Proof.
  intros Em Hs Hh. apply wpc_act. intros s Γ HI Hj. exists (set_loc (fset f v (g_loc g)) g). split; [|done].
  destruct (inv_thread _ _ _ _ HI Hj) as [[] _]. eapply inv_step; [done|done|done| | |done].
  - apply frame_same; try done. intros t Ht. simpl. rewrite lookup_total_insert_ne by congruence. done.
  - subst me. constructor; try done. simpl. by rewrite lookup_total_insert_eq, ti_loc0.
Qed.

Lemma wp_atfork {A} j (h : unit -> prog (mem K) A) g Q : wp j (h tt) g Q -> wp j (register_atfork ≫= h) g Q.
Proof.
  intros Hh. apply wpc_act. intros s Γ HI Hj. exists g. split; [|done].
  destruct (inv_thread _ _ _ _ HI Hj) as [[] Hs]. eapply inv_step; [done|done|done| | |done]; [by apply frame_same|by constructor].
Qed.

(** The links of a mutex it holds. *)
Lemma wp_load_link {A} j a (which : bool) (h : ptr -> prog (mem K) A) g Q :
  a ∈ g_own g -> wp j (h (if which then (g_links g a).1 else (g_links g a).2)) g Q ->
  wp j (load (sub_field (mtx_at a) (if which then next_f else prev_f)) ≫= h) g Q.
Proof.
  intros Ha Hh. apply wpc_load_same. intros s Γ HI Hj. destruct (inv_thread _ _ _ _ HI Hj) as [[] _].
  destruct (ti_own0 a Ha) as [_ E]. rewrite <- E in Hh. by destruct which.
Qed.

Lemma wp_store_link {A} j a (which : bool) v (h : unit -> prog (mem K) A) g Q :
  let g' := set_links (upd (g_links g) a (if which then (v, (g_links g a).2) else ((g_links g a).1, v))) g in
  a ∈ g_own g -> safe g' -> wp j (h tt) g' Q ->
  wp j (store (sub_field (mtx_at a) (if which then next_f else prev_f)) v ≫= h) g Q.
Proof.
  intros g' Ha Hs Hh. apply wpc_act. intros s Γ HI Hj. exists g'. split; [|done].
  destruct (inv_thread _ _ _ _ HI Hj) as [[] _]. destruct (ti_own0 a Ha) as [Ho El].
  assert (forall b, b <> a -> mtxs (fset (sub_field (mtx_at a) (if which then next_f else prev_f)) v s) !!! b = mtxs s !!! b) as Hne.
  { intros b Hb. simpl. by rewrite lookup_total_insert_ne by congruence. }
  assert (forall b, ftx (mtxs (fset (sub_field (mtx_at a) (if which then next_f else prev_f)) v s) !!! b) = ftx (mtxs s !!! b)) as Hftx.
  { intros b. destruct (decide (b = a)) as [->|Hb]; [|by rewrite Hne]. simpl. rewrite lookup_total_insert_eq. by destruct which. }
  eapply inv_step; [done|done|done| | |done].
  - apply frame_same; try done. intros b Hb. rewrite Hne; [done|]. intros ->. done.
  - cbn [snd]. unfold owner, died in *. constructor; try done; unfold owner, died.
    + intros b Hb. rewrite Hftx. destruct (ti_own0 b Hb) as [Hob Elb]. split; [done|]. cbn [g_links set_links g'].
      destruct (decide (b = a)) as [->|Hba]; [|by rewrite Hne, upd_ne]. rewrite upd_eq, <- El. simpl. rewrite lookup_total_insert_eq. by destruct which.
    + intros b. rewrite Hftx. apply ti_all0.
    + intros b. rewrite Hftx. apply ti_died0.
    + intros b. rewrite Hftx. apply ti_dead0.
Qed.

(** The data a held mutex protects. *)
Lemma wp_store_cell {A} j a (h : unit -> prog (mem K) A) g Q :
  let g' := set_in (a :: g_in g) g in
  a ∈ g_own g -> safe g -> wp j (h tt) g' Q -> wp j (store (cell_at a) (g_me g) ≫= h) g Q.
Proof.
  intros g' Ha Hs Hh. apply wpc_act. intros s Γ HI Hj. exists g'. split; [|done].
  destruct (inv_thread _ _ _ _ HI Hj) as [[] _]. destruct (ti_own0 a Ha) as [Ho _].
  eapply inv_step; [done|done|done| | |done].
  - apply frame_same; try done. intros b Hb. split; [done|]. split; [done|]. simpl. rewrite lookup_total_insert_ne; [done|]. intros <-. done.
  - constructor; try done. intros b Hb. simpl in *. destruct (decide (b = a)) as [->|Hba]; [split; [done|by rewrite lookup_total_insert_eq]|].
    rewrite lookup_total_insert_ne by congruence. apply elem_of_cons in Hb as [?|Hb]; [done|]. by apply ti_cells0.
Qed.

Lemma wp_load_cell {A} j a (h : Z -> prog (mem K) A) g Q :
  a ∈ g_in g -> wp j (h (g_me g)) g Q -> wp j (load (cell_at a) ≫= h) g Q.
Proof.
  intros Ha Hh. apply wpc_load_same. intros s Γ HI Hj. destruct (inv_thread _ _ _ _ HI Hj) as [[] _].
  simpl. by destruct (ti_cells0 a Ha) as [_ ->].
Qed.

Lemma silent_inv s Γ j g s' : inv j s Γ -> Γ !! j = Some g -> silent s s' -> inv j s' (<[j := g]> Γ).
Proof.
  intros HI Hj ([κ ->] & Hb & Hr). destruct (inv_thread _ _ _ _ HI Hj) as [[] Hs].
  eapply inv_step; [done|done|done| | |done].
  - constructor; try done; auto.
  - constructor; try done; intros; rewrite ?Hr, ?Hb in *; auto.
Qed.

Lemma wp_silent {A B} j (p : prog (mem K) B) R g (h : B -> prog (mem K) A) Q :
  call silent (fun b s s' => R b /\ silent s s') p -> (forall b, R b -> wp j (h b) g Q) -> wp j (p ≫= h) g Q.
Proof.
  intros Hp Hh. eapply (wpc_call _ j p _ _ (fun g' => g' = g)); [done|done| |].
  - intros s Γ g' s' HI Hj -> Hs. exists g. split; [done|]. by eapply silent_inv.
  - intros b s Γ g' s' HI Hj -> [Hr Hs]. exists g. split; [by eapply silent_inv|auto].
Qed.

(** ** The operations *)

(** Thread [me] in an operation on the entry [pend] (or in none): its list is [l], it holds [own]. *)
Record at_op (me : Z) (pend : ptr) (l own : list Z) (new : option (Z * bool)) (ins : list Z) (g : ghost) : Prop := {
  ao_me : g_me g = me;
  ao_own : g_own g = own;
  ao_new : g_new g = new;
  ao_call : g_call g = None;
  ao_in : g_in g = ins;
  ao_tid : TID_CACHE (g_loc g) = 0 \/ TID_CACHE (g_loc g) = me;
  ao_pend : list_op_pending (ROBUST_HEAD (g_loc g)) = pend;
  ao_nd : NoDup own;
  ao_ndl : NoDup l;
  ao_sub : forall a, a ∈ l -> a ∈ own;
  ao_cov : forall a, a ∈ own -> a ∈ l \/ pend = PMtx a;
  ao_init : ROBUST_INIT (g_loc g) = g_reg g;
  ao_reg : g_reg g = true -> futex_offset (ROBUST_HEAD (g_loc g)) = a0_mtx_ftx_off /\
    dl (g_links g) me (PHead me) (list_next (ROBUST_HEAD (g_loc g))) l;
  ao_none : g_reg g = false -> own = [] /\ pend = PNull;
}.

Lemma at_op_safe me pend l own new ins g : at_op me pend l own new ins g -> safe g.
Proof.
  intros []. split; [by rewrite ao_own0|]. destruct (g_reg g) eqn:Er.
  - destruct ao_reg0 as [? Hd]; [done|]. split; [done|]. exists l. rewrite ao_me0, ao_own0, ao_pend0.
    split; [by eapply dl_nl|]. split; [done|]. split; [done|]. intros a [Ha|Ha]; [auto|congruence].
  - destruct ao_none0 as [-> _]; [done|]. done.
Qed.

Definition set_tid (v : Z) (x : thread_locals) : thread_locals := fset TID_CACHE_f v x.

Lemma at_op_tid me pend l own new ins g v : at_op me pend l own new ins g -> v = 0 \/ v = me ->
  at_op me pend l own new ins (set_loc (set_tid v (g_loc g)) g).
Proof. intros [] Hv. by constructor. Qed.

Lemma tid_wp j me pend l own new ins g :
  at_op me pend l own new ins g -> 0 < me < FUTEX_TID_MASK ->
  wp j (tid me) g (fun r g' => r = me /\ at_op me pend l own new ins g').
Proof.
  intros Hg Hme. pose proof Hg as []. unfold tid. apply wp_load_local; [done|]. cbn [fget TID_CACHE_f].
  destruct (Z.eqb_spec (TID_CACHE (g_loc g)) 0) as [E|E].
  - apply (wp_silent j _ (fun x => x = me)); [apply law_gettid|]. intros x ->.
    assert (wrap 32 me = me) as -> by (apply wrap_id; unfold is_u, FUTEX_TID_MASK in *; lia).
    pose proof (at_op_tid _ _ _ _ _ _ _ me Hg (or_intror eq_refl)) as Hg'.
    apply wp_store_local; [done|by eapply at_op_safe|]. apply wp_atfork.
    apply wpc_tail, wp_load_local; [done|]. by apply wpc_ret.
  - apply wpc_ret. split; [|done]. destruct ao_tid0; done.
Qed.

Lemma idle_start me l new ins g : at_op me PNull l l new ins g -> g_reg g = true -> forall a,
  at_op me (PMtx a) l l new ins (set_loc (fset (sub_field ROBUST_HEAD_f list_op_pending_f) (PMtx a) (g_loc g)) g).
Proof. intros [] Hr a. constructor; try done; [auto|]. simpl in *. congruence. Qed.

Lemma op_end_wp j me a l new ins g :
  at_op me (PMtx a) l l new ins g -> wp j (robust_op_end me a) g (fun _ g' => at_op me PNull l l new ins g').
Proof.
  intros Hg. pose proof Hg as []. apply wpc_tail. unfold robust_op_end.
  assert (at_op me PNull l l new ins (set_loc (fset (sub_field ROBUST_HEAD_f list_op_pending_f) PNull (g_loc g)) g)) as Hg'.
  { constructor; try done; [auto|]. simpl. intros Er. by destruct (ao_none0 Er). }
  change (sub_field (robust_head me) list_op_pending_f) with (sub_field (locals (K:=K) me) (sub_field ROBUST_HEAD_f list_op_pending_f)).
  apply wp_store_local; [done|by eapply at_op_safe|]. by apply wpc_ret.
Qed.

Lemma init_thread_wp j me l new ins g :
  at_op me PNull l l new ins g -> wp j (init_thread me) g (fun _ g' => at_op me PNull l l new ins g' /\ g_reg g' = true).
Proof.
  intros Hg. pose proof Hg as []. unfold init_thread. apply wp_load_local; [done|]. cbn [fget ROBUST_INIT_f]. rewrite ao_init0.
  destruct (g_reg g) eqn:Er; [by apply wpc_ret|]. destruct (ao_none0 eq_refl) as [El _]. rewrite El in *. clear El l.
  apply wp_atfork. apply wpc_bind. unfold robust_init.
  change (robust_head me) with (sub_field (locals (K:=K) me) ROBUST_HEAD_f).
  assert (forall v, safe (set_loc v g)) as Hs.
  { intros v. split; [cbn; rewrite ao_own0; constructor|]. cbn. rewrite Er. by rewrite ao_own0, ao_call0. }
  apply (wp_store_local j me (sub_field ROBUST_HEAD_f list_next_f)); [done|apply Hs|]. set (x1 := fset _ _ _).
  apply (wp_store_local j me (sub_field ROBUST_HEAD_f futex_offset_f)); [done|apply Hs|]. set (x2 := fset _ _ _).
  apply (wp_store_local j me (sub_field ROBUST_HEAD_f list_op_pending_f)); [done|apply Hs|]. set (x3 := fset _ _ _).
  apply wpc_tail. set (g3 := set_loc x3 _).
  eapply (wpc_call _ j _ _ _ (fun g' => g' = g3)); [apply law_set_robust_list|done| |].
  { intros s Γ g' s' HI Hj -> Hs'. exists g3. split; [done|]. by eapply silent_inv. }
  intros u s Γ g' s' HI Hj -> ([κ ->] & Hb & Hr & Ho).
  set (g4 := mk_ghost me x3 (g_links g) [] new None true ins). destruct (inv_thread _ _ _ _ HI Hj) as [[] _].
  exists g4. assert (safe g4) as Hs4.
  { split; [constructor|]. split; [done|]. exists []. split; [done|]. split; [constructor|]. split; [done|].
    intros a [Ha|?]; [by apply elem_of_nil in Ha|done]. }
  split.
  - eapply inv_step; [done|done|done| | |done].
    + constructor; try done; auto. subst me. done.
    + cbn [g_me g3 set_loc] in *. constructor; try done; cbn [g4 g_me g_own g_new g_in g_loc g_reg g_call].
      * by subst me.
      * by subst me.
      * intros a Ha. by apply elem_of_nil in Ha.
      * intros a Ha. subst me. destruct (ti_all0 a Ha) as [Hx|Hx]; [cbn in Hx; rewrite ao_own0 in Hx; by apply elem_of_nil in Hx|].
        destruct (ti_blk0 a Hx) as [Hc _]. simpl in Hc. congruence.
      * intros a Ha. subst me. rewrite Hb in Ha. destruct (ti_blk0 a Ha) as [Hc _]. simpl in Hc. congruence.
      * intros a Ha. by apply elem_of_nil in Ha.
      * intros a Ha. by apply elem_of_nil in Ha.
      * intros a Ha. destruct (ti_cells0 a) as [Hx _]; [simpl; congruence|]. cbn in Hx. rewrite ao_own0 in Hx. by apply elem_of_nil in Hx.
  - apply wpc_ret. apply wpc_tail. apply wp_store_local; [done|done|]. apply wpc_ret. split; [|done].
    constructor; try done; auto.
Qed.

Lemma op_start_wp j me a l new ins g :
  at_op me PNull l l new ins g -> wp j (robust_op_start me a) g (fun _ g' => at_op me (PMtx a) l l new ins g').
Proof.
  intros Hg. unfold robust_op_start. apply wpc_bind. eapply wpc_conseq; [by eapply init_thread_wp|].
  intros _ g1 [Hg1 Hr]. apply wpc_tail.
  change (sub_field (robust_head me) list_op_pending_f) with (sub_field (locals (K:=K) me) (sub_field ROBUST_HEAD_f list_op_pending_f)).
  pose proof (idle_start _ _ _ _ _ Hg1 Hr a) as Hg2.
  apply wp_store_local; [by destruct Hg1|by eapply at_op_safe|]. by apply wpc_ret.
Qed.

(** *** Words *)

Lemma only_word_spec a s s' : only_word a s s' ->
  threads s' = threads s /\ cells s' = cells s /\
  (forall b, next (mtxs s' !!! b) = next (mtxs s !!! b) /\ prev (mtxs s' !!! b) = prev (mtxs s !!! b)) /\
  (forall b, b <> a -> mtxs s' !!! b = mtxs s !!! b).
Proof.
  intros [[κ ->]|(v & κ & ->)]; [done|]. split; [done|]. split; [done|]. simpl. split; intros b.
  - destruct (decide (b = a)) as [->|Hb]; [by rewrite lookup_total_insert_eq|by rewrite lookup_total_insert_ne by congruence].
  - intros Hb. by rewrite lookup_total_insert_ne by congruence.
Qed.

Lemma owner_ne a b s s' : only_word a s s' -> b <> a -> owner s' b = owner s b /\ died s' b = died s b.
Proof. intros (_ & _ & _ & E)%only_word_spec Hb. unfold owner, died. by rewrite E. Qed.

(** A step of [me] on the word of [a]. *)
Lemma word_frame me a s s' :
  only_word a s s' -> (forall t, t <> me -> blocked s' t = blocked s t) -> (forall t, t <> me -> registered s' t = registered s t) ->
  (owner s a = me \/ owner s a = 0 \/ same_owner a s s') ->
  (owner s' a = 0 \/ owner s' a = me \/ owner s' a = owner s a \/ blocked s (owner s' a) = Some a) ->
  frame me s s'.
Proof.
  intros Hw Hb Hr Ho Hn. pose proof (only_word_spec _ _ _ Hw) as (Et & Ec & El & Em). constructor; auto.
  - intros t _. by rewrite Et.
  - intros b Hb1 Hb0. destruct (El b) as [-> ->]. rewrite Ec. destruct (decide (b = a)) as [->|Hne].
    + destruct Ho as [?|[?|[-> ->]]]; done.
    + destruct (owner_ne a b s s') as [-> ->]; done.
  - intros b. destruct (decide (b = a)) as [->|Hne]; [done|]. destruct (owner_ne a b s s') as [-> _]; auto.
Qed.

Definition take_mtx (a : Z) (lk : ptr * ptr) (new : option (Z * bool)) (g : ghost) : ghost :=
  mk_ghost (g_me g) (g_loc g) (upd (g_links g) a lk) (a :: g_own g) new None (g_reg g) (g_in g).

Lemma at_op_take me a l ins g lk new : at_op me (PMtx a) l l None ins g -> a ∉ l ->
  at_op me (PMtx a) l (a :: l) new ins (take_mtx a lk new g).
Proof.
  intros [] Ha. constructor; try done; cbn.
  - by rewrite ao_own0.
  - by constructor.
  - intros b Hb. by right.
  - intros b [->|Hb]%elem_of_cons; [by right|by left].
  - intros Er. destruct (ao_reg0 Er) as [? Hd]. split; [done|]. eapply dl_ext; [|done]. intros b Hb. apply upd_ne. by intros ->.
  - intros Er. by destruct (ao_none0 Er).
Qed.

(** The mutex is taken from nobody, or was handed over. *)
Lemma inv_take j s Γ g0 g c a s' l ins new :
  inv j s Γ -> Γ !! j = Some g0 -> g0 = set_call c g -> at_op (g_me g) (PMtx a) l l None ins g ->
  only_word a s s' -> kframe (g_me g) s s' -> blocked s' (g_me g) = None -> owner s' a = g_me g ->
  (owner s a = 0 \/ owner s a = g_me g /\ blocked s (g_me g) = Some a) ->
  (blocked s (g_me g) = None \/ blocked s (g_me g) = Some a) ->
  (new = Some (a, false) \/ new = None /\ died s' a = false) ->
  (a ∉ l) /\ exists lk, inv j s' (<[j := take_mtx a lk new g]> Γ).
Proof.
  intros HI Hj -> Hg Hw [Hkb Hkr] Hb Ho Hfree Hblk Hnew. destruct (inv_thread _ _ _ _ HI Hj) as [[] _]. cbn in *.
  pose proof Hg as []. rewrite ao_own0 in *.
  assert (a ∉ l) as Hal.
  { intros Ha. destruct (ti_own0 a Ha) as [E _]. destruct Hfree as [?|[_ Hbl]]; [lia|]. by destruct (ti_blk0 a Hbl) as (_ & ? & _). }
  split; [done|]. exists (next (mtxs s' !!! a), prev (mtxs s' !!! a)).
  pose proof (only_word_spec _ _ _ Hw) as (Et & Ec & El & Em).
  eapply inv_step; [done|done|done| | |eapply at_op_safe, at_op_take; done].
  - apply (word_frame _ a); auto. destruct Hfree as [?|[? _]]; auto.
  - constructor; cbn; auto.
    + by rewrite Et.
    + by rewrite Hkr.
    + intros b Hb'. destruct (decide (b = a)) as [->|Hne]; [by rewrite upd_eq|]. rewrite upd_ne by done.
      apply elem_of_cons in Hb' as [?|Hb']; [done|]. rewrite ao_own0 in Hb'. destruct (ti_own0 b Hb') as [E1 E2].
      destruct (owner_ne a b s s') as [-> _]; [done|done|]. destruct (El b) as [-> ->]. done.
    + intros b Hob. left. destruct (decide (b = a)) as [->|Hne]; [by left|right]. rewrite ao_own0.
      destruct (owner_ne a b s s') as [E _]; [done|done|]. rewrite E in Hob. destruct (ti_all0 b Hob) as [?|Hx]; [done|].
      destruct Hblk; congruence.
    + intros b Hx. congruence.
    + intros b Hb' Hn. destruct (decide (b = a)) as [->|Hne].
      * destruct Hnew as [->|[-> ?]]; [by destruct (Hn false)|done].
      * apply elem_of_cons in Hb' as [?|Hb']; [done|]. destruct (owner_ne a b s s') as [_ ->]; [done|done|].
        rewrite ao_own0 in Hb'. apply ti_died0; [done|]. intros k. by rewrite ao_new0.
    + intros b Hb' Hn. destruct Hnew as [->|[-> _]]; congruence.
    + intros b Hb'. destruct (ti_cells0 b Hb') as [? E]. split; [right; by rewrite ao_own0|]. by rewrite Ec.
Qed.

Lemma tid_of_me me : 0 < me < FUTEX_TID_MASK -> ftx_tid me = me /\ ftx_owner_died me = false.
Proof.
  intros Hme. assert (Hb : forall i, 30 <= i -> Z.testbit me i = false).
  { intros i Hi. apply Z.bits_above_log2; [lia|]. assert (Z.log2 me < 30); [|lia]. apply Z.log2_lt_pow2; unfold FUTEX_TID_MASK in *; lia. }
  split.
  - unfold ftx_tid. change FUTEX_TID_MASK with (Z.ones 30). rewrite Z.land_ones by lia. apply Z.mod_small. unfold FUTEX_TID_MASK in *. lia.
  - unfold ftx_owner_died. assert (Z.land me FUTEX_OWNER_DIED = 0) as ->; [|done]. apply Z.bits_inj'. intros i Hi.
    change FUTEX_OWNER_DIED with (2 ^ 30). rewrite Z.land_spec, Z.pow2_bits_eqb, Z.bits_0 by lia.
    destruct (Z.eqb_spec 30 i) as [<-|]; [by rewrite Hb by lia|apply andb_false_r].
Qed.

Lemma notrecoverable_tid v : ftx_notrecoverable v = true -> ftx_tid v = FUTEX_TID_MASK.
Proof.
  unfold ftx_notrecoverable, ftx_tid. intros E%Z.eqb_eq. assert (FUTEX_TID_MASK = Z.land FTX_NOTRECOVERABLE FUTEX_TID_MASK) as E2 by done.
  rewrite E2 at 2. rewrite <- E, <- Z.land_assoc. f_equal.
Qed.

Lemma only_word_store a v s : only_word a s (fset (ftx_of a) v s).
Proof. right. exists v, (kern s). by destruct s. Qed.

Lemma set_call_none g : g_call g = None -> set_call None g = g.
Proof. destruct g; simpl. by intros ->. Qed.

(** No word says that its mutex cannot be recovered. *)
Lemma recoverable j s Γ a : inv j s Γ -> ftx_notrecoverable (ftx (mtxs s !!! a)) = false.
Proof.
  intros [[_ Ht _ Hw _] _]. destruct (ftx_notrecoverable _) eqn:E; [|done]. apply notrecoverable_tid in E.
  change (owner s a = FUTEX_TID_MASK) in E. destruct (Hw a) as [E0|(i & g & Hi & E0)].
  - rewrite E0 in E. discriminate E.
  - destruct (Ht i g Hi) as []. lia.
Qed.

(** Asking the kernel. *)
Lemma lock_pi_wp {A} j me a tm l ins g (h : A0Result -> prog (mem K) A) Q :
  at_op me (PMtx a) l l None ins g -> 0 < me < FUTEX_TID_MASK ->
  (forall lk, a ∉ l -> wp j (h (Ok tt)) (take_mtx a lk (Some (a, false)) g) Q) ->
  (forall e, e <> EOWNERDEAD -> wp j (h (Err e)) g Q) ->
  wp j (futex_lock_pi me a tm ≫= h) g Q.
Proof.
  intros Hg Hrange Hok Herr. pose proof Hg as [].
  assert (g_reg g = true) as Er by (destruct (g_reg g) eqn:E; [done|]; by destruct (ao_none0 eq_refl)).
  assert (forall c, c = None \/ c = Some a -> safe (set_call c g)) as Hsafe.
  { intros c Hc. destruct (at_op_safe _ _ _ _ _ _ _ Hg) as [Hnd Hs]. split; [done|]. cbn. rewrite Er in *.
    destruct Hs as (? & l0 & H1 & H2 & H3 & H4). split; [done|]. exists l0. do 3 (split; [done|]).
    intros b [Hb|Hb]; [auto|]. right. rewrite ao_pend0. destruct Hc; congruence. }
  eapply (wpc_call _ j _ _ _ (fun g' => exists c, (c = None \/ c = Some a) /\ g' = set_call c g)); [by apply law_lock_pi| | |].
  - exists None. split; [by left|]. by rewrite set_call_none.
  - intros s Γ g1 s' HI Hj (c & Hc & ->) (Hw & [Ho Hd] & [Hkb Hkr] & Hme & Hb). exists (set_call (blocked s' me) g). split; [by eexists|].
    destruct (inv_thread _ _ _ _ HI Hj) as [[] _]. cbn in *. rewrite ao_me0 in *.
    pose proof (only_word_spec _ _ _ Hw) as (Et & Ec & El & Em).
    assert (forall b, owner s' b = owner s b /\ died s' b = died s b) as Hall.
    { intros b. destruct (decide (b = a)) as [->|]; [done|by eapply owner_ne]. }
    eapply inv_step; [done|done|done| | |by apply Hsafe].
    + cbn. rewrite ao_me0. apply (word_frame _ a); auto. by right; right; split.
    + constructor; cbn; rewrite ?ao_me0; auto.
      * by rewrite Et.
      * by rewrite Hkr.
      * intros b Hb'. destruct (Hall b) as [-> _], (El b) as [-> ->]. auto.
      * intros b. destruct (Hall b) as [-> _]. intros Hob. destruct (ti_all0 b Hob) as [?|Hx]; [by left|right].
        destruct (ti_blk0 b Hx) as [Hcb _]. assert (b = a) as -> by (destruct Hc; congruence). rewrite Hme; done.
      * intros b Hb'. split; [done|]. split; [|done]. destruct Hb as [?|Hba]; [congruence|]. assert (b = a) as -> by congruence. intros Ha.
        destruct (ti_own0 a Ha) as [Hoa _]. rewrite Hme in Hb' by done. by destruct (ti_blk0 a Hb') as (_ & ? & _).
      * intros b. destruct (Hall b) as [_ ->]. apply ti_died0.
      * intros b. destruct (Hall b) as [_ ->]. apply ti_dead0.
      * intros b. rewrite Ec. apply ti_cells0.
  - intros r s Γ g1 s' HI Hj (c & Hc & ->) (Hw & Hk & Hbn & Hr). pose proof (inv_thread _ _ _ _ HI Hj) as [Ht _].
    assert (blocked s me = None \/ blocked s me = Some a) as Hbl.
    { destruct (blocked s me) as [b|] eqn:Eb; [|by left]. right. destruct Ht as []. cbn in *. rewrite ao_me0 in *.
      destruct (ti_blk0 b Eb) as [Hcb _]. destruct Hc; congruence. }
    destruct r as [[]|e].
    + destruct Hr as (Ho & Hd & Hfree).
      destruct (inv_take j s Γ _ g c a s' l ins (Some (a, false)) HI Hj eq_refl) as [Hal [lk Hinv]]; rewrite ?ao_me0; try done; [by left|].
      eauto.
    + destruct Hr as ([Ho Hd] & Hown & He). exists g. split; [|auto]. destruct Ht as []. cbn in *. rewrite ao_me0 in *. destruct Hk as [Hkb Hkr].
      pose proof (only_word_spec _ _ _ Hw) as (Et & Ec & El & Em).
      assert (forall b, owner s' b = owner s b /\ died s' b = died s b) as Hall.
      { intros b. destruct (decide (b = a)) as [->|]; [done|by eapply owner_ne]. }
      eapply inv_step; [done|done|done| | |by eapply at_op_safe].
      * cbn. rewrite ao_me0. apply (word_frame _ a); auto. by right; right; split.
      * constructor; cbn; rewrite ?ao_me0; auto.
        -- by rewrite Et.
        -- by rewrite Hkr.
        -- intros b Hb'. destruct (Hall b) as [-> _], (El b) as [-> ->]. auto.
        -- intros b. destruct (Hall b) as [-> _]. intros Hob. destruct (ti_all0 b Hob) as [?|Hx]; [by left|].
           assert (b = a) as -> by (destruct Hbl; congruence). rewrite Hown in Hx by done. congruence.
        -- intros b Hx. congruence.
        -- intros b. destruct (Hall b) as [_ ->]. apply ti_died0.
        -- intros b. destruct (Hall b) as [_ ->]. apply ti_dead0.
        -- intros b. rewrite Ec. apply ti_cells0.
Qed.

Lemma frame_refl me s : frame me s s.
Proof. constructor; auto. Qed.

(** Reading the owner-died bit of the mutex just got. *)
Lemma learn_died j s Γ a l ins lk g : at_op (g_me g) (PMtx a) l l None ins g -> a ∉ l ->
  inv j s Γ -> Γ !! j = Some (take_mtx a lk (Some (a, false)) g) ->
  inv j s (<[j := take_mtx a lk (if died s a then Some (a, true) else None) g]> Γ).
Proof.
  intros Hg Ha HI Hj. destruct (inv_thread _ _ _ _ HI Hj) as [[] _].
  eapply inv_step; [done|done|done|apply frame_refl| |by eapply at_op_safe, at_op_take].
  constructor; try done; cbn in *.
  - intros b Hb. by destruct (ti_blk0 b Hb).
  - intros b Hb Hn. destruct (decide (b = a)) as [->|Hne]; [destruct (died s a) eqn:E; [by destruct (Hn true)|done]|].
    apply ti_died0; [done|]. congruence.
  - intros b Hb Hn. destruct (died s a) eqn:E; congruence.
Qed.

Definition lock_post (me a : Z) (pend : ptr) (l l' ins : list Z) (r : A0Result) (g : ghost) : Prop :=
  match r with
  | Ok _ => (a ∉ l) /\ at_op me pend l' (a :: l) None ins g
  | Err e => if e =? EOWNERDEAD then (a ∉ l) /\ at_op me pend l' (a :: l) (Some (a, true)) ins g else at_op me pend l l None ins g
  end.

Lemma clock_convert_wp {A} j o ts c (h : result timespec Z -> prog (mem K) A) g Q :
  (forall r, r <> Err EOWNERDEAD -> wp j (h r) g Q) -> wp j (clock_convert o ts c ≫= h) g Q.
Proof.
  intros Hh. apply wpc_bind. unfold clock_convert. eapply wp_silent; [apply law_clock|]. intros [t1|e] H1; [|by apply wpc_ret, Hh].
  eapply wp_silent; [apply law_clock|]. intros [t2|e] H2; [|by apply wpc_ret, Hh]. by apply wpc_ret, Hh.
Qed.

Lemma err_ne {A} e : (Err e : result A Z) <> Err EOWNERDEAD -> e <> EOWNERDEAD.
Proof. congruence. Qed.

Lemma mtx_timedlock_loop_wp n j me a deadline l ins g :
  at_op me (PMtx a) l l None ins g -> 0 < me < FUTEX_TID_MASK ->
  wp j (mtx_timedlock_loop n me me a deadline) g (lock_post me a (PMtx a) l l ins).
Proof.
  intros Hg Hme. induction n as [|n IH]; cbn [mtx_timedlock_loop]; [done|].
  assert (g_me g = me) as Em by apply Hg.
  apply wpc_load_same. intros s Γ HI Hj. cbn [fget ftx_of sub_field mtx_at mtxs_f at_key ftx_f]. rewrite (recoverable _ _ _ a HI).
  clear s Γ HI Hj. apply wpc_bind. unfold cas. apply wpc_cas.
  - intros s Γ HI Hj E. change (ftx (mtxs s !!! a) = 0) in E. destruct (tid_of_me me Hme) as [Et Ed].
    assert (ftx (mtxs (fset (ftx_of a) me s) !!! a) = me) as Ef by (simpl; by rewrite lookup_total_insert_eq).
    assert (blocked s (g_me g) = None) as Hb.
    { destruct (inv_thread _ _ _ _ HI Hj) as [[] _]. destruct (blocked s (g_me g)) as [b|] eqn:Eb; [|done].
      destruct (ti_blk0 b eq_refl) as [Hc _]. destruct Hg. congruence. }
    destruct (inv_take j s Γ g g None a (fset (ftx_of a) me s) l ins None HI Hj) as [Hal [lk Hinv]]; try done.
    + rewrite set_call_none; [done|apply Hg].
    + by rewrite Em.
    + apply only_word_store.
    + unfold owner. by rewrite Ef, Et.
    + left. unfold owner. by rewrite E.
    + by left.
    + right. split; [done|]. unfold died. by rewrite Ef.
    + eexists. split; [exact Hinv|]. apply wpc_ret. cbn. split; [done|]. by apply at_op_take.
  - intros s Γ _ _ _. apply wpc_ret. cbn [is_ok].
    assert (forall tm, wp j (futex_lock_pi me a tm) g (fun r g' => wp j (match r with
        | Ok _ => v ← load (ftx_of a); Ret (if ftx_owner_died v then Err EOWNERDEAD else Ok tt)
        | Err e => if e =? EINTR then mtx_timedlock_loop n me me a deadline else Ret (Err e) end) g' (lock_post me a (PMtx a) l l ins))) as Hk.
    { intros tm. apply wpc_tail. eapply lock_pi_wp; [done|done| |].
      - intros lk Hal. apply wpc_ret, wpc_load. intros s1 Γ1 HI1 Hj1. rewrite <- Em in Hg.
        pose proof (learn_died _ _ _ _ _ _ _ _ Hg Hal HI1 Hj1) as HI2. eexists. split; [exact HI2|]. apply wpc_ret.
        change (ftx_owner_died (fget (ftx_of a) s1)) with (died s1 a). rewrite Em in Hg.
        destruct (died s1 a); (split; [done|by apply at_op_take]).
      - intros e He. apply wpc_ret. destruct (Z.eqb_spec e EINTR); [done|]. apply wpc_ret. cbn.
        by destruct (Z.eqb_spec e EOWNERDEAD). }
    apply wpc_bind. destruct deadline as [d|]; cbn [ftx_lock_pi]; [|apply Hk].
    apply clock_convert_wp. intros [ts|e] He; [apply Hk|]. apply err_ne in He. apply wpc_ret.
    destruct (Z.eqb_spec e EINTR); [done|]. apply wpc_ret. cbn. by destruct (Z.eqb_spec e EOWNERDEAD).
Qed.

(** Linking the mutex just got. *)
Lemma op_add_wp j me a l new ins g :
  at_op me (PMtx a) l (a :: l) new ins g ->
  wp j (robust_op_add me a) g (fun _ g' => at_op me (PMtx a) (a :: l) (a :: l) new ins g').
Proof.
  intros Hg. pose proof Hg as []. apply NoDup_cons in ao_nd0 as Hnd. destruct Hnd as [Hal _].
  assert (g_reg g = true) as Er by (destruct (g_reg g) eqn:E; [done|]; by destruct (ao_none0 eq_refl)).
  destruct (ao_reg0 Er) as [Hoff Hdl]. assert (a ∈ g_own g) as Ha by (rewrite ao_own0; left).
  unfold robust_op_add. change (robust_head me) with (sub_field (locals (K:=K) me) ROBUST_HEAD_f).
  apply (wp_load_local j me (sub_field ROBUST_HEAD_f list_next_f)); [done|]. cbn [fget sub_field ROBUST_HEAD_f list_next_f].
  set (p0 := list_next (ROBUST_HEAD (g_loc g))) in *.
  assert (forall f, (forall b, b ∈ l -> f b = g_links g b) -> at_op me (PMtx a) l (a :: l) new ins (set_links f g)) as Hpre.
  { intros f Hf. constructor; try done. intros _. split; [done|]. by eapply dl_ext. }
  apply (wp_store_link j a false); [done|eapply at_op_safe, Hpre|].
  { intros b Hb. apply upd_ne. by intros ->. }
  set (f1 := upd _ a _). cbn [fst snd].
  assert (forall b, b ∈ l -> f1 b = g_links g b) as Hf1 by (intros b Hb; apply upd_ne; by intros ->).
  apply (wp_store_link j a true); [done|eapply at_op_safe, (Hpre (upd f1 a _))|].
  { intros b Hb. rewrite upd_ne; [by apply Hf1|]. by intros ->. }
  cbn [g_links set_links]. set (f2 := upd f1 a _).
  assert (forall b, b ∈ l -> f2 b = g_links g b) as Hf2 by (intros b Hb; unfold f2; rewrite upd_ne; [by apply Hf1|by intros ->]).
  assert (f2 a = (p0, PHead me)) as Ef2 by (unfold f2, f1; by rewrite !upd_eq).
  set (g2 := set_links f2 _). set (v := fset (sub_field ROBUST_HEAD_f list_next_f) (PMtx a) (g_loc g2)).
  assert (forall f, nl f me p0 l -> f a = (p0, PHead me) -> safe (set_links f (set_loc v g2))) as Hsafe.
  { intros f Hn Efa. split; [cbn; by rewrite ao_own0|]. cbn. rewrite Er. split; [done|]. exists (a :: l). rewrite ao_me0.
    split; [split; [done|by rewrite Efa]|]. split; [by constructor|]. rewrite ao_own0. split; [done|].
    intros b [Hb|Hb]; [by left|congruence]. }
  assert (dl f2 me (PHead me) p0 l) as Hdl2 by (by eapply dl_ext).
  assert (forall f, dl f me (PMtx a) p0 l -> f a = (p0, PHead me) -> at_op me (PMtx a) (a :: l) (a :: l) new ins (set_links f (set_loc v g2))) as Hfin.
  { intros f Hd Efa. constructor; try done; auto.
    intros _. split; [done|]. cbn. rewrite Efa. done. }
  apply (wp_store_local j me (sub_field ROBUST_HEAD_f list_next_f)); [done|apply (Hsafe f2); [by eapply dl_nl|done]|].
  fold v. rewrite (dl_first _ _ _ _ _ Hdl2). destruct l as [|b l].
  - unfold robust_is_head. rewrite bool_decide_true by done. cbn [negb]. apply wpc_ret. apply (Hfin f2); [|done]. exact Hdl2.
  - unfold robust_is_head. rewrite bool_decide_false by done. cbn [negb set_prev]. apply wpc_tail.
    assert (b <> a) as Hba by (intros ->; apply Hal; left).
    pose proof (dl_back _ _ _ (PMtx a) _ _ ao_ndl0 Hdl2) as Hd3. cbn [back] in Hd3.
    apply (wp_store_link j b false); [cbn; rewrite ao_own0; right; left| |].
    + apply (Hsafe (upd f2 b _)); [by eapply dl_nl|]. by rewrite upd_ne.
    + apply wpc_ret. apply (Hfin (upd f2 b _)); [done|]. by rewrite upd_ne.
Qed.

Lemma mtx_timedlock_wp fuel j me a deadline l ins g :
  at_op me PNull l l None ins g -> 0 < me < FUTEX_TID_MASK ->
  wp j (mtx_timedlock fuel me a deadline) g (lock_post me a PNull l (a :: l) ins).
Proof.
  intros Hg Hme. unfold mtx_timedlock, mtx_timedlock_robust. apply wpc_bind. eapply wpc_conseq; [exact (op_start_wp j me a l None ins g Hg)|]. intros [] g1 Hg1.
  apply wpc_bind, wpc_bind. eapply wpc_conseq; [by eapply tid_wp|]. intros t g2 [-> Hg2].
  eapply wpc_conseq; [by apply mtx_timedlock_loop_wp|]. intros r g3 Hg3.
  assert (forall r l' new g4, at_op me (PMtx a) l' l' new ins g4 ->
    (forall g5, at_op me PNull l' l' new ins g5 -> lock_post me a PNull l (a :: l) ins r g5) ->
    wp j (_ ← robust_op_end me a; Ret r) g4 (lock_post me a PNull l (a :: l) ins)) as Hend.
  { intros r0 l' new g4 Hg4 Hk. apply wpc_bind. eapply wpc_conseq; [by eapply op_end_wp|]. intros [] g5 Hg5. by apply wpc_ret, Hk. }
  unfold lock_post in Hg3 |- *. destruct r as [[]|e]; [|destruct (Z.eqb_spec e EOWNERDEAD) as [->|He]].
  - destruct Hg3 as [Hal Hg3]. apply wpc_bind. eapply wpc_conseq; [by apply op_add_wp|]. intros [] g4 Hg4. eapply Hend; [done|]. by intros.
  - destruct Hg3 as [Hal Hg3]. apply wpc_bind. eapply wpc_conseq; [by apply op_add_wp|]. intros [] g4 Hg4. eapply Hend; [done|]. by intros.
  - eapply Hend; [done|]. intros g5 Hg5. cbn. by destruct (Z.eqb_spec e EOWNERDEAD).
Qed.

(** The owner-died bit, cleared by the holder. *)
Lemma clear_died v : ftx_tid (Z.land v (unot 32 FUTEX_OWNER_DIED)) = ftx_tid v /\ ftx_owner_died (Z.land v (unot 32 FUTEX_OWNER_DIED)) = false.
Proof.
  split.
  - unfold ftx_tid. rewrite <- Z.land_assoc. f_equal.
  - unfold ftx_owner_died. rewrite <- Z.land_assoc. change (Z.land (unot 32 FUTEX_OWNER_DIED) FUTEX_OWNER_DIED) with 0. by rewrite Z.land_0_r.
Qed.

Lemma mtx_consistent_wp j me a l ins g :
  at_op me PNull (a :: l) (a :: l) (Some (a, true)) ins g -> 0 < me < FUTEX_TID_MASK ->
  wp j (mtx_consistent me a) g (fun r g' => r = Ok tt /\ at_op me PNull (a :: l) (a :: l) None ins g').
Proof.
  intros Hg Hme. unfold mtx_consistent. apply wpc_load_same. intros s Γ HI Hj. destruct (inv_thread _ _ _ _ HI Hj) as [[] _]. pose proof Hg as [].
  assert (a ∈ g_own g) as Ha by (rewrite ao_own0; left).
  change (ftx_owner_died (fget (ftx_of a) s)) with (died s a). change (ftx_tid (fget (ftx_of a) s)) with (owner s a).
  rewrite (ti_dead0 a Ha ao_new0). destruct (ti_own0 a Ha) as [-> _]. cbn [negb]. rewrite ao_me0.
  clear s Γ HI Hj ti_id0 ti_loc0 ti_reg0 ti_own0 ti_all0 ti_blk0 ti_died0 ti_dead0 ti_cells0.
  apply wpc_bind. eapply wpc_conseq; [by eapply tid_wp|]. intros t g1 [-> Hg1]. rewrite Z.eqb_refl. cbn [negb].
  apply wpc_act. intros s Γ HI Hj. exists (set_new None g1). cbn [fst snd].
  assert (at_op me PNull (a :: l) (a :: l) None ins (set_new None g1)) as Hg2 by (destruct Hg1; by constructor).
  split; [|by apply wpc_ret]. destruct (inv_thread _ _ _ _ HI Hj) as [[] _]. set (s' := fset (ftx_of a) _ s).
  assert (only_word a s s') as Hw by apply only_word_store. pose proof (only_word_spec _ _ _ Hw) as (Et & Ec & El & Em).
  destruct (clear_died (fget (ftx_of a) s)) as [Eo Ed].
  assert (owner s' a = owner s a) as Eo'. { unfold owner at 1, s'. simpl. rewrite lookup_total_insert_eq. exact Eo. }
  assert (died s' a = false) as Ed'. { unfold died, s'. simpl. rewrite lookup_total_insert_eq. exact Ed. }
  assert (forall t, blocked s' t = blocked s t) as Hbl by done. assert (forall t, registered s' t = registered s t) as Hrg by done.
  clearbody s'. clear Eo Ed. assert (g_own g1 = a :: l) as Eown by apply Hg1. assert (g_new g1 = Some (a, true)) as Enew by apply Hg1.
  assert (a ∈ g_own g1) as Ha1 by (rewrite Eown; left). destruct (ti_own0 a Ha1) as [Hoa _].
  assert (forall b, owner s' b = owner s b) as Hall.
  { intros b. destruct (decide (b = a)) as [->|]; [done|]. by eapply owner_ne. }
  eapply inv_step; [done|done|done| | |by eapply at_op_safe].
  - apply (word_frame _ a); auto.
  - constructor; cbn; rewrite ?Et, ?Hrg; try done.
    + intros b Hb. rewrite Hall. destruct (El b) as [-> ->]. auto.
    + intros b. rewrite Hall, Hbl. apply ti_all0.
    + intros b. rewrite Hbl. intros Hx. by destruct (ti_blk0 b Hx) as (? & ? & _).
    + intros b Hb _. destruct (decide (b = a)) as [->|Hne]; [done|]. destruct (owner_ne a b s s') as [_ ->]; [done|done|].
      apply ti_died0; [done|]. intros k. rewrite Enew. congruence.
    + intros b. rewrite Ec. apply ti_cells0.
Qed.

(** Unlinking a held mutex; it stays covered by the pending entry. *)
Lemma op_del_wp j me a l1 l2 new ins g :
  let l := l1 ++ a :: l2 in
  at_op me (PMtx a) l l new ins g ->
  wp j (robust_op_del me a) g (fun _ g' => at_op me (PMtx a) (l1 ++ l2) l new ins g').
Proof.
  intros l Hg. pose proof Hg as []. assert (a ∈ g_own g) as Ha by (rewrite ao_own0; unfold l; rewrite elem_of_app, elem_of_cons; auto).
  assert (g_reg g = true) as Er by (destruct (g_reg g) eqn:E; [done|]; by destruct (ao_none0 eq_refl)).
  destruct (ao_reg0 Er) as [Hoff Hdl]. destruct (dl_middle _ _ _ _ _ _ _ Hdl) as [Ebk Hd2].
  destruct (dl_del _ _ _ _ _ _ _ ao_nd0 Hdl) as [Hnl Hdel]. pose proof (dl_first _ _ _ _ _ Hd2) as Eq.
  set (q := (g_links g a).1) in *. set (p := list_next (ROBUST_HEAD (g_loc g))) in *. set (bf := before (PHead me) l1) in *.
  set (p' := match l1 with [] => q | _ => p end) in *.
  assert (NoDup (l1 ++ l2)) as Hnd'.
  { apply NoDup_app in ao_nd0 as (H1 & H2 & H3). apply NoDup_cons in H3 as [H3 H4]. apply NoDup_app. split; [done|]. split; [|done].
    intros x Hx Hx2. apply (H2 x Hx). by right. }
  assert (forall b, b ∈ l -> b ∈ l1 ++ l2 \/ PMtx a = PMtx b) as Hcov.
  { intros b. unfold l. rewrite !elem_of_app, elem_of_cons. intros [?|[->|?]]; auto. }
  assert (forall b, b ∈ l1 ++ l2 -> b ∈ l) as Hsub.
  { intros b. unfold l. rewrite !elem_of_app, elem_of_cons. intros [?|?]; auto. }
  set (v := fset (sub_field ROBUST_HEAD_f list_next_f) p' (g_loc g)).
  assert (forall f g', g_own g' = l -> g_me g' = me -> g_reg g' = true -> g_call g' = None -> g_loc g' = v -> g_links g' = f ->
    nl f me p' (l1 ++ l2) -> safe g') as Hsafe.
  { intros f g' E1 E2 E3 E4 E5 E6 Hn. split; [by rewrite E1|]. rewrite E3, E5, E6, E2. split; [done|]. exists (l1 ++ l2). split; [done|].
    rewrite E1, E4. split; [done|]. split; [done|]. intros b [Hb|?]; [|done]. cbn. rewrite ao_pend0. auto. }
  assert (forall f, dl f me (PHead me) p' (l1 ++ l2) -> at_op me (PMtx a) (l1 ++ l2) l new ins (set_links f (set_loc v g))) as Hfin.
  { intros f Hd. by constructor. }
  unfold robust_op_del. apply (wp_load_link j a false); [done|]. apply (wp_load_link j a true); [done|]. cbn [negb]. rewrite Ebk. fold q bf.
  (* the predecessor *)
  assert (wp j (if negb (robust_is_head me q) then set_prev q bf else Ret tt) (set_links (forward (g_links g) q l1) (set_loc v g))
    (fun _ g' => at_op me (PMtx a) (l1 ++ l2) l new ins g')) as Hrest.
  { destruct l2 as [|c l2].
    - assert (robust_is_head me q = true) as -> by (by apply bool_decide_eq_true). apply wpc_ret, Hfin. exact Hdel.
    - assert (robust_is_head me q = false) as -> by (apply bool_decide_eq_false; congruence). cbn [negb].
      assert (set_prev (K:=K) q bf = store (sub_field (mtx_at c) prev_f) bf) as -> by (by rewrite Eq). apply wpc_tail.
      apply (wp_store_link j c false).
      + cbn. rewrite ao_own0. apply Hsub, elem_of_app. right. left.
      + eapply Hsafe; try done. by eapply dl_nl.
      + apply wpc_ret. apply (Hfin (upd _ c _)). exact Hdel. }
  destruct (last l1) as [b|] eqn:El.
  - assert (set_next (K:=K) bf q = store (sub_field (mtx_at b) next_f) q) as -> by (unfold bf, before; by rewrite El).
    assert (l1 <> []) as Hl1 by (by intros ->).
    assert (p' = p) as Ep by (unfold p'; by destruct l1). assert (v = g_loc g) as Ev.
    { unfold v. rewrite Ep. unfold p. by destruct (g_loc g) as [[]]. }
    assert (forall f, set_links f (set_loc v g) = set_links f g) as Es by (intros f; rewrite Ev; by destruct g).
    rewrite Es in Hrest. unfold forward in Hrest, Hnl. rewrite El in Hrest, Hnl. apply (wp_store_link j b true).
    + rewrite ao_own0. apply Hsub, elem_of_app. left. by apply last_Some_elem_of.
    + by eapply Hsafe.
    + exact Hrest.
  - assert (set_next (K:=K) bf q = store (sub_field (sub_field (locals (K:=K) me) ROBUST_HEAD_f) list_next_f) q) as -> by (unfold bf, before; by rewrite El).
    apply last_None in El. subst l1.
    apply (wp_store_local j me (sub_field ROBUST_HEAD_f list_next_f)); [done|eapply Hsafe; done|].
    assert (set_links (forward (g_links g) q []) (set_loc v g) = set_loc v g) as Es by (by destruct g).
    rewrite Es in Hrest. exact Hrest.
Qed.

(** Letting go of an unlinked mutex. *)
Definition without (a : Z) (l : list Z) : list Z := filter (fun b => b <> a) l.

Definition drop_mtx (l' : list Z) (a : Z) (g : ghost) : ghost :=
  mk_ghost (g_me g) (g_loc g) (g_links g) l' (g_new g) (g_call g) (g_reg g) (without a (g_in g)).

Lemma inv_drop j s Γ g me a l1 l2 ins s' :
  let l := l1 ++ a :: l2 in
  inv j s Γ -> Γ !! j = Some g -> at_op me (PMtx a) (l1 ++ l2) l None ins g ->
  only_word a s s' -> (forall t, blocked s' t = blocked s t) -> (forall t, registered s' t = registered s t) ->
  (owner s' a = 0 \/ (owner s' a <> me /\ blocked s (owner s' a) = Some a)) ->
  let g' := drop_mtx (l1 ++ l2) a g in
  inv j s' (<[j := g']> Γ) /\ at_op me (PMtx a) (l1 ++ l2) (l1 ++ l2) None (without a ins) g'.
Proof.
  intros l HI Hj Hg Hw Hb Hr Hfree g'. pose proof Hg as [].
  assert (at_op me (PMtx a) (l1 ++ l2) (l1 ++ l2) None (without a ins) g') as Hg'.
  { constructor; try done; cbn; [by rewrite ao_in0|auto|]. intros Er. by destruct (ao_none0 Er). }
  split; [|done]. destruct (inv_thread _ _ _ _ HI Hj) as [[] _]. pose proof (only_word_spec _ _ _ Hw) as (Et & Ec & El & Em).
  assert (forall b, b ∈ l1 ++ l2 <-> b ∈ l /\ b <> a) as Hmem.
  { intros b. split.
    - intros Hx. split; [by apply ao_sub0|]. intros ->. apply NoDup_app in ao_nd0 as (_ & H2 & H3). apply NoDup_cons in H3 as [H3 _].
      apply elem_of_app in Hx as [Hx|Hx]; [|done]. apply (H2 a Hx). by left.
    - intros [Hx Hne]. destruct (ao_cov0 b Hx); congruence. }
  assert (a ∈ g_own g) as Ha by (rewrite ao_own0; unfold l; rewrite elem_of_app, elem_of_cons; auto).
  assert (owner s' a <> me) as Hne by (destruct Hfree as [?|[? _]]; [lia|done]). destruct (ti_own0 a Ha) as [Hoa _].
  eapply inv_step; [done|done|done| | |by eapply at_op_safe].
  - apply (word_frame _ a); auto. rewrite ao_me0. destruct Hfree as [?|[_ ?]]; auto.
  - constructor; cbn; rewrite ?Et, ?Hr; try done.
    + intros b [Hb1 Hba]%Hmem. rewrite <- ao_own0 in Hb1. destruct (ti_own0 b Hb1) as [Hob Elb].
      destruct (owner_ne a b s s') as [-> _]; [done|done|]. by destruct (El b) as [-> ->].
    + intros b Hob. rewrite Hb. destruct (decide (b = a)) as [->|Hba]; [congruence|]. destruct (owner_ne a b s s') as [E _]; [done|done|].
      rewrite E in Hob. destruct (ti_all0 b Hob) as [Hx|Hx]; [left|by right]. apply Hmem. by rewrite <- ao_own0.
    + intros b. rewrite Hb. intros Hx. destruct (ti_blk0 b Hx) as (? & Hn & ?). split; [done|]. split; [|done]. intros [? _]%Hmem. rewrite ao_own0 in Hn. done.
    + intros b [Hb1 Hba]%Hmem Hn. destruct (owner_ne a b s s') as [_ ->]; [done|done|]. apply ti_died0; [by rewrite ao_own0|done].
    + intros b Hb1 Hn. congruence.
    + intros b [Hba Hb1]%list_elem_of_filter. destruct (ti_cells0 b Hb1) as [Hx ?]. rewrite Ec. split; [|done]. apply Hmem. by rewrite <- ao_own0.
Qed.

Lemma mtx_unlock_wp j me a l1 l2 ins g :
  let l := l1 ++ a :: l2 in
  at_op me PNull l l None ins g -> 0 < me < FUTEX_TID_MASK ->
  wp j (mtx_unlock me a) g (fun r g' => r = Ok tt /\ at_op me PNull (l1 ++ l2) (l1 ++ l2) None (without a ins) g').
Proof.
  intros l Hg Hme. unfold mtx_unlock. apply wpc_bind. eapply wpc_conseq; [by eapply tid_wp|]. intros t g1 [-> Hg1]. clear g Hg.
  apply wpc_load_same. intros s Γ HI Hj. change (ftx_owner_died (fget (ftx_of a) s)) with (died s a). change (ftx_tid (fget (ftx_of a) s)) with (owner s a).
  assert (a ∈ l) as Hal by (unfold l; rewrite elem_of_app, elem_of_cons; auto).
  assert (owner s a = me /\ died s a = false) as [-> ->].
  { destruct (inv_thread _ _ _ _ HI Hj) as [[] _]. pose proof Hg1 as []. rewrite <- ao_own0 in Hal. destruct (ti_own0 a Hal) as [-> _].
    split; [done|]. apply ti_died0; [done|]. intros k. by rewrite ao_new0. }
  clear s Γ HI Hj. rewrite Z.eqb_refl. cbn [negb].
  apply wpc_bind. eapply wpc_conseq; [by eapply op_start_wp|]. intros [] g2 Hg2. clear g1 Hg1.
  apply wpc_bind. eapply wpc_conseq; [by eapply op_del_wp|]. intros [] g3 Hg3. clear g2 Hg2.
  assert (forall g4, at_op me (PMtx a) (l1 ++ l2) (l1 ++ l2) None (without a ins) g4 ->
    wp j (_ ← robust_op_end me a; Ret (Ok tt)) g4 (fun (r : A0Result) g' => r = Ok tt /\ at_op me PNull (l1 ++ l2) (l1 ++ l2) None (without a ins) g')) as Hend.
  { intros g4 Hg4. apply wpc_bind. eapply wpc_conseq; [by eapply op_end_wp|]. intros [] g5 Hg5. by apply wpc_ret. }
  destruct (tid_of_me me Hme) as [Et Ed]. apply wpc_bind. unfold cas. apply wpc_cas.
  - intros s Γ HI Hj E. exists (drop_mtx (l1 ++ l2) a g3).
    assert (owner (fset (ftx_of a) 0 s) a = 0) as E0 by (unfold owner; simpl; by rewrite lookup_total_insert_eq).
    destruct (inv_drop j s Γ g3 me a l1 l2 ins (fset (ftx_of a) 0 s)) as [Hi Hg4]; auto; [apply only_word_store|].
    split; [done|]. apply wpc_ret. cbn [is_ok negb]. by apply Hend.
  - intros s Γ _ _ _. apply wpc_ret. cbn [is_ok negb]. apply wpc_bind, wpc_bind, wpc_tail.
    eapply (wpc_call _ j _ _ _ (fun g' => g' = g3)); [apply law_unlock_pi|done| |].
    { intros s1 Γ1 g' s' HI Hj -> Hs. exists g3. split; [done|]. by eapply silent_inv. }
    intros r s1 Γ1 g' s' HI Hj -> (Hw & Hb & Hr & Hres). destruct r as [[]|e].
    + destruct Hres as (_ & _ & Hfree). exists (drop_mtx (l1 ++ l2) a g3).
      destruct (inv_drop j s1 Γ1 g3 me a l1 l2 ins s') as [Hi Hg4]; auto. split; [done|]. apply wpc_ret. cbn [Z.eqb negb]. apply wpc_ret. by apply Hend.
    + exfalso. destruct Hres as [_ Hne]. destruct (inv_thread _ _ _ _ HI Hj) as [[] _]. pose proof Hg3 as []. apply Hne.
      rewrite <- ao_me0. apply ti_own0. by rewrite ao_own0.
Qed.

(** Unlocking what one does not hold is refused. *)
Lemma mtx_unlock_other_wp j me a l ins g :
  at_op me PNull l l None ins g -> 0 < me < FUTEX_TID_MASK -> a ∉ l ->
  wp j (mtx_unlock me a) g (fun r g' => r = Err EPERM /\ at_op me PNull l l None ins g').
Proof.
  intros Hg Hme Ha. unfold mtx_unlock. apply wpc_bind. eapply wpc_conseq; [by eapply tid_wp|]. intros t g1 [-> Hg1].
  apply wpc_load_same. intros s Γ HI Hj. change (ftx_tid (fget (ftx_of a) s)) with (owner s a).
  destruct (Z.eqb_spec (owner s a) me) as [E|E]; [|by apply wpc_ret]. exfalso.
  destruct (inv_thread _ _ _ _ HI Hj) as [[] _]. pose proof Hg1 as []. rewrite <- ao_me0 in E. destruct (ti_all0 a E) as [Hx|Hx].
  - rewrite ao_own0 in Hx. done.
  - destruct (ti_blk0 a Hx). congruence.
Qed.

(** [PlatformMutex]. *)
Definition lock_io_post (me a : Z) (l ins : list Z) (r : io_result bool) (g : ghost) : Prop :=
  match r with
  | Ok true => (a ∉ l) /\ at_op me PNull (a :: l) (a :: l) None ins g
  | _ => at_op me PNull l l None ins g
  end.

Lemma without_id a (l ins : list Z) : (forall b, b ∈ ins -> b ∈ l) -> a ∉ l -> without a ins = ins.
Proof.
  intros Hs Ha. induction ins as [|b ins IH]; [done|]. unfold without. rewrite filter_cons, decide_True.
  - f_equal. apply IH. intros c Hc. apply Hs. by right.
  - intros ->. apply Ha, Hs. by left.
Qed.

Lemma lock_for_wp n fuel j me a tm l ins g :
  at_op me PNull l l None ins g -> 0 < me < FUTEX_TID_MASK -> (forall b, b ∈ ins -> b ∈ l) ->
  wp j (lock_for n fuel me a tm) g (lock_io_post me a l ins).
Proof.
  intros Hg Hme Hins. revert g Hg. induction n as [|n IH]; intros g Hg; cbn [lock_for]; [done|].
  assert (forall deadline g, at_op me PNull l l None ins g -> wp j (mtx_timedlock fuel me a deadline) g (fun r g' =>
    wp j (match r with
      | Ok _ => Ret (Ok true)
      | Err e => if e =? ETIMEDOUT then Ret (Ok false)
          else if e =? EOWNERDEAD then
            c ← mtx_consistent me a;
            match check c with
            | Err e => Ret (Err e)
            | Ok _ => u ← mtx_unlock me a; match check u with Err e => Ret (Err e) | Ok _ => lock_for n fuel me a tm end
            end
          else Ret (Err (os_error e)) end) g' (lock_io_post me a l ins))) as Hk.
  { intros deadline g1 Hg1. eapply wpc_conseq; [by apply mtx_timedlock_wp|]. intros [[]|e] g2 Hg2; [by apply wpc_ret|]. cbn in Hg2.
    destruct (Z.eqb_spec e ETIMEDOUT) as [->|_]; [by apply wpc_ret|]. destruct (Z.eqb_spec e EOWNERDEAD) as [->|_]; [|by apply wpc_ret].
    destruct Hg2 as [Hal Hg2]. apply wpc_bind. eapply wpc_conseq; [by apply mtx_consistent_wp|]. intros r g3 [-> Hg3]. cbn [check].
    apply wpc_bind. eapply wpc_conseq; [by apply (mtx_unlock_wp j me a [] l)|]. intros r g4 [-> Hg4]. cbn [check]. apply IH.
    cbn [app] in Hg4. by rewrite (without_id a l) in Hg4. }
  apply wpc_bind. destruct (tm =? INFINITE_MS).
  { apply wpc_bind. eapply wpc_conseq; [by apply Hk|]. intros r g' Hr. by apply wpc_ret. }
  apply wpc_bind. unfold make_deadline. cbv zeta.
  match goal with |- context [?x <? 0] => destruct (x <? 0) end; [by apply wpc_ret|].
  eapply wp_silent; [apply law_clock|]. intros [ts|e] _; [|by apply wpc_ret]. apply wpc_ret, wpc_bind.
  eapply wpc_conseq; [by apply Hk|]. intros r g' Hr. by apply wpc_ret.
Qed.

(** ** Death *)

Lemma elem_of_without a (l : list Z) b : b ∈ without a l <-> b ∈ l /\ b <> a.
Proof. unfold without. rewrite list_elem_of_filter. by split; intros []. Qed.

Lemma silent_lock_inv s Γ j g s' : lock_inv s Γ -> Γ !! j = Some g -> silent s s' -> lock_inv s' (<[j := g]> Γ).
Proof.
  intros HI Hj ([κ ->] & Hb & Hr). pose proof (lk_threads _ _ HI j g Hj) as []. eapply lock_inv_step; [done|done|done| |].
  - constructor; try done; auto.
  - constructor; try done; intros; rewrite ?Hr, ?Hb in *; auto.
Qed.

Definition bury (a : Z) (g : ghost) : ghost :=
  mk_ghost (g_me g) (g_loc g) (g_links g) (without a (g_own g)) (g_new g) (g_call g) (g_reg g) (without a (g_in g)).

Lemma inv_dies s Γ j g a s' : lock_inv s Γ -> Γ !! j = Some g -> g_call g = None -> dies (g_me g) a s s' ->
  lock_inv s' (<[j := bury a g]> Γ).
Proof.
  intros HI Hj Hc (Hw & Hb & Hr & Hd). pose proof (lk_threads _ _ HI j g Hj) as []. pose proof (only_word_spec _ _ _ Hw) as (Et & Ec & El & Em).
  assert (owner s' a <> g_me g) as Hne by (destruct (decide _); [lia|destruct Hd as [-> _]; done]).
  eapply lock_inv_step; [done|done|done| |].
  - apply (word_frame _ a); auto.
    + destruct (decide (owner s a = g_me g)); [by left|by right; right].
    + destruct (decide (owner s a = g_me g)); [left; by destruct Hd|]. destruct Hd as [-> _]. auto.
  - constructor; cbn; rewrite ?Et, ?Hr; try done.
    + intros b [Hb1 Hba]%elem_of_without. destruct (ti_own0 b Hb1) as [Hob Elb].
      destruct (owner_ne a b s s') as [-> _]; [done|done|]. by destruct (El b) as [-> ->].
    + intros b Hob. rewrite Hb. destruct (decide (b = a)) as [->|Hba]; [done|]. destruct (owner_ne a b s s') as [E _]; [done|done|].
      rewrite E in Hob. destruct (ti_all0 b Hob) as [Hx|Hx]; [left|by right]. by apply elem_of_without.
    + intros b. rewrite Hb. intros Hx. destruct (ti_blk0 b Hx). congruence.
    + intros b [Hb1 Hba]%elem_of_without Hn. destruct (owner_ne a b s s') as [_ ->]; [done|done|]. by apply ti_died0.
    + intros b [Hb1 Hba]%elem_of_without Hn. destruct (owner_ne a b s s') as [_ ->]; [done|done|]. by apply ti_dead0.
    + intros b [Hb1 Hba]%elem_of_without. destruct (ti_cells0 b Hb1) as [Hx ?]. rewrite Ec. split; [|done]. by apply elem_of_without.
Qed.

(** The links the thread knows are the links in memory. *)
Lemma nl_chained s g p l : thread_inv s g -> (forall a, a ∈ l -> a ∈ g_own g) -> nl (g_links g) (g_me g) p l -> chained s (g_me g) p l.
Proof.
  intros Ht. revert p. induction l as [|a l IH]; intros p Hl; [done|]. cbn. intros [-> Hn]. split; [done|].
  destruct (ti_own _ _ Ht a) as [_ E]; [apply Hl; by left|]. rewrite <- E in Hn. apply IH; [|done]. intros b Hb. apply Hl. by right.
Qed.

Lemma exits_wp {A} j me l pend (p : prog (mem K) A) g q :
  exits me l pend p -> g_me g = me -> g_call g = None -> nl (g_links g) me q l -> NoDup l ->
  (forall a, a ∈ l -> a ∈ g_own g) -> (forall a, a ∈ g_own g -> a ∈ l \/ a ∈ pend) ->
  wpc lock_inv j p g (fun _ g' => g_me g' = me /\ g_own g' = [] /\ g_call g' = None).
Proof.
  intros Hp Em Hc. revert l pend g q Hp Em Hc. induction p as [x| |X f k IH|k IH]; intros l pend g q Hp Em Hc Hn Hnd Hl Hown; cbn in Hp.
  - destruct Hp as [-> ->]. apply wpc_ret. split; [done|]. split; [|done]. destruct (g_own g) as [|a own]; [done|]. exfalso.
    destruct (Hown a) as [Hx|Hx]; [by left|by apply elem_of_nil in Hx..].
  - done.
  - intros s Γ HI Hj. pose proof (lk_threads _ _ HI j g Hj) as Ht. pose proof (nl_chained s g q l Ht Hl) as Hch. rewrite Em in Hch.
    destruct (Hp s q (Hch Hn)) as [[Hs Hk]|[(a & l' & -> & Ha & Hs & Hk)|[(a & l' & -> & Hd & Hk)|(a & -> & -> & Hd & Hk)]]].
    + exists g. split; [by eapply silent_lock_inv|]. by eapply IH.
    + destruct Hn as [_ Hn]. apply NoDup_cons in Hnd as [Hal Hnd]. exists g. split; [by eapply silent_lock_inv|]. eapply IH; try done.
      * intros b Hb. apply Hl. by right.
      * intros b Hb. destruct (Hown b Hb) as [[->|?]%elem_of_cons|?]; auto.
    + destruct Hn as [_ Hn]. apply NoDup_cons in Hnd as [Hal Hnd]. rewrite <- Em in Hd. exists (bury a g). split; [by eapply inv_dies|]. eapply IH; try done.
      * intros b Hb. apply elem_of_without. split; [apply Hl; by right|]. by intros ->.
      * intros b [Hb Hba]%elem_of_without. destruct (Hown b Hb) as [[?|?]%elem_of_cons|?]; auto; done.
    + rewrite <- Em in Hd. exists (bury a g). split; [by eapply inv_dies|]. eapply IH; try done.
      { intros b Hb. by apply elem_of_nil in Hb. }
      intros b [Hb Hba]%elem_of_without. destruct (Hown b Hb) as [?|Hx]; [by left|]. by apply list_elem_of_singleton in Hx.
  - intros b. by eapply IH.
Qed.

(** Whatever the thread was doing, the kernel releases all it held. *)
Lemma exit_wp j me g : g_me g = me -> safe g ->
  wpc lock_inv j (exit_thread me) g (fun _ g' => g_me g' = me /\ g_own g' = [] /\ g_call g' = None).
Proof.
  intros Em [Hnd Hs]. pose proof (law_exit me) as Hx. unfold exit_starts in Hx. destruct (exit_thread me) as [| |X f k|]; try done.
  intros s Γ HI Hj. pose proof (lk_threads _ _ HI j g Hj) as Ht. pose proof Ht as [].
  set (h := ROBUST_HEAD (g_loc g)) in *. set (pend := match list_op_pending h with PMtx a => [a] | _ => [] end).
  assert (exists l pd, listed s me l pd /\ nl (g_links g) me (match l with [] => PHead me | a :: _ => PMtx a end) l /\ NoDup l /\
    (forall a, a ∈ l -> a ∈ g_own g) /\ (forall a, a ∈ g_own g \/ g_call g = Some a -> a ∈ l \/ a ∈ pd)) as (l & pd & Hli & Hn & Hndl & Hl & Hcov).
  { unfold listed. subst me. rewrite ti_reg0, ti_loc0. fold h. destruct (g_reg g).
    - destruct Hs as (Ho & l & Hn & Hndl & Hl & Hcov). exists l, pend. split; [|split_and!; try done].
      + split; [done|]. split; [|done]. by eapply nl_chained.
      + destruct l; [done|]. by destruct Hn as [_ Hn].
      + intros a Ha. destruct (Hcov a Ha) as [?|E]; [by left|right]. unfold pend. rewrite E. left.
    - destruct Hs as [Eo Ec]. exists [], []. split; [done|]. split; [done|]. split; [constructor|].
      split; [intros a Ha; by apply elem_of_nil in Ha|]. rewrite Eo, Ec. intros a [Ha|Ha]; [by apply elem_of_nil in Ha|done]. }
  destruct (Hx s l pd Hli) as ([κ Eκ] & [Hkb Hkr] & Hbn & Hk). clear Hx Hs.
  set (s' := (f s).2) in *. assert (mtxs s' = mtxs s /\ cells s' = cells s /\ threads s' = threads s) as (E1 & E2 & E3) by (by rewrite Eκ).
  (* a mutex handed over in the kernel becomes an ordinary one *)
  set (handed := match blocked s me with Some b => if decide (owner s b = me) then [b] else [] | None => [] end).
  set (links' := match blocked s me with Some b => upd (g_links g) b (next (mtxs s !!! b), prev (mtxs s !!! b)) | None => g_links g end).
  set (nw := match blocked s me with Some b => Some (b, died s b) | None => g_new g end).
  assert (forall b, b ∈ handed <-> blocked s me = Some b /\ owner s b = me) as Hhand.
  { intros b. unfold handed. destruct (blocked s me) as [c|]; [|rewrite elem_of_nil; split; [done|by intros []]].
    destruct (decide (owner s c = me)) as [E|E].
    - rewrite list_elem_of_singleton. split; [intros ->; done|by intros [[= ->] _]].
    - rewrite elem_of_nil. split; [done|]. intros [[= ->] ?]. done. }
  assert (forall b, b ∈ g_own g -> blocked s me <> Some b) as Hnb.
  { intros b Hb Hbl. subst me. by destruct (ti_blk0 b Hbl) as (_ & ? & _). }
  set (g' := mk_ghost me (g_loc g) links' (handed ++ g_own g) nw None (g_reg g) (g_in g)).
  exists g'. split.
  - eapply lock_inv_step; [done|done|done| |].
    + rewrite Em. constructor; unfold owner, died; rewrite ?E1, ?E2, ?E3; auto.
    + constructor; cbn; unfold owner, died; rewrite ?E1, ?E2, ?E3; auto.
      * by subst me.
      * by subst me.
      * rewrite Hkr. by subst me.
      * intros a [Ha|Ha]%elem_of_app.
        -- apply Hhand in Ha as [Hbl Ho]. split; [done|]. unfold links'. rewrite Hbl, upd_eq. done.
        -- destruct (ti_own0 a Ha) as [Ho E]. split; [by subst me|]. rewrite E. unfold links'. destruct (blocked s me) as [b|] eqn:Eb; [|done].
           rewrite upd_ne; [done|]. intros ->. by destruct (Hnb b Ha).
      * intros a Ho. left. apply elem_of_app. change (owner s a = me) in Ho. destruct (ti_all0 a) as [?|Hbl]; [by subst me|by right|left].
        apply Hhand. by subst me.
      * intros a Ha. congruence.
      * intros a Ha Hnw. change (died s a = false). apply elem_of_app in Ha as [Ha|Ha].
        -- apply Hhand in Ha as [Hbl Ho]. exfalso. apply (Hnw (died s a)). unfold nw. by rewrite Hbl.
        -- apply ti_died0; [done|]. intros k0 Hk0. unfold nw in Hnw. destruct (blocked s me) as [b|] eqn:Eb; [|by destruct (Hnw k0)].
           subst me. destruct (ti_blk0 b Eb) as (_ & _ & ?). congruence.
      * intros a Ha Hnw. change (died s a = true). unfold nw in Hnw. destruct (blocked s me) as [b|] eqn:Eb; [congruence|].
        apply elem_of_app in Ha as [Ha|Ha]; [apply Hhand in Ha as [? _]; congruence|auto].
      * intros a Ha. destruct (ti_cells0 a Ha) as [? E]. split; [apply elem_of_app; by right|]. by subst me.
  - eapply exits_wp; try done.
    + cbn. eapply nl_ext; [|exact Hn]. intros a Ha. unfold links'. destruct (blocked s me) as [b|] eqn:Eb; [|done].
      rewrite upd_ne; [done|]. intros ->. by destruct (Hnb b (Hl b Ha)).
    + intros a Ha. apply elem_of_app. right. auto.
    + intros a [Ha|Ha]%elem_of_app; [|auto]. apply Hhand in Ha as [Hbl _]. apply Hcov. right. subst me. by destruct (ti_blk0 a Hbl).
Qed.

(** ** Whole threads *)

Inductive mop :=
| OLock (a : Z)
| OLockTimeout (a timeout_ms : Z)
| OTryLock (a : Z)
| OUnlock (a : Z).

(** What a call reported; for an unlock also what the protected cell held, if the mutex was locked. *)
Inductive mres :=
| RLock (r : io_result bool)
| RUnlock (cell : option Z) (r : io_result unit).

Inductive fate := Done (rs : list mres) | Died.

(** A lock that succeeds is followed by a write of the thread's id to the cell the mutex protects,
    and the cell is read again before the unlock. *)
Definition lock_op (n fuel : nat) (me : Z) (o : mop) : option (Z * prog (mem K) (io_result bool)) :=
  match o with
  | OLock a => Some (a, r ← lock n fuel me a; Ret (match r with Ok _ => Ok true | Err e => Err e end))
  | OLockTimeout a tm => Some (a, lock_timeout n fuel me a tm)
  | OTryLock a => Some (a, try_lock n fuel me a)
  | OUnlock _ => None
  end.

Fixpoint client (n fuel : nat) (me : Z) (mine : list Z) (ops : list mop) : prog (mem K) (list mres) :=
  match ops with
  | [] => Ret []
  | o :: ops =>
      match lock_op n fuel me o, o with
      | Some (a, p), _ =>
          r ← p;
          rs ← (match r with
                | Ok true => _ ← store (cell_at a) me; client n fuel me (a :: mine) ops
                | _ => client n fuel me mine ops
                end);
          Ret (RLock r :: rs)
      | None, OUnlock a =>
          if bool_decide (a ∈ mine) then
            x ← load (cell_at a);
            r ← unlock me a;
            rs ← client n fuel me (without a mine) ops;
            Ret (RUnlock (Some x) r :: rs)
          else
            r ← unlock me a;
            rs ← client n fuel me mine ops;
            Ret (RUnlock None r :: rs)
      | None, _ => Ret []
      end
  end.

Definition thread (n fuel : nat) (me : Z) (ops : list mop) : prog (mem K) fate :=
  mortal (_ ← exit_thread me; Ret Died) (rs ← client n fuel me [] ops; Ret (Done rs)).

(** No other thread was in the section; an unlock succeeds exactly for the holder. *)
Definition good (me : Z) (x : mres) : Prop :=
  match x with
  | RLock _ => True
  | RUnlock (Some v) r => v = me /\ r = Ok tt
  | RUnlock None r => r = Err (os_error EPERM)
  end.

Lemma lock_op_wp n fuel j me a p o l g :
  lock_op n fuel me o = Some (a, p) -> at_op me PNull l l None l g -> 0 < me < FUTEX_TID_MASK -> wp j p g (lock_io_post me a l l).
Proof.
  intros Ho Hg Hme. destruct o; simplify_eq/=.
  - apply wpc_bind. unfold lock. apply wpc_bind. eapply wpc_conseq; [by apply lock_for_wp|]. intros [[|]|e] g' Hg'; apply wpc_ret, wpc_ret; done.
  - by apply lock_for_wp.
  - apply wpc_bind. eapply wpc_conseq; [by apply lock_for_wp|]. intros [b|e] g' Hg'; apply wpc_ret; [done|]. by case_bool_decide.
Qed.

Lemma without_middle a (l1 l2 : list Z) : NoDup (l1 ++ a :: l2) -> without a (l1 ++ a :: l2) = l1 ++ l2.
Proof.
  intros (H1 & H2 & H3)%NoDup_app. apply NoDup_cons in H3 as [H3 _]. unfold without. rewrite filter_app, filter_cons, decide_False by auto.
  assert (forall l : list Z, a ∉ l -> filter (fun b => b <> a) l = l) as Hf.
  { intros l Ha. apply (without_id a l l); auto. }
  rewrite !Hf; [done|done|]. intros Ha. apply (H2 a Ha). by left.
Qed.

Lemma client_wp n fuel j me l ops g :
  at_op me PNull l l None l g -> 0 < me < FUTEX_TID_MASK ->
  wp j (client n fuel me l ops) g (fun rs _ => Forall (good me) rs /\ length rs = length ops).
Proof.
  intros Hg Hme. revert l g Hg. induction ops as [|o ops IH]; intros l g Hg; cbn [client]; [by apply wpc_ret|].
  destruct (lock_op n fuel me o) as [[a p]|] eqn:Eo.
  - apply wpc_bind. eapply wpc_conseq; [by eapply lock_op_wp|]. intros r g1 Hg1.
    assert (forall p g, wp j p g (fun rs _ => Forall (good me) rs /\ length rs = length ops) ->
      wp j (rs ← p; Ret (RLock r :: rs)) g (fun rs _ => Forall (good me) rs /\ length rs = S (length ops))) as Hk.
    { intros p0 g0 Hp. apply wpc_bind. eapply wpc_conseq; [done|]. intros rs g2 [Hrs El]. apply wpc_ret. split; [by constructor|]. cbn. lia. }
    apply Hk. destruct r as [[|]|]; [|by apply IH..]. destruct Hg1 as [Hal Hg1]. pose proof Hg1 as [].
    rewrite <- ao_me0. apply wp_store_cell; [rewrite ao_own0; left|by eapply at_op_safe|]. rewrite ao_me0. apply IH.
    destruct Hg1. constructor; try done. cbn. congruence.
  - destruct o as [| | |a]; try done. case_bool_decide as Ha.
    + apply list_elem_of_split in Ha as (l1 & l2 & ->). pose proof Hg as [].
      apply wp_load_cell; [rewrite ao_in0, elem_of_app, elem_of_cons; auto|]. rewrite ao_me0.
      apply wpc_bind. unfold unlock. apply wpc_bind. eapply wpc_conseq; [by apply mtx_unlock_wp|]. intros r g1 [-> Hg1]. apply wpc_ret.
      apply wpc_bind. rewrite without_middle in Hg1 |- * by done. eapply wpc_conseq; [by apply IH|]. intros rs g2 [Hrs El]. apply wpc_ret. cbn. split; [by constructor|lia].
    + apply wpc_bind. unfold unlock. apply wpc_bind. eapply wpc_conseq; [by apply mtx_unlock_other_wp|]. intros r g1 [-> Hg1]. apply wpc_ret.
      apply wpc_bind. eapply wpc_conseq; [by apply IH|]. intros rs g2 [Hrs El]. apply wpc_ret. cbn. split; [by constructor|lia].
Qed.

Definition fate_post (me : Z) (ops : list mop) (x : fate) (g : ghost) : Prop :=
  match x with
  | Done rs => Forall (good me) rs /\ length rs = length ops
  | Died => g_me g = me /\ g_own g = [] /\ g_call g = None
  end.

Lemma thread_wp n fuel j me ops g :
  id j = me -> at_op me PNull [] [] None [] g -> 0 < me < FUTEX_TID_MASK ->
  wpc lock_inv j (thread n fuel me ops) g (fate_post me ops).
Proof.
  intros Eid Hg Hme. apply (wpc_mortal _ _ (alive j)).
  - intros g1 [Hs Em]. apply wpc_bind. eapply wpc_conseq; [apply exit_wp; [congruence|done]|]. intros u g2 Hg2. by apply wpc_ret.
  - split; [by eapply at_op_safe|]. destruct Hg. congruence.
  - apply wpc_bind. eapply wpc_conseq; [by apply client_wp|]. intros rs g1 Hrs. by apply wpc_ret.
Qed.

End invariant.

(** ** The theorem *)

Definition newborn (me : Z) : ghost := mk_ghost me fresh_thread (fun _ => (PNull, PNull)) [] None None false [].

Section pool.
Context {K : Type} `{!Kernel K, !KernelLaws K}.
Context (ts : list (Z * list mop)) (s : mem K).
Hypothesis ids_distinct : NoDup ts.*1.
Hypothesis ids_range : Forall (fun x => 0 < x.1 < FUTEX_TID_MASK) ts.
Hypothesis all_free : forall a, owner s a = 0.
Hypothesis none_blocked : forall t, blocked s t = None.
Hypothesis all_new : forall me ops, (me, ops) ∈ ts -> threads s !!! me = fresh_thread /\ registered s me = false.

Lemma newborn_at_op me : at_op me PNull [] [] None [] (newborn me).
Proof. constructor; try done; try constructor; done. Qed.

Lemma pool_start : lock_inv ts.*1 s ((fun x => newborn x.1) <$> ts).
Proof.
  constructor.
  - rewrite <- list_fmap_compose. done.
  - intros j g Hj. apply list_lookup_fmap_Some in Hj as ([me ops] & -> & Hj). cbn.
    destruct (all_new me ops) as [Et Er]; [by eapply list_elem_of_lookup_2|].
    pose proof (proj1 (Forall_lookup _ _) ids_range j _ Hj) as Hme. constructor; cbn; try done;
      intros a Ha; try (by apply elem_of_nil in Ha).
    + rewrite all_free in Ha. simpl in *. lia.
    + by rewrite none_blocked in Ha.
  - intros j j' g g' Hj Hj' E. apply list_lookup_fmap_Some in Hj as (x & -> & Hj). apply list_lookup_fmap_Some in Hj' as (x' & -> & Hj').
    eapply NoDup_lookup; [exact ids_distinct| |]; rewrite list_lookup_fmap; [by rewrite Hj|]. rewrite Hj'. simpl in *. congruence.
  - intros a. left. apply all_free.
  - intros t a Ha. by rewrite none_blocked in Ha.
Qed.

End pool.

(** C2: the Linux mutex is robust.  Whatever the interleaving of threads that lock and unlock
    mutexes with each other and with the kernel, and wherever some of them are killed: a mutex is free or
    held by one of the threads that have not died, so that what a dead thread held has been released;
    between a lock that reports success and the unlock no other thread was in the section the mutex
    protects; and an unlock succeeds for the holder and is refused to everybody else. *)
Theorem robust_mutex {K} `{!Kernel K, !KernelLaws K} n fuel ts (s s' : mem K) ps :
  NoDup ts.*1 -> Forall (fun x => 0 < x.1 < FUTEX_TID_MASK) ts ->
  (forall a, owner s a = 0) -> (forall t, blocked s t = None) ->
  (forall me ops, (me, ops) ∈ ts -> threads s !!! me = fresh_thread /\ registered s me = false) ->
  pool_reach (s, (fun x => thread n fuel x.1 x.2) <$> ts) (s', ps) ->
  (forall a, owner s' a = 0 \/
     exists j me ops, ts !! j = Some (me, ops) /\ owner s' a = me /\ ps !! j <> Some (Ret Died)) /\
  (forall j me ops rs, ts !! j = Some (me, ops) -> ps !! j = Some (Ret (Done rs)) ->
     Forall (good me) rs /\ length rs = length ops).
Proof.
  intros Hd Hr Hf Hb Hn Hreach. set (Q := fun j x g => forall me ops, ts !! j = Some (me, ops) -> fate_post me ops x g).
  destruct (pool_verified (lock_inv ts.*1) Q s ((fun x => thread n fuel x.1 x.2) <$> ts) ((fun x => newborn x.1) <$> ts) s' ps
    (pool_start ts s Hd Hr Hf Hb Hn)) as (Γ & HI & Hv); [|exact Hreach|].
  - split; [by rewrite !length_fmap|]. intros j p g Hp Hg. apply list_lookup_fmap_Some in Hp as (x & -> & Hx).
    apply list_lookup_fmap_Some in Hg as (x' & -> & Hx'). simplify_eq.
    eapply wpc_conseq; [apply (thread_wp _ (fun _ => x.1)); [done|apply newborn_at_op|by eapply (proj1 (Forall_lookup _ _) Hr)]|].
    intros y g Hy me ops Hm. by simplify_eq.
  - split.
    + intros a. destruct (lk_words _ _ _ HI a) as [?|(j & g & Hj & Ho)]; [by left|right].
      assert (ts.*1 !! j = Some (g_me g)) as Hid by (rewrite <- (lk_ids _ _ _ HI), list_lookup_fmap, Hj; done).
      apply list_lookup_fmap_Some in Hid as ([me ops] & Eme & Ht). exists j, me, ops. split; [done|]. split; [simpl in Eme; congruence|].
      intros Hp. destruct (verified_ret _ _ _ _ _ _ Hv Hp) as (g' & Hg' & Hq). simplify_eq. destruct (Hq me ops Ht) as (_ & Eo & Ec).
      destruct (lk_threads _ _ _ HI j _ Hj) as []. destruct (ti_all0 a Ho) as [Hx|Hx].
      * rewrite Eo in Hx. by apply elem_of_nil in Hx.
      * destruct (ti_blk0 a Hx). congruence.
    + intros j me ops rs Hj Hp. destruct (verified_ret _ _ _ _ _ _ Hv Hp) as (g & Hg & Hq). by apply (Hq me ops).
Qed.

(** ** A kernel

    A small kernel that keeps the promises: a call that finds the mutex taken gives up at once, and a
    dying thread's list is walked entry by entry. *)
Module small.

Record K := mk_K { lists : gset Z }.
#[export] Instance K_inhabited : Inhabited K := populate (mk_K ∅).
Abbreviation M := (mem K).

Definition owned (s : M) (a : Z) : Z := ftx_tid (ftx (mtxs s !!! a)).

Definition lock_now (me a : Z) (busy : Z) : prog M A0Result :=
  act (fun s =>
    if owned s a =? 0 then (Ok tt, fset (ftx_of a) (Z.lor (Z.land (ftx (mtxs s !!! a)) FUTEX_OWNER_DIED) me) s)
    else (Err (if owned s a =? me then EDEADLK else busy), s)).

Definition unlock_now (me a : Z) : prog M A0Result :=
  act (fun s => if owned s a =? me then (Ok tt, fset (ftx_of a) 0 s) else (Err EPERM, s)).

Definition visit (me a : Z) : prog M ptr :=
  act (fun s => (next (mtxs s !!! a), if owned s a =? me then fset (ftx_of a) FUTEX_OWNER_DIED s else s)).

Fixpoint walk (n : nat) (me : Z) (p : ptr) : prog M unit :=
  match n with
  | O => Spin
  | S n => match p with PMtx a => q ← visit me a; walk n me q | _ => Ret tt end
  end.

Definition list_of (me : Z) (s : M) : ptr * ptr :=
  if bool_decide (me ∈ lists (kern s))
  then (list_next (ROBUST_HEAD (threads s !!! me)), list_op_pending (ROBUST_HEAD (threads s !!! me)))
  else (PHead me, PNull).

Definition exit_walk (me : Z) (hp : ptr * ptr) : prog M unit :=
  _ ← walk 10 me hp.1;
  match hp.2 with PMtx a => _ ← visit me a; Ret tt | _ => Ret tt end.

#[export] Instance small_kernel : Kernel K := {|
  clock_gettime := fun _ => act (fun s => (Ok (mk_timespec 100 0), s));
  gettid := fun me => act (fun s => (me, s));
  set_robust_list := fun me => act (fun s => (tt, fset kern_f (mk_K ({[me]} ∪ lists (kern s))) s));
  futex_lock_pi := fun me a tm => lock_now me a (match tm with Some _ => ETIMEDOUT | None => EINTR end);
  futex_trylock_pi := fun me a => lock_now me a EAGAIN;
  futex_unlock_pi := unlock_now;
  futex_wait_requeue_pi := fun _ c v _ _ => act (fun s => (Err (if cnds s !!! c =? v then ETIMEDOUT else EAGAIN), s));
  futex_cmp_requeue_pi := fun _ c v _ _ => act (fun s => (if cnds s !!! c =? v then Ok tt else Err EAGAIN, s));
  exit_thread := fun me => hp ← act (fun s => (list_of me s, s)); exit_walk me hp;
  k_blocked := fun _ _ => None;
  k_registered := fun κ me => bool_decide (me ∈ lists κ);
|}.

Lemma silent_refl (s : M) : silent s s.
Proof. split; [|done]. exists (kern s). by destruct s. Qed.

Lemma only_word_refl a (s : M) : only_word a s s.
Proof. left. apply silent_refl. Qed.

Lemma stored a v (s : M) : ftx (mtxs (fset (ftx_of a) v s) !!! a) = v.
Proof. simpl. by rewrite lookup_total_insert_eq. Qed.

Lemma lock_now_law me a busy : 0 < me < FUTEX_TID_MASK -> busy <> EOWNERDEAD -> call (lock_waits me a) (lock_returns me a) (lock_now me a busy).
Proof.
  intros Hme Hb s. left. cbn [act]. destruct (Z.eqb_spec (owned s a) 0) as [E|E]; eexists; (split; [done|]); cbn [fst snd].
  - split; [apply only_word_store|]. split; [done|]. split; [done|]. unfold owner, died. rewrite stored.
    split; [|split; [|by left]]. 
    + unfold ftx_tid. rewrite Z.land_lor_distr_l, <- Z.land_assoc. change (Z.land FUTEX_OWNER_DIED FUTEX_TID_MASK) with 0. rewrite Z.land_0_r.
      by destruct (tid_of_me me Hme) as [E2 _].
    + unfold ftx_owner_died. rewrite Z.land_lor_distr_l, <- Z.land_assoc. change (Z.land FUTEX_OWNER_DIED FUTEX_OWNER_DIED) with FUTEX_OWNER_DIED.
      destruct (tid_of_me me Hme) as [_ E2]. unfold ftx_owner_died in E2. apply negb_false_iff, Z.eqb_eq in E2. by rewrite E2, Z.lor_0_r.
  - split; [apply only_word_refl|]. split; [done|]. split; [done|]. split; [done|]. split; [done|]. destruct (owned s a =? me); done.
Qed.

Lemma visit_dies me a (s : M) : dies me a s (if owned s a =? me then fset (ftx_of a) FUTEX_OWNER_DIED s else s).
Proof.
  destruct (Z.eqb_spec (owned s a) me) as [E|E].
  - split; [apply only_word_store|]. split; [done|]. split; [done|]. rewrite decide_True by done. unfold owner, died. by rewrite stored.
  - split; [apply only_word_refl|]. split; [done|]. split; [done|]. by rewrite decide_False.
Qed.

Definition first (me : Z) (l : list Z) : ptr := match l with [] => PHead me | a :: _ => PMtx a end.

Lemma walk_law {A} me l pend n (p : prog M A) : exits me [] pend p -> exits me l pend (_ ← walk n me (first me l); p).
Proof.
  intros Hp. revert l. induction n as [|n IH]; intros l; [done|]. destruct l as [|a l]; [done|]. intros s q [_ Hc].
  right. right. left. exists a, l. split; [done|]. split; [apply visit_dies|].
  assert (next (mtxs s !!! a) = first me l) as E by (destruct l; [done|by destruct Hc]). cbn [fst act]. rewrite E. apply IH.
Qed.

Lemma pend_law me p : exits me [] (match p with PMtx a => [a] | _ => [] end) (match p with PMtx a => _ ← visit me a; Ret tt | _ => Ret tt end).
Proof.
  destruct p as [| |a]; try done. intros s q _. right. right. right. exists a. split; [done|]. split; [done|]. by split; [apply visit_dies|].
Qed.

Lemma exit_law me : exit_starts me (exit_thread me).
Proof.
  intros s l pend Hl. split; [apply silent_refl|]. split; [done|]. split; [done|]. change (exits me l pend (exit_walk me (list_of me s))).
  unfold listed in Hl. change (registered s me) with (bool_decide (me ∈ lists (kern s))) in Hl. unfold list_of, exit_walk.
  case_bool_decide; cbn [fst snd].
  - destruct Hl as (_ & Hc & ->). assert (list_next (ROBUST_HEAD (threads s !!! me)) = first me l) as -> by (destruct l; [done|by destruct Hc]).
    apply walk_law, pend_law.
  - destruct Hl as [-> ->]. done.
Qed.

#[export] Instance small_laws : KernelLaws K.
Proof.
  constructor.
  - intros clk s. left. eexists. split; [done|]. split; [done|apply silent_refl].
  - intros me s. left. eexists. split; [done|]. split; [done|apply silent_refl].
  - intros me s. left. eexists. split; [done|]. split; [by eexists|]. split; [done|]. unfold registered. cbn.
    split; [apply bool_decide_eq_true; set_solver|]. intros t Ht. apply bool_decide_ext. rewrite elem_of_union, elem_of_singleton. split; [by intros [?|?]|by right].
  - intros me a tm Hme. apply lock_now_law; [done|]. by destruct tm.
  - intros me a s. left. cbn [act]. destruct (Z.eqb_spec (owned s a) me) as [E|E]; eexists; (split; [done|]); cbn [fst snd].
    + split; [apply only_word_store|]. split; [done|]. split; [done|]. split; [done|]. unfold owner, died. rewrite stored. by split; [|left].
    + split; [apply only_word_refl|]. by split_and!.
  - apply exit_law.
Qed.

Definition start : M := mk_mem ∅ ∅ ∅ ∅ false (mk_K ∅).

(** Thread 5 locks mutexes 1 and 2 and is killed while it links the second; thread 6 then gets both. *)
Definition two : list (Z * list mop) := [(5, [OLock 1; OLock 2]); (6, [OTryLock 1; OLockTimeout 2 7; OUnlock 1; OUnlock 3; OUnlock 2])].

Definition schedule : list (nat * bool) := replicate 58 (0%nat, false) ++ replicate 20 (0%nat, true) ++ replicate 400 (1%nat, false).

Definition final : M * list (prog M fate) := run_sched schedule (start, (fun x => thread 5 5 x.1 x.2) <$> two).

Lemma runs_to_final : pool_reach (start, (fun x => thread 5 5 x.1 x.2) <$> two) (final.1, final.2).
Proof. exact (run_sched_reach schedule start ((fun x => thread 5 5 x.1 x.2) <$> two)). Qed.

End small.

(** Thread 5 has died, and thread 6 has locked and unlocked what thread 5 held. *)
Lemma robust_mutex_witness :
  small.final.2 !! 0%nat = Some (Ret Died) /\
  exists rs, small.final.2 !! 1%nat = Some (Ret (Done rs)) /\ Forall (good 6) rs /\ length rs = 5%nat /\
    (forall a, owner small.final.1 a = 0 \/ exists j me ops, small.two !! j = Some (me, ops) /\ owner small.final.1 a = me /\
       small.final.2 !! j <> Some (Ret Died)).
Proof.
  split; [by vm_compute|].
  destruct (@robust_mutex small.K small.small_kernel small.small_laws 5 5 small.two small.start small.final.1 small.final.2) as [Hw Hr].
  - apply NoDup_cons. split; [|apply NoDup_singleton]. intros E%list_elem_of_singleton. discriminate E.
  - repeat constructor; cbn; lia.
  - done.
  - done.
  - intros me ops Hin. unfold small.start. cbn. by rewrite lookup_total_empty.
  - exact small.runs_to_final.
  - eexists. split; [vm_compute; reflexivity|]. edestruct (Hr 1%nat) as [Hg El]; [reflexivity|vm_compute; reflexivity|].
    split; [exact Hg|]. split; [exact El|exact Hw].
Defined.

(** ** A wait whose re-lock fails

    The same kernel, short of memory: FUTEX_LOCK_PI on a taken mutex fails with ENOMEM, as futex(2) allows. *)
Module short.
Import small.

Definition ENOMEM : Z := 12.

#[export] Instance short_kernel : Kernel K := {|
  clock_gettime := @clock_gettime _ small_kernel;
  gettid := @gettid _ small_kernel;
  set_robust_list := @set_robust_list _ small_kernel;
  futex_lock_pi := fun me a tm => lock_now me a ENOMEM;
  futex_trylock_pi := @futex_trylock_pi _ small_kernel;
  futex_unlock_pi := @futex_unlock_pi _ small_kernel;
  futex_wait_requeue_pi := @futex_wait_requeue_pi _ small_kernel;
  futex_cmp_requeue_pi := @futex_cmp_requeue_pi _ small_kernel;
  exit_thread := @exit_thread _ small_kernel;
  k_blocked := @k_blocked _ small_kernel;
  k_registered := @k_registered _ small_kernel;
|}.

#[export] Instance short_laws : KernelLaws K.
Proof.
  destruct small_laws. constructor; try done. intros me a tm Hme. by apply lock_now_law.
Qed.

(** Thread 5 waits on a condition, holding mutex 1; thread 6 locks mutex 1 meanwhile. *)
Definition waiter : prog M (io_result bool) := _ ← lock (Kernel0:=short_kernel) 5 5 5 1; wait (Kernel0:=short_kernel) 5 5 9 1 (Some 3).
Definition taker : prog M (io_result bool) := try_lock (Kernel0:=short_kernel) 5 5 6 1.

(** The waiter has unlocked after 30 accesses. *)
Definition schedule : list (nat * bool) := replicate 30 (0%nat, false) ++ replicate 40 (1%nat, false) ++ replicate 60 (0%nat, false).
Definition final : M * list (prog M (io_result bool)) := run_sched schedule (start, [waiter; taker]).

Lemma final_reached : pool_reach (start, [waiter; taker]) (final.1, final.2).
Proof. exact (run_sched_reach schedule start [waiter; taker]). Qed.

End short.

(** A wait whose re-lock fails links the mutex all the same.  With a kernel that keeps its
    promises but is short of memory when the timed-out waiter locks again, the wait returns the error
    without the mutex; the mutex, held by another thread, is then on the waiter's robust list, and the
    holder's own list no longer leads back to its head, so that the kernel could not walk it. *)
Theorem failed_relock_breaks_list :
  exists w ps, pool_reach (small.start, [short.waiter; short.taker]) (w, ps) /\
    ps !! 0%nat = Some (Ret (Err (os_error short.ENOMEM))) /\ ps !! 1%nat = Some (Ret (Ok true)) /\ owner w 1 = 6 /\
    chained w 5 (list_next (ROBUST_HEAD (threads w !!! 5))) [1] /\
    ~ exists l, chained w 6 (list_next (ROBUST_HEAD (threads w !!! 6))) l.
Proof.
  exists short.final.1, short.final.2. split; [exact short.final_reached|]. do 4 (split; [by vm_compute|]).
  intros [l Hl]. assert (list_next (ROBUST_HEAD (threads short.final.1 !!! 6)) = PMtx 1) as E by (by vm_compute). rewrite E in Hl.
  assert (next (mtxs short.final.1 !!! 1) = PHead 5) as E1 by (by vm_compute).
  destruct l as [|a l]; [discriminate Hl|]. destruct Hl as [[= <-] Hl]. rewrite E1 in Hl.
  destruct l as [|b l]; [discriminate Hl|]. destruct Hl as [Hl _]. discriminate Hl.
Qed.

(** ** Deadlines *)

Definition normalised (ts : timespec) : Prop := 0 <= tv_nsec ts < NS_PER_SEC.
Definition in_ns (ts : timespec) : Z := tv_sec ts * NS_PER_SEC + tv_nsec ts.

Lemma clock_add_spec ts d : normalised ts -> normalised (clock_add ts d) /\ in_ns (clock_add ts d) = in_ns ts + d.
Proof.
  unfold normalised, in_ns, clock_add, NS_PER_SEC. intros Hts. pose proof (Z.quot_rem' d 1000000000) as Hd.
  assert (-1000000000 < Z.rem d 1000000000 < 1000000000) as Hr.
  { pose proof (Z.rem_bound_abs d 1000000000 ltac:(lia)). lia. }
  destruct (Z.leb_spec 1000000000 (tv_nsec ts + Z.rem d 1000000000)); [simpl; lia|].
  destruct (Z.ltb_spec (tv_nsec ts + Z.rem d 1000000000) 0); simpl; lia.
Qed.
