(* ===== verification/Ulock.v ===== *)
(** * The Apple mutex, condition and semaphore

    [platform/apple.rs], and the Apple parts of [condition.rs] and [semaphore.rs]: primitives on
    32-bit words of shared memory, whose waiters sleep in the kernel's compare-and-wait call.  The
    kernel is a parameter ([Ulock]); [UlockLaws] states what the primitives rely on.

    A word is named by the mapping it lies in and its byte offset there.  Threads are named by
    numbers; [u_pid] is the process of a thread, which several threads may share. *)
From S2P Require Import Prelude Atomics Abi Liveness Concurrent.

(** ** Memory and kernel *)

Abbreviation addr := (Z * Z)%type.

Record uthread := mk_uthread { u_me : nat; u_pid : Z }.

(** [marks] are not the program's: clients record there which thread is inside which section, and
    which is at work on which mutex. *)
Record marks := mk_marks { inside : gset (nat * Z); at_work : gset (nat * Z) }.

Record umem (K : Type) := mk_umem { words : gmap addr Z; clk : clock; notes : marks; kern : K }.
Arguments mk_umem {K} _ _ _ _.
Arguments words {K} _.
Arguments clk {K} _.
Arguments notes {K} _.
Arguments kern {K} _.

Section fields.
Context {K : Type}.
Definition words_f : field (umem K) (gmap addr Z) := mk_field words (fun v m => mk_umem v (clk m) (notes m) (kern m)).
Definition clk_f : field (umem K) clock := mk_field clk (fun v m => mk_umem (words m) v (notes m) (kern m)).
Definition notes_f : field (umem K) marks := mk_field notes (fun v m => mk_umem (words m) (clk m) v (kern m)).
Definition inside_f : field (umem K) (gset (nat * Z)) :=
  sub_field notes_f (mk_field inside (fun v n => mk_marks v (at_work n))).
Definition at_work_f : field (umem K) (gset (nat * Z)) :=
  sub_field notes_f (mk_field at_work (fun v n => mk_marks (inside n) v)).
Definition kern_f : field (umem K) K := mk_field kern (fun v m => mk_umem (words m) (clk m) (notes m) v).
Definition word (a : addr) : field (umem K) Z := sub_field words_f (at_key a).
End fields.

(** What the kernel knows of a thread: it is not waiting, it sleeps on a word, or a wake call has
    reached it in its wait call. *)
Inductive sleep := Awake | Asleep (a : addr) | Woken (a : addr).

#[export] Instance sleep_eq_dec : EqDecision sleep.
Proof. solve_decision. Defined.

(** [ulock_wait me a value timeout_us] ([__ulock_wait] with UL_COMPARE_AND_WAIT_SHARED): [Err] is the
    errno of a negative return; a timeout of 0 is none.  [ulock_wake all a]: ULF_WAKE_ALL or not. *)
Class Ulock (K : Type) := {
  ulock_wait : nat -> addr -> Z -> Z -> prog (umem K) (result unit Z);
  ulock_wake : bool -> addr -> prog (umem K) unit;
  sleeping : K -> nat -> sleep;
}.

Section laws.
Context {K : Type} `{!Ulock K}.
Implicit Type s : umem K.

Definition sleeps s (t : nat) : sleep := sleeping (kern s) t.

(** Calls change nothing but the kernel's own state, and of that nothing about other threads. *)
Definition kernel_only s s' : Prop := exists κ, s' = fset kern_f κ s.
Definition others_sleep (me : nat) s s' : Prop := forall t, t <> me -> sleeps s' t = sleeps s t.

(** While a wait call lasts, the caller falls asleep only if the word has the value given; asleep, it
    may stop sleeping of itself (timeout, signal); once woken it stays so until the call returns. *)
Definition wait_step (me : nat) (a : addr) (v : Z) s s' : Prop :=
  kernel_only s s' /\ others_sleep me s s' /\
  (sleeps s' me = sleeps s me \/
   (sleeps s me = Awake /\ words s !!! a = v /\ sleeps s' me = Asleep a) \/
   (sleeps s me = Asleep a /\ sleeps s' me = Awake)).

(** It returns with the caller awake, and without an error if the caller was woken. *)
Definition wait_returns (me : nat) (a : addr) (r : result unit Z) s s' : Prop :=
  kernel_only s s' /\ others_sleep me s s' /\ sleeps s' me = Awake /\
  (forall b, sleeps s me <> Asleep b) /\ (forall e, r = Err e -> sleeps s me = Awake).

(** A wake call wakes the threads asleep on the word, or one of them if there are any. *)
Definition idle s s' : Prop := kernel_only s s' /\ forall t, sleeps s' t = sleeps s t.

Definition wakes (all : bool) (a : addr) s s' : Prop :=
  kernel_only s s' /\
  (forall t, sleeps s t <> Asleep a -> sleeps s' t = sleeps s t) /\
  (forall t, sleeps s t = Asleep a -> sleeps s' t = Asleep a \/ sleeps s' t = Woken a) /\
  if all then forall t, sleeps s' t <> Asleep a
  else (forall t, sleeps s t <> Asleep a) \/ exists t, sleeps s t = Asleep a /\ sleeps s' t = Woken a.

Class UlockLaws : Prop := {
  law_wait me a v timeout_us : call (wait_step me a v) (wait_returns me a) (ulock_wait me a v timeout_us);
  law_wake all a : call idle (fun _ => wakes all a) (ulock_wake all a);
}.

End laws.
Arguments UlockLaws K {_}.

Definition ETIMEDOUT : Z := 60.
Definition EINTR : Z := 4.
Definition U32_MAX : Z := 2 ^ 32 - 1.

(** ** The mutex *)

Module PlatformMutex.

Definition SPIN_COUNT : nat := 40.

(** The mutex in mapping [m] (abi.json [ulock_mutex]). *)
Definition state_atomic {K} (m : Z) : field (umem K) Z := word (m, ulock_mutex_state_off).
Definition holder_atomic {K} (m : Z) : field (umem K) Z := word (m, ulock_mutex_holder_off).

Section mutex.
Context {K : Type} `{!Ulock K} (o : os).
Abbreviation M := (prog (umem K)).

Definition is_process_alive (pid : Z) : bool := Liveness.is_process_alive o (i32 pid) 0.

Definition try_recover_dead_holder (m : Z) : M bool :=
  holder ← load (holder_atomic m);
  if holder =? 0 then Ret false
  else if is_process_alive holder then Ret false
  else
    old ← swap (state_atomic m) 0;
    _ ← store (holder_atomic m) 0;
    _ ← (if old =? 2 then ulock_wake true (m, ulock_mutex_state_off) else Ret tt);
    Ret true.

(** The optimistic spin phase: [n] attempts to take the lock. *)
Fixpoint spin (n : nat) (th : uthread) (m new_val : Z) : M bool :=
  match n with
  | O => Ret false
  | S n =>
      result ← compare_exchange (state_atomic m) 0 new_val;
      match result with
      | Ok _ => _ ← store (holder_atomic m) (u_pid th); Ret true
      | Err _ => spin n th m new_val
      end
  end.

(** The transition to "locked with waiters": [false] sends the caller back to the spin phase. *)
Definition mark_waiters (m : Z) : M bool :=
  s ← load (state_atomic m);
  if s =? 0 then Ret false
  else if s =? 1 then r ← compare_exchange (state_atomic m) 1 2; Ret (is_ok r)
  else Ret true.

Definition new_val (contended : bool) : Z := if contended then 2 else 1.

Fixpoint lock_loop (n : nat) (th : uthread) (m : Z) (contended : bool) : M (io_result unit) :=
  match n with
  | O => Spin
  | S n =>
      got ← spin SPIN_COUNT th m (new_val contended);
      if (got : bool) then Ret (Ok tt)
      else
        marked ← mark_waiters m;
        if negb marked then lock_loop n th m contended
        else
          _ ← ulock_wait (u_me th) (m, ulock_mutex_state_off) 2 0;
          lock_loop n th m true
  end.

Definition lock (n : nat) (th : uthread) (m : Z) : M (io_result unit) := lock_loop n th m false.

(** [as_micros] of what remains, capped. *)
Definition remaining_us (deadline now : Z) : Z :=
  let us := (deadline - now) / 1000 in if U32_MAX <? us then U32_MAX else us.

Fixpoint lock_timeout_loop (n : nat) (th : uthread) (m deadline : Z) (tried_recovery contended : bool) : M (io_result bool) :=
  match n with
  | O => Spin
  | S n =>
      got ← spin SPIN_COUNT th m (new_val contended);
      if (got : bool) then Ret (Ok true)
      else
        marked ← mark_waiters m;
        if negb marked then lock_timeout_loop n th m deadline tried_recovery contended
        else
          t ← now clk_f;
          if deadline <=? t then
            (if tried_recovery then Ret (Ok false)
             else
               recovered ← try_recover_dead_holder m;
               if (recovered : bool) then lock_timeout_loop n th m deadline true contended else Ret (Ok false))
          else
            ret ← ulock_wait (u_me th) (m, ulock_mutex_state_off) 2 (remaining_us deadline t);
            if bool_decide (ret = Err ETIMEDOUT) then
              (if tried_recovery then Ret (Ok false)
               else
                 recovered ← try_recover_dead_holder m;
                 if (recovered : bool) then lock_timeout_loop n th m deadline true true else Ret (Ok false))
            else lock_timeout_loop n th m deadline tried_recovery true
  end.

Definition lock_timeout (n : nat) (th : uthread) (m timeout_ms : Z) : M (io_result bool) :=
  t ← now clk_f;
  lock_timeout_loop n th m (t + timeout_ms * MILLI) false false.

Definition try_lock (th : uthread) (m : Z) : M (io_result bool) :=
  result ← compare_exchange (state_atomic m) 0 1;
  match result with
  | Ok _ => _ ← store (holder_atomic m) (u_pid th); Ret (Ok true)
  | Err _ =>
      recovered ← try_recover_dead_holder m;
      if (recovered : bool) then
        result2 ← compare_exchange (state_atomic m) 0 1;
        match result2 with
        | Ok _ => _ ← store (holder_atomic m) (u_pid th); Ret (Ok true)
        | Err _ => Ret (Ok false)
        end
      else Ret (Ok false)
  end.

Definition unlock (m : Z) : M (io_result unit) :=
  _ ← store (holder_atomic m) 0;
  prev ← swap (state_atomic m) 0;
  _ ← (if prev =? 2 then ulock_wake false (m, ulock_mutex_state_off) else Ret tt);
  Ret (Ok tt).

End mutex.
End PlatformMutex.

(** ** The condition *)

Module AppleCondition.

(** [AppleCondState] in mapping [c]. *)
Definition seq_atomic {K} (c : Z) : field (umem K) Z := word (c, ulock_cond_seq_off).
Definition waiters_atomic {K} (c : Z) : field (umem K) Z := word (c, ulock_cond_waiters_off).
Definition seq_word (c : Z) : addr := (c, ulock_cond_seq_off).

Section condition.
Context {K : Type} `{!Ulock K} (o : os).
Abbreviation M := (prog (umem K)).

Fixpoint wait_no_timeout (n : nat) (th : uthread) (c expected_seq : Z) : M bool :=
  match n with
  | O => Spin
  | S n =>
      v ← load (seq_atomic c);
      if negb (v =? expected_seq) then Ret true
      else
        ret ← ulock_wait (u_me th) (seq_word c) expected_seq 0;
        match ret with
        | Ok _ => wait_no_timeout n th c expected_seq
        | Err e => if e =? EINTR then wait_no_timeout n th c expected_seq else Ret true
        end
  end.

Fixpoint wait_with_timeout_loop (n : nat) (th : uthread) (c expected_seq deadline : Z) : M bool :=
  match n with
  | O => Spin
  | S n =>
      v ← load (seq_atomic c);
      if negb (v =? expected_seq) then Ret true
      else
        t ← now clk_f;
        if deadline <=? t then Ret false
        else
          ret ← ulock_wait (u_me th) (seq_word c) expected_seq (PlatformMutex.remaining_us deadline t);
          match ret with
          | Ok _ => wait_with_timeout_loop n th c expected_seq deadline
          | Err e =>
              if e =? EINTR then wait_with_timeout_loop n th c expected_seq deadline
              else v ← load (seq_atomic c); Ret (negb (v =? expected_seq))
          end
  end.

Definition wait_with_timeout (n : nat) (th : uthread) (c expected_seq timeout : Z) : M bool :=
  t ← now clk_f;
  wait_with_timeout_loop n th c expected_seq (t + timeout).

Definition wait (n : nat) (th : uthread) (c m : Z) (timeout_ms : option Z) : M (io_result bool) :=
  expected_seq ← load (seq_atomic c);
  _ ← fetch_add 32 (waiters_atomic c) 1;
  u ← PlatformMutex.unlock m;
  match u with
  | Err e => _ ← fetch_sub 32 (waiters_atomic c) 1; Ret (Err e)
  | Ok _ =>
      notified ← (match timeout_ms with
                  | None => wait_no_timeout n th c expected_seq
                  | Some ms => wait_with_timeout n th c expected_seq (ms * MILLI)
                  end);
      _ ← fetch_sub 32 (waiters_atomic c) 1;
      _ ←? PlatformMutex.lock n th m;
      Ret (Ok notified)
  end.

Definition wake_waiters (all : bool) (c : Z) : M (io_result unit) :=
  _ ← fetch_add 32 (seq_atomic c) 1;
  w ← load (waiters_atomic c);
  if i32 w <=? 0 then Ret (Ok tt)
  else _ ← ulock_wake all (seq_word c); Ret (Ok tt).

Definition notify (c : Z) : M (io_result unit) := wake_waiters false c.

Definition broadcast (c : Z) : M (io_result unit) := wake_waiters true c.

End condition.
End AppleCondition.

(** ** The semaphore *)

Module AppleSemaphore.

Definition count {K} (a : Z) : field (umem K) Z := word (a, 0).
Definition count_ptr (a : Z) : addr := (a, 0).

Section semaphore.
Context {K : Type} `{!Ulock K}.
Abbreviation M := (prog (umem K)).

(** The inner loop: take one while the count is positive. *)
Fixpoint take (n : nat) (a cur : Z) : M bool :=
  match n with
  | O => Spin
  | S n =>
      if 0 <? cur then
        r ← compare_exchange_weak (count a) cur (cur - 1);
        match r with Ok _ => Ret true | Err c => take n a c end
      else Ret false
  end.

(** How long to sleep: [None] when the deadline has passed. *)
Definition sleep_time (deadline : option Z) : M (option Z) :=
  match deadline with
  | None => Ret (Some 0)
  | Some dl =>
      t ← now clk_f;
      Ret (if dl <=? t then None
           else let rem := (dl - t) / 1000 in
                if rem =? 0 then None else Some (Z.min rem U32_MAX))
  end.

Fixpoint wait_loop (n fuel : nat) (th : uthread) (a : Z) (deadline : option Z) : M (io_result bool) :=
  match n with
  | O => Spin
  | S n =>
      cur ← load (count a);
      got ← take fuel a cur;
      if (got : bool) then Ret (Ok true)
      else
        tm ← sleep_time deadline;
        match tm with
        | None => Ret (Ok false)
        | Some timeout_us =>
            ret ← ulock_wait (u_me th) (count_ptr a) 0 timeout_us;
            if bool_decide (ret = Err ETIMEDOUT) && bool_decide (is_Some deadline) then Ret (Ok false)
            else wait_loop n fuel th a deadline
        end
  end.

Definition wait (n fuel : nat) (th : uthread) (a : Z) (timeout_ms : option Z) : M (io_result bool) :=
  match timeout_ms with
  | None => wait_loop n fuel th a None
  | Some ms => t ← now clk_f; wait_loop n fuel th a (Some (t + ms * MILLI))
  end.

Fixpoint post_loop (n : nat) (a : Z) : M unit :=
  match n with
  | O => Ret tt
  | S n =>
      _ ← fetch_add 32 (count a) 1;
      _ ← ulock_wake false (count_ptr a);
      post_loop n a
  end.

Definition post (a cnt : Z) : M (io_result unit) := _ ← post_loop (Z.to_nat cnt) a; Ret (Ok tt).

End semaphore.
End AppleSemaphore.
