(* ===== verification/UlockKernel.v ===== *)
(** * A kernel for the Apple primitives

    A concrete instance of [Ulock] that keeps [UlockLaws]: a table of who sleeps where.  A wait call
    polls its own entry; it times out, if it may at all, at a point the schedule chooses; a wake call
    takes the first sleeper of the table, or all. *)
From S2P Require Import Prelude Atomics Abi Concurrent Ulock.

Abbreviation table := (gmap nat sleep).
Definition entry (κ : table) (t : nat) : sleep := default Awake (κ !! t).

Abbreviation kmem := (umem table).

(** One look at the own entry: the call returns ([inl]), or goes on, having left its sleep or not. *)
Definition look (me : nat) (a : addr) (v tm : Z) (gone ring : bool) (s : kmem) : (result unit Z + bool) * kmem :=
  match entry (kern s) me with
  | Awake =>
      if gone then (inl (Err ETIMEDOUT), s)
      else if words s !!! a =? v then (inr false, fset kern_f (<[me := Asleep a]> (kern s)) s)
      else (inl (Ok tt), s)
  | Woken _ => (inl (Ok tt), fset kern_f (<[me := Awake]> (kern s)) s)
  | Asleep b =>
      if bool_decide (b = a) && ring && (0 <? tm) then (inr true, fset kern_f (<[me := Awake]> (kern s)) s)
      else (inr gone, s)
  end.

Fixpoint poll (n : nat) (me : nat) (a : addr) (v tm : Z) (gone : bool) : prog kmem (result unit Z) :=
  match n with
  | O => Spin
  | S n =>
      Flip (fun ring => Act (look me a v tm gone ring) (fun x =>
        match x with inl r => Ret r | inr gone => poll n me a v tm gone end))
  end.

Definition is_asleep (a : addr) (x : nat * sleep) : bool := bool_decide (x.2 = Asleep a).

Definition rouse (a : addr) (z : sleep) : sleep := if bool_decide (z = Asleep a) then Woken a else z.

Definition wake (all : bool) (a : addr) (κ : table) : table :=
  if all then rouse a <$> κ
  else match list_find (fun x => is_asleep a x = true) (map_to_list κ) with
       | Some (_, (t, _)) => <[t := Woken a]> κ
       | None => κ
       end.

Definition PATIENCE : nat := 100.

#[export] Instance table_ulock : Ulock table := {|
  ulock_wait := fun me a v tm => poll PATIENCE me a v tm false;
  ulock_wake := fun all a => act (fun s => (tt, fset kern_f (wake all a (kern s)) s));
  sleeping := entry;
|}.

Lemma entry_insert κ me z t : entry (<[me := z]> κ) t = if decide (t = me) then z else entry κ t.
Proof.
  unfold entry. case_decide; [subst; by rewrite lookup_insert_eq|by rewrite lookup_insert_ne].
Qed.

Lemma kernel_only_refl (s : kmem) : kernel_only s s.
Proof. exists (kern s). by destruct s. Qed.

Lemma poll_law n me a v tm gone : call (wait_step me a v) (wait_returns me a) (poll n me a v tm gone).
Proof.
  revert gone. induction n as [|n IH]; intros gone; [done|]. intros ring s. cbn [fst snd]. unfold look.
  assert (forall z t, t <> me -> sleeps (fset kern_f (<[me := z]> (kern s)) s) t = sleeps s t) as Ho.
  { intros z t Ht. unfold sleeps. simpl. by rewrite entry_insert, decide_False. }
  assert (forall z, sleeps (fset kern_f (<[me := z]> (kern s)) s) me = z) as Hme.
  { intros z. unfold sleeps. simpl. by rewrite entry_insert, decide_True. }
  destruct (entry (kern s) me) as [|b|b] eqn:E; change (sleeps s me = Awake) in E || change (sleeps s me = Asleep b) in E || change (sleeps s me = Woken b) in E.
  - destruct gone; [|destruct (Z.eqb_spec (words s !!! a) v) as [Ev|Ev]]; cbn [fst snd].
    + left. eexists. split; [done|]. split; [apply kernel_only_refl|]. split; [done|]. split; [done|]. by rewrite E.
    + right. split; [|apply IH]. split; [by eexists|]. split; [exact (Ho _)|]. right. left. by rewrite E, Hme.
    + left. eexists. split; [done|]. split; [apply kernel_only_refl|]. split; [done|]. split; [done|]. by rewrite E.
  - right. case_bool_decide as Eb; [subst b; destruct ring; [destruct (0 <? tm)|]|]; cbn [andb fst snd]; (split; [|apply IH]).
    + split; [by eexists|]. split; [exact (Ho _)|]. right. right. by rewrite E, Hme.
    + split; [apply kernel_only_refl|]. split; [done|]. by left.
    + split; [apply kernel_only_refl|]. split; [done|]. by left.
    + split; [apply kernel_only_refl|]. split; [done|]. by left.
  - left. eexists. split; [done|]. cbn [fst snd]. split; [by eexists|]. split; [exact (Ho _)|]. split; [apply Hme|]. by rewrite E.
Qed.

Lemma wake_entry all a κ t : entry κ t <> Asleep a -> entry (wake all a κ) t = entry κ t.
Proof.
  intros Ht. unfold wake. destruct all.
  - unfold entry in *. rewrite lookup_fmap. destruct (κ !! t) as [z|]; simpl in *; [|done]. unfold rouse. by rewrite bool_decide_eq_false_2.
  - destruct (list_find _ _) as [[i [u z]]|] eqn:E; [|done]. apply list_find_Some in E as (Hi & Hz & _).
    apply list_elem_of_lookup_2, elem_of_map_to_list in Hi. unfold is_asleep in Hz. apply bool_decide_eq_true in Hz. simpl in Hz.
    rewrite entry_insert, decide_False; [done|]. intros ->. apply Ht. unfold entry. by rewrite Hi.
Qed.

Lemma wake_asleep all a κ t : entry κ t = Asleep a -> entry (wake all a κ) t = Asleep a \/ entry (wake all a κ) t = Woken a.
Proof.
  intros Ht. unfold wake. destruct all.
  - right. unfold entry in *. rewrite lookup_fmap. destruct (κ !! t) as [z|]; simpl in *; [|done]. subst z. unfold rouse. by rewrite bool_decide_eq_true_2.
  - destruct (list_find _ _) as [[i [u z]]|] eqn:E; [|by left]. rewrite entry_insert. case_decide; [by right|by left].
Qed.

Lemma wake_law all a (s : kmem) : wakes all a s (fset kern_f (wake all a (kern s)) s).
Proof.
  split; [by eexists|]. split; [intros t Ht; by apply wake_entry|]. split; [intros t Ht; by apply wake_asleep|].
  unfold sleeps. cbn. destruct all.
  - intros t. unfold wake, entry. rewrite lookup_fmap. destruct (kern s !! t) as [z|]; simpl; [|done]. unfold rouse. by case_bool_decide.
  - unfold wake. destruct (list_find _ _) as [[i [u z]]|] eqn:E.
    + right. exists u. apply list_find_Some in E as (Hi & Hz & _). apply list_elem_of_lookup_2, elem_of_map_to_list in Hi.
      apply bool_decide_eq_true in Hz. simpl in Hz. subst z. split; [unfold entry; by rewrite Hi|]. by rewrite entry_insert, decide_True.
    + left. intros t Ht. unfold entry in Ht. destruct (kern s !! t) as [z|] eqn:Et; simpl in Ht; [|done]. subst z.
      apply list_find_None in E. rewrite Forall_forall in E. apply (E (t, Asleep a)); [by apply elem_of_map_to_list|]. by apply bool_decide_eq_true.
Qed.

#[export] Instance table_laws : UlockLaws table.
Proof.
  constructor; [intros; apply poll_law|]. intros all a s. left. exists tt. split; [done|]. apply wake_law.
Qed.

(** Fresh memory. *)
Definition blank : kmem := mk_umem ∅ (mk_clock 0 []) (mk_marks ∅ ∅) ∅.
