(* ===== verification/UlockMutex.v ===== *)
(** * The Apple mutex under interleaving

    Threads of living processes that lock, try to lock or lock with a timeout, enter the section
    the mutex protects, leave it and unlock.  However they interleave with each other and with the
    kernel, one thread at a time is in a section, and nobody sleeps on a mutex without somebody else
    on the way to wake it. *)
From S2P Require Import Prelude Atomics Abi Liveness Concurrent Ulock UlockKernel.
Import PlatformMutex.

(** ** Clients *)

Inductive uop := ULock (m : Z) | ULockTimeout (m timeout_ms : Z) | UTryLock (m : Z).
Definition uop_mutex (x : uop) : Z := match x with ULock m | ULockTimeout m _ | UTryLock m => m end.

Section clients.
Context {K : Type} `{!Ulock K} (o : os) (n : nat).
Abbreviation M := (prog (umem K)).

Definition enter (th : uthread) (m : Z) : M unit := act (fun s => (tt, fset inside_f ({[(u_me th, m)]} ∪ fget inside_f s) s)).
Definition leave (th : uthread) (m : Z) : M unit := act (fun s => (tt, fset inside_f (fget inside_f s ∖ {[(u_me th, m)]}) s)).

(** The operation of a thread on a mutex, from the lock call to the end of the unlock call. *)
Definition begin_work (th : uthread) (m : Z) : M unit := act (fun s => (tt, fset at_work_f ({[(u_me th, m)]} ∪ fget at_work_f s) s)).
Definition end_work (th : uthread) (m : Z) : M unit := act (fun s => (tt, fset at_work_f (fget at_work_f s ∖ {[(u_me th, m)]}) s)).

(** Whether the lock was taken. *)
Definition acquire (th : uthread) (x : uop) : M bool :=
  match x with
  | ULock m => r ← lock n th m; Ret (is_ok r)
  | ULockTimeout m ms => r ← lock_timeout o n th m ms; Ret (bool_decide (r = Ok true))
  | UTryLock m => r ← try_lock o th m; Ret (bool_decide (r = Ok true))
  end.

Fixpoint client (th : uthread) (ops : list uop) : M unit :=
  match ops with
  | [] => Ret tt
  | x :: ops =>
      _ ← begin_work th (uop_mutex x);
      got ← acquire th x;
      _ ← (if (got : bool) then
             _ ← enter th (uop_mutex x);
             _ ← leave th (uop_mutex x);
             unlock (uop_mutex x)
           else Ret (Ok tt));
      _ ← end_work th (uop_mutex x);
      client th ops
  end.

(** Thread [j] of the pool runs in the process given. *)
Definition crowd (ts : list (Z * list uop)) : list (M unit) := imap (fun j x => client (mk_uthread j x.1) x.2) ts.

End clients.

(** ** The invariant

    A thread has no obligation, outside or inside an operation; is bound to see to the sleepers of a mutex, by taking it, marking it
    or waking one; is in the kernel's wait call on a mutex or on something else; or holds a mutex,
    inside the section or not.  [dom] says which mappings are mutexes. *)
Inductive phase := Out | Near (m : Z) | Bound (m : Z) | Calling (m : Z) | Away | Holding (m : Z) (ins : bool).

(** The mutex a thread is at work on. *)
Definition about (g : phase) : option Z :=
  match g with Near m | Bound m | Calling m | Holding m _ => Some m | Out | Away => None end.

Definition state_word (m : Z) : addr := (m, ulock_mutex_state_off).
Definition holder_word (m : Z) : addr := (m, ulock_mutex_holder_off).

Section invariant.
(** [marked]: the clients mark which mutex they are at work on. *)
Context {K : Type} `{!Ulock K} (o : os) (dom : Z -> bool) (marked : bool).
Implicit Types (s : umem K) (Γ : list phase).

(** In an operation on [m], bound or not. *)
Definition near (m : Z) : phase := if marked then Near m else Out.
Definition trying (m : Z) (bound : bool) : phase := if bound then Bound m else near m.

(** What the mutexes' words hold; anything else counts as a free mutex. *)
Definition state s (m : Z) : Z := if dom m then words s !!! state_word m else 0.
Definition holder s (m : Z) : Z := if dom m then words s !!! holder_word m else 0.

(** Thread [i] will see to the sleepers of [m]. *)
Definition minds s Γ (m : Z) (i : nat) : Prop :=
  Γ !! i = Some (Bound m) \/ (Γ !! i = Some (Calling m) /\ sleeps s i = Woken (state_word m)).

Definition sleep_ok (g : option phase) (z : sleep) : Prop :=
  match g with
  | Some (Calling m) => dom m = true /\ (z = Awake \/ z = Asleep (state_word m) \/ z = Woken (state_word m))
  | Some Away => forall m, dom m = true -> z <> Asleep (state_word m) /\ z <> Woken (state_word m)
  | _ => z = Awake
  end.

Definition work_ok s Γ : Prop :=
  marked = true -> forall j m, (Γ !! j ≫= about) = Some m -> (j, m) ∈ at_work (notes s).

Record mutex_inv s Γ : Prop := {
  mi_state m : state s m = 0 \/ state s m = 1 \/ state s m = 2;
  mi_held j m ins : Γ !! j = Some (Holding m ins) -> state s m <> 0;
  mi_one i j m a b : Γ !! i = Some (Holding m a) -> Γ !! j = Some (Holding m b) -> i = j;
  mi_holder m : state s m <> 0 -> exists j ins, Γ !! j = Some (Holding m ins);
  mi_notes j m : (j, m) ∈ inside (notes s) <-> Γ !! j = Some (Holding m true);
  mi_alive m : holder s m = 0 \/ is_process_alive o (holder s m) = true;
  mi_sleep j : sleep_ok (Γ !! j) (sleeps s j);
  mi_minded j m : sleeps s j = Asleep (state_word m) -> dom m = true -> state s m = 2 \/ exists i, minds s Γ m i;
  mi_work : work_ok s Γ;
}.

Definition holds (g : phase) : option (Z * bool) := match g with Holding m ins => Some (m, ins) | _ => None end.

Lemma work_ok_move s s' Γ j g g' :
  work_ok s Γ -> notes s' = notes s -> Γ !! j = Some g -> (marked = true -> about g' = about g) -> work_ok s' (<[j := g']> Γ).
Proof.
  intros H Hn Hj Hg Hm i m. rewrite Hn, (lookup_moved _ _ _ _ _ Hj). case_decide as E; [subst|by apply H].
  intros Ha. apply H; [done|]. rewrite Hj. simpl. by rewrite <- Hg.
Qed.

Lemma about_trying m r : marked = true -> about (trying m r) = Some m.
Proof. unfold trying, near. by destruct r; intros ->. Qed.

Lemma trying_holds m r : holds (trying m r) = None.
Proof. unfold trying, near. by destruct r, marked. Qed.

Lemma trying_bound m r k : trying m r = Bound k -> r = true /\ k = m.
Proof. unfold trying, near. destruct r, marked; intros; by simplify_eq. Qed.

Lemma trying_calling m r k : trying m r <> Calling k.
Proof. unfold trying, near. by destruct r, marked. Qed.

Lemma trying_sleep m r z : sleep_ok (Some (trying m r)) z <-> z = Awake.
Proof. unfold trying, near. by destruct r, marked. Qed.

(** Another thread keeps minding. *)
Lemma minds_other s s' Γ j g g' m i :
  Γ !! j = Some g -> i <> j -> sleeps s' i = sleeps s i -> minds s Γ m i -> minds s' (<[j := g']> Γ) m i.
Proof. intros Hj Hi Hs. unfold minds. rewrite (lookup_moved Γ j g g' i Hj), decide_False, Hs by done. done. Qed.

(** Thread [j], awake, passes from [g] to [g'] without a change of a mutex. *)
Lemma mtx_inv_change s s' Γ j g g' :
  mutex_inv s Γ -> Γ !! j = Some g ->
  (forall m, state s' m = state s m) -> inside (notes s') = inside (notes s) -> (forall t, sleeps s' t = sleeps s t) ->
  (forall m, holder s' m = holder s m \/ holder s' m = 0 \/ is_process_alive o (holder s' m) = true) ->
  holds g' = holds g -> sleeps s j = Awake -> (forall m, g' = Calling m -> dom m = true) -> (forall m, g = Bound m -> g' = Bound m \/ state s m = 2) ->
  work_ok s' (<[j := g']> Γ) ->
  mutex_inv s' (<[j := g']> Γ).
Proof.
  intros [] Hj Hst Hn Hsl Hh Hg Haw Hc Hb Hab.
  assert (forall i m ins, (<[j := g']> Γ) !! i = Some (Holding m ins) <-> Γ !! i = Some (Holding m ins)) as HH.
  { intros i m ins. rewrite (lookup_moved _ _ _ _ _ Hj). case_decide as E; [subst i|done]. rewrite Hj.
    destruct g, g'; simpl in Hg; split; intros; simplify_eq; done. }
  constructor; intros; rewrite ?Hst, ?Hsl, ?Hn in *; rewrite ?HH in *; eauto.
  - destruct (mi_holder0 m) as (i & ins & Hi); [done|]. exists i, ins. by rewrite HH.
  - destruct (Hh m) as [->|?]; eauto.
  - rewrite (lookup_moved _ _ _ _ _ Hj). case_decide as E; [subst|apply mi_sleep0]. rewrite Haw. destruct g'; simpl; auto; by split.
  - destruct (mi_minded0 _ _ H ltac:(done)) as [?|(i & Hi)]; [by left|]. destruct (decide (i = j)) as [->|Hij].
    + assert (g = Bound m) as Hbg by (destruct Hi as [Hi|[_ Hi]]; rewrite ?Hj, ?Haw in Hi; congruence).
      destruct (Hb m Hbg) as [->|?]; [|by left]. right. exists j. left. by rewrite (lookup_moved _ _ _ _ _ Hj), decide_True.
    + right. exists i. eapply (minds_other s); [done|done|apply Hsl|done].
Qed.

(** The same with the marks unchanged. *)
Lemma mtx_inv_move s s' Γ j g g' :
  mutex_inv s Γ -> Γ !! j = Some g ->
  (forall m, state s' m = state s m) -> notes s' = notes s -> (forall t, sleeps s' t = sleeps s t) ->
  (forall m, holder s' m = holder s m \/ holder s' m = 0 \/ is_process_alive o (holder s' m) = true) ->
  holds g' = holds g -> sleeps s j = Awake -> (forall m, g' = Calling m -> dom m = true) -> (forall m, g = Bound m -> g' = Bound m \/ state s m = 2) ->
  (marked = true -> about g' = about g) ->
  mutex_inv s' (<[j := g']> Γ).
Proof.
  intros HI Hj Hst Hn **. eapply mtx_inv_change; try done; [by rewrite Hn|]. eapply work_ok_move; [by apply mi_work|done..].
Qed.

(** A change of the state word of [m] to [v]. *)
Definition sets_state (m v : Z) s s' : Prop :=
  state s' m = v /\ (forall k, k <> m -> state s' k = state s k) /\ (forall k, holder s' k = holder s k) /\
  notes s' = notes s /\ forall t, sleeps s' t = sleeps s t.

Lemma mtx_inv_take s s' Γ j m r v :
  mutex_inv s Γ -> Γ !! j = Some (trying m r) -> state s m = 0 -> v = 1 \/ v = 2 -> (r = true -> v = 2) ->
  sets_state m v s s' -> mutex_inv s' (<[j := Holding m false]> Γ).
Proof.
  intros [] Hj H0 Hv Hr (Hm & Ho & Hh & Hn & Hsl).
  assert (forall k ins, trying m r <> Holding k ins) as Ht by (intros k ins E; pose proof (trying_holds m r) as E'; by rewrite E in E').
  assert (forall i k ins, (<[j := Holding m false]> Γ) !! i = Some (Holding k ins) ->
    (i = j /\ k = m /\ ins = false) \/ (i <> j /\ k <> m /\ Γ !! i = Some (Holding k ins))) as HH.
  { intros i k ins. rewrite (lookup_moved _ _ _ _ _ Hj). case_decide as E; intros; simplify_eq; [by left|]. right.
    split; [done|]. split; [|done]. intros ->. by eapply mi_held0. }
  constructor; intros.
  - destruct (decide (m0 = m)) as [->|?]; [lia|]. rewrite Ho by done. apply mi_state0.
  - apply HH in H as [(-> & -> & ->)|(? & Hk & ?)]; [lia|]. rewrite Ho by done. eauto.
  - apply HH in H as [(-> & -> & ->)|(? & Hk & ?)]; apply HH in H1 as [(-> & ? & ->)|(? & Hk' & ?)]; try done. eauto.
  - destruct (decide (m0 = m)) as [->|Hk].
    + exists j, false. by rewrite (lookup_moved _ _ _ _ _ Hj), decide_True.
    + rewrite Ho in H by done. destruct (mi_holder0 _ H) as (i & ins & Hi). exists i, ins.
      rewrite (lookup_moved _ _ _ _ _ Hj), decide_False; [done|]. intros ->. rewrite Hj in Hi. simplify_eq. by eapply Ht.
  - rewrite Hn, mi_notes0, (lookup_moved _ _ _ _ _ Hj). case_decide as E; [subst; rewrite Hj; split; intros [= E]; by apply Ht in E|done].
  - rewrite Hh. apply mi_alive0.
  - rewrite Hsl, (lookup_moved _ _ _ _ _ Hj). case_decide as E; [subst|apply mi_sleep0]. specialize (mi_sleep0 j). rewrite Hj in mi_sleep0. by apply trying_sleep in mi_sleep0.
  - rewrite Hsl in H. destruct (mi_minded0 _ _ H ltac:(done)) as [E2|(i & Hi)].
    + left. rewrite Ho; [done|]. intros ->. lia.
    + destruct (decide (i = j)) as [->|Hij]; [|right; exists i; eapply (minds_other s); [done|done|apply Hsl|done]]. left.
      destruct Hi as [Hi|[Hi _]]; rewrite Hj in Hi; injection Hi as Hi; [|by apply trying_calling in Hi].
      apply trying_bound in Hi as [-> ->]. by rewrite Hm, Hr.
  - eapply work_ok_move; [done|done|done|]. intros Hmk. by rewrite about_trying.
Qed.

Lemma inv_mark s s' Γ j m r :
  mutex_inv s Γ -> Γ !! j = Some (trying m r) -> state s m = 1 ->
  sets_state m 2 s s' -> mutex_inv s' (<[j := near m]> Γ).
Proof.
  intros [] Hj H1 (Hm & Ho & Hh & Hn & Hsl).
  assert (forall k ins, trying m r <> Holding k ins) as Ht by (intros k ins E; pose proof (trying_holds m r) as E'; by rewrite E in E').
  assert (forall i k ins, (<[j := near m]> Γ) !! i = Some (Holding k ins) <-> Γ !! i = Some (Holding k ins)) as HH.
  { intros i k ins. rewrite (lookup_moved _ _ _ _ _ Hj). case_decide as E; [subst; rewrite Hj|done].
    split; intros [= E]; [|by apply Ht in E]. pose proof (trying_holds m false) as E'. unfold trying in E'. by rewrite E in E'. }
  assert (forall k, state s' k <> 0 <-> state s k <> 0) as H0.
  { intros k. destruct (decide (k = m)) as [->|?]; [lia|]. by rewrite Ho. }
  constructor; intros; rewrite ?Hn, ?HH in *; eauto.
  - destruct (decide (m0 = m)) as [->|?]; [lia|]. rewrite Ho by done. apply mi_state0.
  - apply H0. eauto.
  - apply H0 in H. destruct (mi_holder0 _ H) as (i & ins & Hi). exists i, ins. by rewrite HH.
  - rewrite Hh. apply mi_alive0.
  - rewrite Hsl, (lookup_moved _ _ _ _ _ Hj). case_decide as E; [subst|apply mi_sleep0]. specialize (mi_sleep0 j). rewrite Hj in mi_sleep0.
    apply trying_sleep in mi_sleep0. by apply (trying_sleep m false).
  - rewrite Hsl in H. destruct (decide (m0 = m)) as [->|Hk]; [by left|]. rewrite Ho by done.
    destruct (mi_minded0 _ _ H ltac:(done)) as [E2|(i & Hi)]; [by left|]. right. exists i. eapply minds_other; [done| |apply Hsl|done].
    intros ->. destruct Hi as [Hi|[Hi _]]; rewrite Hj in Hi; injection Hi as Hi; [|by apply trying_calling in Hi].
    apply trying_bound in Hi as [_ Hi]. done.
  - eapply work_ok_move; [done|done|done|]. intros Hmk. rewrite about_trying by done. by apply (about_trying m false).
Qed.

Lemma mtx_inv_release s s' Γ j m :
  mutex_inv s Γ -> Γ !! j = Some (Holding m false) -> sets_state m 0 s s' ->
  mutex_inv s' (<[j := trying m (state s m =? 2)]> Γ).
Proof.
  intros [] Hj (Hm & Ho & Hh & Hn & Hsl). set (g' := trying m (state s m =? 2)).
  assert (holds g' = None) as Hg' by (apply trying_holds).
  assert (forall i k ins, (<[j := g']> Γ) !! i = Some (Holding k ins) <-> i <> j /\ Γ !! i = Some (Holding k ins)) as HH.
  { intros i k ins. rewrite (lookup_moved _ _ _ _ _ Hj). case_decide as E; [subst|tauto]. split; [|tauto].
    intros [= E]. rewrite E in Hg'. done. }
  constructor; intros; rewrite ?HH in *.
  - destruct (decide (m0 = m)) as [->|?]; [lia|]. rewrite Ho by done. apply mi_state0.
  - destruct H as [Hij Hi]. rewrite Ho; [eauto|]. intros ->. eauto.
  - destruct H, H0. eauto.
  - destruct (decide (m0 = m)) as [->|Hk]; [done|]. rewrite Ho in H by done. destruct (mi_holder0 _ H) as (i & ins & Hi).
    exists i, ins. rewrite HH. split; [|done]. intros ->. congruence.
  - rewrite Hn, mi_notes0. split; [|tauto]. intros Hi. split; [|done]. intros ->. congruence.
  - rewrite Hh. apply mi_alive0.
  - rewrite Hsl, (lookup_moved _ _ _ _ _ Hj). case_decide as E; [subst|apply mi_sleep0]. specialize (mi_sleep0 j). rewrite Hj in mi_sleep0.
    by apply trying_sleep.
  - rewrite Hsl in H. destruct (decide (m0 = m)) as [->|Hk].
    + right. destruct (mi_minded0 _ _ H ltac:(done)) as [E2|(i & Hi)].
      * exists j. left. rewrite (lookup_moved _ _ _ _ _ Hj), decide_True by done. unfold g'. by rewrite E2.
      * exists i. eapply minds_other; [done| |apply Hsl|done]. intros ->. destruct Hi as [Hi|[Hi _]]; rewrite Hj in Hi; simplify_eq/=.
    + rewrite Ho by done. destruct (mi_minded0 _ _ H ltac:(done)) as [E2|(i & Hi)]; [by left|]. right. exists i. eapply minds_other; [done| |apply Hsl|done].
      intros ->. destruct Hi as [Hi|[Hi _]]; rewrite Hj in Hi; simplify_eq/=.
  - eapply work_ok_move; [done|done|done|]. intros Hmk. unfold g'. by rewrite about_trying.
Qed.

(** Entering or leaving the section. *)
Lemma inv_notes s s' Γ j m a b :
  mutex_inv s Γ -> Γ !! j = Some (Holding m a) ->
  (forall k, state s' k = state s k) -> (forall k, holder s' k = holder s k) -> (forall t, sleeps s' t = sleeps s t) ->
  at_work (notes s') = at_work (notes s) ->
  (forall i k, (i, k) ∈ inside (notes s') <-> if decide ((i, k) = (j, m)) then b = true else (i, k) ∈ inside (notes s)) ->
  mutex_inv s' (<[j := Holding m b]> Γ).
Proof.
  intros [] Hj Hst Hh Hsl Hw Hn.
  assert (forall i k ins, (<[j := Holding m b]> Γ) !! i = Some (Holding k ins) <->
    if decide ((i, k) = (j, m)) then ins = b else Γ !! i = Some (Holding k ins)) as HH.
  { intros i k ins. rewrite (lookup_moved _ _ _ _ _ Hj). repeat case_decide; simplify_eq; try done.
    - split; [by intros [= ->]|by intros ->].
    - split; intros; simplify_eq; congruence. }
  assert (forall i k ins, (<[j := Holding m b]> Γ) !! i = Some (Holding k ins) -> exists ins', Γ !! i = Some (Holding k ins')) as HL.
  { intros i k ins. rewrite HH. case_decide; simplify_eq; eauto. }
  constructor; intros; rewrite ?Hst, ?Hsl, ?Hh in *; eauto.
  - apply HL in H as []. eauto.
  - apply HL in H as []. apply HL in H0 as []. eauto.
  - destruct (mi_holder0 _ H) as (i & ins & Hi). destruct (decide ((i, m0) = (j, m))) as [E|E].
    + exists i, b. rewrite HH. by rewrite decide_True.
    + exists i, ins. rewrite HH. by rewrite decide_False.
  - rewrite Hn, HH. case_decide; [by split; intros ->|apply mi_notes0].
  - rewrite (lookup_moved _ _ _ _ _ Hj). case_decide as E; [subst|apply mi_sleep0]. specialize (mi_sleep0 j). by rewrite Hj in mi_sleep0.
  - destruct (mi_minded0 _ _ H ltac:(done)) as [?|(i & Hi)]; [by left|]. right. exists i. eapply (minds_other s); [done| |apply Hsl|done].
    intros ->. destruct Hi as [Hi|[Hi _]]; rewrite Hj in Hi; simplify_eq.
  - intros Hmk i k. rewrite Hw, (lookup_moved _ _ _ _ _ Hj). case_decide as E; [subst|by apply mi_work0].
    intros Ha. apply mi_work0; [done|]. by rewrite Hj.
Qed.

(** A step in the kernel's wait call. *)
Lemma kernel_only_words s s' : kernel_only s s' -> words s' = words s /\ notes s' = notes s.
Proof. by intros [κ ->]. Qed.

Lemma mtx_inv_kernel s s' Γ Γ' :
  mutex_inv s Γ -> kernel_only s s' ->
  (forall i m ins, Γ' !! i = Some (Holding m ins) <-> Γ !! i = Some (Holding m ins)) ->
  (forall i, sleep_ok (Γ' !! i) (sleeps s' i)) ->
  (forall i m, sleeps s' i = Asleep (state_word m) -> dom m = true -> state s m = 2 \/ exists t, minds s' Γ' m t) ->
  (forall i m, marked = true -> (Γ' !! i ≫= about) = Some m -> (Γ !! i ≫= about) = Some m) ->
  mutex_inv s' Γ'.
Proof.
  intros [] [Hw Hn]%kernel_only_words HH Hsl Hm Hab.
  assert (forall m, state s' m = state s m) as Est by (intros; unfold state; by rewrite Hw).
  assert (forall m, holder s' m = holder s m) as Eh by (intros; unfold holder; by rewrite Hw).
  constructor; intros; rewrite ?Est, ?Eh, ?Hn, ?HH in *; eauto.
  - destruct (mi_holder0 _ H) as (i & ins & Hi). exists i, ins. by rewrite HH.
  - intros Hmk i m Ha. rewrite Hn. eauto.
Qed.

(** The same with the phase of one thread changed. *)
Lemma about_insert Γ j g g' : Γ !! j = Some g -> (marked = true -> about g' = about g) ->
  forall i m, marked = true -> ((<[j := g']> Γ) !! i ≫= about) = Some m -> (Γ !! i ≫= about) = Some m.
Proof.
  intros Hj Hg i m Hmk. rewrite (lookup_moved _ _ _ _ _ Hj). case_decide as E; [subst|done]. rewrite Hj. simpl. by rewrite Hg.
Qed.

Lemma mtx_inv_wait_step s s' Γ j m :
  mutex_inv s Γ -> Γ !! j = Some (Calling m) -> wait_step j (state_word m) 2 s s' -> mutex_inv s' Γ.
Proof.
  intros HI Hj (Hk & Ho & Hme). pose proof HI as []. eapply mtx_inv_kernel; [done|done|done| | |done].
  - intros i. destruct (decide (i = j)) as [->|Hi]; [|rewrite Ho by done; apply mi_sleep0]. rewrite Hj.
    specialize (mi_sleep0 j). rewrite Hj in mi_sleep0. destruct mi_sleep0 as [Hdm Hz].
    destruct Hme as [->|[(_ & _ & ->)|(_ & ->)]]; simpl; auto.
  - assert (forall k t, minds s Γ k t -> minds s' Γ k t) as Hmm.
    { intros k t [Ht|[Ht Hw]]; [by left|right]. split; [done|]. destruct (decide (t = j)) as [->|Hi]; [|by rewrite Ho].
      destruct Hme as [->|[(E & _)|(E & _)]]; congruence. }
    intros i k Hi Hd. destruct (decide (i = j)) as [->|Hij].
    + destruct Hme as [E|[(_ & E & Hs)|(_ & E)]]; [|rewrite Hs in Hi; simplify_eq; left; unfold state; by rewrite Hd|congruence].
      rewrite E in Hi. destruct (mi_minded0 _ _ Hi Hd) as [?|[t Ht]]; eauto.
    + rewrite Ho in Hi by done. destruct (mi_minded0 _ _ Hi Hd) as [?|[t Ht]]; eauto.
Qed.

(** The call returns; a woken caller is bound to see to the other sleepers. *)
Lemma mtx_inv_wait_returns s s' Γ j m r :
  mutex_inv s Γ -> Γ !! j = Some (Calling m) -> wait_returns j (state_word m) r s s' ->
  mutex_inv s' (<[j := trying m (negb (bool_decide (sleeps s j = Awake)))]> Γ).
Proof.
  intros HI Hj (Hk & Ho & Hme & Hna & _). pose proof HI as []. set (g' := trying m _).
  eapply mtx_inv_kernel; [done|done| | | |eapply about_insert; [done|apply about_trying]].
  - intros i k ins. rewrite (lookup_moved _ _ _ _ _ Hj). case_decide; [subst|done]. rewrite Hj.
    split; [|done]. intros [= E]. pose proof (trying_holds m (negb (bool_decide (sleeps s j = Awake)))) as E'. fold g' in E'. by rewrite E in E'.
  - intros i. rewrite (lookup_moved _ _ _ _ _ Hj). case_decide as E; [subst|rewrite Ho by done; apply mi_sleep0].
    by apply trying_sleep.
  - intros i k Hi Hd. destruct (decide (i = j)) as [->|Hij]; [congruence|]. rewrite Ho in Hi by done.
    destruct (mi_minded0 _ _ Hi Hd) as [?|[t Ht]]; [by left|]. right. exists t. destruct (decide (t = j)) as [->|Htj].
    + destruct Ht as [Ht|[Ht Hw]]; [congruence|]. rewrite Hj in Ht. simplify_eq. left.
      rewrite (lookup_moved _ _ _ _ _ Hj), decide_True by done. unfold g'. rewrite bool_decide_eq_false_2; [done|]. by rewrite Hw.
    + eapply (minds_other s); [done|done|by apply Ho|done].
Qed.

(** A wait call on something that is no mutex, and its return. *)
Lemma inv_away s s' Γ j g g' :
  mutex_inv s Γ -> Γ !! j = Some g -> g = Out \/ g = Away -> kernel_only s s' -> others_sleep j s s' ->
  (g' = Out /\ sleeps s' j = Awake) \/ (g' = Away /\ sleep_ok (Some Away) (sleeps s' j)) ->
  mutex_inv s' (<[j := g']> Γ).
Proof.
  intros HI Hj Hg Hk Ho Hg'. pose proof HI as [].
  eapply mtx_inv_kernel; [done|done| | | |eapply about_insert; [done|by destruct Hg as [->| ->], Hg' as [[-> _]|[-> _]]]].
  - intros i k ins. rewrite (lookup_moved _ _ _ _ _ Hj). case_decide; [subst|done]. rewrite Hj.
    destruct Hg as [->| ->]; destruct Hg' as [[-> _]|[-> _]]; by split.
  - intros i. rewrite (lookup_moved _ _ _ _ _ Hj). case_decide; [subst|rewrite Ho by done; apply mi_sleep0]. by destruct Hg' as [[-> ?]|[-> ?]].
  - intros i k Hi Hd. destruct (decide (i = j)) as [->|Hij].
    + destruct Hg' as [[_ E]|[_ E]]; [congruence|]. by destruct (E k Hd).
    + rewrite Ho in Hi by done. destruct (mi_minded0 _ _ Hi Hd) as [?|[t Ht]]; [by left|]. right. exists t.
      eapply (minds_other s); [done| |apply Ho|done]; intros ->; destruct Ht as [Ht|[Ht _]]; rewrite Hj in Ht; destruct Hg; by simplify_eq.
Qed.

(** A wake call on something that is no mutex. *)
Lemma inv_wakes_away s s' Γ all w :
  mutex_inv s Γ -> (forall m, dom m = true -> w <> state_word m) -> wakes all w s s' -> mutex_inv s' Γ.
Proof.
  intros HI Hw (Hk & Hne & Has & _). pose proof HI as []. eapply mtx_inv_kernel; [done|done|done| | |done].
  - intros i. destruct (decide (sleeps s i = Asleep w)) as [Hs|Hs]; [|rewrite Hne by done; apply mi_sleep0].
    specialize (mi_sleep0 i). rewrite Hs in mi_sleep0. destruct (Γ !! i) as [[]|]; simpl in *; try done.
    + destruct mi_sleep0 as [Hd [?|[?|?]]]; simplify_eq. by destruct (Hw m).
    + intros m Hd. destruct (Has _ Hs) as [->| ->]; split; try done; intros [= ->]; by eapply Hw.
  - intros i k Hi Hd. assert (sleeps s i = Asleep (state_word k)) as Hs.
    { destruct (decide (sleeps s i = Asleep w)) as [Hs|Hs]; [|by rewrite <- Hne].
      destruct (Has _ Hs) as [E|E]; rewrite E in Hi; simplify_eq. by destruct (Hw k). }
    destruct (mi_minded0 _ _ Hs Hd) as [?|[t Ht]]; [by left|]. right. exists t. destruct Ht as [Ht|[Ht Ht']]; [by left|right].
    split; [done|]. rewrite Hne; [done|]. by rewrite Ht'.
Qed.

(** The wake call of a thread bound to wake. *)
Lemma mtx_inv_wakes s s' Γ j m :
  mutex_inv s Γ -> dom m = true -> Γ !! j = Some (Bound m) -> wakes false (state_word m) s s' -> mutex_inv s' (<[j := near m]> Γ).
Proof.
  intros HI Hdm Hj (Hk & Hne & Has & Hw). pose proof HI as [].
  assert (sleeps s' j = Awake) as Hja.
  { specialize (mi_sleep0 j). rewrite Hj in mi_sleep0. rewrite Hne; [done|]. by rewrite mi_sleep0. }
  assert (forall t, sleeps s t = Asleep (state_word m) -> Γ !! t = Some (Calling m)) as Hcall.
  { intros t Ht. specialize (mi_sleep0 t). rewrite Ht in mi_sleep0. destruct (Γ !! t) as [[]|]; simpl in mi_sleep0; try done.
    - destruct mi_sleep0 as [_ [?|[?|?]]]; by simplify_eq.
    - by destruct (mi_sleep0 m Hdm). }
  eapply mtx_inv_kernel; [done|done| | | |eapply about_insert; [done|apply (about_trying m false)]].
  - intros i k ins. rewrite (lookup_moved _ _ _ _ _ Hj). case_decide; [subst|done]. rewrite Hj.
    split; [|done]. intros [= E]. pose proof (trying_holds m false) as E'. unfold trying in E'. by rewrite E in E'.
  - intros i. rewrite (lookup_moved _ _ _ _ _ Hj). case_decide as E; [subst; by apply (trying_sleep m false)|].
    destruct (decide (sleeps s i = Asleep (state_word m))) as [Hs|Hs]; [|by rewrite Hne].
    rewrite (Hcall _ Hs). split; [done|]. destruct (Has _ Hs) as [->| ->]; simpl; auto.
  - intros i k Hi Hd. assert (sleeps s i = Asleep (state_word k)) as Hs.
    { destruct (decide (sleeps s i = Asleep (state_word m))) as [Hs|Hs]; [|by rewrite <- (Hne i)].
      destruct (Has _ Hs) as [E|E]; rewrite E in Hi; by simplify_eq. }
    destruct (decide (k = m)) as [->|Hkm].
    + right. destruct Hw as [Hw|(t & Ht & Ht')]; [by apply Hw in Hs|]. exists t. right. split; [|done].
      rewrite (lookup_moved _ _ _ _ _ Hj), decide_False; [by apply Hcall|]. intros ->. congruence.
    + destruct (mi_minded0 _ _ Hs Hd) as [?|[t Ht]]; [by left|]. right. exists t. eapply (minds_other s); [done| | |done].
      * intros ->. destruct Ht as [Ht|[Ht _]]; rewrite Hj in Ht; simplify_eq.
      * apply Hne. intros E. destruct Ht as [Ht|[Ht Ht']]; [|congruence]. apply Hcall in E. congruence.
Qed.

End invariant.

(** ** The operations *)

Section operations.
Context {K : Type} `{!Ulock K, !UlockLaws K} (o : os) (dom : Z -> bool) (marked : bool).
Implicit Types (s : umem K) (Γ : list phase).
Abbreviation M := (prog (umem K)).
Abbreviation inv := (mutex_inv (K:=K) o dom marked).
Abbreviation trying := (trying marked).
Abbreviation near := (near marked).
Abbreviation wp := (wpc inv).

Abbreviation state := (state (K:=K) dom).
Abbreviation holder := (holder (K:=K) dom).

Lemma state_word_of m s : dom m = true -> fget (state_atomic m) s = state s m.
Proof. unfold UlockMutex.state. by intros ->. Qed.

Lemma sets_state_store m v s : dom m = true -> sets_state dom m v s (fset (state_atomic m) v s).
Proof.
  intros Hd. split; [unfold UlockMutex.state; rewrite Hd; simpl; apply lookup_total_insert_eq|]. split.
  - intros k Hk. unfold UlockMutex.state. simpl. rewrite lookup_total_insert_ne; [done|]. unfold state_word. congruence.
  - split; [|done]. intros k. unfold UlockMutex.holder. simpl. by rewrite lookup_total_insert_ne.
Qed.

(** Not in a wait call. *)
Definition free (g : phase) : Prop := match g with Calling _ | Away => False | _ => True end.

Lemma free_calling g m : free g -> g = Calling m -> dom m = true.
Proof. by destruct g. Qed.

Lemma inv_awake s Γ j g : inv s Γ -> Γ !! j = Some g -> free g -> sleeps s j = Awake.
Proof. intros [] Hj Hg. specialize (mi_sleep0 j). rewrite Hj in mi_sleep0. by destruct g. Qed.

(** Somebody awake and with an obligation sees to a sleeper. *)
Lemma inv_sleeper s Γ i m :
  inv s Γ -> dom m = true -> sleeps s i = Asleep (state_word m) ->
  exists j g, Γ !! j = Some g /\ about g = Some m /\ j <> i /\ forall b, sleeps s j <> Asleep b.
Proof.
  intros HI Hd Hi. pose proof HI as [].
  assert (forall j g, Γ !! j = Some g -> about g = Some m -> (forall b, sleeps s j <> Asleep b) ->
    exists j g, Γ !! j = Some g /\ about g = Some m /\ j <> i /\ forall b, sleeps s j <> Asleep b) as Hwho.
  { intros j g Hj Hg Hb. exists j, g. repeat split; try done. intros ->. by eapply Hb. }
  destruct (mi_minded0 _ _ Hi Hd) as [E|(t & [Ht|[Ht Hw]])].
  - destruct (mi_holder0 m) as (j & ins & Hj); [lia|]. eapply Hwho; [done|done|]. intros b. by rewrite (inv_awake s Γ j _ HI Hj).
  - eapply Hwho; [done|done|]. intros b. by rewrite (inv_awake s Γ t _ HI Ht).
  - eapply Hwho; [done|done|]. intros b. by rewrite Hw.
Qed.

(** Storing to the holder word what is no dead process. *)
Lemma wp_store_holder {A} j m pid g (h : unit -> M A) Q :
  pid = 0 \/ is_process_alive o pid = true -> free g ->
  wp j (h tt) g Q -> wp j (store (holder_atomic m) pid ≫= h) g Q.
Proof.
  intros Hp Hg Hh. apply wpc_act. intros s Γ HI Hj. exists g. split; [|done].
  eapply mtx_inv_move; try done; [| |by eapply inv_awake|intros; by eapply free_calling|by left].
  - intros k. unfold UlockMutex.state. simpl. by rewrite lookup_total_insert_ne.
  - intros k. unfold UlockMutex.holder. simpl. destruct (dom k); [|by left]. destruct (decide (k = m)) as [->|Hk].
    + right. by rewrite lookup_total_insert_eq.
    + left. apply lookup_total_insert_ne. unfold holder_word. congruence.
Qed.

Lemma mtx_wp_now {A} j g (h : Z -> M A) Q : free g -> (forall t, wp j (h t) g Q) -> wp j (now clk_f ≫= h) g Q.
Proof.
  intros Hg Hh. apply wpc_silent; [|done]. intros s Γ HI Hj. rewrite <- (list_insert_id Γ j g) by done.
  eapply mtx_inv_move; try done; eauto using inv_awake, free_calling.
Qed.

(** Of living processes, nobody is found dead. *)
Lemma wp_recover {A} j m g (h : bool -> M A) Q : dom m = true -> wp j (h false) g Q -> wp j (try_recover_dead_holder o m ≫= h) g Q.
Proof.
  intros Hd Hh. apply wpc_bind, wpc_load_same. intros s Γ HI Hj.
  destruct (mi_alive _ _ _ _ _ HI m) as [E|E]; unfold UlockMutex.holder, holder_word in E; rewrite Hd in E; simpl.
  - by rewrite E.
  - rewrite E. by destruct (_ =? 0).
Qed.

Lemma trying_free m r : free (trying m r).
Proof. unfold trying, near. by destruct r, marked. Qed.

Lemma spin_wp n j pid m c r :
  dom m = true -> is_process_alive o pid = true -> (r = true -> c = true) ->
  wp j (spin n (mk_uthread j pid) m (new_val c)) (trying m r) (fun got g => g = if got then Holding m false else trying m r).
Proof.
  intros Hd Hp Hc. induction n as [|n IH]; [done|]. cbn [spin]. apply wpc_cas.
  - intros s Γ HI Hj E. exists (Holding m false). split.
    + rewrite state_word_of in E by done. eapply mtx_inv_take; [done|done|done| | |by apply sets_state_store]; unfold new_val; [destruct c; auto|]. by intros ->%Hc.
    + apply wp_store_holder; [by right|done|done].
  - done.
Qed.

Lemma mark_waiters_wp j m r : dom m = true ->
  wp j (mark_waiters m) (trying m r) (fun ok g => g = if ok then near m else trying m r).
Proof.
  intros Hd. apply wpc_load. intros s Γ HI Hj. rewrite state_word_of by done.
  destruct (mi_state _ _ _ _ _ HI m) as [E|[E|E]]; rewrite E; cbn [Z.eqb Pos.eqb].
  - exists (trying m r). by rewrite list_insert_id.
  - exists (trying m r). rewrite list_insert_id by done. split; [done|]. apply wpc_cas; [|done].
    intros s1 Γ1 HI1 Hj1 E1. rewrite state_word_of in E1 by done. exists (near m). split; [|done]. eapply inv_mark; [done|done|done|by apply sets_state_store].
  - exists (near m). split; [|done].
    eapply mtx_inv_move; try done; [by left| |eapply inv_awake; [done|done|apply trying_free]| | |].
    + rewrite trying_holds. apply (trying_holds marked m false).
    + intros k Hk. by destruct (trying_calling marked m false k).
    + intros k [_ ->]%trying_bound. by right.
    + intros Hmk. rewrite about_trying by done. by apply (about_trying marked m false).
Qed.

(** Entering the wait call. *)
Lemma inv_calls s Γ j m : dom m = true -> inv s Γ -> Γ !! j = Some (near m) -> inv s (<[j := Calling m]> Γ).
Proof.
  intros Hd HI Hj. eapply mtx_inv_move; try done; [by left| |eapply inv_awake; [done|done|apply (trying_free m false)]|by intros k [= <-]| |].
  - symmetry. apply (trying_holds marked m false).
  - intros k Hk. by destruct (trying_bound marked m false k Hk).
  - intros Hmk. symmetry. by apply (about_trying marked m false).
Qed.

(** The wait call: afterwards the caller is bound if it was woken, which an error excludes. *)
Lemma mtx_wp_wait {A} j pid m tm (h : result unit Z -> M A) Q :
  dom m = true -> (forall r x, (forall e, x = Err e -> r = false) -> wp j (h x) (trying m r) Q) ->
  wp j (ulock_wait (u_me (mk_uthread j pid)) (m, ulock_mutex_state_off) 2 tm ≫= h) (near m) Q.
Proof.
  intros Hdm Hh. eapply (wpc_call _ j _ _ _ (fun g => g = near m \/ g = Calling m)); [apply law_wait|by left| |].
  - intros s Γ g s' HI Hj Hg Hs. exists (Calling m). split; [by right|].
    assert (inv s (<[j := Calling m]> Γ)) as HI'.
    { destruct Hg as [->| ->]; [|by rewrite list_insert_id]. by apply inv_calls. }
    eapply mtx_inv_wait_step; [done| |done]. by rewrite (lookup_moved _ _ _ _ _ Hj), decide_True.
  - intros x s Γ g s' HI Hj Hg Hs. eexists. split.
    + assert (inv s (<[j := Calling m]> Γ)) as HI'.
      { destruct Hg as [->| ->]; [|by rewrite list_insert_id]. by apply inv_calls. }
      eapply mtx_inv_wait_returns in HI'; [|by rewrite (lookup_moved _ _ _ _ _ Hj), decide_True|done].
      by rewrite list_insert_insert_eq in HI'.
    + apply Hh. intros e ->. destruct Hs as (_ & _ & _ & _ & Hs). specialize (Hs e eq_refl). cbn in Hs. by rewrite Hs.
Qed.

Lemma lock_loop_wp n j pid m c r :
  dom m = true -> is_process_alive o pid = true -> (r = true -> c = true) ->
  wp j (lock_loop n (mk_uthread j pid) m c) (trying m r) (fun x g => x = Ok tt /\ g = Holding m false).
Proof.
  intros Hdm Hp. revert c r. induction n as [|n IH]; intros c r Hc; [done|]. cbn [lock_loop lock_timeout_loop].
  apply wpc_bind. eapply wpc_conseq; [by apply spin_wp|]. intros [] g ->; [done|].
  apply wpc_bind. eapply wpc_conseq; [by apply mark_waiters_wp|]. intros [] g ->; [|by apply IH].
  apply mtx_wp_wait; [done|]. intros r' x _. by apply IH.
Qed.

Lemma lock_timeout_loop_wp n j pid m d t c r :
  dom m = true -> is_process_alive o pid = true -> (r = true -> c = true) ->
  wp j (lock_timeout_loop o n (mk_uthread j pid) m d t c) (trying m r)
    (fun x g => g = if bool_decide (x = Ok true) then Holding m false else near m).
Proof.
  intros Hdm Hp. revert t c r. induction n as [|n IH]; intros t c r Hc; [done|]. cbn [lock_loop lock_timeout_loop].
  apply wpc_bind. eapply wpc_conseq; [by apply spin_wp|]. intros [] g ->; [done|].
  apply wpc_bind. eapply wpc_conseq; [by apply mark_waiters_wp|]. intros [] g ->; [|by apply IH].
  apply mtx_wp_now; [apply (trying_free m false)|]. intros now. destruct (d <=? now).
  - destruct t; [done|]. by apply wp_recover.
  - apply mtx_wp_wait; [done|]. intros r' x Hx. case_bool_decide as E; [|by apply IH].
    rewrite (Hx _ E). destruct t; [done|]. by apply wp_recover.
Qed.

Lemma try_lock_wp j pid m :
  dom m = true -> is_process_alive o pid = true ->
  wp j (try_lock o (mk_uthread j pid) m) (near m) (fun x g => g = if bool_decide (x = Ok true) then Holding m false else near m).
Proof.
  intros Hd Hp. apply wpc_cas.
  - intros s Γ HI Hj E. rewrite state_word_of in E by done. exists (Holding m false). split; [eapply (mtx_inv_take _ _ _ _ _ _ _ _ false); [done|done|done|by left|done|by apply sets_state_store]|].
    apply wp_store_holder; [by right|done|done].
  - intros s Γ HI Hj E. by apply wp_recover.
Qed.

Lemma unlock_wp j m : dom m = true -> wp j (unlock m) (Holding m false) (fun r g => r = Ok tt /\ g = near m).
Proof.
  intros Hdm. apply wp_store_holder; [by left|done|]. apply wpc_act. intros s Γ HI Hj. exists (trying m (state s m =? 2)).
  split; [eapply mtx_inv_release; [done|done|by apply sets_state_store]|]. cbn [fst]. rewrite state_word_of by done.
  destruct (state s m =? 2); [|done]. eapply (wpc_call _ j _ _ _ (fun g => g = Bound m)); [apply law_wake|done| |].
  - intros s1 Γ1 g s2 HI1 Hj1 -> [Hk Hs]. exists (Bound m). split; [done|]. destruct (kernel_only_words _ _ Hk) as [Ew En].
    eapply mtx_inv_move; try done; unfold UlockMutex.state, UlockMutex.holder; rewrite ?Ew; eauto. by eapply inv_awake.
  - intros x s1 Γ1 g s2 HI1 Hj1 -> Hs. exists (near m). split; [by eapply mtx_inv_wakes|done].
Qed.

Lemma section_wp {A} j pid m (h : unit -> M A) Q :
  wp j (h tt) (Holding m false) Q ->
  wp j (_ ← enter (mk_uthread j pid) m; _ ← leave (mk_uthread j pid) m; h tt) (Holding m false) Q.
Proof.
  intros Hh. apply wpc_act. intros s Γ HI Hj. exists (Holding m true). split.
  { eapply inv_notes; try done. intros i k. cbn. rewrite elem_of_union, elem_of_singleton. case_decide; [by rewrite H; split; [|left]|]. tauto. }
  apply wpc_act. clear s Γ HI Hj. intros s Γ HI Hj. exists (Holding m false). split; [|done].
  eapply inv_notes; try done. intros i k. cbn. rewrite elem_of_difference, elem_of_singleton. case_decide; [by split; [intros []|]|]. tauto.
Qed.

(** The beginning and the end of an operation. *)
Lemma begin_work_wp {A} j pid m (h : unit -> M A) Q :
  marked = true -> wp j (h tt) (Near m) Q -> wp j (begin_work (mk_uthread j pid) m ≫= h) Out Q.
Proof.
  intros Hmk Hh. apply wpc_act. intros s Γ HI Hj. exists (Near m). split; [|done].
  eapply mtx_inv_change; try done; [by left|by eapply inv_awake|]. intros _ i k. cbn.
  rewrite (lookup_moved _ _ _ _ _ Hj), elem_of_union, elem_of_singleton. case_decide as E; [subst; intros [= ->]; by left|].
  intros Ha. right. by eapply mi_work.
Qed.

Lemma end_work_wp {A} j pid m (h : unit -> M A) Q :
  wp j (h tt) Out Q -> wp j (end_work (mk_uthread j pid) m ≫= h) (Near m) Q.
Proof.
  intros Hh. apply wpc_act. intros s Γ HI Hj. exists Out. split; [|done].
  eapply mtx_inv_change; try done; [by left|by eapply inv_awake|]. intros Hmk i k. cbn.
  rewrite (lookup_moved _ _ _ _ _ Hj), elem_of_difference, elem_of_singleton. case_decide as E; [done|].
  intros Ha. split; [by eapply mi_work|]. by intros [= ->].
Qed.

Lemma lock_word_wp n j pid x : dom (uop_mutex x) = true -> is_process_alive o pid = true ->
  wp j (acquire o n (mk_uthread j pid) x) (near (uop_mutex x)) (fun (got : bool) (g : phase) => g = if got then Holding (uop_mutex x) false else near (uop_mutex x)).
Proof.
  intros Hdm Hp. destruct x as [m|m ms|m]; cbn [acquire uop_mutex] in *; apply wpc_bind.
  - eapply wpc_conseq; [by apply (lock_loop_wp _ _ _ _ _ false)|]. by intros x g [-> ->].
  - apply mtx_wp_now; [apply (trying_free m false)|]. intros t. eapply wpc_conseq; [by apply (lock_timeout_loop_wp _ _ _ _ _ _ _ false)|done].
  - eapply wpc_conseq; [by apply try_lock_wp|done].
Qed.

Lemma uclient_wp n j pid ops : marked = true -> (forall m, dom m = true) -> is_process_alive o pid = true ->
  wp j (client o n (mk_uthread j pid) ops) Out (fun _ g => g = Out).
Proof.
  intros Hmk Hdm Hp. assert (forall m, near m = Near m) as Hn by (intros; unfold UlockMutex.near; by rewrite Hmk).
  induction ops as [|x ops IH]; [done|]. cbn [client]. apply begin_work_wp; [done|].
  apply wpc_bind. rewrite <- Hn. eapply wpc_conseq; [by apply lock_word_wp|]. intros got g ->. apply wpc_bind.
  apply (wpc_conseq _ _ _ _ (fun (_ : io_result unit) g => g = near (uop_mutex x))).
  - destruct got; [|done]. apply (section_wp _ _ _ (fun _ => unlock (uop_mutex x))).
    eapply wpc_conseq; [by apply unlock_wp|]. by intros r g [_ ->].
  - intros _ g ->. rewrite Hn. by apply end_work_wp.
Qed.

End operations.

(** ** The pool *)

(** No mutex is held, nobody is in a section or asleep. *)
Record unused {K} `{!Ulock K} (s : umem K) : Prop := {
  un_state m : words s !!! state_word m = 0;
  un_holder m : words s !!! holder_word m = 0;
  un_notes : inside (notes s) = ∅;
  un_sleep t : sleeps s t = Awake;
}.

Lemma unused_inv {K} `{!Ulock K} o marked k (s : umem K) : unused s -> mutex_inv o (fun _ => true) marked s (replicate k Out).
Proof.
  intros []. assert (forall j g, replicate k Out !! j = Some g -> g = Out) as HO by (by intros j g [-> _]%lookup_replicate_1).
  constructor; unfold state, holder; intros; rewrite ?un_state0, ?un_holder0, ?un_notes0, ?un_sleep0 in *; auto; try done.
  - by apply HO in H.
  - by apply HO in H.
  - split; [by intros ?%elem_of_empty|]. by intros ?%HO.
  - destruct (_ !! j) as [g|] eqn:E; [|done]. apply HO in E. by subst.
  - intros _ j m. destruct (_ !! j) as [g|] eqn:E; [|done]. apply HO in E. by subst.
Qed.

Lemma crowd_inv {K} `{!Ulock K, !UlockLaws K} o n (ts : list (Z * list uop)) (s s' : umem K) ps :
  Forall (fun x => is_process_alive o x.1 = true) ts -> unused s ->
  pool_reach (s, crowd o n ts) (s', ps) ->
  exists Γ, mutex_inv o (fun _ => true) true s' Γ /\ verified (mutex_inv o (fun _ => true) true) (fun _ _ g => g = Out) ps Γ.
Proof.
  intros Hp Hu Hr. eapply pool_verified; [|  |exact Hr].
  - by apply (unused_inv o true (length ts)).
  - unfold crowd. split; [by rewrite length_replicate, length_imap|]. intros j p g Hj [-> _]%lookup_replicate_1.
    rewrite list_lookup_imap in Hj. destruct (ts !! j) as [x|] eqn:E; simplify_eq/=.
    apply uclient_wp; [done|done|]. by eapply (proj1 (Forall_lookup _ _) Hp).
Qed.

(** C3: the Apple mutex excludes.  Whatever the interleaving of any number of threads of living
    processes that lock, lock with a timeout or try to lock, with each other and with the kernel, at
    most one of them is in the section of a mutex, and the state word says that it is locked. *)
Theorem ulock_mutex_excludes {K} `{!Ulock K, !UlockLaws K} o n (ts : list (Z * list uop)) (s s' : umem K) ps :
  Forall (fun x => is_process_alive o x.1 = true) ts -> unused s ->
  pool_reach (s, crowd o n ts) (s', ps) ->
  forall i j m, (i, m) ∈ inside (notes s') -> (j, m) ∈ inside (notes s') -> i = j /\ (words s' !!! state_word m = 1 \/ words s' !!! state_word m = 2).
Proof.
  intros Hp Hu Hr i j m Hi Hj. destruct (crowd_inv o n ts s s' ps Hp Hu Hr) as (Γ & [] & _).
  rewrite mi_notes0 in Hi, Hj. split; [eauto|]. destruct (mi_state0 m) as [E|?]; [|done]. by destruct (mi_held0 _ _ _ Hi).
Qed.

(** C5: nobody sleeps on an Apple mutex for want of a wake-up.  Under the same interleavings, as
    long as a thread sleeps on a mutex another thread is in the middle of an operation on that same
    mutex, between the call of its lock and the return of its unlock, has not finished and is not
    asleep itself.  So once no operation on the mutex is under way but those of sleepers, there are no
    sleepers. *)
Theorem ulock_no_stranded_sleeper {K} `{!Ulock K, !UlockLaws K} o n (ts : list (Z * list uop)) (s s' : umem K) ps :
  Forall (fun x => is_process_alive o x.1 = true) ts -> unused s ->
  pool_reach (s, crowd o n ts) (s', ps) ->
  forall i m, sleeps s' i = Asleep (state_word m) ->
  exists j p, j <> i /\ (j, m) ∈ at_work (notes s') /\ ps !! j = Some p /\ (forall x, p <> Ret x) /\
    forall b, sleeps s' j <> Asleep b.
Proof.
  intros Hp Hu Hr i m Hi. destruct (crowd_inv o n ts s s' ps Hp Hu Hr) as (Γ & HI & Hl & Hv).
  destruct (inv_sleeper o _ true s' Γ i m HI eq_refl Hi) as (j & g & Hj & Hg & Hij & Hb).
  destruct (lookup_lt_is_Some_2 ps j) as [p Hpj]; [rewrite <- Hl; by eapply lookup_lt_Some|].
  exists j, p. split; [done|]. split; [eapply (mi_work _ _ _ _ _ HI); [done|]; by rewrite Hj|].
  split; [done|]. split; [|done]. intros x ->. by rewrite (Hv _ _ _ Hpj Hj) in Hg.
Qed.

(** ** Concrete runs *)

Module duel.

(** Processes 10 and 11 exist, 99 does not. *)
Definition system : os := mk_os true 10 (fun pid => if pid =? 99 then Some ESRCH else None) (fun _ => None) (fun _ => None) (fun _ => None).

Definition ts : list (Z * list uop) := [(10, [ULock 7]); (11, [ULockTimeout 7 5; UTryLock 8])].

(** Thread 0 takes the mutex and enters; thread 1 marks it and falls asleep. *)
Definition schedule : list (nat * bool) := replicate 4 (0%nat, false) ++ replicate 47 (1%nat, false).
Definition final : umem table * list (prog (umem table) unit) := run_sched schedule (blank, crowd system 5 ts).

Lemma duel_reached : pool_reach (blank, crowd system 5 ts) (final.1, final.2).
Proof. exact (run_sched_reach schedule blank (crowd system 5 ts)). Qed.

Lemma blank_unused : unused blank.
Proof. by constructor. Qed.

Lemma duel_alive : Forall (fun x => is_process_alive system x.1 = true) ts.
Proof. by repeat constructor. Qed.

End duel.

Lemma ulock_mutex_excludes_witness :
  (0%nat, 7) ∈ inside (notes duel.final.1) /\ words duel.final.1 !!! state_word 7 = 2 /\ forall j, (j, 7) ∈ inside (notes duel.final.1) -> (0%nat = j).
Proof.
  split; [by vm_compute|]. split; [by vm_compute|]. intros j Hj.
  apply (ulock_mutex_excludes duel.system 5 duel.ts blank duel.final.1 duel.final.2 duel.duel_alive duel.blank_unused duel.duel_reached 0%nat j 7);
    [by vm_compute|exact Hj].
Defined.

Lemma ulock_no_stranded_sleeper_witness :
  sleeps duel.final.1 1%nat = Asleep (7, 0) /\
  exists j p, j <> 1%nat /\ (j, 7) ∈ at_work (notes duel.final.1) /\ duel.final.2 !! j = Some p /\ (forall x, p <> Ret x) /\ forall b, sleeps duel.final.1 j <> Asleep b.
Proof.
  split; [by vm_compute|].
  apply (ulock_no_stranded_sleeper duel.system 5 duel.ts blank duel.final.1 duel.final.2 duel.duel_alive duel.blank_unused duel.duel_reached 1%nat 7).
  by vm_compute.
Defined.

Module takeover.

(** The mutex as process 99 left it when it died. *)
Definition left_locked : umem table := mk_umem {[ (7, 0) := 1; (7, 4) := 99 ]} (mk_clock 0 []) (mk_marks ∅ ∅) ∅.

Definition ts : list (Z * list uop) := [(10, [UTryLock 7]); (11, [UTryLock 7])].

(** Thread 0 judges the holder dead; thread 1 does too, recovers the mutex, takes it and enters; then thread 0 recovers it. *)
Definition schedule : list (nat * bool) := replicate 3 (0%nat, false) ++ replicate 8 (1%nat, false) ++ replicate 5 (0%nat, false).
Definition final : umem table * list (prog (umem table) unit) := run_sched schedule (left_locked, crowd duel.system 5 ts).

Lemma takeover_reached : pool_reach (left_locked, crowd duel.system 5 ts) (final.1, final.2).
Proof. exact (run_sched_reach schedule left_locked (crowd duel.system 5 ts)). Qed.

End takeover.

(** The recovery of a dead holder's lock is not exclusive.  Two threads that both find
    the holder dead can both take the mutex: the slower one frees it again after the faster one has
    locked it, and two living threads are in the section at once. *)
Theorem recovery_lets_two_in :
  exists w ps, pool_reach (takeover.left_locked, crowd duel.system 5 takeover.ts) (w, ps) /\
    (0%nat, 7) ∈ inside (notes w) /\ (1%nat, 7) ∈ inside (notes w).
Proof.
  exists takeover.final.1, takeover.final.2. split; [exact takeover.takeover_reached|]. by vm_compute.
Qed.

(** ** A timed lock run alone *)

(** What the wait call does when nobody wakes the caller, changes the word or interrupts the call
    with a signal: on a word that has the value given it does not return if the limit is 0, which is
    none, and times out otherwise. *)
Class LoneWaits (K : Type) `{!Ulock K} : Prop := {
  lone_forever me a v (s : umem K) tape : words s !!! a = v -> exec (ulock_wait me a v 0) tape s = None;
  lone_times_out me a v tm (s : umem K) tape : words s !!! a = v -> 0 < tm ->
    exists s' tape', exec (ulock_wait me a v tm) tape s = Some (Err ETIMEDOUT, s', tape') /\ words s' = words s;
}.

Section alone.
Context {K : Type} `{!Ulock K} (o : os).
Implicit Types (s : umem K) (th : uthread).
Abbreviation M := (prog (umem K)).

Lemma exec_spin_held {A} k th m v (h : bool -> M A) tape s :
  words s !!! state_word m <> 0 -> exec (spin k th m v ≫= h) tape s = exec (h false) tape s.
Proof.
  intros Hs. induction k as [|k IH]; [done|]. cbn [spin]. cbn. unfold state_word in Hs.
  destruct (Z.eqb_spec (words s !!! (m, ulock_mutex_state_off)) 0) as [E|E]; [done|]. exact IH.
Qed.

(** A held mutex, marked. *)
Lemma exec_mark_held {A} m (h : bool -> M A) tape s : words s !!! state_word m = 1 \/ words s !!! state_word m = 2 ->
  exists s', exec (mark_waiters m ≫= h) tape s = exec (h true) tape s' /\
    words s' !!! state_word m = 2 /\ words s' !!! holder_word m = words s !!! holder_word m /\ clk s' = clk s.
Proof.
  unfold state_word, holder_word. intros [E|E]; cbn; rewrite E; cbn; [rewrite E; cbn|by exists s].
  eexists. split; [done|]. cbn. rewrite lookup_total_insert_eq, lookup_total_insert_ne by done. done.
Qed.

(** A holder that lives is not recovered from. *)
Lemma exec_recover_alive {A} m (h : bool -> M A) tape s :
  words s !!! holder_word m = 0 \/ is_process_alive o (words s !!! holder_word m) = true ->
  exec (try_recover_dead_holder o m ≫= h) tape s = exec (h false) tape s.
Proof.
  unfold holder_word. intros H. cbn. destruct (Z.eqb_spec (words s !!! (m, ulock_mutex_holder_off)) 0) as [E|E]; [done|].
  destruct H as [H|H]; [done|]. by rewrite H.
Qed.

Lemma exec_now {A} (h : Z -> M A) tape s :
  exec (now clk_f ≫= h) tape s = exec (h (c_now (clk s))) tape (fset clk_f (tick (clk s)) s).
Proof. done. Qed.

Lemma remaining_us_zero d t : t < d -> remaining_us d t = 0 <-> d - t < 1000.
Proof.
  intros H. unfold remaining_us, U32_MAX. pose proof (Z.div_mod (d - t) 1000 ltac:(lia)). pose proof (Z.mod_pos_bound (d - t) 1000 ltac:(lia)).
  destruct (Z.ltb_spec (2 ^ 32 - 1) ((d - t) / 1000)); lia.
Qed.

Lemma remaining_us_nonneg d t : t < d -> 0 <= remaining_us d t.
Proof.
  intros H. unfold remaining_us, U32_MAX. pose proof (Z.div_pos (d - t) 1000). destruct (Z.ltb_spec (2 ^ 32 - 1) ((d - t) / 1000)); lia.
Qed.

(** One round of the timed loop on a mutex that stays held. *)
Lemma exec_timeout_round `{!LoneWaits K} n th m deadline tape s :
  words s !!! state_word m = 1 \/ words s !!! state_word m = 2 ->
  words s !!! holder_word m = 0 \/ is_process_alive o (words s !!! holder_word m) = true ->
  let t := c_now (clk s) in
  (t < deadline -> deadline - t < 1000 -> exec (lock_timeout_loop o (S n) th m deadline false false) tape s = None) /\
  (1000 <= deadline - t \/ deadline <= t ->
   exists s' tape', exec (lock_timeout_loop o (S n) th m deadline false false) tape s = Some (Ok false, s', tape')).
Proof.
  intros Hs Hh t. cbn [lock_timeout_loop]. rewrite exec_spin_held by lia.
  match goal with |- context [mark_waiters m ≫= ?h] => destruct (exec_mark_held m h tape s Hs) as (s1 & -> & Hs1 & Hh1 & Hc1) end.
  rewrite <- Hh1 in Hh. cbn [negb]. rewrite exec_now, Hc1. fold t.
  set (s2 := fset clk_f (tick (clk s)) s1). change (words s1) with (words s2) in Hs1, Hh. fold s2.
  destruct (Z.leb_spec deadline t) as [Hd|Hd].
  { split; [lia|]. intros _. rewrite exec_recover_alive by done. by eexists _, _. }
  destruct (decide (deadline - t < 1000)) as [Hl|Hl].
  - rewrite (proj2 (remaining_us_zero deadline t Hd) Hl). split; [|lia]. intros _ _. by rewrite exec_bind, lone_forever.
  - split; [lia|]. intros _. pose proof (remaining_us_nonneg deadline t Hd). pose proof (remaining_us_zero deadline t Hd).
    destruct (lone_times_out (u_me th) (state_word m) 2 (remaining_us deadline t) s2 tape) as (s3 & tape3 & E3 & Hw3); [done|lia|].
    rewrite exec_bind. unfold state_word in E3. rewrite E3. rewrite bool_decide_eq_true_2 by done.
    rewrite exec_recover_alive by (by rewrite Hw3). by eexists _, _.
Qed.

End alone.

(** C38: a lock with a timeout can wait without one.  On a mutex that stays held by a living process,
    a timed lock whose time left at the wait call is positive but less than a microsecond passes a
    limit of 0, which means none, and does not return; with more time left, or none, it reports the
    timeout.  [d] is the time, in nanoseconds, between the two looks at the clock. *)
Theorem timed_lock_can_wait_forever {K} `{!Ulock K, !LoneWaits K} o n th m timeout_ms d ds (s : umem K) tape :
  words s !!! state_word m = 1 \/ words s !!! state_word m = 2 ->
  words s !!! holder_word m = 0 \/ is_process_alive o (words s !!! holder_word m) = true ->
  c_ticks (clk s) = d :: ds ->
  let left_ns := timeout_ms * MILLI - d in
  (0 < left_ns < 1000 -> exec (lock_timeout o (S n) th m timeout_ms) tape s = None) /\
  (1000 <= left_ns \/ left_ns <= 0 ->
   exists s' tape', exec (lock_timeout o (S n) th m timeout_ms) tape s = Some (Ok false, s', tape')).
Proof.
  intros Hs Hh Hc left_ns. unfold lock_timeout. rewrite exec_now.
  set (s1 := fset clk_f (tick (clk s)) s). change (words s) with (words s1) in Hs, Hh.
  assert (c_now (clk s1) = c_now (clk s) + d) as Et by (unfold s1; cbn; unfold tick; by rewrite Hc).
  destruct (exec_timeout_round o n th m (c_now (clk s) + timeout_ms * MILLI) tape s1 Hs Hh) as [H1 H2].
  rewrite Et in H1, H2. unfold left_ns. split; [intros; apply H1; lia|intros; apply H2; lia].
Qed.

Module limit.

(** A kernel in which nobody wakes anybody. *)
#[export] Instance alone : Ulock unit := {|
  ulock_wait := fun _ a v tm =>
    act (fun s => (negb (words s !!! a =? v), s)) ≫= fun changed : bool =>
    if changed then Ret (Ok tt) else if tm =? 0 then Spin else Ret (Err ETIMEDOUT);
  ulock_wake := fun _ _ => act (fun s => (tt, s));
  sleeping := fun _ _ => Awake;
|}.

#[export] Instance alone_waits : LoneWaits unit.
Proof.
  constructor; intros me a v *; cbn; [intros ->; by rewrite Z.eqb_refl|].
  intros -> Htm. rewrite Z.eqb_refl. cbn. destruct (Z.eqb_spec tm 0); [lia|]. by eexists _, _.
Qed.

(** Process 10 holds the mutex.  The clock reads 0, then [d] nanoseconds later. *)
Definition held (d : Z) : umem unit := mk_umem {[ (7, 0) := 1; (7, 4) := 10 ]} (mk_clock 0 [d]) (mk_marks ∅ ∅) tt.

End limit.
Import limit.

(** A timeout of 1 ms, 500 ns and 1 us before the deadline. *)
Lemma timed_lock_can_wait_forever_witness :
  exec (lock_timeout duel.system 3 (mk_uthread 1 11) 7 1) [] (limit.held 999500) = None /\
  exists s' tape', exec (lock_timeout duel.system 3 (mk_uthread 1 11) 7 1) [] (limit.held 999000) = Some (Ok false, s', tape').
Proof.
  split.
  - apply (timed_lock_can_wait_forever duel.system 2 (mk_uthread 1 11) 7 1 999500 [] (limit.held 999500) []);
      [by left|by right|done|unfold MILLI; lia].
  - apply (timed_lock_can_wait_forever duel.system 2 (mk_uthread 1 11) 7 1 999000 [] (limit.held 999000) []);
      [by left|by right|done|left; unfold MILLI; lia].
Defined.
