(* ===== verification/UlockSem.v ===== *)
(** * The Apple semaphore under interleaving

    Threads that wait on and post to one semaphore.  Every unit posted is taken by at most one wait,
    and nobody sleeps while units are left without somebody else on the way to them. *)
From S2P Require Import Prelude Atomics Abi Concurrent Ulock UlockKernel.
Import AppleSemaphore.

(** ** Clients *)

Inductive sop := SWait (timeout_ms : option Z) | SPost (cnt : Z).

Definition posts (ops : list sop) : Z := foldr (fun x k => (match x with SPost c => Z.max 0 c | SWait _ => 0 end) + k) 0 ops.

Section clients.
Context {K : Type} `{!Ulock K} (n fuel : nat) (a : Z).
Abbreviation M := (prog (umem K)).

(** How many of its waits were successful. *)
Fixpoint sclient (th : uthread) (ops : list sop) : M Z :=
  match ops with
  | [] => Ret 0
  | SWait tm :: ops =>
      r ← wait n fuel th a tm;
      k ← sclient th ops;
      Ret (if bool_decide (r = Ok true) then 1 + k else k)
  | SPost c :: ops => _ ← post a c; sclient th ops
  end.

Definition scrowd (ts : list (list sop)) : list (M Z) := imap (fun j ops => sclient (mk_uthread j 0) ops) ts.

End clients.

(** ** The invariant

    A thread is outside; has been woken and not found the count zero since ([SKeen]); is in the wait
    call; or has posted a unit and not yet called wake. *)
Inductive sphase := SOut | SKeen | SCalling | SWaking.
Record sghost := mk_sghost { sg_ph : sphase; sg_taken : Z; sg_posted : Z; sg_left : Z }.

Definition at_ph (ph : sphase) (g : sghost) : sghost := mk_sghost ph (sg_taken g) (sg_posted g) (sg_left g).

Section invariant.
Context {K : Type} `{!Ulock K} (a init : Z).
Implicit Types (s : umem K) (Γ : list sghost).

Definition units s : Z := words s !!! count_ptr a.

Definition net (_ : nat) (g : sghost) : Z := sg_posted g - sg_taken g.
Definition all_posts (_ : nat) (g : sghost) : Z := sg_posted g + sg_left g.
Definition all_taken (_ : nat) (g : sghost) : Z := sg_taken g.

(** Threads that will take a unit, find none, or wake another. *)
Definition eager_ph (ph : sphase) (z : sleep) : Z :=
  match ph with
  | SOut => 0
  | SKeen | SWaking => 1
  | SCalling => if bool_decide (z = Woken (count_ptr a)) then 1 else 0
  end.
Definition eager s (i : nat) (g : sghost) : Z := eager_ph (sg_ph g) (sleeps s i).

Definition sleep_ok (g : option sghost) (z : sleep) : Prop :=
  match sg_ph <$> g with
  | Some SCalling => z = Awake \/ z = Asleep (count_ptr a) \/ z = Woken (count_ptr a)
  | _ => z = Awake
  end.

Record sem_inv s Γ : Prop := {
  si_count : units s = init + total net 0 Γ;
  si_nonneg : 0 <= units s;
  si_room : init + total all_posts 0 Γ < 2 ^ 32;
  si_ghost j g : Γ !! j = Some g -> 0 <= sg_taken g /\ 0 <= sg_left g;
  si_sleep j : sleep_ok (Γ !! j) (sleeps s j);
  si_keen j : sleeps s j = Asleep (count_ptr a) -> units s <= total (eager s) 0 Γ;
}.

Lemma eager_range s i g : 0 <= eager s i g <= 1.
Proof. unfold eager, eager_ph. destruct (sg_ph g); try lia. case_bool_decide; lia. Qed.

Lemma units_bound s Γ : sem_inv s Γ -> forall j g, Γ !! j = Some g -> units s + sg_left g < 2 ^ 32.
Proof.
  intros [] j g Hj.
  assert (total net 0 Γ <= total (fun i g => all_posts i g - sg_left g) 0 Γ) as H1.
  { apply total_le. intros k g' Hk. unfold net, all_posts. apply si_ghost0 in Hk. lia. }
  assert (total (fun i g => all_posts i g - sg_left g) 0 Γ + total (fun _ g => sg_left g) 0 Γ <= total all_posts 0 Γ) as H2.
  { clear. generalize 0%nat. induction Γ as [|g Γ IH]; intros i; simpl; [lia|]. specialize (IH (S i)). lia. }
  assert (total (fun _ g => Z.max 0 (sg_left g)) 0 Γ <= total (fun _ g => sg_left g) 0 Γ) as H3.
  { apply total_le. intros k g' Hk. apply si_ghost0 in Hk. lia. }
  pose proof (total_term (fun _ g => Z.max 0 (sg_left g)) 0 Γ j g ltac:(intros; lia) Hj) as H4. cbv beta in H4. lia.
Qed.

(** A step of thread [j] outside the kernel. *)
Lemma sem_inv_move s s' Γ j g g' :
  sem_inv s Γ -> Γ !! j = Some g -> (forall t, sleeps s' t = sleeps s t) ->
  sg_ph g <> SCalling -> 0 <= units s' ->
  units s' - units s = net j g' - net j g -> all_posts j g' <= all_posts j g ->
  0 <= sg_left g' -> sg_taken g <= sg_taken g' ->
  (units s' = 0 \/ units s' - units s <= eager_ph (sg_ph g') Awake - eager_ph (sg_ph g) Awake) ->
  sem_inv s' (<[j := g']> Γ).
Proof.
  intros HI Hj Hsl Hph Hnn Hnet Hposts Hl Ht He. pose proof HI as [].
  assert (sleeps s j = Awake) as Haw.
  { specialize (si_sleep0 j). rewrite Hj in si_sleep0. unfold sleep_ok in si_sleep0. simpl in si_sleep0. by destruct (sg_ph g). }
  constructor.
  - rewrite (total_insert _ _ _ _ _ _ Hj). simpl. lia.
  - done.
  - rewrite (total_insert _ _ _ _ _ _ Hj). simpl. lia.
  - intros i gi. rewrite (lookup_moved _ _ _ _ _ Hj). case_decide; [|eauto]. intros [= <-]. apply si_ghost0 in Hj. lia.
  - intros i. rewrite (lookup_moved _ _ _ _ _ Hj), Hsl. case_decide; [subst|apply si_sleep0]. rewrite Haw. unfold sleep_ok. simpl.
    destruct (sg_ph g'); auto.
  - intros i Hi. rewrite Hsl in Hi. rewrite (total_insert _ _ _ _ _ _ Hj). simpl.
    assert (total (eager s') 0 Γ = total (eager s) 0 Γ) as E by (apply total_ext; intros; unfold eager; by rewrite Hsl).
    rewrite E. specialize (si_keen0 _ Hi). assert (eager s' j g' = eager_ph (sg_ph g') Awake) as -> by (unfold eager; by rewrite Hsl, Haw).
    assert (eager s' j g = eager_ph (sg_ph g) Awake) as Eg by (unfold eager; by rewrite Hsl, Haw). rewrite Eg.
    destruct He as [He|He]; [|lia]. rewrite He. pose proof (total_term (eager s) 0 Γ j g (fun k g => proj1 (eager_range s k g)) Hj) as H1.
    simpl in H1. assert (eager s j g = eager_ph (sg_ph g) Awake) as E2 by (unfold eager; by rewrite Haw).
    pose proof (eager_range s j g'). assert (0 <= eager_ph (sg_ph g') Awake) by (by destruct (sg_ph g')). lia.
Qed.

(** A step of the kernel's, under which thread [j] passes to the phase of [g']. *)
Lemma sem_inv_kernel s s' Γ j g ph :
  sem_inv s Γ -> Γ !! j = Some g -> kernel_only s s' ->
  (forall i, sleep_ok ((<[j := at_ph ph g]> Γ) !! i) (sleeps s' i)) ->
  (forall i, sleeps s' i = Asleep (count_ptr a) ->
     units s <= total (eager s') 0 (<[j := at_ph ph g]> Γ)) ->
  sem_inv s' (<[j := at_ph ph g]> Γ).
Proof.
  intros [] Hj [κ ->] Hs Hk. constructor; try done.
  - rewrite (total_insert _ _ _ _ _ _ Hj). unfold net, at_ph in *. simpl. unfold units in *. simpl. lia.
  - rewrite (total_insert _ _ _ _ _ _ Hj). unfold all_posts, at_ph in *. simpl. lia.
  - intros i gi. rewrite (lookup_moved _ _ _ _ _ Hj). case_decide; [|eauto]. intros [= <-]. apply si_ghost0 in Hj. done.
Qed.

Lemma sem_inv_wait_step s s' Γ j g :
  sem_inv s Γ -> Γ !! j = Some g -> sg_ph g = SCalling -> wait_step j (count_ptr a) 0 s s' -> sem_inv s' Γ.
Proof.
  intros HI Hj Hph (Hk & Ho & Hme). pose proof HI as [].
  assert (at_ph SCalling g = g) as Eg by (destruct g; simpl in Hph; by subst).
  assert (<[j := at_ph SCalling g]> Γ = Γ) as EΓ by (rewrite Eg; by apply list_insert_id).
  assert (sem_inv s' (<[j := at_ph SCalling g]> Γ)) as H; [|by rewrite EΓ in H].
  apply (sem_inv_kernel s); try done; rewrite EΓ; intros i.
  - destruct (decide (i = j)) as [->|Hi]; [|rewrite Ho by done; apply si_sleep0]. rewrite Hj. unfold sleep_ok. simpl. rewrite Hph.
    destruct Hme as [->|[(_ & _ & ->)|(_ & ->)]]; auto. specialize (si_sleep0 j). rewrite Hj in si_sleep0. unfold sleep_ok in si_sleep0.
    simpl in si_sleep0. by rewrite Hph in si_sleep0.
  - intros Hi. assert (total (eager s') 0 Γ = total (eager s) 0 Γ) as ->.
    { apply total_ext. intros k gk Hk'. simpl. unfold eager. destruct (decide (k = j)) as [->|Hkj]; [|by rewrite Ho]. simplify_eq. rewrite Hph.
      destruct Hme as [->|[(-> & _ & ->)|(-> & ->)]]; done. }
    destruct (decide (i = j)) as [->|Hij]; [|rewrite Ho in Hi by done; eauto].
    destruct Hme as [E|[(_ & E & _)|(_ & E)]]; [rewrite E in Hi; eauto| |congruence].
    unfold units. rewrite E. apply total_nonneg. intros. apply eager_range.
Qed.

Lemma sem_inv_wait_returns s s' Γ j g r :
  sem_inv s Γ -> Γ !! j = Some g -> sg_ph g = SCalling -> wait_returns j (count_ptr a) r s s' ->
  sem_inv s' (<[j := at_ph (if bool_decide (sleeps s j = Awake) then SOut else SKeen) g]> Γ).
Proof.
  intros HI Hj Hph (Hk & Ho & Hme & Hna & _). pose proof HI as []. apply (sem_inv_kernel s); try done.
  - intros i. rewrite (lookup_moved _ _ _ _ _ Hj). case_decide; [subst|rewrite Ho by done; apply si_sleep0]. rewrite Hme. unfold sleep_ok. simpl.
    by case_bool_decide.
  - intros i Hi. destruct (decide (i = j)) as [->|Hij]; [congruence|]. rewrite Ho in Hi by done. rewrite (total_insert _ _ _ _ _ _ Hj). simpl.
    assert (total (eager s') 0 Γ = total (eager s) 0 Γ - eager s j g + eager s' j g) as ->.
    { assert (total (eager s') 0 (<[j := at_ph SOut g]> Γ) = total (eager s) 0 (<[j := at_ph SOut g]> Γ)) as E.
      { apply total_ext. intros k gk. rewrite (lookup_moved _ _ _ _ _ Hj). simpl. case_decide; intros; simplify_eq; [done|]. unfold eager. by rewrite Ho. }
      rewrite !(total_insert _ _ _ _ _ _ Hj) in E. simpl in E.
      change (eager s' j (at_ph SOut g)) with 0 in E. change (eager s j (at_ph SOut g)) with 0 in E. lia. }
    specialize (si_keen0 _ Hi). assert (eager s j g <= eager s' j (at_ph (if bool_decide (sleeps s j = Awake) then SOut else SKeen) g)); [|lia].
    unfold eager. rewrite Hph. cbn [eager_ph at_ph sg_ph]. case_bool_decide as E; [by rewrite E|]. destruct (bool_decide _); simpl; lia.
Qed.

Lemma sem_inv_wakes s s' Γ j g :
  sem_inv s Γ -> Γ !! j = Some g -> sg_ph g = SWaking -> wakes false (count_ptr a) s s' -> sem_inv s' (<[j := at_ph SOut g]> Γ).
Proof.
  intros HI Hj Hph (Hk & Hne & Has & Hw). pose proof HI as [].
  assert (forall t, sleeps s t = Asleep (count_ptr a) -> exists gt, Γ !! t = Some gt /\ sg_ph gt = SCalling) as Hcall.
  { intros t Ht. specialize (si_sleep0 t). rewrite Ht in si_sleep0. unfold sleep_ok in si_sleep0. destruct (Γ !! t) as [gt|]; simpl in si_sleep0; [|done].
    exists gt. split; [done|]. by destruct (sg_ph gt). }
  apply (sem_inv_kernel s); try done.
  - intros i. rewrite (lookup_moved _ _ _ _ _ Hj). case_decide as E.
    + subst. specialize (si_sleep0 j). rewrite Hj in si_sleep0. unfold sleep_ok in *. simpl in *. rewrite Hph in si_sleep0. rewrite Hne; by rewrite si_sleep0.
    + destruct (decide (sleeps s i = Asleep (count_ptr a))) as [Hs|Hs]; [|rewrite Hne by done; apply si_sleep0].
      destruct (Hcall _ Hs) as (gt & Hgt & Hgp). rewrite Hgt. unfold sleep_ok. simpl. rewrite Hgp. destruct (Has _ Hs) as [->| ->]; auto.
  - intros i Hi. assert (sleeps s i = Asleep (count_ptr a)) as Hs.
    { destruct (decide (sleeps s i = Asleep (count_ptr a))) as [Hs|Hs]; [done|]. by rewrite <- (Hne i). }
    destruct Hw as [Hw|(t & Ht & Ht')]; [by apply Hw in Hs|]. destruct (Hcall _ Ht) as (gt & Hgt & Hgp).
    rewrite (total_insert _ _ _ _ _ _ Hj). simpl. specialize (si_keen0 _ Hs).
    assert (total (eager s) 0 Γ < total (eager s') 0 Γ) as Hlt.
    { apply (total_lt _ _ _ _ t gt); [|done|].
      - intros k gk Hgk. simpl. unfold eager. destruct (decide (sleeps s k = Asleep (count_ptr a))) as [E|E]; [|by rewrite Hne].
        destruct (Hcall _ E) as (gk' & Hgk' & Hp). simplify_eq. rewrite Hp, E. cbn [eager_ph]. rewrite bool_decide_eq_false_2 by done. destruct (bool_decide _); lia.
      - simpl. unfold eager. rewrite Hgp, Ht, Ht'. simpl. by rewrite bool_decide_eq_true_2. }
    pose proof (eager_range s' j g). change (eager s' j (at_ph SOut g)) with 0. lia.
Qed.

End invariant.

(** ** The operations *)

Section operations.
Context {K : Type} `{!Ulock K, !UlockLaws K} (a init : Z).
Implicit Types (s : umem K) (Γ : list sghost).
Abbreviation M := (prog (umem K)).
Abbreviation inv := (sem_inv (K:=K) a init).
Abbreviation wp := (wpc inv).

Definition took (g : sghost) : sghost := mk_sghost SOut (sg_taken g + 1) (sg_posted g) (sg_left g).

Lemma units_store v s : units a (fset (count a) v s) = v.
Proof. unfold units. simpl. apply lookup_total_insert_eq. Qed.

(** Whoever finds no unit has nothing to hurry for. *)
Definition seen (v : Z) (g : sghost) : sghost := if v =? 0 then at_ph SOut g else g.

Lemma inv_seen s Γ j g : inv s Γ -> Γ !! j = Some g -> sg_ph g <> SCalling -> inv s (<[j := seen (units a s) g]> Γ).
Proof.
  intros HI Hj Hph. unfold seen. destruct (Z.eqb_spec (units a s) 0) as [E|E]; [|by rewrite list_insert_id].
  destruct (si_ghost _ _ _ _ HI _ _ Hj). eapply sem_inv_move; try done; unfold net, all_posts; simpl; lia.
Qed.

Definition settled (g : sghost) : Prop := sg_ph g = SOut \/ sg_ph g = SKeen.

Lemma settled_seen v g : settled g -> settled (seen v g) /\ (v = 0 -> sg_ph (seen v g) = SOut) /\ at_ph SOut (seen v g) = at_ph SOut g /\ took (seen v g) = took g.
Proof. unfold seen. intros H. destruct (Z.eqb_spec v 0); [|done]. split; [by left|done]. Qed.

Lemma take_wp n j cur g : settled g -> (cur <= 0 -> sg_ph g = SOut) ->
  wp j (take n a cur) g (fun got g' => g' = if got then took g else at_ph SOut g).
Proof.
  revert cur g. induction n as [|n IH]; intros cur g Hs Hc; [done|]. cbn [take].
  assert (sg_ph g <> SCalling) as Hnc by (by destruct Hs as [->| ->]).
  destruct (Z.ltb_spec 0 cur) as [Hp|Hp].
  - apply wpc_cas_weak_fail.
    + intros s Γ HI Hj E. change (units a s = cur) in E. exists (took g). split; [|done].
      destruct (si_ghost _ _ _ _ HI _ _ Hj). eapply sem_inv_move; try done; rewrite ?units_store; unfold net, all_posts; simpl; try lia.
      right. destruct Hs as [->| ->]; simpl; lia.
    + intros s Γ HI Hj. change (fget (count a) s) with (units a s). exists (seen (units a s) g). split; [by apply inv_seen|].
      destruct (settled_seen (units a s) g Hs) as (H1 & H2 & E1 & E2). rewrite <- E1, <- E2. apply IH; [done|].
      intros H. apply H2. pose proof (si_nonneg _ _ _ _ HI). lia.
  - simpl. destruct g; simpl in *. by rewrite (Hc Hp).
Qed.

Lemma sem_wp_now {A} j g (h : Z -> M A) Q : sg_ph g = SOut -> (forall t, wp j (h t) g Q) -> wp j (now clk_f ≫= h) g Q.
Proof.
  intros Hg Hh. apply wpc_silent; [|done]. intros s Γ HI Hj. rewrite <- (list_insert_id Γ j g) by done.
  destruct (si_ghost _ _ _ _ HI _ _ Hj). pose proof (si_nonneg _ _ _ _ HI).
  eapply sem_inv_move; try done; rewrite ?Hg; try done; unfold units in *; simpl; lia.
Qed.

Lemma sem_wp_wait {A} j tm g (h : result unit Z -> M A) Q :
  sg_ph g = SOut ->
  (forall ph x, ph = SOut \/ ph = SKeen -> (forall e, x = Err e -> ph = SOut) -> wp j (h x) (at_ph ph g) Q) ->
  wp j (ulock_wait (u_me (mk_uthread j 0)) (count_ptr a) 0 tm ≫= h) g Q.
Proof.
  intros Hph Hh. assert (forall s Γ g', inv s Γ -> Γ !! j = Some g' -> g' = g \/ g' = at_ph SCalling g -> inv s (<[j := at_ph SCalling g]> Γ)) as Hin.
  { intros s Γ g' HI Hj [->| ->]; [|by rewrite list_insert_id]. destruct (si_ghost _ _ _ _ HI _ _ Hj).
    pose proof (si_nonneg _ _ _ _ HI). eapply sem_inv_move; try done; rewrite ?Hph; try done; unfold net, all_posts; simpl; lia. }
  eapply (wpc_call _ j _ _ _ (fun g' => g' = g \/ g' = at_ph SCalling g)); [apply law_wait|by left| |].
  - intros s Γ g' s' HI Hj Hg Hs. exists (at_ph SCalling g). split; [by right|].
    eapply (sem_inv_wait_step _ _ s); [by eapply Hin|by rewrite (lookup_moved _ _ _ _ _ Hj), decide_True|done|done].
  - intros x s Γ g' s' HI Hj Hg Hs. eexists. split.
    + pose proof (Hin _ _ _ HI Hj Hg) as HI'.
      eapply (sem_inv_wait_returns _ _ s s' _ j) in HI'; [|by rewrite (lookup_moved _ _ _ _ _ Hj), decide_True|done|done].
      rewrite list_insert_insert_eq in HI'. exact HI'.
    + apply Hh; [case_bool_decide; auto|]. intros e ->. destruct Hs as (_ & _ & _ & _ & Hs). specialize (Hs e eq_refl). cbn in Hs. by rewrite Hs.
Qed.

Definition waited (r : io_result bool) (g : sghost) : sghost := if bool_decide (r = Ok true) then took g else at_ph SOut g.

Lemma wait_loop_wp n fuel j g dl : settled g ->
  wp j (wait_loop n fuel (mk_uthread j 0) a dl) g (fun r g' => g' = waited r g).
Proof.
  revert g. induction n as [|n IH]; intros g Hs; [done|]. cbn [wait_loop]. apply wpc_load. intros s Γ HI Hj.
  change (fget (count a) s) with (units a s). assert (sg_ph g <> SCalling) as Hnc by (by destruct Hs as [->| ->]).
  exists (seen (units a s) g). split; [by apply inv_seen|]. destruct (settled_seen (units a s) g Hs) as (H1 & H2 & E1 & E2).
  apply wpc_bind. eapply wpc_conseq.
  { apply take_wp; [done|]. intros H. apply H2. pose proof (si_nonneg _ _ _ _ HI). lia. }
  rewrite E1, E2. intros [] g' ->; [done|]. apply wpc_bind.
  apply (wpc_conseq _ _ _ _ (fun _ g' => g' = at_ph SOut g)).
  { destruct dl; [|done]. by apply sem_wp_now. }
  intros [tm|] g' ->; [|done]. apply sem_wp_wait; [done|]. intros ph x Hph Hx.
  destruct (bool_decide (x = Err ETIMEDOUT) && bool_decide (is_Some dl)) eqn:E.
  - apply andb_true_iff in E as [->%bool_decide_eq_true _]. by rewrite (Hx _ eq_refl).
  - eapply wpc_conseq; [apply IH; by destruct Hph as [->| ->]; [left|right]|]. by intros r g' ->.
Qed.

Definition posted (k : Z) (g : sghost) : sghost := mk_sghost SOut (sg_taken g) (sg_posted g + k) (sg_left g - k).

Lemma post_loop_wp n j g : sg_ph g = SOut -> Z.of_nat n <= sg_left g -> wp j (post_loop n a) g (fun _ g' => g' = posted (Z.of_nat n) g).
Proof.
  revert g. induction n as [|n IH]; intros g Hg Hn.
  { simpl. destruct g; simpl in *. subst. unfold posted. simpl. f_equal; lia. }
  cbn [post_loop]. apply wpc_act. intros s Γ HI Hj. cbn [fst snd]. exists (at_ph SWaking (posted 1 g)). split.
  - pose proof (units_bound _ _ _ _ HI _ _ Hj) as Hb. pose proof (si_nonneg _ _ _ _ HI) as H0. destruct (si_ghost _ _ _ _ HI _ _ Hj).
    change (fget (count a) s) with (units a s). unfold wrapping_add. rewrite wrap_id by (unfold is_u; lia).
    eapply sem_inv_move; try done; rewrite ?Hg, ?units_store; try done; unfold net, all_posts; simpl; try lia.
  - eapply (wpc_call _ j _ _ _ (fun g' => g' = at_ph SWaking (posted 1 g))); [apply law_wake|done| |].
    + intros s1 Γ1 g' s2 HI1 Hj1 -> [Hk Hs]. exists (at_ph SWaking (posted 1 g)). split; [done|]. destruct Hk as [κ ->].
      destruct (si_ghost _ _ _ _ HI1 _ _ Hj1). pose proof (si_nonneg _ _ _ _ HI1). eapply sem_inv_move; try done; unfold units in *; simpl in *; lia.
    + intros x s1 Γ1 g' s2 HI1 Hj1 -> Hs. eexists. split; [eapply sem_inv_wakes; [done|done|done|done]|].
      eapply wpc_conseq; [apply IH; [done|simpl; lia]|]. intros _ g'' ->. unfold posted. simpl. f_equal; lia.
Qed.

Lemma posts_nonneg ops : 0 <= posts ops.
Proof. induction ops as [|[]]; simpl; lia. Qed.

Lemma sclient_wp n fuel j ops g : sg_ph g = SOut -> sg_left g = posts ops ->
  wp j (sclient n fuel a (mk_uthread j 0) ops) g
    (fun k g' => g' = mk_sghost SOut (sg_taken g + k) (sg_posted g + posts ops) 0).
Proof.
  revert g. induction ops as [|[tm|c] ops IH]; intros g Hg Hl; cbn [sclient].
  - simpl in *. destruct g; simpl in *; subst. f_equal; lia.
  - apply wpc_bind. apply (wpc_conseq _ _ _ _ (fun r g' => g' = waited r g)).
    { destruct tm as [ms|]; cbn [wait]; [apply sem_wp_now; [done|]; intros t|]; apply wait_loop_wp; by left. }
    intros r g' ->. apply wpc_bind. eapply wpc_conseq; [apply IH|].
    + unfold waited. by case_bool_decide.
    + unfold waited. by case_bool_decide.
    + intros k g' ->. simpl. unfold waited. case_bool_decide; simpl; f_equal; lia.
  - pose proof (posts_nonneg ops). simpl in Hl. apply wpc_bind, wpc_bind. eapply wpc_conseq; [apply post_loop_wp; [done|lia]|].
    intros _ g' ->. simpl. eapply wpc_conseq; [apply IH; [done|simpl; lia]|]. intros k g' ->. simpl. f_equal; lia.
Qed.

End operations.

(** ** The pool *)

Definition all_posted (ts : list (list sop)) : Z := total (fun _ ops => posts ops) 0 ts.

Definition starting (ops : list sop) : sghost := mk_sghost SOut 0 0 (posts ops).

Lemma scrowd_inv {K} `{!Ulock K, !UlockLaws K} n fuel a (ts : list (list sop)) (s s' : umem K) ps :
  0 <= units a s -> units a s + all_posted ts < 2 ^ 32 -> (forall t, sleeps s t = Awake) ->
  pool_reach (s, scrowd n fuel a ts) (s', ps) ->
  exists Γ, sem_inv a (units a s) s' Γ /\
    verified (sem_inv a (units a s)) (fun j k g => exists ops, ts !! j = Some ops /\ g = mk_sghost SOut k (posts ops) 0) ps Γ.
Proof.
  intros H0 Hroom Haw Hr. eapply pool_verified; [| |exact Hr].
  - instantiate (1 := starting <$> ts). constructor; rewrite ?total_fmap.
    + rewrite (total_ext _ (fun _ _ => 0)) by done. assert (forall i (l : list (list sop)), total (fun _ _ => 0) i l = 0) as ->; [|lia].
      intros i l. revert i. induction l as [|x l IH]; intros i; simpl; [done|apply IH].
    + done.
    + done.
    + intros j g (ops & -> & _)%list_lookup_fmap_Some. simpl. split; [done|apply posts_nonneg].
    + intros j. rewrite Haw. unfold sleep_ok. rewrite list_lookup_fmap. by destruct (ts !! j).
    + intros j. by rewrite Haw.
  - unfold scrowd. split; [by rewrite length_fmap, length_imap|]. intros j p g Hj Hg.
    rewrite list_lookup_imap in Hj. rewrite list_lookup_fmap in Hg. destruct (ts !! j) as [ops|] eqn:E; simplify_eq/=.
    eapply wpc_conseq; [by apply sclient_wp|]. intros k g' ->. by exists ops.
Qed.

(** C6: a unit of the Apple semaphore is neither lost nor taken twice.  However waits, timed or
    not, and posts of any number of threads interleave, once all have finished the count and the
    successful waits add up to the initial count and the posts (as long as these fit the 32 bits). *)
Theorem semaphore_conserves_units {K} `{!Ulock K, !UlockLaws K} n fuel a (ts : list (list sop)) (s s' : umem K) ks :
  0 <= units a s -> units a s + all_posted ts < 2 ^ 32 -> (forall t, sleeps s t = Awake) ->
  pool_reach (s, scrowd n fuel a ts) (s', Ret <$> ks) ->
  units a s' + total (fun _ k => k) 0 ks = units a s + all_posted ts /\ 0 <= units a s'.
Proof.
  intros H0 Hroom Haw Hr. destruct (scrowd_inv n fuel a ts s s' _ H0 Hroom Haw Hr) as (Γ & HI & Hl & Hv).
  assert (length ks = length ts) as Elen.
  { apply pool_reach_length in Hr. unfold scrowd in Hr. by rewrite length_fmap, length_imap in Hr. }
  split; [|apply HI]. assert (Γ = zip_with (fun k ops => mk_sghost SOut k (posts ops) 0) ks ts) as ->.
  { apply list_eq. intros j. rewrite lookup_zip_with. destruct (ks !! j) as [k|] eqn:Ek.
    - destruct (lookup_lt_is_Some_2 Γ j) as [g Hg].
      { rewrite Hl, length_fmap. by eapply lookup_lt_Some. }
      destruct (Hv j (Ret k) g) as (ops & Ho & ->); [by rewrite list_lookup_fmap, Ek|done|]. by rewrite Hg, Ho.
    - apply lookup_ge_None in Ek. simpl. apply lookup_ge_None. by rewrite Hl, length_fmap. }
  pose proof (si_count _ _ _ _ HI) as Hc. unfold all_posted.
  assert (forall i, total net i (zip_with (fun k ops => mk_sghost SOut k (posts ops) 0) ks ts) =
    total (fun _ ops => posts ops) i ts - total (fun _ k => k) i ks) as E; [|rewrite E in Hc; lia].
  clear -Elen. revert ts Elen. induction ks as [|k ks IH]; intros [|ops ts] Elen i; simpl in *; try done.
  rewrite IH by lia. unfold net. simpl. lia.
Qed.

(** Nobody sleeps on an Apple semaphore that has units left.  Under the same
    interleavings, as long as a thread sleeps and the count is positive some other thread is neither
    finished nor asleep: it has been woken, or will wake a sleeper. *)
Theorem semaphore_no_stranded_sleeper {K} `{!Ulock K, !UlockLaws K} n fuel a (ts : list (list sop)) (s s' : umem K) ps :
  0 <= units a s -> units a s + all_posted ts < 2 ^ 32 -> (forall t, sleeps s t = Awake) ->
  pool_reach (s, scrowd n fuel a ts) (s', ps) ->
  forall i b, sleeps s' i = Asleep b -> 0 < units a s' ->
  exists j p, j <> i /\ ps !! j = Some p /\ (forall x, p <> Ret x) /\ forall b, sleeps s' j <> Asleep b.
Proof.
  intros H0 Hroom Haw Hr i b Hi Hu. destruct (scrowd_inv n fuel a ts s s' _ H0 Hroom Haw Hr) as (Γ & HI & Hl & Hv). pose proof HI as [].
  assert (b = count_ptr a) as ->.
  { specialize (si_sleep0 i). rewrite Hi in si_sleep0. unfold sleep_ok in si_sleep0. destruct (Γ !! i) as [g|]; simpl in si_sleep0; [|done].
    destruct (sg_ph g); try done. destruct si_sleep0 as [?|[?|?]]; by simplify_eq. }
  specialize (si_keen0 _ Hi). destruct (total_pos (eager a s') 0 Γ) as (j & g & Hj & He); [lia|]. simpl in He.
  assert (forall b, sleeps s' j <> Asleep b) as Hna.
  { intros b Hb. specialize (si_sleep0 j). rewrite Hj in si_sleep0. unfold sleep_ok, eager, eager_ph in *. simpl in *. rewrite Hb in *.
    destruct (sg_ph g); try done. }
  destruct (lookup_lt_is_Some_2 ps j) as [p Hp]; [rewrite <- Hl; by eapply lookup_lt_Some|].
  exists j, p. split; [intros ->; by eapply Hna|]. split; [done|]. split; [|done]. intros x ->.
  destruct (Hv _ _ _ Hp Hj) as (ops & _ & ->). unfold eager in He. simpl in He. lia.
Qed.

Module trio.

(** Two threads wait, one of them with a limit of 3 ms; the third posts two units. *)
Definition ts : list (list sop) := [[SWait None]; [SWait (Some 3)]; [SPost 2]].

(** Both are asleep and the first unit is there, its wake call still to come; then all run to the end. *)
Definition schedule : list (nat * bool) := replicate 4 (0%nat, false) ++ replicate 6 (1%nat, false) ++ replicate 1 (2%nat, false).
Definition halfway : umem table * list (prog (umem table) Z) := run_sched schedule (blank, scrowd 5 5 1 ts).
Definition rest : list (nat * bool) := replicate 10 (2%nat, false) ++ replicate 20 (0%nat, false) ++ replicate 20 (1%nat, false).
Definition final : umem table * list (prog (umem table) Z) := run_sched (schedule ++ rest) (blank, scrowd 5 5 1 ts).

Lemma halfway_reached : pool_reach (blank, scrowd 5 5 1 ts) (halfway.1, halfway.2).
Proof. exact (run_sched_reach schedule blank (scrowd 5 5 1 ts)). Qed.

Lemma trio_reached : pool_reach (blank, scrowd 5 5 1 ts) (final.1, Ret <$> [1; 1; 0]).
Proof.
  assert (final.2 = Ret <$> [1; 1; 0]) as <- by (by vm_compute). exact (run_sched_reach (schedule ++ rest) blank (scrowd 5 5 1 ts)).
Qed.

End trio.

Lemma semaphore_conserves_units_witness : units 1 trio.final.1 + (1 + 1 + 0) = 0 + 2.
Proof.
  pose proof (semaphore_conserves_units 5 5 1 trio.ts blank trio.final.1 [1; 1; 0]) as H.
  destruct H as [H _]; [done|done|done|exact trio.trio_reached|]. exact H.
Defined.

Lemma semaphore_no_stranded_sleeper_witness :
  sleeps trio.halfway.1 0%nat = Asleep (1, 0) /\ units 1 trio.halfway.1 = 1 /\
  exists j p, j <> 0%nat /\ trio.halfway.2 !! j = Some p /\ (forall x, p <> Ret x) /\ forall b, sleeps trio.halfway.1 j <> Asleep b.
Proof.
  split; [by vm_compute|]. split; [by vm_compute|].
  apply (semaphore_no_stranded_sleeper 5 5 1 trio.ts blank trio.halfway.1 trio.halfway.2) with (b := (1, 0));
    [done|done|done|exact trio.halfway_reached|by vm_compute|by vm_compute].
Defined.
