(* ===== verification/Waiter.v ===== *)
(** * The waiter

    [waiter.rs], over the promises of [mutex.rs] and [condition.rs]: a condition, a mutex and a quit
    flag, used by the channels to sleep and to wake.  The wrappers [IpcMutex] and [IpcCondition] hand
    every call to the backend compiled in; [IpcSync] is that backend, with an instance for Linux
    (Linux.v) and one for Apple (Ulock.v). *)
From S2P Require Import Prelude Atomics Abi Liveness Linux Ulock.

(** A backend, as the calling thread uses it: handles of mutexes and conditions and the calls on them. *)
Class IpcSync (S : Type) := {
  Mtx : Type;
  Cnd : Type;
  platform_lock : Mtx -> prog S (io_result unit);
  platform_lock_timeout : Mtx -> Z -> prog S (io_result bool);
  platform_try_lock : Mtx -> prog S (io_result bool);
  platform_unlock : Mtx -> prog S (io_result unit);
  platform_wait : Cnd -> Mtx -> option Z -> prog S (io_result bool);
  platform_notify : Cnd -> Mtx -> prog S (io_result unit);
  platform_broadcast : Cnd -> Mtx -> prog S (io_result unit);
}.

(** The backend of thread [me] on Linux: a handle is the address of its payload. *)
Definition linux_sync {K : Type} `{!Linux.Kernel K} (n fuel : nat) (me : Z) : IpcSync (Linux.mem K) := {|
  Mtx := Z;
  Cnd := Z;
  platform_lock := Linux.lock n fuel me;
  platform_lock_timeout := Linux.lock_timeout n fuel me;
  platform_try_lock := Linux.try_lock n fuel me;
  platform_unlock := Linux.unlock me;
  platform_wait := fun c m tm => Linux.wait fuel me c m tm;
  platform_notify := fun c m => Linux.notify fuel me c m;
  platform_broadcast := fun c m => Linux.broadcast fuel me c m;
|}.

(** On macOS the condition does not need the mutex to wake. *)
Definition apple_sync {K : Type} `{!Ulock K} (o : os) (n : nat) (th : uthread) : IpcSync (umem K) := {|
  Mtx := Z;
  Cnd := Z;
  platform_lock := PlatformMutex.lock n th;
  platform_lock_timeout := PlatformMutex.lock_timeout o n th;
  platform_try_lock := PlatformMutex.try_lock o th;
  platform_unlock := PlatformMutex.unlock;
  platform_wait := AppleCondition.wait n th;
  platform_notify := fun c _ => AppleCondition.notify c;
  platform_broadcast := fun c _ => AppleCondition.broadcast c;
|}.

Module IpcMutex.
Section mutex.
Context {S : Type} `{!IpcSync S}.

Definition valid (_ : Mtx) : bool := true.
Definition lock (m : Mtx) : prog S (io_result unit) := platform_lock m.
Definition lock_timeout (m : Mtx) (timeout_ms : Z) : prog S (io_result bool) := platform_lock_timeout m timeout_ms.
Definition try_lock (m : Mtx) : prog S (io_result bool) := platform_try_lock m.
Definition unlock (m : Mtx) : prog S (io_result unit) := platform_unlock m.

End mutex.
End IpcMutex.

Module IpcCondition.
Section condition.
Context {S : Type} `{!IpcSync S}.

Definition valid (_ : Cnd) : bool := true.
Definition wait (c : Cnd) (mtx : Mtx) (timeout_ms : option Z) : prog S (io_result bool) := platform_wait c mtx timeout_ms.
Definition notify (c : Cnd) (mtx : Mtx) : prog S (io_result unit) := platform_notify c mtx.
Definition broadcast (c : Cnd) (mtx : Mtx) : prog S (io_result unit) := platform_broadcast c mtx.

End condition.
End IpcCondition.

Module Waiter.
Section waiter.
Context {S : Type} `{!IpcSync S}.

Record Waiter := mk_Waiter { cond : Cnd; lock : Mtx; quit : field S bool }.

(** The loop of [wait_if], the lock held. *)
Fixpoint wait_if_loop (n : nat) (w : Waiter) (pred : prog S bool) (timeout_ms : option Z) : prog S (io_result bool) :=
  match n with
  | O => Spin
  | Datatypes.S n =>
      q ← load (quit w);
      again ← (if (q : bool) then Ret false else pred);
      if negb again then
        _ ←? IpcMutex.unlock (lock w);
        Ret (Ok true)
      else
        signalled ←? IpcCondition.wait (cond w) (lock w) timeout_ms;
        if (signalled : bool) then wait_if_loop n w pred timeout_ms
        else
          _ ←? IpcMutex.unlock (lock w);
          Ret (Ok false)
  end.

Definition wait_if (n : nat) (w : Waiter) (pred : prog S bool) (timeout_ms : option Z) : prog S (io_result bool) :=
  _ ←? IpcMutex.lock (lock w);
  wait_if_loop n w pred timeout_ms.

Definition notify (w : Waiter) : prog S (io_result unit) :=
  _ ←? IpcMutex.lock (lock w);
  _ ←? IpcMutex.unlock (lock w);
  IpcCondition.notify (cond w) (lock w).

Definition broadcast (w : Waiter) : prog S (io_result unit) :=
  _ ←? IpcMutex.lock (lock w);
  _ ←? IpcMutex.unlock (lock w);
  IpcCondition.broadcast (cond w) (lock w).

Definition quit_waiting (w : Waiter) : prog S (io_result unit) :=
  _ ← store (quit w) true;
  broadcast w.

End waiter.
End Waiter.
