(* ===== verification/UlockWaiter.v ===== *)
(** * No lost wake-ups: the waiter on macOS

    Threads blocked in [Waiter::wait_if] until a word of shared memory is set, and threads that set it
    and then call [Waiter::broadcast], on the Apple mutex and condition.  Setting the word is not
    protected by the lock; the lock taken and released by [broadcast] is what makes it safe. *)
From S2P Require Import Prelude Atomics Abi Liveness Concurrent Ulock UlockKernel UlockMutex Waiter.
Import PlatformMutex.

(** ** Clients *)

(** [q]: the word of the thread's own quit flag. *)
Inductive role := RWait (q : Z) (timeout_ms : option Z) | RSet.

Definition quit_flag {K} (q : Z) : field (umem K) bool :=
  mk_field (fun s => negb (words s !!! (q, 0) =? 0)) (fun b s => fset (word (q, 0)) (if b then 1 else 0) s).

Section clients.
Context {K : Type} `{!Ulock K} (o : os) (n : nat) (m c f : Z).
Abbreviation M := (prog (umem K)).

Definition unset : M bool := v ← load (word (f, 0)); Ret (v =? 0).

Definition the_waiter (th : uthread) (q : Z) : Waiter.Waiter (IpcSync0 := apple_sync o n th) :=
  Waiter.mk_Waiter (IpcSync0 := apple_sync o n th) c m (quit_flag q).

Definition actor (th : uthread) (r : role) : M unit :=
  match r with
  | RWait q tm => _ ← Waiter.wait_if (IpcSync0 := apple_sync o n th) n (the_waiter th q) unset tm; Ret tt
  | RSet => _ ← store (word (f, 0)) 1; _ ← Waiter.broadcast (IpcSync0 := apple_sync o n th) (the_waiter th 0); Ret tt
  end.

Definition cast (ts : list (Z * role)) : list (M unit) := imap (fun j x => actor (mk_uthread j x.1) x.2) ts.

End clients.

(** ** The invariant

    A waiter holds the lock and has found the word unset ([CSaw]), has read the sequence number
    ([CExp]), is registered ([CReg]) and perhaps in the wait call ([CCalling]).  A setter has set the
    word ([CSet]), has taken the lock since ([CPast]), has moved the sequence number ([CBump]) and has
    woken the sleepers or found none ([CEnd]). *)
Inductive cphase := CIdle | CSaw | CExp | CReg | CCalling | CSet | CPast | CBump | CEnd.

#[export] Instance cphase_eq_dec : EqDecision cphase.
Proof. solve_decision. Defined.

Definition is_set (x : cphase) : bool := match x with CSet | CPast | CBump | CEnd => true | _ => false end.
Definition is_past (x : cphase) : bool := match x with CPast | CBump | CEnd => true | _ => false end.
Definition bump (x : cphase) : Z := match x with CBump | CEnd => 1 | _ => 0 end.
Definition registered (x : cphase) : Z := match x with CReg | CCalling => 1 | _ => 0 end.

Definition bumps (Γ : list (phase * cphase)) : Z := total (fun _ g => bump g.2) 0 Γ.
Definition waiting (Γ : list (phase * cphase)) : Z := total (fun _ g => registered g.2) 0 Γ.

Section invariant.
Context {K : Type} `{!Ulock K, !UlockLaws K} (o : os) (m c f seq0 : Z) (setter : nat -> bool).
Implicit Types (s : umem K) (Γ : list (phase * cphase)).

Definition seq_at s : Z := words s !!! (c, ulock_cond_seq_off).
Definition waiters_at s : Z := words s !!! (c, ulock_cond_waiters_off).
Definition flag_at s : Z := words s !!! (f, 0).

Record cond_inv s Γ : Prop := {
  ci_len : Z.of_nat (length Γ) < 2 ^ 31;
  ci_role j g x : Γ !! j = Some (g, x) -> is_set x = true -> setter j = true;
  ci_flag : flag_at s = 0 -> forall j g x, Γ !! j = Some (g, x) -> is_set x = false;
  ci_saw i g : Γ !! i = Some (g, CSaw) -> g = Holding m false /\ forall j g x, Γ !! j = Some (g, x) -> is_past x = false;
  ci_seq : seq_at s = wrap 32 (seq0 + bumps Γ);
  ci_waiters : waiters_at s = waiting Γ;
  ci_asleep i : sleeps s i = Asleep (AppleCondition.seq_word c) ->
    (exists g, Γ !! i = Some (g, CCalling)) /\ (bumps Γ = 0 \/ exists t g, Γ !! t = Some (g, CBump));
}.

(** What leaves the condition and the word alone. *)
Definition elsewhere s s' : Prop :=
  flag_at s' = flag_at s /\ seq_at s' = seq_at s /\ waiters_at s' = waiters_at s /\
  forall t, sleeps s' t = Asleep (AppleCondition.seq_word c) -> sleeps s t = Asleep (AppleCondition.seq_word c).

Lemma total_bound (h : phase * cphase -> Z) i Γ : (forall g, 0 <= h g <= 1) -> 0 <= total (fun _ g => h g) i Γ <= Z.of_nat (length Γ).
Proof.
  intros Hh. revert i. induction Γ as [|g Γ IH]; intros i; [simpl; lia|]. cbn [total length]. specialize (IH (S i)). pose proof (Hh g). lia.
Qed.

Lemma bumps_range Γ : 0 <= bumps Γ <= Z.of_nat (length Γ).
Proof. apply total_bound. intros [g x]. destruct x; simpl; lia. Qed.

Lemma waiting_range Γ : 0 <= waiting Γ <= Z.of_nat (length Γ).
Proof. apply total_bound. intros [g x]. destruct x; simpl; lia. Qed.

Lemma bumps_move Γ j g x g' x' : Γ !! j = Some (g, x) -> bumps (<[j := (g', x')]> Γ) = bumps Γ - bump x + bump x'.
Proof. intros Hj. unfold bumps. rewrite (total_insert _ _ _ _ _ _ Hj). simpl. lia. Qed.

Lemma waiting_move Γ j g x g' x' : Γ !! j = Some (g, x) -> waiting (<[j := (g', x')]> Γ) = waiting Γ - registered x + registered x'.
Proof. intros Hj. unfold waiting. rewrite (total_insert _ _ _ _ _ _ Hj). simpl. lia. Qed.

(** Thread [j] moves from [(g, x)] to [(g', x')]. *)
Lemma cond_move s s' Γ j g x g' x' :
  cond_inv s Γ -> Γ !! j = Some (g, x) ->
  (is_set x' = true -> is_set x = true \/ setter j = true) ->
  (flag_at s' = 0 -> flag_at s = 0 /\ is_set x' = false) ->
  (x' = CSaw -> g' = Holding m false /\ (x = CSaw \/ flag_at s = 0)) ->
  (is_past x' = true -> is_past x = true \/ forall i gi, i <> j -> Γ !! i <> Some (gi, CSaw)) ->
  seq_at s' = wrap 32 (seq0 + (bumps Γ - bump x + bump x')) ->
  waiters_at s' = waiting Γ - registered x + registered x' ->
  (bump x' = bump x \/ x' = CBump) ->
  (x = CBump -> x' <> CBump -> forall t, sleeps s' t <> Asleep (AppleCondition.seq_word c)) ->
  (forall t, sleeps s' t = Asleep (AppleCondition.seq_word c) ->
     if decide (t = j) then x' = CCalling /\ (x = CCalling /\ sleeps s j = Asleep (AppleCondition.seq_word c) \/ bumps Γ = 0)
     else sleeps s t = Asleep (AppleCondition.seq_word c)) ->
  cond_inv s' (<[j := (g', x')]> Γ).
Proof.
  intros [] Hj Hrole Hf Hsaw Hpast Hseq Hw Hb Hend Hsl. constructor.
  - by rewrite length_insert.
  - intros i gi xi. rewrite (lookup_moved _ _ _ _ _ Hj). case_decide; [|apply ci_role0]. subst. intros [= <- <-] [?|?]%Hrole; eauto.
  - intros [H0 H1]%Hf i gi xi. rewrite (lookup_moved _ _ _ _ _ Hj). case_decide; [by intros [= <- <-]|eauto].
  - assert (forall i gi xi, is_past x' = false -> (forall i g x, Γ !! i = Some (g, x) -> is_past x = false) ->
      (<[j := (g', x')]> Γ) !! i = Some (gi, xi) -> is_past xi = false) as Hnp.
    { intros i gi xi Hx Ha. rewrite (lookup_moved _ _ _ _ _ Hj). case_decide; [by intros [= <- <-]|apply Ha]. }
    intros i gi. rewrite (lookup_moved _ _ _ _ _ Hj). case_decide as E.
    + intros [= <- ->]. destruct (Hsaw eq_refl) as [Hg Hx]. split; [done|]. intros k gk xk. apply Hnp; [done|]. destruct Hx as [->|Hx]; [by eapply ci_saw0|].
      intros i' g1 x1 H1. apply (ci_flag0 Hx) in H1. by destruct x1.
    + intros Hi. destruct (ci_saw0 _ _ Hi) as [Hg Ha]. split; [done|]. intros k gk xk. apply Hnp; [|done].
      destruct (is_past x') eqn:Ep; [|done]. destruct (Hpast eq_refl) as [Hp|Hp]; [apply Ha in Hj; congruence|by apply Hp in Hi].
  - by rewrite (bumps_move _ _ _ _ _ _ Hj).
  - by rewrite (waiting_move _ _ _ _ _ _ Hj).
  - intros i Hi. pose proof (Hsl i Hi) as Hs.
    assert (bumps Γ = 0 \/ (exists t g, Γ !! t = Some (g, CBump)) -> bumps (<[j := (g', x')]> Γ) = 0 \/ exists t g, (<[j := (g', x')]> Γ) !! t = Some (g, CBump)) as Hcov.
    { rewrite (bumps_move _ _ _ _ _ _ Hj). destruct (decide (x' = CBump)) as [->|Hx'].
      - intros _. right. exists j, g'. by rewrite (lookup_moved _ _ _ _ _ Hj), decide_True.
      - destruct Hb as [Hb|?]; [|done]. rewrite Hb. intros [H0|(t & gt & Ht)]; [left; lia|]. right. exists t, gt.
        rewrite (lookup_moved _ _ _ _ _ Hj), decide_False; [done|]. intros ->. rewrite Hj in Ht. simplify_eq. by eapply Hend. }
    case_decide as E.
    + subst i. destruct Hs as [-> Hs]. split; [exists g'; by rewrite (lookup_moved _ _ _ _ _ Hj), decide_True|]. apply Hcov.
      destruct Hs as [[-> Hs]|Hs]; [by apply ci_asleep0 in Hs as [_ ?]|by left].
    + apply ci_asleep0 in Hs as [[gi Hg] Hs]. split; [|by apply Hcov]. exists gi. by rewrite (lookup_moved _ _ _ _ _ Hj), decide_False.
Qed.

(** A step of a thread that does not sleep. *)
Lemma cond_word s s' Γ j g x g' x' :
  cond_inv s Γ -> Γ !! j = Some (g, x) -> (forall t, sleeps s' t = sleeps s t) -> x <> CCalling -> (x = CBump -> x' = CBump) ->
  (is_set x' = true -> is_set x = true \/ setter j = true) ->
  (flag_at s' = 0 -> flag_at s = 0 /\ is_set x' = false) ->
  (x' = CSaw -> g' = Holding m false /\ (x = CSaw \/ flag_at s = 0)) ->
  (is_past x' = true -> is_past x = true \/ forall i gi, i <> j -> Γ !! i <> Some (gi, CSaw)) ->
  seq_at s' = wrap 32 (seq0 + (bumps Γ - bump x + bump x')) ->
  waiters_at s' = waiting Γ - registered x + registered x' ->
  (bump x' = bump x \/ x' = CBump) ->
  cond_inv s' (<[j := (g', x')]> Γ).
Proof.
  intros HI Hj Hs Hc Hb Hrole Hf Hsaw Hp Hseq Hw Hbump. eapply cond_move; try done.
  - intros H H'. by apply Hb in H.
  - intros t Ht. rewrite Hs in Ht. case_decide; [subst|done]. destruct (ci_asleep _ _ HI _ Ht) as [[gj Hg] _]. rewrite Hj in Hg. by simplify_eq.
Qed.

(** A step elsewhere, whatever becomes of the mutex part of thread [j]. *)
Lemma cond_elsewhere s s' Γ j g g' x :
  cond_inv s Γ -> Γ !! j = Some (g, x) -> elsewhere s s' -> x <> CSaw \/ g' = Holding m false -> cond_inv s' (<[j := (g', x)]> Γ).
Proof.
  intros HI Hj (Hf & Hs & Hw & Hsl) Hx. pose proof HI as []. eapply cond_move; [done|done|..]; rewrite ?Hf, ?Hs, ?Hw.
  - by left.
  - intros H0. split; [done|]. by eapply ci_flag0.
  - intros ->. destruct Hx as [?| ->]; [done|]. by split; [|left].
  - by left.
  - rewrite ci_seq0. f_equal. lia.
  - lia.
  - by left.
  - done.
  - intros t Ht. case_decide; [subst|by apply Hsl]. apply Hsl in Ht. destruct (ci_asleep0 _ Ht) as [[gj Hg] _]. rewrite Hj in Hg. simplify_eq. by split; [|left].
Qed.

End invariant.

(** ** The operations *)

Definition only (m k : Z) : bool := bool_decide (k = m).

Section operations.
Context {K : Type} `{!Ulock K, !UlockLaws K} (o : os) (n : nat) (m c f seq0 : Z) (setter : nat -> bool).
Context (mc : m <> c) (mf : m <> f) (cf : c <> f) (seq0_u : is_u 32 seq0).
Implicit Types (s : umem K) (Γ : list (phase * cphase)).
Abbreviation M := (prog (umem K)).
Abbreviation minv := (mutex_inv (K:=K) o (only m) false).
Abbreviation cinv := (cond_inv (K:=K) m c f seq0 setter).
Abbreviation away := (elsewhere (K:=K) c f).

Definition both s Γ : Prop := minv s Γ.*1 /\ cinv s Γ.
Abbreviation wp := (wpc both).

Lemma m_only : only m m = true.
Proof. by apply bool_decide_eq_true. Qed.
#[local] Hint Resolve m_only : core.

#[local] Instance away_refl : Reflexive away.
Proof. by intros s. Qed.

(** A store to the mutex, and what the kernel does about it. *)
Lemma away_store off v s : away s (fset (word (m, off)) v s).
Proof.
  unfold elsewhere, flag_at, seq_at, waiters_at. simpl. rewrite !lookup_total_insert_ne by congruence. done.
Qed.

Lemma away_kernel s s' : kernel_only s s' ->
  (forall t, sleeps s' t = Asleep (AppleCondition.seq_word c) -> sleeps s t = Asleep (AppleCondition.seq_word c)) -> away s s'.
Proof. by intros [κ ->]. Qed.

Lemma stays_wait me off v tm : stays away (ulock_wait me (m, off) v tm).
Proof.
  eapply stays_call; [apply law_wait| |].
  - intros s s' (Hk & Ho & Hme). apply away_kernel; [done|]. intros t Ht. destruct (decide (t = me)) as [->|Hne]; [|by rewrite <- Ho].
    destruct Hme as [E|[(_ & _ & E)|(_ & E)]]; rewrite E in Ht; [done| |done]. unfold AppleCondition.seq_word in Ht. congruence.
  - intros r s s' (Hk & Ho & Hme & _). apply away_kernel; [done|]. intros t Ht. destruct (decide (t = me)) as [->|Hne]; [congruence|by rewrite <- Ho].
Qed.

Lemma stays_wake all off : stays away (ulock_wake all (m, off)).
Proof.
  eapply stays_call; [apply law_wake| |].
  - intros s s' [Hk Hs]. apply away_kernel; [done|]. intros t. by rewrite Hs.
  - intros _ s s' (Hk & Hne & Has & _). apply away_kernel; [done|]. intros t Ht.
    destruct (decide (sleeps s t = Asleep (m, off))) as [E|E]; [|by rewrite <- Hne].
    destruct (Has t E) as [E'|E']; rewrite E' in Ht; [|done]. unfold AppleCondition.seq_word in Ht. congruence.
Qed.

Lemma stays_spin k th v : stays away (spin k th m v).
Proof.
  induction k as [|k IH]; [done|]. cbn [spin]. apply stays_bind; [apply stays_cas; [apply _|apply away_store]|]. intros []; [|done].
  apply stays_bind; [apply stays_act; apply away_store|done].
Qed.

Lemma stays_mark : stays away (mark_waiters m).
Proof.
  apply stays_bind; [apply stays_load, _|]. intros v. destruct (_ =? 0); [done|]. destruct (_ =? 1); [|done].
  apply stays_bind; [apply stays_cas; [apply _|apply away_store]|done].
Qed.

Lemma stays_lock k th b : stays away (lock_loop k th m b).
Proof.
  revert b. induction k as [|k IH]; intros b; [done|]. cbn [lock_loop]. apply stays_bind; [apply stays_spin|]. intros []; [done|].
  apply stays_bind; [apply stays_mark|]. intros []; [|apply IH]. apply stays_bind; [apply stays_wait|]. intros _. apply IH.
Qed.

Lemma stays_unlock : stays away (unlock m).
Proof.
  apply stays_bind; [apply stays_act; apply away_store|]. intros _. apply stays_bind; [apply stays_act; intros s; apply away_store|]. intros v.
  apply stays_bind; [destruct (_ =? 2); [apply stays_wake|done]|done].
Qed.

(** What is verified for the mutex alone is verified here, the condition part standing still. *)
Lemma wp_lift {A} j (p : M A) g x Q :
  wpc minv j p g Q -> stays away p -> x <> CSaw -> wp j p (g, x) (fun a g' => Q a g'.1 /\ g'.2 = x).
Proof.
  intros Hp Hs Hx. revert g Hp. induction p as [a| |X h k IH|k IH]; intros g Hp; simpl in *; [done|done| |].
  - intros s Γ [HI HC] Hj. destruct (Hs s) as [Ha Hk]. destruct (Hp s Γ.*1) as (g' & HI' & Hp'); [done|by rewrite list_lookup_fmap, Hj|].
    exists (g', x). split; [|by apply IH]. split; [by rewrite list_fmap_insert|]. eapply cond_elsewhere; [done|done|done|by left].
  - intros b. by apply IH.
Qed.

Lemma wp_lock {A} j pid x (h : io_result unit -> M A) Q :
  is_process_alive o pid = true -> x <> CSaw -> wp j (h (Ok tt)) (Holding m false, x) Q -> wp j (lock n (mk_uthread j pid) m ≫= h) (Out, x) Q.
Proof.
  intros Hp Hx Hh. apply wpc_bind. eapply wpc_conseq; [apply wp_lift; [by apply (lock_loop_wp _ _ false _ _ _ _ _ false)|apply stays_lock|done]|].
  intros r [g y] [[-> E] Ey]. simpl in *. by subst.
Qed.

Lemma wp_unlock {A} j x (h : io_result unit -> M A) Q :
  x <> CSaw -> wp j (h (Ok tt)) (Out, x) Q -> wp j (unlock m ≫= h) (Holding m false, x) Q.
Proof.
  intros Hx Hh. apply wpc_bind. eapply wpc_conseq; [apply wp_lift; [by apply unlock_wp|apply stays_unlock|done]|].
  intros r [g y] [[-> E] Ey]. simpl in *. by subst.
Qed.

(** A step outside the mutex: the mutex part stands still. *)
Lemma both_move s s' Γ j g x x' :
  both s Γ -> Γ !! j = Some (g, x) -> free g ->
  (forall off, words s' !!! (m, off) = words s !!! (m, off)) -> notes s' = notes s -> (forall t, sleeps s' t = sleeps s t) ->
  cinv s' (<[j := (g, x')]> Γ) -> both s' (<[j := (g, x')]> Γ).
Proof.
  intros [HI _] Hj Hg Hw Hn Hs HC. split; [|done]. rewrite list_fmap_insert. simpl.
  eapply mtx_inv_move; try done; [by rewrite list_lookup_fmap, Hj| | |eapply inv_awake; [done|by rewrite list_lookup_fmap, Hj|done]|by destruct g|by left].
  - intros k. unfold state, only. case_bool_decide; [subst; apply Hw|done].
  - intros k. unfold holder, only. case_bool_decide; [subst; left; apply Hw|by left].
Qed.

(** The step only reads. *)
Lemma both_read s Γ j g x x' : both s Γ -> Γ !! j = Some (g, x) -> free g -> cinv s (<[j := (g, x')]> Γ) -> both s (<[j := (g, x')]> Γ).
Proof. intros. by eapply both_move. Qed.

Lemma both_wp_now {A} j g x (h : Z -> M A) Q : free g -> (forall t, wp j (h t) (g, x) Q) -> wp j (now clk_f ≫= h) (g, x) Q.
Proof.
  intros Hg Hh. apply wpc_act. intros s Γ [HI HC] Hj. exists (g, x). split; [|done].
  eapply both_move; try done. rewrite list_insert_id by done. by destruct HC.
Qed.

(** Nobody holding the lock who found the word unset sees a moved sequence number. *)
Lemma saw_seq s Γ i : both s Γ -> Γ !! i = Some (Holding m false, CSaw) -> seq_at c s = seq0 /\ bumps Γ = 0.
Proof.
  intros [_ HC] Hi. pose proof HC as []. destruct (ci_saw0 _ _ Hi) as [_ Ha].
  assert (bumps Γ = 0) as E.
  { pose proof (bumps_range Γ). destruct (Z.eq_dec (bumps Γ) 0) as [?|Hne]; [done|]. destruct (total_pos (fun _ g => bump g.2) 0 Γ) as (k & [g x] & Hk & Hb).
    { change (0 < bumps Γ). lia. }
    specialize (Ha _ _ _ Hk). by destruct x. }
  split; [|done]. rewrite ci_seq0, E, Z.add_0_r. by apply wrap_id.
Qed.

(** The wait call on the sequence word. *)
Lemma wp_cond_wait {A} j pid tm (h : result unit Z -> M A) Q :
  (forall r, wp j (h r) (Out, CReg) Q) ->
  wp j (ulock_wait (u_me (mk_uthread j pid)) (AppleCondition.seq_word c) seq0 tm ≫= h) (Out, CReg) Q.
Proof.
  intros Hh. eapply (wpc_call _ j _ _ _ (fun g => g = (Out, CReg) \/ g = (Away, CCalling))); [apply law_wait|by left| |].
  - intros s Γ g s' [HI HC] Hj Hg (Hk & Ho & Hme). cbn [u_me] in *. exists (Away, CCalling). split; [by right|]. pose proof HC as [].
    assert (sleeps s j = Awake \/ sleep_ok (only m) (Some Away) (sleeps s j)) as Hold.
    { pose proof (mi_sleep _ _ _ _ _ HI j) as Hz. rewrite list_lookup_fmap, Hj in Hz. destruct Hg as [->| ->]; simpl in Hz; auto. }
    split.
    + rewrite list_fmap_insert. cbn [fst]. eapply inv_away; [done|by rewrite list_lookup_fmap, Hj| |done|done|].
      { destruct Hg as [->| ->]; simpl; auto. }
      right. split; [done|]. intros k Hkm. apply bool_decide_eq_true in Hkm as ->. unfold AppleCondition.seq_word, state_word in *.
      destruct Hme as [->|[(_ & _ & ->)|(_ & ->)]]; [|split; intros [= E]; congruence|done].
      destruct Hold as [->|Hold]; [done|]. apply (Hold m), m_only.
    + destruct Hk as [κ ->]. destruct g as [g x]. eapply cond_move; [exact HC|exact Hj|..]; try done.
      * etransitivity; [exact ci_seq0|]. f_equal. destruct Hg; simplify_eq; simpl; lia.
      * etransitivity; [exact ci_waiters0|]. destruct Hg; simplify_eq; simpl; lia.
      * left. destruct Hg; by simplify_eq.
      * destruct Hg; by simplify_eq.
      * intros t Ht. case_decide as E; [subst t|by rewrite Ho in Ht]. split; [done|]. destruct Hme as [E|[(_ & E & _)|(_ & E)]]; [| |rewrite E in Ht; done].
        { left. rewrite E in Ht. split; [|done]. destruct (ci_asleep0 _ Ht) as [[gj Hgj] _]. rewrite Hj in Hgj. by simplify_eq. }
        right. change (seq_at c s = seq0) in E. rewrite ci_seq0 in E. pose proof (bumps_range Γ). unfold is_u in seq0_u. unfold wrap in E.
        destruct (Z.lt_ge_cases (seq0 + bumps Γ) (2 ^ 32)); [rewrite Z.mod_small in E; lia|].
        rewrite <- (Z.mod_add _ (-1)) in E by lia. rewrite Z.mod_small in E; lia.
  - intros r s Γ g s' [HI HC] Hj Hg (Hk & Ho & Hme & Hna & _). cbn [u_me] in *. exists (Out, CReg). split; [|done]. pose proof HC as []. split.
    + rewrite list_fmap_insert. cbn [fst]. eapply inv_away; [done|by rewrite list_lookup_fmap, Hj| |done|done|].
      { destruct Hg as [->| ->]; simpl; auto. }
      left. by split.
    + destruct Hk as [κ ->]. destruct g as [g x]. eapply cond_move; [exact HC|exact Hj|..]; try done.
      * etransitivity; [exact ci_seq0|]. f_equal. destruct Hg; simplify_eq; simpl; lia.
      * etransitivity; [exact ci_waiters0|]. destruct Hg; simplify_eq; simpl; lia.
      * left. destruct Hg; by simplify_eq.
      * destruct Hg; by simplify_eq.
      * intros t Ht. case_decide as E; [subst t; by rewrite Hme in Ht|by rewrite Ho in Ht].
Qed.

(** Accesses to the words of the condition and to the word waited for. *)
Lemma other_words k off v s : k <> m -> forall off', words (fset (word (k, off)) v s) !!! (m, off') = words s !!! (m, off').
Proof. intros Hk off'. simpl. apply lookup_total_insert_ne. congruence. Qed.

Lemma wait_loops_wp j pid tm :
  wp j (match tm with
        | None => AppleCondition.wait_no_timeout n (mk_uthread j pid) c seq0
        | Some ms => AppleCondition.wait_with_timeout n (mk_uthread j pid) c seq0 (ms * MILLI)
        end) (Out, CReg) (fun _ g => g = (Out, CReg)).
Proof.
  destruct tm as [ms|].
  - apply both_wp_now; [done|]. intros t. generalize (t + ms * MILLI). clear t. intros d. generalize n. clear n.
    intros n. induction n as [|n IH]; [done|]. cbn [AppleCondition.wait_with_timeout_loop].
    apply wpc_load_same. intros s Γ HI Hj. destruct (negb _); [done|]. apply both_wp_now; [done|]. intros t. destruct (_ <=? _); [done|].
    apply wp_cond_wait. intros [|e]; [apply IH|]. destruct (e =? EINTR); [apply IH|]. by apply wpc_load_same.
  - generalize n. clear n. intros n. induction n as [|n IH]; [done|]. cbn [AppleCondition.wait_no_timeout].
    apply wpc_load_same. intros s Γ HI Hj. destruct (negb _); [done|].
    apply wp_cond_wait. intros [|e]; [apply IH|]. by destruct (e =? EINTR); [apply IH|].
Qed.

(** One round of waiting, from finding the word unset to holding the lock again. *)
Lemma cond_wait_wp j pid tm :
  is_process_alive o pid = true ->
  wp j (AppleCondition.wait n (mk_uthread j pid) c m tm) (Holding m false, CSaw)
    (fun r g => g = (Holding m false, CIdle) /\ exists b, r = Ok b).
Proof.
  intros Hp. apply wpc_load. intros s Γ HI Hj. destruct (saw_seq _ _ _ HI Hj) as [Eseq Hb0].
  change (fget (AppleCondition.seq_atomic c) s) with (seq_at c s). rewrite Eseq. exists (Holding m false, CExp). split.
  { eapply both_read; [done|done|done|]. destruct HI as [_ HC]. pose proof HC as []. eapply cond_word; try done.
    - etransitivity; [exact ci_seq0|]. f_equal. simpl. lia.
    - rewrite ci_waiters0. simpl. lia.
    - by left. }
  clear s Γ HI Hj Eseq Hb0. apply wpc_act. intros s Γ HI Hj. exists (Holding m false, CReg). split.
  { eapply both_move; [done|done|done|by apply other_words|done|done|]. destruct HI as [_ HC]. pose proof HC as []. eapply cond_word; try done.
    - intros H0. split; [|done]. unfold flag_at in *. simpl in H0. rewrite lookup_total_insert_ne in H0 by congruence. done.
    - unfold seq_at in *. simpl. rewrite lookup_total_insert_ne by (by intros [=]). rewrite ci_seq0. f_equal. lia.
    - unfold waiters_at at 1. simpl. rewrite lookup_total_insert_eq. unfold waiters_at in ci_waiters0. rewrite ci_waiters0.
      pose proof (waiting_range Γ). unfold wrapping_add. rewrite wrap_id by (unfold is_u; lia). lia.
    - by left. }
  clear s Γ HI Hj. cbn [fst]. apply wp_unlock; [done|]. apply wpc_bind. eapply wpc_conseq; [apply wait_loops_wp|]. intros b g ->.
  apply wpc_act. intros s Γ HI Hj. exists (Out, CIdle). split.
  { eapply both_move; [done|done|done|by apply other_words|done|done|]. destruct HI as [_ HC]. pose proof HC as []. eapply cond_word; try done.
    - intros H0. split; [|done]. unfold flag_at in *. simpl in H0. rewrite lookup_total_insert_ne in H0 by congruence. done.
    - unfold seq_at in *. simpl. rewrite lookup_total_insert_ne by (by intros [=]). rewrite ci_seq0. f_equal. lia.
    - unfold waiters_at at 1. simpl. rewrite lookup_total_insert_eq. unfold waiters_at in ci_waiters0. rewrite ci_waiters0.
      pose proof (waiting_range Γ). pose proof (total_term (fun _ g => registered g.2) 0 Γ j _ ltac:(intros k [g x]; by destruct x) Hj) as H1.
      simpl in H1. change (1 <= waiting Γ) in H1. unfold wrapping_sub. rewrite wrap_id by (unfold is_u; lia). lia.
    - by left. }
  clear s Γ HI Hj. cbn [fst]. apply wp_lock; [done|done|]. split; [done|]. by eexists.
Qed.

Definition thread (j : nat) (pid : Z) : uthread := mk_uthread j pid.
Abbreviation apple j pid := (apple_sync o n (thread j pid)).

Lemma wait_if_loop_wp k j pid q tm :
  is_process_alive o pid = true ->
  wp j (Waiter.wait_if_loop (IpcSync0 := apple j pid) k (the_waiter o n m c (thread j pid) q) (unset f) tm) (Holding m false, CIdle)
    (fun _ g => g = (Out, CIdle)).
Proof.
  intros Hp. induction k as [|k IH]; [done|]. cbn [Waiter.wait_if_loop]. apply wpc_load_same. intros s Γ HI Hj. apply wpc_bind.
  apply (wpc_conseq _ _ _ _ (fun (again : bool) g => g = (Holding m false, if again then CSaw else CIdle))).
  - destruct (fget _ s); [done|]. clear s Γ HI Hj. apply wpc_load. intros s Γ HI Hj. change (fget (word (f, 0)) s) with (flag_at f s).
    destruct (Z.eqb_spec (flag_at f s) 0) as [E|E]; [|exists (Holding m false, CIdle); by rewrite list_insert_id].
    exists (Holding m false, CSaw). split; [|done]. eapply both_read; [done|done|done|]. destruct HI as [_ HC]. pose proof HC as []. eapply cond_word; try done.
    + by split; [|right].
    + etransitivity; [exact ci_seq0|]. f_equal. simpl. lia.
    + rewrite ci_waiters0. simpl. lia.
    + by left.
  - intros [] g ->; cbn [negb].
    + apply wpc_bind. eapply wpc_conseq; [by apply cond_wait_wp|]. intros r g [-> [b ->]]. destruct b; [apply IH|]. by apply wp_unlock.
    + by apply wp_unlock.
Qed.

(** The lock taken after setting the word: nobody who found it unset holds it. *)
Lemma update_past s Γ j : both s Γ -> Γ !! j = Some (Holding m false, CSet) -> both s (<[j := (Holding m false, CPast)]> Γ).
Proof.
  intros HB Hj. eapply both_read; [done|done|done|]. destruct HB as [HI HC]. pose proof HC as []. eapply cond_word; try done.
  - by left.
  - intros H0. by apply (ci_flag0 H0) in Hj.
  - intros _. right. intros i gi Hij Hi. destruct (ci_saw0 _ _ Hi) as [-> _]. apply Hij.
    eapply (mi_one _ _ _ _ _ HI i j m); rewrite list_lookup_fmap; [by rewrite Hi|by rewrite Hj].
  - etransitivity; [exact ci_seq0|]. f_equal. simpl. lia.
  - rewrite ci_waiters0. simpl. lia.
  - by left.
Qed.

Lemma broadcast_wp j : wp j (AppleCondition.broadcast c) (Out, CPast) (fun _ g => g = (Out, CEnd)).
Proof.
  apply wpc_act. intros s Γ HI Hj. exists (Out, CBump). split.
  { eapply both_move; [done|done|done|by apply other_words|done|done|]. destruct HI as [_ HC]. pose proof HC as []. eapply cond_word; try done.
    - by left.
    - intros H0. unfold flag_at in H0. simpl in H0. rewrite lookup_total_insert_ne in H0 by congruence. by apply (ci_flag0 H0) in Hj.
    - by left.
    - unfold seq_at at 1. simpl. rewrite lookup_total_insert_eq. unfold seq_at in ci_seq0. rewrite ci_seq0. unfold wrapping_add, wrap.
      rewrite Zplus_mod_idemp_l. f_equal. lia.
    - unfold waiters_at. simpl. rewrite lookup_total_insert_ne by (by intros [=]). unfold waiters_at in ci_waiters0. rewrite ci_waiters0. lia.
    - by right. }
  clear s Γ HI Hj. cbn [fst]. apply wpc_load. intros s Γ HI Hj. change (fget (AppleCondition.waiters_atomic c) s) with (waiters_at c s).
  pose proof HI as [_ []]. pose proof (waiting_range Γ) as Hr. rewrite ci_waiters0, i32_id by lia.
  destruct (Z.leb_spec (waiting Γ) 0) as [Hw|Hw].
  - exists (Out, CEnd). split; [|done]. eapply both_read; [done|done|done|]. destruct HI as [_ HC]. eapply cond_move; try done.
    + by left.
    + intros H0. by apply (ci_flag0 H0) in Hj.
    + by left.
    + etransitivity; [exact ci_seq0|]. f_equal. simpl. lia.
    + rewrite ci_waiters0. simpl. lia.
    + by left.
    + intros _ _ t Ht. destruct (ci_asleep0 _ Ht) as [[g Hg] _].
      pose proof (total_term (fun _ g => registered g.2) 0 Γ t _ ltac:(intros k [? x]; by destruct x) Hg) as H1. simpl in H1. change (1 <= waiting Γ) in H1. lia.
    + intros t Ht. case_decide; [subst|done]. destruct (ci_asleep0 _ Ht) as [[g Hg] _]. rewrite Hj in Hg. simplify_eq.
  - exists (Out, CBump). split; [by rewrite list_insert_id|]. clear dependent s Γ.
    eapply (wpc_call _ j _ _ _ (fun g => g = (Out, CBump))); [apply law_wake|done| |].
    + intros s Γ g s' [HI HC] Hj -> [Hk Hs]. exists (Out, CBump). split; [done|]. rewrite list_insert_id by done. split.
      * destruct Hk as [κ ->]. rewrite <- (list_insert_id Γ.*1 j Out) by (by rewrite list_lookup_fmap, Hj).
        eapply mtx_inv_move; try done; [by rewrite list_lookup_fmap, Hj|by left|eapply inv_awake; [done|by rewrite list_lookup_fmap, Hj|done]].
      * rewrite <- (list_insert_id Γ j (Out, CBump)) by done. eapply cond_elsewhere; [done|done| |by left]. apply away_kernel; [done|]. intros t. by rewrite Hs.
    + intros r s Γ g s' [HI HC] Hj -> Hs. exists (Out, CEnd). split; [|done]. pose proof HC as []. split.
      * rewrite list_fmap_insert. cbn [fst]. rewrite list_insert_id by (by rewrite list_lookup_fmap, Hj). eapply inv_wakes_away; [done| |done].
        intros k Hk. apply bool_decide_eq_true in Hk as ->. unfold AppleCondition.seq_word, state_word. congruence.
      * destruct Hs as ([κ ->] & Hne & Has & Hall). eapply cond_move; try done.
        -- by left.
        -- intros H0. by apply (ci_flag0 H0) in Hj.
        -- by left.
        -- etransitivity; [exact ci_seq0|]. f_equal. simpl. lia.
        -- etransitivity; [exact ci_waiters0|]. simpl. lia.
        -- by left.
        -- intros t Ht. by apply Hall in Ht.
Qed.

(** What a finished thread leaves: a setter has woken everybody. *)
Definition done_role (r : role) : phase * cphase := match r with RWait _ _ => (Out, CIdle) | RSet => (Out, CEnd) end.

Lemma actor_wp j pid r :
  is_process_alive o pid = true -> (r = RSet -> setter j = true) -> wp j (actor o n m c f (mk_uthread j pid) r) (Out, CIdle) (fun _ g => g = done_role r).
Proof.
  intros Hp Hr. destruct r as [q tm|]; cbn [actor].
  - apply wpc_bind. apply wp_lock; [done|done|]. eapply wpc_conseq; [by apply wait_if_loop_wp|]. by intros r g ->.
  - apply wpc_act. intros s Γ HI Hj. exists (Out, CSet). split.
    { eapply both_move; [done|done|done|by apply other_words|done|done|]. destruct HI as [_ HC]. pose proof HC as []. eapply cond_word; try done.
      - right. by apply Hr.
      - unfold flag_at. simpl. by rewrite lookup_total_insert_eq.
      - unfold seq_at. simpl. rewrite lookup_total_insert_ne by congruence. unfold seq_at in ci_seq0. rewrite ci_seq0. f_equal. lia.
      - unfold waiters_at. simpl. rewrite lookup_total_insert_ne by congruence. unfold waiters_at in ci_waiters0. rewrite ci_waiters0. lia.
      - by left. }
    clear s Γ HI Hj. cbn [fst]. apply wpc_bind. apply wp_lock; [done|done|].
    eapply (wpc_update _ _ _ _ (Holding m false, CPast)); [done|intros; by apply update_past|].
    apply wp_unlock; [done|]. eapply wpc_conseq; [apply broadcast_wp|]. by intros r g ->.
Qed.

End operations.

(** ** The pool *)

(** The mutex is free, nobody waits, is in a section or asleep. *)
Record fresh {K} `{!Ulock K} (m c : Z) (s : umem K) : Prop := {
  fr_state : words s !!! state_word m = 0;
  fr_holder : words s !!! holder_word m = 0;
  fr_waiters : words s !!! (c, ulock_cond_waiters_off) = 0;
  fr_seq : is_u 32 (words s !!! (c, ulock_cond_seq_off));
  fr_notes : inside (notes s) = ∅;
  fr_sleep t : sleeps s t = Awake;
}.

Definition is_setter (ts : list (Z * role)) (j : nat) : bool := match ts !! j with Some (_, RSet) => true | _ => false end.

Section pool.
Context {K : Type} `{!Ulock K, !UlockLaws K} (o : os) (n : nat) (m c f : Z) (ts : list (Z * role)) (s : umem K).
Context (mc : m <> c) (mf : m <> f) (cf : c <> f) (Hf : fresh m c s) (Hlen : Z.of_nat (length ts) < 2 ^ 31).
Context (Halive : Forall (fun x => is_process_alive o x.1 = true) ts).

Abbreviation seq0 := (words s !!! (c, ulock_cond_seq_off)).
Abbreviation inv := (both (K:=K) o m c f seq0 (is_setter ts)).
Abbreviation ends := (fun j (_ : unit) g => exists x, ts !! j = Some x /\ g = done_role x.2).

Lemma start_idle j g : ((fun _ => (Out, CIdle)) <$> ts) !! j = Some g -> g = (Out, CIdle).
Proof. by intros (x & -> & _)%list_lookup_fmap_Some. Qed.

Lemma start_total (h : phase * cphase -> Z) i : h (Out, CIdle) = 0 -> total (fun _ g => h g) i ((fun _ => (Out, CIdle)) <$> ts) = 0.
Proof. intros Hh. generalize ts i. clear -Hh. intros l. induction l as [|x l IH]; intros i; [done|]. cbn [fmap list_fmap total]. rewrite Hh. apply IH. Qed.

Lemma start_inv : inv s ((fun _ => (Out, CIdle)) <$> ts).
Proof.
  destruct Hf. split.
  - assert (forall j g, (((fun _ => (Out, CIdle)) <$> ts).*1) !! j = Some g -> g = Out) as HO.
    { intros j g (x & -> & Hx)%list_lookup_fmap_Some. by apply start_idle in Hx as ->. }
    assert (forall k, state (only m) s k = 0) as Es by (intros; unfold state, only; case_bool_decide; by subst).
    assert (forall k, holder (only m) s k = 0) as Eh by (intros; unfold holder, only; case_bool_decide; by subst).
    constructor; intros; rewrite ?Es, ?Eh, ?fr_notes0, ?fr_sleep0 in *; auto; try done; try (by apply HO in H).
    + split; [by intros ?%elem_of_empty|]. by intros ?%HO.
    + destruct (_ !! j) as [g|] eqn:E; [|done]. apply HO in E. by subst.
  - constructor; unfold bumps, waiting; rewrite ?start_total by done; rewrite ?length_fmap; try done.
    + intros j g x Hj. apply start_idle in Hj. by simplify_eq.
    + intros _ j g x Hj. apply start_idle in Hj. by simplify_eq.
    + intros j g Hj. apply start_idle in Hj. by simplify_eq.
    + rewrite Z.add_0_r. symmetry. by apply wrap_id.
    + intros i. by rewrite fr_sleep0.
Qed.

Lemma cast_inv s' ps : pool_reach (s, cast o n m c f ts) (s', ps) -> exists Γ, inv s' Γ /\ verified inv ends ps Γ.
Proof.
  intros Hr. eapply pool_verified; [apply start_inv| |exact Hr]. unfold cast. split; [by rewrite length_fmap, length_imap|].
  intros j p g Hj Hg. apply start_idle in Hg as ->. rewrite list_lookup_imap in Hj. destruct (ts !! j) as [[pid r]|] eqn:E; simplify_eq/=.
  destruct Hf. eapply wpc_conseq; [apply actor_wp; try done|].
  - by apply (proj1 (Forall_lookup _ _) Halive j (pid, r)).
  - intros ->. unfold is_setter. by rewrite E.
  - intros [] g ->. by exists (pid, r).
Qed.

End pool.

(** C4: no wake-up of the waiter is lost on macOS.  Threads of living processes wait, with or
    without a timeout, until a word is set; others set it, without the lock, and then broadcast.
    However they interleave, once all setters have returned nobody sleeps on the condition, and
    as long as anybody sleeps on the mutex some other thread is neither finished nor asleep. *)
Theorem waiter_broadcast_wakes {K} `{!Ulock K, !UlockLaws K} o n m c f (ts : list (Z * role)) (s s' : umem K) ps :
  m <> c -> m <> f -> c <> f -> Z.of_nat (length ts) < 2 ^ 31 -> Forall (fun x => is_process_alive o x.1 = true) ts ->
  fresh m c s -> pool_reach (s, cast o n m c f ts) (s', ps) ->
  (exists j, is_setter ts j = true) -> (forall j, is_setter ts j = true -> ps !! j = Some (Ret tt)) ->
  (forall i, sleeps s' i <> Asleep (AppleCondition.seq_word c)) /\
  (forall i, sleeps s' i = Asleep (state_word m) ->
     exists j p, j <> i /\ ps !! j = Some p /\ (forall x, p <> Ret x) /\ forall b, sleeps s' j <> Asleep b).
Proof.
  intros mc mf cf Hlen Hal Hf Hr [j0 Hj0] Hdone.
  destruct (cast_inv o n m c f ts s mc mf cf Hf Hlen Hal s' ps Hr) as (Γ & [HI HC] & Hl & Hv).
  assert (forall j g, Γ !! j = Some g -> ps !! j = Some (Ret tt) -> exists x, ts !! j = Some x /\ g = done_role x.2) as Hend.
  { intros j g Hg Hp. by eapply (Hv j (Ret tt) g). }
  assert (forall j, is_setter ts j = true -> Γ !! j = Some (Out, CEnd)) as Hset.
  { intros j Hj. destruct (lookup_lt_is_Some_2 Γ j) as [g Hg]; [rewrite Hl; by eapply lookup_lt_Some, Hdone|].
    destruct (Hend _ _ Hg (Hdone _ Hj)) as ([pid r] & Hx & ->). unfold is_setter in Hj. rewrite Hx in Hj. by destruct r. }
  split.
  - intros i Hi. destruct (ci_asleep _ _ _ _ _ _ _ HC _ Hi) as [_ [Hb|(t & g & Ht)]].
    + pose proof (total_term (fun _ g => bump g.2) 0 Γ j0 _ ltac:(intros k [? x]; by destruct x) (Hset _ Hj0)) as H1.
      simpl in H1. change (1 <= bumps Γ) in H1. lia.
    + pose proof (ci_role _ _ _ _ _ _ _ HC _ _ _ Ht eq_refl) as Hs. rewrite (Hset _ Hs) in Ht. by simplify_eq.
  - intros i Hi. destruct (inv_sleeper o _ false s' _ i m HI (m_only m) Hi) as (j & g & (g' & -> & Hj)%list_lookup_fmap_Some & Hg & Hij & Hb).
    destruct (lookup_lt_is_Some_2 ps j) as [p Hpj]; [rewrite <- Hl; by eapply lookup_lt_Some|].
    exists j, p. repeat split; [done|done| |done]. intros [] ->. destruct (Hend _ _ Hj Hpj) as ([pid r] & _ & ->). by destruct r.
Qed.

Module relay.

(** Two threads wait, one of them for 1 s at most, and a third sets the word. *)
Definition ts : list (Z * role) := [(10, RWait 20 None); (10, RWait 21 (Some 1000)); (11, RSet)].

(** The waiters fall asleep on the condition, then the setter runs to its end. *)
Definition schedule : list (nat * bool) := replicate 30 (0%nat, false) ++ replicate 30 (1%nat, false) ++ replicate 30 (2%nat, false).
Definition halfway : umem table * list (prog (umem table) unit) := run_sched (take 60 schedule) (blank, cast duel.system 5 1 2 3 ts).
Definition final : umem table * list (prog (umem table) unit) := run_sched schedule (blank, cast duel.system 5 1 2 3 ts).

Lemma relay_reached : pool_reach (blank, cast duel.system 5 1 2 3 ts) (final.1, final.2).
Proof. exact (run_sched_reach schedule blank (cast duel.system 5 1 2 3 ts)). Qed.

Lemma relay_alive : Forall (fun x => is_process_alive duel.system x.1 = true) ts.
Proof. by repeat constructor. Qed.

Lemma setter_done j : is_setter ts j = true -> final.2 !! j = Some (Ret tt).
Proof. destruct j as [|[|[|j]]]; intros H; [discriminate H|discriminate H|by vm_compute|discriminate H]. Qed.

End relay.

Lemma waiter_broadcast_wakes_witness :
  (sleeps relay.halfway.1 0%nat = Asleep (2, 0) /\ sleeps relay.halfway.1 1%nat = Asleep (2, 0)) /\
  forall i, sleeps relay.final.1 i <> Asleep (2, 0).
Proof.
  split; [by vm_compute|].
  apply (waiter_broadcast_wakes duel.system 5 1 2 3 relay.ts blank relay.final.1 relay.final.2);
    [done|done|done|done|exact relay.relay_alive|by constructor|exact relay.relay_reached|by exists 2%nat|exact relay.setter_done].
Defined.
