(* ===== verification/Posix.v ===== *)
(** * POSIX shared memory

    [platform/posix.rs] and [shm.rs]: named segments with a trailing reference counter that counts
    the handles of all processes; the last one to be released removes the name.  The system calls are
    a parameter ([ShmOs]); [ShmLaws] states what they do.

    An object is named by a number.  Its memory is kept as 32-bit words at byte offsets divisible by
    4, which is all the port uses; a word never written reads 0.  A pointer to a mapping is the object
    mapped.  A descriptor is open in one process only, so one table serves all. *)
From S2P Require Import Prelude Atomics Abi ShmName Concurrent.

(** ** The system *)

(** [s_stray]: some access went outside of the object mapped. *)
Record shm_sys (K : Type) := mk_sys {
  s_names : gmap string nat;
  s_sizes : gmap nat Z;
  s_cells : gmap (nat * Z) Z;
  s_fds : gmap Z nat;
  s_clk : clock;
  s_stray : bool;
  s_kern : K;
}.
Arguments mk_sys {K} _ _ _ _ _ _ _.
Arguments s_names {K} _.
Arguments s_sizes {K} _.
Arguments s_cells {K} _.
Arguments s_fds {K} _.
Arguments s_clk {K} _.
Arguments s_stray {K} _.
Arguments s_kern {K} _.

Section fields.
Context {K : Type}.
Abbreviation S := (shm_sys K).
Definition s_names_f : field S (gmap string nat) := mk_field s_names (fun v s => mk_sys v (s_sizes s) (s_cells s) (s_fds s) (s_clk s) (s_stray s) (s_kern s)).
Definition s_sizes_f : field S (gmap nat Z) := mk_field s_sizes (fun v s => mk_sys (s_names s) v (s_cells s) (s_fds s) (s_clk s) (s_stray s) (s_kern s)).
Definition s_cells_f : field S (gmap (nat * Z) Z) := mk_field s_cells (fun v s => mk_sys (s_names s) (s_sizes s) v (s_fds s) (s_clk s) (s_stray s) (s_kern s)).
Definition s_fds_f : field S (gmap Z nat) := mk_field s_fds (fun v s => mk_sys (s_names s) (s_sizes s) (s_cells s) v (s_clk s) (s_stray s) (s_kern s)).
Definition s_clk_f : field S clock := mk_field s_clk (fun v s => mk_sys (s_names s) (s_sizes s) (s_cells s) (s_fds s) v (s_stray s) (s_kern s)).
Definition s_stray_f : field S bool := mk_field s_stray (fun v s => mk_sys (s_names s) (s_sizes s) (s_cells s) (s_fds s) (s_clk s) v (s_kern s)).
Definition s_kern_f : field S K := mk_field s_kern (fun v s => mk_sys (s_names s) (s_sizes s) (s_cells s) (s_fds s) (s_clk s) (s_stray s) v).
Definition cell (o : nat) (off : Z) : field S Z := sub_field s_cells_f (at_key (o, off)).
End fields.

Definition EEXIST : Z := 17.
Definition ENOENT : Z := 2.
Definition SHM_EINVAL : Z := 22.

(** The calls; [Err] is the errno.  [sys_shm_open excl]: O_RDWR, with O_CREAT and O_EXCL or without. *)
Class ShmOs (K : Type) := {
  sys_shm_open : bool -> string -> shm_sys K -> result Z Z * shm_sys K;
  sys_fchmod : Z -> Z -> shm_sys K -> result unit Z * shm_sys K;
  sys_ftruncate : Z -> Z -> shm_sys K -> result unit Z * shm_sys K;
  sys_fstat : Z -> shm_sys K -> result Z Z * shm_sys K;
  sys_mmap : Z -> Z -> shm_sys K -> result nat Z * shm_sys K;
  sys_munmap : nat -> Z -> shm_sys K -> result unit Z * shm_sys K;
  sys_close : Z -> shm_sys K -> result unit Z * shm_sys K;
  sys_shm_unlink : string -> shm_sys K -> result unit Z * shm_sys K;
}.

Section laws.
Context {K : Type} `{!ShmOs K}.
Implicit Type s : shm_sys K.

(** Equal but for the clock and what the kernel keeps for itself. *)
Definition alike s s' : Prop :=
  s_names s' = s_names s /\ s_sizes s' = s_sizes s /\ s_cells s' = s_cells s /\ s_fds s' = s_fds s /\ s_stray s' = s_stray s.

(** A call that changes what [f] says when it succeeds, and nothing when it fails.  Closing a
    descriptor gives it up either way. *)
Definition does {A} (c : shm_sys K -> result A Z * shm_sys K) (f : A -> shm_sys K -> shm_sys K -> Prop) : Prop :=
  forall s, match (c s).1 with Ok a => f a s (c s).2 | Err _ => alike s (c s).2 end.

Class ShmLaws : Prop := {
  law_create n : does (sys_shm_open true n) (fun fd s s' => exists o,
    s_names s !! n = None /\ s_sizes s !! o = None /\ s_fds s !! fd = None /\
    alike (fset s_names_f (<[n := o]> (s_names s)) (fset s_sizes_f (<[o := 0]> (s_sizes s)) (fset s_fds_f (<[fd := o]> (s_fds s)) s))) s');
  law_open n : does (sys_shm_open false n) (fun fd s s' => exists o,
    s_names s !! n = Some o /\ s_fds s !! fd = None /\ alike (fset s_fds_f (<[fd := o]> (s_fds s)) s) s');
  law_fchmod fd mode : does (sys_fchmod fd mode) (fun _ => alike);
  law_ftruncate fd len : does (sys_ftruncate fd len) (fun _ s s' => exists o,
    s_fds s !! fd = Some o /\
    alike (fset s_sizes_f (<[o := len]> (s_sizes s)) (fset s_cells_f (filter (fun '((o', off), _) => o' <> o \/ off < len) (s_cells s)) s)) s');
  law_fstat fd : does (sys_fstat fd) (fun len s s' => exists o, s_fds s !! fd = Some o /\ s_sizes s !! o = Some len /\ alike s s');
  law_mmap fd len : does (sys_mmap fd len) (fun o s s' => s_fds s !! fd = Some o /\ alike s s');
  law_munmap o len : does (sys_munmap o len) (fun _ => alike);
  law_close fd s : alike (fset s_fds_f (delete fd (s_fds s)) s) (sys_close fd s).2;
  law_unlink n : does (sys_shm_unlink n) (fun _ s s' => is_Some (s_names s !! n) /\ alike (fset s_names_f (delete n (s_names s)) s) s');
}.

End laws.
Arguments ShmLaws K {_}.

(** ** Layout *)

Definition ALIGN : Z := 4.

(** usize arithmetic wraps around. *)
Definition calc_size (user_size : Z) : Z :=
  let aligned := wrap 64 ((wrapping_sub 64 user_size 1 / ALIGN + 1) * ALIGN) in wrapping_add 64 aligned 4.

(** [CString::new] fails on an interior NUL. *)
Definition c_string (s : string) : io_result string :=
  if existsb (Z.eqb 0) (bytes_of_string s) then Err (mk_io_error EkInvalidInput "nul byte found") else Ok s.

Inductive ShmMode := Create | Open | CreateOrOpen.

#[export] Instance ShmMode_eq_dec : EqDecision ShmMode.
Proof. solve_decision. Defined.

(** [mem = None]: the null pointer of a released handle. *)
Record PlatformShm := mk_PlatformShm { mem : option nat; size : Z; user_size : Z; name : string; prev_ref : Z }.

Definition SHM_SIZE_WAIT_TIMEOUT : Z := 2000 * MILLI.

(** A panic of the callee is one of the caller; an error is returned. *)
Notation "x ←!? p ; q" :=
  (mbind (fun r => match r with Returned (Ok x) => q | Returned (Err e') => Ret (Returned (Err e')) | Panicked => Ret Panicked end) p)
  (at level 20, p at level 100, q at level 200, only parsing) : stdpp_scope.

Section port.
Context {K : Type} `{!ShmOs K} (t : target).
Abbreviation M := (prog (shm_sys K)).

(** ** Accesses through a mapping

    One that leaves the object does not return: the process is killed. *)
Definition access {X} (o : nat) (off : Z) (f : shm_sys K -> X * shm_sys K) : M X :=
  r ← act (fun s =>
    if (0 <=? off) && (off + 4 <=? default 0 (s_sizes s !! o)) then (Some (f s).1, (f s).2)
    else (None, fset s_stray_f true s));
  match r with Some x => Ret x | None => Spin end.

Definition read (o : nat) (off : Z) : M Z := access o off (fun s => (fget (cell o off) s, s)).
Definition write (o : nat) (off v : Z) : M unit := access o off (fun s => (tt, fset (cell o off) v s)).

(** The counter of the handles, at the end of a mapping of [total_size] bytes. *)
Definition acc_of (total_size : Z) : Z := total_size - 4.

(** [fetch_add] and [fetch_sub] on the [AtomicI32]. *)
Definition acc_add (o : nat) (total_size d : Z) : M Z :=
  v ← access o (acc_of total_size) (fun s =>
    let v := fget (cell o (acc_of total_size)) s in (v, fset (cell o (acc_of total_size)) (wrapping_add 32 v d) s));
  Ret (i32 v).

(** ** [PlatformShm] *)

Definition unlink_posix_shm_name_if_exists (posix_name : string) : M unit :=
  match c_string posix_name with
  | Err _ => Ret tt
  | Ok c_name => _ ← act (sys_shm_unlink c_name); Ret tt
  end.

Definition ftruncate_to_size (fd total_size : Z) : M (io_result unit) :=
  r ← act (sys_ftruncate fd total_size);
  match r with
  | Ok _ => Ret (Ok tt)
  | Err err =>
      if err =? SHM_EINVAL then
        st ← act (sys_fstat fd);
        match st with
        | Ok st_size => if total_size <=? st_size then Ret (Ok tt) else Ret (Err (os_error err))
        | Err _ => Ret (Err (os_error err))
        end
      else Ret (Err (os_error err))
  end.

Fixpoint wait_until_sized_loop (n : nat) (fd total_size deadline : Z) : M bool :=
  match n with
  | O => Spin
  | Datatypes.S n =>
      st ← act (sys_fstat fd);
      if (match st with Ok st_size => total_size <=? st_size | Err _ => false end) then Ret true
      else
        tm ← now s_clk_f;
        if deadline <=? tm then Ret false else wait_until_sized_loop n fd total_size deadline
  end.

Definition wait_until_sized (n : nat) (fd total_size : Z) : M bool :=
  tm ← now s_clk_f;
  wait_until_sized_loop n fd total_size (tm + SHM_SIZE_WAIT_TIMEOUT).

Definition mmap_and_finish (fd total_size user_size : Z) (posix_name : string) : M (io_result PlatformShm) :=
  m ← act (sys_mmap fd total_size);
  _ ← act (sys_close fd);
  match m with
  | Err e => Ret (Err (os_error e))
  | Ok o =>
      prev ← acc_add o total_size 1;
      Ret (Ok (mk_PlatformShm (Some o) total_size user_size posix_name prev))
  end.

(** The descriptor, and whether the object is ours to size. *)
Definition open_fd (c_name : string) (mode : ShmMode) : M (io_result (Z * bool)) :=
  match mode with
  | Create =>
      f ← act (sys_shm_open true c_name);
      Ret (match f with Ok fd => Ok (fd, true) | Err e => Err (os_error e) end)
  | Open =>
      f ← act (sys_shm_open false c_name);
      Ret (match f with Ok fd => Ok (fd, false) | Err e => Err (os_error e) end)
  | CreateOrOpen =>
      f ← act (sys_shm_open true c_name);
      match f with
      | Ok fd => Ret (Ok (fd, true))
      | Err e =>
          if negb (e =? EEXIST) then Ret (Err (os_error e))
          else
            f2 ← act (sys_shm_open false c_name);
            Ret (match f2 with Ok fd => Ok (fd, false) | Err e => Err (os_error e) end)
      end
  end.

(** The object gets its size: from us, or from its creator, or from us when its creator is gone. *)
Definition size_fd (n : nat) (fd : Z) (need_truncate : bool) (mode : ShmMode) (total_size : Z) : M (io_result unit) :=
  if need_truncate then ftruncate_to_size fd total_size
  else if bool_decide (mode = CreateOrOpen) then
    sized ← wait_until_sized n fd total_size;
    if (sized : bool) then Ret (Ok tt) else ftruncate_to_size fd total_size
  else Ret (Ok tt).

Definition PERMS : Z := 438.

Definition acquire (n : nat) (name : string) (user_size : Z) (mode : ShmMode) : M (outcome (io_result PlatformShm)) :=
  if bool_decide (name = "") then Ret (Returned (Err (mk_io_error EkInvalidInput "name is empty")))
  else if user_size =? 0 then Ret (Returned (Err (mk_io_error EkInvalidInput "size is 0")))
  else
    match make_shm_name t name with
    | None => Ret Panicked
    | Some posix_name =>
        match c_string posix_name with
        | Err e => Ret (Returned (Err e))
        | Ok c_name =>
            let total_size := calc_size user_size in
            r ← open_fd c_name mode;
            match r with
            | Err e => Ret (Returned (Err e))
            | Ok (fd, need_truncate) =>
                _ ← act (sys_fchmod fd PERMS);
                sized ← size_fd n fd need_truncate mode total_size;
                match sized with
                | Err err => _ ← act (sys_close fd); Ret (Returned (Err err))
                | Ok _ => h ← mmap_and_finish fd total_size user_size posix_name; Ret (Returned h)
                end
            end
        end
    end.

Definition can_grow : bool := negb (macos t).

(** The handle after the call, and its result. *)
Definition grow (h : PlatformShm) (new_user_size : Z) : M (io_result unit * PlatformShm) :=
  if new_user_size <=? user_size h then Ret (Ok tt, h)
  else if negb can_grow then
    Ret (Err (mk_io_error EkUnsupported "shared memory growth is unsupported on this platform"), h)
  else
    match c_string (name h) with
    | Err e => Ret (Err e, h)
    | Ok c_name =>
        f ← act (sys_shm_open false c_name);
        match f with
        | Err e => Ret (Err (os_error e), h)
        | Ok fd =>
            let total_size := calc_size new_user_size in
            st ← act (sys_fstat fd);
            match st with
            | Err e => _ ← act (sys_close fd); Ret (Err (os_error e), h)
            | Ok st_size =>
                sized ← (if st_size <? total_size then ftruncate_to_size fd total_size else Ret (Ok tt));
                match sized with
                | Err err => _ ← act (sys_close fd); Ret (Err err, h)
                | Ok _ =>
                    m ← act (sys_mmap fd total_size);
                    _ ← act (sys_close fd);
                    match m with
                    | Err e => Ret (Err (os_error e), h)
                    | Ok o =>
                        prev ← acc_add o total_size 1;
                        match mem h with
                        | None => Spin
                        | Some old =>
                            _ ← acc_add old (size h) (-1);
                            _ ← act (sys_munmap old (size h));
                            Ret (Ok tt, mk_PlatformShm (Some o) total_size new_user_size (name h) prev)
                        end
                    end
                end
            end
        end
    end.

Definition as_ptr (h : PlatformShm) : option nat := mem h.
Definition as_mut_ptr (h : PlatformShm) : option nat := mem h.
Definition mapped_size (h : PlatformShm) : Z := size h.
Definition prev_ref_count (h : PlatformShm) : Z := prev_ref h.

Definition ref_count (h : PlatformShm) : M Z :=
  match mem h with
  | None => Ret 0
  | Some o => if size h =? 0 then Ret 0 else v ← read o (acc_of (size h)); Ret (i32 v)
  end.

Definition unlink (h : PlatformShm) : M unit := unlink_posix_shm_name_if_exists (name h).

Definition unlink_by_name (n : string) : M (outcome unit) :=
  match make_shm_name t n with
  | None => Ret Panicked
  | Some posix_name => _ ← unlink_posix_shm_name_if_exists posix_name; Ret (Returned tt)
  end.

Definition release_mapping (h : PlatformShm) : M (Z * PlatformShm) :=
  match mem h with
  | None => Ret (-1, h)
  | Some o =>
      prev ← acc_add o (size h) (-1);
      _ ← act (sys_munmap o (size h));
      _ ← (if prev <=? 1 then unlink h else Ret tt);
      Ret (prev, mk_PlatformShm None (size h) (user_size h) (name h) (prev_ref h))
  end.

(** [release], whose drop of the null handle does nothing more, and [drop]. *)
Definition release (h : PlatformShm) : M Z := r ← release_mapping h; _ ← release_mapping r.2; Ret r.1.
Definition drop (h : PlatformShm) : M unit := _ ← release_mapping h; Ret tt.

End port.

(** ** [ShmHandle] *)

Module ShmHandle.

Inductive ShmOpenMode := Create | Open | CreateOrOpen.

Definition platform_mode (mode : ShmOpenMode) : ShmMode :=
  match mode with Create => Posix.Create | Open => Posix.Open | CreateOrOpen => Posix.CreateOrOpen end.

Record ShmHandle := mk_ShmHandle { inner : PlatformShm }.

Section handle.
Context {K : Type} `{!ShmOs K} (t : target).
Abbreviation M := (prog (shm_sys K)).

Definition acquire (n : nat) (name : string) (size : Z) (mode : ShmOpenMode) : M (outcome (io_result ShmHandle)) :=
  inner ←!? Posix.acquire t n name size (platform_mode mode);
  Ret (Returned (Ok (mk_ShmHandle inner))).

Definition get (h : ShmHandle) : option nat := as_mut_ptr (inner h).
Definition ref_count (h : ShmHandle) : M Z := Posix.ref_count (inner h).
Definition can_grow : bool := Posix.can_grow t.
Definition grow (h : ShmHandle) (new_user_size : Z) : M (io_result unit * ShmHandle) :=
  r ← Posix.grow t (inner h) new_user_size;
  Ret (r.1, mk_ShmHandle r.2).
Definition unlink (h : ShmHandle) : M unit := Posix.unlink (inner h).
Definition unlink_by_name (name : string) : M (outcome unit) := Posix.unlink_by_name t name.
Definition clear_storage (name : string) : M (outcome unit) := Posix.unlink_by_name t name.

End handle.
End ShmHandle.
