(* ===== verification/PosixShm.v ===== *)
(** * The reference counter of shared-memory segments under interleaving

    Threads of any processes that open handles of one segment and drop some of them, interleaved call
    by call and access by access.  The counter at the end of the segment is the number of handles,
    whoever created the object and whoever sized it; no access leaves the object, no descriptor stays
    open.  As long as somebody keeps a handle, everybody shares one object. *)
From S2P Require Import Prelude Atomics Abi ShmName Concurrent Posix.

(** ** Clients *)

Inductive hop := HAcquire (mode : ShmMode) | HDrop (k : nat).

(** How often it opens, and whether it only ever does that. *)
Fixpoint acquires (ops : list hop) : Z :=
  match ops with [] => 0 | HAcquire _ :: ops => 1 + acquires ops | HDrop _ :: ops => acquires ops end.

Section clients.
Context {K : Type} `{!ShmOs K} (t : target) (n : nat) (nm : string) (usize : Z).
Abbreviation M := (prog (shm_sys K)).

(** What a thread has open at the end. *)
Fixpoint user (ops : list hop) (hs : list PlatformShm) : M (list PlatformShm) :=
  match ops with
  | [] => Ret hs
  | HAcquire mode :: ops =>
      r ← acquire t n nm usize mode;
      match r with Returned (Ok h) => user ops (hs ++ [h]) | _ => user ops hs end
  | HDrop k :: ops =>
      match hs !! k with
      | Some h => _ ← drop h; user ops (delete k hs)
      | None => user ops hs
      end
  end.

Definition users (ts : list (list hop)) : list (M (list PlatformShm)) := (fun ops => user ops []) <$> ts.

End clients.

(** ** The invariant

    A thread has a descriptor of an object, which it may know to be sized; has it mapped; or neither.
    [hg_hs]: its handles, by object and previous count; [hg_left]: how many it may still open. *)
Inductive hphase := HIdle | HFd (fd : Z) (o : nat) (sized : bool) | HMap (o : nat).

Record hghost := mk_hghost { hg_ph : hphase; hg_hs : list (nat * Z); hg_left : Z }.

Fixpoint tally {A} (f : A -> Z) (l : list A) : Z := match l with [] => 0 | x :: l => f x + tally f l end.

Definition on (o : nat) (h : nat * Z) : Z := if decide (h.1 = o) then 1 else 0.
Definition first_on (o : nat) (h : nat * Z) : Z := if decide (h = (o, 0)) then 1 else 0.

Definition held1 (o : nat) (g : hghost) : Z := tally (on o) (hg_hs g).
Definition first1 (o : nat) (g : hghost) : Z := tally (first_on o) (hg_hs g).
Definition room1 (g : hghost) : Z := Z.of_nat (length (hg_hs g)) + hg_left g.

Definition held (o : nat) (Γ : list hghost) : Z := total (fun _ => held1 o) 0 Γ.
Definition first (o : nat) (Γ : list hghost) : Z := total (fun _ => first1 o) 0 Γ.

(** The objects a thread refers to. *)
Definition refers (g : hghost) (o : nat) : Prop :=
  match hg_ph g with HIdle => False | HFd _ o' _ | HMap o' => o' = o end \/ exists p, (o, p) ∈ hg_hs g.

Definition owns_fd (g : hghost) (fd : Z) (o : nat) : Prop := exists b, hg_ph g = HFd fd o b.

Lemma tally_app {A} (f : A -> Z) l k : tally f (l ++ k) = tally f l + tally f k.
Proof. induction l as [|x l IH]; simpl; [done|]. rewrite IH. lia. Qed.

Lemma tally_delete {A} (f : A -> Z) l k x : l !! k = Some x -> tally f (delete k l) = tally f l - f x.
Proof.
  revert k. induction l as [|y l IH]; intros k Hk; [done|]. destruct k as [|k]; simpl in *; [simplify_eq; lia|].
  change (delete (S k) (y :: l)) with (y :: delete k l). simpl. rewrite (IH _ Hk). lia.
Qed.

Lemma tally_range {A} (f : A -> Z) l : (forall x, 0 <= f x <= 1) -> 0 <= tally f l <= Z.of_nat (length l).
Proof. intros H. induction l as [|x l IH]; simpl; [lia|]. specialize (H x). lia. Qed.

Lemma tally_le {A} (f f' : A -> Z) l : (forall x, x ∈ l -> f x <= f' x) -> tally f l <= tally f' l.
Proof.
  intros H. induction l as [|x l IH]; simpl; [lia|]. pose proof (H x ltac:(left)). assert (tally f l <= tally f' l); [|lia].
  apply IH. intros y Hy. apply H. by right.
Qed.

Section invariant.
Context {K : Type} `{!ShmOs K} (nm : string) (tsize : Z) (fds0 : gmap Z nat).

(** [base]: the handles of others; [pin]: an object somebody else keeps a handle of; [keep]: nobody
    drops a handle; [ours]: an object of this segment, or one still to be created. *)
Context (base : nat -> Z) (pin : option nat) (keep : bool) (ours : nat -> Prop).
Implicit Types (s : shm_sys K) (Γ : list hghost).

Definition counter s (o : nat) : Z := s_cells s !!! (o, acc_of tsize).

Definition stable : Prop := is_Some pin \/ keep = true.

Definition ghost_ok s (g : hghost) : Prop :=
  0 <= hg_left g /\
  (match hg_ph g with
   | HIdle => True
   | HFd fd o b => s_fds s !! fd = Some o /\ fds0 !! fd = None /\ (if b then s_sizes s !! o = Some tsize else is_Some (s_sizes s !! o))
   | HMap o => s_sizes s !! o = Some tsize
   end) /\
  (forall o p, (o, p) ∈ hg_hs g -> s_sizes s !! o = Some tsize /\ base o <= p) /\
  forall o, refers g o -> ours o.

Record shm_inv s Γ : Prop := {
  hi_base o : ours o -> 0 <= base o;
  hi_room o : ours o -> base o + total (fun _ => room1) 0 Γ < 2 ^ 31;
  hi_fresh o : s_sizes s !! o = None -> ours o;
  hi_counter o : ours o -> counter s o = base o + held o Γ;
  hi_sizes o z : ours o -> s_sizes s !! o = Some z -> z = 0 \/ z = tsize;
  hi_ghost j g : Γ !! j = Some g -> ghost_ok s g;
  hi_fd i j g g' fd o o' : Γ !! i = Some g -> Γ !! j = Some g' -> owns_fd g fd o -> owns_fd g' fd o' -> i = j;
  hi_kept fd o : fds0 !! fd = Some o -> s_fds s !! fd = Some o;
  hi_fds fd o : s_fds s !! fd = Some o -> fds0 !! fd = Some o \/ exists j g, Γ !! j = Some g /\ owns_fd g fd o;
  hi_stray : s_stray s = false;
  hi_named o : s_names s !! nm = Some o -> ours o /\ is_Some (s_sizes s !! o);
  hi_stable : stable -> forall j g o, Γ !! j = Some g -> refers g o -> s_names s !! nm = Some o;
  hi_pin o : pin = Some o -> s_names s !! nm = Some o /\ s_sizes s !! o = Some tsize /\ 1 <= base o;
  hi_first : keep = true -> forall o, ours o -> base o = 0 /\ first o Γ = Z.min 1 (held o Γ);
}.

Lemma held_move Γ j g g' o : Γ !! j = Some g -> held o (<[j := g']> Γ) = held o Γ - held1 o g + held1 o g'.
Proof. intros Hj. unfold held. by rewrite (total_insert _ _ _ _ _ _ Hj). Qed.

Lemma first_move Γ j g g' o : Γ !! j = Some g -> first o (<[j := g']> Γ) = first o Γ - first1 o g + first1 o g'.
Proof. intros Hj. unfold first. by rewrite (total_insert _ _ _ _ _ _ Hj). Qed.

(** Thread [j] moves from [g] to [g']. *)
Lemma shm_move s s' Γ j g g' :
  shm_inv s Γ -> Γ !! j = Some g ->
  room1 g' <= room1 g ->
  (forall o, counter s' o = counter s o - held1 o g + held1 o g') ->
  (forall o z, s_sizes s !! o = Some z -> s_sizes s' !! o = Some z \/ s_sizes s' !! o = Some tsize) ->
  (forall o z, ours o -> s_sizes s' !! o = Some z -> z = 0 \/ z = tsize) ->
  ghost_ok s' g' ->
  (forall fd o, s_fds s' !! fd = Some o <-> (s_fds s !! fd = Some o /\ ~ owns_fd g fd o) \/ owns_fd g' fd o) ->
  (forall fd o, owns_fd g' fd o -> owns_fd g fd o \/ s_fds s !! fd = None) ->
  s_stray s' = false ->
  (forall o, s_names s' !! nm = Some o -> ours o /\ is_Some (s_sizes s' !! o)) ->
  (stable -> (forall o, s_names s !! nm = Some o -> s_names s' !! nm = Some o) /\ forall o, refers g' o -> refers g o \/ s_names s' !! nm = Some o) ->
  (keep = true -> forall o, ours o -> first o Γ - first1 o g + first1 o g' = Z.min 1 (held o Γ - held1 o g + held1 o g')) ->
  shm_inv s' (<[j := g']> Γ).
Proof.
  intros [] Hj Hroom Hc Hgrow Hz Hg' Hfd Hnew Hst Hnm Hstab Hfirst.
  assert (forall i gi fd o, i <> j -> Γ !! i = Some gi -> owns_fd gi fd o -> s_fds s !! fd = Some o /\ fds0 !! fd = None /\ forall o', ~ owns_fd g fd o') as Hown.
  { intros i gi fd o Hij Hi [b Hb]. destruct (hi_ghost0 _ _ Hi) as (_ & Hp & _). rewrite Hb in Hp. destruct Hp as (H1 & H2 & _).
    split; [done|]. split; [done|]. intros o' Ho'. apply Hij. eapply hi_fd0; [done|exact Hj| |done]. by exists b. }
  assert (forall fd o, owns_fd g fd o -> s_fds s !! fd = Some o /\ fds0 !! fd = None) as Hmine.
  { intros fd o [b Hb]. destruct (hi_ghost0 _ _ Hj) as (_ & Hp & _). rewrite Hb in Hp. tauto. }
  assert (forall fd o, owns_fd g' fd o -> s_fds s' !! fd = Some o) as Hmine' by (intros; apply Hfd; by right).
  constructor; auto.
  - intros o Ho. rewrite (total_insert _ _ _ _ _ _ Hj). specialize (hi_room0 o Ho). lia.
  - intros o Ho. apply hi_fresh0. destruct (s_sizes s !! o) as [z|] eqn:E; [|done]. destruct (Hgrow _ _ E); congruence.
  - intros o Ho. rewrite Hc, hi_counter0, (held_move _ _ _ _ _ Hj) by done. lia.
  - intros i gi. rewrite (lookup_moved _ _ _ _ _ Hj). case_decide as E; [by intros [= <-]|]. intros Hi.
    destruct (hi_ghost0 _ _ Hi) as (H0 & Hp & Hh & Hou). split; [done|]. split; [|split; [|done]].
    + destruct (hg_ph gi) as [|fd o b|o] eqn:Eg; [done| |].
      * destruct Hp as (Hf & Hf0 & Hs). destruct (Hown i gi fd o E Hi) as (_ & _ & Hno); [by exists b|].
        split; [apply Hfd; left; split; [done|apply Hno]|]. split; [done|].
        destruct b; [by destruct (Hgrow _ _ Hs)|]. destruct Hs as [z Hs]. destruct (Hgrow _ _ Hs); eauto.
      * by destruct (Hgrow _ _ Hp).
    + intros o p Hop. destruct (Hh _ _ Hop) as [Hs Hb]. split; [|done]. by destruct (Hgrow _ _ Hs).
  - intros i k gi gk fd o o'. rewrite !(lookup_moved _ _ _ _ _ Hj). repeat case_decide; subst; intros Hi Hk Ho Ho'; simplify_eq; [done| | |by eapply hi_fd0].
    + destruct (Hown k gk fd o' ltac:(done) Hk Ho') as (Hf & _ & Hno). destruct (Hnew _ _ Ho) as [Hg|Hg]; [by apply Hno in Hg|congruence].
    + destruct (Hown i gi fd o ltac:(done) Hi Ho) as (Hf & _ & Hno). destruct (Hnew _ _ Ho') as [Hg|Hg]; [by apply Hno in Hg|congruence].
  - intros fd o Hf. apply Hfd. left. split; [by apply hi_kept0|]. intros Ho. destruct (Hmine _ _ Ho). congruence.
  - intros fd o [[Hf Hno]|Ho]%Hfd.
    + destruct (hi_fds0 _ _ Hf) as [?|(i & gi & Hi & Ho)]; [by left|right]. exists i, gi. rewrite (lookup_moved _ _ _ _ _ Hj), decide_False; [done|].
      intros ->. by simplify_eq.
    + right. exists j, g'. by rewrite (lookup_moved _ _ _ _ _ Hj), decide_True.
  - intros Hs i gi o. destruct (Hstab Hs) as [Hk Hr]. rewrite (lookup_moved _ _ _ _ _ Hj). case_decide as E; [|eauto].
    intros [= <-] [Ho|Ho]%Hr; [eauto|done].
  - intros o Ho. destruct (hi_pin0 _ Ho) as (H1 & H2 & H3). destruct (Hstab ltac:(left; eauto)) as [Hk _]. split; [eauto|]. split; [|done].
    by destruct (Hgrow _ _ H2).
  - intros Hk o Ho. split; [by apply hi_first0|]. rewrite (held_move _ _ _ _ _ Hj), (first_move _ _ _ _ _ Hj). eauto.
Qed.

End invariant.

(** ** The operations *)

Definition in_phase (ph : hphase) (g : hghost) : hghost := mk_hghost ph (hg_hs g) (hg_left g).

Section operations.
Context {K : Type} `{!ShmOs K, !ShmLaws K} (t : target) (n : nat) (nm pn : string) (usize : Z) (fds0 : gmap Z nat).
Context (base : nat -> Z) (pin : option nat) (keep : bool) (ours : nat -> Prop).
Context (Hname : nm <> "") (Hposix : make_shm_name t nm = Some pn) (Hnul : c_string pn = Ok pn) (Hsize : 0 < usize).
Implicit Types (s : shm_sys K) (Γ : list hghost).
Abbreviation M := (prog (shm_sys K)).
Abbreviation tsize := (calc_size usize).
Context (Hroomy : 4 < tsize).
Abbreviation inv := (shm_inv (K:=K) pn tsize fds0 base pin keep ours).
Abbreviation wp := (wpc inv).

Lemma inv_alike s s' Γ : inv s Γ -> alike s s' -> inv s' Γ.
Proof.
  intros [] (En & Es & Ec & Ef & Et). constructor; unfold counter, ghost_ok in *; intros; rewrite ?En, ?Es, ?Ec, ?Ef, ?Et in *; eauto.
Qed.

(** A call that changes nothing. *)
Lemma wp_quiet {A X} j (c : shm_sys K -> X * shm_sys K) (h : X -> M A) g Q :
  (forall s, alike s (c s).2) -> (forall x, wp j (h x) g Q) -> wp j (act c ≫= h) g Q.
Proof. intros Hc Hh. apply wpc_silent; [|done]. intros s Γ HI Hj. by eapply inv_alike. Qed.

Lemma alike_refl s : alike s s.
Proof. done. Qed.

Lemma does_alike {X} (c : shm_sys K -> result X Z * shm_sys K) : does c (fun _ => alike) -> forall s, alike s (c s).2.
Proof. intros H s. specialize (H s). by destruct (c s).1. Qed.

(** A step that leaves the handles alone. *)
Lemma shm_phase s s' Γ j g ph :
  inv s Γ -> Γ !! j = Some g ->
  (forall o, counter tsize s' o = counter tsize s o) ->
  (forall o z, s_sizes s !! o = Some z -> s_sizes s' !! o = Some z \/ s_sizes s' !! o = Some tsize) ->
  (forall o z, ours o -> s_sizes s' !! o = Some z -> z = 0 \/ z = tsize) ->
  ghost_ok tsize fds0 base ours s' (in_phase ph g) ->
  (forall fd o, s_fds s' !! fd = Some o <-> (s_fds s !! fd = Some o /\ ~ owns_fd g fd o) \/ owns_fd (in_phase ph g) fd o) ->
  (forall fd o, owns_fd (in_phase ph g) fd o -> owns_fd g fd o \/ s_fds s !! fd = None) ->
  s_stray s' = s_stray s ->
  (forall o, s_names s' !! pn = Some o -> ours o /\ is_Some (s_sizes s' !! o)) ->
  (stable pin keep -> (forall o, s_names s !! pn = Some o -> s_names s' !! pn = Some o) /\
     forall o, refers (in_phase ph g) o -> refers g o \/ s_names s' !! pn = Some o) ->
  inv s' (<[j := in_phase ph g]> Γ).
Proof.
  intros HI Hj Hc H1 H2 H3 H4 H5 Ht H6 H7. pose proof HI as []. eapply shm_move; try done.
  - intros o. rewrite Hc. unfold held1. simpl. lia.
  - by rewrite Ht.
  - intros Hk o Ho. destruct (hi_first0 Hk o Ho) as [_ E]. unfold first1, held1. simpl. lia.
Qed.

Lemma ghost_sizes s s' ph ph' g :
  ghost_ok tsize fds0 base ours s (in_phase ph g) ->
  (forall o z, s_sizes s !! o = Some z -> s_sizes s' !! o = Some z \/ s_sizes s' !! o = Some tsize) ->
  (match ph' with
   | HIdle => True
   | HFd fd o b => s_fds s' !! fd = Some o /\ fds0 !! fd = None /\ (if b then s_sizes s' !! o = Some tsize else is_Some (s_sizes s' !! o))
   | HMap o => s_sizes s' !! o = Some tsize
   end) -> (match ph' with HIdle => True | HFd _ o _ | HMap o => ours o end) -> ghost_ok tsize fds0 base ours s' (in_phase ph' g).
Proof.
  intros (H0 & _ & Hh & Ho) Hz Hp Hp'. split; [done|]. split; [done|]. split.
  2:{ intros o [E|E]; [|apply Ho; by right]. destruct ph'; simpl in E; by subst. }
  intros o p Hop. destruct (Hh _ _ Hop) as [Hs Hb]. split; [|done]. by destruct (Hz _ _ Hs).
Qed.

Lemma in_phase_id g : in_phase (hg_ph g) g = g.
Proof. by destruct g. Qed.

Lemma not_owning g fd o : hg_ph g = HIdle -> ~ owns_fd g fd o.
Proof. by intros E [b Hb]; rewrite E in Hb. Qed.

(** A descriptor of [o] is opened. *)
Lemma inv_opens s s' Γ j g fd o b :
  inv s Γ -> Γ !! j = Some g -> hg_ph g = HIdle -> s_fds s !! fd = None -> s_fds s' = <[fd := o]> (s_fds s) -> s_stray s' = s_stray s ->
  s_cells s' = s_cells s -> s_names s' !! pn = Some o -> (stable pin keep -> s_names s !! pn <> None -> s_names s !! pn = Some o) ->
  (forall o' z, s_sizes s !! o' = Some z -> s_sizes s' !! o' = Some z) -> (forall o' z, ours o' -> s_sizes s' !! o' = Some z -> z = 0 \/ z = tsize) -> ours o ->
  (if b : bool then s_sizes s' !! o = Some tsize else is_Some (s_sizes s' !! o)) ->
  inv s' (<[j := in_phase (HFd fd o b) g]> Γ).
Proof.
  intros HI Hj Hp Hfd Ef Et Ec Hn Hst Hz Hz' Hou Hb. pose proof HI as []. eapply shm_phase; try done.
  - intros o'. unfold counter. by rewrite Ec.
  - eauto.
  - eapply (ghost_sizes s _ (hg_ph g)); [rewrite in_phase_id; eauto|eauto| |done]. rewrite Ef, lookup_insert_eq. split; [done|]. split; [|done].
    destruct (fds0 !! fd) eqn:E; [|done]. apply hi_kept0 in E. congruence.
  - intros fd' o'. rewrite Ef. unfold owns_fd. simpl. destruct (decide (fd' = fd)) as [->|Hne].
    + rewrite lookup_insert_eq, Hfd. split; [intros [= <-]; right; by exists b|]. intros [[? _]|[b' [= <- <-]]]; done.
    + rewrite lookup_insert_ne by done. split; [|intros [[? _]|[b' [= <- <-]]]; done]. intros E. left. split; [done|]. intros [b' Hb']. by rewrite Hp in Hb'.
  - intros fd' o' [b' [= <- <-]]. by right.
  - intros o' Ho'. rewrite Hn in Ho'. simplify_eq. split; [done|]. destruct b; [by eexists|done].
  - intros Hs. split; [intros o' Ho'; rewrite <- Ho', Hn; symmetry; apply Hst; [done|congruence]|].
    intros o' [E|E]; [simpl in E; subst; by right|left; by right].
Qed.

Lemma open_fd_wp j mode g :
  hg_ph g = HIdle -> (mode = Open -> is_Some pin) ->
  wp j (open_fd pn mode) g (fun r g' =>
    match r with Err _ => g' = g | Ok (fd, need) => exists o b, g' = in_phase (HFd fd o b) g /\ (need = false -> mode <> CreateOrOpen -> b = true) end).
Proof.
  intros Hp Hm.
  assert (forall A (h : result Z Z -> M A) Q, (forall e, wp j (h (Err e)) g Q) ->
    (forall fd o b, (is_Some pin -> b = true) -> wp j (h (Ok fd)) (in_phase (HFd fd o b) g) Q) ->
    wp j (act (sys_shm_open false pn) ≫= h) g Q) as Hopen.
  { intros A h Q He Ho. apply wpc_act. intros s Γ HI Hj. pose proof (law_open pn s) as L. pose proof HI as [].
    destruct (sys_shm_open false pn s) as [[fd|e] s']; simpl in *.
    - destruct L as (o & Hn & Hf & En & Es & Ec & Ef & Et). simpl in *. exists (in_phase (HFd fd o (bool_decide (is_Some pin))) g).
      split; [|apply Ho; intros; by apply bool_decide_eq_true]. eapply inv_opens; try done; [congruence|by rewrite Es|by rewrite Es|by apply hi_named0|].
      rewrite Es. case_bool_decide as Hi; [|by apply hi_named0]. destruct Hi as [o0 ->]. destruct (hi_pin0 o0 eq_refl) as (Hn0 & ? & _). congruence.
    - exists g. rewrite list_insert_id by done. split; [by eapply inv_alike|done]. }
  assert (forall A (h : result Z Z -> M A) Q, (forall e, wp j (h (Err e)) g Q) ->
    (forall fd o b, wp j (h (Ok fd)) (in_phase (HFd fd o b) g) Q) -> wp j (act (sys_shm_open true pn) ≫= h) g Q) as Hcreate.
  { intros A h Q He Ho. apply wpc_act. intros s Γ HI Hj. pose proof (law_create pn s) as L. pose proof HI as [].
    destruct (sys_shm_open true pn s) as [[fd|e] s']; simpl in *.
    - destruct L as (o & Hn & Hz & Hf & En & Es & Ec & Ef & Et). simpl in *. exists (in_phase (HFd fd o false) g). split; [|apply Ho].
      eapply inv_opens; try done; rewrite ?En, ?Es.
      + apply lookup_insert_eq.
      + intros o' z Ho'. rewrite lookup_insert_ne; [done|]. congruence.
      + intros o' z Hou. rewrite lookup_insert_Some. intros [[_ <-]|[_ ?]]; [by left|eauto].
      + eauto.
      + rewrite lookup_insert_eq. by eexists.
    - exists g. rewrite list_insert_id by done. split; [by eapply inv_alike|done]. }
  destruct mode; cbn [open_fd].
  - apply Hcreate; [done|]. intros fd o b. by exists o, b.
  - apply Hopen; [done|]. intros fd o b Hb. exists o, b. split; [done|]. intros _ _. by apply Hb, Hm.
  - apply Hcreate; [|intros fd o b; by exists o, b]. intros e. destruct (negb _); [done|]. apply Hopen; [done|]. intros fd o b _. by exists o, b.
Qed.

(** The object behind the own descriptor. *)
Lemma fd_ours s Γ j g fd o b : inv s Γ -> Γ !! j = Some (in_phase (HFd fd o b) g) -> ours o.
Proof. intros [] Hj. destruct (hi_ghost0 _ _ Hj) as (_ & _ & _ & Ho). apply Ho. by left. Qed.

Lemma fd_object s Γ j g fd o b : inv s Γ -> Γ !! j = Some (in_phase (HFd fd o b) g) ->
  s_fds s !! fd = Some o /\ fds0 !! fd = None /\ if b then s_sizes s !! o = Some tsize else is_Some (s_sizes s !! o).
Proof. intros [] Hj. by destruct (hi_ghost0 _ _ Hj) as (_ & Hp & _). Qed.

(** The descriptor stays; more may be known about the object. *)
Lemma inv_fd s s' Γ j g fd o b b' :
  inv s Γ -> Γ !! j = Some (in_phase (HFd fd o b) g) ->
  (forall o, counter tsize s' o = counter tsize s o) ->
  (forall o' z, s_sizes s !! o' = Some z -> s_sizes s' !! o' = Some z \/ s_sizes s' !! o' = Some tsize) ->
  (forall o' z, ours o' -> s_sizes s' !! o' = Some z -> z = 0 \/ z = tsize) ->
  (if b' : bool then s_sizes s' !! o = Some tsize else is_Some (s_sizes s' !! o)) ->
  s_fds s' = s_fds s -> s_names s' = s_names s -> s_stray s' = s_stray s ->
  inv s' (<[j := in_phase (HFd fd o b') g]> Γ).
Proof.
  intros HI Hj Hc Hz Hz' Hb Ef En Et. destruct (fd_object _ _ _ _ _ _ _ HI Hj) as (Hf & Hf0 & Hs). pose proof HI as [].
  change (in_phase (HFd fd o b') g) with (in_phase (HFd fd o b') (in_phase (HFd fd o b) g)). eapply shm_phase; try done.
  - eapply (ghost_sizes s _ (HFd fd o b)); [by eapply hi_ghost0|done|by rewrite Ef|by eapply fd_ours].
  - intros fd' o'. rewrite Ef. unfold owns_fd. simpl. split.
    + intros E. destruct (decide (fd' = fd)) as [->|Hne]; [|left; split; [done|]; intros [? [= ]]; congruence]. rewrite Hf in E. simplify_eq. right. by exists b'.
    + intros [[? _]|[? [= <- <-]]]; done.
  - intros fd' o' [? [= <- <-]]. left. by exists b.
  - intros o' Ho'. rewrite En in Ho'. destruct (hi_named0 _ Ho') as [Hou [z E]]. split; [done|]. destruct (Hz _ _ E); eauto.
  - intros _. rewrite En. split; [done|]. intros o' [E|E]; left; [by left|by right].
Qed.

Lemma inv_truncates s s' Γ j g fd o b :
  inv s Γ -> Γ !! j = Some (in_phase (HFd fd o b) g) ->
  alike (fset s_sizes_f (<[o := tsize]> (s_sizes s)) (fset s_cells_f (filter (fun '((o', off), _) => o' <> o \/ off < tsize) (s_cells s)) s)) s' ->
  inv s' (<[j := in_phase (HFd fd o true) g]> Γ).
Proof.
  intros HI Hj (En & Es & Ec & Ef & Et). simpl in *. pose proof HI as []. eapply inv_fd; try done; rewrite ?Es.
  - intros o'. unfold counter. rewrite Ec, !lookup_total_alt. unfold acc_of. destruct (s_cells s !! (o', tsize - 4)) as [v|] eqn:E.
    + rewrite (map_lookup_filter_Some_2 _ _ _ _ E); [done|]. right. lia.
    + rewrite map_lookup_filter_None_2; [done|by left].
  - intros o' z Ho'. destruct (decide (o' = o)) as [->|Hne]; [right; apply lookup_insert_eq|left; by rewrite lookup_insert_ne].
  - intros o' z Hou. rewrite lookup_insert_Some. intros [[_ <-]|[_ ?]]; [by right|eauto].
  - apply lookup_insert_eq.
Qed.

(** [fstat] on the own descriptor: an object as large as wanted has the size wanted. *)
Lemma wp_fstat {A} j fd o b g (h : result Z Z -> M A) Q :
  (forall e, wp j (h (Err e)) (in_phase (HFd fd o b) g) Q) ->
  (forall z, wp j (h (Ok z)) (in_phase (HFd fd o (if tsize <=? z then true else b)) g) Q) ->
  wp j (act (sys_fstat fd) ≫= h) (in_phase (HFd fd o b) g) Q.
Proof.
  intros He Hk. apply wpc_act. intros s Γ HI Hj. pose proof (law_fstat fd s) as L. destruct (fd_object _ _ _ _ _ _ _ HI Hj) as (Hf & _ & Hs). pose proof HI as [].
  destruct (sys_fstat fd s) as [[z|e] s']; simpl in *.
  - destruct L as (o' & Hf' & Hz & L). rewrite Hf in Hf'. simplify_eq. exists (in_phase (HFd fd o' (if tsize <=? z then true else b)) g).
    split; [|apply Hk]. destruct (Z.leb_spec tsize z) as [Hle|Hle].
    + destruct (hi_sizes0 _ _ (fd_ours _ _ _ _ _ _ _ HI Hj) Hz); [lia|subst]. destruct L as (En & Es & Ec & Ef & Et). eapply inv_fd; try done; rewrite ?Es; try done.
      * intros. unfold counter. by rewrite Ec.
      * eauto.
    + rewrite list_insert_id by done. by eapply inv_alike.
  - exists (in_phase (HFd fd o b) g). rewrite list_insert_id by done. split; [by eapply inv_alike|done].
Qed.

Abbreviation sized_post fd o g := (fun (r : io_result unit) g' => exists b, g' = in_phase (HFd fd o b) g /\ (r = Ok tt -> b = true)).

Lemma ftruncate_to_size_wp j fd o b g : wp j (ftruncate_to_size fd tsize) (in_phase (HFd fd o b) g) (sized_post fd o g).
Proof.
  apply wpc_act. intros s Γ HI Hj. pose proof (law_ftruncate fd tsize s) as L. destruct (fd_object _ _ _ _ _ _ _ HI Hj) as (Hf & _).
  destruct (sys_ftruncate fd tsize s) as [[[]|e] s']; simpl in *.
  - destruct L as (o' & Hf' & L). rewrite Hf in Hf'. simplify_eq. exists (in_phase (HFd fd o' true) g). split; [by eapply inv_truncates|by exists true].
  - exists (in_phase (HFd fd o b) g). rewrite list_insert_id by done. split; [by eapply inv_alike|]. destruct (_ =? _); [|by exists b].
    apply wp_fstat; [intros e'; by exists b|]. intros z. destruct (tsize <=? z); [by exists true|by exists b].
Qed.

Lemma wait_until_sized_wp j fd o b g :
  wp j (wait_until_sized n fd tsize) (in_phase (HFd fd o b) g) (fun r g' => exists b, g' = in_phase (HFd fd o b) g /\ (r = true -> b = true)).
Proof.
  assert (forall A (h : Z -> M A) g Q, (forall tm, wp j (h tm) g Q) -> wp j (now s_clk_f ≫= h) g Q) as Hnow by (intros; by apply wp_quiet).
  apply Hnow. intros tm. generalize (tm + SHM_SIZE_WAIT_TIMEOUT). clear tm. intros deadline. revert b. generalize n. clear n.
  intros n. induction n as [|n IH]; intros b; [done|]. cbn [wait_until_sized_loop].
  apply wp_fstat; [intros e|intros z; destruct (tsize <=? z); [by exists true|]]; (apply Hnow; intros tm; destruct (_ <=? _); [by exists b|apply IH]).
Qed.

Lemma size_fd_wp j fd o b g need mode :
  (need = false -> mode <> CreateOrOpen -> b = true) -> wp j (size_fd n fd need mode tsize) (in_phase (HFd fd o b) g) (sized_post fd o g).
Proof.
  intros Hb. unfold size_fd. destruct need; [apply ftruncate_to_size_wp|]. case_bool_decide as Hm; [|exists b; split; [done|intros _; by apply Hb]].
  apply wpc_bind. eapply wpc_conseq; [apply wait_until_sized_wp|]. intros [] g' (b' & -> & Hb'); [exists true; by rewrite Hb'|]. apply ftruncate_to_size_wp.
Qed.

(** The descriptor is closed. *)
Lemma wp_close {A} j fd o b g (ph : hphase) (h : result unit Z -> M A) Q :
  ph = HIdle \/ (ph = HMap o /\ b = true) ->
  (forall r, wp j (h r) (in_phase ph g) Q) -> wp j (act (sys_close fd) ≫= h) (in_phase (HFd fd o b) g) Q.
Proof.
  intros Hph Hh. apply wpc_act. intros s Γ HI Hj. pose proof (law_close fd s) as (En & Es & Ec & Ef & Et). simpl in *.
  destruct (fd_object _ _ _ _ _ _ _ HI Hj) as (Hf & Hf0 & Hs). pose proof HI as []. exists (in_phase ph g). split; [|apply Hh].
  assert (forall fd' o', ~ owns_fd (in_phase ph g) fd' o') as Hno by (intros fd' o' [? E]; by destruct Hph as [->|[-> _]]).
  change (in_phase ph g) with (in_phase ph (in_phase (HFd fd o b) g)). eapply shm_phase; try done; rewrite ?Es, ?En; try done.
  - intros. unfold counter. by rewrite Ec.
  - eauto.
  - eapply (ghost_sizes s _ (HFd fd o b)); [by eapply hi_ghost0|rewrite Es; eauto| |].
    { rewrite Es. by destruct Hph as [->|[-> ->]]. }
    destruct Hph as [->|[-> _]]; [done|by eapply fd_ours].
  - intros fd' o'. rewrite Ef, lookup_delete_Some. split.
    + intros [Hne E]. left. split; [done|]. intros [? [= ]]. congruence.
    + intros [[E Hn]|E]; [|by apply Hno in E]. split; [|done]. intros <-. apply Hn. rewrite Hf in E. simplify_eq. by exists b.
  - intros fd' o' E. by apply Hno in E.
  - intros _. split; [done|]. intros o' [E|E]; left; [|by right]. left. by destruct Hph as [->|[-> _]].
Qed.

Lemma refers_ours s Γ j g o : inv s Γ -> Γ !! j = Some g -> refers g o -> ours o.
Proof. intros [] Hj. by apply (hi_ghost0 _ _ Hj). Qed.

(** There is room in the counter. *)
Lemma counter_room s Γ j g o : inv s Γ -> Γ !! j = Some g -> ours o -> 0 <= counter tsize s o /\ counter tsize s o + hg_left g < 2 ^ 31.
Proof.
  intros [] Hj Ho. rewrite hi_counter0 by done. specialize (hi_room0 o Ho). specialize (hi_base0 o Ho).
  assert (forall k, 0 <= held1 o k <= Z.of_nat (length (hg_hs k))) as Hh.
  { intros k. apply tally_range. intros x. unfold on. case_decide; lia. }
  assert (0 <= held o Γ) by (apply total_nonneg; intros; apply Hh).
  assert (held o Γ + hg_left g <= total (fun _ => room1) 0 Γ); [|lia].
  pose proof (total_insert (fun _ => room1) 0 Γ j g (mk_hghost HIdle (hg_hs g) 0) Hj) as E. unfold room1 in E at 3 4. simpl in E.
  assert (held o Γ <= total (fun _ => room1) 0 (<[j := mk_hghost HIdle (hg_hs g) 0]> Γ)); [|lia].
  replace (held o Γ) with (total (fun _ => held1 o) 0 (<[j := mk_hghost HIdle (hg_hs g) 0]> Γ)).
  - apply total_le. intros k gk. rewrite (lookup_moved _ _ _ _ _ Hj). unfold room1. case_decide.
    + intros [= <-]. specialize (Hh g). unfold held1 in Hh. unfold held1. simpl. lia.
    + intros Hk. destruct (hi_ghost0 _ _ Hk) as (? & _). specialize (Hh gk). lia.
  - rewrite (total_insert _ _ _ _ _ _ Hj). unfold held, held1. simpl. lia.
Qed.

(** An access to the counter of an object that has its size. *)
Lemma wp_acc_add {A} j o d g (h : Z -> M A) Q :
  (forall s Γ, inv s Γ -> Γ !! j = Some g -> s_sizes s !! o = Some tsize) ->
  (forall s Γ, inv s Γ -> Γ !! j = Some g -> exists g',
     inv (fset (cell o (acc_of tsize)) (wrapping_add 32 (counter tsize s o) d) s) (<[j := g']> Γ) /\ wp j (h (i32 (counter tsize s o))) g' Q) ->
  wp j (acc_add o tsize d ≫= h) g Q.
Proof.
  intros Hs Hh. unfold acc_add, access. apply wpc_bind, wpc_bind, wpc_bind, wpc_act. intros s Γ HI Hj.
  destruct (Hh _ _ HI Hj) as (g' & HI' & Hk). exists g'. rewrite (Hs _ _ HI Hj). simpl.
  rewrite (proj2 (Z.leb_le 0 (acc_of tsize))) by (unfold acc_of; lia). rewrite (proj2 (Z.leb_le (acc_of tsize + 4) tsize)) by (unfold acc_of; lia). done.
Qed.

Lemma counter_store s o v o' : counter tsize (fset (cell o (acc_of tsize)) v s) o' = if decide (o' = o) then v else counter tsize s o'.
Proof. unfold counter. simpl. case_decide; [subst; apply lookup_total_insert_eq|]. apply lookup_total_insert_ne. congruence. Qed.

Definition opened (o : nat) (p : Z) (g : hghost) : hghost := mk_hghost HIdle (hg_hs g ++ [(o, p)]) (hg_left g - 1).

Lemma inv_counts s Γ j g o :
  inv s Γ -> Γ !! j = Some (in_phase (HMap o) g) -> 1 <= hg_left g ->
  inv (fset (cell o (acc_of tsize)) (wrapping_add 32 (counter tsize s o) 1) s) (<[j := opened o (counter tsize s o) g]> Γ).
Proof.
  intros HI Hj Hl. pose proof (refers_ours _ _ _ _ o HI Hj ltac:(by left)) as Hou. destruct (counter_room s Γ j _ o HI Hj Hou) as [H0 H1]. simpl in H1. pose proof HI as [].
  destruct (hi_ghost0 _ _ Hj) as (_ & Hz & Hh & Hrf). simpl in Hz, Hh.
  assert (forall o', held1 o' (opened o (counter tsize s o) g) = held1 o' g + if decide (o' = o) then 1 else 0) as Eh.
  { intros o'. unfold held1, opened. cbn [hg_hs]. rewrite tally_app. simpl. unfold on. cbn [fst]. repeat case_decide; congruence || lia. }
  eapply shm_move; try done.
  - unfold room1, opened. cbn [hg_hs hg_left in_phase]. rewrite length_app. simpl. lia.
  - intros o'. rewrite counter_store, Eh. change (held1 o' (in_phase (HMap o) g)) with (held1 o' g). case_decide; [subst|lia].
    unfold wrapping_add. rewrite wrap_id by (unfold is_u; lia). lia.
  - eauto.
  - split; [simpl; lia|]. split; [done|]. split.
    2:{ intros o' [E|[p Hp]]; [done|]. unfold opened in Hp. cbn [hg_hs] in Hp. rewrite elem_of_app, list_elem_of_singleton in Hp.
        destruct Hp as [?|[= -> ->]]; [|done]. apply Hrf. right. by exists p. }
    intros o' p. unfold opened. cbn [hg_hs]. rewrite elem_of_app, list_elem_of_singleton.
    intros [?|[= -> ->]]; [by apply Hh|]. split; [done|]. rewrite hi_counter0 by done. pose proof (total_nonneg (fun _ => held1 o) 0 Γ) as Hn.
    unfold held. assert (0 <= total (fun _ => held1 o) 0 Γ); [|lia]. apply Hn. intros _ k. apply tally_range. intros x. unfold on. case_decide; lia.
  - intros fd o'. unfold owns_fd, opened. simpl. split; [|by intros [[? _]|[? ?]]]. intros E. left. split; [done|]. by intros [? ?].
  - by intros fd o' [? ?].
  - intros _. split; [done|]. intros o' [E|[p Hp]]; [done|]. unfold opened in Hp. cbn [hg_hs] in Hp. rewrite elem_of_app, list_elem_of_singleton in Hp. left.
    destruct Hp as [?|[= -> ->]]; [right; by exists p|by left].
  - intros Hk o' Hou'. destruct (hi_first0 Hk o' Hou') as [Hb Hf]. rewrite Eh. change (held1 o' (in_phase (HMap o) g)) with (held1 o' g).
    unfold first1, opened. cbn [hg_hs in_phase]. rewrite tally_app. simpl. unfold first_on.
    assert (0 <= held o' Γ) by (apply total_nonneg; intros; apply tally_range; intros x; unfold on; case_decide; lia).
    rewrite hi_counter0 by done. destruct (decide (o' = o)) as [->|Hne].
    + rewrite Hb. case_decide as E; simplify_eq; [lia|]. assert (held o Γ <> 0); [|lia]. intros E'. apply E. rewrite E'. done.
    + rewrite decide_False by congruence. lia.
Qed.

(** A handle and its entry in the ghost state. *)
Definition shown (h : PlatformShm) : nat * Z := (default 0%nat (mem h), prev_ref h).
Definition good (h : PlatformShm) : Prop := is_Some (mem h) /\ size h = tsize /\ name h = pn.

Lemma mmap_and_finish_wp j fd o g :
  1 <= hg_left g ->
  wp j (mmap_and_finish fd tsize usize pn) (in_phase (HFd fd o true) g) (fun r g' =>
    match r with Err _ => g' = in_phase HIdle g | Ok h => good h /\ g' = mk_hghost HIdle (hg_hs g ++ [shown h]) (hg_left g - 1) end).
Proof.
  intros Hl. apply wpc_act. intros s Γ HI Hj. pose proof (law_mmap fd tsize s) as L. destruct (fd_object _ _ _ _ _ _ _ HI Hj) as (Hf & _).
  exists (in_phase (HFd fd o true) g). rewrite list_insert_id by done. destruct (sys_mmap fd tsize s) as [[o'|e] s']; cbn [fst snd] in L |- *.
  - destruct L as [Hf' L]. rewrite Hf in Hf'. simplify_eq. split; [by eapply inv_alike|]. clear dependent s Γ s'.
    apply (wp_close _ _ _ _ _ (HMap o')); [by right|]. intros _. apply wp_acc_add.
    + intros s Γ [] Hj. by destruct (hi_ghost0 _ _ Hj) as (_ & ? & _).
    + intros s Γ HI Hj. exists (opened o' (counter tsize s o') g). split; [by apply inv_counts|]. split; [by split; [eexists|]|].
      destruct (counter_room _ _ _ _ o' HI Hj (refers_ours _ _ _ _ o' HI Hj ltac:(by left))) as [H0 H1]. simpl in H1. unfold opened, shown. simpl. by rewrite i32_id by lia.
  - split; [by eapply inv_alike|]. apply (wp_close _ _ _ _ _ HIdle); [by left|]. done.
Qed.

Lemma acquire_wp j mode g :
  hg_ph g = HIdle -> 1 <= hg_left g -> (mode = Open -> is_Some pin) ->
  wp j (acquire t n nm usize mode) g (fun r g' =>
    match r with Returned (Ok h) => good h /\ g' = mk_hghost HIdle (hg_hs g ++ [shown h]) (hg_left g - 1) | _ => g' = g end).
Proof.
  intros Hp Hl Hm. assert (in_phase HIdle g = g) as Eg by (rewrite <- Hp; apply in_phase_id).
  unfold acquire. rewrite bool_decide_eq_false_2 by done. rewrite (proj2 (Z.eqb_neq usize 0)) by lia. rewrite Hposix, Hnul.
  apply wpc_bind. eapply wpc_conseq; [by apply open_fd_wp|]. intros [[fd need]|e] g'; [|by intros ->]. intros (o & b & -> & Hb).
  apply wp_quiet; [apply does_alike, law_fchmod|]. intros _. apply wpc_bind. eapply wpc_conseq; [by apply size_fd_wp|].
  intros [[]|e] g' (b' & -> & Hb').
  - rewrite Hb' by done. apply wpc_bind. eapply wpc_conseq; [by apply mmap_and_finish_wp|]. intros [h|e] g'; simpl; [done|congruence].
  - apply (wp_close _ _ _ _ _ HIdle); [by left|]. intros _. exact Eg.
Qed.

Definition closed (k : nat) (g : hghost) : hghost := mk_hghost HIdle (delete k (hg_hs g)) (hg_left g).

Lemma tally_in {A} (f : A -> Z) l k x : (forall x, 0 <= f x) -> l !! k = Some x -> f x <= tally f l.
Proof.
  intros Hf. revert k. induction l as [|y l IH]; intros k Hk; [done|]. destruct k as [|k]; simpl in *.
  - simplify_eq. assert (0 <= tally f l); [|lia]. clear -Hf. induction l as [|z l IH]; simpl; [lia|]. specialize (Hf z). lia.
  - specialize (IH _ Hk). specialize (Hf y). lia.
Qed.

(** Somebody's handle is counted. *)
Lemma held_one Γ j g k o p : Γ !! j = Some g -> hg_hs g !! k = Some (o, p) -> 1 <= held1 o g /\ held1 o g <= held o Γ.
Proof.
  intros Hj Hk. split.
  - pose proof (tally_in (on o) _ _ _ ltac:(intros x; unfold on; case_decide; lia) Hk) as H. unfold on at 1 in H. cbn in H. by rewrite decide_True in H.
  - apply (total_term (fun _ => held1 o) 0 Γ j g); [|done]. intros _ x. apply tally_range. intros y. unfold on. case_decide; lia.
Qed.

Lemma held_ours s Γ j g k o p : inv s Γ -> Γ !! j = Some g -> hg_hs g !! k = Some (o, p) -> ours o.
Proof. intros HI Hj Hk. eapply refers_ours; [done|done|]. right. exists p. by eapply list_elem_of_lookup_2. Qed.

Lemma inv_uncounts s Γ j g k o p :
  inv s Γ -> Γ !! j = Some g -> hg_ph g = HIdle -> hg_hs g !! k = Some (o, p) -> keep = false ->
  inv (fset (cell o (acc_of tsize)) (wrapping_add 32 (counter tsize s o) (-1)) s) (<[j := closed k g]> Γ).
Proof.
  intros HI Hj Hp Hk Hkeep. pose proof (held_ours _ _ _ _ _ _ _ HI Hj Hk) as Hou. destruct (counter_room s Γ j g o HI Hj Hou) as [H0 H1]. destruct (held_one _ _ _ _ _ _ Hj Hk) as [Hone Hle]. pose proof HI as [].
  destruct (hi_ghost0 _ _ Hj) as (Hl & _ & Hh & Hrf).
  assert (forall o', held1 o' (closed k g) = held1 o' g - if decide (o' = o) then 1 else 0) as Eh.
  { intros o'. unfold held1, closed. cbn [hg_hs]. rewrite (tally_delete _ _ _ _ Hk). unfold on. cbn [fst]. repeat case_decide; congruence || lia. }
  assert (forall x, x ∈ hg_hs (closed k g) -> x ∈ hg_hs g) as Hsub.
  { intros x Hx. unfold closed in Hx. cbn [hg_hs] in Hx. by eapply elem_of_submseteq, submseteq_delete. }
  eapply shm_move; try done.
  - unfold room1, closed. cbn [hg_hs hg_left]. rewrite length_delete by (by eexists). lia.
  - intros o'. rewrite counter_store, Eh. case_decide; [subst|lia]. specialize (hi_counter0 o Hou). specialize (hi_base0 o Hou).
    unfold wrapping_add. rewrite wrap_id by (unfold is_u; lia). lia.
  - eauto.
  - split; [done|]. split; [done|]. split; [intros o' p' Hop; by apply Hh, Hsub|]. intros o' [E|[p' Hp']]; [done|]. apply Hrf. right. exists p'. by apply Hsub.
  - intros fd o'. unfold owns_fd, closed. simpl. rewrite Hp. split; [|by intros [[? _]|[? ?]]]. intros E. left. split; [done|]. by intros [? ?].
  - by intros fd o' [? ?].
  - intros _. split; [done|]. intros o' [E|[p' Hp']]; [done|]. left. right. exists p'. by apply Hsub.
  - by rewrite Hkeep.
Qed.

(** A handle is released; not as the last one while somebody else keeps one. *)
Lemma release_mapping_wp j g k h :
  hg_ph g = HIdle -> hg_hs g !! k = Some (shown h) -> good h -> keep = false ->
  wp j (release_mapping h) g (fun r g' => g' = closed k g /\ mem r.2 = None /\ (is_Some pin -> 1 < r.1)).
Proof.
  intros Hp Hk ([o Ho] & Es & En) Hkeep. unfold release_mapping. unfold shown in Hk. rewrite Ho in Hk |- *. simpl in Hk. rewrite Es.
  apply wp_acc_add.
  - intros s Γ [] Hj. destruct (hi_ghost0 _ _ Hj) as (_ & _ & Hh & _). by apply (Hh o (prev_ref h)), list_elem_of_lookup_2 with k.
  - intros s Γ HI Hj. exists (closed k g). split; [by eapply inv_uncounts|]. pose proof (held_ours _ _ _ _ _ _ _ HI Hj Hk) as Hou. destruct (counter_room s Γ j g o HI Hj Hou) as [H0 H1].
    destruct (held_one _ _ _ _ _ _ Hj Hk) as [Hone Hle]. pose proof HI as []. rewrite i32_id by (destruct (hi_ghost0 _ _ Hj); lia).
    apply wp_quiet; [apply does_alike, law_munmap|]. intros _. destruct (Z.leb_spec (counter tsize s o) 1) as [Hc|Hc]; [|by simpl].
    assert (~ stable pin keep) as Hns.
    { intros [[o0 E]|E]; [|congruence]. destruct (hi_pin0 _ E) as (Hn0 & _ & Hb).
      assert (s_names s !! pn = Some o) as Hno.
      { eapply hi_stable0; [left; by eexists|exact Hj|]. right. exists (prev_ref h). by apply list_elem_of_lookup_2 with k. }
      rewrite Hno in Hn0. simplify_eq. specialize (hi_counter0 o0 Hou). lia. }
    assert (~ is_Some pin) as Hnp by (intros Hpin; apply Hns; by left).
    clear Hc. generalize (counter tsize s o). intros v. clear dependent s Γ. unfold unlink, unlink_posix_shm_name_if_exists. rewrite En, Hnul. apply wpc_act. intros s Γ HI Hj. pose proof (law_unlink pn s) as L.
    exists (closed k g). split; [|by simpl]. destruct (sys_shm_unlink pn s) as [[[]|e] s']; simpl in *; [|rewrite list_insert_id by done; by eapply inv_alike].
    destruct L as (_ & En' & Es' & Ec & Ef & Et). simpl in *. pose proof HI as [].
    change (closed k g) with (in_phase HIdle (closed k g)). eapply shm_phase; try done; rewrite ?Es', ?En'; try done.
    + intros. unfold counter. by rewrite Ec.
    + eauto.
    + eapply (ghost_sizes s _ HIdle); [by apply (hi_ghost0 _ _ Hj)|rewrite Es'; eauto|done|done].
    + intros fd o'. rewrite Ef. unfold owns_fd. simpl. split; [|by intros [[? _]|[? ?]]]. intros E. left. split; [done|]. by intros [? ?].
    + by intros fd o' [? ?].
    + intros o'. by rewrite lookup_delete_eq.
Qed.

Lemma drop_wp j g k h :
  hg_ph g = HIdle -> hg_hs g !! k = Some (shown h) -> good h -> keep = false -> wp j (drop h) g (fun _ g' => g' = closed k g).
Proof.
  intros. unfold drop. apply wpc_bind. eapply wpc_conseq; [by eapply release_mapping_wp|]. by intros r g' (-> & _).
Qed.

Lemma release_wp j g k h :
  hg_ph g = HIdle -> hg_hs g !! k = Some (shown h) -> good h -> keep = false ->
  wp j (release h) g (fun prev g' => g' = closed k g /\ (is_Some pin -> 1 < prev)).
Proof.
  intros. unfold release. apply wpc_bind. eapply wpc_conseq; [by eapply release_mapping_wp|]. intros r g' (-> & Em & Hr).
  unfold release_mapping. by rewrite Em.
Qed.

Definition allowed (x : hop) : Prop :=
  match x with HAcquire mode => mode = Open -> is_Some pin | HDrop _ => keep = false end.

Lemma user_wp j ops hs g :
  Forall allowed ops -> Forall good hs -> hg_ph g = HIdle -> hg_hs g = shown <$> hs -> acquires ops <= hg_left g ->
  wp j (user t n nm usize ops hs) g (fun hs g' => Forall good hs /\ hg_ph g' = HIdle /\ hg_hs g' = shown <$> hs).
Proof.
  intros Hops. revert hs g. induction Hops as [|x ops Hx Hops IH]; intros hs g Hg Hp Eh Hl; [done|]. assert (0 <= acquires ops) by (clear; induction ops as [|[]]; simpl; lia).
  destruct x as [mode|k]; cbn [user]; simpl in Hx, Hl.
  - apply wpc_bind. eapply wpc_conseq; [apply acquire_wp; [done|lia|done]|]. intros [[h|e]|] g'; [|intros ->; apply IH; done || lia..].
    intros [Hh ->]. apply IH; [by apply Forall_app; split; [|constructor]|done|cbn [hg_hs]; by rewrite fmap_app, Eh|cbn [hg_left]; lia].
  - destruct (hs !! k) as [h|] eqn:E; [|apply IH; done || lia]. apply wpc_bind.
    eapply wpc_conseq; [apply (drop_wp _ _ k); [done|by rewrite Eh, list_lookup_fmap, E|by eapply Forall_lookup_1|done]|].
    intros _ g' ->. apply IH; [by apply Forall_delete|done|cbn [hg_hs closed]; by rewrite Eh, list_fmap_delete|cbn [hg_left closed]; lia].
Qed.

End operations.

(** ** The pool *)

(** The layout both sides of the ABI compute: the user's bytes, rounded up, and the counter. *)
Lemma calc_size_spec u : 0 < u < 2 ^ 62 -> u + 4 <= calc_size u < u + 8 /\ calc_size u mod 4 = 0.
Proof.
  intros Hu. unfold calc_size, ALIGN, wrapping_sub, wrapping_add. rewrite (wrap_id 64 (u - 1)) by (unfold is_u; lia).
  pose proof (Z.div_mod (u - 1) 4 ltac:(lia)). pose proof (Z.mod_pos_bound (u - 1) 4 ltac:(lia)).
  rewrite (wrap_id 64 (_ * 4)) by (unfold is_u; lia). rewrite wrap_id by (unfold is_u; lia). split; [lia|].
  replace (((u - 1) / 4 + 1) * 4 + 4) with (((u - 1) / 4 + 2) * 4) by lia. apply Z.mod_mul. lia.
Qed.

(** Objects not yet created hold nothing. *)
Definition blank_beyond {K} (s : shm_sys K) : Prop := forall o off, s_sizes s !! o = None -> s_cells s !!! (o, off) = 0.

Definition all_acquires (ts : list (list hop)) : Z := total (fun _ => acquires) 0 ts.


Section pool.
Context {K : Type} `{!ShmOs K, !ShmLaws K} (t : target) (n : nat) (nm pn : string) (usize : Z).
Context (base : nat -> Z) (pin : option nat) (keep : bool) (ours : nat -> Prop).
Context (Hname : nm <> "") (Hposix : make_shm_name t nm = Some pn) (Hnul : c_string pn = Ok pn) (Hsize : 0 < usize < 2 ^ 62).
Abbreviation tsize := (calc_size usize).

Definition idle (k : Z) : hghost := mk_hghost HIdle [] k.

Lemma start_zero (f : hghost -> Z) i (ls : list Z) : (forall k, f (idle k) = 0) -> total (fun _ => f) i (idle <$> ls) = 0.
Proof. intros Hf. revert i. induction ls as [|x ls IH]; intros i; [done|]. cbn [fmap list_fmap total]. rewrite Hf. apply IH. Qed.

(** Threads that have no handle yet and may still open as many as [ls] says. *)
Lemma idle_inv (s : shm_sys K) (ls : list Z) :
  Forall (fun k => 0 <= k) ls -> (forall o, ours o -> 0 <= base o) -> (forall o, ours o -> base o + total (fun _ k => k) 0 ls < 2 ^ 31) ->
  (forall o, s_sizes s !! o = None -> ours o) -> (forall o, ours o -> counter tsize s o = base o) ->
  (forall o z, ours o -> s_sizes s !! o = Some z -> z = 0 \/ z = tsize) ->
  s_stray s = false -> (forall o, s_names s !! pn = Some o -> ours o /\ is_Some (s_sizes s !! o)) ->
  (forall o, pin = Some o -> s_names s !! pn = Some o /\ s_sizes s !! o = Some tsize /\ 1 <= base o) ->
  (keep = true -> forall o, ours o -> base o = 0) ->
  shm_inv pn tsize (s_fds s) base pin keep ours s (idle <$> ls).
Proof.
  intros Hls Hb Hroom Hfr Hc Hz Hst Hn Hpin Hk. constructor; try done.
  - intros o Ho. rewrite total_fmap. by apply Hroom.
  - intros o Ho. unfold held. rewrite start_zero by done. rewrite Hc by done. lia.
  - intros j g (k & -> & Hj)%list_lookup_fmap_Some. split; [by apply (proj1 (Forall_lookup _ _) Hls j)|]. split; [done|]. split; [by intros ? ? ?%not_elem_of_nil|].
    intros o [?|[p ?%not_elem_of_nil]]; done.
  - intros i j g g' fd o o' (k & -> & _)%list_lookup_fmap_Some _ [b ?]. done.
  - by left.
  - intros _ j g o (k & -> & _)%list_lookup_fmap_Some [?|[p ?%not_elem_of_nil]]; done.
  - intros E o Ho. split; [by apply Hk|]. unfold held, first. by rewrite !start_zero.
Qed.

Lemma acquires_nonneg ops : 0 <= acquires ops.
Proof. induction ops as [|[]]; simpl; lia. Qed.

Lemma users_inv (s s' : shm_sys K) ts ps :
  Forall (Forall (allowed pin keep)) ts ->
  (forall o, ours o -> 0 <= base o) -> (forall o, ours o -> base o + all_acquires ts < 2 ^ 31) ->
  (forall o, s_sizes s !! o = None -> ours o) -> (forall o, ours o -> counter tsize s o = base o) ->
  (forall o z, ours o -> s_sizes s !! o = Some z -> z = 0 \/ z = tsize) ->
  s_stray s = false -> (forall o, s_names s !! pn = Some o -> ours o /\ is_Some (s_sizes s !! o)) ->
  (forall o, pin = Some o -> s_names s !! pn = Some o /\ s_sizes s !! o = Some tsize /\ 1 <= base o) ->
  (keep = true -> forall o, ours o -> base o = 0) ->
  pool_reach (s, users t n nm usize ts) (s', ps) ->
  exists Γ, shm_inv pn tsize (s_fds s) base pin keep ours s' Γ /\
    verified (shm_inv pn tsize (s_fds s) base pin keep ours)
      (fun _ hs g => Forall (good pn usize) hs /\ hg_ph g = HIdle /\ hg_hs g = shown <$> hs) ps Γ.
Proof.
  intros Hops Hb Hroom Hfr Hc Hz Hst Hn Hpin Hk Hr. pose proof (calc_size_spec usize Hsize) as [Hts _]. eapply pool_verified; [| |exact Hr].
  - instantiate (1 := idle <$> (acquires <$> ts)). apply idle_inv; try done.
    + apply Forall_fmap, Forall_true. intros ops. apply acquires_nonneg.
    + intros o Ho. rewrite total_fmap. by apply Hroom.
  - unfold users. split; [by rewrite !length_fmap|]. intros j p g Hj Hg. rewrite list_lookup_fmap in Hj. rewrite !list_lookup_fmap in Hg.
    destruct (ts !! j) as [ops|] eqn:E; simplify_eq/=. apply user_wp; try done; try lia. by apply (proj1 (Forall_lookup _ _) Hops j).
Qed.






End pool.


(** C8: a handle keeps the segment.  While others keep [b] handles of the object the name stands
    for, threads open further handles of the same size in any mode and drop them, in any interleaving: the name always
    stands for that object, every handle anybody gets is one of it, and none of them was the first. *)
Theorem shm_handle_keeps_object {K} `{!ShmOs K, !ShmLaws K} t n nm pn usize (s s' : shm_sys K) ts ps o0 b :
  nm <> "" -> make_shm_name t nm = Some pn -> c_string pn = Ok pn -> 0 < usize < 2 ^ 62 -> 1 <= b -> b + all_acquires ts < 2 ^ 31 ->
  s_names s !! pn = Some o0 -> s_sizes s !! o0 = Some (calc_size usize) -> s_cells s !!! (o0, acc_of (calc_size usize)) = b ->
  s_stray s = false -> blank_beyond s ->
  pool_reach (s, users t n nm usize ts) (s', ps) ->
  s_names s' !! pn = Some o0 /\ s_stray s' = false /\
  forall j hs, ps !! j = Some (Ret hs) -> Forall (fun h => mem h = Some o0 /\ b <= prev_ref h) hs.
Proof.
  intros Hname Hposix Hnul Hsize Hb Hacq Hn Hz Hc Hst Hbl Hr.
  destruct (users_inv t n nm pn usize (fun o => if decide (o = o0) then b else 0) (Some o0) false (fun o => s_sizes s !! o = None \/ o = o0)
    Hname Hposix Hnul Hsize s s' ts ps) as (Γ & HI & Hv); try done.
  - eapply Forall_true. intros ops. eapply Forall_true. intros [mode|k]; [by eexists|done].
  - intros o _. case_decide; lia.
  - intros o _. assert (0 <= all_acquires ts); [|case_decide; lia]. apply total_nonneg. intros _ ops. induction ops as [|[]]; simpl; lia.
  - by left.
  - intros o [Ho| ->]; [|by rewrite decide_True]. rewrite decide_False by congruence. by apply Hbl.
  - intros o z [Ho| ->]; [by rewrite Ho|]. rewrite Hz. intros [= <-]. by right.
  - intros o Ho. rewrite Hn in Ho. simplify_eq. split; [by right|by eexists].
  - intros o [= <-]. by rewrite decide_True.
  - pose proof (hi_pin _ _ _ _ _ _ _ _ _ HI o0 eq_refl) as (Hn' & _). split; [done|]. split; [apply HI|]. intros j hs Hj.
    destruct (verified_ret _ _ _ _ _ _ Hv Hj) as (g & Hg & Hgood & _ & E). apply Forall_forall. intros h Hh.
    destruct (proj1 (Forall_forall _ _) Hgood _ Hh) as ([o Ho] & _).
    assert ((o, prev_ref h) ∈ hg_hs g) as Hin by (rewrite E; apply list_elem_of_fmap; exists h; split; [unfold shown; by rewrite Ho|done]).
    assert (s_names s' !! pn = Some o) as Hno by (eapply (hi_stable _ _ _ _ _ _ _ _ _ HI); [left; by eexists|exact Hg|right; by eexists]).
    rewrite Hn' in Hno. simplify_eq. split; [done|]. destruct (hi_ghost _ _ _ _ _ _ _ _ _ HI _ _ Hg) as (_ & _ & Hp & _).
    destruct (Hp _ _ Hin) as [_ Hle]. by rewrite decide_True in Hle.
Qed.


(** ** A kernel

    Objects and descriptors are numbered on.  [s_kern]: an object can be sized only once (XNU). *)
Definition next_object (m : gmap nat Z) : nat := foldr Nat.max 0%nat ((fun x => S x.1) <$> map_to_list m).
Definition next_fd {V} (m : gmap Z V) : Z := foldr Z.max 3 ((fun x => x.1 + 1) <$> map_to_list m).

#[export] Instance simple_os : ShmOs bool := {|
  sys_shm_open := fun excl n s =>
    match s_names s !! n, excl with
    | Some _, true => (Err EEXIST, s)
    | Some o, false => let fd := next_fd (s_fds s) in (Ok fd, fset s_fds_f (<[fd := o]> (s_fds s)) s)
    | None, false => (Err ENOENT, s)
    | None, true =>
        let fd := next_fd (s_fds s) in
        let o := next_object (s_sizes s) in
        (Ok fd, fset s_names_f (<[n := o]> (s_names s)) (fset s_sizes_f (<[o := 0]> (s_sizes s)) (fset s_fds_f (<[fd := o]> (s_fds s)) s)))
    end;
  sys_fchmod := fun _ _ s => (Ok tt, s);
  sys_ftruncate := fun fd len s =>
    match s_fds s !! fd with
    | Some o =>
        if s_kern s && negb (default 0 (s_sizes s !! o) =? 0) then (Err SHM_EINVAL, s)
        else (Ok tt, fset s_sizes_f (<[o := len]> (s_sizes s)) (fset s_cells_f (filter (fun '((o', off), _) => o' <> o \/ off < len) (s_cells s)) s))
    | None => (Err SHM_EINVAL, s)
    end;
  sys_fstat := fun fd s => (match s_fds s !! fd ≫= fun o => s_sizes s !! o with Some z => Ok z | None => Err SHM_EINVAL end, s);
  sys_mmap := fun fd len s => (match s_fds s !! fd with Some o => Ok o | None => Err SHM_EINVAL end, s);
  sys_munmap := fun _ _ s => (Ok tt, s);
  sys_close := fun fd s => (Ok tt, fset s_fds_f (delete fd (s_fds s)) s);
  sys_shm_unlink := fun n s =>
    match s_names s !! n with
    | Some _ => (Ok tt, fset s_names_f (delete n (s_names s)) s)
    | None => (Err ENOENT, s)
    end;
|}.

Lemma next_object_fresh m : m !! next_object m = None.
Proof.
  destruct (m !! next_object m) as [z|] eqn:E; [exfalso|done]. apply elem_of_map_to_list in E.
  assert (forall l, (next_object m, z) ∈ l -> (next_object m < foldr Nat.max 0%nat ((fun x : nat * Z => S x.1) <$> l))%nat) as H.
  { intros l. induction l as [|y l IH]; [by intros ?%not_elem_of_nil|]. rewrite elem_of_cons. cbn [fmap list_fmap foldr]. intros [<-|Hl]; [cbn [fst]; lia|]. specialize (IH Hl). lia. }
  apply H in E. change (next_object m < next_object m)%nat in E. lia.
Qed.

Lemma next_fd_fresh {V} (m : gmap Z V) : m !! next_fd m = None.
Proof.
  destruct (m !! next_fd m) as [o|] eqn:E; [exfalso|done]. apply elem_of_map_to_list in E.
  assert (forall l, (next_fd m, o) ∈ l -> next_fd m < foldr Z.max 3 ((fun x : Z * V => x.1 + 1) <$> l)) as H.
  { intros l. induction l as [|y l IH]; [by intros ?%not_elem_of_nil|]. rewrite elem_of_cons. cbn [fmap list_fmap foldr]. intros [<-|Hl]; [cbn [fst]; lia|]. specialize (IH Hl). lia. }
  apply H in E. change (next_fd m < next_fd m) in E. lia.
Qed.

#[export] Instance simple_laws : ShmLaws bool.
Proof.
  split; try (intros; intros s; simpl; done).
  - intros nm s. simpl. destruct (s_names s !! nm) as [o|] eqn:E; simpl; [done|]. eexists. split; [done|]. split; [apply next_object_fresh|]. by split; [apply next_fd_fresh|].
  - intros nm s. simpl. destruct (s_names s !! nm) as [o|] eqn:E; simpl; [|done]. eexists. split; [done|]. by split; [apply next_fd_fresh|].
  - intros fd len s. simpl. destruct (s_fds s !! fd) as [o|] eqn:E; simpl; [|done]. destruct (_ && _); simpl; [done|]. by exists o.
  - intros fd s. simpl. destruct (s_fds s !! fd) as [o|] eqn:E; simpl; [|done]. destruct (s_sizes s !! o) as [z|] eqn:Ez; simpl; [|done]. by exists o.
  - intros fd len s. simpl. by destruct (s_fds s !! fd) as [o|] eqn:E.
  - done.
  - intros nm s. simpl. destruct (s_names s !! nm) as [o|] eqn:E; simpl; [|done]. split; [by eexists|done].
Qed.

Module seg.

Definition linux : target := mk_target false false.

(** Nothing exists; and the segment as somebody else's single handle leaves it. *)
Definition none : shm_sys bool := mk_sys ∅ ∅ ∅ ∅ (mk_clock 0 []) false false.
Definition one : shm_sys bool := mk_sys {[ "/seg" := 0%nat ]} {[ 0%nat := 12 ]} {[ (0%nat, 8) := 1 ]} ∅ (mk_clock 0 []) false false.

(** Two threads open a handle each, and the first drops one of two. *)
Definition ts : list (list hop) := [[HAcquire CreateOrOpen; HAcquire CreateOrOpen; HDrop 0]; [HAcquire CreateOrOpen]].
Definition schedule : list (nat * bool) := flat_map (fun _ => [(0%nat, false); (1%nat, false)]) (seq 0 40).
Definition final : shm_sys bool * list (prog (shm_sys bool) (list PlatformShm)) := run_sched schedule (none, users linux 5 "seg" 8 ts).


Definition passers : list (list hop) := [[HAcquire Open; HDrop 0; HAcquire CreateOrOpen]; [HAcquire Create; HAcquire CreateOrOpen; HDrop 0]].
Definition passed : shm_sys bool * list (prog (shm_sys bool) (list PlatformShm)) := run_sched schedule (one, users linux 5 "seg" 8 passers).

Definition handle (prev : Z) : PlatformShm := mk_PlatformShm (Some 0%nat) 12 8 "/seg" prev.



Lemma seg_passed_reached : pool_reach (one, users linux 5 "seg" 8 passers) (passed.1, passed.2).
Proof. exact (run_sched_reach schedule one (users linux 5 "seg" 8 passers)). Qed.


Lemma one_blank : blank_beyond one.
Proof. intros o off Ho. change (({[ (0%nat, 8) := 1 ]} : gmap (nat * Z) Z) !!! (o, off) = 0). rewrite lookup_total_alt, lookup_singleton_ne; [done|]. intros [= <- _]. discriminate Ho. Qed.

End seg.


Lemma shm_handle_keeps_object_witness : s_names seg.passed.1 !! "/seg" = Some 0%nat /\ Forall (fun h => mem h = Some 0%nat /\ 1 <= prev_ref h) [seg.handle 1].
Proof.
  pose proof (shm_handle_keeps_object seg.linux 5 "seg" "/seg" 8 seg.one seg.passed.1 seg.passers seg.passed.2 0%nat 1) as H.
  destruct H as (Hn & _ & Hh); [done|by vm_compute|by vm_compute|lia|lia|by vm_compute|by vm_compute|by vm_compute|by vm_compute|by vm_compute|
    exact seg.one_blank|exact seg.seg_passed_reached|].
  split; [exact Hn|]. apply (Hh 0%nat). by vm_compute.
Defined.


(** ** What the counter does not protect *)

Module race.

(** The first thread drops the only handle; between its decrement and its unlink the second opens the
    segment; the third opens it afterwards. *)
Definition ts : list (list hop) := [[HAcquire CreateOrOpen; HDrop 0]; [HAcquire CreateOrOpen]; [HAcquire CreateOrOpen]].
Definition schedule : list (nat * bool) :=
  replicate 7 (0%nat, false) ++ replicate 20 (1%nat, false) ++ replicate 20 (0%nat, false) ++ replicate 20 (2%nat, false).
Definition final : shm_sys bool * list (prog (shm_sys bool) (list PlatformShm)) := run_sched schedule (seg.none, users seg.linux 5 "seg" 8 ts).

End race.

(** Dropping the last handle races with opening one.  The counter is decremented before the
    name is removed: a thread that opens the segment in between keeps a handle of an object without a
    name, and whoever opens the segment next gets another object, empty: two live handles of one name
    do not share memory. *)
Theorem last_drop_can_split_segment :
  exists s h1 h2, pool_reach (seg.none, users seg.linux 5 "seg" 8 race.ts) (s, [Ret []; Ret [h1]; Ret [h2]]) /\
    name h1 = name h2 /\ mem h1 = Some 0%nat /\ mem h2 = Some 1%nat.
Proof.
  exists race.final.1, (seg.handle 0), (mk_PlatformShm (Some 1%nat) 12 8 "/seg" 0). split; [|done].
  assert (race.final.2 = [Ret []; Ret [seg.handle 0]; Ret [mk_PlatformShm (Some 1%nat) 12 8 "/seg" 0]]) as <- by (by vm_compute).
  exact (run_sched_reach race.schedule seg.none (users seg.linux 5 "seg" 8 race.ts)).
Qed.

Module growth.

(** Two handles; one grows and is dropped. *)
Definition run : prog (shm_sys bool) (outcome (option PlatformShm)) :=
  a ← acquire seg.linux 5 "seg" 8 CreateOrOpen;
  b ← acquire seg.linux 5 "seg" 8 CreateOrOpen;
  match a, b with
  | Returned (Ok a), Returned (Ok b) => r ← grow seg.linux a 64; _ ← drop r.2; Ret (Returned (Some b))
  | _, _ => Ret (Returned None)
  end.

(** One handle grows; then a word inside its own area is written. *)
Definition scribble : prog (shm_sys bool) (outcome (option Z)) :=
  a ← acquire seg.linux 5 "seg" 8 CreateOrOpen;
  b ← acquire seg.linux 5 "seg" 8 CreateOrOpen;
  match a, b with
  | Returned (Ok a), Returned (Ok b) =>
      r ← grow seg.linux a 64;
      _ ← (match mem r.2 with Some o => write o 8 77 | None => Ret tt end);
      c ← ref_count b;
      Ret (Returned (Some c))
  | _, _ => Ret (Returned None)
  end.

End growth.

(** Growing a segment leaves the other handles behind.  The counter moves to the end of the
    grown object, so a grown handle is alone on its counter: dropping it removes the name while another
    handle is live, and the old counter lies in the middle of the grown area, where ordinary writes
    change the other handle's count. *)
Theorem grow_abandons_peers :
  (exists s b, eval growth.run seg.none = Some (Returned (Some b), s) /\ mem b = Some 0%nat /\ s_names s !! name b = None) /\
  (exists s, eval growth.scribble seg.none = Some (Returned (Some 77), s) /\ s_names s !! "/seg" = Some 0%nat).
Proof.
  split.
  - eexists _, (seg.handle 1). vm_compute. done.
  - eexists. vm_compute. done.
Qed.

Module early.

(** Thread 0 creates the object; before it sizes it thread 1 opens it. *)
Definition ts : list (list hop) := [[HAcquire Create]; [HAcquire Open]].
Definition schedule : list (nat * bool) := replicate 1 (0%nat, false) ++ replicate 20 (1%nat, false).
Definition final : shm_sys bool * list (prog (shm_sys bool) (list PlatformShm)) := run_sched schedule (seg.none, users seg.linux 5 "seg" 8 ts).

End early.

(** Opening an existing segment does not wait for its size.  In the mode that never creates,
    a handle opened between the creation and the sizing of the object takes its reference outside
    of the object. *)
Theorem open_can_leave_object :
  exists s ps, pool_reach (seg.none, users seg.linux 5 "seg" 8 early.ts) (s, ps) /\ s_stray s = true.
Proof.
  exists early.final.1, early.final.2. split; [exact (run_sched_reach early.schedule seg.none (users seg.linux 5 "seg" 8 early.ts))|]. by vm_compute.
Qed.
