(* ===== verification/ShmCache.v ===== *)
(** * The process-local cache of mapped segments

    [cached_shm_acquire], [cached_shm_release] and [cached_shm_purge] of [platform/posix.rs], their
    counterparts in [platform/apple.rs], and the opening and dropping of the mutexes and conditions
    that use them ([platform/linux.rs], [platform/apple.rs], [condition.rs]).  All handles of a process
    that stand for one name must share one mapping.

    The threads of one process share a cache behind a mutex; the mutexes and the conditions of a
    process have one each.  An entry is behind an [Arc]: [cs_strong] is its count. *)
From S2P Require Import Prelude Atomics Abi ShmName Concurrent Posix.

(** ** State *)

Record CachedShm := mk_CachedShm { cs_shm : PlatformShm; cs_local_ref : Z; cs_strong : Z }.

(** The local count of an entry: an [AtomicUsize] ([posix.rs]), or an [AtomicI32] ([apple.rs], for
    mutexes); both wrap around. *)
Inductive local_type := Usize | I32.
Definition local_add (u : local_type) (v : Z) : Z := match u with Usize => wrapping_add 64 v 1 | I32 => i32 (v + 1) end.
Definition local_sub (u : local_type) (v : Z) : Z := match u with Usize => wrapping_sub 64 v 1 | I32 => i32 (v - 1) end.

(** [p_entries]: the entries some [Arc] refers to; [p_poisoned]: a holder of the mutex has panicked. *)
Record process := mk_process {
  p_locked : bool;
  p_poisoned : bool;
  p_map : gmap string nat;
  p_entries : gmap nat CachedShm;
  p_next : nat;
}.

Definition ShmCache_new : process := mk_process false false ∅ ∅ 0.

Record pworld (K : Type) := mk_pworld { pw_sys : shm_sys K; pw_proc : process }.
Arguments mk_pworld {K} _ _.
Arguments pw_sys {K} _.
Arguments pw_proc {K} _.

Section fields.
Context {K : Type}.
Definition pw_sys_f : field (pworld K) (shm_sys K) := mk_field pw_sys (fun v w => mk_pworld v (pw_proc w)).
Definition pw_proc_f : field (pworld K) process := mk_field pw_proc (fun v w => mk_pworld (pw_sys w) v).
End fields.

(** ** The cache *)

Section cache.
Context {K : Type} `{!ShmOs K} (t : target).
Abbreviation M := (prog (pworld K)).

(** A step on the state of the process. *)
Definition here {X} (f : process -> X * process) : M X :=
  act (fun w => ((f (pw_proc w)).1, fset pw_proc_f (f (pw_proc w)).2 w)).

Definition system {A} (p : prog (shm_sys K) A) : M A := zoom pw_sys_f p.

Definition set_locked (b : bool) (p : process) : process := mk_process b (p_poisoned p) (p_map p) (p_entries p) (p_next p).

(** [cache.lock()]: whether the mutex is poisoned. *)
Fixpoint lock_cache (n : nat) : M bool :=
  match n with
  | O => Spin
  | S n =>
      r ← here (fun p => if p_locked p then (None, p) else (Some (p_poisoned p), set_locked true p));
      match r with Some poisoned => Ret poisoned | None => lock_cache n end
  end.

Definition unlock_cache : M unit := here (fun p => (tt, set_locked false p)).

(** The guard is dropped by a panic. *)
Definition unlock_panicking : M unit := here (fun p => (tt, mk_process false true (p_map p) (p_entries p) (p_next p))).

(** One reference to an entry is dropped; the last one drops the entry. *)
Definition arc_drop (e : nat) : M unit :=
  last ← here (fun p =>
    match p_entries p !! e with
    | None => (None, p)
    | Some c =>
        if cs_strong c =? 1 then (Some (cs_shm c), mk_process (p_locked p) (p_poisoned p) (p_map p) (delete e (p_entries p)) (p_next p))
        else (None, mk_process (p_locked p) (p_poisoned p) (p_map p)
                      (<[e := mk_CachedShm (cs_shm c) (cs_local_ref c) (cs_strong c - 1)]> (p_entries p)) (p_next p))
    end);
  match last with Some shm => system (drop shm) | None => Ret tt end.

(** [map.get(name)]: the entry with one more local and one more strong reference. *)
Definition get_cached (u : local_type) (name : string) : M (option nat) :=
  here (fun p =>
    match p_map p !! name with
    | None => (None, p)
    | Some e =>
        (Some e, mk_process (p_locked p) (p_poisoned p) (p_map p)
           (alter (fun c => mk_CachedShm (cs_shm c) (local_add u (cs_local_ref c)) (cs_strong c + 1)) e (p_entries p)) (p_next p))
    end).

(** The new entry, referred to by the map and by the caller. *)
Definition insert_cached (name : string) (shm : PlatformShm) : M nat :=
  here (fun p =>
    (p_next p, mk_process (p_locked p) (p_poisoned p) (<[name := p_next p]> (p_map p))
                 (<[p_next p := mk_CachedShm shm 1 2]> (p_entries p)) (S (p_next p)))).

(** The cache around an opener of segments. *)
Definition cached_acquire (u : local_type) (n : nat) (name : string) (opener : prog (shm_sys K) (outcome (io_result PlatformShm))) : M (outcome (io_result nat)) :=
  poisoned ← lock_cache n;
  if (poisoned : bool) then _ ← unlock_panicking; Ret Panicked
  else
    found ← get_cached u name;
    match found with
    | Some e => _ ← unlock_cache; Ret (Returned (Ok e))
    | None =>
        r ← system opener;
        match r with
        | Panicked => _ ← unlock_panicking; Ret Panicked
        | Returned (Err e) => _ ← unlock_cache; Ret (Returned (Err e))
        | Returned (Ok shm) => e ← insert_cached name shm; _ ← unlock_cache; Ret (Returned (Ok e))
        end
    end.

(** The segment, initialised by whoever opens it first. *)
Definition open_and_init (n : nat) (name : string) (size : Z) (init_fn : option nat -> prog (shm_sys K) (io_result unit)) :
    prog (shm_sys K) (outcome (io_result PlatformShm)) :=
  shm ←!? acquire t n name size CreateOrOpen;
  if prev_ref_count shm =? 0 then
    r ← init_fn (as_mut_ptr shm);
    match r with
    | Err e => _ ← drop shm; Ret (Returned (Err e))
    | Ok _ => Ret (Returned (Ok shm))
    end
  else Ret (Returned (Ok shm)).

Definition cached_shm_acquire (n : nat) (name : string) (size : Z) (init_fn : option nat -> prog (shm_sys K) (io_result unit)) : M (outcome (io_result nat)) :=
  cached_acquire Usize n name (open_and_init n name size init_fn).

(** The entry that leaves the map. *)
Definition release_cached (u : local_type) (name : string) : M (option nat) :=
  here (fun p =>
    match p_map p !! name with
    | None => (None, p)
    | Some e =>
        let prev := default 0 (cs_local_ref <$> (p_entries p !! e)) in
        let entries := alter (fun c => mk_CachedShm (cs_shm c) (local_sub u (cs_local_ref c)) (cs_strong c)) e (p_entries p) in
        if prev <=? 1 then (Some e, mk_process (p_locked p) (p_poisoned p) (delete name (p_map p)) entries (p_next p))
        else (None, mk_process (p_locked p) (p_poisoned p) (p_map p) entries (p_next p))
    end).

Definition remove_cached (name : string) : M (option nat) :=
  here (fun p => (p_map p !! name, mk_process (p_locked p) (p_poisoned p) (delete name (p_map p)) (p_entries p) (p_next p))).

(** What leaves the map is dropped before the guard. *)
Definition cached_release (u : local_type) (n : nat) (name : string) : M (outcome unit) :=
  poisoned ← lock_cache n;
  if (poisoned : bool) then _ ← unlock_panicking; Ret Panicked
  else
    gone ← release_cached u name;
    _ ← (match gone with Some e => arc_drop e | None => Ret tt end);
    _ ← unlock_cache;
    Ret (Returned tt).

Definition cached_shm_release (n : nat) (name : string) : M (outcome unit) := cached_release Usize n name.

Definition cached_shm_purge (n : nat) (name : string) : M (outcome unit) :=
  poisoned ← lock_cache n;
  if (poisoned : bool) then _ ← unlock_panicking; Ret Panicked
  else
    gone ← remove_cached name;
    _ ← (match gone with Some e => arc_drop e | None => Ret tt end);
    _ ← unlock_cache;
    Ret (Returned tt).

(** ** Handles of mutexes and conditions *)

(** [write_bytes(base, 0, size)], word by word. *)
Fixpoint write_zeros (k : nat) (o : nat) (off : Z) : prog (shm_sys K) unit :=
  match k with
  | O => Ret tt
  | S k => _ ← write o off 0; write_zeros k o (off + 4)
  end.

(** The payloads of Linux: two links and the futex word, and the sequence word. *)
Definition MUTEX_PAYLOAD_SIZE : Z := 24.
Definition CONDITION_PAYLOAD_SIZE : Z := 4.

(** [acquire_zeroed]. *)
Definition acquire_zeroed (n : nat) (name : string) (size : Z) : M (outcome (io_result nat)) :=
  cached_shm_acquire n name size (fun base =>
    match base with
    | Some o => _ ← write_zeros (Z.to_nat (size / 4)) o 0; Ret (Ok tt)
    | None => Spin
    end).

(** [PlatformMutex] and [PlatformCondition]: an entry and the name it was opened under. *)
Record Platform := mk_Platform { cached : nat; p_name : string }.

Definition opened_as (name : string) (p : M (outcome (io_result nat))) : M (outcome (io_result Platform)) :=
  c ←!? p;
  Ret (Returned (Ok (mk_Platform c name))).

Definition linux_mutex_open (n : nat) (name : string) : M (outcome (io_result Platform)) := opened_as name (acquire_zeroed n name MUTEX_PAYLOAD_SIZE).
Definition linux_condition_open (n : nat) (name : string) : M (outcome (io_result Platform)) := opened_as name (acquire_zeroed n name CONDITION_PAYLOAD_SIZE).

(** [release_mutex_shm] and [purge_mutex_shm] treat their cache as the others do, but for the type
    of the count. *)
Definition release_mutex_shm (n : nat) (logical_name : string) : M (outcome unit) := cached_release I32 n logical_name.
Definition purge_mutex_shm (n : nat) (logical_name : string) : M (outcome unit) := cached_shm_purge n logical_name.

(** Dropping a handle: its drop code, then its field.  [u] is [I32] for the mutex of [apple.rs]. *)
Definition platform_drop (u : local_type) (n : nat) (h : Platform) : M (outcome unit) :=
  r ← (match u with Usize => cached_shm_release n (p_name h) | I32 => release_mutex_shm n (p_name h) end);
  _ ← arc_drop (cached h);
  Ret r.

Definition clear_storage (n : nat) (name : string) : M (outcome unit) :=
  r ← cached_shm_purge n name;
  match r with Panicked => Ret Panicked | Returned _ => system (unlink_by_name t name) end.

(** [AppleCondition::open]: [AppleCondState] with [seq] and [waiters] zero. *)
Definition apple_condition_open (n : nat) (name : string) : M (outcome (io_result Platform)) :=
  opened_as name (cached_shm_acquire n name ulock_cond_size (fun base =>
    match base with
    | Some o => _ ← write o ulock_cond_seq_off 0; _ ← write o ulock_cond_waiters_off 0; Ret (Ok tt)
    | None => Spin
    end)).

(** [acquire_mutex_shm], once the name is not in the cache: nobody waits for the object to be sized. *)
Definition mutex_opener (posix_name : string) : prog (shm_sys K) (outcome (io_result PlatformShm)) :=
  let size := calc_size ulock_mutex_size in
  match c_string posix_name with
  | Err e => Ret (Returned (Err e))
  | Ok c_name =>
      r ← open_fd c_name CreateOrOpen;
      match r with
      | Err e => Ret (Returned (Err e))
      | Ok (fd, is_new) =>
          _ ← act (sys_fchmod fd PERMS);
          tr ← (if (is_new : bool) then act (sys_ftruncate fd size) else Ret (Ok tt));
          match tr with
          | Err e => _ ← act (sys_close fd); Ret (Returned (Err (os_error e)))
          | Ok _ =>
              m ← act (sys_mmap fd size);
              _ ← act (sys_close fd);
              match m with
              | Err e => Ret (Returned (Err (os_error e)))
              | Ok o =>
                  _ ← (if (is_new : bool) then _ ← write o ulock_mutex_state_off 0; write o ulock_mutex_holder_off 0 else Ret tt);
                  prev ← acc_add o size 1;
                  Ret (Returned (Ok (mk_PlatformShm (Some o) size ulock_mutex_size posix_name prev)))
              end
          end
      end
  end.

Definition acquire_mutex_shm (n : nat) (logical_name : string) : M (outcome (io_result nat)) :=
  match make_shm_name t logical_name with
  | None => Ret Panicked
  | Some posix_name => cached_acquire I32 n logical_name (mutex_opener posix_name)
  end.

Definition apple_mutex_open (n : nat) (name : string) : M (outcome (io_result Platform)) := opened_as name (acquire_mutex_shm n name).

Definition apple_mutex_clear_storage (n : nat) (name : string) : M (outcome unit) :=
  r ← purge_mutex_shm n name;
  match r with
  | Panicked => Ret Panicked
  | Returned _ =>
      match make_shm_name t name with
      | None => Ret Panicked
      | Some posix_name =>
          match c_string posix_name with
          | Err _ => Ret (Returned tt)
          | Ok c_name => system (_ ← act (sys_shm_unlink c_name); Ret (Returned tt))
          end
      end
  end.

End cache.

(** ** Apple semaphores *)

Section semaphore.
Context {K : Type} `{!ShmOs K} (t : target).
Abbreviation M := (prog (shm_sys K)).

(** [AppleSemaphore::open]. *)
Definition apple_semaphore_open (n : nat) (name : string) (count : Z) : M (outcome (io_result ShmHandle.ShmHandle)) :=
  if bool_decide (name = "") then Ret (Returned (Err (mk_io_error EkInvalidInput "name is empty")))
  else
    match make_shm_name t name with
    | None => Ret Panicked
    | Some posix_name =>
        shm ←!? ShmHandle.acquire t n posix_name 4 ShmHandle.CreateOrOpen;
        r ← ShmHandle.ref_count shm;
        _ ← (if r <=? 1 then match ShmHandle.get shm with Some o => write o 0 count | None => Spin end else Ret tt);
        Ret (Returned (Ok shm))
    end.

Definition apple_semaphore_clear_storage (name : string) : M (outcome unit) :=
  match make_shm_name t name with
  | None => Ret Panicked
  | Some posix_name => ShmHandle.clear_storage t posix_name
  end.

End semaphore.
