(* ===== verification/CacheShare.v ===== *)
(** * One mapping per name and process

    The threads of a process that open and drop handles of mutexes (or of conditions) under any names,
    interleaved access by access with each other and with other processes.  All live handles of a
    name share one entry of the cache, whose segment stays mapped as long as any of them lives. *)
From S2P Require Import Prelude Atomics Abi ShmName Concurrent Posix PosixShm ShmCache.

(** ** Clients *)

Inductive kind := LinuxMutex | LinuxCondition | AppleCondition | AppleMutex.

Definition local_type_of (kd : kind) : local_type := match kd with AppleMutex => I32 | _ => Usize end.

(** How many handles the local count of an entry has room for. *)
Definition local_max (u : local_type) : Z := match u with Usize => 2 ^ 64 - 1 | I32 => 2 ^ 31 - 1 end.

Inductive cop := COpen (name : string) | CDrop (k : nat) | CClear (name : string).

Section clients.
Context {K : Type} `{!ShmOs K} (t : target) (n : nat) (kd : kind).
Abbreviation M := (prog (pworld K)).

Definition open_kind (name : string) : M (outcome (io_result Platform)) :=
  match kd with
  | LinuxMutex => linux_mutex_open t n name
  | LinuxCondition => linux_condition_open t n name
  | AppleCondition => apple_condition_open t n name
  | AppleMutex => apple_mutex_open t n name
  end.

Definition clear_kind (name : string) : M (outcome unit) :=
  match kd with AppleMutex => apple_mutex_clear_storage t n name | _ => clear_storage t n name end.

(** The handles a thread has open at the end; a panic ends it. *)
Fixpoint thread (ops : list cop) (hs : list Platform) : M (outcome (list Platform)) :=
  match ops with
  | [] => Ret (Returned hs)
  | COpen name :: ops =>
      r ← open_kind name;
      match r with Returned (Ok h) => thread ops (hs ++ [h]) | Returned (Err _) => thread ops hs | Panicked => Ret Panicked end
  | CDrop k :: ops =>
      match hs !! k with
      | Some h => r ← platform_drop (local_type_of kd) n h; match r with Returned _ => thread ops (delete k hs) | Panicked => Ret Panicked end
      | None => thread ops hs
      end
  | CClear name :: ops =>
      r ← clear_kind name;
      match r with Returned _ => thread ops hs | Panicked => Ret Panicked end
  end.

(** A thread of the process, or of another one. *)
Inductive member := Local (ops : list cop) | Remote (p : prog (shm_sys K) unit).

Definition member_prog (x : member) : M (outcome (list Platform)) :=
  match x with Local ops => thread ops [] | Remote p => _ ← system p; Ret (Returned []) end.

Definition members (ts : list member) : list (M (outcome (list Platform))) := member_prog <$> ts.

End clients.
Arguments member K : clear implicits.
Arguments Local {K} _.
Arguments Remote {K} _.

Fixpoint opens (ops : list cop) : Z := match ops with [] => 0 | COpen _ :: ops => 1 + opens ops | _ :: ops => opens ops end.

Definition is_clear (x : cop) : bool := match x with CClear _ => true | _ => false end.

(** ** The invariant

    [cg_cs]: the thread holds the mutex of the cache, and may know that a name is not in the map.
    [cg_refs]: the references it has, by entry and
    name, and whether the entry's local count includes them. *)
Record cref := mk_cref { cr_entry : nat; cr_name : string; cr_counted : bool }.
Record cghost := mk_cghost { cg_cs : option (option string); cg_refs : list cref; cg_left : Z }.

#[export] Instance cref_eq_dec : EqDecision cref.
Proof. solve_decision. Defined.

Definition to_entry (e : nat) (r : cref) : Z := if decide (cr_entry r = e) then 1 else 0.
Definition counts_for (e : nat) (r : cref) : Z := if decide (cr_entry r = e /\ cr_counted r = true) then 1 else 0.

Definition refs1 (e : nat) (g : cghost) : Z := tally (to_entry e) (cg_refs g).
Definition counted1 (e : nat) (g : cghost) : Z := tally (counts_for e) (cg_refs g).
Definition refs (e : nat) (Γ : list cghost) : Z := total (fun _ => refs1 e) 0 Γ.
Definition counted (e : nat) (Γ : list cghost) : Z := total (fun _ => counted1 e) 0 Γ.
Definition croom1 (g : cghost) : Z := tally (fun r => if cr_counted r then 1 else 0) (cg_refs g) + cg_left g.

Definition in_map (p : process) (e : nat) (nm : string) : Prop := p_map p !! nm = Some e.
Definition mapped (p : process) (e : nat) : Prop := exists nm, in_map p e nm.

Section invariant.
Context (purging : bool) (u : local_type).
Implicit Types (p : process) (Γ : list cghost).

(** The local counts mean something only while nobody purges and nobody has panicked. *)
Definition strict p : Prop := purging = false /\ p_poisoned p = false.

Record cache_inv p Γ : Prop := {
  ca_lock j g : Γ !! j = Some g -> is_Some (cg_cs g) -> p_locked p = true;
  ca_alone i j g g' : Γ !! i = Some g -> Γ !! j = Some g' -> is_Some (cg_cs g) -> is_Some (cg_cs g') -> i = j;
  ca_absent j g nm : Γ !! j = Some g -> cg_cs g = Some (Some nm) -> p_map p !! nm = None;
  ca_room : total (fun _ => croom1) 0 Γ <= local_max u;
  ca_left j g : Γ !! j = Some g -> 0 <= cg_left g;
  ca_next e : is_Some (p_entries p !! e) -> (e < p_next p)%nat;
  ca_map e nm : in_map p e nm -> is_Some (p_entries p !! e);
  ca_inj e nm nm' : in_map p e nm -> in_map p e nm' -> nm = nm';
  ca_ref j g r : Γ !! j = Some g -> r ∈ cg_refs g -> is_Some (p_entries p !! cr_entry r);
  ca_open e c : p_entries p !! e = Some c -> is_Some (mem (cs_shm c));
  ca_strong e c : p_entries p !! e = Some c ->
    (mapped p e /\ cs_strong c = 1 + refs e Γ) \/ (~ mapped p e /\ cs_strong c = refs e Γ /\ 1 <= cs_strong c);
  ca_named j g r : strict p -> Γ !! j = Some g -> r ∈ cg_refs g -> cr_counted r = true -> in_map p (cr_entry r) (cr_name r);
  ca_local e nm c : strict p -> in_map p e nm -> p_entries p !! e = Some c -> cs_local_ref c = counted e Γ /\ 1 <= counted e Γ;
}.

Lemma refs_move Γ j g g' e : Γ !! j = Some g -> refs e (<[j := g']> Γ) = refs e Γ - refs1 e g + refs1 e g'.
Proof. intros Hj. unfold refs. by rewrite (total_insert _ _ _ _ _ _ Hj). Qed.

Lemma counted_move Γ j g g' e : Γ !! j = Some g -> counted e (<[j := g']> Γ) = counted e Γ - counted1 e g + counted1 e g'.
Proof. intros Hj. unfold counted. by rewrite (total_insert _ _ _ _ _ _ Hj). Qed.

Lemma refs1_range e g : 0 <= refs1 e g.
Proof. apply tally_range. intros x. unfold to_entry. case_decide; lia. Qed.

Lemma counted1_range e g : 0 <= counted1 e g.
Proof. apply tally_range. intros x. unfold counts_for. case_decide; lia. Qed.

(** A reference is counted among those of its thread, and these among all. *)
Lemma refs_in Γ j g r : Γ !! j = Some g -> r ∈ cg_refs g -> 1 <= refs1 (cr_entry r) g /\ refs1 (cr_entry r) g <= refs (cr_entry r) Γ.
Proof.
  intros Hj [k Hk]%list_elem_of_lookup. split.
  - pose proof (tally_in (to_entry (cr_entry r)) _ _ _ ltac:(intros x; unfold to_entry; case_decide; lia) Hk) as H. unfold to_entry at 1 in H. by rewrite decide_True in H.
  - apply (total_term (fun _ => refs1 (cr_entry r)) 0 Γ j g); [|done]. intros _ x. apply refs1_range.
Qed.

Lemma counted_in Γ j g r : Γ !! j = Some g -> r ∈ cg_refs g -> cr_counted r = true ->
  1 <= counted1 (cr_entry r) g /\ counted1 (cr_entry r) g <= counted (cr_entry r) Γ.
Proof.
  intros Hj [k Hk]%list_elem_of_lookup Hc. split.
  - pose proof (tally_in (counts_for (cr_entry r)) _ _ _ ltac:(intros x; unfold counts_for; case_decide; lia) Hk) as H. unfold counts_for at 1 in H. by rewrite decide_True in H.
  - apply (total_term (fun _ => counted1 (cr_entry r)) 0 Γ j g); [|done]. intros _ x. apply counted1_range.
Qed.

(** With another thread's reference among them, there are more than one thread has. *)
Lemma refs_other Γ i j g gi r : Γ !! j = Some g -> Γ !! i = Some gi -> i <> j -> r ∈ cg_refs gi -> 1 <= refs (cr_entry r) Γ - refs1 (cr_entry r) g.
Proof.
  intros Hj Hi Hij Hr. pose proof (refs_move Γ j g (mk_cghost None [] 0) (cr_entry r) Hj) as E.
  destruct (refs_in (<[j := mk_cghost None [] 0]> Γ) i gi r) as [H1 H2]; [by rewrite list_lookup_insert_ne|done|]. unfold refs1 in E at 2. simpl in E. lia.
Qed.

Lemma counted_other Γ i j g gi r : Γ !! j = Some g -> Γ !! i = Some gi -> i <> j -> r ∈ cg_refs gi -> cr_counted r = true ->
  1 <= counted (cr_entry r) Γ - counted1 (cr_entry r) g.
Proof.
  intros Hj Hi Hij Hr Hc. pose proof (counted_move Γ j g (mk_cghost None [] 0) (cr_entry r) Hj) as E.
  destruct (counted_in (<[j := mk_cghost None [] 0]> Γ) i gi r) as [H1 H2]; [by rewrite list_lookup_insert_ne|done|done|]. unfold counted1 in E at 2. simpl in E. lia.
Qed.

(** Thread [j] moves from [g] to [g']. *)
Lemma cache_move p p' Γ j g g' :
  cache_inv p Γ -> Γ !! j = Some g ->
  (p_locked p' = p_locked p /\ (is_Some (cg_cs g') <-> is_Some (cg_cs g))) \/ (p_locked p = false /\ p_locked p' = true) \/ (is_Some (cg_cs g) /\ cg_cs g' = None) ->
  (forall nm, cg_cs g' = Some (Some nm) -> p_map p' !! nm = None) ->
  p_map p' = p_map p \/ is_Some (cg_cs g) ->
  croom1 g' <= croom1 g -> 0 <= cg_left g' ->
  (forall e, is_Some (p_entries p' !! e) -> (e < p_next p')%nat) ->
  (forall e nm, in_map p' e nm -> is_Some (p_entries p' !! e)) ->
  (forall e nm nm', in_map p' e nm -> in_map p' e nm' -> nm = nm') ->
  (forall e, is_Some (p_entries p !! e) -> is_Some (p_entries p' !! e) \/ refs e Γ - refs1 e g = 0) ->
  (forall r, r ∈ cg_refs g' -> is_Some (p_entries p' !! cr_entry r)) ->
  (forall e c, p_entries p' !! e = Some c -> is_Some (mem (cs_shm c))) ->
  (forall e c, p_entries p' !! e = Some c ->
    let n := refs e Γ - refs1 e g + refs1 e g' in (mapped p' e /\ cs_strong c = 1 + n) \/ (~ mapped p' e /\ cs_strong c = n /\ 1 <= cs_strong c)) ->
  (p_poisoned p = true -> p_poisoned p' = true) ->
  (strict p' -> forall e nm, in_map p e nm -> in_map p' e nm \/ counted e Γ - counted1 e g = 0) ->
  (strict p' -> forall r, r ∈ cg_refs g' -> cr_counted r = true -> in_map p' (cr_entry r) (cr_name r)) ->
  (strict p' -> forall e nm c, in_map p' e nm -> p_entries p' !! e = Some c ->
    let n := counted e Γ - counted1 e g + counted1 e g' in cs_local_ref c = n /\ 1 <= n) ->
  cache_inv p' (<[j := g']> Γ).
Proof.
  intros [] Hj Hlock Habs Hmap Hroom Hleft Hnext Hm Hinj Hlive Hg' Hopen Hstrong Hpois Hkeep Hnamed Hlocal.
  assert (strict p' -> strict p) as Hst by (intros [? ?]; split; [done|]; destruct (p_poisoned p); [|done]; rewrite Hpois in *; done).
  assert (forall i gi, i <> j -> Γ !! i = Some gi -> is_Some (cg_cs gi) -> cg_cs g = None) as Hout.
  { intros i gi Hij Hi Hc. destruct (cg_cs g) eqn:E; [|done]. exfalso. apply Hij. eapply ca_alone0; [done|exact Hj|done|by rewrite E]. }
  constructor; try done.
  - intros i gi. rewrite (lookup_moved _ _ _ _ _ Hj). case_decide as E.
    + intros [= <-] Hc. destruct Hlock as [[-> Hiff]|[[_ ?]|[_ Hn]]]; [eapply ca_lock0; [exact Hj|by apply Hiff]|done|]. rewrite Hn in Hc. by destruct Hc.
    + intros Hi Hc. pose proof (Hout _ _ E Hi Hc) as Hn. pose proof (ca_lock0 _ _ Hi Hc) as Hl. destruct Hlock as [[-> _]|[[? _]|[Hs _]]]; [done|congruence|].
      rewrite Hn in Hs. by destruct Hs.
  - assert (forall i gi, i <> j -> Γ !! i = Some gi -> is_Some (cg_cs gi) -> cg_cs g' = None) as Hout'.
    { intros i gi Hij Hi Hc. pose proof (Hout _ _ Hij Hi Hc) as Hn. pose proof (ca_lock0 _ _ Hi Hc) as Hl.
      destruct Hlock as [[_ Hiff]|[[? _]|[_ ?]]]; [|congruence|done]. destruct (cg_cs g') eqn:E; [|done]. destruct Hiff as [Hiff _].
      destruct Hiff as [? E2]; [by eexists|congruence]. }
    intros i k gi gk. rewrite !(lookup_moved _ _ _ _ _ Hj). repeat case_decide; subst; intros Hi Hk Hc Hc'; simplify_eq; [done| | |by eapply ca_alone0].
    + rewrite (Hout' k gk) in Hc by done. by destruct Hc.
    + rewrite (Hout' i gi) in Hc' by done. by destruct Hc'.
  - intros i gi nm. rewrite (lookup_moved _ _ _ _ _ Hj). case_decide as E; [by intros [= <-] ?; apply Habs|]. intros Hi Hc.
    destruct Hmap as [->|Hs]; [by eapply ca_absent0|]. rewrite (Hout i gi) in Hs; [by destruct Hs|done|done|by eexists].
  - rewrite (total_insert _ _ _ _ _ _ Hj). lia.
  - intros i gi. rewrite (lookup_moved _ _ _ _ _ Hj). case_decide; [by intros [= <-]|eauto].
  - intros i gi r. rewrite (lookup_moved _ _ _ _ _ Hj). case_decide as E; [by intros [= <-]; apply Hg'|]. intros Hi Hr.
    destruct (Hlive (cr_entry r)) as [?|H0]; [by eapply ca_ref0|done|]. pose proof (refs_other _ _ _ _ _ _ Hj Hi E Hr). lia.
  - intros e c He. specialize (Hstrong e c He). by rewrite (refs_move _ _ _ _ _ Hj).
  - intros i gi r Hp. rewrite (lookup_moved _ _ _ _ _ Hj). case_decide as E; [by intros [= <-]; apply Hnamed|]. intros Hi Hr Hc.
    destruct (Hkeep Hp _ _ (ca_named0 _ _ _ (Hst Hp) Hi Hr Hc)) as [?|H0]; [done|]. pose proof (counted_other _ _ _ _ _ _ Hj Hi E Hr Hc). lia.
  - intros e nm c Hp Hi He. rewrite (counted_move _ _ _ _ _ Hj). by eapply Hlocal.
Qed.

End invariant.

Lemma tally_insert {A} (f : A -> Z) l k x y : l !! k = Some x -> tally f (<[k := y]> l) = tally f l - f x + f y.
Proof. revert k. induction l as [|z l IH]; intros k Hk; [done|]. destruct k as [|k]; simpl in *; [simplify_eq; lia|]. rewrite (IH _ Hk). lia. Qed.

(** ** The operations *)

Definition set_cs (c : option (option string)) (g : cghost) : cghost := mk_cghost c (cg_refs g) (cg_left g).
Definition set_refs (l : list cref) (g : cghost) : cghost := mk_cghost (cg_cs g) l (cg_left g).
Definition gains (r : cref) (g : cghost) : cghost := mk_cghost (Some None) (cg_refs g ++ [r]) (cg_left g - 1).
Definition uncount (r : cref) : cref := mk_cref (cr_entry r) (cr_name r) false.

Section operations.
Context {K : Type} `{!ShmOs K} (t : target) (n : nat) (purging : bool) (u : local_type).
Implicit Types (w : pworld K) (p : process) (Γ : list cghost).
Abbreviation M := (prog (pworld K)).
Abbreviation inv := (fun (w : pworld K) Γ => cache_inv purging u (pw_proc w) Γ).
Abbreviation wp := (wpc inv).

Lemma wp_here {A X} j (f : process -> X * process) (h : X -> M A) g Q :
  (forall p Γ, cache_inv purging u p Γ -> Γ !! j = Some g -> exists g', cache_inv purging u (f p).2 (<[j := g']> Γ) /\ wp j (h (f p).1) g' Q) ->
  wp j (here f ≫= h) g Q.
Proof. intros H. apply wpc_act. intros w Γ HI Hj. by apply (H (pw_proc w)). Qed.

(** Calls into the system leave the process alone. *)
Lemma wp_system {A B} j (p : prog (shm_sys K) B) (P : B -> Prop) (h : B -> M A) g Q :
  always p P -> (forall b, P b -> wp j (h b) g Q) -> wp j (system p ≫= h) g Q.
Proof.
  intros Hp Hh. apply wpc_bind. unfold system. induction p as [b| |X f k IH|k IH]; simpl in *; [by apply Hh|done| |].
  - intros w Γ HI Hj. exists g. rewrite list_insert_id by done. specialize (Hp (pw_sys w)). destruct (f (pw_sys w)) as [x s']. split; [done|]. by apply IH.
  - intros b. by apply IH.
Qed.

(** A step that concerns the mutex of the cache only. *)
Lemma cache_cs p p' Γ j g c :
  cache_inv purging u p Γ -> Γ !! j = Some g -> p_map p' = p_map p -> p_entries p' = p_entries p -> p_next p' = p_next p ->
  (p_locked p' = p_locked p /\ (is_Some c <-> is_Some (cg_cs g))) \/ (p_locked p = false /\ p_locked p' = true) \/ (is_Some (cg_cs g) /\ c = None) ->
  (forall nm, c = Some (Some nm) -> p_map p !! nm = None) -> p_poisoned p' = p_poisoned p ->
  cache_inv purging u p' (<[j := set_cs c g]> Γ).
Proof.
  intros HI Hj Em Ee En Hlock Habs Eq. destruct p' as [l q m' e' n']. simpl in *. subst m' e' n' q. pose proof HI as []. eapply cache_move; try done; eauto.
  - exact (ca_left0 _ _ Hj).
  - intros e c' He. unfold refs1. simpl. destruct (ca_strong0 e c' He) as [[? ->]|(? & -> & ?)]; [left|right]; (split; [done|]); lia.
  - intros Hp e nm c' Hi He. unfold counted1. simpl. destruct (ca_local0 e nm c' Hp Hi He). lia.
Qed.

Lemma lock_cache_wp j g : cg_cs g = None -> wp j (lock_cache n) g (fun _ g' => g' = set_cs (Some None) g).
Proof.
  intros Hg. induction n as [|k IH]; [done|]. cbn [lock_cache]. apply wp_here. intros p Γ HI Hj. destruct (p_locked p) eqn:E; simpl.
  - exists g. by rewrite list_insert_id.
  - exists (set_cs (Some None) g). split; [|done]. eapply cache_cs; try done. by right; left.
Qed.

Lemma wp_unlock_cache {A} j g (h : unit -> M A) Q :
  is_Some (cg_cs g) -> wp j (h tt) (set_cs None g) Q -> wp j (unlock_cache ≫= h) g Q.
Proof. intros Hg Hh. apply wp_here. intros p Γ HI Hj. exists (set_cs None g). split; [|done]. eapply (cache_cs p); try done. right. by right. Qed.

(** After a panic the local counts mean nothing. *)
Lemma wp_unlock_panicking {A} j g (h : unit -> M A) Q :
  is_Some (cg_cs g) -> wp j (h tt) (mk_cghost None (uncount <$> cg_refs g) (cg_left g)) Q -> wp j (unlock_panicking ≫= h) g Q.
Proof.
  intros Hg Hh. apply wp_here. intros p Γ HI Hj. eexists. split; [|exact Hh]. pose proof HI as [].
  assert (forall e, refs1 e (mk_cghost None (uncount <$> cg_refs g) (cg_left g)) = refs1 e g) as Er.
  { intros e. unfold refs1. cbn [cg_refs]. clear. induction (cg_refs g) as [|x l IH]; [done|]. rewrite fmap_cons. cbn [tally]. rewrite IH. done. }
  eapply cache_move; try done; cbn [p_locked p_map p_entries p_next snd]; eauto.
  - unfold croom1. cbn [cg_refs cg_left]. assert (tally (fun r => if cr_counted r then 1 else 0) (uncount <$> cg_refs g) <= tally (fun r => if cr_counted r then 1 else 0) (cg_refs g)); [|lia].
    clear. induction (cg_refs g) as [|x l IH]; [done|]. rewrite fmap_cons. cbn [tally uncount cr_counted]. destruct (cr_counted x); lia.
  - exact (ca_left0 _ _ Hj).
  - intros r (x & -> & Hx)%list_elem_of_fmap. exact (ca_ref0 _ _ _ Hj Hx).
  - intros e c He. rewrite Er. destruct (ca_strong0 e c He) as [[? ->]|(? & -> & ?)]; [left|right]; (split; [done|]); lia.
  - by intros [_ ?].
  - by intros [_ ?].
Qed.

(** No local count comes near to overflowing. *)
Lemma counted_room p Γ j g e : cache_inv purging u p Γ -> Γ !! j = Some g -> 0 <= counted e Γ /\ counted e Γ + cg_left g <= local_max u.
Proof.
  intros [] Hj. split; [apply total_nonneg; intros; apply counted1_range|].
  pose proof (total_insert (fun _ => croom1) 0 Γ j g (mk_cghost None (cg_refs g) 0) Hj) as E. unfold croom1 in E at 3 4. simpl in E.
  assert (counted e Γ <= total (fun _ => croom1) 0 (<[j := mk_cghost None (cg_refs g) 0]> Γ)); [|lia].
  replace (counted e Γ) with (counted e (<[j := mk_cghost None (cg_refs g) 0]> Γ)) by (rewrite (counted_move _ _ _ _ _ Hj); unfold counted1; simpl; lia).
  assert (forall l : list cref, tally (counts_for e) l <= tally (fun r => if cr_counted r then 1 else 0) l) as Hle.
  { intros l. apply tally_le. intros r _. unfold counts_for. case_decide as Hd; [destruct Hd as [_ ->]; lia|]. destruct (cr_counted r); lia. }
  apply total_le. intros k gk. rewrite (lookup_moved _ _ _ _ _ Hj). unfold croom1, counted1. case_decide.
  - intros [= <-]. specialize (Hle (cg_refs g)). simpl. lia.
  - intros Hk. specialize (ca_left0 _ _ Hk). specialize (Hle (cg_refs gk)). lia.
Qed.

Lemma local_add_id v : 0 <= v < local_max u -> local_add u v = v + 1.
Proof. destruct u; simpl; intros H; [unfold wrapping_add; apply wrap_id; unfold is_u; lia|apply i32_id; lia]. Qed.

Lemma local_sub_id v : 1 <= v <= local_max u -> local_sub u v = v - 1.
Proof. destruct u; simpl; intros H; [unfold wrapping_sub; apply wrap_id; unfold is_u; lia|apply i32_id; lia]. Qed.

Lemma refs1_app e c l r x : refs1 e (mk_cghost c (l ++ [r]) x) = tally (to_entry e) l + if decide (cr_entry r = e) then 1 else 0.
Proof. unfold refs1. cbn [cg_refs]. rewrite tally_app. simpl. unfold to_entry at 2. lia. Qed.

Lemma counted1_app e c l r x : counted1 e (mk_cghost c (l ++ [r]) x) = tally (counts_for e) l + if decide (cr_entry r = e /\ cr_counted r = true) then 1 else 0.
Proof. unfold counted1. cbn [cg_refs]. rewrite tally_app. simpl. unfold counts_for at 2. lia. Qed.

Lemma croom_gains r g : cr_counted r = true -> croom1 (gains r g) = croom1 g.
Proof. intros Hr. unfold croom1, gains. cbn [cg_refs cg_left]. rewrite tally_app. simpl. rewrite Hr. lia. Qed.

(** An entry found gains a reference. *)
Lemma inv_found p Γ j g e nm :
  cache_inv purging u p Γ -> Γ !! j = Some g -> is_Some (cg_cs g) -> 1 <= cg_left g -> in_map p e nm ->
  cache_inv purging u (mk_process (p_locked p) (p_poisoned p) (p_map p)
    (alter (fun c => mk_CachedShm (cs_shm c) (local_add u (cs_local_ref c)) (cs_strong c + 1)) e (p_entries p)) (p_next p))
    (<[j := gains (mk_cref e nm true) g]> Γ).
Proof.
  intros HI Hj Hcs Hl Hm. destruct (counted_room _ _ _ _ e HI Hj) as [Hc0 Hc1]. pose proof HI as [].
  assert (forall e', is_Some (alter (fun c => mk_CachedShm (cs_shm c) (local_add u (cs_local_ref c)) (cs_strong c + 1)) e (p_entries p) !! e') <-> is_Some (p_entries p !! e')) as Hd.
  { intros e'. destruct (decide (e' = e)) as [->|Hne]; [rewrite lookup_alter_eq, fmap_is_Some; done|by rewrite lookup_alter_ne]. }
  eapply cache_move; try done; cbn [p_locked p_map p_entries p_next].
  - left. split; [done|]. split; [done|]. by eexists.
  - by left.
  - by rewrite croom_gains.
  - unfold gains. simpl. lia.
  - intros e' He. by apply ca_next0, Hd.
  - intros e' nm' He. apply Hd. by eapply ca_map0.
  - intros e' He. left. by apply Hd.
  - intros r. unfold gains. cbn [cg_refs]. rewrite elem_of_app, list_elem_of_singleton. intros [Hr| ->]; apply Hd; [by eapply ca_ref0|by eapply ca_map0].
  - intros e' c. rewrite lookup_alter_Some. intros [(-> & c0 & H0 & ->)|[_ ?]]; [by eapply (ca_open0 _ _ H0)|by eapply ca_open0].
  - intros e' c He. unfold gains. rewrite refs1_app. cbn [cr_entry]. change (tally (to_entry e') (cg_refs g)) with (refs1 e' g).
    apply lookup_alter_Some in He as [(-> & c0 & H0 & ->)|[Hne H0]].
    + rewrite decide_True by done. destruct (ca_strong0 _ _ H0) as [[? E]|[Hn _]]; [left; split; [done|]; simpl; lia|]. exfalso. apply Hn. by exists nm.
    + rewrite decide_False by done. destruct (ca_strong0 _ _ H0) as [[? E]|(? & E & ?)]; [left|right]; (split; [done|]); lia.
  - by left.
  - intros Hp r. unfold gains. cbn [cg_refs]. rewrite elem_of_app, list_elem_of_singleton. intros [Hr| ->] Hc; [by eapply ca_named0|done].
  - intros Hp e' nm' c Hi He. unfold gains. rewrite counted1_app. cbn [cr_entry cr_counted]. change (tally (counts_for e') (cg_refs g)) with (counted1 e' g).
    apply lookup_alter_Some in He as [(-> & c0 & H0 & ->)|[Hne H0]].
    + rewrite decide_True by done. destruct (ca_local0 _ _ _ Hp Hi H0) as [E ?]. cbn [cs_local_ref]. rewrite E, local_add_id by lia. lia.
    + rewrite decide_False by (by intros [? _]). destruct (ca_local0 _ _ _ Hp Hi H0). lia.
Qed.

(** A new entry. *)
Lemma inv_new p Γ j g nm shm :
  cache_inv purging u p Γ -> Γ !! j = Some g -> cg_cs g = Some (Some nm) -> 1 <= cg_left g -> is_Some (mem shm) ->
  cache_inv purging u (mk_process (p_locked p) (p_poisoned p) (<[nm := p_next p]> (p_map p)) (<[p_next p := mk_CachedShm shm 1 2]> (p_entries p)) (S (p_next p)))
    (<[j := gains (mk_cref (p_next p) nm true) g]> Γ).
Proof.
  intros HI Hj Hcs Hl Hmem. pose proof HI as []. set (e := p_next p) in *.
  assert (p_entries p !! e = None) as Hnone.
  { destruct (p_entries p !! e) eqn:E; [|done]. assert (e < e)%nat; [apply ca_next0; by eexists|lia]. }
  assert (p_map p !! nm = None) as Habs by eauto.
  assert (forall i gi r, Γ !! i = Some gi -> r ∈ cg_refs gi -> cr_entry r <> e) as Hnor.
  { intros i gi r Hi Hr E. destruct (ca_ref0 _ _ _ Hi Hr) as [c Hc]. congruence. }
  assert (refs e Γ = 0 /\ counted e Γ = 0) as [Hr0 Hc0].
  { assert (0 <= counted e Γ <= refs e Γ) as Hcr.
    { split; [apply total_nonneg; intros; apply counted1_range|]. apply total_le. intros k gk _. apply tally_le. intros r _. unfold counts_for, to_entry. case_decide as H1; case_decide as H2; lia || by destruct H1. }
    assert (refs e Γ = 0); [|lia]. destruct (Z.eq_dec (refs e Γ) 0) as [?|Hne]; [done|]. destruct (total_pos (fun _ => refs1 e) 0 Γ) as (k & gk & Hk & Hpos).
    { change (0 < refs e Γ). lia. }
    exfalso. unfold refs1 in Hpos. assert (tally (to_entry e) (cg_refs gk) <= tally (fun _ => 0) (cg_refs gk)) as Hle.
    { apply tally_le. intros r Hr. unfold to_entry. rewrite decide_False; [lia|]. by eapply Hnor. }
    assert (forall l : list cref, tally (fun _ => 0) l = 0) as Hz by (intros l; induction l; simpl; lia). rewrite Hz in Hle. lia. }
  assert (refs1 e g = 0 /\ counted1 e g = 0) as [Hr1 Hc1].
  { pose proof (total_term (fun _ => refs1 e) 0 Γ j g ltac:(intros; apply refs1_range) Hj) as H1. pose proof (total_term (fun _ => counted1 e) 0 Γ j g ltac:(intros; apply counted1_range) Hj) as H2.
    pose proof (refs1_range e g). pose proof (counted1_range e g). change (refs1 e g <= refs e Γ) in H1. change (counted1 e g <= counted e Γ) in H2. lia. }
  assert (forall e' nm', in_map p e' nm' -> e' <> e /\ nm' <> nm) as Hold.
  { intros e' nm' Hi. split; [intros ->; destruct (ca_map0 _ _ Hi); congruence|intros ->; unfold in_map in Hi; congruence]. }
  eapply cache_move; try done; unfold mapped, in_map; cbn [p_locked p_map p_entries p_next].
  - left. split; [done|]. rewrite Hcs. split; by eexists.
  - right. by rewrite Hcs.
  - by rewrite croom_gains.
  - unfold gains. simpl. lia.
  - intros e'. destruct (decide (e' = e)) as [->|Hne]; [lia|]. rewrite lookup_insert_ne by done. intros He. pose proof (ca_next0 _ He). lia.
  - intros e' nm'. rewrite lookup_insert_Some. intros [[<- <-]|[_ Hi]]; [rewrite lookup_insert_eq; by eexists|]. rewrite lookup_insert_ne; [by eapply ca_map0|]. intros <-. by destruct (Hold _ _ Hi).
  - intros e' nm1 nm2. rewrite !lookup_insert_Some. intros [[<- <-]|[_ Hi]] [[<- E]|[_ Hi']]; try done; [by destruct (Hold _ _ Hi')|subst; by destruct (Hold _ _ Hi)|by eapply ca_inj0].
  - intros e' He. left. rewrite lookup_insert_ne; [done|]. intros <-. rewrite Hnone in He. by destruct He.
  - intros r. unfold gains. cbn [cg_refs]. rewrite elem_of_app, list_elem_of_singleton. intros [Hr| ->]; [|rewrite lookup_insert_eq; by eexists].
    rewrite lookup_insert_ne; [by eapply ca_ref0|]. intros E. by eapply Hnor.
  - intros e' c. rewrite lookup_insert_Some. intros [[<- <-]|[_ He]]; [done|by eapply ca_open0].
  - intros e' c. unfold gains. rewrite refs1_app. cbn [cr_entry]. change (tally (to_entry e') (cg_refs g)) with (refs1 e' g). rewrite lookup_insert_Some. intros [[<- <-]|[Hne He]].
    + left. split; [exists nm; apply lookup_insert_eq|]. rewrite decide_True by done. simpl. lia.
    + rewrite decide_False by done. destruct (ca_strong0 _ _ He) as [[[nm' Hi] E]|(Hn & E & ?)].
      * left. split; [|lia]. exists nm'. rewrite lookup_insert_ne; [done|]. intros <-. by destruct (Hold _ _ Hi).
      * right. split; [|lia]. intros [nm' Hi]. apply Hn. exists nm'. apply lookup_insert_Some in Hi as [[_ ?]|[_ ?]]; done.
  - intros _ e' nm' Hi. left. rewrite lookup_insert_ne; [done|]. intros <-. by destruct (Hold _ _ Hi).
  - intros Hp r. unfold gains. cbn [cg_refs]. rewrite elem_of_app, list_elem_of_singleton. intros [Hr| ->] Hc; [|apply lookup_insert_eq].
    pose proof (ca_named0 _ _ _ Hp Hj Hr Hc) as Hi. rewrite lookup_insert_ne; [done|]. intros E. by destruct (Hold _ _ Hi).
  - intros Hp e' nm' c. unfold gains. rewrite counted1_app. cbn [cr_entry cr_counted]. change (tally (counts_for e') (cg_refs g)) with (counted1 e' g).
    rewrite !lookup_insert_Some. intros [[<- <-]|[Hne Hi]] [[E <-]|[Hne' He]]; try done.
    + rewrite decide_True by done. cbn [cs_local_ref]. lia.
    + subst e'. by destruct (Hold _ _ Hi).
    + rewrite decide_False by (by intros [? _]). destruct (ca_local0 _ _ _ Hp Hi He). lia.
Qed.

(** One reference fewer. *)
Lemma inv_dropped p Γ j g k r c :
  cache_inv purging u p Γ -> Γ !! j = Some g -> cg_refs g !! k = Some r -> cr_counted r = false -> p_entries p !! cr_entry r = Some c ->
  cache_inv purging u
    (mk_process (p_locked p) (p_poisoned p) (p_map p)
      (if cs_strong c =? 1 then delete (cr_entry r) (p_entries p)
       else <[cr_entry r := mk_CachedShm (cs_shm c) (cs_local_ref c) (cs_strong c - 1)]> (p_entries p)) (p_next p))
    (<[j := set_refs (delete k (cg_refs g)) g]> Γ).
Proof.
  intros HI Hj Hk Hr Hc. pose proof HI as []. set (e := cr_entry r) in *.
  destruct (refs_in Γ j g r Hj) as [H1 H2]; [by eapply list_elem_of_lookup_2|]. fold e in H1, H2.
  assert (forall e', refs1 e' (set_refs (delete k (cg_refs g)) g) = refs1 e' g - if decide (e' = e) then 1 else 0) as Er.
  { intros e'. unfold refs1, set_refs. cbn [cg_refs]. rewrite (tally_delete _ _ _ _ Hk). unfold to_entry at 2. fold e. repeat case_decide; congruence || lia. }
  assert (forall e', counted1 e' (set_refs (delete k (cg_refs g)) g) = counted1 e' g) as Ec.
  { intros e'. unfold counted1, set_refs. cbn [cg_refs]. rewrite (tally_delete _ _ _ _ Hk). unfold counts_for at 2. rewrite decide_False; [lia|]. intros [_ ?]. congruence. }
  assert (forall x, x ∈ delete k (cg_refs g) -> x ∈ cg_refs g) as Hsub by (intros x Hx; by eapply elem_of_submseteq, submseteq_delete).
  set (entries := if cs_strong c =? 1 then _ else _).
  assert (forall e', e' <> e -> entries !! e' = p_entries p !! e') as Hne.
  { intros e' He'. unfold entries. destruct (_ =? 1); [by apply lookup_delete_ne|by apply lookup_insert_ne]. }
  assert (is_Some (entries !! e) \/ (refs e Γ = 1 /\ ~ mapped p e /\ entries !! e = None)) as Hcase.
  { unfold entries. destruct (Z.eqb_spec (cs_strong c) 1) as [E|E]; [right|left; rewrite lookup_insert_eq; by eexists].
    destruct (ca_strong0 _ _ Hc) as [[? ?]|(? & ? & _)]; [lia|]. split; [lia|]. split; [done|]. apply lookup_delete_eq. }
  eapply cache_move; try done; cbn [p_locked p_map p_entries p_next].
  - by left.
  - eauto.
  - by left.
  - unfold croom1, set_refs. cbn [cg_refs cg_left]. rewrite (tally_delete _ _ _ _ Hk). rewrite Hr. lia.
  - exact (ca_left0 _ _ Hj).
  - intros e' He'. destruct (decide (e' = e)) as [->|E]; [apply ca_next0; by eexists|]. rewrite Hne in He' by done. by apply ca_next0.
  - intros e' nm' Hi. destruct (decide (e' = e)) as [->|E]; [|rewrite Hne by done; by eapply ca_map0]. destruct Hcase as [?|(_ & Hn & _)]; [done|]. exfalso. apply Hn. by exists nm'.
  - intros e' He'. destruct (decide (e' = e)) as [->|E]; [|left; by rewrite Hne]. destruct Hcase as [?|(E & _)]; [by left|right; lia].
  - intros x Hx. apply Hsub in Hx as Hx'. destruct (decide (cr_entry x = e)) as [Ex|E]; [|rewrite Hne by done; by eapply ca_ref0]. rewrite Ex.
    destruct Hcase as [?|(E & _)]; [done|]. exfalso.
    assert (1 <= refs1 e (set_refs (delete k (cg_refs g)) g)) as H3; [|rewrite Er, decide_True in H3 by done; lia].
    apply list_elem_of_lookup in Hx as [i Hi]. pose proof (tally_in (to_entry e) _ _ _ ltac:(intros y; unfold to_entry; case_decide; lia) Hi) as H4.
    unfold to_entry at 1 in H4. by rewrite decide_True in H4.
  - intros e' c'. destruct (decide (e' = e)) as [->|E]; [|rewrite Hne by done; apply ca_open0]. unfold entries. destruct (_ =? 1); [by rewrite lookup_delete_eq|].
    rewrite lookup_insert_eq. intros [= <-]. exact (ca_open0 _ _ Hc).
  - intros e' c' He'. rewrite Er. destruct (decide (e' = e)) as [->|E].
    + revert He'. unfold entries. destruct (Z.eqb_spec (cs_strong c) 1); [by rewrite lookup_delete_eq|]. rewrite lookup_insert_eq. intros [= <-].
      destruct (ca_strong0 _ _ Hc) as [[? E]|(? & E & ?)]; [left|right]; (split; [done|]); simpl; lia.
    + rewrite Hne in He' by done. destruct (ca_strong0 _ _ He') as [[? E']|(? & E' & ?)]; [left|right]; (split; [done|]); lia.
  - by left.
  - intros Hp x Hx Hcx. eapply ca_named0; [done|exact Hj|by apply Hsub|done].
  - intros Hp e' nm' c' Hi He'. rewrite Ec. destruct (decide (e' = e)) as [->|E].
    + revert He'. unfold entries. destruct (_ =? 1); [by rewrite lookup_delete_eq|]. rewrite lookup_insert_eq. intros [= <-]. destruct (ca_local0 _ _ _ Hp Hi Hc). simpl. lia.
    + rewrite Hne in He' by done. destruct (ca_local0 _ _ _ Hp Hi He'). lia.
Qed.

(** The name of an entry leaves the map; its reference passes to the thread, whose own one at [k] is
    no longer counted. *)
Lemma inv_removed p Γ j g nm e (entries : gmap nat CachedShm) l :
  cache_inv purging u p Γ -> Γ !! j = Some g -> is_Some (cg_cs g) -> in_map p e nm ->
  (forall e', (fun c => (cs_shm c, cs_strong c)) <$> (entries !! e') = (fun c => (cs_shm c, cs_strong c)) <$> (p_entries p !! e')) ->
  (forall e', tally (to_entry e') l = refs1 e' g) -> (forall x, x ∈ l -> exists y, y ∈ cg_refs g /\ cr_entry x = cr_entry y /\ cr_name x = cr_name y /\ (cr_counted x = true -> cr_counted y = true)) ->
  tally (fun r => if cr_counted r then 1 else 0) l <= tally (fun r => if cr_counted r then 1 else 0) (cg_refs g) ->
  (strict purging p -> counted e Γ = 1 /\ counted1 e g = 1 /\ tally (counts_for e) l = 0 /\ forall e', e' <> e -> entries !! e' = p_entries p !! e' /\ tally (counts_for e') l = counted1 e' g) ->
  cache_inv purging u (mk_process (p_locked p) (p_poisoned p) (delete nm (p_map p)) entries (p_next p))
    (<[j := mk_cghost (Some None) (l ++ [mk_cref e nm false]) (cg_left g)]> Γ).
Proof.
  intros HI Hj Hcs Hm Hen Hl Hlx Hroom Hlocal. pose proof HI as [].
  assert (forall e', is_Some (entries !! e') <-> is_Some (p_entries p !! e')) as Hd.
  { intros e'. specialize (Hen e'). destruct (entries !! e'), (p_entries p !! e'); simpl in Hen; try discriminate Hen; split; intros []; by eexists. }
  assert (forall e' c, entries !! e' = Some c -> exists c0, p_entries p !! e' = Some c0 /\ cs_shm c = cs_shm c0 /\ cs_strong c = cs_strong c0) as Hsame.
  { intros e' c He'. specialize (Hen e'). rewrite He' in Hen. destruct (p_entries p !! e') as [c0|]; simpl in Hen; [|discriminate Hen]. exists c0. by simplify_eq. }
  eapply cache_move; try done; unfold mapped, in_map; cbn [p_locked p_map p_entries p_next].
  - left. split; [done|]. split; [done|]. by eexists.
  - by right.
  - unfold croom1. cbn [cg_refs cg_left]. rewrite tally_app. simpl. lia.
  - exact (ca_left0 _ _ Hj).
  - intros e' He'. by apply ca_next0, Hd.
  - intros e' nm' [_ Hi]%lookup_delete_Some. apply Hd. by eapply ca_map0.
  - intros e' n1 n2 [_ Hi]%lookup_delete_Some [_ Hi']%lookup_delete_Some. by eapply ca_inj0.
  - intros e' He'. left. by apply Hd.
  - intros x. cbn [cg_refs]. rewrite elem_of_app, list_elem_of_singleton. intros [Hx| ->]; apply Hd; [|by eapply ca_map0].
    destruct (Hlx _ Hx) as (y & Hy & -> & _). by eapply ca_ref0.
  - intros e' c He'. destruct (Hsame _ _ He') as (c0 & H0 & -> & _). by eapply ca_open0.
  - intros e' c He'. rewrite refs1_app, Hl. cbn [cr_entry]. destruct (Hsame _ _ He') as (c0 & H0 & _ & ->). destruct (ca_strong0 _ _ H0) as [[[nm' Hi] E]|(Hn & E & ?)].
    + destruct (decide (e = e')) as [<-|Hne].
      * right. split; [intros [nm2 Hi2]|]. { apply lookup_delete_Some in Hi2 as [Hne Hi2]. apply Hne. by eapply ca_inj0. }
        pose proof (refs1_range e g). pose proof (total_term (fun _ => refs1 e) 0 Γ j g ltac:(intros; apply refs1_range) Hj) as Hle. change (refs1 e g <= refs e Γ) in Hle. lia.
      * left. split; [|lia]. exists nm'. rewrite lookup_delete_Some. split; [|done]. intros <-. apply Hne. unfold in_map in *. congruence.
    + rewrite decide_False by (intros <-; apply Hn; by exists nm). right. split; [|lia]. intros [nm' [_ Hi]%lookup_delete_Some]. apply Hn. by exists nm'.
  - intros Hp e' nm' Hi. destruct (Hlocal Hp) as (Hc & Hc1 & _). destruct (decide (nm' = nm)) as [->|Hne]; [right|left; by apply lookup_delete_Some].
    assert (e' = e) as -> by (unfold in_map in *; congruence). lia.
  - intros Hp x. cbn [cg_refs]. rewrite elem_of_app, list_elem_of_singleton. intros [Hx| ->] Hcx; [|done]. destruct (Hlx _ Hx) as (y & Hy & Ey & Ny & Cy).
    pose proof (ca_named0 _ _ _ Hp Hj Hy (Cy Hcx)) as Hi. rewrite Ey, Ny. apply lookup_delete_Some. split; [|done]. intros E. destruct (Hlocal Hp) as (_ & _ & H0 & _).
    assert (cr_entry x = e) as Ex by (rewrite <- E in Hi; unfold in_map in *; congruence). apply list_elem_of_lookup in Hx as [i Hx].
    pose proof (tally_in (counts_for e) _ _ _ ltac:(intros z; unfold counts_for; case_decide; lia) Hx) as H4. unfold counts_for at 1 in H4. rewrite decide_True in H4 by done. lia.
  - intros Hp e' nm' c [Hne Hi]%lookup_delete_Some He'. rewrite counted1_app. cbn [cr_entry cr_counted]. rewrite decide_False by (by intros [_ ?]).
    destruct (Hlocal Hp) as (_ & _ & _ & Ho). assert (e' <> e) as Hne' by (intros ->; apply Hne; by eapply ca_inj0). destruct (Ho _ Hne') as [E1 E2]. rewrite E1 in He'. rewrite E2.
    destruct (ca_local0 _ _ _ Hp Hi He'). lia.
Qed.

(** The own reference at [k] stops counting, and the entry's local count says so. *)
Lemma inv_uncounted p Γ j g k r (entries : gmap nat CachedShm) :
  cache_inv purging u p Γ -> Γ !! j = Some g -> cg_refs g !! k = Some r -> cr_counted r = true ->
  (forall e', (fun c => (cs_shm c, cs_strong c)) <$> (entries !! e') = (fun c => (cs_shm c, cs_strong c)) <$> (p_entries p !! e')) ->
  (strict purging p -> 2 <= counted (cr_entry r) Γ /\ forall e' c, entries !! e' = Some c ->
     exists c0, p_entries p !! e' = Some c0 /\ cs_local_ref c = cs_local_ref c0 - if decide (e' = cr_entry r) then 1 else 0) ->
  cache_inv purging u (mk_process (p_locked p) (p_poisoned p) (p_map p) entries (p_next p)) (<[j := set_refs (<[k := uncount r]> (cg_refs g)) g]> Γ).
Proof.
  intros HI Hj Hk Hr Hen Hlocal. pose proof HI as [].
  assert (forall e', is_Some (entries !! e') <-> is_Some (p_entries p !! e')) as Hd.
  { intros e'. specialize (Hen e'). destruct (entries !! e'), (p_entries p !! e'); simpl in Hen; try discriminate Hen; split; intros []; by eexists. }
  assert (forall e' c, entries !! e' = Some c -> exists c0, p_entries p !! e' = Some c0 /\ cs_shm c = cs_shm c0 /\ cs_strong c = cs_strong c0) as Hsame.
  { intros e' c He'. specialize (Hen e'). rewrite He' in Hen. destruct (p_entries p !! e') as [c0|]; simpl in Hen; [|discriminate Hen]. exists c0. by simplify_eq. }
  assert (forall e', refs1 e' (set_refs (<[k := uncount r]> (cg_refs g)) g) = refs1 e' g) as Er.
  { intros e'. unfold refs1, set_refs. cbn [cg_refs]. rewrite (tally_insert _ _ _ _ _ Hk). unfold to_entry at 2 3, uncount. cbn [cr_entry]. lia. }
  assert (forall e', counted1 e' (set_refs (<[k := uncount r]> (cg_refs g)) g) = counted1 e' g - if decide (e' = cr_entry r) then 1 else 0) as Ec.
  { intros e'. unfold counted1, set_refs. cbn [cg_refs]. rewrite (tally_insert _ _ _ _ _ Hk). unfold counts_for at 2 3, uncount. cbn [cr_entry cr_counted].
    rewrite (decide_False (P := _ /\ false = true)) by (by intros [_ ?]). destruct (decide (e' = cr_entry r)) as [->|Hne]; [rewrite decide_True by done|rewrite decide_False by (intros [? _]; congruence)]; lia. }
  assert (forall x, x ∈ <[k := uncount r]> (cg_refs g) -> exists y, y ∈ cg_refs g /\ cr_entry x = cr_entry y /\ cr_name x = cr_name y /\ (cr_counted x = true -> cr_counted y = true)) as Hsub.
  { intros x [i Hi]%list_elem_of_lookup. apply list_lookup_insert_Some in Hi as [(_ & <- & _)|[_ Hi]].
    - exists r. split; [by eapply list_elem_of_lookup_2|done].
    - exists x. split; [by eapply list_elem_of_lookup_2|done]. }
  eapply cache_move; try done; cbn [p_locked p_map p_entries p_next].
  - by left.
  - eauto.
  - by left.
  - unfold croom1, set_refs. cbn [cg_refs cg_left]. rewrite (tally_insert _ _ _ _ _ Hk). cbn [uncount cr_counted]. rewrite Hr. lia.
  - exact (ca_left0 _ _ Hj).
  - intros e' He'. by apply ca_next0, Hd.
  - intros e' nm' Hi. apply Hd. by eapply ca_map0.
  - intros e' He'. left. by apply Hd.
  - intros x Hx. destruct (Hsub _ Hx) as (y & Hy & -> & _). apply Hd. by eapply ca_ref0.
  - intros e' c He'. destruct (Hsame _ _ He') as (c0 & H0 & -> & _). by eapply ca_open0.
  - intros e' c He'. rewrite Er. destruct (Hsame _ _ He') as (c0 & H0 & _ & ->). destruct (ca_strong0 _ _ H0) as [[? E]|(? & E & ?)]; [left|right]; (split; [done|]); lia.
  - by left.
  - intros Hp x Hx Hcx. destruct (Hsub _ Hx) as (y & Hy & -> & -> & Hcy). by eapply (ca_named0 _ _ _ Hp Hj Hy), Hcy.
  - intros Hp e' nm' c Hi He'. rewrite Ec. destruct (Hlocal Hp) as [H2 Hl]. destruct (Hl _ _ He') as (c0 & H0 & ->). destruct (ca_local0 _ _ _ Hp Hi H0).
    destruct (decide (e' = cr_entry r)) as [->|]; lia.
Qed.

Lemma arc_drop_wp j g k r :
  cg_refs g !! k = Some r -> cr_counted r = false -> wp j (arc_drop (cr_entry r)) g (fun _ g' => g' = set_refs (delete k (cg_refs g)) g).
Proof.
  intros Hk Hr. apply wp_here. intros p Γ HI Hj. pose proof HI as []. destruct (ca_ref0 _ _ r Hj) as [c Hc]; [by eapply list_elem_of_lookup_2|]. rewrite Hc.
  exists (set_refs (delete k (cg_refs g)) g). pose proof (inv_dropped p Γ j g k r c HI Hj Hk Hr Hc) as HI'. destruct (cs_strong c =? 1); (split; [done|]); cbn [fst]; [|done].
  apply wpc_tail, (wp_system _ _ (fun _ => True)); [apply always_true|done].
Qed.

(** The references once the one at [k] has been released, and perhaps the map's taken over. *)
Definition released (k : nat) (r : cref) (gone : option nat) (g : cghost) : cghost :=
  mk_cghost (Some None) (<[k := uncount r]> (cg_refs g) ++ match gone with Some e => [mk_cref e (cr_name r) false] | None => [] end) (cg_left g).

Lemma release_cached_wp j g k r :
  cg_cs g = Some None -> cg_refs g !! k = Some r -> cr_counted r = true -> wp j (release_cached u (cr_name r)) g (fun gone g' => g' = released k r gone g).
Proof.
  intros Hcs Hk Hr. apply wpc_tail, wp_here. intros p Γ HI Hj. pose proof HI as [].
  assert (r ∈ cg_refs g) as Hin by (by eapply list_elem_of_lookup_2). destruct (counted_in Γ j g r Hj Hin Hr) as [H1 H2].
  assert (set_refs (<[k := uncount r]> (cg_refs g)) g = released k r None g) as Eg by (unfold set_refs, released; by rewrite app_nil_r, Hcs).
  destruct (p_map p !! cr_name r) as [e|] eqn:Em.
  2:{ exists (released k r None g). split; [|done]. rewrite <- Eg. cbn [snd]. destruct p as [l q m es nx]. eapply (inv_uncounted (mk_process l q m es nx)); try done.
      intros Hp. pose proof (ca_named0 _ _ _ Hp Hj Hin Hr) as Hi. unfold in_map in Hi. congruence. }
  set (entries := alter _ e (p_entries p)). destruct (ca_map0 e (cr_name r) Em) as [c Hc]. rewrite Hc. change (default 0 (cs_local_ref <$> Some c)) with (cs_local_ref c). cbv zeta.
  assert (forall e', (fun c => (cs_shm c, cs_strong c)) <$> (entries !! e') = (fun c => (cs_shm c, cs_strong c)) <$> (p_entries p !! e')) as Hen.
  { intros e'. unfold entries. destruct (decide (e' = e)) as [->|Hne]; [rewrite lookup_alter_eq, Hc; done|by rewrite lookup_alter_ne]. }
  assert (strict purging p -> e = cr_entry r /\ cs_local_ref c = counted e Γ /\ counted e Γ <= local_max u) as Hst.
  { intros Hp. pose proof (ca_named0 _ _ _ Hp Hj Hin Hr) as Hi. assert (e = cr_entry r) by (unfold in_map in Hi; congruence). subst e. split; [done|].
    destruct (ca_local0 _ _ _ Hp Hi Hc) as [-> _]. split; [done|]. destruct (counted_room _ _ _ _ (cr_entry r) HI Hj). pose proof (ca_left0 _ _ Hj). lia. }
  destruct (Z.leb_spec (cs_local_ref c) 1) as [Hle|Hle]; cbn [fst snd].
  - exists (released k r (Some e) g). split; [|done]. eapply inv_removed; try done.
    + intros e'. rewrite (tally_insert _ _ _ _ _ Hk). unfold to_entry at 2 3, refs1, uncount. cbn [cr_entry]. lia.
    + intros x [i Hi]%list_elem_of_lookup. apply list_lookup_insert_Some in Hi as [(_ & <- & _)|[_ Hi]]; [by exists r|exists x; split; [by eapply list_elem_of_lookup_2|done]].
    + rewrite (tally_insert _ _ _ _ _ Hk). cbn [uncount cr_counted]. rewrite Hr. lia.
    + intros Hp. destruct (Hst Hp) as (-> & El & _). split; [lia|]. split; [lia|].
      assert (forall e', tally (counts_for e') (<[k := uncount r]> (cg_refs g)) = counted1 e' g - if decide (e' = cr_entry r) then 1 else 0) as Ec.
      { intros e'. rewrite (tally_insert _ _ _ _ _ Hk). unfold counts_for at 2 3, uncount, counted1. cbn [cr_entry cr_counted].
        rewrite (decide_False (P := _ /\ false = true)) by (by intros [_ ?]). destruct (decide (e' = cr_entry r)) as [->|Hne]; [rewrite decide_True by done|rewrite decide_False by (intros [? _]; congruence)]; lia. }
      split; [rewrite Ec, decide_True by done; lia|]. intros e' Hne. split; [by apply lookup_alter_ne|]. rewrite Ec, decide_False by done. lia.
  - exists (released k r None g). split; [|done]. rewrite <- Eg. eapply inv_uncounted; try done. intros Hp. destruct (Hst Hp) as (-> & El & Hb). split; [lia|].
    intros e' c' He'. apply lookup_alter_Some in He' as [(<- & c0 & H0 & ->)|[Hne H0]]; [exists c0|exists c']; (split; [done|]).
    + rewrite decide_True by done. rewrite Hc in H0. simplify_eq. cbn [cs_local_ref]. by rewrite local_sub_id by lia.
    + rewrite decide_False by done. lia.
Qed.

Lemma remove_cached_wp j g nm :
  cg_cs g = Some None -> purging = true ->
  wp j (remove_cached nm) g (fun gone g' => g' = match gone with Some e => mk_cghost (Some None) (cg_refs g ++ [mk_cref e nm false]) (cg_left g) | None => g end).
Proof.
  intros Hcs Hpur. apply wpc_tail, wp_here. intros p Γ HI Hj. cbn [fst snd]. destruct (p_map p !! nm) as [e|] eqn:Em.
  - exists (mk_cghost (Some None) (cg_refs g ++ [mk_cref e nm false]) (cg_left g)). split; [|done].
    eapply inv_removed; try done; [intros x Hx; by exists x|]. intros [? _]. congruence.
  - exists g. rewrite list_insert_id by done. split; [|done]. rewrite delete_id by done. by destruct p.
Qed.

(** *** Openers return a mapping *)

Definition has_mem (r : outcome (io_result PlatformShm)) : Prop := match r with Returned (Ok h) => is_Some (mem h) | _ => True end.

Lemma always_skip {A B} (p : prog (shm_sys K) A) (h : A -> prog (shm_sys K) B) Q : (forall a, always (h a) Q) -> always (p ≫= h) Q.
Proof. intros Hh. apply always_bind. eapply always_conseq; [apply always_true|]. auto. Qed.

Lemma acquire_mem nm size mode : always (acquire t n nm size mode) has_mem.
Proof.
  unfold acquire. case_bool_decide; [done|]. destruct (size =? 0); [done|]. destruct (make_shm_name t nm); [|done]. destruct (c_string _); [|done].
  apply always_skip. intros [[fd need]|e]; [|done]. apply always_skip. intros _. apply always_skip. intros [[]|e].
  - apply always_bind. unfold mmap_and_finish. apply always_skip. intros m. apply always_skip. intros _. destruct m as [o|e]; [|done]. apply always_skip. intros v. by eexists.
  - by apply always_skip.
Qed.

Lemma open_and_init_mem nm size init : always (open_and_init t n nm size init) has_mem.
Proof.
  apply always_bind. eapply always_conseq; [apply acquire_mem|]. intros [[h|e]|] Hh; simpl in Hh; [|done|done]. destruct (_ =? 0); [|done].
  apply always_skip. intros [[]|e]; [done|]. by apply always_skip.
Qed.

Lemma mutex_opener_mem pn : always (mutex_opener pn) has_mem.
Proof.
  unfold mutex_opener. destruct (c_string pn); [|done]. apply always_skip. intros [[fd is_new]|e]; [|done]. apply always_skip. intros _. apply always_skip. intros [[]|e].
  - apply always_skip. intros [o|e]; apply always_skip; intros _; [|done]. apply always_skip. intros _. apply always_skip. intros v. by eexists.
  - by apply always_skip.
Qed.

(** *** Handles *)

Definition ref_of (h : Platform) : cref := mk_cref (cached h) (p_name h) true.

Abbreviation open_post nm g := (fun r g' =>
  match r with
  | Returned (Ok e) => g' = mk_cghost None (cg_refs g ++ [mk_cref e nm true]) (cg_left g - 1)
  | Returned (Err _) => g' = g
  | Panicked => True
  end).

Lemma cached_acquire_wp j g nm op :
  cg_cs g = None -> 1 <= cg_left g -> always op has_mem -> wp j (cached_acquire u n nm op) g (open_post nm g).
Proof.
  intros Hcs Hl Hop. apply wpc_bind. eapply wpc_conseq; [by apply lock_cache_wp|]. intros poisoned g0 ->. destruct poisoned; [apply wp_unlock_panicking; [by eexists|done]|].
  assert (forall c, set_cs None (set_cs c g) = g) as Eg by (intros c; rewrite <- Hcs; by destruct g).
  apply wp_here. intros p Γ HI Hj. destruct (p_map p !! nm) as [e|] eqn:E; cbn [fst snd].
  - exists (gains (mk_cref e nm true) (set_cs (Some None) g)). split; [apply inv_found; [done|done|by eexists|done|done]|]. apply wp_unlock_cache; [by eexists|done].
  - exists (set_cs (Some (Some nm)) g). split.
    { change (set_cs (Some (Some nm)) g) with (set_cs (Some (Some nm)) (set_cs (Some None) g)). eapply cache_cs; try done; [left; split; [done|]; split; by eexists|]. by intros nm' [= <-]. }
    clear p Γ HI Hj E. eapply wp_system; [exact Hop|]. intros [[shm|e]|] Hm; cbn [has_mem] in Hm.
    + apply wp_here. intros p Γ HI Hj. cbn [fst snd]. exists (gains (mk_cref (p_next p) nm true) (set_cs (Some (Some nm)) g)). split; [by apply inv_new|].
      apply wp_unlock_cache; [by eexists|done].
    + apply wp_unlock_cache; [by eexists|]. apply Eg.
    + apply wp_unlock_panicking; [by eexists|done].
Qed.

Lemma open_kind_wp j g kd nm : u = local_type_of kd ->
  cg_cs g = None -> 1 <= cg_left g ->
  wp j (open_kind t n kd nm) g (fun r g' =>
    match r with
    | Returned (Ok h) => g' = mk_cghost None (cg_refs g ++ [ref_of h]) (cg_left g - 1)
    | Returned (Err _) => g' = g
    | Panicked => True
    end).
Proof.
  intros Hu Hcs Hl. assert (forall op, always op has_mem -> wp j (opened_as nm (cached_acquire u n nm op)) g (fun r g' =>
    match r with
    | Returned (Ok h) => g' = mk_cghost None (cg_refs g ++ [ref_of h]) (cg_left g - 1)
    | Returned (Err _) => g' = g
    | Panicked => True
    end)) as Hop.
  { intros op Hm. apply wpc_bind. eapply wpc_conseq; [by apply cached_acquire_wp|]. intros [[e|e]|] g'; done. }
  destruct kd; cbn [local_type_of] in Hu; rewrite Hu in *; cbn [open_kind]; [apply Hop, open_and_init_mem|apply Hop, open_and_init_mem|apply Hop, open_and_init_mem|].
  unfold apple_mutex_open, acquire_mutex_shm. destruct (make_shm_name t nm); [apply Hop, mutex_opener_mem|done].
Qed.

(** Dropping a temporary reference at the end of the list. *)
Lemma arc_drop_last j g l r : cg_refs g = l ++ [r] -> cr_counted r = false -> wp j (arc_drop (cr_entry r)) g (fun _ g' => g' = set_refs l g).
Proof.
  intros El Hr. eapply wpc_conseq; [apply (arc_drop_wp _ _ (length l)); [rewrite El; by apply list_lookup_middle|done]|]. intros _ g' ->. by rewrite El, delete_middle, app_nil_r.
Qed.

Lemma delete_insert_same {A} (l : list A) k x : delete k (<[k := x]> l) = delete k l.
Proof. revert k. induction l as [|y l IH]; intros [|k]; try done. change (y :: delete k (<[k := x]> l) = y :: delete k l). by rewrite IH. Qed.

Lemma platform_drop_wp j g k h :
  cg_cs g = None -> cg_refs g !! k = Some (ref_of h) ->
  wp j (platform_drop u n h) g (fun r g' => match r with Returned _ => g' = set_refs (delete k (cg_refs g)) g | Panicked => True end).
Proof.
  intros Hcs Hk. unfold platform_drop, cached_shm_release, release_mutex_shm.
  replace (match u with Usize => cached_release Usize n (p_name h) | I32 => cached_release I32 n (p_name h) end) with (cached_release (K:=K) u n (p_name h)) by (by destruct u).
  unfold cached_release. apply wpc_bind, wpc_bind. eapply wpc_conseq; [by apply lock_cache_wp|]. intros poisoned g0 ->. destruct poisoned.
  - apply wp_unlock_panicking; [by eexists|]. apply wpc_bind. eapply wpc_conseq; [apply (arc_drop_wp _ _ k (uncount (ref_of h))); [cbn [cg_refs set_cs]; by rewrite list_lookup_fmap, Hk|done]|done].
  - apply wpc_bind. eapply wpc_conseq; [by apply (release_cached_wp _ _ k (ref_of h))|]. intros gone g0 ->. cbn [cr_name ref_of]. apply wpc_bind.
    apply (wpc_conseq _ _ _ _ (fun _ g' => g' = mk_cghost (Some None) (<[k := uncount (ref_of h)]> (cg_refs g)) (cg_left g))).
    + destruct gone as [e|]; [|unfold released; cbn [cg_refs set_cs cg_left wpc]; by rewrite app_nil_r].
      eapply wpc_conseq; [by apply (arc_drop_last _ _ (<[k := uncount (ref_of h)]> (cg_refs g)) (mk_cref e (p_name h) false))|]. by intros _ g' ->.
    + intros _ g' ->. apply wp_unlock_cache; [by eexists|]. apply wpc_bind.
      eapply wpc_conseq; [apply (arc_drop_wp _ _ k (uncount (ref_of h))); [|done]|].
      * cbn [cg_refs set_cs]. apply list_lookup_insert_eq. by eapply lookup_lt_Some.
      * intros _ g' ->. unfold set_refs, set_cs. cbn [cg_refs cg_cs cg_left wpc]. by rewrite delete_insert_same, Hcs.
Qed.

Lemma clear_kind_wp j g kd nm :
  cg_cs g = None -> purging = true -> wp j (clear_kind t n kd nm) g (fun r g' => match r with Returned _ => g' = g | Panicked => True end).
Proof.
  intros Hcs Hpur. assert (forall c, set_cs None (set_cs c g) = g) as Eg by (intros c; rewrite <- Hcs; by destruct g).
  assert (wp j (cached_shm_purge n nm) g (fun r g' => match r with Returned _ => g' = g | Panicked => True end)) as Hp.
  2:{ destruct kd; cbn [clear_kind]; try unfold clear_storage; try unfold apple_mutex_clear_storage, purge_mutex_shm; apply wpc_bind;
      (eapply wpc_conseq; [exact Hp|]); intros [[]|] g'; [intros ->|done|intros ->|done|intros ->|done|intros ->|done];
      try (destruct (make_shm_name t nm); [|done]; destruct (c_string _); [|done]);
      (apply wpc_tail, (wp_system _ _ (fun _ => True)); [apply always_true|]; by intros [[]|]). }
  unfold cached_shm_purge. apply wpc_bind. eapply wpc_conseq; [by apply lock_cache_wp|]. intros poisoned g0 ->.
  destruct poisoned; [apply wp_unlock_panicking; [by eexists|done]|]. apply wpc_bind. eapply wpc_conseq; [by apply remove_cached_wp|]. intros gone g0 ->. apply wpc_bind.
  apply (wpc_conseq _ _ _ _ (fun _ g' => g' = set_cs (Some None) g)).
  - destruct gone as [e|]; [|done]. eapply wpc_conseq; [by apply (arc_drop_last _ _ (cg_refs g) (mk_cref e nm false))|]. by intros _ g' ->.
  - intros _ g' ->. apply wp_unlock_cache; [by eexists|]. by rewrite Eg.
Qed.

Lemma local_wp j g kd ops hs : u = local_type_of kd ->
  cg_cs g = None -> cg_refs g = ref_of <$> hs -> opens ops <= cg_left g -> (purging = false -> Forall (fun x => is_clear x = false) ops) ->
  wp j (thread t n kd ops hs) g (fun r g' => match r with Returned hs => cg_cs g' = None /\ cg_refs g' = ref_of <$> hs | Panicked => True end).
Proof.
  intros Hu. revert g hs. induction ops as [|x ops IH]; intros g hs Hcs Er Hl Hclear; [done|].
  assert (0 <= opens ops) as H0 by (clear; induction ops as [|[]]; simpl; lia).
  assert (purging = false -> Forall (fun x => is_clear x = false) ops) as Hclear' by (intros Hp; by apply Hclear, Forall_cons_1 in Hp as [_ ?]).
  destruct x as [nm|k|nm]; cbn [thread]; simpl in Hl.
  - apply wpc_bind. eapply wpc_conseq; [apply open_kind_wp; [done|done|lia]|]. intros [[h|e]|] g'; [|intros ->; apply IH; done || lia|done].
    intros ->. apply IH; [done| |cbn [cg_left]; lia|done]. cbn [cg_refs]. by rewrite Er, fmap_app.
  - destruct (hs !! k) as [h|] eqn:E; [|by apply IH]. apply wpc_bind. rewrite <- Hu. eapply wpc_conseq; [apply (platform_drop_wp _ _ k); [done|by rewrite Er, list_lookup_fmap, E]|].
    intros [[]|] g'; [|done]. intros ->. apply IH; [done| |done|done]. cbn [set_refs cg_refs]. by rewrite Er, list_fmap_delete.
  - assert (purging = true) as Hpur.
    { destruct purging; [done|]. specialize (Hclear eq_refl). by apply Forall_cons_1 in Hclear as [? _]. }
    apply wpc_bind. eapply wpc_conseq; [by apply clear_kind_wp|]. intros [[]|] g'; [|done]. intros ->. by apply IH.
Qed.

End operations.

(** ** The pool *)

Definition cop_count {K} (x : member K) : Z := match x with Local ops => opens ops | Remote _ => 0 end.
Definition all_opens {K} (ts : list (member K)) : Z := total (fun _ => cop_count) 0 ts.

Definition never_clears {K} (x : member K) : Prop := match x with Local ops => Forall (fun x => is_clear x = false) ops | Remote _ => True end.

Abbreviation ends := (fun (_ : nat) (r : outcome (list Platform)) g =>
  match r with Returned hs => cg_cs g = None /\ cg_refs g = ref_of <$> hs | Panicked => True end).

Lemma members_inv {K} `{!ShmOs K} t n kd purging (ts : list (member K)) (w w' : pworld K) ps :
  pw_proc w = ShmCache_new -> all_opens ts <= local_max (local_type_of kd) -> (purging = false -> Forall never_clears ts) ->
  pool_reach (w, members t n kd ts) (w', ps) ->
  exists Γ, cache_inv purging (local_type_of kd) (pw_proc w') Γ /\ verified (fun w Γ => cache_inv purging (local_type_of kd) (pw_proc w) Γ) ends ps Γ.
Proof.
  intros Hw Hroom Hclear Hr. set (start := fun x : member K => mk_cghost None [] (cop_count x)).
  assert (forall j g, (start <$> ts) !! j = Some g -> exists x, g = start x) as Hstart by (intros j g (x & -> & _)%list_lookup_fmap_Some; eauto).
  eapply (pool_verified (fun (w : pworld K) Γ => cache_inv purging (local_type_of kd) (pw_proc w) Γ)); [| |exact Hr].
  - instantiate (1 := start <$> ts). rewrite Hw. constructor; try done.
    + intros j g (x & ->)%Hstart [? ?]. done.
    + intros i j g g' (x & ->)%Hstart _ [? ?]. done.
    + assert (forall i, total (fun _ => croom1) i (start <$> ts) = total (fun _ => cop_count) i ts) as E; [|by rewrite E].
      clear. induction ts as [|x ts IH]; intros i; [done|]. rewrite fmap_cons. cbn [total]. rewrite IH. unfold croom1, start. simpl. lia.
    + intros j g (x & ->)%Hstart. simpl. destruct x as [ops|]; [|done]. simpl. clear. induction ops as [|[]]; simpl; lia.
    + by intros e [? ?].
    + intros j g r (x & ->)%Hstart Hx. by apply not_elem_of_nil in Hx.
    + intros j g r _ (x & ->)%Hstart Hx. by apply not_elem_of_nil in Hx.
  - unfold members. split; [by rewrite !length_fmap|]. intros j p g Hj Hg. rewrite list_lookup_fmap in Hj. rewrite list_lookup_fmap in Hg.
    destruct (ts !! j) as [x|] eqn:E; simplify_eq/=. destruct x as [ops|p]; cbn [member_prog].
    + apply local_wp; [done|done|done|done|]. intros Hp. exact (proj1 (Forall_lookup _ _) (Hclear Hp) _ _ E).
    + apply (wp_system _ _ _ _ (fun _ => True)); [apply always_true|done].
Qed.

(** A handle open in some thread, in all that have finished. *)
Definition live {K} (ps : list (prog (pworld K) (outcome (list Platform)))) (h : Platform) : Prop :=
  exists j hs, ps !! j = Some (Ret (Returned hs)) /\ h ∈ hs.

Lemma live_ref {K} `{!ShmOs K} purging u (w : pworld K) (ps : list (prog (pworld K) (outcome (list Platform)))) Γ h :
  cache_inv purging u (pw_proc w) Γ -> verified (fun w Γ => cache_inv purging u (pw_proc w) Γ) ends ps Γ -> live ps h ->
  exists j g, Γ !! j = Some g /\ ref_of h ∈ cg_refs g.
Proof.
  intros HI Hv (j & hs & Hj & Hh). destruct (verified_ret _ _ _ _ _ _ Hv Hj) as (g & Hg & _ & E). exists j, g. split; [done|]. rewrite E. by apply list_elem_of_fmap_2.
Qed.

(** No handle outlives its mapping.  Threads of a process open, drop and clear mutexes (or
    conditions) of any names, in any interleaving with each other and with other processes, and some
    may panic: the entry of a handle that is open is in memory and its segment has not been released.
    Once all have returned, the entries left are exactly those of the handles left and of the map. *)
Theorem cache_keeps_mappings {K} `{!ShmOs K} t n kd (ts : list (member K)) (w w' : pworld K) ps :
  pw_proc w = ShmCache_new -> all_opens ts <= local_max (local_type_of kd) -> pool_reach (w, members t n kd ts) (w', ps) ->
  (forall h, live ps h -> exists c o, p_entries (pw_proc w') !! cached h = Some c /\ mem (cs_shm c) = Some o) /\
  forall hss, ps = (fun hs => Ret (Returned hs)) <$> hss ->
    forall e, is_Some (p_entries (pw_proc w') !! e) <-> (exists h, h ∈ concat hss /\ cached h = e) \/ mapped (pw_proc w') e.
Proof.
  intros Hw Hroom Hr. destruct (members_inv t n kd true ts w w' ps Hw Hroom ltac:(done) Hr) as (Γ & HI & Hv). pose proof HI as []. split.
  - intros h Hh. destruct (live_ref _ _ _ _ _ _ HI Hv Hh) as (j & g & Hg & Href). destruct (ca_ref0 _ _ _ Hg Href) as [c Hc].
    destruct (ca_open0 _ _ Hc) as [o Ho]. by exists c, o.
  - intros hss -> e. split.
    + intros [c Hc]. destruct (ca_strong0 _ _ Hc) as [[? _]|(_ & E & H1)]; [by right|left]. destruct (total_pos (fun _ => refs1 e) 0 Γ) as (j & g & Hg & Hpos).
      { change (0 < refs e Γ). lia. }
      destruct Hv as [Hl Hv]. destruct (lookup_lt_is_Some_2 hss j) as [hs Hhs].
      { rewrite length_fmap in Hl. rewrite <- Hl. by eapply lookup_lt_Some. }
      destruct (Hv j (Ret (Returned hs)) g) as [_ Er]; [by rewrite list_lookup_fmap, Hhs|done|]. unfold refs1 in Hpos. rewrite Er in Hpos.
      assert (exists h, h ∈ hs /\ cached h = e) as (h & Hh & He).
      { clear -Hpos. induction hs as [|h hs IH]; [simpl in Hpos; lia|]. rewrite fmap_cons in Hpos. cbn [tally] in Hpos. unfold to_entry at 1 in Hpos. cbn [cr_entry ref_of] in Hpos.
        case_decide as E; [exists h; split; [left|done]|]. destruct IH as (h' & Hh' & E'); [lia|]. exists h'. split; [by right|done]. }
      exists h. split; [|done]. apply list_elem_of_In, List.in_concat. exists hs. rewrite <- !list_elem_of_In. split; [by eapply list_elem_of_lookup_2|done].
    + intros [(h & Hh & <-)|[nm Hm]]; [|by eapply ca_map0]. apply list_elem_of_In, List.in_concat in Hh as (hs & Hhs & Hh). rewrite <- list_elem_of_In in Hhs. rewrite <- list_elem_of_In in Hh.
      apply list_elem_of_lookup in Hhs as [j Hj]. destruct (live_ref _ _ _ _ _ h HI Hv) as (i & g & Hg & Href); [|exact (ca_ref0 _ _ _ Hg Href)].
      exists j, hs. split; [by rewrite list_lookup_fmap, Hj|done].
Qed.

(** C10: one mapping per name and process.  As long as nobody clears storage and nobody panics,
    under the same interleavings the open handles of a name all share the entry the cache has for it,
    and once all threads have returned a name is in the cache exactly while it has open handles, with
    the number of them as its local count.  The opens are as many as the local count can hold: 2^31-1 for
    the [AtomicI32] of the Apple mutex, 2^64-1 for the [AtomicUsize] of the others. *)
Theorem cache_shares_mappings {K} `{!ShmOs K} t n kd (ts : list (member K)) (w w' : pworld K) ps :
  pw_proc w = ShmCache_new -> all_opens ts <= local_max (local_type_of kd) -> Forall never_clears ts ->
  pool_reach (w, members t n kd ts) (w', ps) -> p_poisoned (pw_proc w') = false ->
  (forall h, live ps h -> p_map (pw_proc w') !! p_name h = Some (cached h)) /\
  forall hss, ps = (fun hs => Ret (Returned hs)) <$> hss ->
    forall nm e, p_map (pw_proc w') !! nm = Some e ->
    exists c, p_entries (pw_proc w') !! e = Some c /\ cs_local_ref c = tally (fun h => if decide (cached h = e) then 1 else 0) (concat hss) /\ 1 <= cs_local_ref c.
Proof.
  intros Hw Hroom Hclear Hr Hpois. destruct (members_inv t n kd false ts w w' ps Hw Hroom ltac:(done) Hr) as (Γ & HI & Hv). pose proof HI as [].
  assert (strict false (pw_proc w')) as Hst by done. split.
  - intros h Hh. destruct (live_ref _ _ _ _ _ _ HI Hv Hh) as (j & g & Hg & Href). exact (ca_named0 _ _ _ Hst Hg Href eq_refl).
  - intros hss -> nm e Hm. destruct (ca_map0 _ _ Hm) as [c Hc]. exists c. split; [done|]. destruct (ca_local0 _ _ _ Hst Hm Hc) as [-> H1]. split; [|done]. clear -Hv.
    assert (Forall2 (fun g hs => cg_refs g = ref_of <$> hs) Γ hss) as Hall.
    { destruct Hv as [Hl Hv]. apply Forall2_same_length_lookup_2; [by rewrite length_fmap in Hl|]. intros j g hs Hg Hh.
      by apply (Hv j (Ret (Returned hs)) g); [rewrite list_lookup_fmap, Hh|]. }
    unfold counted. generalize 0%nat as i. clear Hv. induction Hall as [|g hs Γ hss E Hall IH]; intros i; [done|]. cbn [total concat]. rewrite tally_app, IH. f_equal.
    unfold counted1. rewrite E. clear. induction hs as [|h hs IH]; [done|]. rewrite fmap_cons. cbn [tally]. rewrite IH. f_equal.
    unfold counts_for. cbn [cr_entry cr_counted ref_of]. repeat case_decide; tauto.
Qed.

(** ** Concrete runs *)

Module host.

Definition home : pworld bool := mk_pworld seg.none ShmCache_new.

(** Another process opens the segment of mutex "m" and stores 77 to its futex word. *)
Definition locker : prog (shm_sys bool) unit :=
  r ← acquire seg.linux 5 "m" MUTEX_PAYLOAD_SIZE CreateOrOpen;
  match r with
  | Returned (Ok h) => match mem h with Some o => write o a0_mtx_ftx_off 77 | None => Ret tt end
  | _ => Ret tt
  end.

Definition turns (k : nat) : list (nat * bool) := flat_map (fun _ => [(0%nat, false); (1%nat, false); (2%nat, false)]) (seq 0 k).

Definition ts : list (member bool) := [Local [COpen "m"; COpen "m"; CDrop 0]; Local [COpen "m"]; Remote locker].
Definition final : pworld bool * list (prog (pworld bool) (outcome (list Platform))) := run_sched (turns 100) (home, members seg.linux 50 LinuxMutex ts).

Lemma host_reached : pool_reach (home, members seg.linux 50 LinuxMutex ts) (final.1, final.2).
Proof. exact (run_sched_reach (turns 100) home (members seg.linux 50 LinuxMutex ts)). Qed.

Definition clearing : list (member bool) := [Local [COpen "m"; CClear "m"; COpen "m"]; Local [COpen "m"; CDrop 0]].
Definition cleared : pworld bool * list (prog (pworld bool) (outcome (list Platform))) := run_sched (turns 100) (home, members seg.linux 50 LinuxMutex clearing).

Lemma host_cleared : pool_reach (home, members seg.linux 50 LinuxMutex clearing) (cleared.1, cleared.2).
Proof. exact (run_sched_reach (turns 100) home (members seg.linux 50 LinuxMutex clearing)). Qed.

End host.

Lemma cache_shares_mappings_witness :
  p_map (pw_proc host.final.1) !! "m" = Some 0%nat /\
  exists c, p_entries (pw_proc host.final.1) !! 0%nat = Some c /\ cs_local_ref c = 2 /\ 1 <= cs_local_ref c.
Proof.
  pose proof (cache_shares_mappings seg.linux 50 LinuxMutex host.ts host.home host.final.1 host.final.2) as H.
  destruct H as [Hl Hc]; [done|by vm_compute|by repeat constructor|exact host.host_reached|by vm_compute|].
  split; [apply (Hl (mk_Platform 0 "m")); exists 1%nat, [mk_Platform 0 "m"]; split; [by vm_compute|left]|].
  apply (Hc [[mk_Platform 0 "m"]; [mk_Platform 0 "m"]; []]) with (nm := "m"); by vm_compute.
Defined.

Lemma cache_keeps_mappings_witness :
  exists c o, p_entries (pw_proc host.cleared.1) !! 0%nat = Some c /\ mem (cs_shm c) = Some o.
Proof.
  pose proof (cache_keeps_mappings seg.linux 50 LinuxMutex host.clearing host.home host.cleared.1 host.cleared.2) as H.
  destruct H as [Hl _]; [done|by vm_compute|exact host.host_cleared|].
  apply (Hl (mk_Platform 0 "m")). exists 0%nat, [mk_Platform 0 "m"; mk_Platform 1 "m"]. split; [by vm_compute|left].
Defined.

(** ** What clearing and late initialisation do *)

Module successor.

(** A mutex is opened, its storage cleared, and opened again; then the first handle is dropped and the
    mutex opened once more. *)
Definition ops : list cop := [COpen "m"; CClear "m"; COpen "m"; CDrop 0].
Definition run (ops : list cop) : prog (pworld bool) (outcome (list Platform)) := thread seg.linux 50 LinuxMutex ops [].

Definition object_of (w : pworld bool) (h : Platform) : option nat := p_entries (pw_proc w) !! cached h ≫= fun c => mem (cs_shm c).

End successor.

(** Dropping a handle from before a clear removes its successor.  The old segment's last
    handle unlinks the name, which by then stands for the new segment, and takes the new entry out of
    the cache: the new handle stays alone, and the next opener in the same process gets a third segment. *)
Theorem clear_then_drop_removes_successor :
  (exists w h, eval (successor.run successor.ops) host.home = Some (Returned [h], w) /\
     successor.object_of w h = Some 1%nat /\ s_names (pw_sys w) !! "/m" = None /\ p_map (pw_proc w) !! "m" = None) /\
  (exists w h h', eval (successor.run (successor.ops ++ [COpen "m"])) host.home = Some (Returned [h; h'], w) /\
     p_name h = p_name h' /\ successor.object_of w h = Some 1%nat /\ successor.object_of w h' = Some 2%nat).
Proof.
  split.
  - eexists _, (mk_Platform 1 "m"). vm_compute. done.
  - eexists _, (mk_Platform 1 "m"), (mk_Platform 2 "m"). vm_compute. done.
Qed.

Module wipe.

Definition ts : list (member bool) := [Local [COpen "m"]; Remote host.locker].

(** This process takes the first reference; the other opens the mutex and locks it; then this one zeroes it. *)
Definition before : list (nat * bool) := replicate 11 (0%nat, false) ++ replicate 20 (1%nat, false).
Definition after : list (nat * bool) := replicate 20 (0%nat, false).
Definition held : pworld bool * list (prog (pworld bool) (outcome (list Platform))) := run_sched before (host.home, members seg.linux 50 LinuxMutex ts).
Definition lost : pworld bool * list (prog (pworld bool) (outcome (list Platform))) := run_sched after (held.1, held.2).

End wipe.

(** The first opener initialises late.  A process that opens a Linux mutex second does not wait
    for the first to zero the payload: it can have locked the mutex already, and the first opener's
    zeroing then frees it. *)
Theorem late_zeroing_frees_lock :
  exists w ps w' ps', pool_reach (host.home, members seg.linux 50 LinuxMutex wipe.ts) (w, ps) /\ pool_reach (w, ps) (w', ps') /\
    ps !! 1%nat = Some (Ret (Returned [])) /\ s_cells (pw_sys w) !!! (0%nat, a0_mtx_ftx_off) = 77 /\
    s_cells (pw_sys w') !!! (0%nat, a0_mtx_ftx_off) = 0.
Proof.
  exists wipe.held.1, wipe.held.2, wipe.lost.1, wipe.lost.2. split; [exact (run_sched_reach wipe.before host.home (members seg.linux 50 LinuxMutex wipe.ts))|].
  split; [exact (run_sched_reach wipe.after wipe.held.1 wipe.held.2)|]. by vm_compute.
Qed.

Module poison.

Definition mac : target := mk_target true true.

(** A name of 36 bytes whose 13th and 14th are one character. *)
Definition bad : string := "aaaaaaaaaaaa" +:+ String (Ascii.ascii_of_nat 195) (String (Ascii.ascii_of_nat 169) "bbbbbbbbbbbbbbbbbbbbbb").

Definition two : prog (pworld bool) (outcome (io_result Platform) * outcome (io_result Platform)) :=
  a ← apple_condition_open mac 50 bad;
  b ← apple_condition_open mac 50 "c";
  Ret (a, b).

End poison.

(** A name that makes [make_shm_name] panic poisons the cache of conditions, whose mutex is held: no
    condition can be opened in the process any more. *)
Theorem panic_poisons_condition_cache :
  exists w, eval poison.two host.home = Some ((Panicked, Panicked), w).
Proof. eexists. vm_compute. done. Qed.

Module semaphores.

(** Two processes open a semaphore with a count of 3; both take their reference before either looks at the counter. *)
Definition opener : prog (shm_sys bool) bool :=
  r ← apple_semaphore_open poison.mac 5 "s" 3;
  Ret (match r with Returned (Ok _) => true | _ => false end).
Definition schedule : list (nat * bool) := replicate 6 (0%nat, false) ++ replicate 20 (1%nat, false) ++ replicate 20 (0%nat, false).
Definition final : shm_sys bool * list (prog (shm_sys bool) bool) := run_sched schedule (seg.none, [opener; opener]).
Definition alone : shm_sys bool * list (prog (shm_sys bool) bool) := run_sched (replicate 20 (0%nat, false)) (seg.none, [opener]).

End semaphores.

(** The count of an Apple semaphore can get lost.  The opener that finds itself alone stores
    the count, but when two open the semaphore at once neither need be alone when it looks: both
    succeed and the count stays 0; one alone sets it to 3. *)
Theorem semaphore_open_can_lose_count :
  (exists s, pool_reach (seg.none, [semaphores.opener; semaphores.opener]) (s, [Ret true; Ret true]) /\ s_cells s !!! (0%nat, 0) = 0) /\
  (exists s, pool_reach (seg.none, [semaphores.opener]) (s, [Ret true]) /\ s_cells s !!! (0%nat, 0) = 3).
Proof.
  split.
  - exists semaphores.final.1. split; [|by vm_compute]. assert (semaphores.final.2 = [Ret true; Ret true]) as <- by (by vm_compute).
    exact (run_sched_reach semaphores.schedule seg.none [semaphores.opener; semaphores.opener]).
  - exists semaphores.alone.1. split; [|by vm_compute]. assert (semaphores.alone.2 = [Ret true]) as <- by (by vm_compute).
    exact (run_sched_reach (replicate 20 (0%nat, false)) seg.none [semaphores.opener]).
Qed.
