(* ===== verification/PosixSem.v ===== *)
(** * POSIX semaphores

    [PosixSemaphore] of [semaphore.rs]: a named semaphore, and beside it a segment of shared memory
    whose counter counts the handles, so that the last one removes the semaphore.  The semaphore calls
    are a parameter ([SemOs]) with their laws ([SemLaws]); the segment is that of Posix.v. *)
From S2P Require Import Prelude Atomics Abi ShmName Concurrent Posix PosixShm.

(** ** The system

    A semaphore is named by a number. *)
Record sem_sys (K : Type) := mk_sem_sys { ss_shm : shm_sys K; ss_names : gmap string nat; ss_counts : gmap nat Z }.
Arguments mk_sem_sys {K} _ _ _.
Arguments ss_shm {K} _.
Arguments ss_names {K} _.
Arguments ss_counts {K} _.

Definition ss_shm_f {K} : field (sem_sys K) (shm_sys K) := mk_field ss_shm (fun v s => mk_sem_sys v (ss_names s) (ss_counts s)).

#[export] Instance ss_shm_lawful {K} : LawfulField (@ss_shm_f K).
Proof. by split. Qed.

Definition SEM_ETIMEDOUT : Z := 110.

(** [sys_sem_open]: with O_CREAT.  A wait call lasts until it has a unit or fails. *)
Class SemOs (K : Type) := {
  sys_sem_open : string -> Z -> sem_sys K -> result nat Z * sem_sys K;
  sys_sem_wait : nat -> prog (sem_sys K) (result unit Z);
  sys_sem_timedwait : nat -> Z -> prog (sem_sys K) (result unit Z);
  sys_sem_post : nat -> sem_sys K -> result unit Z * sem_sys K;
  sys_sem_close : nat -> sem_sys K -> result unit Z * sem_sys K;
  sys_sem_unlink : string -> sem_sys K -> result unit Z * sem_sys K;
}.

Section laws.
Context {K : Type} `{!SemOs K}.
Implicit Type s : sem_sys K.

Definition units s (x : nat) : Z := default 0 (ss_counts s !! x).

Definition sem_alike s s' : Prop := alike (ss_shm s) (ss_shm s') /\ ss_names s' = ss_names s /\ ss_counts s' = ss_counts s.

Definition set_units s (x : nat) (c : Z) : sem_sys K := mk_sem_sys (ss_shm s) (ss_names s) (<[x := c]> (ss_counts s)).

(** A wait took a unit, or nothing. *)
Definition waited (x : nat) (r : result unit Z) s s' : Prop :=
  match r with Ok _ => 0 < units s x /\ sem_alike (set_units s x (units s x - 1)) s' | Err _ => sem_alike s s' end.

Class SemLaws : Prop := {
  law_sem_open c v s : match (sys_sem_open c v s).1 with
    | Ok x => ss_names s !! c = Some x /\ sem_alike s (sys_sem_open c v s).2 \/
              ss_names s !! c = None /\ ss_counts s !! x = None /\
              sem_alike (mk_sem_sys (ss_shm s) (<[c := x]> (ss_names s)) (<[x := v]> (ss_counts s))) (sys_sem_open c v s).2
    | Err _ => sem_alike s (sys_sem_open c v s).2
    end;
  law_sem_wait x : call sem_alike (waited x) (sys_sem_wait x);
  law_sem_timedwait x d : call sem_alike (waited x) (sys_sem_timedwait x d);
  law_sem_post x s : match (sys_sem_post x s).1 with
    | Ok _ => sem_alike (set_units s x (units s x + 1)) (sys_sem_post x s).2
    | Err _ => sem_alike s (sys_sem_post x s).2
    end;
  law_sem_close x s : sem_alike s (sys_sem_close x s).2;
  law_sem_unlink c s : match (sys_sem_unlink c s).1 with
    | Ok _ => sem_alike (mk_sem_sys (ss_shm s) (delete c (ss_names s)) (ss_counts s)) (sys_sem_unlink c s).2
    | Err _ => sem_alike s (sys_sem_unlink c s).2
    end;
}.

End laws.
Arguments SemLaws K {_}.

(** ** [PosixSemaphore] *)

Module PosixSemaphore.

Record PosixSemaphore := mk_PosixSemaphore { handle : nat; sem_name : string; refs : option PlatformShm }.

Section semaphore.
Context {K : Type} `{!ShmOs K, !SemOs K} (t : target).
Abbreviation M := (prog (sem_sys K)).

Definition raw (name : string) : string := name +:+ "_s".

Definition open (n : nat) (name : string) (count : Z) : M (outcome (io_result PosixSemaphore)) :=
  if bool_decide (name = "") then Ret (Returned (Err (mk_io_error EkInvalidInput "name is empty")))
  else
    match make_shm_name t (raw name) with
    | None => Ret Panicked
    | Some posix_name =>
        match c_string posix_name with
        | Err e => Ret (Returned (Err e))
        | Ok c_name =>
            refs ←!? zoom ss_shm_f (acquire t n name 1 CreateOrOpen);
            h ← act (sys_sem_open c_name count);
            match h with
            | Err e => _ ← zoom ss_shm_f (drop refs); Ret (Returned (Err (os_error e)))
            | Ok x => Ret (Returned (Ok (mk_PosixSemaphore x c_name (Some refs))))
            end
        end
    end.

(** [SystemTime::now] and the deadline on the same clock. *)
Definition timed_wait (s : PosixSemaphore) (ms : Z) : M (io_result bool) :=
  tm ← now (sub_field ss_shm_f s_clk_f);
  r ← sys_sem_timedwait (handle s) (tm + ms * MILLI);
  Ret (match r with Ok _ => Ok true | Err e => if e =? SEM_ETIMEDOUT then Ok false else Err (os_error e) end).

Definition wait (s : PosixSemaphore) (timeout_ms : option Z) : M (io_result bool) :=
  match timeout_ms with
  | None =>
      r ← sys_sem_wait (handle s);
      Ret (match r with Ok _ => Ok true | Err e => Err (os_error e) end)
  | Some ms => timed_wait s ms
  end.

Fixpoint post_loop (k : nat) (s : PosixSemaphore) : M (io_result unit) :=
  match k with
  | O => Ret (Ok tt)
  | S k =>
      r ← act (sys_sem_post (handle s));
      match r with Ok _ => post_loop k s | Err e => Ret (Err (os_error e)) end
  end.

Definition post (s : PosixSemaphore) (count : Z) : M (io_result unit) := post_loop (Z.to_nat count) s.

Definition clear_storage (name : string) : M (outcome unit) :=
  match make_shm_name t (raw name) with
  | None => Ret Panicked
  | Some posix_name =>
      _ ← (match c_string posix_name with Ok c_name => _ ← act (sys_sem_unlink c_name); Ret tt | Err _ => Ret tt end);
      zoom ss_shm_f (unlink_by_name t name)
  end.

(** [is_some_and]: the segment is released if it has not been taken. *)
Definition drop_sem (s : PosixSemaphore) : M unit :=
  _ ← act (sys_sem_close (handle s));
  last ← (match refs s with Some r => p ← zoom ss_shm_f (release r); Ret (p <=? 1) | None => Ret false end);
  if (last : bool) then _ ← act (sys_sem_unlink (sem_name s)); Ret tt else Ret tt.

End semaphore.
End PosixSemaphore.
Import PosixSemaphore.

(** ** Clients

    A thread opens handles, waits on them, posts to them and drops them. *)
Inductive semop := SemOpen | SemWait (k : nat) (tm : option Z) | SemPost (k : nat) (c : Z) | SemDrop (k : nat).

(** The handles left, the successful waits, the units of the posts that succeeded, and of all posts. *)
Record tally_of := mk_tally { t_handles : list PosixSemaphore; t_taken : Z; t_given : Z; t_asked : Z }.

Section clients.
Context {K : Type} `{!ShmOs K, !SemOs K} (t : target) (n : nat) (nm : string) (count : Z).
Abbreviation M := (prog (sem_sys K)).

Fixpoint sem_user (ops : list semop) (y : tally_of) : M tally_of :=
  match ops with
  | [] => Ret y
  | SemOpen :: ops =>
      r ← open t n nm count;
      sem_user ops (match r with Returned (Ok s) => mk_tally (t_handles y ++ [s]) (t_taken y) (t_given y) (t_asked y) | _ => y end)
  | SemWait k tm :: ops =>
      match t_handles y !! k with
      | None => sem_user ops y
      | Some s =>
          r ← wait s tm;
          sem_user ops (if bool_decide (r = Ok true) then mk_tally (t_handles y) (t_taken y + 1) (t_given y) (t_asked y) else y)
      end
  | SemPost k c :: ops =>
      match t_handles y !! k with
      | None => sem_user ops y
      | Some s =>
          r ← post s c;
          sem_user ops (mk_tally (t_handles y) (t_taken y) (match r with Ok _ => t_given y + Z.max 0 c | Err _ => t_given y end) (t_asked y + Z.max 0 c))
      end
  | SemDrop k :: ops =>
      match t_handles y !! k with
      | None => sem_user ops y
      | Some s => _ ← drop_sem s; sem_user ops (mk_tally (delete k (t_handles y)) (t_taken y) (t_given y) (t_asked y))
      end
  end.

Definition nothing : tally_of := mk_tally [] 0 0 0.
Definition sem_users (ts : list (list semop)) : list (M tally_of) := (fun ops => sem_user ops nothing) <$> ts.

Fixpoint sem_opens (ops : list semop) : Z :=
  match ops with [] => 0 | SemOpen :: ops => 1 + sem_opens ops | _ :: ops => sem_opens ops end.

End clients.

(** ** The invariant

    Beside the state of the segment ([shm_inv]): the name stands for semaphore [x0], whose units are
    those it had, those posted and not those taken. *)
Record sghost := mk_sghost { sg_taken : Z; sg_posted : Z }.

Definition net (_ : nat) (g : sghost) : Z := sg_posted g - sg_taken g.

Definition sem_inv {K} (sn : string) (x0 : nat) (init : Z) (s : sem_sys K) (Γ : list sghost) : Prop :=
  ss_names s !! sn = Some x0 /\ units s x0 = init + total net 0 Γ.

Section operations.
Context {K : Type} `{!ShmOs K, !ShmLaws K, !SemOs K, !SemLaws K} (t : target) (n : nat) (nm pn sn : string) (count : Z) (fds0 : gmap Z nat).
Context (base : nat -> Z) (pin : nat) (ours : nat -> Prop) (x0 : nat) (init : Z).
Context (Hname : nm <> "") (Hposix : make_shm_name t nm = Some pn) (Hnul : c_string pn = Ok pn).
Context (Hsem : make_shm_name t (raw nm) = Some sn) (Hsnul : c_string sn = Ok sn).
Implicit Types (s : sem_sys K) (Γ : list (hghost * sghost)).
Abbreviation M := (prog (sem_sys K)).
Abbreviation shm := (shm_inv (K:=K) pn (calc_size 1) fds0 base (Some pin) false ours).
Abbreviation inv := (fun s Γ => shm (fget ss_shm_f s) (fst <$> Γ) /\ sem_inv sn x0 init s (snd <$> Γ)).
Abbreviation wp := (wpc inv).

Lemma sem_wp_shm {A B} j (p : prog (shm_sys K) A) (h : A -> M B) g1 g2 Q R :
  wpc shm j p g1 Q -> (forall a g, Q a g -> wp j (h a) (g, g2) R) -> wp j (zoom ss_shm_f p ≫= h) (g1, g2) R.
Proof.
  intros Hp Hh. apply wpc_bind. eapply wpc_conseq; [by apply (wpc_zoom ss_shm_f shm (sem_inv sn x0 init) j p g1 g2 Q)|].
  intros a [g g'] [Ha Hg]. simpl in *. subst. by apply Hh.
Qed.

(** A step that leaves the segment alone. *)
Lemma sem_step s s' Γ j g1 g2 g2' :
  inv s Γ -> Γ !! j = Some (g1, g2) -> alike (ss_shm s) (ss_shm s') -> ss_names s' = ss_names s ->
  units s' x0 - units s x0 = net j g2' - net j g2 -> inv s' (<[j := (g1, g2')]> Γ).
Proof.
  intros [H1 [Hn Hu]] Hj Ha En Eu. split.
  - rewrite list_fmap_insert. simpl. rewrite list_insert_id by (by rewrite list_lookup_fmap, Hj). eapply inv_alike; done.
  - split; [by rewrite En|]. rewrite list_fmap_insert. simpl. rewrite (total_insert _ _ _ _ g2) by (by rewrite list_lookup_fmap, Hj). simpl. lia.
Qed.

Lemma sem_still s s' Γ j g : inv s Γ -> Γ !! j = Some g -> sem_alike s s' -> inv s' (<[j := g]> Γ).
Proof. intros HI Hj (Ha & En & Ec). destruct g as [g1 g2]. apply (sem_step s s' Γ j g1 g2); try done. unfold units. rewrite Ec. lia. Qed.

Lemma sem_wp_still {A X} j (f : sem_sys K -> X * sem_sys K) (h : X -> M A) g Q :
  (forall s, sem_alike s (f s).2) -> (forall x, wp j (h x) g Q) -> wp j (act f ≫= h) g Q.
Proof. intros Hf Hh. apply wpc_act. intros s Γ HI Hj. exists g. split; [by eapply sem_still|done]. Qed.

Definition one_taken (r : io_result bool) (g : sghost) : sghost := if bool_decide (r = Ok true) then mk_sghost (sg_taken g + 1) (sg_posted g) else g.

(** A wait call of the system, and what the port makes of its result. *)
Lemma sem_wp_call j (p : M (result unit Z)) (f : result unit Z -> io_result bool) g1 g2 :
  call sem_alike (waited x0) p -> (forall r, f r = Ok true <-> r = Ok tt) ->
  wp j (r ← p; Ret (f r)) (g1, g2) (fun r g => g = (g1, one_taken r g2)).
Proof.
  intros Hp Hf. eapply (wpc_call _ j p _ _ (fun g => g = (g1, g2))); [exact Hp|done| |].
  - intros s Γ g s' HI Hj -> Hs. exists (g1, g2). split; [done|]. by eapply sem_still.
  - intros r s Γ g s' HI Hj -> Hs. exists (g1, one_taken (f r) g2). split; [|done]. unfold one_taken. destruct r as [[]|e]; simpl in Hs.
    + rewrite bool_decide_eq_true_2 by (by apply Hf). destruct Hs as (_ & Ha & En & Ec). eapply sem_step; try done.
      unfold units at 1. rewrite Ec. simpl. rewrite lookup_insert_eq. unfold net. simpl. lia.
    + rewrite bool_decide_eq_false_2; [by eapply sem_still|]. intros E%Hf. done.
Qed.

Lemma wait_wp j h tm g1 g2 : handle h = x0 -> wp j (wait h tm) (g1, g2) (fun r g => g = (g1, one_taken r g2)).
Proof.
  intros Hh. destruct tm as [ms|]; cbn [wait].
  - unfold timed_wait. rewrite Hh. apply sem_wp_still; [done|]. intros tm. apply sem_wp_call; [apply law_sem_timedwait|]. intros [[]|e]; [done|]. destruct (_ =? _); done.
  - rewrite Hh. apply sem_wp_call; [apply law_sem_wait|]. by intros [[]|e].
Qed.

Lemma sem_post_wp j k h g1 g2 : handle h = x0 ->
  wp j (post_loop k h) (g1, g2) (fun r g => exists d, g = (g1, mk_sghost (sg_taken g2) (sg_posted g2 + d)) /\ 0 <= d <= Z.of_nat k /\ (r = Ok tt -> d = Z.of_nat k)).
Proof.
  intros Hh. revert g2. induction k as [|k IH]; intros g2; cbn [post_loop].
  - exists 0. split; [|lia]. destruct g2. simpl. do 2 f_equal. lia.
  - apply wpc_act. intros s Γ HI Hj. pose proof (law_sem_post (handle h) s) as L. destruct (sys_sem_post (handle h) s) as [[[]|e] s']; simpl in *.
    + destruct L as (Ha & En & Ec). eexists. split.
      * eapply (sem_step _ _ _ _ _ _ (mk_sghost (sg_taken g2) (sg_posted g2 + 1))); try done. unfold units at 1. rewrite Ec. simpl. rewrite Hh, lookup_insert_eq. unfold net. simpl. lia.
      * eapply wpc_conseq; [apply IH|]. intros r g (d & -> & Hd & Hr). exists (d + 1). simpl. split; [do 2 f_equal; lia|]. split; [lia|]. intros E. specialize (Hr E). lia.
    + eexists. split; [by eapply sem_still|]. exists 0. split; [destruct g2; simpl; do 2 f_equal; lia|]. split; [lia|done].
Qed.

(** A handle of ours. *)
Definition ours_sem (s : PosixSemaphore) : Prop := handle s = x0 /\ sem_name s = sn /\ exists r, refs s = Some r /\ good pn 1 r.
Definition shows (s : PosixSemaphore) : nat * Z := match refs s with Some r => shown r | None => (0%nat, 0) end.

Lemma one_roomy : 4 < calc_size 1.
Proof. by vm_compute. Qed.

Lemma open_wp j g1 g2 : hg_ph g1 = HIdle -> 1 <= hg_left g1 ->
  wp j (open t n nm count) (g1, g2) (fun r g => g.2 = g2 /\ hg_ph g.1 = HIdle /\
    match r with
    | Returned (Ok s) => ours_sem s /\ hg_hs g.1 = hg_hs g1 ++ [shows s] /\ hg_left g.1 = hg_left g1 - 1
    | _ => hg_hs g.1 = hg_hs g1 /\ hg_left g1 - 1 <= hg_left g.1
    end).
Proof.
  intros Hp Hl. unfold open. rewrite bool_decide_eq_false_2 by done. rewrite Hsem, Hsnul.
  eapply sem_wp_shm; [by apply (acquire_wp t n nm pn 1 fds0 base (Some pin) false ours Hname Hposix Hnul ltac:(lia) one_roomy)|].
  intros [[r|e]|] g; cbn beta iota; [|intros ->; simpl; split; [done|]; split; [done|]; split; [done|lia]..]. intros [Hr ->].
  apply wpc_act. intros s Γ HI Hj. pose proof (law_sem_open sn count s) as L. destruct (sys_sem_open sn count s) as [[x|e] s']; cbn [fst snd] in *.
  - destruct HI as [HI1 [Hn Hu]]. destruct L as [[Hx Ha]|[Hx _]]; [|congruence]. eexists. split; [by eapply sem_still|]. cbn [wpc fst snd hg_ph hg_hs hg_left].
    split; [done|]. split; [done|]. split; [|done]. split; [simpl; congruence|]. split; [done|]. by exists r.
  - eexists. split; [by eapply sem_still|].
    assert ((hg_hs g1 ++ [shown r]) !! length (hg_hs g1) = Some (shown r)) as Hk by (by rewrite lookup_app_r, Nat.sub_diag by lia).
    eapply sem_wp_shm; [eapply (drop_wp t nm pn 1 fds0 base (Some pin) false ours Hposix Hnul one_roomy); [done|exact Hk|done|done]|].
    intros _ g ->. cbn [wpc fst snd hg_ph hg_hs hg_left closed]. split; [done|]. split; [done|]. split; [|lia].
    clear. induction (hg_hs g1) as [|x l IH]; [done|]. simpl. by f_equal.
Qed.

Lemma drop_sem_wp j k h g1 g2 : hg_ph g1 = HIdle -> hg_hs g1 !! k = Some (shows h) -> ours_sem h ->
  wp j (drop_sem h) (g1, g2) (fun _ g => g = (closed k g1, g2)).
Proof.
  intros Hp Hk (Hx & Hn & r & Er & Hg). unfold drop_sem, shows in *. rewrite Er in *. apply sem_wp_still; [intros s; apply law_sem_close|]. intros _.
  apply wpc_bind. eapply sem_wp_shm; [by eapply (release_wp t nm pn 1 fds0 base (Some pin) false ours Hposix Hnul one_roomy)|].
  intros p g [-> Hlt]. apply wpc_ret. assert ((p <=? 1) = false) as ->; [|done]. specialize (Hlt ltac:(by eexists)). lia.
Qed.


(** The program's account of a thread and its ghost state. *)
Definition agree (y : tally_of) (g : hghost * sghost) : Prop :=
  hg_ph g.1 = HIdle /\ Forall ours_sem (t_handles y) /\ hg_hs g.1 = shows <$> t_handles y /\
  sg_taken g.2 = t_taken y /\ t_given y <= sg_posted g.2 <= t_asked y.

Lemma sem_user_wp j ops y g : agree y g -> sem_opens ops <= hg_left g.1 -> wp j (sem_user t n nm count ops y) g agree.
Proof.
  revert y g. induction ops as [|x ops IH]; intros y [g1 g2] Hy Hl; cbn [sem_user]; [done|].
  assert (0 <= sem_opens ops) as H0 by (clear; induction ops as [|[]]; simpl; lia).
  pose proof Hy as (Hp & Ho & Eh & Et & Hg). cbn [fst snd] in *. destruct x as [|k tm|k c|k]; cbn [sem_opens] in Hl.
  - apply wpc_bind. eapply wpc_conseq; [apply open_wp; [done|lia]|]. intros r [g1' g2'] (E & Hp' & Hr). cbn [fst snd] in *. subst g2'.
    destruct r as [[s|e]|]; [|apply IH; [|cbn [fst]; lia]; split; [done|]; split; [done|]; split; [cbn [fst]; destruct Hr; congruence|done]..].
    destruct Hr as (Hs & Eh' & El). apply IH; [|cbn [fst]; lia]. split; [done|]. split; [by apply Forall_app; split; [|constructor]|].
    split; [cbn [fst t_handles]; by rewrite fmap_app, Eh', Eh|done].
  - destruct (t_handles y !! k) as [s|] eqn:E; [|by apply IH]. pose proof (Forall_lookup_1 _ _ _ _ Ho E) as (Hx & _).
    apply wpc_bind. eapply wpc_conseq; [by apply wait_wp|]. intros r g ->. apply IH; [|done]. unfold one_taken. case_bool_decide; [|done].
    split; [done|]. split; [done|]. split; [done|]. simpl. lia.
  - destruct (t_handles y !! k) as [s|] eqn:E; [|by apply IH]. pose proof (Forall_lookup_1 _ _ _ _ Ho E) as (Hx & _).
    apply wpc_bind. eapply wpc_conseq; [by apply sem_post_wp|]. intros r g (d & -> & Hd & Hr). apply IH; [|done].
    split; [done|]. split; [done|]. split; [done|]. simpl. split; [done|]. destruct r as [[]|e]; [specialize (Hr eq_refl)|]; lia.
  - destruct (t_handles y !! k) as [s|] eqn:E; [|by apply IH]. pose proof (Forall_lookup_1 _ _ _ _ Ho E) as Hs.
    apply wpc_bind. eapply wpc_conseq; [apply (drop_sem_wp j k); [done|by rewrite Eh, list_lookup_fmap, E|done]|]. intros _ g ->. apply IH; [|done].
    split; [done|]. split; [by apply Forall_delete|]. split; [cbn [fst hg_hs closed t_handles]; by rewrite Eh, list_fmap_delete|done].
Qed.

End operations.

(** ** The pool *)

Definition all_opens (ts : list (list semop)) : Z := total (fun _ => sem_opens) 0 ts.
Definition sum (f : tally_of -> Z) (ys : list tally_of) : Z := total (fun _ => f) 0 ys.

Definition fresh_ghost (k : Z) : hghost * sghost := (idle k, mk_sghost 0 0).

Lemma opens_nonneg ops : 0 <= sem_opens ops.
Proof. induction ops as [|[]]; simpl; lia. Qed.

Lemma fresh_net i (ls : list Z) : total net i (snd <$> (fresh_ghost <$> ls)) = 0.
Proof. revert i. induction ls as [|x ls IH]; intros i; [done|]. cbn [fmap list_fmap total]. rewrite IH. done. Qed.

Lemma sem_users_inv {K} `{!ShmOs K, !ShmLaws K, !SemOs K, !SemLaws K} t n nm pn sn count (s s' : sem_sys K) ts ps o0 b x0 :
  nm <> "" -> make_shm_name t nm = Some pn -> c_string pn = Ok pn -> make_shm_name t (raw nm) = Some sn -> c_string sn = Ok sn ->
  1 <= b -> b + all_opens ts < 2 ^ 31 ->
  s_names (ss_shm s) !! pn = Some o0 -> s_sizes (ss_shm s) !! o0 = Some (calc_size 1) -> s_cells (ss_shm s) !!! (o0, acc_of (calc_size 1)) = b ->
  s_stray (ss_shm s) = false -> blank_beyond (ss_shm s) -> ss_names s !! sn = Some x0 ->
  pool_reach (s, sem_users t n nm count ts) (s', ps) ->
  let base := fun o => if decide (o = o0) then b else 0 in
  let ours := fun o => s_sizes (ss_shm s) !! o = None \/ o = o0 in
  let inv := fun (w : sem_sys K) (Γ : list (hghost * sghost)) =>
    shm_inv pn (calc_size 1) (s_fds (ss_shm s)) base (Some o0) false ours (fget ss_shm_f w) (fst <$> Γ) /\ sem_inv sn x0 (units s x0) w (snd <$> Γ) in
  exists Γ, inv s' Γ /\ verified inv (fun _ => agree pn sn x0) ps Γ.
Proof.
  intros Hname Hposix Hnul Hsem Hsnul Hb Hacq Hn Hz Hc Hst Hbl Hx Hr base ours inv.
  assert (0 <= all_opens ts) as Hpos by (apply total_nonneg; intros _ ops; apply opens_nonneg).
  eapply pool_verified; [| |exact Hr].
  - instantiate (1 := fresh_ghost <$> (sem_opens <$> ts)). split; [|split; [done|rewrite fresh_net; lia]].
    rewrite <- list_fmap_compose. change (fget ss_shm_f s) with (ss_shm s). apply (idle_inv pn 1 base (Some o0) false ours); try done.
    + apply Forall_fmap, Forall_true. intros ops. apply opens_nonneg.
    + intros o _. unfold base. case_decide; lia.
    + intros o _. rewrite total_fmap. change (base o + all_opens ts < 2 ^ 31). unfold base. case_decide; lia.
    + by left.
    + intros o [Ho| ->]; unfold base; [|by rewrite decide_True]. rewrite decide_False by congruence. by apply Hbl.
    + intros o z [Ho| ->]; [by rewrite Ho|]. rewrite Hz. intros [= <-]. by right.
    + intros o Ho. rewrite Hn in Ho. simplify_eq. split; [by right|by eexists].
    + intros o [= <-]. unfold base. by rewrite decide_True.
  - unfold sem_users. split; [by rewrite !length_fmap|]. intros j p g Hj Hg. rewrite list_lookup_fmap in Hj. rewrite !list_lookup_fmap in Hg.
    destruct (ts !! j) as [ops|] eqn:E; simplify_eq/=. by apply sem_user_wp.
Qed.

(** What the threads report, against the ghost states. *)
Lemma finished_net {K} (I : sem_sys K -> list (hghost * sghost) -> Prop) pn sn x0 Γ ys :
  verified I (fun _ => agree pn sn x0) (Ret <$> ys) Γ ->
  sum t_given ys - sum t_taken ys <= total net 0 (snd <$> Γ) <= sum t_asked ys - sum t_taken ys.
Proof.
  intros [Hl Hv]. assert (Forall2 (agree pn sn x0) ys Γ) as HF.
  { apply Forall2_same_length_lookup_2; [by rewrite length_fmap in Hl|]. intros j y g Hy Hg. apply (Hv j (Ret y)); [by rewrite list_lookup_fmap, Hy|done]. }
  unfold sum. clear Hl Hv. generalize 0%nat. induction HF as [|y [g1 g2] ys Γ (_ & _ & _ & Et & Hg) HF IH]; intros i; cbn [fmap list_fmap total]; [lia|].
  specialize (IH (S i)). unfold net at 1 3. cbn [snd] in *. lia.
Qed.

(** C12: a POSIX semaphore stays one semaphore while anybody has it open.  While others keep
    [b] handles, threads open it, wait with or without limits, post and drop their handles, in any
    interleaving and whatever calls fail: its name goes on standing for it, every handle anybody gets
    is one of it, and once all have finished its count is what it was, less one for each successful
    wait, plus the units of the posts that succeeded and at most those of the posts that failed. *)
Theorem posix_semaphore_is_shared {K} `{!ShmOs K, !ShmLaws K, !SemOs K, !SemLaws K} t n nm pn sn count (s s' : sem_sys K) ts ps o0 b x0 :
  nm <> "" -> make_shm_name t nm = Some pn -> c_string pn = Ok pn -> make_shm_name t (raw nm) = Some sn -> c_string sn = Ok sn ->
  1 <= b -> b + all_opens ts < 2 ^ 31 ->
  s_names (ss_shm s) !! pn = Some o0 -> s_sizes (ss_shm s) !! o0 = Some (calc_size 1) -> s_cells (ss_shm s) !!! (o0, acc_of (calc_size 1)) = b ->
  s_stray (ss_shm s) = false -> blank_beyond (ss_shm s) -> ss_names s !! sn = Some x0 ->
  pool_reach (s, sem_users t n nm count ts) (s', ps) ->
  ss_names s' !! sn = Some x0 /\
  (forall j y, ps !! j = Some (Ret y) -> Forall (fun h => handle h = x0) (t_handles y)) /\
  forall ys, ps = Ret <$> ys -> units s x0 + sum t_given ys <= units s' x0 + sum t_taken ys <= units s x0 + sum t_asked ys.
Proof.
  intros Hname Hposix Hnul Hsem Hsnul Hb Hacq Hn Hz Hc Hst Hbl Hx Hr.
  destruct (sem_users_inv t n nm pn sn count s s' ts ps o0 b x0) as (Γ & [HI [Hn' Hu]] & Hv); try done.
  split; [done|]. split.
  - intros j y Hj. destruct (verified_ret _ _ _ _ _ _ Hv Hj) as (g & _ & _ & Ho & _). eapply Forall_impl; [exact Ho|]. by intros h (? & _).
  - intros ys ->. pose proof (finished_net _ _ _ _ _ _ Hv) as Hsum. lia.
Qed.

(** ** A system

    Semaphores are numbered on; a wait looks at the count until it is positive, or, with a limit, the
    schedule says that it has passed. *)
Fixpoint sem_poll (n : nat) (x : nat) (limit : bool) : prog (sem_sys bool) (result unit Z) :=
  match n with
  | O => Spin
  | S n =>
      Flip (fun ring => Act (fun s => if 0 <? units s x then (Some (Ok tt), set_units s x (units s x - 1)) else if ring && limit then (Some (Err SEM_ETIMEDOUT), s) else (None, s))
        (fun r => match r with Some r => Ret r | None => sem_poll n x limit end))
  end.

Definition SEM_PATIENCE : nat := 50.

#[export] Instance simple_sem : SemOs bool := {|
  sys_sem_open := fun c v s =>
    match ss_names s !! c with
    | Some x => (Ok x, s)
    | None => let x := next_object (ss_counts s) in (Ok x, mk_sem_sys (ss_shm s) (<[c := x]> (ss_names s)) (<[x := v]> (ss_counts s)))
    end;
  sys_sem_wait := fun x => sem_poll SEM_PATIENCE x false;
  sys_sem_timedwait := fun x _ => sem_poll SEM_PATIENCE x true;
  sys_sem_post := fun x s => (Ok tt, set_units s x (units s x + 1));
  sys_sem_close := fun _ s => (Ok tt, s);
  sys_sem_unlink := fun c s =>
    match ss_names s !! c with
    | Some _ => (Ok tt, mk_sem_sys (ss_shm s) (delete c (ss_names s)) (ss_counts s))
    | None => (Err ENOENT, s)
    end;
|}.

Lemma sem_poll_law n x limit : call sem_alike (waited x) (sem_poll n x limit).
Proof.
  induction n as [|n IH]; [done|]. intros ring s. cbn [fst snd]. destruct (Z.ltb_spec 0 (units s x)) as [H|H]; cbn [fst snd].
  - left. exists (Ok tt). by split.
  - destruct (ring && limit); cbn [fst snd]; [left; by exists (Err SEM_ETIMEDOUT)|]. right. by split.
Qed.

#[export] Instance simple_sem_laws : SemLaws bool.
Proof.
  split.
  - intros c v s. simpl. destruct (ss_names s !! c) as [x|] eqn:E; simpl; [by left|]. right. split; [done|]. by split; [apply next_object_fresh|].
  - intros x. apply sem_poll_law.
  - intros x d. apply sem_poll_law.
  - done.
  - done.
  - intros c s. simpl. by destruct (ss_names s !! c).
Qed.

Module semrun.

(** Somebody holds a handle of the semaphore, which has one unit. *)
Definition s0 : sem_sys bool :=
  mk_sem_sys (mk_sys {[ "/sem" := 0%nat ]} {[ 0%nat := 8 ]} {[ (0%nat, 4) := 1 ]} ∅ (mk_clock 0 []) false false) {[ "/sem_s" := 0%nat ]} {[ 0%nat := 1 ]}.
Definition ts : list (list semop) :=
  [[SemOpen; SemWait 0 None; SemWait 0 (Some 5); SemDrop 0]; [SemOpen; SemPost 0 2; SemDrop 0; SemOpen]].
Definition schedule : list (nat * bool) := flat_map (fun _ => [(0%nat, false); (1%nat, false)]) (seq 0 60).
Definition final : sem_sys bool * list (prog (sem_sys bool) tally_of) := run_sched schedule (s0, sem_users seg.linux 5 "sem" 7 ts).

Definition ys : list tally_of :=
  [mk_tally [] 2 0 0; mk_tally [mk_PosixSemaphore 0 "/sem_s" (Some (mk_PlatformShm (Some 0%nat) 8 1 "/sem" 1))] 0 2 2].

Lemma semrun_reached : pool_reach (s0, sem_users seg.linux 5 "sem" 7 ts) (final.1, final.2).
Proof. exact (run_sched_reach schedule s0 (sem_users seg.linux 5 "sem" 7 ts)). Qed.

Lemma semrun_blank : blank_beyond (ss_shm s0).
Proof. intros o off Ho. change (({[ (0%nat, 4) := 1 ]} : gmap (nat * Z) Z) !!! (o, off) = 0). rewrite lookup_total_alt, lookup_singleton_ne; [done|]. intros [= <- _]. discriminate Ho. Qed.

End semrun.

Lemma posix_semaphore_is_shared_witness :
  ss_names semrun.final.1 !! "/sem_s" = Some 0%nat /\ 1 + 2 <= units semrun.final.1 0%nat + 2 <= 1 + 2.
Proof.
  assert (semrun.final.2 = Ret <$> semrun.ys) as E by (by vm_compute).
  pose proof (posix_semaphore_is_shared seg.linux 5 "sem" "/sem" "/sem_s" 7 semrun.s0 semrun.final.1 semrun.ts semrun.final.2 0%nat 1 0%nat) as H.
  destruct H as (Hn & _ & Hs); [done|by vm_compute|by vm_compute|by vm_compute|by vm_compute|lia|by vm_compute|by vm_compute|by vm_compute|by vm_compute|by vm_compute|
    exact semrun.semrun_blank|by vm_compute|exact semrun.semrun_reached|].
  split; [exact Hn|]. exact (Hs _ E).
Defined.

(** ** What the counter does not protect *)

Module semrace.

(** The first thread drops the only handle; it has released the segment and not yet removed the
    semaphore when the second opens both; the third opens them afterwards. *)
Definition empty : sem_sys bool := mk_sem_sys seg.none ∅ ∅.
Definition ts : list (list semop) := [[SemOpen; SemDrop 0]; [SemOpen]; [SemOpen]].
Definition schedule : list (nat * bool) :=
  replicate 11 (0%nat, false) ++ replicate 20 (1%nat, false) ++ replicate 20 (0%nat, false) ++ replicate 20 (2%nat, false).
Definition final : sem_sys bool * list (prog (sem_sys bool) tally_of) := run_sched schedule (empty, sem_users seg.linux 5 "sem" 1 ts).

End semrace.

(** Dropping the last handle of a POSIX semaphore races with opening one.  The segment
    that counts the handles is released before the semaphore is removed: a thread that opens both in
    between and one that opens them afterwards count each other in one segment and have two
    semaphores, so a post of one never wakes the other. *)
Theorem last_drop_can_split_semaphore :
  exists s h1 h2 r1 r2, pool_reach (semrace.empty, sem_users seg.linux 5 "sem" 1 semrace.ts)
      (s, [Ret (mk_tally [] 0 0 0); Ret (mk_tally [h1] 0 0 0); Ret (mk_tally [h2] 0 0 0)]) /\
    sem_name h1 = sem_name h2 /\ handle h1 = 0%nat /\ handle h2 = 1%nat /\
    refs h1 = Some r1 /\ refs h2 = Some r2 /\ mem r1 = mem r2 /\ prev_ref r2 = 1.
Proof.
  exists semrace.final.1, (mk_PosixSemaphore 0 "/sem_s" (Some (mk_PlatformShm (Some 1%nat) 8 1 "/sem" 0))),
    (mk_PosixSemaphore 1 "/sem_s" (Some (mk_PlatformShm (Some 1%nat) 8 1 "/sem" 1))).
  eexists _, _. split; [|done].
  assert (semrace.final.2 = [Ret (mk_tally [] 0 0 0); Ret (mk_tally [mk_PosixSemaphore 0 "/sem_s" (Some (mk_PlatformShm (Some 1%nat) 8 1 "/sem" 0))] 0 0 0);
    Ret (mk_tally [mk_PosixSemaphore 1 "/sem_s" (Some (mk_PlatformShm (Some 1%nat) 8 1 "/sem" 1))] 0 0 0)]) as <- by (by vm_compute).
  exact (run_sched_reach semrace.schedule semrace.empty (sem_users seg.linux 5 "sem" 1 semrace.ts)).
Qed.
