(* ===== verification/ScopedAccess.v ===== *)
(** * Scoped access to a segment

    [scoped_access.rs]: a guard that holds a mutex while a segment is read or written.  The mutex is any
    backend that promises mutual exclusion ([Excludes]); the Linux and the Apple one do. *)
From S2P Require Import Prelude Atomics Abi ShmName Liveness Concurrent Linux RobustMutex Ulock UlockKernel UlockMutex Waiter Posix PosixShm.

(** The memory of the mutex and that of the segment. *)
Record guarded (S K : Type) := mk_guarded { g_mutex : S; g_segment : shm_sys K }.
Arguments mk_guarded {S K} _ _.
Arguments g_mutex {S K} _.
Arguments g_segment {S K} _.

Definition g_mutex_f {S K} : field (guarded S K) S := mk_field g_mutex (fun v w => mk_guarded v (g_segment w)).
Definition g_segment_f {S K} : field (guarded S K) (shm_sys K) := mk_field g_segment (fun v w => mk_guarded (g_mutex w) v).

#[export] Instance g_mutex_lawful {S K} : LawfulField (g_mutex_f (S:=S) (K:=K)).
Proof. by split. Qed.

(** ** Bytes of a segment, within its words *)

Section bytes.
Context {K : Type}.

Definition word_at (i : Z) : Z := 4 * (i / 4).

Definition byte_at (o : nat) (i : Z) (s : shm_sys K) : Z := to_ne_bytes 4 (fget (cell o (word_at i)) s) !!! Z.to_nat (i mod 4).

Definition put_byte (o : nat) (i b : Z) (s : shm_sys K) : shm_sys K :=
  fset (cell o (word_at i)) (from_ne_bytes (<[Z.to_nat (i mod 4) := b]> (to_ne_bytes 4 (fget (cell o (word_at i)) s)))) s.

(** An access outside of the object does not return. *)
Definition byte_access {X} (o : nat) (i : Z) (f : shm_sys K -> X * shm_sys K) : prog (shm_sys K) X :=
  r ← act (fun s => if (0 <=? i) && (i <? default 0 (s_sizes s !! o)) then (Some (f s).1, (f s).2) else (None, fset s_stray_f true s));
  match r with Some x => Ret x | None => Spin end.

Fixpoint read_bytes (o : nat) (i : Z) (n : nat) : prog (shm_sys K) (list Z) :=
  match n with
  | O => Ret []
  | Datatypes.S n =>
      b ← byte_access o i (fun s => (byte_at o i s, s));
      bs ← read_bytes o (i + 1) n;
      Ret (b :: bs)
  end.

(** [copy_nonoverlapping], byte by byte. *)
Fixpoint write_bytes (o : nat) (i : Z) (bs : list Z) : prog (shm_sys K) unit :=
  match bs with
  | [] => Ret tt
  | b :: bs =>
      _ ← byte_access o i (fun s => (tt, put_byte o i b s));
      write_bytes o (i + 1) bs
  end.

End bytes.

(** ** The guard *)

Module ScopedAccess.
Section scoped.
Context {S K : Type} `{!IpcSync S}.
Abbreviation M := (prog (guarded S K)).

Record ScopedAccess := mk_ScopedAccess { shm : ShmHandle.ShmHandle; mtx : Mtx }.

Definition new (shm : ShmHandle.ShmHandle) (mtx : Mtx) : M (io_result ScopedAccess) :=
  _ ←? zoom g_mutex_f (IpcMutex.lock mtx);
  Ret (Ok (mk_ScopedAccess shm mtx)).

Definition as_ptr (a : ScopedAccess) : option nat := Posix.as_ptr (ShmHandle.inner (shm a)).
Definition as_mut_ptr (a : ScopedAccess) : option nat := Posix.as_mut_ptr (ShmHandle.inner (shm a)).
Definition size (a : ScopedAccess) : Z := mapped_size (ShmHandle.inner (shm a)).

(** The slice lives as long as the guard; its bytes are read here. *)
Definition read (a : ScopedAccess) : M (list Z * Z) :=
  let len := size a in
  match as_ptr a with
  | None => Spin
  | Some o => bs ← zoom g_segment_f (read_bytes o 0 (Z.to_nat len)); Ret (bs, len)
  end.

Definition too_large : io_error := mk_io_error EkInvalidInput "buffer too large for shared memory region".

Definition write (a : ScopedAccess) (buf : list Z) : M (io_result unit) :=
  let cap := size a in
  if cap <? Z.of_nat (length buf) then Ret (Err too_large)
  else
    match as_mut_ptr a with
    | None => Spin
    | Some o => _ ← zoom g_segment_f (write_bytes o 0 buf); Ret (Ok tt)
    end.

Definition drop (a : ScopedAccess) : M unit := _ ← zoom g_mutex_f (IpcMutex.unlock (mtx a)); Ret tt.

End scoped.
End ScopedAccess.

(** ** What the guard needs of a mutex

    Each thread [j] of a pool uses the backend [sync j] and its handle [m j].  A ghost state per thread
    says whether it holds the mutex; a successful lock gives it, an unlock gives it up, and it is held
    by one thread at a time. *)
Class Excludes {S : Type} (sync : nat -> IpcSync S) (m : forall j, Mtx (IpcSync := sync j)) := {
  x_ghost : Type;
  x_inv : S -> list x_ghost -> Prop;
  x_out : nat -> x_ghost -> Prop;
  x_in : nat -> x_ghost -> Prop;
  x_ready : nat -> S -> Prop;
  x_start n s : x_ready n s -> exists Γ, length Γ = n /\ x_inv s Γ /\ forall j g, Γ !! j = Some g -> x_out j g;
  x_one s Γ i j g h : x_inv s Γ -> Γ !! i = Some g -> x_in i g -> Γ !! j = Some h -> x_in j h -> i = j;
  x_lock j g : x_out j g -> wpc x_inv j (IpcMutex.lock (m j)) g (fun r g' => match r with Ok _ => x_in j g' | Err _ => x_out j g' end);
  x_unlock j g : x_in j g -> wpc x_inv j (IpcMutex.unlock (m j)) g (fun _ g' => x_out j g');
}.

(** ** Threads that read and write through guards *)

Inductive job := JRead | JWrite (buf : list Z).
Inductive answer := AFailed (e : io_error) | ARead (bs : list Z) | AWrote (r : io_result unit).

Section clients.
Context {S K : Type} `{!IpcSync S} (h : ShmHandle.ShmHandle) (m : Mtx).

Definition session (x : job) : prog (guarded S K) answer :=
  r ← ScopedAccess.new h m;
  match r with
  | Err e => Ret (AFailed e)
  | Ok a =>
      match x with
      | JRead => d ← ScopedAccess.read a; _ ← ScopedAccess.drop a; Ret (ARead d.1)
      | JWrite buf => w ← ScopedAccess.write a buf; _ ← ScopedAccess.drop a; Ret (AWrote w)
      end
  end.

Fixpoint sessions (xs : list job) : prog (guarded S K) (list answer) :=
  match xs with
  | [] => Ret []
  | x :: xs => a ← session x; rest ← sessions xs; Ret (a :: rest)
  end.

End clients.

(** ** The sequential history

    A read of the whole region, or a write from its start. *)
Inductive event := ERead (bs : list Z) | EWrite (buf : list Z).

(** The region after the events, if each read saw what was there. *)
Fixpoint replay (data : list Z) (log : list (nat * event)) : option (list Z) :=
  match log with
  | [] => Some data
  | (_, ERead bs) :: log => if bool_decide (bs = data) then replay data log else None
  | (_, EWrite buf) :: log => replay (splice 0 buf data) log
  end.

Definition events_of (j : nat) (log : list (nat * event)) : list event := omap (fun x => if decide (x.1 = j) then Some x.2 else None) log.

(** The event of a session, unless it touched nothing. *)
Definition event_of (x : job) (a : answer) : list event :=
  match x, a with
  | JRead, ARead bs => [ERead bs]
  | JWrite ((_ :: _) as buf), AWrote (Ok _) => [EWrite buf]
  | _, _ => []
  end.

Definition history (xs : list job) (ans : list answer) : list event := concat (zip_with event_of xs ans).

(** The answer is of the right kind, and a write is refused exactly if it does not fit. *)
Definition answers (total : Z) (x : job) (a : answer) : Prop :=
  match x, a with
  | _, AFailed _ => True
  | JRead, ARead bs => Z.of_nat (length bs) = total
  | JWrite buf, AWrote r => r = if total <? Z.of_nat (length buf) then Err ScopedAccess.too_large else Ok tt
  | _, _ => False
  end.

(** The bytes mapped. *)
Definition region {K} (o : nat) (total : nat) (s : shm_sys K) : list Z := (fun i => byte_at o (Z.of_nat i) s) <$> seq 0 total.

Lemma replay_app data l1 l2 : replay data (l1 ++ l2) = d ← replay data l1; replay d l2.
Proof.
  revert data. induction l1 as [|[j [bs|buf]] l1 IH]; intros data; simpl; [done| |apply IH]. case_bool_decide; [apply IH|done].
Qed.

Lemma events_of_app j l1 l2 : events_of j (l1 ++ l2) = events_of j l1 ++ events_of j l2.
Proof. apply omap_app. Qed.

Lemma events_of_one i j e : events_of i [(j, e)] = if decide (j = i) then [e] else [].
Proof. unfold events_of. simpl. by case_decide. Qed.

(** ** Regions *)

Section region.
Context {K : Type}.
Implicit Type s : shm_sys K.

Lemma length_region o total s : length (region o total s) = total.
Proof. unfold region. by rewrite length_fmap, length_seq. Qed.

Lemma lookup_region o total s i : (i < total)%nat -> region o total s !! i = Some (byte_at o (Z.of_nat i) s).
Proof. intros Hi. unfold region. by rewrite list_lookup_fmap, lookup_seq_lt. Qed.

Lemma byte_at_put o i b s k : 0 <= i -> 0 <= k -> is_u 8 b -> byte_at o k (put_byte o i b s) = if decide (k = i) then b else byte_at o k s.
Proof.
  intros Hi Hk Hb. unfold byte_at, put_byte. destruct (decide (word_at k = word_at i)) as [E|E].
  - rewrite E. cbn [cell sub_field at_key fget fset s_cells_f s_cells]. rewrite lookup_total_insert_eq.
    set (w := s_cells s !!! (o, word_at i)). set (l := <[Z.to_nat (i mod 4) := b]> (to_ne_bytes 4 w)).
    assert (length l = 4%nat) as Hl by (unfold l; by rewrite length_insert, length_to_ne_bytes).
    assert (to_ne_bytes 4 (from_ne_bytes l) = l) as ->.
    { change 4 with (Z.of_nat 4). rewrite <- Hl. apply to_from_ne_bytes. apply Forall_insert; [by apply to_ne_bytes_range|done]. }
    unfold l. pose proof (Z.mod_pos_bound i 4). pose proof (Z.mod_pos_bound k 4).
    destruct (decide (k = i)) as [->|Hne].
    + apply list_lookup_total_insert_eq. rewrite length_to_ne_bytes by lia. lia.
    + apply list_lookup_total_insert_ne. unfold word_at in E. pose proof (Z.div_mod i 4). pose proof (Z.div_mod k 4). lia.
  - rewrite decide_False by congruence. cbn [cell sub_field at_key fget fset s_cells_f s_cells]. by rewrite lookup_total_insert_ne by congruence.
Qed.

Lemma region_put o total i b s : (i < total)%nat -> is_u 8 b -> region o total (put_byte o (Z.of_nat i) b s) = <[i := b]> (region o total s).
Proof.
  intros Hi Hb. apply list_eq. intros k. destruct (decide (k < total)%nat) as [Hk|Hk].
  - rewrite lookup_region, byte_at_put by (done || lia). destruct (decide (Z.of_nat k = Z.of_nat i)) as [E|E].
    + assert (k = i) as -> by lia. rewrite list_lookup_insert_eq; [done|by rewrite length_region].
    + rewrite list_lookup_insert_ne by lia. by rewrite lookup_region.
  - rewrite !lookup_ge_None_2; [done|rewrite length_insert, length_region; lia|rewrite length_region; lia].
Qed.

End region.

Lemma splice_nil {A} (data : list A) : splice 0 [] data = data.
Proof. done. Qed.

(** One more byte of a write. *)
Lemma splice_snoc {A} (done data : list A) b : (length done < length data)%nat -> <[length done := b]> (splice 0 done data) = splice 0 (done ++ [b]) data.
Proof.
  intros H. unfold splice. rewrite !take_0, !Nat.add_0_l, !app_nil_l, length_app, insert_app_r_alt, Nat.sub_diag by lia. cbn [length].
  destruct (list.drop (length done) data) as [|x l] eqn:E.
  - apply (f_equal length) in E. rewrite length_drop in E. simpl in E. lia.
  - rewrite <- app_assoc. f_equal. cbn. f_equal. by rewrite <- drop_drop, E.
Qed.

(** ** The invariant

    A thread's ghost state: that of the mutex, the events it has completed, and the bytes it has read or
    written of the one it is at. *)
Record work := mk_work { w_done : list event; w_read : list Z; w_wrote : list Z }.

Section invariant.
Context {S K : Type} (sync : nat -> IpcSync S) (m : forall j, Mtx (IpcSync := sync j)) `{!Excludes sync m}.
Context (o total : nat) (d0 : list Z) (stray0 : bool).
Implicit Types (w : guarded S K) (Γ : list (x_ghost * work)).

(** The region is what the completed events made of it, but for a write under way. *)
Record share w Γ (log : list (nat * event)) (data part : list Z) : Prop := {
  sh_log : replay d0 log = Some data;
  sh_done i g : Γ !! i = Some g -> w_done g.2 = events_of i log;
  sh_region : region o total (g_segment w) = splice 0 part data;
  sh_len : length data = total;
  sh_size : Z.of_nat total <= default 0 (s_sizes (g_segment w) !! o);
  sh_stray : s_stray (g_segment w) = stray0;
  sh_read i g : Γ !! i = Some g -> w_read g.2 `prefix_of` data;
  sh_busy i g : Γ !! i = Some g -> w_read g.2 <> [] \/ w_wrote g.2 <> [] -> x_in i g.1;
  sh_wrote i g : Γ !! i = Some g -> w_wrote g.2 = [] \/ w_wrote g.2 = part;
  sh_part : part = [] \/ exists i g, Γ !! i = Some g /\ w_wrote g.2 = part;
}.

Definition shared w Γ : Prop := exists log data part, share w Γ log data part.
Definition inv w Γ : Prop := x_inv (g_mutex w) Γ.*1 /\ shared w Γ.
Abbreviation wp := (wpc inv).

(** While one thread holds the mutex, the others are at nothing. *)
Lemma others_idle w Γ log data part j g i g' :
  x_inv (g_mutex w) Γ.*1 -> share w Γ log data part -> Γ !! j = Some g -> x_in j g.1 -> Γ !! i = Some g' -> i <> j ->
  w_read g'.2 = [] /\ w_wrote g'.2 = [].
Proof.
  intros HX [] Hj Hin Hi Hne.
  assert (x_in i g'.1 -> False) as Hno.
  { intros Hi'. apply Hne. eapply x_one; [done| | | |]; rewrite ?list_lookup_fmap, ?Hi, ?Hj; done. }
  destruct (w_read g'.2) eqn:Er, (w_wrote g'.2) eqn:Ew; try done; exfalso; apply Hno, (sh_busy0 i g' Hi); rewrite Er, Ew; auto.
Qed.

Lemma part_of_holder w Γ log data part j g :
  x_inv (g_mutex w) Γ.*1 -> share w Γ log data part -> Γ !! j = Some g -> x_in j g.1 -> part = w_wrote g.2.
Proof.
  intros HX Hs Hj Hin. pose proof Hs as []. destruct (sh_wrote0 j g Hj) as [E|?]; [|done]. destruct sh_part0 as [->|(i & g' & Hi & <-)]; [done|].
  destruct (decide (i = j)) as [->|Hne]; [congruence|]. destruct (others_idle w Γ log data _ j g i g' HX Hs Hj Hin Hi Hne) as [_ E']. congruence.
Qed.

(** A step of the holder. *)
Lemma share_move w w' Γ log data part j x g g' log' data' :
  x_inv (g_mutex w) Γ.*1 -> share w Γ log data part -> Γ !! j = Some (x, g) -> x_in j x -> g_mutex w' = g_mutex w ->
  replay d0 log' = Some data' -> (forall i, events_of i log' = if decide (i = j) then w_done g' else events_of i log) ->
  region o total (g_segment w') = splice 0 (w_wrote g') data' -> length data' = total ->
  s_sizes (g_segment w') = s_sizes (g_segment w) -> s_stray (g_segment w') = s_stray (g_segment w) -> w_read g' `prefix_of` data' ->
  inv w' (<[j := (x, g')]> Γ).
Proof.
  intros HX Hs Hj Hin Em Hlog Hev Hreg Hlen Hsz Hst Hrd. split.
  { rewrite Em, list_fmap_insert, list_insert_id; [done|]. by rewrite list_lookup_fmap, Hj. }
  assert (forall i h, i <> j -> Γ !! i = Some h -> w_read h.2 = [] /\ w_wrote h.2 = []) as Hidle by (intros i h Hne Hi; exact (others_idle w Γ log data part j (x, g) i h HX Hs Hj Hin Hi Hne)).
  exists log', data', (w_wrote g'). destruct Hs. constructor; [done| |done|done|by rewrite Hsz|by rewrite Hst| | | |].
  1-4: intros i h; rewrite (lookup_moved _ _ _ _ _ Hj); destruct (decide (i = j)) as [->|Hne]; [intros [= <-]|intros Hi].
  - by rewrite Hev, decide_True.
  - rewrite Hev, decide_False by done. by apply sh_done0.
  - done.
  - destruct (Hidle i h Hne Hi) as [-> _]. apply prefix_nil.
  - done.
  - by apply sh_busy0.
  - by right.
  - left. by apply (Hidle i h).
  - right. exists j, (x, g'). split; [|done]. by rewrite (lookup_moved _ _ _ _ _ Hj), decide_True.
Qed.

(** The mutex's own steps, while the thread is at nothing. *)
Lemma shared_mutex j v w Γ x x' evs :
  shared w Γ -> Γ !! j = Some (x, mk_work evs [] []) -> shared (fset g_mutex_f v w) (<[j := (x', mk_work evs [] [])]> Γ).
Proof.
  intros (log & data & part & []) Hj. exists log, data, part. constructor; try done.
  1-4: intros i h; rewrite (lookup_moved _ _ _ _ _ Hj); destruct (decide (i = j)) as [->|Hne]; [intros [= <-]|eauto].
  - apply (sh_done0 j _ Hj).
  - apply prefix_nil.
  - cbn. by intros [].
  - by left.
  - destruct sh_part0 as [?|(i & h & Hi & E)]; [by left|]. destruct (decide (i = j)) as [->|Hne].
    + left. rewrite Hj in Hi. by simplify_eq.
    + right. exists i, h. by rewrite (lookup_moved _ _ _ _ _ Hj), decide_False.
Qed.

(** ** The operations *)

Lemma wp_byte {A X} j i (f : shm_sys K -> X * shm_sys K) (h : X -> prog (shm_sys K) A) g Q :
  (i < total)%nat ->
  (forall w Γ, inv w Γ -> Γ !! j = Some g ->
     exists g', inv (mk_guarded (g_mutex w) (f (g_segment w)).2) (<[j := g']> Γ) /\ wp j (zoom g_segment_f (h (f (g_segment w)).1)) g' Q) ->
  wp j (zoom g_segment_f (byte_access o (Z.of_nat i) f ≫= h)) g Q.
Proof.
  intros Hi H w Γ HI Hj. destruct (H w Γ HI Hj) as (g' & HI' & Hw). exists g'.
  pose proof HI as [_ (log & data & part & [])]. cbn.
  rewrite (proj2 (Z.leb_le _ _)), (proj2 (Z.ltb_lt _ _)) by lia. by destruct (f (g_segment w)) as [x s'].
Qed.

Lemma read_bytes_wp j x evs acc n :
  x_in j x -> (length acc + Datatypes.S n = total)%nat ->
  wp j (zoom g_segment_f (read_bytes o (Z.of_nat (length acc)) (Datatypes.S n))) (x, mk_work evs acc [])
    (fun bs g => length bs = Datatypes.S n /\ g = (x, mk_work (evs ++ [ERead (acc ++ bs)]) [] [])).
Proof.
  intros Hin. revert acc. induction n as [|n IH]; intros acc Hn.
  all: cbn [read_bytes]; apply wp_byte; [lia|]; intros w Γ [HX (log & data & part & Hs)] Hj; cbn [fst snd].
  all: pose proof (part_of_holder w Γ log data part j _ HX Hs Hj Hin) as Ep; cbn in Ep; subst part; pose proof Hs as [].
  all: set (b := byte_at o (Z.of_nat (length acc)) (g_segment w)).
  all: assert (data !! length acc = Some b) as Hb by
    (unfold b; rewrite <- (lookup_region o total (g_segment w)) by lia; rewrite sh_region0; by rewrite splice_nil).
  all: assert ((acc ++ [b]) `prefix_of` data) as Hpre by
    (destruct (sh_read0 j _ Hj) as [rest E]; cbn in E; subst data; exists (list.drop 1 rest); rewrite <- app_assoc; f_equal;
     rewrite lookup_app_r, Nat.sub_diag in Hb by lia; destruct rest; simplify_eq/=; by rewrite drop_0).
  - assert (acc ++ [b] = data) as <-.
    { apply prefix_length_eq; [done|]. rewrite length_app, sh_len0. simpl. lia. }
    exists (x, mk_work (evs ++ [ERead (acc ++ [b])]) [] []). split; [|done].
    eapply (share_move w _ _ log (acc ++ [b]) [] j x _ _ (log ++ [(j, ERead (acc ++ [b]))])); try done.
    + rewrite replay_app, sh_log0. cbn. by rewrite bool_decide_eq_true_2.
    + intros i. rewrite events_of_app, events_of_one. destruct (decide (i = j)) as [->|Hne].
      * rewrite decide_True by done. cbn. f_equal. symmetry. apply (sh_done0 j _ Hj).
      * by rewrite decide_False, app_nil_r.
    + apply prefix_nil.
  - exists (x, mk_work evs (acc ++ [b]) []). split.
    + eapply (share_move w _ _ log data [] j x); try done. intros i. destruct (decide (i = j)) as [->|]; [|done]. symmetry. apply (sh_done0 j _ Hj).
    + apply wpc_zoom_bind. replace (Z.of_nat (length acc) + 1) with (Z.of_nat (length (acc ++ [b]))) by (rewrite length_app; simpl; lia).
      eapply wpc_conseq; [apply IH; rewrite length_app; simpl; lia|]. intros bs g [Hl ->]. cbn. split; [lia|]. by rewrite <- app_assoc.
Qed.

Lemma write_bytes_wp j x evs done b bs :
  x_in j x -> is_bytes (b :: bs) -> (length done + length (b :: bs) <= total)%nat ->
  wp j (zoom g_segment_f (write_bytes o (Z.of_nat (length done)) (b :: bs))) (x, mk_work evs [] done)
    (fun _ g => g = (x, mk_work (evs ++ [EWrite (done ++ b :: bs)]) [] [])).
Proof.
  intros Hin. revert done b. induction bs as [|c bs IH]; intros done b Hb Hn; apply Forall_cons in Hb as [Hb Hbs].
  all: cbn [write_bytes]; cbn [length] in Hn; apply wp_byte; [lia|]; intros w Γ [HX (log & data & part & Hs)] Hj; cbn [fst snd].
  all: pose proof (part_of_holder w Γ log data part j _ HX Hs Hj Hin) as Ep; cbn in Ep; subst part; pose proof Hs as [].
  all: assert (region o total (put_byte o (Z.of_nat (length done)) b (g_segment w)) = splice 0 (done ++ [b]) data) as Hreg by
    (rewrite region_put, sh_region0 by (done || lia); apply splice_snoc; lia).
  - exists (x, mk_work (evs ++ [EWrite (done ++ [b])]) [] []). split; [|done].
    eapply (share_move w _ _ log data done j x _ _ (log ++ [(j, EWrite (done ++ [b]))]) (splice 0 (done ++ [b]) data)); try done.
    + by rewrite replay_app, sh_log0.
    + intros i. rewrite events_of_app, events_of_one. destruct (decide (i = j)) as [->|Hne].
      * rewrite decide_True by done. cbn. f_equal. symmetry. apply (sh_done0 j _ Hj).
      * by rewrite decide_False, app_nil_r.
    + rewrite length_splice; [done|]. rewrite length_app. simpl. lia.
    + apply prefix_nil.
  - exists (x, mk_work evs [] (done ++ [b])). split.
    + eapply (share_move w _ _ log data done j x); try done; [|apply prefix_nil].
      intros i. destruct (decide (i = j)) as [->|]; [|done]. symmetry. apply (sh_done0 j _ Hj).
    + replace (Z.of_nat (length done) + 1) with (Z.of_nat (length (done ++ [b]))) by (rewrite length_app; simpl; lia).
      eapply wpc_conseq; [apply IH; [done|rewrite length_app; simpl; lia]|]. intros [] g ->. by rewrite <- app_assoc.
Qed.

(** Calls of the mutex, by a thread that is at nothing. *)
Lemma guard_wp_lock {A} j x evs (h : io_result unit -> prog (guarded S K) A) Q :
  x_out j x ->
  (forall r x', match r with Ok _ => x_in j x' | Err _ => x_out j x' end -> wp j (h r) (x', mk_work evs [] []) Q) ->
  wp j (zoom g_mutex_f (IpcMutex.lock (m j)) ≫= h) (x, mk_work evs [] []) Q.
Proof.
  intros Hx Hh. apply wpc_bind.
  eapply wpc_conseq; [apply (wpc_zoom_shared g_mutex_f x_inv shared); [intros; by eapply shared_mutex|by apply x_lock]|].
  intros r [x' g'] [Hr E]. cbn in Hr, E. subst g'. by apply Hh.
Qed.

Lemma guard_wp_unlock {A} j x evs (h : io_result unit -> prog (guarded S K) A) Q :
  x_in j x -> (forall r x', x_out j x' -> wp j (h r) (x', mk_work evs [] []) Q) ->
  wp j (zoom g_mutex_f (IpcMutex.unlock (m j)) ≫= h) (x, mk_work evs [] []) Q.
Proof.
  intros Hx Hh. apply wpc_bind.
  eapply wpc_conseq; [apply (wpc_zoom_shared g_mutex_f x_inv shared); [intros; by eapply shared_mutex|by apply x_unlock]|].
  intros r [x' g'] [Hr E]. cbn in Hr, E. subst g'. by apply Hh.
Qed.

(** A handle of the segment. *)
Definition maps_all (h : ShmHandle.ShmHandle) : Prop := mem (ShmHandle.inner h) = Some o /\ mapped_size (ShmHandle.inner h) = Z.of_nat total.
Definition well_formed (x : job) : Prop := match x with JRead => True | JWrite buf => is_bytes buf end.

Lemma session_wp j h x evs job :
  (0 < total)%nat -> maps_all h -> well_formed job -> x_out j x ->
  wp j (session h (m j) job) (x, mk_work evs [] []) (fun a g => answers (Z.of_nat total) job a /\
    exists x', x_out j x' /\ g = (x', mk_work (evs ++ event_of job a) [] [])).
Proof.
  intros Ht [Hm Hsz] Hwf Hx. unfold session, ScopedAccess.new. apply wpc_bind, guard_wp_lock; [done|]. intros [[]|e] x1 Hx1; cbn beta match; apply wpc_ret.
  2: { split; [by destruct job|]. exists x1. split; [done|]. destruct job as [|[]]; by rewrite app_nil_r. }
  destruct job as [|buf].
  - unfold ScopedAccess.read, ScopedAccess.as_ptr, ScopedAccess.size, Posix.as_ptr. cbn [ScopedAccess.shm]. rewrite Hm, Hsz, Nat2Z.id.
    destruct total as [|n] eqn:En; [lia|]. apply wpc_bind, wpc_bind. eapply wpc_conseq; [eapply (read_bytes_wp j x1 evs []); [done|cbn; lia]|].
    intros bs g [Hl ->]. apply wpc_ret. unfold ScopedAccess.drop. apply wpc_bind, guard_wp_unlock; [done|]. intros r x2 Hx2. apply wpc_ret, wpc_ret.
    split; [cbn; lia|]. by exists x2.
  - unfold ScopedAccess.write, ScopedAccess.as_mut_ptr, ScopedAccess.size, Posix.as_mut_ptr. cbn [ScopedAccess.shm]. rewrite Hm, Hsz.
    assert (forall (r : io_result unit) g, answers (Z.of_nat total) (JWrite buf) (AWrote r) -> g = (x1, mk_work (evs ++ event_of (JWrite buf) (AWrote r)) [] []) ->
      wp j (_ ← ScopedAccess.drop (ScopedAccess.mk_ScopedAccess h (m j)); Ret (AWrote r)) g (fun a g => answers (Z.of_nat total) (JWrite buf) a /\
        exists x', x_out j x' /\ g = (x', mk_work (evs ++ event_of (JWrite buf) a) [] []))) as Hend.
    { intros r g Hr ->. unfold ScopedAccess.drop. apply wpc_bind, guard_wp_unlock; [done|]. intros r' x2 Hx2. apply wpc_ret, wpc_ret. split; [done|]. by exists x2. }
    apply wpc_bind. destruct (Z.ltb_spec (Z.of_nat total) (Z.of_nat (length buf))) as [Hlt|Hle].
    + apply wpc_ret, Hend; [cbn; by rewrite (proj2 (Z.ltb_lt _ _))|]. destruct buf; by rewrite app_nil_r.
    + apply wpc_bind. destruct buf as [|b bs].
      * apply wpc_ret, wpc_ret, Hend; [cbn; by rewrite (proj2 (Z.ltb_ge _ _))|]. by rewrite app_nil_r.
      * eapply wpc_conseq; [eapply (write_bytes_wp j x1 evs []); [done|done|cbn; cbn in Hle; lia]|]. intros [] g ->. apply wpc_ret, Hend; [|reflexivity].
        cbn. cbn in Hle. by rewrite (proj2 (Z.ltb_ge _ _)).
Qed.

Lemma sessions_wp j h x evs jobs :
  (0 < total)%nat -> maps_all h -> Forall well_formed jobs -> x_out j x ->
  wp j (sessions h (m j) jobs) (x, mk_work evs [] []) (fun ans g => Forall2 (answers (Z.of_nat total)) jobs ans /\
    exists x', g = (x', mk_work (evs ++ history jobs ans) [] [])).
Proof.
  intros Ht Hh Hwf. revert x evs. induction Hwf as [|y jobs Hy _ IH]; intros x evs Hx; cbn [sessions].
  { apply wpc_ret. split; [done|]. exists x. by rewrite app_nil_r. }
  apply wpc_bind. eapply wpc_conseq; [by apply session_wp|]. intros a g (Ha & x1 & Hx1 & ->).
  apply wpc_bind. eapply wpc_conseq; [by apply IH|]. intros ans g (Hans & x2 & ->). apply wpc_ret.
  split; [by constructor|]. exists x2. unfold history. cbn. by rewrite <- app_assoc.
Qed.

End invariant.

(** ** The backends keep the promise *)

Section apple.
Context {K : Type} `{!Ulock K, !UlockLaws K} (o : os) (n : nat) (pid : nat -> Z) (a : Z).
Hypothesis all_alive : forall j, PlatformMutex.is_process_alive o (pid j) = true.

(** Threads of living processes on one mutex. *)
Program Definition apple_excludes : Excludes (fun j => apple_sync o n (mk_uthread j (pid j))) (fun _ => a) := {|
  x_ghost := phase;
  x_inv := mutex_inv o (fun _ => true) false;
  x_out := fun _ g => g = Out;
  x_in := fun _ g => g = Holding a false;
  x_ready := fun _ s => unused s;
|}.
Next Obligation.
  intros k s Hu. exists (replicate k Out). split; [apply length_replicate|]. split; [by apply unused_inv|]. by intros j g [-> _]%lookup_replicate_1.
Qed.
Next Obligation. intros s Γ i j g h HI Hi -> Hj ->. by eapply mi_one. Qed.
Next Obligation. intros j g ->. eapply wpc_conseq; [by apply (lock_loop_wp o _ false n j (pid j) a false false)|]. by intros r g [-> ->]. Qed.
Next Obligation. intros j g ->. eapply wpc_conseq; [by apply (unlock_wp o _ false j a)|]. by intros r g [_ ->]. Qed.

End apple.

Section linux.
Context {K : Type} `{!Linux.Kernel K, !KernelLaws K} (n fuel : nat) (ids : list Z) (a : Z).
Hypothesis ids_range : Forall (fun x => 0 < x < FUTEX_TID_MASK) ids.
Definition tid_of (j : nat) : Z := default 1 (ids !! j).

Lemma tid_range j : 0 < tid_of j < FUTEX_TID_MASK.
Proof. unfold tid_of. destruct (ids !! j) as [x|] eqn:E; [by eapply (Forall_lookup_1 _ _ _ _ ids_range E)|done]. Qed.

(** Threads with the ids given on one mutex. *)
Program Definition linux_excludes : Excludes (fun j => linux_sync n fuel (tid_of j)) (fun _ => a) := {|
  x_ghost := ghost;
  x_inv := lock_inv ids;
  x_out := fun j g => at_op (tid_of j) PNull [] [] None [] g;
  x_in := fun j g => at_op (tid_of j) PNull [a] [a] None [] g;
  x_ready := fun k s => k = length ids /\ NoDup ids /\ (forall a, owner s a = 0) /\ (forall t, blocked s t = None) /\
    forall me, me ∈ ids -> threads s !!! me = fresh_thread /\ registered s me = false;
|}.
Next Obligation.
  intros k s (-> & Hd & Hf & Hb & Hn). set (ts := (fun x => (x, [] : list mop)) <$> ids).
  assert (ts.*1 = ids) as E by (unfold ts; by rewrite <- list_fmap_compose, list_fmap_id).
  exists ((fun x => newborn x.1) <$> ts). split; [unfold ts; by rewrite !length_fmap|]. split.
  - rewrite <- E. apply pool_start; [by rewrite E|by apply Forall_fmap|done|done|].
    intros me ops (x & E' & Hx)%list_elem_of_fmap. simplify_eq. by apply Hn.
  - intros j g Hg. apply list_lookup_fmap_Some in Hg as (x & -> & Hx). unfold ts in Hx. apply list_lookup_fmap_Some in Hx as (me & -> & Hme).
    unfold tid_of. rewrite Hme. apply newborn_at_op.
Qed.
Next Obligation.
  intros s Γ i j g h HI Hi Hg Hj Hh. assert (owner s a = g_me g /\ owner s a = g_me h) as [E1 E2].
  { split; eapply ti_own; [by eapply lk_threads| |by eapply lk_threads|]; [rewrite (ao_own _ _ _ _ _ _ _ Hg)|rewrite (ao_own _ _ _ _ _ _ _ Hh)]; by left. }
  eapply lk_distinct; [done|done|done|congruence].
Qed.
Next Obligation.
  intros j g Hg. cbn beta in Hg. apply (wpc_forget _ _ (alive tid_of j)); [split; [by eapply at_op_safe|by destruct Hg]|].
  apply wpc_bind. eapply wpc_conseq; [apply (lock_for_wp ids tid_of n fuel j (tid_of j) a INFINITE_MS [] []); [done|apply tid_range|by intros b ?%elem_of_nil]|].
  intros [[]|e] g' Hg'; apply wpc_ret; [by destruct Hg'|done|done].
Qed.
Next Obligation.
  intros j g Hg. cbn beta in Hg. apply (wpc_forget _ _ (alive tid_of j)); [split; [by eapply at_op_safe|by destruct Hg]|].
  apply wpc_bind. eapply wpc_conseq; [apply (mtx_unlock_wp ids tid_of j (tid_of j) a [] []); [done|apply tid_range]|].
  intros r g' [_ Hg']. by apply wpc_ret.
Qed.

End linux.

(** ** The theorem *)

(** The threads of the pool. *)
Definition users {S K} (sync : nat -> IpcSync S) (m : forall j, Mtx (IpcSync := sync j)) (ts : list (ShmHandle.ShmHandle * list job)) : list (prog (guarded S K) (list answer)) :=
  imap (fun j x => sessions (IpcSync0 := sync j) x.1 (m j) x.2) ts.

(** C11: scoped access is atomic.  However threads that read and write one segment through guards
    of one mutex interleave, byte by byte, with each other and within the mutex, there is one sequence
    of whole reads and writes that explains all they got: each read returned exactly the bytes the
    writes before it left, each finished thread's reads and writes are in it in their order, a write is
    refused exactly if it does not fit, and once all threads have finished the region is what the
    sequence makes of it.  No access leaves the segment. *)
Theorem scoped_access_is_atomic {S K} (sync : nat -> IpcSync S) (m : forall j, Mtx (IpcSync := sync j)) `{!Excludes sync m}
    (o total : nat) (ts : list (ShmHandle.ShmHandle * list job)) (w w' : guarded S K) ps :
  (0 < total)%nat -> Z.of_nat total <= default 0 (s_sizes (g_segment w) !! o) ->
  Forall (fun x => maps_all o total x.1 /\ Forall well_formed x.2) ts ->
  x_ready (length ts) (g_mutex w) ->
  pool_reach (w, users sync m ts) (w', ps) ->
  exists log data,
    replay (region o total (g_segment w)) log = Some data /\
    (forall j h jobs ans, ts !! j = Some (h, jobs) -> ps !! j = Some (Ret ans) ->
       Forall2 (answers (Z.of_nat total)) jobs ans /\ events_of j log = history jobs ans) /\
    ((forall p, p ∈ ps -> exists ans, p = Ret ans) -> region o total (g_segment w') = data) /\
    s_stray (g_segment w') = s_stray (g_segment w).
Proof.
  intros Ht Hsz Hts Hr Hp. destruct (x_start _ _ Hr) as (Γ0 & Hl & HX & Hout).
  set (d0 := region o total (g_segment w)). set (I := inv (K := K) sync m o total d0 (s_stray (g_segment w))).
  set (Q := fun j ans (g : x_ghost * work) => exists h jobs x, ts !! j = Some (h, jobs) /\
    Forall2 (answers (Z.of_nat total)) jobs ans /\ g = (x, mk_work (history jobs ans) [] [])).
  destruct (pool_verified I Q w (users sync m ts) ((fun x => (x, mk_work [] [] [])) <$> Γ0) w' ps) as (Γ & [_ (log & data & part & [])] & Hv); [| |done|].
  - split; [by rewrite <- list_fmap_compose, list_fmap_id|]. exists [], d0, [].
    assert (forall i g, ((fun x => (x, mk_work [] [] [])) <$> Γ0) !! i = Some g -> g.2 = mk_work [] [] []) as Hg.
    { intros i g (x & -> & _)%list_lookup_fmap_Some. done. }
    constructor; try done; [|by apply length_region| | | |by left].
    + intros i g E%Hg. by rewrite E.
    + intros i g E%Hg. rewrite E. apply prefix_nil.
    + intros i g E%Hg. rewrite E. cbn. by intros [].
    + intros i g E%Hg. rewrite E. by left.
  - split; [unfold users; by rewrite length_fmap, length_imap|]. intros j p g Hj Hg. unfold users in Hj.
    rewrite list_lookup_imap in Hj. destruct (ts !! j) as [[h jobs]|] eqn:E; simplify_eq/=.
    apply list_lookup_fmap_Some in Hg as (x & -> & Hx). destruct (Forall_lookup_1 _ _ _ _ Hts E) as [Hm Hwf].
    eapply wpc_conseq; [apply sessions_wp; [done|done|done|by apply (Hout j)]|]. intros ans g (Ha & x' & ->). by exists h, jobs, x'.
  - exists log, data. split; [done|]. split; [|split; [|done]].
    + intros j h jobs ans Hj Hans. destruct (verified_ret _ _ _ _ _ _ Hv Hans) as (g & Hg & h' & jobs' & x & Hj' & Ha & ->).
      rewrite Hj in Hj'. simplify_eq. split; [done|]. symmetry. apply (sh_done0 j _ Hg).
    + intros Hall. rewrite sh_region0. destruct sh_part0 as [->|(j & g & Hg & Ew)]; [done|].
      destruct (lookup_lt_is_Some_2 ps j) as [p Hpj]; [destruct Hv as [<- _]; by eapply lookup_lt_Some|].
      destruct (Hall p) as [ans ->]; [by eapply list_elem_of_lookup_2|].
      destruct (verified_ret _ _ _ _ _ _ Hv Hpj) as (g' & Hg' & h & jobs & x & _ & _ & ->). by simplify_eq.
Qed.

(** ** Writes up to the end

    What runs on the segment leaves the mutex alone. *)
Lemma exec_on_segment {S K A} (p : prog (shm_sys K) A) tape (w : guarded S K) :
  exec (zoom g_segment_f p) tape w =
  match exec p tape (g_segment w) with Some (a, s', tape') => Some (a, mk_guarded (g_mutex w) s', tape') | None => None end.
Proof.
  revert tape w. induction p as [a| |X f k IH|k IH]; intros tape w; simpl; [by destruct w|done| |destruct tape; apply IH].
  destruct (f (g_segment w)) as [x s']. by rewrite IH.
Qed.

Section counter.
Context {S K : Type} `{!IpcSync S}.
Implicit Types (s : shm_sys K) (w : guarded S K).

Lemma exec_write_bytes o total done bs data s tape :
  is_bytes bs -> length data = total -> (length done + length bs <= total)%nat -> Z.of_nat total <= default 0 (s_sizes s !! o) ->
  region o total s = splice 0 done data ->
  exists s', exec (write_bytes o (Z.of_nat (length done)) bs) tape s = Some (tt, s', tape) /\
    region o total s' = splice 0 (done ++ bs) data /\ s_sizes s' = s_sizes s.
Proof.
  intros Hb Hd. revert done s. induction Hb as [|b bs Hb _ IH]; intros done s Hl Hz Hr; cbn [write_bytes].
  { exists s. by rewrite app_nil_r. }
  cbn [length] in Hl. rewrite exec_bind. unfold byte_access. rewrite exec_bind. cbn [exec act].
  rewrite (proj2 (Z.leb_le _ _)), (proj2 (Z.ltb_lt _ _)) by lia. cbn [andb exec].
  destruct (IH (done ++ [b]) (put_byte o (Z.of_nat (length done)) b s)) as (s' & E & Hr' & Hs'); [rewrite length_app; cbn; lia|done| |].
  { rewrite region_put, Hr by (done || lia). apply splice_snoc. lia. }
  exists s'. rewrite length_app in E. cbn [length] in E. replace (Z.of_nat (length done) + 1) with (Z.of_nat (length done + 1)) by lia.
  split; [exact E|]. by rewrite <- app_assoc in Hr'.
Qed.

(** The last word of a region, from its bytes. *)
Lemma last_word o total s : (4 <= total)%nat -> (4 | Z.of_nat total) ->
  to_ne_bytes 4 (fget (cell o (acc_of (Z.of_nat total))) s) = list.drop (total - 4) (region o total s).
Proof.
  intros Ht [q Hq]. apply list_eq. intros k. destruct (decide (k < 4)%nat) as [Hk|Hk].
  - rewrite lookup_drop, lookup_region by lia. unfold byte_at, word_at, acc_of.
    replace (Z.of_nat (total - 4 + k)) with (Z.of_nat k + (q - 1) * 4) by lia.
    rewrite Z.mod_add, Z.div_add, Z.mod_small, Z.div_small, Nat2Z.id by lia. replace (4 * (0 + (q - 1))) with (Z.of_nat total - 4) by lia.
    apply list_lookup_lookup_total_lt. by rewrite length_to_ne_bytes by lia.
  - rewrite !lookup_ge_None_2; [done|rewrite length_drop, length_region; lia|rewrite length_to_ne_bytes by lia; lia].
Qed.

(** C39: a write through the guard can replace the segment's reference counter.  The guard lets a
    caller write as many bytes as are mapped, the counter behind the user's bytes included: a write of
    that size succeeds, and afterwards the handles are counted as its last four bytes say. *)
Theorem full_write_replaces_counter (a : ScopedAccess.ScopedAccess) o buf w tape :
  ScopedAccess.as_mut_ptr a = Some o -> ScopedAccess.size a = Z.of_nat (length buf) ->
  (4 <= length buf)%nat -> (4 | Z.of_nat (length buf)) -> is_bytes buf -> Z.of_nat (length buf) <= default 0 (s_sizes (g_segment w) !! o) ->
  exists w', exec (ScopedAccess.write a buf) tape w = Some (Ok tt, w', tape) /\
    exec (zoom g_segment_f (ShmHandle.ref_count (ScopedAccess.shm a))) tape w' = Some (i32 (from_ne_bytes (list.drop (length buf - 4) buf)), w', tape).
Proof.
  intros Hp Hz H4 Hdiv Hb Hsz.
  destruct (exec_write_bytes o (length buf) [] buf (region o (length buf) (g_segment w)) (g_segment w) tape) as (s' & E & Hr & Hs'); try done; [apply length_region|].
  exists (mk_guarded (g_mutex w) s'). change (Z.of_nat (length [])) with 0 in E. split.
  - unfold ScopedAccess.write. rewrite Hz, Z.ltb_irrefl, Hp, exec_bind, exec_on_segment, E. done.
  - rewrite exec_on_segment. cbn [g_segment g_mutex]. unfold ShmHandle.ref_count, Posix.ref_count. change (mem (ShmHandle.inner (ScopedAccess.shm a))) with (ScopedAccess.as_mut_ptr a).
    change (Posix.size (ShmHandle.inner (ScopedAccess.shm a))) with (ScopedAccess.size a). rewrite Hp, Hz.
    rewrite (proj2 (Z.eqb_neq _ _)) by lia. rewrite exec_bind. unfold Posix.read, access. rewrite exec_bind. cbn [exec act].
    rewrite Hs'. unfold acc_of. rewrite !(proj2 (Z.leb_le _ _)) by lia. cbn [andb exec fst snd].
    assert (list.drop (length buf - 4) buf = to_ne_bytes 4 (fget (cell o (acc_of (Z.of_nat (length buf)))) s')) as ->.
    { rewrite last_word, Hr by done. unfold splice. rewrite take_0, !app_nil_l, Nat.add_0_l, (drop_ge (region _ _ _)), app_nil_r; [done|by rewrite length_region]. }
    rewrite from_to_ne_bytes, i32_wrap by lia. done.
Qed.

End counter.

(** ** Concrete runs *)

Module guards.

(** Two threads of two processes and a segment of eight mapped bytes. *)
Definition pid (j : nat) : Z := match j with O => 10 | _ => 11 end.

Lemma pid_alive j : PlatformMutex.is_process_alive duel.system (pid j) = true.
Proof. by destruct j. Qed.

Definition sync (j : nat) : IpcSync (umem table) := apple_sync duel.system 5 (mk_uthread j (pid j)).

#[export] Instance apple : Excludes sync (fun _ => 7) := apple_excludes duel.system 5 pid 7 pid_alive.

Definition segment : shm_sys bool := mk_sys {[ "/seg" := 0%nat ]} {[ 0%nat := 8 ]} {[ (0%nat, 4) := 2 ]} ∅ (mk_clock 0 []) false false.
Definition handle : ShmHandle.ShmHandle := ShmHandle.mk_ShmHandle (mk_PlatformShm (Some 0%nat) 8 1 "/seg" 1).
Definition start : guarded (umem table) bool := mk_guarded blank segment.

Definition ts : list (ShmHandle.ShmHandle * list job) := [(handle, [JWrite [1; 2; 3]; JRead]); (handle, [JRead; JWrite [0; 0; 0; 0; 0; 0; 0; 0; 0]])].

(** The first thread is interrupted in its write, the second falls asleep on the mutex and reads later. *)
Definition schedule : list (nat * bool) := replicate 3 (0%nat, false) ++ replicate 40 (1%nat, false) ++ replicate 60 (0%nat, false) ++ replicate 60 (1%nat, false).
Definition final : guarded (umem table) bool * list (prog (guarded (umem table) bool) (list answer)) := run_sched schedule (start, users sync (fun _ => 7) ts).

Definition guard : ScopedAccess.ScopedAccess (IpcSync0 := sync 0) := ScopedAccess.mk_ScopedAccess (IpcSync0 := sync 0) handle 7.

Lemma guards_reached : pool_reach (start, users sync (fun _ => 7) ts) (final.1, final.2).
Proof. exact (run_sched_reach schedule start (users sync (fun _ => 7) ts)). Qed.

End guards.

Lemma scoped_access_is_atomic_witness :
  guards.final.2 !! 1%nat = Some (Ret [ARead [1; 2; 3; 0; 2; 0; 0; 0]; AWrote (Err ScopedAccess.too_large)]) /\
  exists log data, replay [0; 0; 0; 0; 2; 0; 0; 0] log = Some data /\ events_of 1 log = [ERead [1; 2; 3; 0; 2; 0; 0; 0]] /\ region 0 8 (g_segment guards.final.1) = data.
Proof.
  assert (guards.final.2 !! 1%nat = Some (Ret [ARead [1; 2; 3; 0; 2; 0; 0; 0]; AWrote (Err ScopedAccess.too_large)])) as E by (by vm_compute).
  split; [exact E|].
  destruct (scoped_access_is_atomic guards.sync (fun _ => 7) (Excludes0 := guards.apple) 0 8 guards.ts guards.start guards.final.1 guards.final.2) as (log & data & Hlog & Hans & Hdata & _).
  - lia.
  - by vm_compute.
  - repeat constructor; done || (cbn; lia).
  - by constructor.
  - exact guards.guards_reached.
  - destruct (Hans 1%nat guards.handle [JRead; JWrite [0; 0; 0; 0; 0; 0; 0; 0; 0]] _ eq_refl E) as [_ He].
    exists log, data. split; [exact Hlog|]. split; [rewrite He; reflexivity|].
    apply Hdata; clear Hlog Hans Hdata He.
    assert (forallb (fun p => match p with Ret _ => true | _ => false end) guards.final.2 = true) as Hall by (by vm_compute).
    intros p Hp. apply list_elem_of_In in Hp. rewrite forallb_forall in Hall. specialize (Hall p Hp). clear Hp E. destruct p; [by eexists|discriminate Hall..].
Defined.

Lemma full_write_replaces_counter_witness :
  exists w', exec (ScopedAccess.write guards.guard (replicate 8 0)) [] guards.start = Some (Ok tt, w', []) /\
    exec (zoom g_segment_f (ShmHandle.ref_count guards.handle)) [] w' = Some (0, w', []).
Proof.
  apply (full_write_replaces_counter guards.guard 0%nat (replicate 8 0) guards.start []);
    [reflexivity|reflexivity|cbn; lia|by exists 2|repeat constructor; done|by vm_compute].
Defined.

(** Of two handles, the first one dropped after such a write takes the segment's name with it. *)
Example written_counter_unlinks :
  match exec (ScopedAccess.write guards.guard (replicate 8 0)) [] guards.start with
  | Some (_, w, _) => match exec (Posix.drop (ShmHandle.inner guards.handle)) [] (g_segment w) with Some (_, s, _) => s_names s !! "/seg" = None | None => False end
  | None => False
  end.
Proof. by vm_compute. Qed.
