(* ===== verification/Notify.v ===== *)
(** * Readiness notifications

    [notify.rs] with its named FIFOs, the hooks of [ChanInner] that use it, and [AsyncRoute] of
    [async_recv.rs] on Unix: a receiver waits on a descriptor that senders make readable.

    The system calls are a parameter ([FifoOs]), and so is the runtime that polls descriptors
    ([Reactor], tokio's [AsyncFd]); [FifoLaws] and [ReactorLaws] state what they do.  A FIFO is named
    by a number and known by how many bytes it holds.  The blocking of SIGPIPE around a write is not
    represented: a write nobody reads fails with EPIPE. *)
From S2P Require Import Prelude Atomics ShmName Concurrent Posix.

(** ** The system *)

(** A descriptor watched by the runtime: [w_edge], a change it has not been told of; [w_ready] and
    [w_tick], what it believes and since which change; [w_task], who waits to be woken. *)
Record watch := mk_watch { w_edge : bool; w_ready : bool; w_tick : Z; w_task : option nat }.

(** [n_fds]: the FIFO of each open descriptor, and whether it is a write end. *)
Record nsys (K : Type) := mk_nsys {
  n_paths : gmap string nat;
  n_held : gmap nat Z;
  n_fds : gmap Z (nat * bool);
  n_watch : gmap Z watch;
  n_kern : K;
}.
Arguments mk_nsys {K} _ _ _ _ _.
Arguments n_paths {K} _.
Arguments n_held {K} _.
Arguments n_fds {K} _.
Arguments n_watch {K} _.
Arguments n_kern {K} _.

Definition EAGAIN : Z := 11.
Definition EPIPE : Z := 32.

(** Descriptors are opened with O_NONBLOCK. *)
Class FifoOs (K : Type) := {
  sys_mkfifo : string -> nsys K -> result unit Z * nsys K;
  sys_open : bool -> string -> nsys K -> result Z Z * nsys K;
  sys_write : Z -> nsys K -> result unit Z * nsys K;
  sys_read : Z -> Z -> nsys K -> result Z Z * nsys K;
  sys_fclose : Z -> nsys K -> result unit Z * nsys K;
  sys_funlink : string -> nsys K -> result unit Z * nsys K;
}.

(** [reactor_poll]: the readiness and its tick, or an error of the runtime, or nothing yet, in which
    case the task is woken later.  [reactor_turn]: the runtime takes in what the system reports. *)
Class Reactor (K : Type) := {
  reactor_register : Z -> nsys K -> result unit Z * nsys K;
  reactor_poll : Z -> nat -> nsys K -> option (result Z Z) * nsys K;
  reactor_clear : Z -> Z -> nsys K -> unit * nsys K;
  reactor_turn : nsys K -> unit * nsys K;
}.

Section laws.
Context {K : Type} `{!FifoOs K, !Reactor K}.
Implicit Type s : nsys K.

Definition held s (x : nat) : Z := default 0 (n_held s !! x).

(** Equal but for what the kernel keeps for itself. *)
Definition same s s' : Prop := n_paths s' = n_paths s /\ n_held s' = n_held s /\ n_fds s' = n_fds s /\ n_watch s' = n_watch s.

Definition read_by s (x : nat) (fd : Z) : Prop := n_fds s !! fd = Some (x, false).

(** The runtime may be told that FIFO [x] has become readable, and is if it was empty. *)
Definition told s s' (x : nat) (fd : Z) : Prop :=
  match n_watch s !! fd with
  | None => n_watch s' !! fd = None
  | Some v =>
      n_watch s' !! fd = Some v /\ (read_by s x fd -> w_edge v = false -> 0 < held s x) \/
      read_by s x fd /\ n_watch s' !! fd = Some (mk_watch true (w_ready v) (w_tick v) (w_task v))
  end.

Class FifoLaws : Prop := {
  law_mkfifo p s : match (sys_mkfifo p s).1 with
    | Ok _ => exists x, n_paths s !! p = None /\ n_held s !! x = None /\ (forall q, n_paths s !! q <> Some x) /\
        same (mk_nsys (<[p := x]> (n_paths s)) (<[x := 0]> (n_held s)) (n_fds s) (n_watch s) (n_kern s)) (sys_mkfifo p s).2
    | Err e => same s (sys_mkfifo p s).2 /\ (e = EEXIST -> is_Some (n_paths s !! p))
    end;
  law_fopen wr p s : match (sys_open wr p s).1 with
    | Ok fd => exists x, 0 <= fd /\ n_paths s !! p = Some x /\ n_fds s !! fd = None /\ (wr = true -> exists fd', read_by s x fd') /\
        same (mk_nsys (n_paths s) (n_held s) (<[fd := (x, wr)]> (n_fds s)) (n_watch s) (n_kern s)) (sys_open wr p s).2
    | Err _ => same s (sys_open wr p s).2
    end;
  law_write fd x s : n_fds s !! fd = Some (x, true) -> match (sys_write fd s).1 with
    | Ok _ => let s' := (sys_write fd s).2 in
        n_paths s' = n_paths s /\ n_fds s' = n_fds s /\ n_held s' = <[x := held s x + 1]> (n_held s) /\ forall fd', told s s' x fd'
    | Err e => same s (sys_write fd s).2 /\ (e = EAGAIN /\ 0 < held s x \/ e = EPIPE /\ forall fd', ~ read_by s x fd')
    end;
  law_read fd cap x s : 0 < cap -> read_by s x fd -> match (sys_read fd cap s).1 with
    | Ok k => same (mk_nsys (n_paths s) (if 0 <? k then <[x := held s x - k]> (n_held s) else n_held s) (n_fds s) (n_watch s) (n_kern s)) (sys_read fd cap s).2 /\
        k <= held s x /\ (k <= 0 -> held s x <= 0)
    | Err _ => same s (sys_read fd cap s).2 /\ held s x <= 0
    end;
}.

(** Nothing but its absence keeps a FIFO from being opened: descriptors do not run out. *)
Class FifoPlenty : Prop := {
  plenty_read p x s : n_paths s !! p = Some x -> exists fd, (sys_open false p s).1 = Ok fd;
  plenty_write p x fd s : n_paths s !! p = Some x -> read_by s x fd -> exists fd', (sys_open true p s).1 = Ok fd';
}.

Definition set_watch s (fd : Z) (v : watch) : nsys K := mk_nsys (n_paths s) (n_held s) (n_fds s) (<[fd := v]> (n_watch s)) (n_kern s).

(** A watch the runtime has heard of. *)
Definition delivered (v : watch) : watch := mk_watch false true (w_tick v + 1) None.

Class ReactorLaws : Prop := {
  law_register fd x s : read_by s x fd -> match (reactor_register fd s).1 with
    | Ok _ => exists e k, n_watch s !! fd = None /\ (e = false -> held s x <= 0) /\ same (set_watch s fd (mk_watch e false k None)) (reactor_register fd s).2
    | Err _ => same s (reactor_register fd s).2
    end;
  law_poll fd t v s : n_watch s !! fd = Some v -> match (reactor_poll fd t s).1 with
    | Some (Ok k) => w_ready v = true /\ k = w_tick v /\ same (set_watch s fd (mk_watch (w_edge v) true (w_tick v) None)) (reactor_poll fd t s).2
    | Some (Err _) => same s (reactor_poll fd t s).2
    | None => w_ready v = false /\ same (set_watch s fd (mk_watch (w_edge v) false (w_tick v) (Some t))) (reactor_poll fd t s).2
    end;
  law_clear fd k v s : n_watch s !! fd = Some v ->
    same (set_watch s fd (if w_tick v =? k then mk_watch (w_edge v) false (w_tick v) (w_task v) else v)) (reactor_clear fd k s).2;
  law_turn s : let s' := (reactor_turn s).2 in
    n_paths s' = n_paths s /\ n_fds s' = n_fds s /\ n_held s' = n_held s /\
    forall fd, n_watch s' !! fd = n_watch s !! fd \/ n_watch s' !! fd = delivered <$> (n_watch s !! fd);
}.

End laws.
Arguments FifoLaws K {_}.
Arguments FifoPlenty K {_}.
Arguments ReactorLaws K {_}.

(** ** The FIFO backend *)

Definition MAX_SLOTS : nat := 32.

Definition slot_of (bit : Z) : Z := if bit =? 0 then -1 else trailing_zeros 32 bit.

Section calls.
Context {K : Type} `{!FifoOs K} {W : Type} (nsf : field W (nsys K)).
Abbreviation M := (prog W).

Definition sys {X} (f : nsys K -> X * nsys K) : M X :=
  act (fun w => ((f (fget nsf w)).1, fset nsf (f (fget nsf w)).2 w)).

(** A file that is dropped is closed. *)
Definition drop_file (f : option Z) : M unit := match f with Some fd => _ ← sys (sys_fclose fd); Ret tt | None => Ret tt end.

End calls.
Arguments sys {K W} nsf {X} f.
Arguments drop_file {K _ W} nsf f.

Module NotifySource.

(** The writer's descriptors, one per slot. *)
Record NotifySource := mk_NotifySource { wfds : list (option Z) }.

Definition new : NotifySource := mk_NotifySource (replicate MAX_SLOTS None).

Section source.
Context {K : Type} `{!FifoOs K} {W : Type} (nsf : field W (nsys K)) (env : option string).
Abbreviation M := (prog W).

(** The descriptor of slot [i], opened if need be. *)
Definition wfd_of (prefix name : string) (i : nat) (f : option Z) : M (option Z) :=
  match f with
  | Some fd => Ret (Some fd)
  | None =>
      match c_string (fifo_path env prefix name (Z.of_nat i)) with
      | Err _ => Ret None
      | Ok c_path =>
          r ← sys nsf (sys_open true c_path);
          Ret (match r with Ok fd => Some fd | Err _ => None end)
      end
  end.

(** One round of the loop: what becomes of the slot's descriptor. *)
Definition signal_slot (prefix name : string) (conns self_bit : Z) (i : nat) (f : option Z) : M (option Z) :=
  let bit := Z.shiftl 1 (Z.of_nat i) in
  let want := negb (Z.land conns bit =? 0) && (Z.land self_bit bit =? 0) in
  if negb want then _ ← drop_file nsf f; Ret None
  else
    o ← wfd_of prefix name i f;
    match o with
    | None => Ret None
    | Some fd =>
        r ← sys nsf (sys_write fd);
        match r with
        | Ok _ => Ret (Some fd)
        | Err e => if e =? EAGAIN then Ret (Some fd) else _ ← drop_file nsf (Some fd); Ret None
        end
    end.

Fixpoint signal_from (k : nat) (prefix name : string) (conns self_bit : Z) (i : nat) (src : NotifySource) : M NotifySource :=
  match k with
  | O => Ret src
  | S k =>
      f ← signal_slot prefix name conns self_bit i (mjoin (wfds src !! i));
      signal_from k prefix name conns self_bit (S i) (mk_NotifySource (<[i := f]> (wfds src)))
  end.

Definition signal (src : NotifySource) (prefix name : string) (conns self_bit : Z) : M NotifySource :=
  signal_from MAX_SLOTS prefix name conns self_bit 0 src.

Fixpoint close_all (fs : list (option Z)) : M unit :=
  match fs with
  | [] => Ret tt
  | f :: fs => _ ← drop_file nsf f; close_all fs
  end.

Definition close (src : NotifySource) : M NotifySource := _ ← close_all (wfds src); Ret new.

End source.
End NotifySource.

Module NotifySink.

Record NotifySink := mk_NotifySink { rfd : Z; wfd : Z; path : option string }.

Definition new : NotifySink := mk_NotifySink (-1) (-1) None.

Section sink.
Context {K : Type} `{!FifoOs K} {W : Type} (nsf : field W (nsys K)) (env : option string).
Abbreviation M := (prog W).

Definition open (k : NotifySink) (prefix name : string) (slot_bit : Z) : M (bool * NotifySink) :=
  if negb (rfd k =? -1) then Ret (true, k)
  else
    let slot := slot_of slot_bit in
    if (slot <? 0) || (Z.of_nat MAX_SLOTS <=? slot) then Ret (false, k)
    else
      let path := fifo_path env prefix name slot in
      match c_string path with
      | Err _ => Ret (false, k)
      | Ok cpath =>
          r ← sys nsf (sys_mkfifo cpath);
          if (match r with Ok _ => false | Err e => negb (e =? EEXIST) end) then Ret (false, k)
          else
            o ← sys nsf (sys_open false cpath);
            match o with
            | Err _ => _ ← sys nsf (sys_funlink cpath); Ret (false, k)
            | Ok rfd =>
                w ← sys nsf (sys_open true cpath);
                Ret (true, mk_NotifySink rfd (match w with Ok fd => fd | Err _ => -1 end) (Some path))
            end
      end.

Definition valid (k : NotifySink) : bool := negb (rfd k =? -1).
Definition native_handle (k : NotifySink) : Z := rfd k.

Fixpoint drain_loop (n : nat) (fd : Z) : M unit :=
  match n with
  | O => Spin
  | S n =>
      r ← sys nsf (sys_read fd 256);
      match r with
      | Ok k => if k <=? 0 then Ret tt else drain_loop n fd
      | Err _ => Ret tt
      end
  end.

Definition drain (n : nat) (k : NotifySink) : M unit := if rfd k =? -1 then Ret tt else drain_loop n (rfd k).

Definition close (k : NotifySink) : M NotifySink :=
  _ ← (if negb (wfd k =? -1) then _ ← sys nsf (sys_fclose (wfd k)); Ret tt else Ret tt);
  _ ← (if negb (rfd k =? -1) then _ ← sys nsf (sys_fclose (rfd k)); Ret tt else Ret tt);
  _ ← (match path k with
       | Some p => match c_string p with Ok cp => _ ← sys nsf (sys_funlink cp); Ret tt | Err _ => Ret tt end
       | None => Ret tt
       end);
  Ret new.

End sink.
End NotifySink.

Section storage.
Context {K : Type} `{!FifoOs K} {W : Type} (nsf : field W (nsys K)) (env : option string).
Abbreviation M := (prog W).

Fixpoint remove_from (k : nat) (prefix name : string) (i : nat) : M unit :=
  match k with
  | O => Ret tt
  | S k =>
      _ ← (match c_string (fifo_path env prefix name (Z.of_nat i)) with
           | Ok p => _ ← sys nsf (sys_funlink p); Ret tt
           | Err _ => Ret tt
           end);
      remove_from k prefix name (S i)
  end.

Definition clear_storage (prefix name : string) : M unit := remove_from MAX_SLOTS prefix name 0.

End storage.

(** ** The hooks of [ChanInner] *)

Module ChanNotify.

Definition INVALID_WAIT_HANDLE : Z := -1.

Section hooks.
Context {K : Type} `{!FifoOs K} {W : Type} (nsf : field W (nsys K)) (env : option string).
Abbreviation M := (prog W).

(** [native_wait_handle]: the handle, and the sink as it is afterwards. *)
Definition native_wait_handle (is_receiver : bool) (prefix name : string) (conn_id : Z) (k : NotifySink.NotifySink) : M (Z * NotifySink.NotifySink) :=
  if negb is_receiver then Ret (INVALID_WAIT_HANDLE, k)
  else
    r ← (if negb (NotifySink.valid k) then NotifySink.open nsf env k prefix name conn_id else Ret (true, k));
    Ret (if NotifySink.valid r.2 then NotifySink.native_handle r.2 else INVALID_WAIT_HANDLE, r.2).

Definition drain_wait_handle (n : nat) (k : NotifySink.NotifySink) : M unit := NotifySink.drain nsf n k.

(** The end of [send], once every fragment is in the ring. *)
Definition send_notify (connections : field W Z) (prefix name : string) (conn_id : Z) (src : NotifySource.NotifySource) : M NotifySource.NotifySource :=
  conns ← load connections;
  NotifySource.signal nsf env src prefix name conns conn_id.

End hooks.
End ChanNotify.

(** ** [AsyncRoute] on Unix

    The route it wraps is known by its [try_recv], which returns no bytes when there is no message. *)
Module AsyncRoute.

(** [afd]: the descriptor registered with the runtime. *)
Record AsyncRoute := mk_AsyncRoute { afd : Z; sink : NotifySink.NotifySink }.

Section async.
Context {K : Type} `{!FifoOs K, !Reactor K} {W : Type} (nsf : field W (nsys K)) (env : option string).
Abbreviation M := (prog W).

Definition new (is_receiver : bool) (prefix name : string) (conn_id : Z) (k : NotifySink.NotifySink) : M (io_result AsyncRoute) :=
  if negb is_receiver then Ret (Err (mk_io_error EkInvalidInput "AsyncRoute requires a receiver"))
  else
    h ← ChanNotify.native_wait_handle nsf env is_receiver prefix name conn_id k;
    if h.1 <? 0 then Ret (Err (mk_io_error EkUnsupported "no readiness handle (build the crate and peer with the notify feature)"))
    else
      r ← sys nsf (reactor_register h.1);
      Ret (match r with Ok _ => Ok (mk_AsyncRoute h.1 h.2) | Err e => Err (os_error e) end).

(** [readable().await] of task [t]: polled again whenever it is woken. *)
Fixpoint readable (n : nat) (t : nat) (fd : Z) : M (io_result Z) :=
  match n with
  | O => Spin
  | S n =>
      r ← sys nsf (reactor_poll fd t);
      match r with
      | Some (Ok tick) => Ret (Ok tick)
      | Some (Err e) => Ret (Err (os_error e))
      | None => readable n t fd
      end
  end.

Definition clear_ready (fd tick : Z) : M unit := sys nsf (reactor_clear fd tick).

Context (try_recv : M (io_result (list Z))).

Fixpoint recv (n : nat) (t : nat) (a : AsyncRoute) : M (io_result (list Z)) :=
  match n with
  | O => Spin
  | S n =>
      buf ←? try_recv;
      if negb (bool_decide (buf = [])) then Ret (Ok buf)
      else
        guard ←? readable n t (afd a);
        _ ← ChanNotify.drain_wait_handle nsf n (sink a);
        r ← try_recv;
        match r with
        | Ok buf =>
            if negb (bool_decide (buf = [])) then Ret (Ok buf)
            else _ ← clear_ready (afd a) guard; recv n t a
        | Err e => Ret (Err e)
        end
  end.

End async.
End AsyncRoute.
