(* ===== verification/NotifyWake.v ===== *)
(** * Receivers that wait on descriptors

    Senders, receivers and the runtime under every interleaving: nobody waits on a descriptor while
    there is a message for it.  And two histories in which descriptors outlive the receivers they were
    opened for. *)
From S2P Require Import Prelude Atomics ShmName Concurrent Posix PosixShm Notify.

(** ** The world

    In the place of the channel there is a log, what [channel_broadcast] shows a channel to be in the
    end: a message is appended to it in one step, and a receiver takes the first message it has not taken
    yet.  [push] and [try_recv] are not the routines of [channel.rs]. *)
Record nworld (K : Type) := mk_nworld { nw_sys : nsys K; nw_log : list (list Z); nw_conns : Z; nw_got : gmap nat (list (list Z)) }.
Arguments mk_nworld {K} _ _ _ _.
Arguments nw_sys {K} _.
Arguments nw_log {K} _.
Arguments nw_conns {K} _.
Arguments nw_got {K} _.

Inductive party := PSender (msgs : list (list Z)) | PReceiver (slot : nat) | PRuntime.

Section clients.
Context {K : Type} `{!FifoOs K, !Reactor K} (env : option string) (prefix name : string) (n : nat).
Abbreviation M := (prog (nworld K)).

Definition nw_sys_f : field (nworld K) (nsys K) := mk_field nw_sys (fun v w => mk_nworld v (nw_log w) (nw_conns w) (nw_got w)).
Definition nw_conns_f : field (nworld K) Z := mk_field nw_conns (fun v w => mk_nworld (nw_sys w) (nw_log w) v (nw_got w)).

Definition push (m : list Z) : M unit := act (fun w => (tt, mk_nworld (nw_sys w) (nw_log w ++ [m]) (nw_conns w) (nw_got w))).

Definition try_recv (r : nat) : M (io_result (list Z)) :=
  act (fun w =>
    match nw_log w !! length (nw_got w !!! r) with
    | None => (Ok [], w)
    | Some m => (Ok m, mk_nworld (nw_sys w) (nw_log w) (nw_conns w) (<[r := nw_got w !!! r ++ [m]]> (nw_got w)))
    end).

Fixpoint sender (src : NotifySource.NotifySource) (msgs : list (list Z)) : M unit :=
  match msgs with
  | [] => Ret tt
  | m :: msgs =>
      _ ← push m;
      src ← ChanNotify.send_notify nw_sys_f env nw_conns_f prefix name 0 src;
      sender src msgs
  end.

Fixpoint receive (k : nat) (r : nat) (a : AsyncRoute.AsyncRoute) : M unit :=
  match k with
  | O => Ret tt
  | S k =>
      m ← AsyncRoute.recv nw_sys_f (try_recv r) n r a;
      match m with Ok _ => receive k r a | Err _ => Ret tt end
  end.

Definition receiver (r slot : nat) : M unit :=
  a ← AsyncRoute.new nw_sys_f env true prefix name (2 ^ Z.of_nat slot) NotifySink.new;
  match a with Ok a => receive n r a | Err _ => Ret tt end.

Fixpoint runtime (k : nat) : M unit :=
  match k with
  | O => Ret tt
  | S k => _ ← sys nw_sys_f reactor_turn; runtime k
  end.

Definition party_prog (j : nat) (p : party) : M unit :=
  match p with
  | PSender msgs => sender NotifySource.new msgs
  | PReceiver slot => receiver j slot
  | PRuntime => runtime n
  end.

Definition parties (ps : list party) : list (M unit) := imap party_prog ps.

End clients.

(** ** The invariant

    A receiver is about to make its FIFO, to open it, to register it; then it looks for messages
    ([RScan]), waits ([RPark]), reads its FIFO empty after having been told at tick [t] ([RDrain]), and
    looks for messages again ([RDrained]). *)
Inductive rphase := RNew | RMade | ROpen | RScan | RPark | RDrain (t : Z) | RDrained (t : Z).

(** A sender: its descriptors and the first slot it still has to see to. *)
Inductive nghost := GSend (ws : list (option Z)) (i : nat) | GRecv (slot : nat) (fd : Z) (ph : rphase) | GTurn.

Section invariant.
Context {K : Type} (env : option string) (prefix name : string) (c : Z) (roles : nat -> option (option nat)).
Implicit Types (w : nworld K) (s : nsys K) (Γ : list nghost).

Definition P (i : nat) : string := fifo_path env prefix name (Z.of_nat i).
Definition wanted (i : nat) : Prop := Z.testbit c (Z.of_nat i) = true.

Definition owed Γ (slot : nat) : Prop := exists j ws i, Γ !! j = Some (GSend ws i) /\ (i <= slot)%nat.

(** The runtime knows, or will be told, that something has happened since. *)
Definition signalled (ph : rphase) (v : watch) : Prop :=
  match ph with
  | RDrain t | RDrained t => w_edge v = true \/ t < w_tick v
  | _ => w_edge v = true \/ w_ready v = true
  end.

Definition guarded (ph : rphase) (v : watch) : Prop :=
  match ph with RDrain t | RDrained t => w_ready v = true /\ t <= w_tick v | _ => True end.

(** [h] bytes are in the FIFO; [up]: the receiver has every message; [debt]: some sender will write. *)
Definition claims (ph : rphase) (h : Z) (v : watch) (up debt : Prop) : Prop :=
  guarded ph v /\
  (match ph with RDrain _ => True | _ => 0 < h -> signalled ph v end) /\
  (match ph with RPark => up \/ signalled ph v \/ debt | _ => True end).

Definition live (ph : rphase) : bool := match ph with RNew | RMade | ROpen => false | _ => true end.

Definition opened s (slot : nat) (fd : Z) (x : nat) : Prop := n_paths s !! P slot = Some x /\ read_by s x fd.

Definition recv_ok w (debt : nat -> Prop) (j slot : nat) (fd : Z) (ph : rphase) : Prop :=
  match ph with
  | RNew => True
  | RMade => is_Some (n_paths (nw_sys w) !! P slot)
  | ROpen => exists x, opened (nw_sys w) slot fd x
  | _ => exists x v, opened (nw_sys w) slot fd x /\ n_watch (nw_sys w) !! fd = Some v /\
           claims ph (held (nw_sys w) x) v (nw_got w !!! j = nw_log w) (debt slot)
  end.

Definition thread_ok w (debt : nat -> Prop) (j : nat) (g : nghost) : Prop :=
  match g with
  | GSend ws _ => length ws = MAX_SLOTS /\ forall i fd, ws !! i = Some (Some fd) ->
      wanted i /\ exists x, n_paths (nw_sys w) !! P i = Some x /\ n_fds (nw_sys w) !! fd = Some (x, true) /\ exists fd', read_by (nw_sys w) x fd'
  | GRecv slot fd ph => wanted slot /\ nw_got w !!! j `prefix_of` nw_log w /\ recv_ok w debt j slot fd ph
  | GTurn => True
  end.

(** A registered descriptor is that of a receiver, which alone waits on it. *)
Definition watch_ok Γ (fd : Z) (v : watch) : Prop :=
  exists j slot ph, Γ !! j = Some (GRecv slot fd ph) /\ live ph = true /\ forall t, w_task v = Some t -> t = j /\ ph = RPark.

(** What a thread is: a sender, the runtime, the receiver of a slot. *)
Definition role (g : nghost) : option (option nat) := match g with GSend _ _ => None | GRecv slot _ _ => Some (Some slot) | GTurn => Some None end.
Definition slot_in (g : nghost) : option nat := mjoin (role g).

Definition apart s : Prop := forall i i' x, n_paths s !! P i = Some x -> n_paths s !! P i' = Some x -> i = i'.

Record wake_inv w Γ : Prop := {
  wi_conns : nw_conns w = c;
  wi_log : Forall (fun m => m <> []) (nw_log w);
  wi_apart : apart (nw_sys w);
  wi_roles j g : Γ !! j = Some g -> role g = roles j;
  wi_threads j g : Γ !! j = Some g -> thread_ok w (owed Γ) j g;
  wi_slots i j gi gj slot : Γ !! i = Some gi -> Γ !! j = Some gj -> slot_in gi = Some slot -> slot_in gj = Some slot -> i = j;
  wi_watch fd v : n_watch (nw_sys w) !! fd = Some v -> watch_ok Γ fd v;
}.

(** A step of thread [j]. *)
Lemma wake_step w w' Γ j g g' :
  wake_inv w Γ -> Γ !! j = Some g -> role g' = role g ->
  nw_conns w' = c -> Forall (fun m => m <> []) (nw_log w') -> apart (nw_sys w') ->
  thread_ok w' (owed (<[j := g']> Γ)) j g' ->
  (forall i gi, i <> j -> Γ !! i = Some gi -> thread_ok w (owed Γ) i gi -> thread_ok w' (owed (<[j := g']> Γ)) i gi) ->
  (forall fd v, n_watch (nw_sys w') !! fd = Some v -> watch_ok (<[j := g']> Γ) fd v) ->
  wake_inv w' (<[j := g']> Γ).
Proof.
  intros [] Hj Hs Hc Hl Ha Hme Hother Hw. constructor; try done.
  - intros i gi. rewrite (lookup_moved _ _ _ _ _ Hj). case_decide; intros; simplify_eq; [rewrite Hs|]; by apply wi_roles0.
  - intros i gi. rewrite (lookup_moved _ _ _ _ _ Hj). case_decide; intros; simplify_eq; [done|]. by eapply Hother; eauto.
  - intros a b ga gb slot. rewrite !(lookup_moved _ _ _ _ _ Hj). intros Ha' Hb' Hsa Hsb. repeat case_decide; simplify_eq; try done;
      unfold slot_in in *; rewrite ?Hs in *; by eapply wi_slots0.
Qed.

(** What is open stays open. *)
Definition grows s s' : Prop :=
  (forall p x, n_paths s !! p = Some x -> n_paths s' !! p = Some x) /\ (forall fd y, n_fds s !! fd = Some y -> n_fds s' !! fd = Some y).

Lemma opened_grows s s' slot fd x : grows s s' -> opened s slot fd x -> opened s' slot fd x.
Proof. intros [H1 H2] [? ?]. split; [by apply H1|by apply H2]. Qed.

Lemma thread_ok_transfer w w' (d d' : nat -> Prop) j g :
  thread_ok w d j g -> grows (nw_sys w) (nw_sys w') -> nw_got w' !!! j = nw_got w !!! j -> nw_log w `prefix_of` nw_log w' ->
  (forall slot fd ph x v, g = GRecv slot fd ph -> wanted slot -> opened (nw_sys w) slot fd x -> n_watch (nw_sys w) !! fd = Some v ->
     claims ph (held (nw_sys w) x) v (nw_got w !!! j = nw_log w) (d slot) ->
     exists v', n_watch (nw_sys w') !! fd = Some v' /\ claims ph (held (nw_sys w') x) v' (nw_got w !!! j = nw_log w') (d' slot)) ->
  thread_ok w' d' j g.
Proof.
  intros Hok Hg Hgot Hlog Hc. destruct g as [ws i|slot fd ph|]; simpl in *; [| |done].
  - destruct Hok as [Hl Hok]. split; [done|]. intros k f Hk. destruct (Hok k f Hk) as (Hw & x & Hp & Hf & fd' & Hr).
    split; [done|]. exists x. split; [by apply Hg|]. split; [by apply Hg|]. exists fd'. by apply Hg.
  - destruct Hok as (Hw & Hp & Hok). rewrite Hgot. split; [done|]. split; [by etrans|].
    assert (forall x v, opened (nw_sys w) slot fd x -> n_watch (nw_sys w) !! fd = Some v ->
      claims ph (held (nw_sys w) x) v (nw_got w !!! j = nw_log w) (d slot) ->
      exists x v, opened (nw_sys w') slot fd x /\ n_watch (nw_sys w') !! fd = Some v /\
        claims ph (held (nw_sys w') x) v (nw_got w' !!! j = nw_log w') (d' slot)) as Hlive.
    { intros x v Ho Hv Hcl. destruct (Hc slot fd ph x v) as (v' & Hv' & Hcl'); try done. exists x, v'. rewrite Hgot.
      split; [by eapply opened_grows|done]. }
    destruct ph; simpl in *; try (destruct Hok as (x & v & Ho & Hv & Hcl); by eapply Hlive).
    + done.
    + destruct Hok as [x Hx]. exists x. by apply Hg.
    + destruct Hok as [x Hx]. exists x. by eapply opened_grows.
Qed.

Lemma claims_debt ph h v up (d d' : Prop) : (d -> d') -> claims ph h v up d -> claims ph h v up d'.
Proof. intros Hd (H1 & H2 & H3). split; [done|]. split; [done|]. destruct ph; tauto. Qed.

(** Debts are those of the other threads if [j] has none. *)
Lemma owed_keep Γ j g g' slot :
  Γ !! j = Some g -> (forall ws i, g = GSend ws i -> (i <= slot)%nat -> exists ws' i', g' = GSend ws' i' /\ (i' <= slot)%nat) ->
  owed Γ slot -> owed (<[j := g']> Γ) slot.
Proof.
  intros Hj Hg (k & ws & i & Hk & Hi). destruct (decide (k = j)) as [->|Hkj].
  - simplify_eq. destruct (Hg ws i) as (ws' & i' & -> & Hi'); try done. exists j, ws', i'. split; [|done].
    apply list_lookup_insert_eq. by eapply lookup_lt_Some.
  - exists k, ws, i. by rewrite list_lookup_insert_ne.
Qed.

(** The descriptor and the FIFO of one receiver are not those of another. *)
Lemma receivers_apart w Γ i j slot fd ph slot' fd' x x' g :
  wake_inv w Γ -> Γ !! i = Some (GRecv slot fd ph) -> Γ !! j = Some g -> i <> j -> slot_in g = Some slot' ->
  opened (nw_sys w) slot fd x -> opened (nw_sys w) slot' fd' x' -> x <> x' /\ fd <> fd'.
Proof.
  intros HI Hi Hj Hne Hs [Hp Hr] [Hp' Hr']. assert (x <> x') as Hx.
  { intros ->. pose proof (wi_apart _ _ HI _ _ _ Hp Hp'). subst. apply Hne. by eapply (wi_slots _ _ HI). }
  split; [done|]. intros ->. unfold read_by in *. congruence.
Qed.

(** A step of thread [j] that touches nobody's FIFO or watch but its own. *)
Lemma wake_own w w' Γ j g g' (own : option (nat * Z * nat)) :
  wake_inv w Γ -> Γ !! j = Some g -> role g' = role g ->
  nw_conns w' = c -> nw_log w' = nw_log w -> (forall i, i <> j -> nw_got w' !!! i = nw_got w !!! i) ->
  grows (nw_sys w) (nw_sys w') -> apart (nw_sys w') ->
  (forall slot fd x, own = Some (slot, fd, x) -> slot_in g = Some slot /\ opened (nw_sys w) slot fd x) ->
  (forall y, snd <$> own <> Some y -> held (nw_sys w') y = held (nw_sys w) y) ->
  (forall f, (fun o => o.1.2) <$> own <> Some f -> n_watch (nw_sys w') !! f = n_watch (nw_sys w) !! f) ->
  (forall slot ws i, wanted slot -> g = GSend ws i -> (i <= slot)%nat -> exists ws' i', g' = GSend ws' i' /\ (i' <= slot)%nat) ->
  thread_ok w' (owed (<[j := g']> Γ)) j g' ->
  (forall slot f ph v, g = GRecv slot f ph -> live ph = true -> n_watch (nw_sys w') !! f = Some v ->
     exists ph', g' = GRecv slot f ph' /\ live ph' = true /\ forall t, w_task v = Some t -> t = j /\ ph' = RPark) ->
  (forall o v, own = Some o -> n_watch (nw_sys w') !! o.1.2 = Some v -> watch_ok (<[j := g']> Γ) o.1.2 v) ->
  wake_inv w' (<[j := g']> Γ).
Proof.
  intros HI Hj Hs Hc Hl Hgot Hgr Hap Hown Hheld Hwatch Howed Hme Hlive Hownw. eapply wake_step; try done.
  - rewrite Hl. apply HI.
  - intros i gi Hne Hi Hok. eapply thread_ok_transfer; [done|done|by apply Hgot|by rewrite Hl|].
    intros slot fd ph x v -> Hw Ho Hv Hcl. exists v.
    assert (snd <$> own <> Some x /\ (fun o => o.1.2) <$> own <> Some fd) as [Hx Hf].
    { destruct own as [[[slot' fd'] x']|]; [|done]. destruct (Hown _ _ _ eq_refl) as [Hs' Ho'].
      destruct (receivers_apart w Γ i j slot fd ph slot' fd' x x' g) as [? ?]; try done. split; intros [=]; simpl in *; congruence. }
    rewrite (Hwatch _ Hf), (Hheld _ Hx), Hl. split; [done|]. eapply claims_debt; [|done]. apply (owed_keep Γ j g); [done|]. intros ws k Hk. by eapply Howed.
  - intros f v Hv. destruct (decide ((fun o => o.1.2) <$> own = Some f)) as [Hf|Hf].
    + destruct own as [o|]; simplify_eq/=. by apply Hownw.
    + rewrite (Hwatch _ Hf) in Hv. destruct (wi_watch _ _ HI _ _ Hv) as (k & slot & ph & Hk & Hlv & Ht). destruct (decide (k = j)) as [->|Hkj].
      * simplify_eq. destruct (Hlive slot f ph v) as (ph' & -> & Hl' & Ht'); [done|done|by rewrite Hwatch|].
        exists j, slot, ph'. split; [|done]. apply list_lookup_insert_eq. by eapply lookup_lt_Some.
      * exists k, slot, ph. by rewrite list_lookup_insert_ne.
Qed.

(** A sender has seen to slot [i]: whoever waits there has been told. *)
Lemma wake_paid w s' Γ j ws i0 i :
  wake_inv w Γ -> Γ !! j = Some (GSend ws i0) -> (forall k, (i0 <= k < i)%nat -> ~ wanted k) ->
  n_paths s' = n_paths (nw_sys w) -> n_fds s' = n_fds (nw_sys w) ->
  (forall fd v', n_watch s' !! fd = Some v' -> exists v, n_watch (nw_sys w) !! fd = Some v /\ w_task v' = w_task v) ->
  (forall slot fd ph x v (U D : Prop), opened (nw_sys w) slot fd x -> n_watch (nw_sys w) !! fd = Some v -> claims ph (held (nw_sys w) x) v U D ->
     exists v', n_watch s' !! fd = Some v' /\ claims ph (held s' x) v' U (D /\ slot <> i)) ->
  wake_inv (fset nw_sys_f s' w) (<[j := GSend ws (S i)]> Γ).
Proof.
  intros HI Hj Hun Hp Hf Hw Hc.
  assert (grows (nw_sys w) s') as Hg by (split; intros *; by rewrite ?Hp, ?Hf).
  eapply wake_step; try done; simpl; try apply HI.
  - intros a b x. rewrite Hp. apply HI.
  - pose proof (wi_threads _ _ HI _ _ Hj) as Hok. by apply (thread_ok_transfer w (fset nw_sys_f s' w) (owed Γ) (owed (<[j := GSend ws (S i)]> Γ)) j (GSend ws (S i))).
  - intros k gk Hne Hk Hok. eapply (thread_ok_transfer w _ (owed Γ)); try done. simpl. intros slot fd ph x v -> Hwn Ho Hv Hcl.
    destruct (Hc _ _ _ _ _ _ _ Ho Hv Hcl) as (v' & Hv' & Hcl'). exists v'. split; [done|]. eapply claims_debt; [|done].
    intros [Ho' Hsi]. eapply owed_keep; [done| |done]. intros ws' i' [= <- <-] Hle. exists ws, (S i). split; [done|].
    destruct (decide (slot < i)%nat); [|lia]. exfalso. by apply (Hun slot).
  - intros fd v' Hv'. destruct (Hw _ _ Hv') as (v & Hv & Ht). destruct (wi_watch _ _ HI _ _ Hv) as (k & slot & ph & Hk & Hlv & Htk).
    exists k, slot, ph. rewrite (lookup_moved _ _ _ _ _ Hj). case_decide; [simplify_eq|]. by rewrite Ht.
Qed.

End invariant.

(** ** The operations *)

Section operations.
Context {K : Type} `{!FifoOs K, !Reactor K, !FifoLaws K, !FifoPlenty K, !ReactorLaws K}.
Context (env : option string) (prefix name : string) (c : Z) (roles : nat -> option (option nat)).
Hypothesis Hnul : forall i, (i < MAX_SLOTS)%nat -> c_string (P env prefix name i) = Ok (P env prefix name i).
Implicit Types (w : nworld K) (s : nsys K) (Γ : list nghost).
Abbreviation M := (prog (nworld K)).
Abbreviation inv := (wake_inv (K:=K) env prefix name c roles).
Abbreviation wp := (wpc inv).
Abbreviation path i := (P env prefix name i).
Abbreviation wants := (wanted c).

Lemma wp_sys {A X} j (f : nsys K -> X * nsys K) (h : X -> M A) g Q :
  (forall w Γ, inv w Γ -> Γ !! j = Some g ->
     exists g', inv (fset nw_sys_f (f (nw_sys w)).2 w) (<[j := g']> Γ) /\ wp j (h (f (nw_sys w)).1) g' Q) ->
  wp j (sys nw_sys_f f ≫= h) g Q.
Proof. intros H. unfold sys. apply wpc_act. exact H. Qed.

(** Bytes in the FIFO are known to the runtime, but for a receiver that is reading them. *)
Lemma claims_full ph h h' v U D D' : 0 < h -> claims ph h v U D -> claims ph h' v U D'.
Proof.
  intros Hh (H1 & H2 & H3). split; [done|]. destruct ph; simpl in *; (split; [tauto|]); try done. right. left. by apply H2.
Qed.

Lemma claims_told ph h v U D D' h' :
  claims ph h v U D -> claims ph h' (mk_watch true (w_ready v) (w_tick v) (w_task v)) U D'.
Proof. intros (H1 & H2 & H3). destruct ph; simpl in *; repeat split; simpl; auto; try apply H1. Qed.

Lemma held_set s s' x h y : n_held s' = <[x := h]> (n_held s) -> held s' y = if decide (y = x) then h else held s y.
Proof. intros E. unfold held. rewrite E. case_decide as D; [subst; by rewrite lookup_insert_eq|by rewrite lookup_insert_ne]. Qed.

Lemma inv_poke w Γ j ws i0 i fd :
  inv w Γ -> Γ !! j = Some (GSend ws i0) -> ws !! i = Some (Some fd) -> (forall k, (i0 <= k < i)%nat -> ~ wants k) ->
  ((sys_write fd (nw_sys w)).1 = Ok tt \/ (sys_write fd (nw_sys w)).1 = Err EAGAIN) /\
  inv (fset nw_sys_f (sys_write fd (nw_sys w)).2 w) (<[j := GSend ws (S i)]> Γ).
Proof.
  intros HI Hj Hi Hun. pose proof (wi_threads _ _ _ _ _ _ _ HI _ _ Hj) as [_ Hok]. destruct (Hok _ _ Hi) as (_ & x & Hx & Hf & fd' & Hr).
  pose proof (law_write fd x (nw_sys w) Hf) as Hlaw. destruct (sys_write fd (nw_sys w)) as [[[]|e] s'] eqn:E; simpl in *.
  - split; [by left|]. destruct Hlaw as (Hp & Hfd & Hh & Ht). eapply wake_paid; try done.
    + intros f v' Hv'. specialize (Ht f). unfold told in Ht. destruct (n_watch (nw_sys w) !! f) as [v|]; [|congruence].
      exists v. split; [done|]. destruct Ht as [[Ht _]|[_ Ht]]; rewrite Ht in Hv'; by simplify_eq.
    + intros slot f ph y v U D [Hpy Hry] Hv Hcl. specialize (Ht f). unfold told in Ht. rewrite Hv in Ht. rewrite (held_set _ _ _ _ y Hh).
      destruct Ht as [[Ht Hne]|[Hrx Ht]]; rewrite Ht; eexists; (split; [done|]); [|by eapply claims_told]. case_decide as Hy.
      * subst y. destruct (w_edge v) eqn:Ee; [|apply (claims_full _ (held (nw_sys w) x) _ _ _ D); auto].
        destruct v as [e r t k]; simpl in *; subst e. by apply (claims_told _ _ _ _ _ _ _ Hcl).
      * eapply claims_debt; [|done]. intros HD. split; [done|]. intros ->. congruence.
  - destruct Hlaw as [(Hp & Hh & Hfd & Hw) [[-> Hpos]|[-> Hno]]]; [|by apply Hno in Hr]. split; [by right|]. eapply wake_paid; try done.
    + intros f v'. rewrite Hw. by exists v'.
    + intros slot f ph y v U D [Hpy Hry] Hv Hcl. rewrite Hw. exists v. split; [done|]. unfold held at 1. rewrite Hh. fold (held (nw_sys w) y).
      destruct (decide (slot = i)) as [->|Hs]; [|by apply (claims_debt _ _ _ _ D)]. simplify_eq. by eapply claims_full.
Qed.

(** A sender's open: the descriptor, or nobody is there to read. *)
Lemma inv_open_write w Γ j ws i0 i :
  inv w Γ -> Γ !! j = Some (GSend ws i0) -> ws !! i = Some None -> wants i -> (forall k, (i0 <= k < i)%nat -> ~ wants k) ->
  match (sys_open true (path i) (nw_sys w)).1 with
  | Ok fd => inv (fset nw_sys_f (sys_open true (path i) (nw_sys w)).2 w) (<[j := GSend (<[i := Some fd]> ws) i0]> Γ)
  | Err _ => inv (fset nw_sys_f (sys_open true (path i) (nw_sys w)).2 w) (<[j := GSend ws (S i)]> Γ)
  end.
Proof.
  intros HI Hj Hi Hw Hun. pose proof (law_fopen true (path i) (nw_sys w)) as Hlaw. pose proof (fun x fd => plenty_write (path i) x fd (nw_sys w)) as Hpl.
  destruct (sys_open true (path i) (nw_sys w)) as [[fd|e] s'] eqn:E; simpl in *.
  - destruct Hlaw as (x & _ & Hp & Hfr & [fd' Hr] & Ep & Eh & Ef & Ew); [done|]. simpl in *.
    assert (grows (nw_sys w) s') as Hg.
    { split; [by rewrite Ep|]. intros f y Hy. rewrite Ef, lookup_insert_ne; [done|]. congruence. }
    pose proof (wi_threads _ _ _ _ _ _ _ HI _ _ Hj) as Hok.
    eapply (wake_own env prefix name c roles w (fset nw_sys_f s' w) Γ j (GSend ws i0) (GSend (<[i := Some fd]> ws) i0) None); try done; simpl; try apply HI.
    + intros a b y. rewrite Ep. apply HI.
    + intros y _. unfold held. by rewrite Eh.
    + intros f _. by rewrite Ew.
    + intros slot ws' k _ [= <- <-] Hk. by eexists _, _.
    + apply (thread_ok_transfer _ _ _ _ w (fset nw_sys_f s' w) (owed Γ) (owed Γ)) in Hok as [Hl Hok]; try done. split; [by rewrite length_insert|].
      intros k f [(-> & [= ->] & _)|[_ Hk]]%list_lookup_insert_Some; [|by apply Hok]. split; [done|]. exists x. rewrite Ep, Ef, lookup_insert_eq.
      split; [done|]. split; [done|]. exists fd'. by apply Hg.
  - destruct Hlaw as (Ep & Eh & Ef & Ew). eapply wake_paid; try done; simpl.
    + intros f v'. rewrite Ew. by exists v'.
    + intros slot f ph x v U D [Hp Hr] Hv Hcl. rewrite Ew. exists v. split; [done|]. unfold held at 1. rewrite Eh. fold (held (nw_sys w) x).
      apply (claims_debt _ _ _ _ D); [|done]. intros HD. split; [done|]. intros ->. by destruct (Hpl x f Hp Hr).
Qed.

Lemma bit_wanted i : negb (Z.land c (Z.shiftl 1 (Z.of_nat i)) =? 0) = Z.testbit c (Z.of_nat i).
Proof.
  rewrite Z.shiftl_1_l. destruct (Z.eqb_spec (Z.land c (2 ^ Z.of_nat i)) 0) as [E|E]; simpl.
  - assert (Z.testbit (Z.land c (2 ^ Z.of_nat i)) (Z.of_nat i) = false) as H by (by rewrite E, Z.bits_0).
    rewrite Z.land_spec, Z.pow2_bits_true, andb_true_r in H by lia. done.
  - destruct (Z.testbit c (Z.of_nat i)) eqn:T; [done|]. exfalso. apply E. apply Z.bits_inj'. intros k Hk.
    rewrite Z.land_spec, Z.bits_0, Z.pow2_bits_eqb by lia. destruct (Z.eqb_spec (Z.of_nat i) k) as [<-|]; [by rewrite T|by rewrite andb_false_r].
Qed.

(** All slots before [i] that are wanted have been seen to. *)
Definition upto (i i0 : nat) : Prop := forall k, (i0 <= k < i)%nat -> ~ wants k.

Lemma signal_slot_wp j ws i0 i :
  (i < MAX_SLOTS)%nat -> length ws = MAX_SLOTS -> (forall k fd, ws !! k = Some (Some fd) -> wants k) -> upto i i0 ->
  wp j (NotifySource.signal_slot nw_sys_f env prefix name c 0 i (mjoin (ws !! i))) (GSend ws i0)
    (fun f g => exists i1, g = GSend (<[i := f]> ws) i1 /\ upto (S i) i1 /\ (is_Some f -> wants i)).
Proof.
  intros Hi Hl Hw Hun. destruct (lookup_lt_is_Some_2 ws i) as [f Hf]; [lia|]. rewrite Hf. cbn [mjoin option_join].
  unfold NotifySource.signal_slot. rewrite bit_wanted, Z.land_0_l, andb_true_r. destruct (Z.testbit c (Z.of_nat i)) eqn:T; cbn [negb].
  - assert (upto (S i) (S i)) as Hdone by (intros k; lia).
    assert (forall ws fd, ws !! i = Some (Some fd) -> wp j (r ← sys nw_sys_f (sys_write fd);
      match r with Ok _ => Ret (Some fd) | Err e => if e =? EAGAIN then Ret (Some fd) else _ ← drop_file nw_sys_f (Some fd); Ret None end)
      (GSend ws i0) (fun f g => exists i1, g = GSend (<[i := f]> ws) i1 /\ upto (S i) i1 /\ (is_Some f -> wants i))) as Hwrite.
    { intros ws' fd Hfd. apply wp_sys. intros w Γ HI Hj. destruct (inv_poke w Γ j ws' i0 i fd) as [Hr HI']; try done.
      eexists. split; [exact HI'|]. destruct Hr as [-> | ->]; simpl; exists (S i); (split; [by rewrite list_insert_id|done]). }
    destruct f as [fd|]; cbn [NotifySource.wfd_of]; [exact (Hwrite ws fd Hf)|].
    change (fifo_path env prefix name (Z.of_nat i)) with (path i). rewrite (Hnul i Hi).
    apply wpc_bind, wp_sys. intros w Γ HI Hj. pose proof (inv_open_write w Γ j ws i0 i HI Hj Hf T Hun) as Hopen.
    destruct (sys_open true (path i) (nw_sys w)) as [[fd|e] s'] eqn:E; cbn [fst snd] in *.
    + eexists. split; [exact Hopen|]. apply wpc_ret. eapply wpc_conseq; [apply (Hwrite (<[i := Some fd]> ws) fd); apply list_lookup_insert_eq; lia|].
      intros f g (i1 & -> & ? & ?). exists i1. by rewrite list_insert_insert_eq.
    + eexists. split; [exact Hopen|]. exists (S i). by rewrite list_insert_id.
  - assert (~ wants i) as Hnw by (unfold wanted; by rewrite T). destruct f as [fd|]; [by apply Hw in Hf|]. simpl. exists i0.
    rewrite list_insert_id by done. split; [done|]. split; [|by intros []]. intros k Hk. destruct (decide (k = i)) as [->|]; [done|]. apply Hun. lia.
Qed.

Lemma signal_from_wp j k i ws i0 :
  (i + k = MAX_SLOTS)%nat -> length ws = MAX_SLOTS -> (forall k fd, ws !! k = Some (Some fd) -> wants k) -> upto i i0 ->
  wp j (NotifySource.signal_from nw_sys_f env k prefix name c 0 i (NotifySource.mk_NotifySource ws)) (GSend ws i0)
    (fun src g => exists i1, g = GSend (NotifySource.wfds src) i1 /\ upto MAX_SLOTS i1 /\
       length (NotifySource.wfds src) = MAX_SLOTS /\ (forall k fd, NotifySource.wfds src !! k = Some (Some fd) -> wants k)).
Proof.
  revert i ws i0. induction k as [|k IH]; intros i ws i0 Hk Hl Hw Hun; cbn [NotifySource.signal_from].
  - exists i0. simpl. rewrite Nat.add_0_r in Hk. by subst i.
  - apply wpc_bind. eapply wpc_conseq; [apply signal_slot_wp; [lia|done|done|done]|]. intros f g (i1 & -> & Hun1 & Hf).
    apply IH; [lia|by rewrite length_insert| |done]. intros a fd [(-> & -> & _)|[_ Ha]]%list_lookup_insert_Some; [by apply Hf|by eapply Hw].
Qed.

Definition is_up w (j : nat) : Prop := nw_got w !!! j = nw_log w.

(** *** Senders *)

Lemma inv_push w Γ j ws i0 m : inv w Γ -> Γ !! j = Some (GSend ws i0) -> m <> [] ->
  inv (mk_nworld (nw_sys w) (nw_log w ++ [m]) (nw_conns w) (nw_got w)) (<[j := GSend ws 0]> Γ).
Proof.
  intros HI Hj Hm. assert (forall slot, owed (<[j := GSend ws 0]> Γ) slot) as Ho.
  { intros slot. exists j, ws, 0%nat. split; [|lia]. apply list_lookup_insert_eq. by eapply lookup_lt_Some. }
  eapply wake_step; try done; simpl; try apply HI.
  - apply Forall_app. split; [apply HI|by constructor].
  - exact (wi_threads _ _ _ _ _ _ _ HI _ _ Hj).
  - intros k gk Hne Hk Hok. eapply (thread_ok_transfer _ _ _ _ w); try done; [by eexists|]. simpl. intros slot fd ph x v -> Hw Hop Hv (H1 & H2 & H3).
    exists v. split; [done|]. split; [done|]. split; [done|]. destruct ph; auto.
  - intros fd v Hv. destruct (wi_watch _ _ _ _ _ _ _ HI _ _ Hv) as (k & slot & ph & Hk & Hlv). exists k, slot, ph.
    rewrite (lookup_moved _ _ _ _ _ Hj). case_decide; [simplify_eq|done].
Qed.

Lemma sender_wp j msgs src i0 :
  Forall (fun m => m <> []) msgs -> length (NotifySource.wfds src) = MAX_SLOTS ->
  (forall k fd, NotifySource.wfds src !! k = Some (Some fd) -> wants k) -> upto MAX_SLOTS i0 ->
  wp j (sender env prefix name src msgs) (GSend (NotifySource.wfds src) i0) (fun _ g => exists ws i, g = GSend ws i /\ upto MAX_SLOTS i).
Proof.
  revert src i0. induction msgs as [|m msgs IH]; intros src i0 Hm Hl Hw Hun; cbn [sender].
  - by eexists _, _.
  - apply Forall_cons_1 in Hm as [Hm Hms]. apply wpc_act. intros w Γ HI Hj. eexists. split; [by eapply inv_push|].
    apply wpc_bind. unfold ChanNotify.send_notify. apply wpc_load_same. intros w1 Γ1 HI1 Hj1. cbn [fget nw_conns_f]. rewrite (wi_conns _ _ _ _ _ _ _ HI1).
    destruct src as [ws]. eapply wpc_conseq; [apply signal_from_wp; [done|done|done|intros k; lia]|].
    intros src g (i1 & -> & Hun1 & Hl1 & Hw1). by apply IH.
Qed.

(** *** The runtime *)

Lemma claims_delivered ph h v U D : claims ph h v U D -> claims ph h (delivered v) U D.
Proof. intros (H1 & H2 & H3). destruct ph; simpl in *; repeat split; simpl; auto; try lia. Qed.

Lemma runtime_wp j k : wp j (runtime k) GTurn (fun _ _ => True).
Proof.
  induction k as [|k IH]; cbn [runtime]; [done|]. apply wp_sys. intros w Γ HI Hj. exists GTurn. split; [|exact IH].
  destruct (law_turn (nw_sys w)) as (Ep & Ef & Eh & Hw). set (s' := (reactor_turn (nw_sys w)).2) in *.
  rewrite (list_insert_id Γ j GTurn) by done. rewrite <- (list_insert_id Γ j GTurn) by done. eapply wake_step; try done; simpl; try apply HI.
  - intros a b x. rewrite Ep. apply HI.
  - intros i gi _ _ Hok. rewrite list_insert_id by done. eapply (thread_ok_transfer _ _ _ _ w); try done; simpl.
    + split; intros *; by rewrite ?Ep, ?Ef.
    + intros slot fd ph x v -> Hwn Ho Hv Hcl. unfold held at 1. rewrite Eh. fold (held (nw_sys w) x).
      destruct (Hw fd) as [-> | ->]; rewrite Hv; eexists; (split; [done|]); [done|]. by apply claims_delivered.
  - intros fd v Hv. rewrite list_insert_id by done. destruct (Hw fd) as [Hf|Hf]; rewrite Hf in Hv; [by apply HI|].
    apply fmap_Some in Hv as (v0 & Hv0 & ->). destruct (wi_watch _ _ _ _ _ _ _ HI _ _ Hv0) as (i & slot & ph & Hi & Hlv & _). by exists i, slot, ph.
Qed.

(** *** Receivers *)

(** A step of a receiver that has its FIFO registered, or registers it. *)
Lemma inv_recv w s' Γ j slot fd ph ph' x v' :
  inv w Γ -> Γ !! j = Some (GRecv slot fd ph) -> opened env prefix name (nw_sys w) slot fd x -> live ph' = true ->
  n_paths s' = n_paths (nw_sys w) -> n_fds s' = n_fds (nw_sys w) -> (forall y, y <> x -> held s' y = held (nw_sys w) y) ->
  n_watch s' = <[fd := v']> (n_watch (nw_sys w)) -> (forall t, w_task v' = Some t -> t = j /\ ph' = RPark) ->
  claims ph' (held s' x) v' (is_up w j) (owed Γ slot) ->
  inv (fset nw_sys_f s' w) (<[j := GRecv slot fd ph']> Γ).
Proof.
  intros HI Hj Ho Hlv Ep Ef Hh Ew Ht Hcl. assert (grows (nw_sys w) s') as Hg by (split; intros *; by rewrite ?Ep, ?Ef).
  pose proof (wi_threads _ _ _ _ _ _ _ HI _ _ Hj) as (Hw & Hp & _).
  assert (opened env prefix name s' slot fd x) as Ho' by (by eapply opened_grows).
  assert ((<[j := GRecv slot fd ph']> Γ) !! j = Some (GRecv slot fd ph')) as Hj' by (apply list_lookup_insert_eq; by eapply lookup_lt_Some).
  eapply (wake_own env prefix name c roles w (fset nw_sys_f s' w) Γ j _ _ (Some (slot, fd, x))); try done; simpl; try apply HI.
  - intros a b y. rewrite Ep. apply HI.
  - by intros ? ? ? [= <- <- <-].
  - intros y Hy. apply Hh. congruence.
  - intros f Hf. rewrite Ew, lookup_insert_ne; [done|congruence].
  - split; [done|]. split; [done|]. assert (owed Γ slot -> owed (<[j := GRecv slot fd ph']> Γ) slot) as Hd by (by eapply owed_keep).
    apply (claims_debt _ _ _ _ _ _ Hd) in Hcl.
    assert (exists x v, opened env prefix name s' slot fd x /\ n_watch s' !! fd = Some v /\
      claims ph' (held s' x) v (is_up w j) (owed (<[j := GRecv slot fd ph']> Γ) slot)) as Hl.
    { exists x, v'. by rewrite Ew, lookup_insert_eq. }
    destruct ph'; done.
  - intros slot' f ph0 v [= <- <- <-] _. rewrite Ew, lookup_insert_eq. intros [= <-]. by exists ph'.
  - intros o v [= <-]. simpl. rewrite Ew, lookup_insert_eq. intros [= <-]. by exists j, slot, ph'.
Qed.

(** What a registered receiver knows. *)
Lemma live_facts w Γ j slot fd ph :
  inv w Γ -> Γ !! j = Some (GRecv slot fd ph) -> live ph = true ->
  exists x v, opened env prefix name (nw_sys w) slot fd x /\ n_watch (nw_sys w) !! fd = Some v /\
    claims ph (held (nw_sys w) x) v (is_up w j) (owed Γ slot) /\ forall t, w_task v = Some t -> t = j /\ ph = RPark.
Proof.
  intros HI Hj Hlv. assert (forall i slot ph, Γ !! i = Some (GRecv slot fd ph) -> live ph = true ->
    exists x v, opened env prefix name (nw_sys w) slot fd x /\ n_watch (nw_sys w) !! fd = Some v /\
    claims ph (held (nw_sys w) x) v (is_up w i) (owed Γ slot)) as Hall.
  { intros i sl p Hi Hp. pose proof (wi_threads _ _ _ _ _ _ _ HI _ _ Hi) as (_ & _ & H). by destruct p. }
  destruct (Hall _ _ _ Hj Hlv) as (x & v & Ho & Hv & Hcl). exists x, v. split; [done|]. split; [done|]. split; [done|]. intros t Ht.
  destruct (wi_watch _ _ _ _ _ _ _ HI _ _ Hv) as (i & sl & p & Hi & Hlp & Htp). destruct (Hall _ _ _ Hi Hlp) as (y & v2 & Ho2 & _).
  destruct (decide (i = j)) as [->|Hne]; [simplify_eq; by apply Htp|].
  destruct (receivers_apart env prefix name c roles w Γ i j sl fd p slot fd y x (GRecv slot fd ph)) as [_ []]; done.
Qed.

Lemma no_task ph (v : watch) j : (forall t, w_task v = Some t -> t = j /\ ph = RPark) -> ph <> RPark -> w_task v = None.
Proof. intros H Hp. destruct (w_task v) as [t|]; [|done]. by destruct (H t eq_refl). Qed.

(** A receiver's own watch, unchanged. *)
Lemma watch_id s fd v : n_watch s !! fd = Some v -> n_watch s = <[fd := v]> (n_watch s).
Proof. intros H. by rewrite insert_id. Qed.

Lemma inv_try w Γ j slot fd ph :
  inv w Γ -> Γ !! j = Some (GRecv slot fd ph) -> live ph = true -> ph <> RPark -> (forall t, ph <> RDrain t) ->
  match nw_log w !! length (nw_got w !!! j) with
  | Some m => m <> [] /\ inv (mk_nworld (nw_sys w) (nw_log w) (nw_conns w) (<[j := nw_got w !!! j ++ [m]]> (nw_got w))) (<[j := GRecv slot fd RScan]> Γ)
  | None => inv w (<[j := GRecv slot fd (match ph with RScan => RPark | _ => ph end)]> Γ)
  end.
Proof.
  intros HI Hj Hlv Hnp Hnd. destruct (live_facts w Γ j slot fd ph HI Hj Hlv) as (x & v & Ho & Hv & Hcl & Ht). pose proof (no_task _ _ _ Ht Hnp) as Hnt.
  pose proof (wi_threads _ _ _ _ _ _ _ HI _ _ Hj) as (Hw & [rest Hp] & _). destruct Hcl as (H1 & H2 & H3).
  destruct (nw_log w !! length (nw_got w !!! j)) as [m|] eqn:Em.
  - pose proof (proj1 (Forall_lookup _ _) (wi_log _ _ _ _ _ _ _ HI) _ _ Em) as Hm. split; [done|].
    eapply (wake_own env prefix name c roles w _ Γ j _ _ (Some (slot, fd, x))); try done; simpl; try apply HI.
    + intros i Hi. by rewrite lookup_total_insert_ne.
    + by intros ? ? ? [= <- <- <-].
    + rewrite lookup_total_insert_eq. split; [done|]. split.
      * rewrite Hp in Em. rewrite lookup_app_r, Nat.sub_diag in Em by lia. destruct rest as [|m' rest]; simplify_eq/=. exists rest. by rewrite Hp, <- app_assoc.
      * exists x, v. split; [done|]. split; [done|]. split; [done|]. split; [|done]. destruct ph; simpl in *; try done.
        { by destruct (Hnd t). }
        intros _. right. apply H1.
    + intros sl f p u [= <- <- <-] _ Hu. simplify_eq. exists RScan. split; [done|]. split; [done|]. by rewrite Hnt.
    + intros o u [= <-] Hu. simplify_eq/=. exists j, slot, RScan. split; [apply list_lookup_insert_eq; by eapply lookup_lt_Some|]. by rewrite Hnt.
  - assert (is_up w j) as Hup.
    { unfold is_up. apply lookup_ge_None in Em. rewrite Hp, length_app in Em. destruct rest; [by rewrite Hp, app_nil_r|simpl in Em; lia]. }
    assert (w = fset nw_sys_f (nw_sys w) w) as -> by (by destruct w). eapply inv_recv; try done; [by destruct ph|by apply watch_id|by rewrite Hnt|].
    split; [by destruct ph|]. split; [|destruct ph; try done; by left]. destruct ph; done.
Qed.

Lemma same_held s s' y : n_held s' = n_held s -> held s' y = held s y.
Proof. intros E. unfold held. by rewrite E. Qed.

(** The step leaves the receiver with watch [v]; what is left is what the new phase claims. *)
Ltac recv_step x v :=
  eapply (inv_recv _ _ _ _ _ _ _ _ x v);
  [done|done|done|by destruct (0 <? _) || done|done|done|try (intros ? _; by apply same_held)|try first [done | match goal with E : n_watch _ = _ |- _ => rewrite E; by apply watch_id end]|
   try first [done | match goal with E : w_task _ = None |- _ => by rewrite E end]|try done].

Lemma inv_poll w Γ j slot fd :
  inv w Γ -> Γ !! j = Some (GRecv slot fd RPark) ->
  inv (fset nw_sys_f (reactor_poll fd j (nw_sys w)).2 w)
    (<[j := GRecv slot fd (match (reactor_poll fd j (nw_sys w)).1 with Some (Ok t) => RDrain t | _ => RPark end)]> Γ).
Proof.
  intros HI Hj. destruct (live_facts w Γ j slot fd RPark HI Hj eq_refl) as (x & v & Ho & Hv & Hcl & Ht).
  pose proof (law_poll fd j v (nw_sys w) Hv) as Hlaw. destruct (reactor_poll fd j (nw_sys w)) as [[[k|e]|] s'] eqn:E; simpl in *.
  - destruct Hlaw as (Hr & -> & Ep & Eh & Ef & Ew). recv_step x (mk_watch (w_edge v) true (w_tick v) None).
  - destruct Hlaw as (Ep & Eh & Ef & Ew). recv_step x v. by rewrite (same_held _ _ _ Eh).
  - destruct Hlaw as (Hr & Ep & Eh & Ef & Ew). recv_step x (mk_watch (w_edge v) false (w_tick v) (Some j)); [simpl; by intros t [= <-]|].
    rewrite (same_held _ _ _ Eh). destruct v as [e r t k]; simpl in *; by subst r.
Qed.

(** One read: it leaves the receiver reading, or finds the FIFO empty. *)
Definition read_on (r : result Z Z) : bool := match r with Ok k => 0 <? k | Err _ => false end.

Lemma inv_read w Γ j slot fd t cap :
  0 < cap -> inv w Γ -> Γ !! j = Some (GRecv slot fd (RDrain t)) ->
  inv (fset nw_sys_f (sys_read fd cap (nw_sys w)).2 w)
    (<[j := GRecv slot fd (if read_on (sys_read fd cap (nw_sys w)).1 then RDrain t else RDrained t)]> Γ).
Proof.
  intros Hcap HI Hj. destruct (live_facts w Γ j slot fd (RDrain t) HI Hj eq_refl) as (x & v & Ho & Hv & Hcl & Ht).
  assert (w_task v = None) as Hnt by (by eapply no_task). destruct Hcl as (H1 & _).
  pose proof (law_read fd cap x (nw_sys w) Hcap (proj2 Ho)) as Hlaw. destruct (sys_read fd cap (nw_sys w)) as [[k|e] s'] eqn:E; cbn [fst snd read_on] in *.
  - destruct Hlaw as ((Ep & Eh & Ef & Ew) & _ & Hk). simpl in *. destruct (Z.ltb_spec 0 k) as [Hp|Hp].
    + recv_step x v. intros y Hy. by rewrite (held_set _ _ _ _ y Eh), decide_False.
    + recv_step x v.
      split; [done|]. split; [|done]. rewrite (same_held _ _ _ Eh). specialize (Hk Hp). lia.
  - destruct Hlaw as ((Ep & Eh & Ef & Ew) & Hk). recv_step x v.
    split; [done|]. split; [|done]. rewrite (same_held _ _ _ Eh). lia.
Qed.

Lemma inv_clear w Γ j slot fd t :
  inv w Γ -> Γ !! j = Some (GRecv slot fd (RDrained t)) ->
  inv (fset nw_sys_f (reactor_clear fd t (nw_sys w)).2 w) (<[j := GRecv slot fd RScan]> Γ).
Proof.
  intros HI Hj. destruct (live_facts w Γ j slot fd (RDrained t) HI Hj eq_refl) as (x & v & Ho & Hv & Hcl & Ht).
  assert (w_task v = None) as Hnt by (by eapply no_task). destruct Hcl as ((Hr & Hle) & H2 & _).
  destruct (law_clear fd t v (nw_sys w) Hv) as (Ep & Eh & Ef & Ew). simpl in *.
  recv_step x (if w_tick v =? t then mk_watch (w_edge v) false (w_tick v) (w_task v) else v).
  - destruct (_ =? _); simpl; by rewrite Hnt.
  - split; [done|]. split; [|done]. rewrite (same_held _ _ _ Eh). intros Hp. destruct (Z.eqb_spec (w_tick v) t) as [E|E]; simpl.
    + destruct (H2 Hp) as [?|?]; [by left|lia].
    + by right.
Qed.

Lemma inv_register w Γ j slot fd :
  inv w Γ -> Γ !! j = Some (GRecv slot fd ROpen) ->
  inv (fset nw_sys_f (reactor_register fd (nw_sys w)).2 w)
    (<[j := GRecv slot fd (match (reactor_register fd (nw_sys w)).1 with Ok _ => RScan | Err _ => ROpen end)]> Γ).
Proof.
  intros HI Hj. pose proof (wi_threads _ _ _ _ _ _ _ HI _ _ Hj) as (Hw & Hp & x & Ho).
  pose proof (law_register fd x (nw_sys w) (proj2 Ho)) as Hlaw. destruct (reactor_register fd (nw_sys w)) as [[[]|e] s'] eqn:E; simpl in *.
  - destruct Hlaw as (ed & k & Hno & Hed & Ep & Eh & Ef & Ew). recv_step x (mk_watch ed false k None).
    split; [done|]. split; [|done]. rewrite (same_held _ _ _ Eh). simpl. intros Hpos. left. destruct ed; [done|]. specialize (Hed eq_refl). unfold held in *. simpl in *. lia.
  - destruct Hlaw as (Ep & Eh & Ef & Ew). assert (grows (nw_sys w) s') as Hg by (split; intros *; by rewrite ?Ep, ?Ef).
    eapply (wake_own env prefix name c roles w (fset nw_sys_f s' w) Γ j _ _ None); try done; simpl; try apply HI.
    + intros a b y. rewrite Ep. apply HI.
    + intros y _. by apply same_held.
    + intros f _. by rewrite Ew.
    + split; [done|]. split; [done|]. exists x. by eapply opened_grows.
    + by intros sl f ph u [= <- <- <-].
Qed.

Lemma path_inj a b : path a = path b -> a = b.
Proof. unfold P, fifo_path. intros E. repeat apply string_app_inj_l in E. apply (inj pretty) in E. lia. Qed.

(** Before its FIFO is registered a receiver only opens things. *)
Lemma inv_opening w s' Γ j slot fd fd' ph ph' :
  inv w Γ -> Γ !! j = Some (GRecv slot fd ph) -> live ph = false ->
  grows (nw_sys w) s' -> apart env prefix name s' -> (forall y, held s' y = held (nw_sys w) y) -> n_watch s' = n_watch (nw_sys w) ->
  (forall d, recv_ok env prefix name (fset nw_sys_f s' w) d j slot fd' ph') -> live ph' = false ->
  inv (fset nw_sys_f s' w) (<[j := GRecv slot fd' ph']> Γ).
Proof.
  intros HI Hj Hlv Hg Hap Hh Ew Hok Hlv'. pose proof (wi_threads _ _ _ _ _ _ _ HI _ _ Hj) as (Hw & Hp & _).
  eapply (wake_own env prefix name c roles w (fset nw_sys_f s' w) Γ j _ _ None); try done; simpl; try apply HI.
  - intros f _. by rewrite Ew.
  - intros sl f p u [= <- <- <-]. by rewrite Hlv.
Qed.

Lemma inv_mkfifo w Γ j slot fd :
  inv w Γ -> Γ !! j = Some (GRecv slot fd RNew) ->
  inv (fset nw_sys_f (sys_mkfifo (path slot) (nw_sys w)).2 w)
    (<[j := GRecv slot fd (match (sys_mkfifo (path slot) (nw_sys w)).1 with Err e => if e =? EEXIST then RMade else RNew | Ok _ => RMade end)]> Γ).
Proof.
  intros HI Hj. pose proof (law_mkfifo (path slot) (nw_sys w)) as Hlaw. pose proof (wi_apart _ _ _ _ _ _ _ HI) as Hap.
  destruct (sys_mkfifo (path slot) (nw_sys w)) as [[[]|e] s'] eqn:E; cbn [fst snd] in *.
  - destruct Hlaw as (x & Hno & Hnh & Hfr & Ep & Eh & Ef & Ew). simpl in *. eapply inv_opening; try done.
    + split; [|by rewrite Ef]. intros p y Hy. rewrite Ep, lookup_insert_ne; [done|]. congruence.
    + intros a b y. rewrite Ep, !lookup_insert_Some. intros [[Ea <-]|[_ Ha]] [[Eb Hb]|[_ Hb]].
      * rewrite Ea in Eb. by apply path_inj in Eb.
      * by apply Hfr in Hb.
      * subst. by apply Hfr in Ha.
      * by eapply Hap.
    + intros y. rewrite (held_set _ _ _ _ y Eh). case_decide; [|done]. subst. unfold held. by rewrite Hnh.
    + intros d. simpl. rewrite Ep, lookup_insert_eq. by eexists.
  - destruct Hlaw as ((Ep & Eh & Ef & Ew) & He). assert (grows (nw_sys w) s') as Hg by (split; intros *; by rewrite ?Ep, ?Ef).
    eapply inv_opening; try done; [intros a b y; rewrite Ep; apply Hap|intros y; by apply same_held| |by destruct (_ =? _)].
    intros d. destruct (Z.eqb_spec e EEXIST) as [->|]; [|done]. simpl. rewrite Ep. by apply He.
Qed.

Lemma open_grows w s' wr fd x :
  n_paths s' = n_paths (nw_sys w) -> n_fds (nw_sys w) !! fd = None -> n_fds s' = <[fd := (x, wr)]> (n_fds (nw_sys w)) -> grows (nw_sys w) s'.
Proof. intros Ep Hfr Ef. split; [by rewrite Ep|]. intros f y Hy. rewrite Ef, lookup_insert_ne; [done|congruence]. Qed.

Lemma inv_open_read w Γ j slot fd :
  inv w Γ -> Γ !! j = Some (GRecv slot fd RMade) ->
  exists fd', (sys_open false (path slot) (nw_sys w)).1 = Ok fd' /\ 0 <= fd' /\
    inv (fset nw_sys_f (sys_open false (path slot) (nw_sys w)).2 w) (<[j := GRecv slot fd' ROpen]> Γ).
Proof.
  intros HI Hj. pose proof (wi_threads _ _ _ _ _ _ _ HI _ _ Hj) as (_ & _ & [x Hx]). pose proof (law_fopen false (path slot) (nw_sys w)) as Hlaw.
  destruct (plenty_read _ _ _ Hx) as [fd' E]. rewrite E in *. destruct Hlaw as (y & H0 & Hy & Hfr & _ & Ep & Eh & Ef & Ew). simpl in *.
  exists fd'. split; [done|]. split; [done|]. eapply inv_opening; try done.
  - by eapply open_grows.
  - intros a b z. rewrite Ep. apply HI.
  - intros z. by apply same_held.
  - intros d. exists y. split; simpl; [by rewrite Ep|]. unfold read_by. by rewrite Ef, lookup_insert_eq.
Qed.

(** The sink's own write end changes nothing. *)
Lemma inv_open_own w Γ j slot fd p :
  inv w Γ -> Γ !! j = Some (GRecv slot fd ROpen) ->
  inv (fset nw_sys_f (sys_open true p (nw_sys w)).2 w) (<[j := GRecv slot fd ROpen]> Γ).
Proof.
  intros HI Hj. pose proof (wi_threads _ _ _ _ _ _ _ HI _ _ Hj) as (_ & _ & x & Hx). pose proof (law_fopen true p (nw_sys w)) as Hlaw.
  set (s' := (sys_open true p (nw_sys w)).2) in *.
  assert (n_paths s' = n_paths (nw_sys w) /\ n_held s' = n_held (nw_sys w) /\ n_watch s' = n_watch (nw_sys w) /\ grows (nw_sys w) s') as (Ep & Eh & Ew & Hg).
  { destruct (sys_open true p (nw_sys w)).1 as [fd'|e].
    - destruct Hlaw as (y & _ & _ & Hfr & _ & Ep & Eh & Ef & Ew). simpl in *. split; [done|]. split; [done|]. split; [done|]. by eapply open_grows.
    - destruct Hlaw as (Ep & Eh & Ef & Ew). split; [done|]. split; [done|]. split; [done|]. split; intros *; by rewrite ?Ep, ?Ef. }
  eapply inv_opening; try done; [intros a b z; rewrite Ep; apply HI|intros z; by apply same_held|]. intros d. exists x. by eapply opened_grows.
Qed.

Lemma new_wp j slot : (slot < MAX_SLOTS)%nat ->
  wp j (AsyncRoute.new nw_sys_f env true prefix name (2 ^ Z.of_nat slot) NotifySink.new) (GRecv slot 0 RNew)
    (fun a g => match a with Ok a => NotifySink.rfd (AsyncRoute.sink a) = AsyncRoute.afd a /\ 0 <= AsyncRoute.afd a /\ g = GRecv slot (AsyncRoute.afd a) RScan | Err _ => True end).
Proof.
  intros Hs. unfold AsyncRoute.new, ChanNotify.native_wait_handle, NotifySink.open, slot_of. cbn -[MAX_SLOTS trailing_zeros Z.pow Z.of_nat c_string sys].
  assert ((2 ^ Z.of_nat slot =? 0) = false) as -> by (apply Z.eqb_neq; lia). rewrite trailing_zeros_pow2 by (unfold MAX_SLOTS in Hs; lia).
  assert ((Z.of_nat slot <? 0) || (Z.of_nat MAX_SLOTS <=? Z.of_nat slot) = false) as -> by lia.
  change (fifo_path env prefix name (Z.of_nat slot)) with (path slot). rewrite (Hnul slot Hs).
  apply wpc_bind, wpc_bind, wp_sys. intros w Γ HI Hj. pose proof (inv_mkfifo w Γ j slot 0 HI Hj) as H1. eexists. split; [exact H1|]. clear H1 HI Hj.
  assert (forall r : result unit Z, (match r with Ok _ => false | Err e => negb (e =? EEXIST) end) = false ->
    (match r with Err e => if e =? EEXIST then RMade else RNew | Ok _ => RMade end) = RMade) as Hmade by (intros [[]|e]; [done|]; by destruct (_ =? _)).
  destruct (match (sys_mkfifo (path slot) (nw_sys w)).1 with Ok _ => false | Err e => negb (e =? EEXIST) end) eqn:Em; [done|]. rewrite (Hmade _ Em). clear Hmade Em Γ w.
  apply wp_sys. intros w Γ HI Hj. destruct (inv_open_read w Γ j slot 0 HI Hj) as (fd & -> & H0 & HI1). eexists. split; [exact HI1|]. clear HI HI1 Hj Γ w.
  apply wp_sys. intros w Γ HI Hj. eexists. split; [by apply inv_open_own|]. apply wpc_ret. cbn -[sys]. unfold NotifySink.valid. cbn -[sys].
  assert ((fd =? -1) = false) as -> by lia. cbn -[sys]. assert ((fd <? 0) = false) as -> by lia.
  apply wp_sys. intros w1 Γ1 HI1 Hj1. eexists. split; [by apply inv_register|]. by destruct (reactor_register fd (nw_sys w1)).1.
Qed.

Lemma try_recv_wp {A} j slot fd ph (h : io_result (list Z) -> M A) Q :
  live ph = true -> ph <> RPark -> (forall t, ph <> RDrain t) ->
  (forall m, m <> [] -> wp j (h (Ok m)) (GRecv slot fd RScan) Q) ->
  wp j (h (Ok [])) (GRecv slot fd (match ph with RScan => RPark | _ => ph end)) Q ->
  wp j (try_recv j ≫= h) (GRecv slot fd ph) Q.
Proof.
  intros Hlv Hp Hd Hsome Hnone. apply wpc_act. intros w Γ HI Hj. pose proof (inv_try w Γ j slot fd ph HI Hj Hlv Hp Hd) as Ht.
  destruct (nw_log w !! length (nw_got w !!! j)) as [m|]; [destruct Ht as [Hm Ht]|]; eexists; split; [exact Ht|by apply Hsome|exact Ht|exact Hnone].
Qed.

Lemma readable_wp n j slot fd :
  wp j (AsyncRoute.readable nw_sys_f n j fd) (GRecv slot fd RPark) (fun r g => match r with Ok t => g = GRecv slot fd (RDrain t) | Err _ => True end).
Proof.
  induction n as [|n IH]; cbn [AsyncRoute.readable]; [done|]. apply wp_sys. intros w Γ HI Hj. eexists. split; [by apply inv_poll|].
  by destruct (reactor_poll fd j (nw_sys w)).1 as [[t|e]|].
Qed.

Lemma drain_wp n j slot fd t :
  wp j (NotifySink.drain_loop nw_sys_f n fd) (GRecv slot fd (RDrain t)) (fun _ g => g = GRecv slot fd (RDrained t)).
Proof.
  induction n as [|n IH]; cbn [NotifySink.drain_loop]; [done|]. apply wp_sys. intros w Γ HI Hj. eexists. split; [by apply inv_read|].
  destruct (sys_read fd 256 (nw_sys w)).1 as [k|e]; simpl; [|done]. destruct (Z.leb_spec k 0), (Z.ltb_spec 0 k); try lia; done.
Qed.

Lemma recv_wp n j slot a :
  NotifySink.rfd (AsyncRoute.sink a) = AsyncRoute.afd a -> 0 <= AsyncRoute.afd a ->
  wp j (AsyncRoute.recv nw_sys_f (try_recv j) n j a) (GRecv slot (AsyncRoute.afd a) RScan)
    (fun r g => match r with Ok _ => g = GRecv slot (AsyncRoute.afd a) RScan | Err _ => True end).
Proof.
  intros Hs H0. induction n as [|n IH]; cbn [AsyncRoute.recv]; [done|]. apply try_recv_wp; try done.
  - intros m Hm. cbn beta iota. by rewrite bool_decide_eq_false_2.
  - cbn beta iota. apply wpc_bind. eapply wpc_conseq; [apply readable_wp|]. intros [t|e] g; [|done]. intros ->. cbn beta iota.
    unfold ChanNotify.drain_wait_handle, NotifySink.drain. rewrite Hs. assert ((AsyncRoute.afd a =? -1) = false) as -> by lia.
    apply wpc_bind. eapply wpc_conseq; [apply drain_wp|]. intros _ g ->. apply try_recv_wp; try done.
    + intros m Hm. by rewrite bool_decide_eq_false_2.
    + cbn beta iota. unfold AsyncRoute.clear_ready. apply wp_sys. intros w Γ HI Hj. eexists. split; [by apply inv_clear|exact IH].
Qed.

Lemma receiver_wp n j slot : (slot < MAX_SLOTS)%nat -> wp j (receiver env prefix name n j slot) (GRecv slot 0 RNew) (fun _ _ => True).
Proof.
  intros Hs. unfold receiver. apply wpc_bind. eapply wpc_conseq; [by apply new_wp|]. intros [a|e] g; [|done]. intros (Hr & H0 & ->). cbn beta iota.
  assert (forall k, wp j (receive n k j a) (GRecv slot (AsyncRoute.afd a) RScan) (fun _ _ => True)) as Hall; [|apply Hall].
  intros k. induction k as [|k IH]; cbn [receive]; [done|]. apply wpc_bind. eapply wpc_conseq; [by apply recv_wp|]. intros [m|e] g; [|done]. by intros ->.
Qed.

End operations.

(** ** The pool *)

Definition start (p : party) : nghost :=
  match p with PSender _ => GSend (replicate MAX_SLOTS None) MAX_SLOTS | PReceiver slot => GRecv slot 0 RNew | PRuntime => GTurn end.

(** Messages have bytes; receivers have bits of their own. *)
Definition party_ok (c : Z) (p : party) : Prop :=
  match p with
  | PSender msgs => Forall (fun m => m <> []) msgs
  | PReceiver slot => (slot < MAX_SLOTS)%nat /\ Z.testbit c (Z.of_nat slot) = true
  | PRuntime => True
  end.

Definition slots_apart (ps : list party) : Prop :=
  forall i j slot, ps !! i = Some (PReceiver slot) -> ps !! j = Some (PReceiver slot) -> i = j.

Section pool.
Context {K : Type} `{!FifoOs K, !Reactor K, !FifoLaws K, !FifoPlenty K, !ReactorLaws K} (env : option string) (prefix name : string) (n : nat) (ps : list party).
Hypothesis Hnul : forall i, (i < MAX_SLOTS)%nat -> c_string (P env prefix name i) = Ok (P env prefix name i).
Implicit Type w : nworld K.

Definition role_at (j : nat) : option (option nat) := match ps !! j with Some p => role (start p) | None => None end.

Lemma parties_inv w :
  Forall (party_ok (nw_conns w)) ps -> slots_apart ps -> nw_log w = [] -> nw_got w = ∅ -> n_watch (nw_sys w) = ∅ -> apart env prefix name (nw_sys w) ->
  wake_inv env prefix name (nw_conns w) role_at w (start <$> ps).
Proof.
  intros Hps Hap Hl Hg Hw Hpa. constructor; try done.
  - by rewrite Hl.
  - intros j g (p & -> & Hp)%list_lookup_fmap_Some. unfold role_at. by rewrite Hp.
  - intros j g (p & -> & Hp)%list_lookup_fmap_Some. pose proof (proj1 (Forall_lookup _ _) Hps _ _ Hp) as Hok. destruct p as [msgs|slot|]; [| |done].
    + split; [done|]. intros i f Hi. by apply lookup_replicate in Hi as [[=] _].
    + destruct Hok as [_ Hok]. split; [done|]. rewrite Hg, Hl, lookup_total_empty. done.
  - intros i j gi gj slot (p & -> & Hp)%list_lookup_fmap_Some (q & -> & Hq)%list_lookup_fmap_Some. destruct p, q; try done.
    intros [= ->] [= ->]. by eapply Hap.
  - intros f u. by rewrite Hw, lookup_empty.
Qed.

Lemma parties_verified c :
  Forall (party_ok c) ps ->
  verified (wake_inv (K:=K) env prefix name c role_at) (fun j _ g => role_at j = None -> exists ws i, g = GSend ws i /\ upto c MAX_SLOTS i)
    (parties env prefix name n ps) (start <$> ps).
Proof.
  intros Hps. split; [unfold parties; by rewrite length_fmap, length_imap|]. intros j p g Hp Hg. unfold parties in Hp. rewrite list_lookup_imap in Hp.
  rewrite list_lookup_fmap in Hg. destruct (ps !! j) as [q|] eqn:Eq; cbn [fmap option_fmap option_map] in *; simplify_eq.
  pose proof (proj1 (Forall_lookup _ _) Hps _ _ Eq) as Hok. unfold role_at. rewrite Eq. destruct q as [msgs|slot|].
  - eapply wpc_conseq; [apply (sender_wp env prefix name c _ Hnul j msgs NotifySource.new MAX_SLOTS Hok); [done| |intros k; lia]|by auto].
    intros k f Hk. by apply lookup_replicate in Hk as [[=] _].
  - destruct Hok as [Hs _]. eapply wpc_conseq; [by apply (receiver_wp env prefix name c _ Hnul n j slot)|done].
  - eapply wpc_conseq; [by apply runtime_wp|done].
Qed.

End pool.

(** Nobody waits on a descriptor while there is a message for it.  Any number of senders,
    receivers that wait with [AsyncRoute::recv], and the threads of the runtime interleave in any way,
    the senders opening FIFOs that may not exist yet and finding some full, while no open of a FIFO that exists fails ([FifoPlenty]).  Once the senders have
    finished, a receiver that waits on its descriptor, with the runtime believing it not readable and
    no event for it under way, has received every message. *)
Theorem async_recv_never_misses {K} `{!FifoOs K, !Reactor K, !FifoLaws K, !FifoPlenty K, !ReactorLaws K} env prefix name n (ps : list party) (w w' : nworld K) pool :
  (forall i, (i < MAX_SLOTS)%nat -> c_string (P env prefix name i) = Ok (P env prefix name i)) ->
  Forall (party_ok (nw_conns w)) ps -> slots_apart ps ->
  nw_log w = [] -> nw_got w = ∅ -> n_watch (nw_sys w) = ∅ -> apart env prefix name (nw_sys w) ->
  pool_reach (w, parties env prefix name n ps) (w', pool) ->
  (forall j msgs, ps !! j = Some (PSender msgs) -> pool !! j = Some (Ret tt)) ->
  forall fd v r, n_watch (nw_sys w') !! fd = Some v -> w_edge v = false -> w_ready v = false -> w_task v = Some r ->
  nw_got w' !!! r = nw_log w'.
Proof.
  intros Hnul Hps Hap Hl Hg Hw Hpa Hr Hdone fd v r Hv He Hrd Ht.
  destruct (pool_verified (wake_inv env prefix name (nw_conns w) (role_at ps))
    (fun j _ g => role_at ps j = None -> exists ws i, g = GSend ws i /\ upto (nw_conns w) MAX_SLOTS i) w (parties env prefix name n ps) (start <$> ps) w' pool) as (Γ & HI & Hver); [| |done|].
  - by apply parties_inv.
  - by apply parties_verified.
  - destruct (wi_watch _ _ _ _ _ _ _ HI _ _ Hv) as (j & slot & ph & Hj & _ & Htj). destruct (Htj _ Ht) as [-> ->].
    pose proof (wi_threads _ _ _ _ _ _ _ HI _ _ Hj) as (Hwn & _ & x & v' & _ & Hv' & _ & _ & Hc). simplify_eq.
    destruct Hc as [Hup|[[?|?]|(k & ws & i & Hk & Hi)]]; [done|congruence|congruence|exfalso].
    pose proof (wi_roles _ _ _ _ _ _ _ HI _ _ Hk) as Hrk. pose proof (wi_roles _ _ _ _ _ _ _ HI _ _ Hj) as Hrj. unfold role_at in Hrk, Hrj.
    assert (k < length ps)%nat as Hkl.
    { destruct Hver as [Hlen _]. apply pool_reach_length in Hr. unfold parties in Hr. rewrite length_imap in Hr. apply lookup_lt_Some in Hk. lia. }
    destruct (lookup_lt_is_Some_2 ps k Hkl) as [p Hp]. rewrite Hp in Hrk. destruct p as [msgs|s|]; [|done|done].
    destruct (verified_ret _ _ _ _ _ _ Hver (Hdone _ _ Hp)) as (g & Hg' & Hq). unfold role_at in Hq. rewrite Hp in Hq.
    destruct (Hq eq_refl) as (ws' & i' & -> & Hu). simplify_eq. apply (Hu slot); [|done]. split; [done|].
    destruct (ps !! j) as [q|] eqn:Eq; [|done]. pose proof (proj1 (Forall_lookup _ _) Hps _ _ Eq) as Hok. destruct q; simplify_eq/=. apply Hok.
Qed.

(** ** A system

    FIFOs and descriptors are numbered on; a FIFO holds as many bytes as [n_kern] says, one at least.
    The runtime is told when a FIFO that was empty no longer is. *)
Definition next_fifo (s : nsys Z) : nat := foldr Nat.max 0%nat ((fun x => S x.1) <$> map_to_list (n_held s)) `max` foldr Nat.max 0%nat ((fun x => S x.2) <$> map_to_list (n_paths s)).

Definition is_read (s : nsys Z) (x : nat) : bool := existsb (fun y => bool_decide (y.2 = (x, false))) (map_to_list (n_fds s)).
Definition is_open (s : nsys Z) (x : nat) : bool := existsb (fun y => bool_decide (y.2.1 = x)) (map_to_list (n_fds s)).

Definition ENXIO : Z := 6.
Definition EBADF : Z := 9.

Definition tell (s : nsys Z) (x : nat) (fd : Z) (v : watch) : watch :=
  if bool_decide (n_fds s !! fd = Some (x, false)) then mk_watch true (w_ready v) (w_tick v) (w_task v) else v.

#[export] Instance plain_os : FifoOs Z := {|
  sys_mkfifo := fun p s =>
    match n_paths s !! p with
    | Some _ => (Err EEXIST, s)
    | None => let x := next_fifo s in (Ok tt, mk_nsys (<[p := x]> (n_paths s)) (<[x := 0]> (n_held s)) (n_fds s) (n_watch s) (n_kern s))
    end;
  sys_open := fun wr p s =>
    match n_paths s !! p with
    | None => (Err ENOENT, s)
    | Some x =>
        if wr && negb (is_read s x) then (Err ENXIO, s)
        else let fd := next_fd (n_fds s) in (Ok fd, mk_nsys (n_paths s) (n_held s) (<[fd := (x, wr)]> (n_fds s)) (n_watch s) (n_kern s))
    end;
  sys_write := fun fd s =>
    match n_fds s !! fd with
    | Some (x, true) =>
        if negb (is_read s x) then (Err EPIPE, s)
        else if (0 <? held s x) && (n_kern s <=? held s x) then (Err EAGAIN, s)
        else (Ok tt, mk_nsys (n_paths s) (<[x := held s x + 1]> (n_held s)) (n_fds s)
                       (if 0 <? held s x then n_watch s else map_imap (fun fd v => Some (tell s x fd v)) (n_watch s)) (n_kern s))
    | _ => (Err EBADF, s)
    end;
  sys_read := fun fd cap s =>
    match n_fds s !! fd with
    | Some (x, false) =>
        if 0 <? held s x then
          (Ok (Z.min cap (held s x)), mk_nsys (n_paths s) (<[x := held s x - Z.min cap (held s x)]> (n_held s)) (n_fds s) (n_watch s) (n_kern s))
        else (Err EAGAIN, s)
    | _ => (Err EBADF, s)
    end;
  sys_fclose := fun fd s =>
    match n_fds s !! fd with
    | Some (x, _) =>
        let s' := mk_nsys (n_paths s) (n_held s) (delete fd (n_fds s)) (delete fd (n_watch s)) (n_kern s) in
        (Ok tt, if is_open s' x then s' else mk_nsys (n_paths s) (<[x := 0]> (n_held s)) (n_fds s') (n_watch s') (n_kern s))
    | None => (Err EBADF, s)
    end;
  sys_funlink := fun p s =>
    match n_paths s !! p with
    | Some _ => (Ok tt, mk_nsys (delete p (n_paths s)) (n_held s) (n_fds s) (n_watch s) (n_kern s))
    | None => (Err ENOENT, s)
    end;
|}.

#[export] Instance plain_reactor : Reactor Z := {|
  reactor_register := fun fd s =>
    match n_fds s !! fd, n_watch s !! fd with
    | Some (x, false), None => (Ok tt, set_watch s fd (mk_watch (0 <? held s x) false 0 None))
    | _, _ => (Err EEXIST, s)
    end;
  reactor_poll := fun fd t s =>
    match n_watch s !! fd with
    | Some v => if w_ready v then (Some (Ok (w_tick v)), set_watch s fd (mk_watch (w_edge v) true (w_tick v) None))
                else (None, set_watch s fd (mk_watch (w_edge v) false (w_tick v) (Some t)))
    | None => (Some (Err EBADF), s)
    end;
  reactor_clear := fun fd k s =>
    match n_watch s !! fd with
    | Some v => (tt, set_watch s fd (if w_tick v =? k then mk_watch (w_edge v) false (w_tick v) (w_task v) else v))
    | None => (tt, s)
    end;
  reactor_turn := fun s => (tt, mk_nsys (n_paths s) (n_held s) (n_fds s) ((fun v => if w_edge v then delivered v else v) <$> n_watch s) (n_kern s));
|}.

Lemma max_fresh {A} (f : A -> nat) (l : list A) x : x ∈ l -> (f x < foldr Nat.max 0 ((fun y => S (f y)) <$> l))%nat.
Proof.
  induction l as [|y l IH]; [by intros ?%not_elem_of_nil|]. rewrite elem_of_cons. cbn [fmap list_fmap foldr]. intros [<-|Hl]; [lia|]. specialize (IH Hl). lia.
Qed.

Lemma next_fifo_fresh s : n_held s !! next_fifo s = None /\ forall q, n_paths s !! q <> Some (next_fifo s).
Proof.
  split.
  - destruct (n_held s !! next_fifo s) as [z|] eqn:E; [exfalso|done]. apply elem_of_map_to_list, (max_fresh fst) in E. cbn [fst] in E. unfold next_fifo in E. lia.
  - intros q E. apply elem_of_map_to_list, (max_fresh snd) in E. cbn [snd] in E. unfold next_fifo in E. lia.
Qed.

Lemma is_read_spec s x : is_read s x = true <-> exists fd, read_by s x fd.
Proof.
  unfold is_read. rewrite existsb_exists. split.
  - intros ([fd y] & Hin & Hy). apply bool_decide_eq_true in Hy. simpl in Hy. subst. exists fd. apply elem_of_map_to_list. by apply list_elem_of_In.
  - intros [fd Hfd]. exists (fd, (x, false)). split; [|by apply bool_decide_eq_true]. by apply list_elem_of_In, elem_of_map_to_list.
Qed.

Lemma next_fd_nonneg {V} (m : gmap Z V) : 0 <= next_fd m.
Proof. unfold next_fd. induction ((fun x : Z * V => x.1 + 1) <$> map_to_list m) as [|y l IH]; simpl; lia. Qed.

#[export] Instance plain_laws : FifoLaws Z.
Proof.
  split.
  - intros p s. simpl. destruct (n_paths s !! p) as [x|] eqn:E; simpl; [done|]. destruct (next_fifo_fresh s). by exists (next_fifo s).
  - intros wr p s. simpl. destruct (n_paths s !! p) as [x|] eqn:E; simpl; [|done]. destruct (wr && negb (is_read s x)) eqn:D; simpl; [done|]. exists x.
    split; [apply next_fd_nonneg|]. split; [done|]. split; [apply next_fd_fresh|]. split; [|done]. intros ->. apply is_read_spec. simpl in D. by destruct (is_read s x).
  - intros fd x s Hfd. simpl. rewrite Hfd. destruct (is_read s x) eqn:Hr; simpl.
    + destruct (Z.ltb_spec 0 (held s x)) as [Hp|Hp]; simpl; [destruct (_ <=? _)|]; simpl.
      * split; [done|]. by left.
      * split; [done|]. split; [done|]. split; [done|]. intros fd'. unfold told. simpl. destruct (n_watch s !! fd') as [v|]; [|done]. by left.
      * split; [done|]. split; [done|]. split; [done|]. intros fd'. unfold told. simpl. rewrite map_lookup_imap.
        destruct (n_watch s !! fd') as [v|]; [|done]. simpl. unfold tell. case_bool_decide; [by right|]. left. by split.
    + split; [done|]. right. split; [done|]. intros fd' Hf. assert (is_read s x = true) by (apply is_read_spec; by eexists). congruence.
  - intros fd cap x s Hcap Hfd. simpl. rewrite Hfd. destruct (Z.ltb_spec 0 (held s x)) as [Hp|Hp]; simpl; [|by split].
    assert ((0 <? Z.min cap (held s x)) = true) as -> by lia. split; [done|]. lia.
Qed.

#[export] Instance plain_plenty : FifoPlenty Z.
Proof.
  split.
  - intros p x s Hp. simpl. rewrite Hp. by eexists.
  - intros p x fd s Hp Hr. simpl. rewrite Hp. assert (is_read s x = true) as -> by (apply is_read_spec; by eexists). by eexists.
Qed.

#[export] Instance plain_reactor_laws : ReactorLaws Z.
Proof.
  split.
  - intros fd x s Hfd. simpl. rewrite Hfd. destruct (n_watch s !! fd) as [v|] eqn:E; simpl; [done|]. eexists _, _. split; [done|]. split; [|done]. lia.
  - intros fd t v s Hv. simpl. rewrite Hv. by destruct (w_ready v) eqn:Hr.
  - intros fd k v s Hv. simpl. by rewrite Hv.
  - intros s. simpl. split; [done|]. split; [done|]. split; [done|]. intros fd. rewrite lookup_fmap. destruct (n_watch s !! fd) as [v|]; simpl; [|by left].
    destruct (w_edge v); [by right|by left].
Qed.

Module watching.

Definition blank : nsys Z := mk_nsys ∅ ∅ ∅ ∅ 1.

(** Two senders, a receiver in slot 0 and one in slot 5, and a thread of the runtime; FIFOs hold one byte. *)
Definition ps : list party := [PSender [[1]; [2]]; PReceiver 0; PSender [[3]]; PReceiver 5; PRuntime].
Definition w0 : nworld Z := mk_nworld blank [] 33 ∅.
Definition schedule : list (nat * bool) :=
  replicate 5 (0%nat, false) ++ flat_map (fun _ => [(1%nat, false); (2%nat, false); (3%nat, false); (0%nat, false); (4%nat, false)]) (seq 0 40).
Definition final : nworld Z * list (prog (nworld Z) unit) := run_sched schedule (w0, parties None "" "c" 60 ps).

Lemma watching_reached : pool_reach (w0, parties None "" "c" 60 ps) (final.1, final.2).
Proof. exact (run_sched_reach schedule w0 (parties None "" "c" 60 ps)). Qed.

Lemma path_no_nul i : (i < MAX_SLOTS)%nat -> c_string (P None "" "c" i) = Ok (P None "" "c" i).
Proof. intros Hi. do 32 (destruct i as [|i]; [by vm_compute|]). unfold MAX_SLOTS in Hi. lia. Qed.

End watching.

Lemma async_recv_never_misses_witness : nw_got watching.final.1 !!! 1%nat = nw_log watching.final.1 /\ nw_log watching.final.1 = [[1]; [2]; [3]].
Proof.
  split; [|by vm_compute].
  pose proof (async_recv_never_misses None "" "c" 60 watching.ps watching.w0 watching.final.1 watching.final.2) as H.
  apply (H watching.path_no_nul) with (fd := 3) (v := mk_watch false false 1 (Some 1%nat)).
  - repeat (constructor; [first [split; [unfold MAX_SLOTS; lia|reflexivity] | repeat constructor; done | done]|]). constructor.
  - intros i j slot. do 5 (destruct i as [|i]; [do 5 (destruct j as [|j]; [intros [=] [=]; congruence|]); by intros|]). by intros.
  - reflexivity.
  - reflexivity.
  - reflexivity.
  - by intros i i' x.
  - exact watching.watching_reached.
  - intros j msgs. do 5 (destruct j as [|j]; [intros [=]; by vm_compute|]). by intros.
  - by vm_compute.
  - reflexivity.
  - reflexivity.
  - reflexivity.
Defined.

(** ** Descriptors that outlive their receivers *)

Module reuse.

Definition here : field (nsys Z) (nsys Z) := mk_field (fun s => s) (fun v _ => v).
Abbreviation open_sink := (NotifySink.open here None NotifySink.new "" "c" 1).
Abbreviation signal src := (NotifySource.signal here None src "" "c" 1 0).

(** A receiver of slot 0 leaves and another takes the slot, between two messages of one sender. *)
Definition succession : prog (nsys Z) (NotifySource.NotifySource * NotifySink.NotifySink) :=
  a ← open_sink;
  src ← signal NotifySource.new;
  _ ← NotifySink.close here a.2;
  b ← open_sink;
  src ← signal src;
  Ret (src, b.2).

(** The receiver that leaves has given up its bit before it closes its sink, as [drop] does; its
    successor opens the same FIFO in between. *)
Definition overlap : prog (nsys Z) (NotifySource.NotifySource * NotifySink.NotifySink) :=
  a ← open_sink;
  b ← open_sink;
  _ ← NotifySink.close here a.2;
  src ← signal NotifySource.new;
  src ← signal src;
  Ret (src, b.2).

(** Nothing has told the sink. *)
Definition untold (s : nsys Z) (k : NotifySink.NotifySink) : Prop :=
  NotifySink.valid k = true /\ exists x, read_by s x (NotifySink.rfd k) /\ held s x = 0.

End reuse.

(** A wake-up is lost when a slot changes hands.  The sender keeps the descriptor of the FIFO
    of the receiver that left; its next write fails, and the message is announced to nobody: the new
    receiver's FIFO is empty after the send and only a further message would make it readable.  And a
    receiver that leaves removes the path of the FIFO its successor has opened already, after which
    no sender can reach that receiver. *)
Theorem slot_reuse_loses_wakes :
  (exists s src b, eval reuse.succession watching.blank = Some ((src, b), s) /\ reuse.untold s b /\ NotifySource.wfds src !! 0%nat = Some None) /\
  (exists s src b, eval reuse.overlap watching.blank = Some ((src, b), s) /\ reuse.untold s b /\ n_paths s !! fifo_path None "" "c" 0 = None).
Proof.
  split.
  - eexists _, _, _. split; [by vm_compute|]. split; [|done]. split; [done|]. exists 1%nat. done.
  - eexists _, _, _. split; [by vm_compute|]. split; [|done]. split; [done|]. exists 0%nat. done.
Qed.
