(* ===== verification/Ring.v ===== *)
(** * The ring in shared memory

    [channel.rs], first half: the slots of a route ([ElemT]) and of a multi-writer
    channel ([ChannelElemT]), the message header they carry ([msg_t]), the ring
    header with its one-time initialisation, and the three operations by which a
    receiver takes over a connection bit ([release_mark], [release_stale],
    [adopt_cursor]). *)
From S2P Require Import Prelude Atomics Locks Circ Abi ShmName Liveness.

Definition RING_SIZE : Z := ring_size.
Definition RING_LAP : Z := RING_SIZE.

(** ** Message slots *)

Definition MSG_SIZE : Z := msg_t_size.
Definition MSG_CC_ID : Z := msg_t_cc_id_off.
Definition MSG_ID : Z := msg_t_id_off.
Definition MSG_REMAIN : Z := msg_t_remain_off.
Definition MSG_STORAGE : Z := msg_t_storage_off.
Definition MSG_PAYLOAD : Z := msg_t_payload_off.

(** The bytes of a slot's [data_] after [write_msg] (of [ElemT] and [ChannelElemT] alike). *)
Definition write_msg (data : list Z) (cc_id id remain : Z) (storage : bool) (payload : list Z) : list Z :=
  let p := splice (Z.to_nat MSG_CC_ID) (to_ne_bytes 4 cc_id) data in
  let p := splice (Z.to_nat MSG_ID) (to_ne_bytes 4 id) p in
  let p := splice (Z.to_nat MSG_REMAIN) (to_ne_bytes 4 remain) p in
  let p := splice (Z.to_nat MSG_STORAGE) [if storage then 1 else 0] p in
  splice (Z.to_nat MSG_PAYLOAD) payload p.

Definition read_u32 (off : Z) (data : list Z) : Z := from_ne_bytes (take 4 (drop (Z.to_nat off) data)).

Record msg_header := mk_header { h_cc_id : Z; h_id : Z; h_remain : Z; h_storage : bool }.

Definition read_header (data : list Z) : msg_header :=
  mk_header (read_u32 MSG_CC_ID data) (read_u32 MSG_ID data) (i32 (read_u32 MSG_REMAIN data))
    (negb (default 0 (data !! Z.to_nat MSG_STORAGE) =? 0)).

Definition read_payload (n : Z) (data : list Z) : list Z := take (Z.to_nat n) (drop (Z.to_nat MSG_PAYLOAD) data).

Definition read_storage_id (data : list Z) : Z := i32 (read_u32 MSG_PAYLOAD data).

Definition zero_msg : list Z := replicate (Z.to_nat MSG_SIZE) 0.

Record ElemT := mk_ElemT { data_ : list Z; rc_ : Z }.

Record ChannelElemT := mk_ChannelElemT { cdata_ : list Z; crc_ : Z; f_ct_ : Z }.

#[export] Instance ElemT_inhabited : Inhabited ElemT := populate (mk_ElemT zero_msg 0).
#[export] Instance ChannelElemT_inhabited : Inhabited ChannelElemT := populate (mk_ChannelElemT zero_msg 0 0).

(** ** Packing of [rc_] *)

Definition EP_MASK : Z := route_ep_mask.
Definition EP_INCR : Z := route_ep_incr.
Definition RC_MASK : Z := chan_rc_mask.
Definition CH_EP_MASK : Z := chan_ep_mask.
Definition CH_IC_MASK : Z := chan_ic_mask.
Definition CH_IC_INCR : Z := chan_ic_incr.

Definition inc_rc (rc : Z) : Z :=
  Z.lor (Z.land rc CH_IC_MASK) (Z.land (wrapping_add 64 rc CH_IC_INCR) (unot 64 CH_IC_MASK)).

Definition inc_mask (rc : Z) : Z := Z.land (inc_rc rc) (unot 64 RC_MASK).

(** ** The ring

    The header's words, the slots and the sole-sender record.  A route and a
    channel of one name share the header bytes and differ in the slots; a name is
    used for one of the two. *)
Record ring := mk_ring {
  connections : Z; lc : Z; constructed : Z; write_cursor : Z; epoch : Z; sender_count : Z;
  slots : gmap Z ElemT; channel_slots : gmap Z ChannelElemT; sender_owner : SlotOwner }.

(** A fresh mapping is zero-filled. *)
Definition fresh_ring : ring := mk_ring 0 0 0 0 0 0 ∅ ∅ (mk_SlotOwner 0 0 0).
#[export] Instance ring_inhabited : Inhabited ring := populate fresh_ring.

Definition connections_f : field ring Z := mk_field connections (fun v r =>
  mk_ring v (lc r) (constructed r) (write_cursor r) (epoch r) (sender_count r) (slots r) (channel_slots r) (sender_owner r)).
Definition lc_f : field ring Z := mk_field lc (fun v r =>
  mk_ring (connections r) v (constructed r) (write_cursor r) (epoch r) (sender_count r) (slots r) (channel_slots r) (sender_owner r)).
Definition constructed_f : field ring Z := mk_field constructed (fun v r =>
  mk_ring (connections r) (lc r) v (write_cursor r) (epoch r) (sender_count r) (slots r) (channel_slots r) (sender_owner r)).
Definition write_cursor_f : field ring Z := mk_field write_cursor (fun v r =>
  mk_ring (connections r) (lc r) (constructed r) v (epoch r) (sender_count r) (slots r) (channel_slots r) (sender_owner r)).
Definition epoch_f : field ring Z := mk_field epoch (fun v r =>
  mk_ring (connections r) (lc r) (constructed r) (write_cursor r) v (sender_count r) (slots r) (channel_slots r) (sender_owner r)).
Definition sender_count_f : field ring Z := mk_field sender_count (fun v r =>
  mk_ring (connections r) (lc r) (constructed r) (write_cursor r) (epoch r) v (slots r) (channel_slots r) (sender_owner r)).
Definition slots_f : field ring (gmap Z ElemT) := mk_field slots (fun v r =>
  mk_ring (connections r) (lc r) (constructed r) (write_cursor r) (epoch r) (sender_count r) v (channel_slots r) (sender_owner r)).
Definition channel_slots_f : field ring (gmap Z ChannelElemT) := mk_field channel_slots (fun v r =>
  mk_ring (connections r) (lc r) (constructed r) (write_cursor r) (epoch r) (sender_count r) (slots r) v (sender_owner r)).
Definition sender_owner_f : field ring SlotOwner := mk_field sender_owner (fun v r =>
  mk_ring (connections r) (lc r) (constructed r) (write_cursor r) (epoch r) (sender_count r) (slots r) (channel_slots r) v).

Definition data_f : field ElemT (list Z) := mk_field data_ (fun v s => mk_ElemT v (rc_ s)).
Definition rc_f : field ElemT Z := mk_field rc_ (fun v s => mk_ElemT (data_ s) v).
Definition cdata_f : field ChannelElemT (list Z) := mk_field cdata_ (fun v s => mk_ChannelElemT v (crc_ s) (f_ct_ s)).
Definition crc_f : field ChannelElemT Z := mk_field crc_ (fun v s => mk_ChannelElemT (cdata_ s) v (f_ct_ s)).
Definition f_ct_f : field ChannelElemT Z := mk_field f_ct_ (fun v s => mk_ChannelElemT (cdata_ s) (crc_ s) v).

Section ring.
Context {S : Type} (r : field S ring).

(** [ring_slot] and [channel_slot]: the cursor is truncated to [u8]. *)
Definition ring_slot (cursor : Z) : field S ElemT := sub_field (sub_field r slots_f) (at_key (index_of cursor)).

Definition channel_slot (cursor : Z) : field S ChannelElemT :=
  sub_field (sub_field r channel_slots_f) (at_key (index_of cursor)).

(** [init_header]: the double-checked initialisation of [circ.rs] on the ring header. *)
Definition init_header (fuel : nat) : prog S unit :=
  init (sub_field r connections_f) (sub_field r lc_f) (sub_field r constructed_f) fuel.

(** Drop the mark [bit] from a slot committed at [pos]. *)
Fixpoint release_mark_loop (fuel : nat) (slot : field S ChannelElemT) (pos bit cur_rc : Z) : prog S unit :=
  match fuel with
  | O => Spin
  | Datatypes.S fuel =>
      if Z.land cur_rc bit =? 0 then Ret tt
      else
        fl ← load (sub_field slot f_ct_f);
        if negb (fl =? unot 64 pos) then Ret tt
        else
          let nxt_rc := Z.land (inc_rc cur_rc) (unot 64 bit) in
          x ← compare_exchange_weak (sub_field slot crc_f) cur_rc nxt_rc;
          match x with
          | Ok _ =>
              if Z.land nxt_rc RC_MASK =? 0 then
                _ ← compare_exchange (sub_field slot f_ct_f) (unot 64 pos) (pos + RING_SIZE);
                Ret tt
              else Ret tt
          | Err actual => release_mark_loop fuel slot pos bit actual
          end
  end.

Definition release_mark (fuel : nat) (slot : field S ChannelElemT) (pos bit : Z) : prog S unit :=
  cur_rc ← load (sub_field slot crc_f);
  release_mark_loop fuel slot pos bit cur_rc.

(** A commit flag is the complement of a 32-bit position. *)
Definition committed (fl : Z) : bool := Z.shiftr fl 32 =? 0xffffffff.

Fixpoint release_stale_loop (fuel : nat) (idxs : list Z) (since bit : Z) : prog S unit :=
  match idxs with
  | [] => Ret tt
  | idx :: idxs =>
      cur_fl ← load (sub_field (channel_slot idx) f_ct_f);
      if negb (committed cur_fl) then release_stale_loop fuel idxs since bit
      else
        let pos := wrap 32 (unot 64 cur_fl) in
        if 0 <=? i32 (wrapping_sub 32 pos since) then release_stale_loop fuel idxs since bit
        else
          _ ← release_mark fuel (channel_slot idx) pos bit;
          release_stale_loop fuel idxs since bit
  end.

Definition release_stale (fuel : nat) (since bit : Z) : prog S unit :=
  release_stale_loop fuel (seqZ 0 RING_SIZE) since bit.

Fixpoint adopt_loop (n : nat) (multi : bool) (ep since bit cur : Z) : prog S Z :=
  match n with
  | O => Ret cur
  | Datatypes.S n =>
      if cur =? since then Ret cur
      else
        let idx := wrapping_sub 32 cur 1 in
        rm ← (if multi then rc ← load (sub_field (channel_slot idx) crc_f); Ret (rc, CH_EP_MASK)
              else rc ← load (sub_field (ring_slot idx) rc_f); Ret (rc, EP_MASK));
        let '(rc, ep_mask) := rm : Z * Z in
        if (Z.land rc bit =? 0) || negb (Z.land rc (unot 64 ep_mask) =? ep) then Ret cur
        else adopt_loop n multi ep since bit (wrapping_sub 32 cur 1)
  end.

(** Where a receiver that read [since] before claiming [bit] starts. *)
Definition adopt_cursor (multi : bool) (since bit : Z) : prog S Z :=
  ep ← load (sub_field r epoch_f);
  cur ← load (sub_field r write_cursor_f);
  adopt_loop (Z.to_nat RING_SIZE) multi ep since bit cur.

End ring.

(** ** The message header *)

Lemma length_to_ne4 x : length (to_ne_bytes 4 x) = 4%nat.
Proof. by rewrite length_to_ne_bytes. Qed.

Section msg.
Context (data : list Z) (cc_id id remain : Z) (storage : bool) (payload : list Z).
Hypothesis data_len : length data = 80%nat.
Hypothesis payload_len : (length payload <= 64)%nat.

Let p1 := splice 0 (to_ne_bytes 4 cc_id) data.
Let p2 := splice 4 (to_ne_bytes 4 id) p1.
Let p3 := splice 8 (to_ne_bytes 4 remain) p2.
Let p4 := splice 12 [if storage then 1 else 0] p3.

Lemma write_msg_lengths :
  length p1 = 80%nat /\ length p2 = 80%nat /\ length p3 = 80%nat /\ length p4 = 80%nat /\
  length (write_msg data cc_id id remain storage payload) = 80%nat.
Proof.
  assert (length p1 = 80%nat) as H1 by (unfold p1; rewrite length_splice; [done|rewrite length_to_ne4, data_len; lia]).
  assert (length p2 = 80%nat) as H2 by (unfold p2; rewrite length_splice; [done|rewrite length_to_ne4, H1; lia]).
  assert (length p3 = 80%nat) as H3 by (unfold p3; rewrite length_splice; [done|rewrite length_to_ne4, H2; lia]).
  assert (length p4 = 80%nat) as H4 by (unfold p4; rewrite length_splice; [done|rewrite H3; simpl; lia]).
  repeat split; try done. change (length (splice 16 payload p4) = 80%nat). rewrite length_splice; [done|rewrite H4; lia].
Qed.

Lemma length_write_msg : length (write_msg data cc_id id remain storage payload) = 80%nat.
Proof. apply write_msg_lengths. Qed.

(** A 4-byte field and the storage byte as the header reader sees them. *)
Lemma write_msg_windows :
  let w := write_msg data cc_id id remain storage payload in
  take 4 (drop 0 w) = to_ne_bytes 4 cc_id /\ take 4 (drop 4 w) = to_ne_bytes 4 id /\
  take 4 (drop 8 w) = to_ne_bytes 4 remain /\ take 1 (drop 12 w) = [if storage then 1 else 0] /\
  take (length payload) (drop 16 w) = payload.
Proof.
  destruct write_msg_lengths as (H1 & H2 & H3 & H4 & _). intros w. change w with (splice 16 payload p4).
  do 4 (split; [reflexivity|]). apply window_splice_same. rewrite H4. lia.
Qed.

Lemma msg_roundtrip :
  is_u 32 cc_id -> is_u 32 id -> - 2 ^ 31 <= remain < 2 ^ 31 ->
  let w := write_msg data cc_id id remain storage payload in
  read_header w = mk_header cc_id id remain storage /\
  read_payload (Z.of_nat (length payload)) w = payload /\ length w = 80%nat.
Proof.
  intros Hc Hi Hr w. destruct write_msg_windows as (E1 & E2 & E3 & E4 & E5). fold w in E1, E2, E3, E4, E5.
  split; [|split; [|apply write_msg_lengths]].
  - unfold read_header, read_u32. change (Z.to_nat MSG_CC_ID) with 0%nat. change (Z.to_nat MSG_ID) with 4%nat.
    change (Z.to_nat MSG_REMAIN) with 8%nat. change (Z.to_nat MSG_STORAGE) with 12%nat.
    rewrite E1, E2, E3, !from_to_ne_bytes by lia. change (4 * 8) with 32.
    rewrite i32_wrap, i32_id, !wrap_id by done. f_equal.
    assert (w !! 12%nat = Some (if storage then 1 else 0)) as -> by reflexivity. by destruct storage.
  - unfold read_payload. by rewrite Nat2Z.id.
Qed.

End msg.

(** What [write_msg] stores in a slot, [read_header] and [read_payload] read back, whatever
    the slot held before; the slot keeps its size. *)
Theorem slot_message_roundtrip data cc_id id remain storage payload :
  length data = Z.to_nat MSG_SIZE -> (length payload <= Z.to_nat DATA_LENGTH)%nat ->
  is_u 32 cc_id -> is_u 32 id -> - 2 ^ 31 <= remain < 2 ^ 31 ->
  let w := write_msg data cc_id id remain storage payload in
  read_header w = mk_header cc_id id remain storage /\
  read_payload (Z.of_nat (length payload)) w = payload /\ length w = Z.to_nat MSG_SIZE.
Proof. intros Hd Hp. by apply msg_roundtrip. Qed.

Lemma slot_message_roundtrip_witness :
  read_header (write_msg zero_msg 3 9 (-60) false [1; 2; 3; 4]) = mk_header 3 9 (-60) false.
Proof.
  apply (slot_message_roundtrip zero_msg 3 9 (-60) false [1; 2; 3; 4]); try reflexivity;
    unfold is_u; simpl; try lia. vm_compute. lia.
Defined.

(** ** Marks *)

Lemma CH_IC_MASK_bits j : 0 <= j -> Z.testbit CH_IC_MASK j = (j <? 32) || ((56 <=? j) && (j <? 64)).
Proof.
  intros Hj. change CH_IC_MASK with (Z.lor (Z.ones 32) (Z.shiftl (Z.ones 8) 56)).
  rewrite Z.lor_spec, Z.testbit_ones_nonneg by lia. f_equal.
  destruct (Z.leb_spec 56 j); simpl.
  - rewrite Z.shiftl_spec, Z.testbit_ones_nonneg by lia. destruct (Z.ltb_spec (j - 56) 8), (Z.ltb_spec j 64); lia || done.
  - by rewrite Z.shiftl_spec_low by lia.
Qed.

Lemma RC_MASK_bits j : 0 <= j -> Z.testbit RC_MASK j = (j <? 32).
Proof. intros Hj. change RC_MASK with (Z.ones 32). by rewrite Z.testbit_ones_nonneg by lia. Qed.
#[export] Hint Rewrite CH_IC_MASK_bits RC_MASK_bits using lia : zbits.

(** The read generation lives above the marks and below the epoch. *)
Lemma inc_rc_bits rc j : 0 <= j -> is_u 64 rc -> j < 32 \/ 56 <= j -> Z.testbit (inc_rc rc) j = Z.testbit rc j.
Proof.
  intros Hj Hu Hr. pose proof (proj1 (is_u_bits 64 rc ltac:(lia)) Hu) as [_ Hh].
  unfold inc_rc. autorewrite with zbits.
  destruct (Z.ltb_spec j 32), (Z.leb_spec 56 j), (Z.ltb_spec j 64); simpl; try lia;
    rewrite ?andb_true_r, ?andb_false_r, ?orb_false_r; try done. by rewrite Hh by lia.
Qed.

(** Dropping the mark [bit] from a slot committed at [pos], as its receiver would have. *)
Definition drop_mark (pos bit : Z) (s : ChannelElemT) : ChannelElemT :=
  let nxt := Z.land (inc_rc (crc_ s)) (unot 64 bit) in
  mk_ChannelElemT (cdata_ s) nxt (if Z.land nxt RC_MASK =? 0 then pos + RING_SIZE else f_ct_ s).

Definition has_mark_at (pos bit : Z) (s : ChannelElemT) : bool :=
  negb (Z.land (crc_ s) bit =? 0) && (f_ct_ s =? unot 64 pos).

Section marks.
Context {S : Type} (slot : field S ChannelElemT) `{!LawfulField slot}.

Lemma release_mark_runs fuel pos bit s :
  (0 < fuel)%nat ->
  runs fuel (release_mark fuel slot pos bit) s (fun _ s' =>
    s' = s /\ has_mark_at pos bit (fget slot s) = false \/
    s' = fset slot (drop_mark pos bit (fget slot s)) s /\ has_mark_at pos bit (fget slot s) = true).
Proof.
  intros H0. unfold release_mark, has_mark_at. run_step. cbn [fget sub_field crc_f].
  assert (forall f, (0 < f)%nat -> runs f (release_mark_loop f slot pos bit (crc_ (fget slot s))) s (fun _ s' =>
    s' = s /\ negb (Z.land (crc_ (fget slot s)) bit =? 0) && (f_ct_ (fget slot s) =? unot 64 pos) = false \/
    s' = fset slot (drop_mark pos bit (fget slot s)) s /\
      negb (Z.land (crc_ (fget slot s)) bit =? 0) && (f_ct_ (fget slot s) =? unot 64 pos) = true)) as H; [|by apply H].
  clear H0. induction f as [|f IH]; intros H0; [lia|]. cbn [release_mark_loop].
  destruct (Z.eqb_spec (Z.land (crc_ (fget slot s)) bit) 0) as [E|E]; cbn [negb andb].
  { run_step. by left. }
  run_step. cbn [fget sub_field f_ct_f].
  destruct (Z.eqb_spec (f_ct_ (fget slot s)) (unot 64 pos)) as [Ef|Ef]; cbn [negb].
  2:{ run_step. by left. }
  apply runs_cas_weak; [done| |].
  - unfold drop_mark. set (nxt := Z.land (inc_rc _) _). destruct (Z.land nxt RC_MASK =? 0).
    + run_step. simpl. rewrite get_set. simpl. rewrite Ef, Z.eqb_refl. simpl. run_step. right. split; [|done].
      by rewrite set_set.
    + run_step. right. split; [|done]. done.
  - destruct f as [|f].
    + intros tape Ht. simpl in Ht. lia.
    + replace (Datatypes.S (Datatypes.S f) - 1)%nat with (Datatypes.S f) by lia. apply IH. lia.
Qed.

End marks.

(** Dropping a mark touches a slot only while it is still committed at the
    position it was seen on: then exactly that mark goes (the other receivers' marks and the
    epoch stay), and the slot is handed to the next lap when no mark is left.  On any other
    lap nothing changes. *)
Theorem release_mark_spec fuel pos q s :
  (0 < fuel)%nat -> 0 <= q < 32 -> is_u 64 (crc_ s) ->
  runs fuel (release_mark fuel (mk_field id (fun v _ => v)) pos (2 ^ q)) s (fun _ s' =>
    if Z.testbit (crc_ s) q && (f_ct_ s =? unot 64 pos) then
      cdata_ s' = cdata_ s /\
      (forall j, 0 <= j < 32 \/ 56 <= j < 64 ->
         Z.testbit (crc_ s') j = Z.testbit (crc_ s) j && negb (j =? q)) /\
      f_ct_ s' = if Z.land (crc_ s') RC_MASK =? 0 then pos + RING_SIZE else f_ct_ s
    else s' = s).
Proof.
  intros H0 Hq Hu.
  assert (negb (Z.land (crc_ s) (2 ^ q) =? 0) = Z.testbit (crc_ s) q) as Em.
  { rewrite land_pow2 by lia. destruct (Z.testbit (crc_ s) q); [|done].
    destruct (Z.eqb_spec (2 ^ q) 0); [|done]. pose proof (Z.pow_pos_nonneg 2 q). lia. }
  eapply runs_conseq; [apply release_mark_runs; [split; by intros|done]|].
  intros [] s' Hs. unfold has_mark_at in Hs. simpl in Hs. rewrite Em in Hs.
  destruct Hs as [[-> ->]|[-> ->]]; [done|]. split; [done|]. split; [|done].
  intros j Hj. unfold drop_mark. simpl. rewrite Z.land_spec, inc_rc_bits, unot_spec by (try lia; done).
  rewrite Z.pow2_bits_eqb by lia. destruct (Z.ltb_spec j 64); [|lia]. simpl. by rewrite (Z.eqb_sym q).
Qed.

(** A slot committed at position 5 with the marks of receivers 0 and 1; receiver 0's is dropped. *)
Lemma release_mark_spec_witness :
  exists u s', eval (release_mark 3 (mk_field id (fun v _ => v)) 5 1) (mk_ChannelElemT zero_msg 3 (unot 64 5))
    = Some (u, s') /\ Z.land (crc_ s') RC_MASK = 2.
Proof.
  destruct (runs_eval _ _ _ (runs_mono 3 1 _ _ _ ltac:(lia) (release_mark_spec 3 5 0
    (mk_ChannelElemT zero_msg 3 (unot 64 5)) ltac:(lia) ltac:(lia) ltac:(unfold is_u; simpl; lia))))
    as (u & s' & E & H).
  exists u, s'. split; [exact E|]. vm_compute in E. injection E as _ <-. reflexivity.
Defined.

(** ** Taking over a bit *)

(** What [release_stale] does to one slot: a mark on a slot committed before [since] is a leftover. *)
Definition stale_pos (since : Z) (s : ChannelElemT) : option Z :=
  let pos := wrap 32 (unot 64 (f_ct_ s)) in
  if committed (f_ct_ s) && negb (at_or_after pos since) then Some pos else None.

Definition without_stale (since bit : Z) (s : ChannelElemT) : ChannelElemT :=
  match stale_pos since s with
  | Some pos => if has_mark_at pos bit s then drop_mark pos bit s else s
  | None => s
  end.

Section take_over.
Context {S : Type} (r : field S ring) `{!LawfulField r}.

#[local] Instance channel_slots_lawful : LawfulField channel_slots_f.
Proof. split; by intros. Qed.

Lemma channel_slot_set idx v s :
  fset (channel_slot r idx) v s =
  fset (sub_field r channel_slots_f) (<[index_of idx := v]> (channel_slots (fget r s))) s.
Proof. done. Qed.

Lemma index_of_id i : 0 <= i < RING_SIZE -> index_of i = i.
Proof. intros H. apply wrap_id. unfold is_u, RING_SIZE, ring_size in *. lia. Qed.

Lemma channel_slot_get idx s : fget (channel_slot r idx) s = channel_slots (fget r s) !!! index_of idx.
Proof. done. Qed.

Lemma release_stale_loop_runs fuel idxs since bit s :
  (0 < fuel)%nat -> NoDup idxs -> Forall (fun i => 0 <= i < RING_SIZE) idxs ->
  runs fuel (release_stale_loop r fuel idxs since bit) s (fun _ s' =>
    only_changes (sub_field r channel_slots_f) s s' /\
    forall i, channel_slots (fget r s') !!! i =
      if bool_decide (i ∈ idxs) then without_stale since bit (channel_slots (fget r s) !!! i)
      else channel_slots (fget r s) !!! i).
Proof.
  intros Hf Hnd Hr. revert s. induction idxs as [|idx idxs IH]; intros s.
  { apply runs_ret. split; [by left|]. intros i. rewrite bool_decide_false; [done|apply not_elem_of_nil]. }
  apply NoDup_cons in Hnd as [Hni Hnd]. apply Forall_cons in Hr as [Hidx Hr].
  assert (forall s1, only_changes (sub_field r channel_slots_f) s s1 ->
    (forall i, channel_slots (fget r s1) !!! i =
       if decide (i = idx) then without_stale since bit (channel_slots (fget r s) !!! idx)
       else channel_slots (fget r s) !!! i) ->
    runs fuel (release_stale_loop r fuel idxs since bit) s1 (fun _ s' =>
      only_changes (sub_field r channel_slots_f) s s' /\
      forall i, channel_slots (fget r s') !!! i =
        if bool_decide (i ∈ idx :: idxs) then without_stale since bit (channel_slots (fget r s) !!! i)
        else channel_slots (fget r s) !!! i)) as Hrest.
  { intros s1 H1 H2. eapply runs_conseq; [by apply IH|]. intros _ s' [H3 H4].
    split; [by eapply only_changes_trans; [apply _|..]|]. intros i. rewrite H4, H2.
    destruct (decide (i = idx)) as [->|Hne].
    - rewrite bool_decide_false, bool_decide_true by (try done; left). done.
    - by rewrite (bool_decide_ext (i ∈ idxs) (i ∈ idx :: idxs)) by (rewrite elem_of_cons; tauto). }
  assert (without_stale since bit (channel_slots (fget r s) !!! idx) = channel_slots (fget r s) !!! idx ->
    runs fuel (release_stale_loop r fuel idxs since bit) s (fun _ s' =>
      only_changes (sub_field r channel_slots_f) s s' /\
      forall i, channel_slots (fget r s') !!! i =
        if bool_decide (i ∈ idx :: idxs) then without_stale since bit (channel_slots (fget r s) !!! i)
        else channel_slots (fget r s) !!! i)) as Hskip.
  { intros E. apply Hrest; [by left|]. intros i. destruct (decide (i = idx)) as [->|]; by rewrite ?E. }
  cbn [release_stale_loop]. run_step. cbn [fget sub_field f_ct_f]. rewrite channel_slot_get, index_of_id by done.
  set (sl := channel_slots (fget r s) !!! idx) in *. unfold without_stale, stale_pos in Hskip.
  destruct (committed (f_ct_ sl)) eqn:Ec; cbn [negb]; [|by apply Hskip].
  unfold at_or_after in Hskip. destruct (0 <=? i32 _) eqn:Ea; [by apply Hskip|].
  apply runs_bind. eapply runs_conseq; [apply release_mark_runs; [apply _|done]|].
  intros u s1 Hs1. apply Hrest.
  - destruct Hs1 as [[-> _]|[-> _]]; [by left|]. rewrite channel_slot_set. apply only_changes_set.
  - unfold without_stale, stale_pos. fold sl. rewrite Ec. unfold at_or_after. rewrite Ea. cbn [negb andb].
    rewrite channel_slot_get, index_of_id in Hs1 by done. fold sl in Hs1.
    destruct Hs1 as [[-> ->]|[-> ->]]; intros i.
    + by destruct (decide (i = idx)) as [->|].
    + rewrite channel_slot_set, index_of_id by done. simpl. rewrite get_set. simpl.
      destruct (decide (i = idx)) as [->|]; [by rewrite lookup_total_insert_eq|by rewrite lookup_total_insert_ne].
Qed.

Lemma release_stale_runs fuel since bit s :
  (0 < fuel)%nat ->
  runs fuel (release_stale r fuel since bit) s (fun _ s' =>
    only_changes (sub_field r channel_slots_f) s s' /\
    forall i, 0 <= i < RING_SIZE ->
      channel_slots (fget r s') !!! i = without_stale since bit (channel_slots (fget r s) !!! i)).
Proof.
  intros Hf. eapply runs_conseq; [apply release_stale_loop_runs|].
  - done.
  - apply NoDup_seqZ.
  - apply Forall_forall. intros i Hi%elem_of_seqZ. lia.
  - intros _ s' [H1 H2]. split; [done|]. intros i Hi. rewrite H2, bool_decide_true; [done|].
    apply elem_of_seqZ. lia.
Qed.

(** The rc word of the element at a position, and its epoch mask. *)
Definition rc_at (multi : bool) (s : S) (pos : Z) : Z :=
  if multi then crc_ (channel_slots (fget r s) !!! index_of pos) else rc_ (slots (fget r s) !!! index_of pos).
Definition ep_mask_of (multi : bool) : Z := if multi then CH_EP_MASK else EP_MASK.

(** The element at a position carries the mark [bit] in the current epoch. *)
Definition addressed (multi : bool) (s : S) (bit pos : Z) : bool :=
  negb (Z.land (rc_at multi s pos) bit =? 0) &&
  (Z.land (rc_at multi s pos) (unot 64 (ep_mask_of multi)) =? epoch (fget r s)).

Lemma wrap_sub_1 c : wrapping_sub 32 (wrap 32 c) 1 = wrap 32 (c - 1).
Proof. unfold wrapping_sub, wrap. by rewrite Zminus_mod_idemp_l. Qed.

Lemma adopt_loop_runs n k multi since bit s wc (d : nat) :
  runs k (adopt_loop r n multi (epoch (fget r s)) since bit (wrap 32 (wc - Z.of_nat d))) s (fun c s' => s' = s /\
    exists d' : nat, (d <= d' <= d + n)%nat /\ c = wrap 32 (wc - Z.of_nat d') /\
      (forall e : nat, (d <= e < d')%nat -> wrap 32 (wc - Z.of_nat e) <> since /\
         addressed multi s bit (wrap 32 (wc - Z.of_nat e - 1)) = true) /\
      (d' = d + n \/ c = since \/ addressed multi s bit (wrapping_sub 32 c 1) = false)%nat).
Proof.
  revert d. induction n as [|n IH]; intros d; cbn [adopt_loop].
  { run_step. split; [done|]. exists d. split; [lia|]. split; [done|]. split; [intros; lia|]. left. lia. }
  destruct (Z.eqb_spec (wrap 32 (wc - Z.of_nat d)) since) as [E|E].
  { run_step. split; [done|]. exists d. split; [lia|]. split; [done|]. split; [intros; lia|]. right. by left. }
  set (pos := wrapping_sub 32 (wrap 32 (wc - Z.of_nat d)) 1).
  apply runs_bind. apply (runs_conseq _ _ _ (fun rm s' => rm = (rc_at multi s pos, ep_mask_of multi) /\ s' = s)).
  { destruct multi; repeat run_step; done. }
  intros rm s' [-> ->].
  destruct (addressed multi s bit pos) eqn:Ea.
  - assert ((Z.land (rc_at multi s pos) bit =? 0) || negb (Z.land (rc_at multi s pos) (unot 64 (ep_mask_of multi)) =? epoch (fget r s))
      = false) as ->.
    { unfold addressed in Ea. apply andb_prop in Ea as [Ea1 Ea2]. rewrite Ea2. by destruct (_ =? 0). }
    unfold pos. rewrite wrap_sub_1. replace (wc - Z.of_nat d - 1) with (wc - Z.of_nat (Datatypes.S d)) by lia.
    eapply runs_conseq; [apply IH|]. intros c s' (-> & d' & Hd & -> & Hall & Hstop). split; [done|].
    exists d'. split; [lia|]. split; [done|]. split.
    + intros e He. destruct (decide (e = d)) as [->|]; [|apply Hall; lia].
      split; [done|]. unfold pos in Ea. by rewrite wrap_sub_1 in Ea.
    + destruct Hstop as [->|]; [left; lia|by right].
  - assert ((Z.land (rc_at multi s pos) bit =? 0) || negb (Z.land (rc_at multi s pos) (unot 64 (ep_mask_of multi)) =? epoch (fget r s))
      = true) as ->.
    { unfold addressed in Ea. by destruct (_ =? 0), (_ =? _). }
    run_step. split; [done|]. exists d. split; [lia|]. split; [done|]. split; [intros; lia|]. right. by right.
Qed.

End take_over.

Definition whole : field ring ring := mk_field id (fun v _ => v).
#[export] Instance whole_lawful : LawfulField whole.
Proof. split; by intros. Qed.

(** A receiver that claims a bit drops the marks a previous owner left behind, and
    only those: a slot loses the mark exactly when it is committed at a position before the
    receiver's start; an uncommitted slot, a slot from its start on and every slot without
    the mark are left alone. *)
Theorem release_stale_spec fuel since bit (rg : ring) :
  (0 < fuel)%nat ->
  runs fuel (release_stale whole fuel since bit) rg (fun _ rg' =>
    (forall i, 0 <= i < RING_SIZE ->
       channel_slots rg' !!! i = without_stale since bit (channel_slots rg !!! i)) /\
    connections rg' = connections rg /\ write_cursor rg' = write_cursor rg /\ epoch rg' = epoch rg /\
    slots rg' = slots rg).
Proof.
  intros Hf. eapply runs_conseq; [by apply (release_stale_runs whole)|].
  intros _ rg' [Ho H]. split; [done|]. by destruct Ho as [->|[v ->]].
Qed.

(** Slot 1 was committed at position 1 for a receiver of bit 0 that is gone; the new one starts at 3. *)
Definition stale_ring : ring :=
  mk_ring 1 0 1 3 0 0 ∅ {[1 := mk_ChannelElemT zero_msg 1 (unot 64 1)]} (mk_SlotOwner 0 0 0).

Lemma release_stale_spec_witness :
  exists u rg', eval (release_stale whole 2 3 1) stale_ring = Some (u, rg') /\
    f_ct_ (channel_slots rg' !!! 1) = 257.
Proof.
  destruct (runs_eval _ _ _ (runs_mono 2 1 _ _ _ ltac:(lia) (release_stale_spec 2 3 1 stale_ring ltac:(lia))))
    as (u & rg' & E & _).
  exists u, rg'. split; [exact E|]. vm_compute in E. injection E as _ <-. reflexivity.
Defined.

(** A new receiver starts at the earliest element from which on, up to the write cursor,
    everything carries its mark in the current epoch: nothing addressed to it since it
    claimed its bit is skipped, and it never starts before the cursor it had read (nor
    more than a lap back). *)
Theorem adopt_cursor_spec k multi since bit (rg : ring) :
  is_u 32 (write_cursor rg) ->
  runs k (adopt_cursor whole multi since bit) rg (fun c rg' => rg' = rg /\
    exists d : nat, (d <= 256)%nat /\ c = wrap 32 (write_cursor rg - Z.of_nat d) /\
      (forall e : nat, (e < d)%nat -> wrap 32 (write_cursor rg - Z.of_nat e) <> since /\
         addressed whole multi rg bit (wrap 32 (write_cursor rg - Z.of_nat e - 1)) = true) /\
      (d = 256%nat \/ c = since \/ addressed whole multi rg bit (wrapping_sub 32 c 1) = false)).
Proof.
  intros Hu. unfold adopt_cursor. run_step. run_step. cbn [fget sub_field whole epoch_f write_cursor_f id].
  pose proof (adopt_loop_runs whole (Z.to_nat RING_SIZE) k multi since bit rg (write_cursor rg) 0) as H.
  rewrite Z.sub_0_r, wrap_id in H by done.
  eapply runs_conseq; [exact H|]. intros c rg' (-> & d & Hd & Hc & Hall & Hstop). split; [done|].
  exists d. split; [apply Hd|]. split; [done|]. split; [|done]. intros e He. apply Hall. lia.
Qed.

(** Two elements published for bit 0 since the receiver read cursor 4. *)
Definition adopt_ring : ring :=
  mk_ring 1 0 1 7 0 0 {[5 := mk_ElemT zero_msg 1; 6 := mk_ElemT zero_msg 1]} ∅ (mk_SlotOwner 0 0 0).

Lemma adopt_cursor_spec_witness :
  exists c rg', eval (adopt_cursor whole false 4 1) adopt_ring = Some (c, rg') /\ c = 5.
Proof.
  destruct (runs_eval _ _ _ (adopt_cursor_spec 1 false 4 1 adopt_ring ltac:(unfold is_u; simpl; lia)))
    as (c & rg' & E & _).
  exists c, rg'. split; [exact E|]. vm_compute in E. congruence.
Defined.
