(* ===== verification/Channel.v ===== *)
(** * Endpoints of a route or channel

    [channel.rs], second half: [ChanInner], the implementation shared by [Route]
    (one sender, any number of receivers) and [Channel] (many of both), and the two
    public types.  The shared-memory objects live in a [world] keyed by their
    names; an endpoint's own state ([ChanInner]) is passed explicitly.

    What the endpoints get from outside is part of the world: the clock, how each
    blocking wait ends, which objects cannot be opened.  Broadcasts on a waiter are
    logged. *)
From S2P Require Import Prelude Atomics Locks Circ Abi ShmName Buffer Liveness ChunkStorage Ring.

(** How one wait on a condition variable ends. *)
Inductive wait_event := Signalled | TimedOut | WaitFailed (e : io_error).

Record world := mk_world {
  w_rings : gmap string ring;
  w_counters : gmap string Z;
  w_liveness : gmap string ConnLiveness;
  w_chunks : gmap string chunk_seg;
  w_shm_err : gmap string io_error;
  w_clock : clock;
  w_waits : list wait_event;
  w_log : list string }.

Definition w_rings_f : field world (gmap string ring) := mk_field w_rings (fun v w =>
  mk_world v (w_counters w) (w_liveness w) (w_chunks w) (w_shm_err w) (w_clock w) (w_waits w) (w_log w)).
Definition w_counters_f : field world (gmap string Z) := mk_field w_counters (fun v w =>
  mk_world (w_rings w) v (w_liveness w) (w_chunks w) (w_shm_err w) (w_clock w) (w_waits w) (w_log w)).
Definition w_liveness_f : field world (gmap string ConnLiveness) := mk_field w_liveness (fun v w =>
  mk_world (w_rings w) (w_counters w) v (w_chunks w) (w_shm_err w) (w_clock w) (w_waits w) (w_log w)).
Definition w_chunks_f : field world (gmap string chunk_seg) := mk_field w_chunks (fun v w =>
  mk_world (w_rings w) (w_counters w) (w_liveness w) v (w_shm_err w) (w_clock w) (w_waits w) (w_log w)).
Definition w_clock_f : field world clock := mk_field w_clock (fun v w =>
  mk_world (w_rings w) (w_counters w) (w_liveness w) (w_chunks w) (w_shm_err w) v (w_waits w) (w_log w)).
Definition w_waits_f : field world (list wait_event) := mk_field w_waits (fun v w =>
  mk_world (w_rings w) (w_counters w) (w_liveness w) (w_chunks w) (w_shm_err w) (w_clock w) v (w_log w)).
Definition w_log_f : field world (list string) := mk_field w_log (fun v w =>
  mk_world (w_rings w) (w_counters w) (w_liveness w) (w_chunks w) (w_shm_err w) (w_clock w) (w_waits w) v).

#[export] Instance ConnLiveness_inhabited : Inhabited ConnLiveness := populate ∅.

Definition ring_of (name : string) : field world ring := sub_field w_rings_f (at_key name).
Definition counter_of (name : string) : field world Z := sub_field w_counters_f (at_key name).
Definition liveness_of (name : string) : field world ConnLiveness := sub_field w_liveness_f (at_key name).
Definition chunks_of (name : string) : field world chunk_seg := sub_field w_chunks_f (at_key name).

(** [ShmHandle::acquire(.., CreateOrOpen)]. *)
Definition shm_acquire (name : string) : prog world (io_result unit) :=
  act (fun w => (match w_shm_err w !! name with Some e => Err e | None => Ok tt end, w)).

(** ** Waiters ([waiter.rs]) *)

Definition waiter_open (name : string) : prog world (io_result unit) :=
  _ ←? shm_acquire (name +:+ "_WAITER_COND_");
  _ ←? shm_acquire (name +:+ "_WAITER_LOCK_");
  Ret (Ok tt).

(** One wait on the condition: with nothing left to happen, a bounded wait times
    out and an unbounded one never returns. *)
Definition cond_wait (timeout_ms : option Z) : prog world (io_result bool) :=
  ev ← act (fun w => (head (w_waits w), fset w_waits_f (tail (w_waits w)) w));
  match ev with
  | Some Signalled => Ret (Ok true)
  | Some TimedOut => Ret (Ok false)
  | Some (WaitFailed e) => Ret (Err e)
  | None => match timeout_ms with Some _ => Ret (Ok false) | None => Spin end
  end.

Fixpoint wait_if (fuel : nat) (pred : prog world bool) (timeout_ms : option Z) : prog world (io_result bool) :=
  match fuel with
  | O => Spin
  | S fuel =>
      p ← pred;
      if (p : bool) then
        ok ←? cond_wait timeout_ms;
        if (ok : bool) then wait_if fuel pred timeout_ms else Ret (Ok false)
      else Ret (Ok true)
  end.

Definition broadcast (name : string) : prog world unit :=
  act (fun w => (tt, fset w_log_f (w_log w ++ [name]) w)).

(** ** Endpoint state *)

Inductive Mode := Sender | Receiver.

#[export] Instance Mode_eq_dec : EqDecision Mode.
Proof. solve_decision. Defined.

Record ChanInner := mk_ChanInner {
  ci_name : string; ci_prefix : string; ci_mode : Mode; ci_multi : bool;
  conn_id : Z; cc_id : Z; read_cursor : Z; send_seq : Z;
  recv_cache : gmap Z (Z * list Z); chunk_shm : gset Z; disconnected : bool; sender_claimed : bool }.

Definition set_read_cursor (v : Z) (c : ChanInner) : ChanInner :=
  mk_ChanInner (ci_name c) (ci_prefix c) (ci_mode c) (ci_multi c) (conn_id c) (cc_id c) v (send_seq c)
    (recv_cache c) (chunk_shm c) (disconnected c) (sender_claimed c).
Definition set_send_seq (v : Z) (c : ChanInner) : ChanInner :=
  mk_ChanInner (ci_name c) (ci_prefix c) (ci_mode c) (ci_multi c) (conn_id c) (cc_id c) (read_cursor c) v
    (recv_cache c) (chunk_shm c) (disconnected c) (sender_claimed c).
Definition set_recv_cache (v : gmap Z (Z * list Z)) (c : ChanInner) : ChanInner :=
  mk_ChanInner (ci_name c) (ci_prefix c) (ci_mode c) (ci_multi c) (conn_id c) (cc_id c) (read_cursor c) (send_seq c)
    v (chunk_shm c) (disconnected c) (sender_claimed c).
Definition set_chunk_shm (v : gset Z) (c : ChanInner) : ChanInner :=
  mk_ChanInner (ci_name c) (ci_prefix c) (ci_mode c) (ci_multi c) (conn_id c) (cc_id c) (read_cursor c) (send_seq c)
    (recv_cache c) v (disconnected c) (sender_claimed c).
Definition set_disconnected (v : bool) (c : ChanInner) : ChanInner :=
  mk_ChanInner (ci_name c) (ci_prefix c) (ci_mode c) (ci_multi c) (conn_id c) (cc_id c) (read_cursor c) (send_seq c)
    (recv_cache c) (chunk_shm c) v (sender_claimed c).
Definition set_sender_claimed (v : bool) (c : ChanInner) : ChanInner :=
  mk_ChanInner (ci_name c) (ci_prefix c) (ci_mode c) (ci_multi c) (conn_id c) (cc_id c) (read_cursor c) (send_seq c)
    (recv_cache c) (chunk_shm c) (disconnected c) v.

(** ** Fragments *)

(** What a slot says to the receiver with identity [my_cc]: whether to keep it, its
    group, and the bytes or the storage id it carries. *)
Record decoded := mk_decoded {
  d_keep : bool; d_id : Z; d_remain : Z; d_r_size : Z; d_storage_id : option Z; d_frag : option (list Z) }.

Definition decode_slot (my_cc : Z) (data : list Z) : decoded :=
  let h := read_header data in
  let is_self := h_cc_id h =? my_cc in
  let r_size := i32 (DATA_LENGTH + h_remain h) in
  let keep := negb is_self && (0 <? r_size) in
  mk_decoded keep (h_id h) (h_remain h) r_size
    (if keep && h_storage h then Some (read_storage_id data) else None)
    (if keep && negb (h_storage h) then
       Some (read_payload (if h_remain h <=? 0 then r_size else DATA_LENGTH) data)
     else None).

(** The inline half of [assemble_message]: reassemble by id. *)
Definition assemble_inline (cache : gmap Z (Z * list Z)) (id remain r_size : Z) (frag : list Z)
    : outcome (option IpcBuffer * gmap Z (Z * list Z)) :=
  let n := Z.of_nat (length frag) in
  match cache !! id with
  | Some (off, buf) =>
      if Z.of_nat (length buf) <? off + n then Panicked
      else
        let buf := splice (Z.to_nat off) frag buf in
        if remain <=? 0 then Returned (Some (IpcBuffer.from_vec buf), delete id cache)
        else Returned (None, <[id := (off + n, buf)]> cache)
  | None =>
      if remain <=? 0 then Returned (Some (IpcBuffer.from_vec frag), cache)
      else if r_size <? n then Panicked
      else
        let buf := splice 0 frag (replicate (Z.to_nat r_size) 0) in
        Returned (None, <[id := (n, buf)]> cache)
  end.

(** [msg_size] bytes of a chunk's payload; memory never written reads as zero. *)
Definition chunk_bytes (msg_size : Z) (payload : list Z) : list Z :=
  take (Z.to_nat msg_size) (payload ++ replicate (Z.to_nat msg_size) 0).

Section endpoint.
Context (o : os) (t : target) (fuel : nat).

(** The objects of an endpoint. *)
Definition ci_ring (c : ChanInner) : field world ring := ring_of (ring_shm_name t (ci_prefix c) (ci_name c)).
Definition ci_liveness (c : ChanInner) : option (field world ConnLiveness) :=
  Some (liveness_of (liveness_shm_name (ci_prefix c) (ci_name c))).
Definition wt_waiter (c : ChanInner) : string := wt_name (ci_prefix c) (ci_name c).
Definition rd_waiter (c : ChanInner) : string := rd_name (ci_prefix c) (ci_name c).
Definition cc_waiter (c : ChanInner) : string := cc_name (ci_prefix c) (ci_name c).

(** *** Opening *)

(** The identity counter skips 0. *)
Definition alloc_cc_id (prefix : string) : prog world Z :=
  old ← fetch_add 32 (counter_of (cc_id_shm_name prefix)) 1;
  let id := wrapping_add 32 old 1 in
  if id =? 0 then
    old ← fetch_add 32 (counter_of (cc_id_shm_name prefix)) 1;
    Ret (wrapping_add 32 old 1)
  else Ret id.

(** The receiver's half of [open]: reap, claim a bit, take it over, record it. *)
Definition connect_receiver (prefix name : string) (multi : bool) : prog world (io_result (Z * Z)) :=
  let r := ring_of (ring_shm_name t prefix name) in
  let lv := Some (liveness_of (liveness_shm_name prefix name)) in
  let conns := sub_field r connections_f in
  live ← load conns;
  _ ← reap_dead_receivers o lv live (fun bit => _ ← fetch_and conns (unot 32 bit); Ret tt);
  since ← load (sub_field r write_cursor_f);
  bit ← connect conns fuel 0;
  if bit =? 0 then Ret (Err (mk_io_error EkOther "too many receivers (max 32)"))
  else
    _ ← set_since lv bit since;
    _ ← (if multi : bool then release_stale r fuel since bit else Ret tt);
    cur ← adopt_cursor r multi since bit;
    _ ← set_owner o lv bit;
    _ ← broadcast (cc_name prefix name);
    _ ← broadcast (wt_name prefix name);
    Ret (Ok (bit, cur)).

Definition open (prefix name : string) (mode : Mode) (multi : bool) : prog world (io_result ChanInner) :=
  let ring_name := ring_shm_name t prefix name in
  _ ←? shm_acquire ring_name;
  _ ←? shm_acquire (cc_id_shm_name prefix);
  _ ←? (if multi then shm_acquire (msg_id_shm_name prefix name) else Ret (Ok tt));
  _ ←? shm_acquire (liveness_shm_name prefix name);
  _ ← init_header (ring_of ring_name) fuel;
  cc ← alloc_cc_id prefix;
  _ ←? waiter_open (wt_name prefix name);
  _ ←? waiter_open (rd_name prefix name);
  _ ←? waiter_open (cc_name prefix name);
  bc ←? (match mode with
         | Sender => _ ← fetch_add 32 (sub_field (ring_of ring_name) sender_count_f) 1; Ret (Ok (0, 0))
         | Receiver => connect_receiver prefix name multi
         end);
  claimed ← (if bool_decide (mode = Sender) && negb multi
             then claim_sole_owner o (sub_field (ring_of ring_name) sender_owner_f) else Ret false);
  let '(bit, cur) := bc : Z * Z in
  Ret (Ok (mk_ChanInner name prefix mode multi bit cc cur 0 ∅ ∅ false claimed)).

(** *** Waiting *)

Definition recv_count (c : ChanInner) : prog world Z :=
  v ← load (sub_field (ci_ring c) connections_f); Ret (count_ones 32 v).

Definition millis (ns : Z) : Z := ns `div` MILLI.

(** [dl.saturating_duration_since(Instant::now())]. *)
Definition time_left (dl : Z) : prog world Z := n ← now w_clock_f; Ret (Z.max 0 (dl - n)).

Definition deadline_of (timeout_ms : option Z) : prog world (option Z) :=
  match timeout_ms with
  | Some ms => n ← now w_clock_f; Ret (Some (n + ms * MILLI))
  | None => Ret None
  end.

Fixpoint wait_for_recv_loop (n : nat) (c : ChanInner) (count : Z) (deadline : option Z) : prog world (io_result bool) :=
  match n with
  | O => Spin
  | S n =>
      let few := k ← recv_count c; Ret (k <? count) in
      k ← recv_count c;
      if count <=? k then Ret (Ok true)
      else
        stop ←? (match deadline with
                 | Some dl =>
                     rem ← time_left dl;
                     if rem =? 0 then Ret (Ok true)
                     else _ ←? wait_if fuel few (Some (millis rem)); Ret (Ok false)
                 | None => _ ←? wait_if fuel few None; Ret (Ok false)
                 end);
        if (stop : bool) then Ret (Ok false)
        else
          k ← recv_count c;
          if count <=? k then Ret (Ok true) else wait_for_recv_loop n c count deadline
  end.

Definition wait_for_recv (c : ChanInner) (count : Z) (timeout_ms : option Z) : prog world (io_result bool) :=
  deadline ← deadline_of timeout_ms;
  wait_for_recv_loop fuel c count deadline.

Definition SPIN_COUNT : Z := 32.

Fixpoint wait_for_loop (n : nat) (pred : prog world bool) (deadline : option Z) (k : Z) : prog world (io_result bool) :=
  match n with
  | O => Spin
  | S n =>
      p ← pred;
      if negb (p : bool) then Ret (Ok true)
      else if k <? SPIN_COUNT then wait_for_loop n pred deadline (k + 1)
      else
        tm ← (match deadline with
              | Some dl => rem ← time_left dl; Ret (Some (millis rem))
              | None => Ret None
              end);
        if bool_decide (tm = Some 0) then Ret (Ok false)
        else
          ok ←? wait_if fuel pred tm;
          if negb (ok : bool) then Ret (Ok false) else wait_for_loop n pred deadline 0
  end.

Definition wait_for (pred : prog world bool) (timeout_ms : option Z) : prog world (io_result bool) :=
  if bool_decide (timeout_ms = Some 0) then p ← pred; Ret (Ok (negb p))
  else
    deadline ← deadline_of timeout_ms;
    wait_for_loop fuel pred deadline 0.

(** *** Sending on a route *)

Definition live_marks_of (c : ChanInner) (bits pos : Z) : prog world Z :=
  live_marks (ci_liveness c) (wrap 32 bits) pos.

(** A live reader of [cc] still owes a read of the slot at [wt] in the current epoch. *)
Definition slot_busy (c : ChanInner) (cc wt : Z) : prog world bool :=
  rc ← load (sub_field (ring_slot (ci_ring c) wt) rc_f);
  ep ← load (sub_field (ci_ring c) epoch_f);
  if negb (Z.land cc (Z.land rc EP_MASK) =? 0) && (Z.land rc (unot 64 EP_MASK) =? ep) then
    m ← live_marks_of c (Z.land cc (Z.land rc EP_MASK)) (wrapping_sub 32 wt RING_LAP);
    Ret (negb (m =? 0))
  else Ret false.

(** The claim loop of [push_fragment]: the claimed position, or [None] when nobody is left to send to. *)
Fixpoint push_claim (n : nat) (c : ChanInner) (timeout_ms : Z) : prog world (io_result (option Z)) :=
  match n with
  | O => Spin
  | S n =>
      let r := ci_ring c in
      cc ← load (sub_field r connections_f);
      if cc =? 0 then Ret (Ok None)
      else
        ep ← load (sub_field r epoch_f);
        wt ← load (sub_field r write_cursor_f);
        let slot := ring_slot r wt in
        cur_rc ← load (sub_field slot rc_f);
        let rem_cc := Z.land cur_rc EP_MASK in
        let prev := wrapping_sub 32 wt RING_LAP in
        busy ← (if negb (Z.land cc rem_cc =? 0) && (Z.land cur_rc (unot 64 EP_MASK) =? ep) then
                  m ← live_marks_of c (Z.land cc rem_cc) prev; Ret (negb (m =? 0))
                else Ret false);
        if (busy : bool) then
          ok ←? wait_for (slot_busy c cc wt) (Some timeout_ms);
          if (ok : bool) then push_claim n c timeout_ms
          else
            _ ← fetch_add 64 (sub_field r epoch_f) EP_INCR;
            rc2 ← load (sub_field slot rc_f);
            rem2 ← live_marks_of c (Z.land (Z.land rc2 EP_MASK) cc) prev;
            if rem2 =? 0 then push_claim n c timeout_ms
            else
              old ← fetch_and (sub_field r connections_f) (unot 32 rem2);
              if Z.land old (unot 32 rem2) =? 0 then Ret (Ok None)
              else
                _ ← fetch_and (sub_field slot rc_f) (unot 64 rem2);
                push_claim n c timeout_ms
        else
          x ← compare_exchange_weak (sub_field slot rc_f) cur_rc (Z.lor ep cc);
          match x with
          | Ok _ => Ret (Ok (Some wt))
          | Err _ => push_claim n c timeout_ms
          end
  end.

(** *** Sending on a channel *)

Fixpoint drop_marks (n : nat) (slot : field world ChannelElemT) (pos stale : Z) : prog world unit :=
  match n with
  | O => Spin
  | S n =>
      if stale =? 0 then Ret tt
      else
        let bit := Z.land stale (wrapping_neg 64 stale) in
        _ ← release_mark fuel slot pos (wrap 32 bit);
        drop_marks n slot pos (Z.land stale (stale - 1))
  end.

(** Publish the slot claimed for [pos], then drop the marks of receivers that started after it. *)
Definition commit_multi (c : ChanInner) (slot : field world ChannelElemT) (pos : Z) : prog world unit :=
  _ ← store (sub_field slot f_ct_f) (unot 64 pos);
  rc ← load (sub_field slot crc_f);
  let marks := Z.land rc RC_MASK in
  if marks =? 0 then Ret tt
  else
    live ← live_marks_of c marks pos;
    drop_marks 33 slot pos (Z.land marks (unot 64 live)).

Fixpoint push_claim_multi (n : nat) (c : ChanInner) (deadline ep : Z) : prog world (io_result (option Z)) :=
  match n with
  | O => Spin
  | S n =>
      let r := ci_ring c in
      cc ← load (sub_field r connections_f);
      if cc =? 0 then Ret (Ok None)
      else
        cur_ct ← load (sub_field r write_cursor_f);
        let slot := channel_slot r cur_ct in
        cur_rc ← load (sub_field slot crc_f);
        let rem_cc := Z.land cur_rc RC_MASK in
        (* [true]: the slot is not available yet *)
        wait ← (if negb (Z.land cc rem_cc =? 0) && (Z.land cur_rc (unot 64 CH_EP_MASK) =? ep) then Ret true
                else if rem_cc =? 0 then
                  cur_fl ← load (sub_field slot f_ct_f);
                  Ret (negb (cur_fl =? cur_ct) && negb (cur_fl =? 0))
                else Ret false);
        if (wait : bool) then
          tn ← now w_clock_f;
          if deadline <=? tn then Ret (Ok None) else push_claim_multi n c deadline ep
        else
          let desired := Z.lor (inc_mask (Z.lor ep (Z.land cur_rc CH_EP_MASK))) cc in
          x ← compare_exchange_weak (sub_field slot crc_f) cur_rc desired;
          match x with
          | Ok _ =>
              ep' ← load (sub_field r epoch_f);
              if ep' =? ep then Ret (Ok (Some cur_ct)) else push_claim_multi n c deadline ep'
          | Err _ => push_claim_multi n c deadline ep
          end
  end.

Definition push_fragment_multi (c : ChanInner) (msg_id remain : Z) (payload : list Z) (timeout_ms : Z)
    : prog world (io_result bool) :=
  let r := ci_ring c in
  t0 ← now w_clock_f;
  ep ← load (sub_field r epoch_f);
  claimed ←? push_claim_multi fuel c (t0 + timeout_ms * MILLI) ep;
  match claimed with
  | None => Ret (Ok false)
  | Some ct =>
      _ ← store (sub_field r write_cursor_f) (wrapping_add 32 ct 1);
      let slot := channel_slot r ct in
      _ ← rmw (sub_field slot cdata_f) (fun d => write_msg d (cc_id c) msg_id remain false payload);
      _ ← commit_multi c slot ct;
      _ ← broadcast (rd_waiter c);
      Ret (Ok true)
  end.

Definition push_fragment (c : ChanInner) (msg_id remain : Z) (payload : list Z) (timeout_ms : Z)
    : prog world (io_result bool) :=
  if ci_multi c then push_fragment_multi c msg_id remain payload timeout_ms
  else
    claimed ←? push_claim fuel c timeout_ms;
    match claimed with
    | None => Ret (Ok false)
    | Some wt =>
        _ ← rmw (sub_field (ring_slot (ci_ring c) wt) data_f)
              (fun d => write_msg d (cc_id c) msg_id remain false payload);
        _ ← fetch_add 32 (sub_field (ci_ring c) write_cursor_f) 1;
        _ ← broadcast (rd_waiter c);
        Ret (Ok true)
    end.

Definition sender_ready (c : ChanInner) : prog world (bool * ChanInner) :=
  if ci_multi c || sender_claimed c then Ret (true, c)
  else
    ok ← claim_sole_owner o (sub_field (ci_ring c) sender_owner_f);
    Ret (ok, set_sender_claimed ok c).

(** The full fragments of [send], then its tail; [off] is a multiple of the fragment size. *)
Fixpoint send_full (k : nat) (c : ChanInner) (msg_id : Z) (data : list Z) (off : nat) (timeout_ms : Z)
    : prog world (io_result bool) :=
  let size := Z.of_nat (length data) in
  match k with
  | O =>
      let tail := size - Z.of_nat off in
      if 0 <? tail then
        push_fragment c msg_id (i32 (i32 tail - DATA_LENGTH)) (drop off data) timeout_ms
      else Ret (Ok true)
  | S k =>
      let remain := i32 (i32 (i32 size - i32 (Z.of_nat off)) - DATA_LENGTH) in
      ok ←? push_fragment c msg_id remain (slice off (off + 64) data) timeout_ms;
      if negb (ok : bool) then Ret (Ok false)
      else send_full k c msg_id data (off + 64) timeout_ms
  end.

Definition send (c : ChanInner) (data : list Z) (timeout_ms : Z) : prog world (io_result bool * ChanInner) :=
  if bool_decide (data = []) then Ret (Ok false, c)
  else if negb (bool_decide (ci_mode c = Sender)) then Ret (Err (mk_io_error EkOther "not a sender"), c)
  else
    rc ← sender_ready c;
    let '(ready, c) := rc : bool * ChanInner in
    if negb ready then
      holder ← load (sub_field (sub_field (ci_ring c) sender_owner_f) pid_f);
      Ret (Err (mk_io_error EkAddrInUse
             ("route '" +:+ ci_name c +:+ "' has another live sender (pid " +:+ pretty holder +:+ ")")), c)
    else
      conns ← load (sub_field (ci_ring c) connections_f);
      if conns =? 0 then Ret (Ok false, c)
      else
        mc ← (if ci_multi c then
                m ← fetch_add 32 (counter_of (msg_id_shm_name (ci_prefix c) (ci_name c))) 1; Ret (m, c)
              else Ret (send_seq c, set_send_seq (wrapping_add 32 (send_seq c) 1) c));
        let '(msg_id, c) := mc : Z * ChanInner in
        res ← send_full (length data / 64) c msg_id data 0 timeout_ms;
        Ret (res, c).

Definition try_send (c : ChanInner) (data : list Z) : prog world (io_result bool * ChanInner) := send c data 0.

(** *** Receiving *)

(** Clear our mark from a route slot, keeping the epoch. *)
Fixpoint release_slot (n : nat) (c : ChanInner) (cursor : Z) : prog world unit :=
  match n with
  | O => Spin
  | S n =>
      let slot := ring_slot (ci_ring c) cursor in
      cur_rc ← load (sub_field slot rc_f);
      if Z.land cur_rc EP_MASK =? 0 then Ret tt
      else
        x ← compare_exchange_weak (sub_field slot rc_f) cur_rc (Z.land cur_rc (unot 64 (conn_id c)));
        match x with Ok _ => Ret tt | Err _ => release_slot n c cursor end
  end.

(** Clear our mark from a channel slot; the last reader hands it to the next lap. *)
Fixpoint release_slot_multi (n : nat) (c : ChanInner) (cursor free_flag : Z) : prog world unit :=
  match n with
  | O => Spin
  | S n =>
      let slot := channel_slot (ci_ring c) cursor in
      cur_rc ← load (sub_field slot crc_f);
      if Z.land cur_rc RC_MASK =? 0 then store (sub_field slot f_ct_f) free_flag
      else
        let nxt := Z.land (inc_rc cur_rc) (unot 64 (conn_id c)) in
        _ ← (if Z.land nxt RC_MASK =? 0 then store (sub_field slot f_ct_f) free_flag else Ret tt);
        x ← compare_exchange_weak (sub_field slot crc_f) cur_rc nxt;
        match x with Ok _ => Ret tt | Err _ => release_slot_multi n c cursor free_flag end
  end.

(** The chunk segment of a size, opened on first use. *)
Definition chunk_shm_base (c : ChanInner) (chunk_size : Z) : prog world (option (field world chunk_seg) * ChanInner) :=
  let name := chunk_shm_name (full_prefix (ci_prefix c)) chunk_size in
  if bool_decide (chunk_size ∈ chunk_shm c) then Ret (Some (chunks_of name), c)
  else
    r ← shm_acquire name;
    match r with
    | Err _ => Ret (None, c)
    | Ok _ => Ret (Some (chunks_of name), set_chunk_shm ({[chunk_size]} ∪ chunk_shm c) c)
    end.

Definition assemble_message (c : ChanInner) (d : decoded) : prog world (outcome (option IpcBuffer) * ChanInner) :=
  if negb (d_keep d) then Ret (Returned None, c)
  else
    match d_storage_id d with
    | Some sid =>
        let chunk_size := calc_chunk_size t (d_r_size d) in
        bc ← chunk_shm_base c chunk_size;
        match bc : option (field world chunk_seg) * ChanInner with
        | (None, c) => Ret (Returned None, c)
        | (Some seg, c) =>
            out ← (match find_storage sid with
                   | Some id => p ← load (sub_field (sub_field seg payload_f) (at_key id));
                                Ret (Some (IpcBuffer.from_vec (chunk_bytes (d_r_size d) p)))
                   | None => Ret None
                   end);
            _ ← recycle_storage seg fuel sid (conn_id c);
            Ret (Returned out, c)
        end
    | None =>
        match d_frag d with
        | None => Ret (Panicked, c)
        | Some frag =>
            match assemble_inline (recv_cache c) (d_id d) (d_remain d) (d_r_size d) frag with
            | Panicked => Ret (Panicked, c)
            | Returned (b, cache) => Ret (Returned b, set_recv_cache cache c)
            end
        end
    end.

Definition recv_result : Type := outcome (io_result IpcBuffer) * ChanInner.
Definition returned (r : io_result IpcBuffer) (c : ChanInner) : prog world recv_result := Ret (Returned r, c).

Fixpoint recv_loop (n : nat) (c : ChanInner) (deadline : option Z) : prog world recv_result :=
  match n with
  | O => Spin
  | S n =>
      let r := ci_ring c in
      wc ← load (sub_field r write_cursor_f);
      if wc =? read_cursor c then
        left ← (match deadline with Some dl => l ← time_left dl; Ret (Some l) | None => Ret None end);
        if bool_decide (left = Some 0) then returned (Ok IpcBuffer.new) c
        else
          ok ← wait_for (v ← load (sub_field r write_cursor_f); Ret (v =? read_cursor c)) (millis <$> left);
          match ok with
          | Err e => returned (Err e) c
          | Ok false => returned (Ok IpcBuffer.new) c
          | Ok true => recv_loop n c deadline
          end
      else
        data ← load (sub_field (ring_slot r (read_cursor c)) data_f);
        let d := decode_slot (cc_id c) data in
        _ ← release_slot fuel c (read_cursor c);
        let c := set_read_cursor (wrapping_add 32 (read_cursor c) 1) c in
        _ ← broadcast (wt_waiter c);
        m ← assemble_message c d;
        match m : outcome (option IpcBuffer) * ChanInner with
        | (Panicked, c) => Ret (Panicked, c)
        | (Returned (Some buf), c) => returned (Ok buf) c
        | (Returned None, c) => recv_loop n c deadline
        end
  end.

Fixpoint recv_multi_loop (n : nat) (c : ChanInner) (deadline : option Z) : prog world recv_result :=
  match n with
  | O => Spin
  | S n =>
      let r := ci_ring c in
      let cur := read_cursor c in
      let slot := channel_slot r cur in
      fl ← load (sub_field slot f_ct_f);
      if negb (fl =? unot 64 cur) then
        expired ← (match deadline with
                   | Some dl => tn ← now w_clock_f; Ret (dl <=? tn)
                   | None => Ret false
                   end);
        if (expired : bool) then returned (Ok IpcBuffer.new) c else recv_multi_loop n c deadline
      else
        data ← load (sub_field slot cdata_f);
        let d := decode_slot (cc_id c) data in
        let cur_post := wrapping_add 32 cur 1 in
        _ ← release_slot_multi fuel c cur (cur_post + (RING_SIZE - 1));
        let c := set_read_cursor cur_post c in
        _ ← broadcast (wt_waiter c);
        m ← assemble_message c d;
        match m : outcome (option IpcBuffer) * ChanInner with
        | (Panicked, c) => Ret (Panicked, c)
        | (Returned (Some buf), c) => returned (Ok buf) c
        | (Returned None, c) => recv_multi_loop n c deadline
        end
  end.

Definition not_a_receiver : io_error := mk_io_error EkOther "not a receiver".

Definition recv_multi (c : ChanInner) (timeout_ms : option Z) : prog world recv_result :=
  if negb (bool_decide (ci_mode c = Receiver)) then returned (Err not_a_receiver) c
  else deadline ← deadline_of timeout_ms; recv_multi_loop fuel c deadline.

Definition recv (c : ChanInner) (timeout_ms : option Z) : prog world recv_result :=
  if ci_multi c then recv_multi c timeout_ms
  else if negb (bool_decide (ci_mode c = Receiver)) then returned (Err not_a_receiver) c
  else deadline ← deadline_of timeout_ms; recv_loop fuel c deadline.

Definition try_recv (c : ChanInner) : prog world recv_result := recv c (Some 0).

(** *** Disconnecting *)

Definition valid (c : ChanInner) : bool := negb (disconnected c).

Definition disconnect (c : ChanInner) : prog world ChanInner :=
  if disconnected c then Ret c
  else
    c ← (match ci_mode c with
         | Sender =>
             _ ← fetch_sub 32 (sub_field (ci_ring c) sender_count_f) 1;
             if sender_claimed c then
               _ ← release_sole_owner o (sub_field (ci_ring c) sender_owner_f);
               Ret (set_sender_claimed false c)
             else Ret c
         | Receiver =>
             _ ← fetch_and (sub_field (ci_ring c) connections_f) (unot 32 (conn_id c));
             _ ← clear_owner (ci_liveness c) (conn_id c);
             _ ← broadcast (wt_waiter c);
             Ret (set_recv_cache ∅ c)
         end);
    Ret (set_disconnected true c).

(** The old endpoint is dropped (a disconnect, idempotent) when the new one replaces it. *)
Definition reconnect (c : ChanInner) (mode : Mode) : prog world (io_result unit * ChanInner) :=
  c ← disconnect c;
  r ← open (ci_prefix c) (ci_name c) mode (ci_multi c);
  match r with
  | Err e => Ret (Err e, c)
  | Ok new_inner => _ ← disconnect c; Ret (Ok tt, new_inner)
  end.

Definition clone_inner (c : ChanInner) : prog world (io_result ChanInner) :=
  open (ci_prefix c) (ci_name c) (ci_mode c) (ci_multi c).

(** [Drop]. *)
Definition drop_inner (c : ChanInner) : prog world unit := _ ← disconnect c; Ret tt.

(** *** The public types: [Route] ([multi = false]) and [Channel] ([multi = true]) *)

Definition route_connect (name : string) (mode : Mode) : prog world (io_result ChanInner) := open "" name mode false.
Definition route_connect_with_prefix (prefix name : string) (mode : Mode) : prog world (io_result ChanInner) :=
  open prefix name mode false.
Definition channel_connect (name : string) (mode : Mode) : prog world (io_result ChanInner) := open "" name mode true.
Definition channel_connect_with_prefix (prefix name : string) (mode : Mode) : prog world (io_result ChanInner) :=
  open prefix name mode true.

Definition route_sender_ready (c : ChanInner) : prog world (bool * ChanInner) :=
  if bool_decide (ci_mode c = Sender) then sender_ready c else Ret (false, c).

Definition send_buf (c : ChanInner) (b : IpcBuffer) (timeout_ms : Z) : prog world (io_result bool * ChanInner) :=
  send c (IpcBuffer.data b) timeout_ms.

Definition send_str (c : ChanInner) (s : string) (timeout_ms : Z) : prog world (io_result bool * ChanInner) :=
  send c (IpcBuffer.data (IpcBuffer.from_str s)) timeout_ms.

Definition release_endpoint (c : ChanInner) : prog world ChanInner := disconnect c.

(** A temporary sender, dropped on the way out. *)
Definition wait_for_recv_on (multi : bool) (name : string) (count : Z) (timeout_ms : option Z)
    : prog world (io_result bool) :=
  rt ←? open "" name Sender multi;
  res ← wait_for_recv rt count timeout_ms;
  _ ← drop_inner rt;
  Ret res.

End endpoint.
