(* ===== verification/Fragments.v ===== *)
(** * Fragmentation and reassembly

    What a message becomes on the ring and how the receiver puts it together
    again: the fragments [send] pushes ([fragments]) and the reassembly of
    [assemble_message] ([assemble_inline]) are inverse to one another. *)
From S2P Require Import Prelude Atomics ShmName Abi Buffer Ring Channel.

(** The (remain, payload) pairs [send] pushes: [k] full fragments from offset [off], then the tail. *)
Fixpoint frags_from (k : nat) (data : list Z) (off : nat) : list (Z * list Z) :=
  let size := Z.of_nat (length data) in
  match k with
  | O => if 0 <? size - Z.of_nat off then [(size - Z.of_nat off - 64, drop off data)] else []
  | S k => (size - Z.of_nat off - 64, slice off (off + 64) data) :: frags_from k data (off + 64)
  end.

Definition fragments (data : list Z) : list (Z * list Z) := frags_from (length data / 64) data 0.

(** The receiver's cache when the first [off] bytes of the message [id] have arrived. *)
Definition cached (cache : gmap Z (Z * list Z)) (id : Z) (data : list Z) (off : nat) : Prop :=
  if decide (off = 0)%nat then cache !! id = None
  else cache !! id = Some (Z.of_nat off, take off data ++ replicate (length data - off) 0).

(** Feed fragments of one message to the reassembly until a buffer comes out. *)
Fixpoint assemble_all (cache : gmap Z (Z * list Z)) (id : Z) (frs : list (Z * list Z))
    : outcome (option IpcBuffer * gmap Z (Z * list Z)) :=
  match frs with
  | [] => Returned (None, cache)
  | (remain, frag) :: frs =>
      match assemble_inline cache id remain (DATA_LENGTH + remain) frag with
      | Panicked => Panicked
      | Returned (Some b, cache) => Returned (Some b, cache)
      | Returned (None, cache) => assemble_all cache id frs
      end
  end.

Lemma take_slice_app (data : list Z) off n :
  (off + n <= length data)%nat -> take off data ++ slice off (off + n) data = take (off + n) data.
Proof. intros H. apply slice_app_take. lia. Qed.

Lemma splice_at_fill (data frag : list Z) off :
  (off + length frag <= length data)%nat -> take off data ++ frag = take (off + length frag) data ->
  splice off frag (take off data ++ replicate (length data - off) 0) =
  take (off + length frag) data ++ replicate (length data - (off + length frag)) 0.
Proof.
  intros Hl Hf. unfold splice. rewrite take_app_le by (rewrite length_take; lia).
  rewrite take_take, Nat.min_id, app_assoc, Hf. f_equal.
  rewrite drop_app_ge by (rewrite length_take; lia). rewrite length_take, drop_replicate. f_equal. lia.
Qed.

(** One fragment at offset [off] that is not the last: the cache moves on. *)
Lemma assemble_inline_more cache id data off frag :
  cached cache id data off -> (0 < length frag)%nat -> (off + length frag < length data)%nat ->
  (off = 0%nat -> length frag = 64%nat) ->
  take off data ++ frag = take (off + length frag) data ->
  let remain := Z.of_nat (length data) - Z.of_nat off - Z.of_nat (length frag) in
  exists cache', assemble_inline cache id remain (DATA_LENGTH + remain) frag = Returned (None, cache') /\
    cached cache' id data (off + length frag) /\ forall j, j <> id -> cache' !! j = cache !! j.
Proof.
  intros Hc H0 Hl Hfull Hf remain. unfold assemble_inline, cached in *.
  assert ((remain <=? 0) = false) as Hr by (apply Z.leb_gt; lia). rewrite Hr.
  destruct (decide (off = 0)%nat) as [->|Hoff]; rewrite Hc.
  - rewrite Hfull in * by done. change (take 0 data ++ frag) with frag in Hf.
    destruct (Z.ltb_spec (DATA_LENGTH + remain) (Z.of_nat 64)) as [Hlt|_].
    { exfalso. unfold DATA_LENGTH, data_length in *. lia. }
    eexists. split; [done|]. split; [|intros j Hj; by rewrite lookup_insert_ne].
    destruct (decide _); [lia|]. rewrite lookup_insert_eq. do 2 f_equal.
    replace (Z.to_nat (DATA_LENGTH + remain)) with (length data - 0)%nat
      by (unfold DATA_LENGTH, data_length in *; lia).
    change (replicate (length data - 0) 0) with (take 0 data ++ replicate (length data - 0) 0).
    rewrite splice_at_fill by (rewrite ?Hfull; try done; lia). rewrite Hfull by done. done.
  - rewrite length_app, length_take, length_replicate.
    destruct (Z.ltb_spec (Z.of_nat (off `min` length data + (length data - off))) (Z.of_nat off + Z.of_nat (length frag))); [lia|].
    eexists. split; [done|]. split; [|intros j Hj; by rewrite lookup_insert_ne].
    destruct (decide _); [lia|]. rewrite lookup_insert_eq. do 2 f_equal; [lia|].
    rewrite Nat2Z.id. apply splice_at_fill; [lia|done].
Qed.

(** The last fragment completes the message. *)
Lemma assemble_inline_last cache id data off frag remain r_size :
  cached cache id data off -> (off + length frag = length data)%nat -> remain <= 0 ->
  take off data ++ frag = data ->
  exists cache', assemble_inline cache id remain r_size frag = Returned (Some (mk_IpcBuffer data), cache') /\
    cache' !! id = None /\ forall j, j <> id -> cache' !! j = cache !! j.
Proof.
  intros Hc Hl Hr Hf. unfold assemble_inline, cached in *. apply Z.leb_le in Hr. rewrite Hr.
  destruct (decide (off = 0)%nat) as [->|Hoff]; rewrite Hc.
  - exists cache. change (take 0 data ++ frag) with frag in Hf. by rewrite Hf.
  - rewrite length_app, length_take, length_replicate.
    destruct (Z.ltb_spec (Z.of_nat (off `min` length data + (length data - off))) (Z.of_nat off + Z.of_nat (length frag))); [lia|].
    exists (delete id cache). split; [|split; [apply lookup_delete_eq|intros j Hj; by rewrite lookup_delete_ne]].
    rewrite Nat2Z.id, splice_at_fill by (rewrite ?Hl, ?firstn_all; try done; lia).
    rewrite Hl, firstn_all, Nat.sub_diag. simpl. by rewrite app_nil_r.
Qed.

Lemma frags_from_head k data off :
  (off + 64 * k <= length data < off + 64 * k + 64)%nat -> (off < length data)%nat ->
  exists frag rest, frags_from k data off = (Z.of_nat (length data) - Z.of_nat off - 64, frag) :: rest /\
    take off data ++ frag = take (off + length frag) data /\ (0 < length frag <= 64)%nat /\
    ((off + length frag = length data /\ rest = []) \/
     (length frag = 64 /\ off + 64 < length data /\ exists k', k = S k' /\ rest = frags_from k' data (off + 64)))%nat.
Proof.
  intros Hk Ho. destruct k as [|k]; cbn [frags_from].
  - destruct (Z.ltb_spec 0 (Z.of_nat (length data) - Z.of_nat off)); [|lia].
    exists (drop off data), []. rewrite take_drop, length_drop. repeat split; try lia.
    + by rewrite take_ge by lia.
    + left. split; [lia|done].
  - exists (slice off (off + 64) data), (frags_from k data (off + 64)).
    rewrite length_slice by lia. replace (off + 64 - off)%nat with 64%nat by lia.
    rewrite take_slice_app by lia. repeat split; try lia.
    destruct (decide (off + 64 = length data)%nat) as [E|E].
    + left. split; [lia|]. destruct k as [|k]; [|lia]. cbn [frags_from].
      destruct (Z.ltb_spec 0 (Z.of_nat (length data) - Z.of_nat (off + 64))); [lia|done].
    + right. split; [done|]. split; [lia|]. by exists k.
Qed.

Lemma assemble_frags k data off cache id :
  (off + 64 * k <= length data < off + 64 * k + 64)%nat -> (off < length data)%nat ->
  cached cache id data off ->
  exists cache', assemble_all cache id (frags_from k data off) = Returned (Some (mk_IpcBuffer data), cache') /\
    cache' !! id = None /\ forall j, j <> id -> cache' !! j = cache !! j.
Proof.
  revert off cache. induction k as [k IH] using lt_wf_ind. intros off cache Hk Ho Hc.
  destruct (frags_from_head k data off Hk Ho) as (frag & rest & -> & Hf & Hl & Hcase). cbn [assemble_all].
  destruct Hcase as [[He ->]|(H64 & Hlt & k' & -> & ->)].
  - destruct (assemble_inline_last cache id data off frag (Z.of_nat (length data) - Z.of_nat off - 64)
      (DATA_LENGTH + (Z.of_nat (length data) - Z.of_nat off - 64))) as (cache' & -> & H1 & H2); try done; try lia.
    + by rewrite Hf, He, firstn_all.
    + by exists cache'.
  - destruct (assemble_inline_more cache id data off frag) as (cache' & E & Hc' & Hj); try done; try lia.
    rewrite H64 in E. change (Z.of_nat 64) with 64 in E. rewrite E.
    rewrite H64 in Hc'. destruct (IH k' ltac:(lia) (off + 64)%nat cache') as (cache'' & -> & H1 & H2); try done; try lia.
    exists cache''. split; [done|]. split; [done|]. intros j Hne. by rewrite H2, Hj.
Qed.

Lemma fragments_size (data : list Z) : (0 + 64 * (length data / 64) <= length data < 0 + 64 * (length data / 64) + 64)%nat.
Proof. pose proof (Nat.div_mod_eq (length data) 64). pose proof (Nat.mod_upper_bound (length data) 64). lia. Qed.

(** Reassembling the fragments of any non-empty message, in order, gives back the message,
    leaves nothing of it in the receiver's cache and does not disturb the partial messages
    of other ids; no step of it panics. *)
Theorem fragments_reassemble data cache id :
  data <> [] -> cache !! id = None ->
  exists cache', assemble_all cache id (fragments data) = Returned (Some (mk_IpcBuffer data), cache') /\
    cache' !! id = None /\ forall j, j <> id -> cache' !! j = cache !! j.
Proof.
  intros Hd Hc. apply assemble_frags.
  - apply fragments_size.
  - by destruct data; simpl; [|lia].
  - done.
Qed.

Lemma fragments_reassemble_witness :
  exists cache', assemble_all ∅ 7 (fragments (seqZ 0 130)) = Returned (Some (mk_IpcBuffer (seqZ 0 130)), cache') /\
    cache' !! 7 = None.
Proof.
  destruct (fragments_reassemble (seqZ 0 130) ∅ 7) as (cache' & E & H & _); [done|done|].
  exists cache'. split; [exact E|exact H].
Defined.
