(* ===== verification/Route.v ===== *)
(** * A route, end to end

    Properties of the operations of [ChanInner] on a route ([multi = false]) run one
    at a time: a message sent is the message received, a push never silently
    overwrites what a connected receiver has yet to read, and connecting and
    disconnecting keep the connection mask, the owner table and the endpoint in
    step. *)
From S2P Require Import Prelude Atomics Locks Circ Abi ShmName Buffer Liveness ChunkStorage Ring Channel Fragments.

#[export] Instance w_rings_lawful : LawfulField w_rings_f. Proof. split; by intros. Qed.
#[export] Instance w_liveness_lawful : LawfulField w_liveness_f. Proof. split; by intros. Qed.
#[export] Instance ring_of_lawful n : LawfulField (ring_of n). Proof. apply _. Qed.
#[export] Instance liveness_of_lawful n : LawfulField (liveness_of n). Proof. apply _. Qed.

#[export] Instance ci_ring_lawful t c : LawfulField (ci_ring t c). Proof. apply _. Qed.

(** The rest of the world does not touch a ring. *)
Lemma ring_log t c v w : fget (ci_ring t c) (fset w_log_f v w) = fget (ci_ring t c) w.
Proof. done. Qed.
Lemma ring_clock t c v w : fget (ci_ring t c) (fset w_clock_f v w) = fget (ci_ring t c) w.
Proof. done. Qed.
Lemma ring_same t c c' : ci_name c = ci_name c' -> ci_prefix c = ci_prefix c' -> ci_ring t c = ci_ring t c'.
Proof. intros E1 E2. unfold ci_ring. by rewrite E1, E2. Qed.

#[local] Opaque ci_ring.

(** ** The ring after a push *)

Definition with_slot (i : Z) (e : ElemT) (R : ring) : ring := fset slots_f (<[i := e]> (slots R)) R.

(** One fragment written at the write cursor for the receivers connected now. *)
Definition pushed (my_cc id : Z) (fr : Z * list Z) (R : ring) : ring :=
  let i := index_of (write_cursor R) in
  let old := slots R !!! i in
  fset write_cursor_f (wrapping_add 32 (write_cursor R) 1)
    (with_slot i (mk_ElemT (write_msg (data_ old) my_cc id (fst fr) false (snd fr))
                    (Z.lor (epoch R) (connections R))) R).

(** No receiver in [cc] still has to read the slot. *)
Definition slot_free (cc : Z) (e : ElemT) : Prop := Z.land cc (Z.land (rc_ e) EP_MASK) = 0.

Section push.
Context (o : os) (t : target) (fuel : nat).

Lemma push_claim_free n c tmo w R :
  fget (ci_ring t c) w = R -> connections R <> 0 ->
  slot_free (connections R) (slots R !!! index_of (write_cursor R)) ->
  runs n (push_claim t fuel n c tmo) w (fun res w' =>
    res = Ok (Some (write_cursor R)) /\
    fget (ci_ring t c) w' =
      with_slot (index_of (write_cursor R))
        (mk_ElemT (data_ (slots R !!! index_of (write_cursor R))) (Z.lor (epoch R) (connections R))) R).
Proof.
  intros HR Hcc Hfree. induction n as [|n IH]; [intros tape Ht; lia|].
  cbn [push_claim]. run_step. change (fget (sub_field (ci_ring t c) connections_f) w) with (connections (fget (ci_ring t c) w)).
  rewrite HR. destruct (Z.eqb_spec (connections R) 0); [done|].
  run_step. run_step. run_step. cbn [fget sub_field epoch_f write_cursor_f ring_slot slots_f at_key rc_f].
  rewrite HR. unfold slot_free in Hfree. rewrite Hfree. cbn [Z.eqb negb andb].
  run_step. apply runs_cas_weak.
  - simpl. by rewrite HR.
  - apply runs_ret. split; [done|]. simpl. rewrite get_set. simpl. by rewrite HR.
  - replace (S n - 1)%nat with n by lia. exact IH.
Qed.

Lemma push_fragment_free c id remain payload tmo w R :
  ci_multi c = false -> fget (ci_ring t c) w = R -> connections R <> 0 ->
  slot_free (connections R) (slots R !!! index_of (write_cursor R)) ->
  runs fuel (push_fragment t fuel c id remain payload tmo) w (fun res w' =>
    res = Ok true /\ fget (ci_ring t c) w' = pushed (cc_id c) id (remain, payload) R).
Proof.
  intros Hm HR Hcc Hfree. unfold push_fragment. rewrite Hm. apply runs_bind.
  eapply runs_conseq; [by apply push_claim_free|]. intros res w1 [-> HR1].
  run_step. unfold fetch_add. run_step. unfold broadcast. run_step. run_step. split; [done|].
  rewrite ring_log. simpl. rewrite !get_set. simpl. rewrite HR1. unfold pushed, with_slot. simpl.
  rewrite lookup_total_insert_eq. simpl. unfold fset, slots_f. simpl. by rewrite insert_insert_eq.
Qed.

(** Pushing the fragments of a message one after the other. *)
Definition push_all (my_cc id : Z) (frs : list (Z * list Z)) (R : ring) : ring :=
  foldl (fun R fr => pushed my_cc id fr R) R frs.

(** The next [n] slots are free for the receivers connected now. *)
Definition room (R : ring) (n : nat) : Prop :=
  (n <= 256)%nat /\ forall j : nat, (j < n)%nat ->
    slot_free (connections R) (slots R !!! index_of (write_cursor R + Z.of_nat j)).

Lemma index_of_wrap x : index_of (wrap 32 x) = index_of x.
Proof.
  unfold index_of, wrap. bitwise. destruct (Z.ltb_spec i 8), (Z.ltb_spec i 32); try lia; done.
Qed.

Lemma index_of_ne a (i j : nat) : (i < 256)%nat -> (j < 256)%nat -> i <> j ->
  index_of (a + Z.of_nat i) <> index_of (a + Z.of_nat j).
Proof.
  intros Hi Hj Hne E. unfold index_of, wrap in E. change (2 ^ 8) with 256 in E.
  pose proof (Z.mod_pos_bound (a + Z.of_nat i) 256 ltac:(lia)).
  pose proof (Z.div_mod (a + Z.of_nat i) 256 ltac:(lia)). pose proof (Z.div_mod (a + Z.of_nat j) 256 ltac:(lia)). nia.
Qed.

Lemma index_of_next a (j : nat) : index_of (wrapping_add 32 a 1 + Z.of_nat j) = index_of (a + Z.of_nat (S j)).
Proof.
  rewrite <- index_of_wrap, <- (index_of_wrap (a + Z.of_nat (S j))). f_equal. unfold wrapping_add, wrap.
  rewrite Zplus_mod_idemp_l. f_equal. lia.
Qed.

Lemma room_step R n my_cc id fr : room R (S n) -> room (pushed my_cc id fr R) n.
Proof.
  intros [Hn Hr]. split; [lia|]. intros j Hj. simpl. rewrite index_of_next, lookup_total_insert_ne.
  - apply Hr. lia.
  - rewrite <- (Z.add_0_r (write_cursor R)) at 1. change 0 with (Z.of_nat 0). apply index_of_ne; lia.
Qed.

(** Slots away from the next [length frs] ones keep what they hold. *)
Lemma push_all_other my_cc id frs R i :
  (forall j : nat, (j < length frs)%nat -> index_of (write_cursor R + Z.of_nat j) <> i) ->
  slots (push_all my_cc id frs R) !!! i = slots R !!! i.
Proof.
  revert R. induction frs as [|fr frs IH]; intros R Hi; [done|]. cbn [push_all foldl].
  change (foldl _ ?R' frs) with (push_all my_cc id frs R'). rewrite IH.
  - simpl. apply lookup_total_insert_ne. specialize (Hi 0%nat ltac:(simpl; lia)). by rewrite Z.add_0_r in Hi.
  - intros j Hj. simpl. rewrite index_of_next. apply Hi. simpl. lia.
Qed.

(** What the ring holds after the pushes. *)
Definition holds (R : ring) (from my_cc id : Z) (frs : list (Z * list Z)) : Prop :=
  forall (j : nat) fr, frs !! j = Some fr -> exists d0, length d0 = 80%nat /\
    data_ (slots R !!! index_of (from + Z.of_nat j)) = write_msg d0 my_cc id (fst fr) false (snd fr).

Definition sized (R : ring) : Prop := forall i, length (data_ (slots R !!! i)) = 80%nat.

Lemma push_all_facts my_cc id frs R :
  is_u 32 (write_cursor R) -> (length frs <= 256)%nat -> sized R ->
  Forall (fun fr => (length (snd fr) <= 64)%nat) frs ->
  let R' := push_all my_cc id frs R in
  connections R' = connections R /\ epoch R' = epoch R /\
  write_cursor R' = wrap 32 (write_cursor R + Z.of_nat (length frs)) /\
  holds R' (write_cursor R) my_cc id frs.
Proof.
  revert R. induction frs as [|fr frs IH]; intros R Hu Hl Hs Hf R'.
  { simpl. rewrite Z.add_0_r, wrap_id by done. done. }
  apply Forall_cons in Hf as [Hfr Hf]. simpl in Hl. unfold R'. cbn [push_all foldl].
  change (foldl _ ?R' frs) with (push_all my_cc id frs R').
  destruct (IH (pushed my_cc id fr R)) as (E1 & E2 & E3 & E4).
  - simpl. apply wrap_range. lia.
  - lia.
  - intros i. simpl. destruct (decide (i = index_of (write_cursor R))) as [->|Hne].
    + rewrite lookup_total_insert_eq. cbn [data_]. apply length_write_msg; [apply Hs|done].
    + rewrite lookup_total_insert_ne by done. apply Hs.
  - done.
  - split; [done|]. split; [done|]. split.
    + rewrite E3. simpl. unfold wrapping_add, wrap. rewrite Zplus_mod_idemp_l. f_equal. lia.
    + intros [|j] fr' Hj; simpl in Hj.
      * simplify_eq. exists (data_ (slots R !!! index_of (write_cursor R))). split; [apply Hs|].
        rewrite Z.add_0_r, push_all_other.
        -- simpl. by rewrite lookup_total_insert_eq.
        -- intros j Hj. simpl. rewrite index_of_next.
           replace (index_of (write_cursor R)) with (index_of (write_cursor R + Z.of_nat 0)) by (f_equal; lia).
           apply index_of_ne; lia.
      * destruct (E4 j fr' Hj) as (d0 & Hd & E). exists d0. split; [done|]. rewrite <- E. simpl.
        by rewrite index_of_next.
Qed.

Lemma i32_small x : 0 <= x < 2 ^ 31 -> i32 x = x.
Proof. intros. apply i32_id. lia. Qed.

Lemma send_full_free k c id data off tmo w R :
  ci_multi c = false -> fget (ci_ring t c) w = R -> connections R <> 0 ->
  Z.of_nat (length data) < 2 ^ 31 -> (off + 64 * k <= length data < off + 64 * k + 64)%nat ->
  room R (length (frags_from k data off)) ->
  runs fuel (send_full t fuel k c id data off tmo) w (fun res w' =>
    res = Ok true /\ fget (ci_ring t c) w' = push_all (cc_id c) id (frags_from k data off) R).
Proof.
  intros Hm. revert off w R. induction k as [|k IH]; intros off w R HR Hcc Hsz Hk Hroom; cbn [send_full frags_from] in *.
  - rewrite (i32_small (Z.of_nat (length data) - Z.of_nat off)), i32_id
      by (unfold DATA_LENGTH, data_length; lia).
    destruct (Z.ltb_spec 0 (Z.of_nat (length data) - Z.of_nat off)); [|by run_step].
    eapply runs_conseq; [apply push_fragment_free; try done|].
    + destruct Hroom as [_ Hr]. specialize (Hr 0%nat ltac:(simpl; lia)). by rewrite Z.add_0_r in Hr.
    + done.
  - rewrite (i32_small (Z.of_nat (length data))), (i32_small (Z.of_nat off)),
      (i32_small (Z.of_nat (length data) - Z.of_nat off)), i32_id by (unfold DATA_LENGTH, data_length; lia).
    apply runs_bind. eapply runs_conseq; [apply push_fragment_free; try done|].
    + destruct Hroom as [_ Hr]. specialize (Hr 0%nat ltac:(simpl; lia)). by rewrite Z.add_0_r in Hr.
    + intros res w1 [-> HR1]. cbn [negb]. simpl in Hroom. apply (room_step _ _ (cc_id c) id
        (Z.of_nat (length data) - Z.of_nat off - DATA_LENGTH, slice off (off + 64) data)) in Hroom.
      eapply runs_conseq; [apply IH; try done; lia|]. done.
Qed.

(** A sender that holds its route's claim, with somebody to send to and room for the whole message. *)
Lemma send_free c data tmo w R :
  ci_multi c = false -> ci_mode c = Sender -> sender_claimed c = true ->
  fget (ci_ring t c) w = R -> connections R <> 0 -> data <> [] ->
  Z.of_nat (length data) < 2 ^ 31 -> room R (length (fragments data)) ->
  runs fuel (send o t fuel c data tmo) w (fun rc w' =>
    rc = (Ok true, set_send_seq (wrapping_add 32 (send_seq c) 1) c) /\
    fget (ci_ring t c) w' = push_all (cc_id c) (send_seq c) (fragments data) R).
Proof.
  intros Hm Hmode Hcl HR Hcc Hd Hsz Hroom. unfold send.
  rewrite bool_decide_false, (bool_decide_true (ci_mode c = Sender)) by done. cbn [negb].
  unfold sender_ready. rewrite Hm, Hcl. cbn [orb]. run_step. cbv beta iota. cbn [negb]. run_step.
  change (fget (sub_field (ci_ring t c) connections_f) w) with (connections (fget (ci_ring t c) w)).
  rewrite HR, Hm. destruct (Z.eqb_spec (connections R) 0); [done|]. cbv iota. run_step. apply runs_bind.
  eapply runs_conseq; [apply (send_full_free _ (set_send_seq (wrapping_add 32 (send_seq c) 1) c)); try done|].
  - apply fragments_size.
  - intros res w' [-> H]. run_step. by split.
Qed.

(** ** Receiving *)

(** The slot after its reader has released it. *)
Definition released (bit : Z) (e : ElemT) : ElemT :=
  if Z.land (rc_ e) EP_MASK =? 0 then e else mk_ElemT (data_ e) (Z.land (rc_ e) (unot 64 bit)).

(** A ring in which only one slot's marks changed. *)
Definition after_release (bit cur : Z) (R R' : ring) : Prop :=
  (forall i, slots R' !!! i = if decide (i = index_of cur) then released bit (slots R !!! i) else slots R !!! i) /\
  write_cursor R' = write_cursor R /\ connections R' = connections R /\ epoch R' = epoch R.

Lemma release_slot_runs n c cur w :
  runs n (release_slot t n c cur) w (fun _ w' =>
    after_release (conn_id c) cur (fget (ci_ring t c) w) (fget (ci_ring t c) w')).
Proof.
  induction n as [|n IH]; [intros tape Ht; lia|]. cbn [release_slot]. run_step.
  cbn [fget sub_field ring_slot slots_f at_key rc_f].
  set (e := slots (fget (ci_ring t c) w) !!! index_of cur).
  destruct (Z.eqb_spec (Z.land (rc_ e) EP_MASK) 0) as [E|E].
  - run_step. split; [|done]. intros i. destruct (decide (i = index_of cur)) as [->|]; [|done].
    fold e. unfold released. by rewrite E.
  - apply runs_cas_weak; [done| |].
    + apply runs_ret. simpl. rewrite get_set. split; [|done]. intros i. simpl.
      destruct (decide (i = index_of cur)) as [->|Hne].
      * rewrite lookup_total_insert_eq. fold e. unfold released. destruct (Z.eqb_spec (Z.land (rc_ e) EP_MASK) 0); done.
      * by rewrite lookup_total_insert_ne.
    + replace (S n - 1)%nat with n by lia. exact IH.
Qed.

Lemma released_data bit e : data_ (released bit e) = data_ e.
Proof. unfold released. by destruct (_ =? 0). Qed.

(** The shape of the fragments of a message. *)
Definition well_formed (fr : Z * list Z) : Prop :=
  - 64 < fst fr < 2 ^ 31 - 64 /\ length (snd fr) = Z.to_nat (if fst fr <=? 0 then 64 + fst fr else 64).

Lemma decode_written d0 my_cc s_cc id fr :
  length d0 = 80%nat -> well_formed fr -> is_u 32 s_cc -> is_u 32 id -> s_cc <> my_cc ->
  decode_slot my_cc (write_msg d0 s_cc id (fst fr) false (snd fr)) =
  mk_decoded true id (fst fr) (DATA_LENGTH + fst fr) None (Some (snd fr)).
Proof.
  intros Hd [Hr Hl] Hs Hi Hne. destruct fr as [remain pl]. cbn [fst snd] in *.
  assert (length pl <= 64)%nat as Hpl by (destruct (Z.leb_spec remain 0); lia).
  destruct (msg_roundtrip d0 s_cc id remain false pl Hd Hpl) as (Eh & Ep & _); try done; [lia|].
  unfold decode_slot. rewrite Eh. cbn [h_cc_id h_id h_remain h_storage].
  destruct (Z.eqb_spec s_cc my_cc); [done|]. cbn [negb andb].
  rewrite i32_id by (unfold DATA_LENGTH, data_length; lia).
  destruct (Z.ltb_spec 0 (DATA_LENGTH + remain)); [|unfold DATA_LENGTH, data_length in *; lia]. cbn [andb].
  do 2 f_equal. rewrite <- Ep at 2. f_equal. rewrite Hl. unfold DATA_LENGTH, data_length.
  destruct (Z.leb_spec remain 0); lia.
Qed.

(** One round of the receive loop on a slot that is there. *)
Lemma recv_round n c dl w d0 Q :
  write_cursor (fget (ci_ring t c) w) <> read_cursor c ->
  data_ (slots (fget (ci_ring t c) w) !!! index_of (read_cursor c)) = d0 ->
  (forall w', after_release (conn_id c) (read_cursor c) (fget (ci_ring t c) w) (fget (ci_ring t c) w') ->
     runs fuel (m ← assemble_message t fuel (set_read_cursor (wrapping_add 32 (read_cursor c) 1) c) (decode_slot (cc_id c) d0);
                match m : outcome (option IpcBuffer) * ChanInner with
                | (Panicked, c) => Ret (Panicked, c)
                | (Returned (Some buf), c) => returned (Ok buf) c
                | (Returned None, c) => recv_loop t fuel n c dl
                end) w' Q) ->
  runs fuel (recv_loop t fuel (S n) c dl) w Q.
Proof.
  intros Hne Hd Hrest. cbn [recv_loop]. run_step.
  change (fget (sub_field (ci_ring t c) write_cursor_f) w) with (write_cursor (fget (ci_ring t c) w)).
  destruct (Z.eqb_spec (write_cursor (fget (ci_ring t c) w)) (read_cursor c)); [done|].
  run_step. cbn [fget sub_field ring_slot slots_f at_key data_f]. rewrite Hd.
  apply runs_bind. eapply runs_conseq; [apply release_slot_runs|]. intros u w1 H1.
  unfold broadcast. run_step. apply Hrest. by rewrite ring_log.
Qed.

Lemma frags_from_wf k data off :
  Z.of_nat (length data) < 2 ^ 31 -> (off + 64 * k <= length data < off + 64 * k + 64)%nat ->
  Forall well_formed (frags_from k data off).
Proof.
  intros Hsz. revert off. induction k as [k IH] using lt_wf_ind. intros off Hk.
  destruct (decide (off < length data)%nat) as [Ho|Ho].
  - destruct (frags_from_head k data off Hk Ho) as (frag & rest & -> & _ & Hl & Hcase).
    constructor.
    + unfold well_formed. simpl. split; [lia|]. destruct (Z.leb_spec (Z.of_nat (length data) - Z.of_nat off - 64) 0); lia.
    + destruct Hcase as [[_ ->]|(_ & Hlt & k' & -> & ->)]; [constructor|]. apply IH; lia.
  - destruct k as [|k]; [|lia]. cbn [frags_from].
    destruct (Z.ltb_spec 0 (Z.of_nat (length data) - Z.of_nat off)); [lia|constructor].
Qed.

Lemma cursor_behind cur (n : nat) : is_u 32 cur -> (0 < n <= 256)%nat -> wrap 32 (cur + Z.of_nat n) <> cur.
Proof.
  intros Hu Hn E. unfold is_u, wrap in *.
  pose proof (Z.div_mod (cur + Z.of_nat n) (2 ^ 32) ltac:(lia)). nia.
Qed.

Lemma holds_release R R' bit from my_cc id frs :
  after_release bit from R R' -> holds R from my_cc id frs -> holds R' from my_cc id frs.
Proof.
  intros (Hs & _) Hh j fr Hj. destruct (Hh j fr Hj) as (d0 & Hd & E). exists d0. split; [done|].
  rewrite <- E, Hs. destruct (decide _) as [->|]; [by rewrite released_data|done].
Qed.

Lemma holds_tail R from my_cc id fr frs : holds R from my_cc id (fr :: frs) -> holds R (wrapping_add 32 from 1) my_cc id frs.
Proof. intros Hh j fr' Hj. rewrite index_of_next. by apply (Hh (S j) fr'). Qed.

Section recv.
Context (data : list Z) (s_cc id : Z).
Hypothesis data_small : Z.of_nat (length data) < 2 ^ 31.
Hypothesis s_cc_u : is_u 32 s_cc.
Hypothesis id_u : is_u 32 id.

(** The ring and the receiver when the fragments from offset [off] on are still to be read. *)
Definition to_read (k off : nat) (c : ChanInner) (R : ring) : Prop :=
  (off + 64 * k <= length data < off + 64 * k + 64)%nat /\ (off < length data)%nat /\
  is_u 32 (read_cursor c) /\ (length (frags_from k data off) <= 256)%nat /\
  write_cursor R = wrap 32 (read_cursor c + Z.of_nat (length (frags_from k data off))) /\
  holds R (read_cursor c) s_cc id (frags_from k data off) /\
  cached (recv_cache c) id data off.

Lemma recv_frags k off c dl w n :
  s_cc <> cc_id c -> to_read k off c (fget (ci_ring t c) w) -> (length (frags_from k data off) <= n)%nat ->
  runs fuel (recv_loop t fuel n c dl) w (fun rr w' => exists c',
    rr = (Returned (Ok (mk_IpcBuffer data)), c') /\ recv_cache c' !! id = None /\
    read_cursor c' = write_cursor (fget (ci_ring t c) w) /\
    write_cursor (fget (ci_ring t c) w') = write_cursor (fget (ci_ring t c) w)).
Proof.
  revert off c w n. induction k as [k IH] using lt_wf_ind.
  intros off c w n Hcc (Hk & Ho & Hu & Hl256 & Hwc & Hh & Hc) Hn.
  pose proof (frags_from_wf k data off data_small Hk) as Hwf.
  destruct (frags_from_head k data off Hk Ho) as (frag & rest & Ef & Hf & Hl & Hcase). rewrite Ef in *.
  destruct n as [|n]; [simpl in Hn; lia|]. apply Forall_cons in Hwf as [Hwf _].
  destruct (Hh 0%nat _ eq_refl) as (d0 & Hd0 & Ed). rewrite Z.add_0_r in Ed.
  eapply recv_round; [rewrite Hwc; apply cursor_behind; [done|simpl in *; lia]|exact Ed|].
  intros w1 Har. rewrite decode_written by done. cbn [fst snd]. unfold assemble_message. cbn [d_keep negb d_storage_id d_frag d_id d_remain d_r_size].
  change (recv_cache (set_read_cursor _ c)) with (recv_cache c).
  set (remain := Z.of_nat (length data) - Z.of_nat off - 64) in *.
  destruct Hcase as [[He ->]|(H64 & Hlt & k' & -> & ->)].
  - destruct (assemble_inline_last (recv_cache c) id data off frag remain (DATA_LENGTH + remain))
      as (cache' & -> & H1 & H2); try done; try lia; [by rewrite Hf, He, firstn_all|].
    run_step. unfold returned. run_step. eexists. split; [done|]. split; [done|]. simpl in *. split; [by rewrite Hwc|].
    by destruct Har as (_ & -> & _).
  - destruct (assemble_inline_more (recv_cache c) id data off frag) as (cache' & E & Hc' & Hj); try done; try lia.
    rewrite H64 in E, Hc'. change (Z.of_nat 64) with 64 in E. fold remain in E. rewrite E. run_step.
    pose proof (holds_tail _ _ _ _ _ _ (holds_release _ _ _ _ _ _ _ Har Hh)) as Hh'.
    set (c1 := set_recv_cache cache' (set_read_cursor (wrapping_add 32 (read_cursor c) 1) c)) in *.
    assert (write_cursor (fget (ci_ring t c) w1) = write_cursor (fget (ci_ring t c) w)) as Ewc by apply Har.
    eapply runs_conseq; [apply (IH k' ltac:(lia) (off + 64)%nat c1 w1 n); [done| |simpl in Hn; lia]|].
    + split; [lia|]. split; [lia|]. split; [apply wrap_range; lia|]. simpl in Hl256. split; [lia|].
      change (ci_ring t c1) with (ci_ring t c). split; [|by split].
      rewrite Ewc, Hwc. simpl. unfold wrapping_add, wrap. rewrite Zplus_mod_idemp_l. f_equal. lia.
    + change (ci_ring t c1) with (ci_ring t c). rewrite Ewc. done.
Qed.

End recv.
End push.

(** ** End to end *)

(** A sender and a receiver of one route: the sender holds the sole-sender claim, the
    receiver has read everything sent so far. *)
Definition caught_up (t : target) (s r : ChanInner) (w : world) : Prop :=
  ci_multi s = false /\ ci_multi r = false /\ ci_mode s = Sender /\ ci_mode r = Receiver /\
  sender_claimed s = true /\ ci_name s = ci_name r /\ ci_prefix s = ci_prefix r /\
  is_u 32 (cc_id s) /\ is_u 32 (send_seq s) /\ is_u 32 (read_cursor r) /\ cc_id s <> cc_id r /\
  recv_cache r !! send_seq s = None /\
  read_cursor r = write_cursor (fget (ci_ring t s) w) /\
  connections (fget (ci_ring t s) w) <> 0 /\ sized (fget (ci_ring t s) w).

Lemma fragments_payloads data : Z.of_nat (length data) < 2 ^ 31 ->
  Forall (fun fr => (length (snd fr) <= 64)%nat) (fragments data).
Proof.
  intros Hsz. eapply Forall_impl; [apply (frags_from_wf _ data 0 Hsz (fragments_size data))|].
  intros fr [Hr ->]. destruct (Z.leb_spec (fst fr) 0); lia.
Qed.

(** C13: on a route, a nonempty message sent by the sole sender when there are free slots for its
    fragments (64 bytes each, at most 256 of them) is received whole, byte for byte, by a caught-up receiver; the
    send reports success, and the receiver is caught up again with nothing of the message
    left in its reassembly cache. *)
Theorem route_send_recv o t fuel s r data tmo timeout w :
  caught_up t s r w -> data <> [] -> Z.of_nat (length data) < 2 ^ 31 ->
  room (fget (ci_ring t s) w) (length (fragments data)) -> (length (fragments data) <= fuel)%nat ->
  runs fuel
    (sr ← send o t fuel s data tmo; rr ← recv t fuel r timeout; Ret (sr, rr)) w
    (fun res w' => exists s' r', res = ((Ok true, s'), (Returned (Ok (mk_IpcBuffer data)), r')) /\
       read_cursor r' = write_cursor (fget (ci_ring t s) w') /\ recv_cache r' !! send_seq s = None).
Proof.
  intros (Hms & Hmr & Hos & Hor & Hcl & Hn & Hp & Hu1 & Hu2 & Hu3 & Hne & Hcache & Hcur & Hcc & Hsz0) Hd Hsz Hroom Hfuel.
  assert (ci_ring t r = ci_ring t s) as Ering by (apply ring_same; done).
  apply runs_bind. eapply runs_conseq; [by apply (send_free o t fuel s data tmo w (fget (ci_ring t s) w))|].
  intros sr w1 [-> HR1].
  assert (0 < length data)%nat as Hlen by (destruct data; simpl; [done|lia]).
  destruct (push_all_facts (cc_id s) (send_seq s) (fragments data) (fget (ci_ring t s) w)) as (_ & _ & Ew & Hh).
  { by rewrite <- Hcur. } { apply Hroom. } { done. } { by apply fragments_payloads. }
  unfold recv. rewrite Hmr, (bool_decide_true (ci_mode r = Receiver)) by done. cbv iota. cbn [negb].
  apply runs_bind, runs_bind.
  apply (runs_conseq _ _ _ (fun _ w2 => fget (ci_ring t s) w2 = fget (ci_ring t s) w1)).
  { destruct timeout; cbn [deadline_of]; [|by run_step]. unfold now. run_step. run_step. by rewrite ring_clock. }
  intros dl w2 HR2.
  eapply runs_conseq; [apply (recv_frags t fuel data (cc_id s) (send_seq s) Hsz Hu1 Hu2 (length data / 64) 0 r dl w2 fuel Hne)|].
  - rewrite Ering, HR2, HR1. split; [apply fragments_size|]. split; [lia|]. split; [done|].
    split; [apply Hroom|]. rewrite Hcur. split; [exact Ew|]. split; [exact Hh|]. exact Hcache.
  - done.
  - intros rr w' (c' & -> & Hc' & Hr' & Hw'). run_step. eexists _, c'. split; [done|].
    split; [|done]. rewrite Ering in *. by rewrite Hr', Hw'.
Qed.

(** Sender and receiver opened on a fresh world, and a message of 130 bytes. *)
Definition empty_world : world := mk_world ∅ ∅ ∅ ∅ ∅ (mk_clock 0 []) [] [].

Definition demo_ring : ring :=
  mk_ring 1 0 1 0 0 1 ∅ ∅ (mk_SlotOwner 7 0 42).
Definition demo_world : world :=
  mk_world {[ring_shm_name x86_64_linux "" "ch" := demo_ring]} ∅ ∅ ∅ ∅ (mk_clock 0 []) [] [].
Definition demo_sender : ChanInner := mk_ChanInner "ch" "" Sender false 0 1 0 0 ∅ ∅ false true.
Definition demo_receiver : ChanInner := mk_ChanInner "ch" "" Receiver false 1 2 0 0 ∅ ∅ false false.

Lemma demo_slots i : slots (fget (ci_ring x86_64_linux demo_sender) demo_world) !!! i = mk_ElemT zero_msg 0.
Proof. vm_compute. by destruct i. Qed.

Lemma route_send_recv_witness :
  exists res w', eval (sr ← send demo_os x86_64_linux 3 demo_sender (seqZ 0 130) 0;
                       rr ← recv x86_64_linux 3 demo_receiver None; Ret (sr, rr)) demo_world = Some (res, w') /\
    exists s' r', res = ((Ok true, s'), (Returned (Ok (mk_IpcBuffer (seqZ 0 130))), r')).
Proof.
  destruct (runs_eval _ _ _ (runs_mono 3 1 _ _ _ ltac:(lia)
    (route_send_recv demo_os x86_64_linux 3 demo_sender demo_receiver (seqZ 0 130) 0 None demo_world
       ltac:(repeat split; try done; intros i; by rewrite demo_slots)
       ltac:(done) ltac:(vm_compute; reflexivity)
       ltac:(split; [vm_compute; lia|intros j _; by rewrite demo_slots])
       ltac:(vm_compute; lia)))) as (res & w' & E & s' & r' & Er & _).
  exists res, w'. split; [exact E|]. by exists s', r'.
Defined.

(** ** A push never silently overwrites an unread element *)

(** Receiver [q] is connected and has yet to read the element the next push overwrites:
    its mark is there, in the current epoch, and from after it started. *)
Definition unread (R : ring) (L : ConnLiveness) (q : Z) : bool :=
  let e := slots R !!! index_of (write_cursor R) in
  Z.testbit (connections R) q && Z.testbit (rc_ e) q &&
  (Z.land (rc_ e) (unot 64 EP_MASK) =? epoch R) &&
  at_or_after (wrapping_sub 32 (write_cursor R) RING_LAP) (so_since (L !!! q)).

Definition ci_table (c : ChanInner) : field world ConnLiveness :=
  liveness_of (liveness_shm_name (ci_prefix c) (ci_name c)).

Lemma EP_MASK_bits j : 0 <= j -> Z.testbit EP_MASK j = (j <? 32).
Proof. intros. change EP_MASK with (Z.ones 32). by rewrite Z.testbit_ones_nonneg by lia. Qed.

Lemma land_mask_bits cc rc j : is_u 32 cc -> 0 <= j ->
  Z.testbit (Z.land cc (Z.land rc EP_MASK)) j = Z.testbit cc j && Z.testbit rc j.
Proof.
  intros Hu Hj. rewrite !Z.land_spec, EP_MASK_bits by done.
  destruct (Z.ltb_spec j 32); [by rewrite andb_true_r|].
  destruct (proj1 (is_u_bits 32 cc ltac:(lia)) Hu) as [_ Hh]. by rewrite Hh.
Qed.

(** The mask of the receivers that still owe a read. *)
Definition unread_mask (R : ring) (L : ConnLiveness) (m : Z) : Prop :=
  forall j, 0 <= j -> Z.testbit m j = unread R L j.

Lemma unread_mask_unique R L m m' : unread_mask R L m -> unread_mask R L m' -> m = m'.
Proof. intros H H'. apply Z.bits_inj'. intros j Hj. by rewrite H, H'. Qed.

Section overwrite.
Context (t : target) (fuel : nat) (c : ChanInner).

Lemma table_ring_set v w : fget (ci_table c) (fset (ci_ring t c) v w) = fget (ci_table c) w.
Proof. Transparent ci_ring. done. Qed.
Opaque ci_ring.

(** The busy test of the claim loop, on the ring as it is. *)
Lemma busy_runs n w R m :
  is_u 32 (connections R) ->
  let e := slots R !!! index_of (write_cursor R) in
  let bits := Z.land (connections R) (Z.land (rc_ e) EP_MASK) in
  unread_mask R (fget (ci_table c) w) m ->
  (Z.land (rc_ e) (unot 64 EP_MASK) =? epoch R) = true ->
  runs n (live_marks_of c bits (wrapping_sub 32 (write_cursor R) RING_LAP)) w (fun r w' => w' = w /\ r = m).
Proof.
  intros Hu e bits Hm Hep. unfold live_marks_of, ci_liveness.
  assert (is_u 32 bits) as Hub by (apply is_u_land_l; [lia|done]). rewrite wrap_id by done.
  eapply runs_conseq; [by apply (live_marks_runs (ci_table c))|]. intros r w' [-> Hr]. split; [done|].
  apply (unread_mask_unique R (fget (ci_table c) w)); [|done]. intros j Hj.
  rewrite Hr by done. unfold unread, bits. fold e. by rewrite land_mask_bits, Hep, andb_true_r.
Qed.

Lemma unread_none_no_epoch R L : (Z.land (rc_ (slots R !!! index_of (write_cursor R))) (unot 64 EP_MASK) =? epoch R) = false ->
  unread_mask R L 0.
Proof. intros E j Hj. unfold unread. by rewrite E, Z.bits_0, andb_false_r. Qed.

Lemma unread_none_no_marks R L : is_u 32 (connections R) ->
  Z.land (connections R) (Z.land (rc_ (slots R !!! index_of (write_cursor R))) EP_MASK) = 0 -> unread_mask R L 0.
Proof.
  intros Hu E j Hj. unfold unread. rewrite <- land_mask_bits by done. by rewrite E, Z.bits_0.
Qed.

(** The first accesses of a round of the claim loop, up to the busy test. *)
Lemma push_claim_round n k tmo w R m Q :
  fget (ci_ring t c) w = R -> connections R <> 0 -> is_u 32 (connections R) ->
  unread_mask R (fget (ci_table c) w) m ->
  let e := slots R !!! index_of (write_cursor R) in
  let slot := ring_slot (ci_ring t c) (write_cursor R) in
  (m = 0 ->
   runs n (x ← compare_exchange_weak (sub_field slot rc_f) (rc_ e) (Z.lor (epoch R) (connections R));
           match x with Ok _ => Ret (Ok (Some (write_cursor R))) | Err _ => push_claim t fuel k c tmo end) w Q) ->
  (m <> 0 ->
   runs n (ok ←? wait_for fuel (slot_busy t c (connections R) (write_cursor R)) (Some tmo);
           if (ok : bool) then push_claim t fuel k c tmo
           else
             _ ← fetch_add 64 (sub_field (ci_ring t c) epoch_f) EP_INCR;
             rc2 ← load (sub_field slot rc_f);
             rem2 ← live_marks_of c (Z.land (Z.land rc2 EP_MASK) (connections R))
                      (wrapping_sub 32 (write_cursor R) RING_LAP);
             if rem2 =? 0 then push_claim t fuel k c tmo
             else
               old ← fetch_and (sub_field (ci_ring t c) connections_f) (unot 32 rem2);
               if Z.land old (unot 32 rem2) =? 0 then Ret (Ok None)
               else
                 _ ← fetch_and (sub_field slot rc_f) (unot 64 rem2);
                 push_claim t fuel k c tmo) w Q) ->
  runs n (push_claim t fuel (S k) c tmo) w Q.
Proof.
  intros HR Hcc Hu Hm e slot Hfree Hbusy. cbn [push_claim]. run_step.
  change (fget (sub_field (ci_ring t c) connections_f) w) with (connections (fget (ci_ring t c) w)).
  rewrite HR. destruct (Z.eqb_spec (connections R) 0); [done|].
  run_step. run_step. run_step. cbn [fget sub_field epoch_f write_cursor_f ring_slot slots_f at_key rc_f].
  rewrite HR. fold e. apply runs_bind.
  apply (runs_conseq _ _ _ (fun b w' => w' = w /\ b = negb (m =? 0))).
  - destruct (Z.eqb_spec (Z.land (connections R) (Z.land (rc_ e) EP_MASK)) 0) as [E0|E0]; cbn [negb andb].
    { run_step. split; [done|]. by rewrite (unread_mask_unique R _ m 0 Hm (unread_none_no_marks _ _ Hu E0)). }
    destruct (Z.land (rc_ e) (unot 64 EP_MASK) =? epoch R) eqn:Ee; cbn [andb].
    2:{ run_step. split; [done|]. by rewrite (unread_mask_unique R _ m 0 Hm (unread_none_no_epoch _ _ Ee)). }
    apply runs_bind. eapply runs_conseq; [by apply (busy_runs n w R m)|]. intros r w' [-> ->]. by run_step.
  - intros b w' [-> ->]. destruct (Z.eqb_spec m 0) as [E|E]; cbn [negb]; [by apply Hfree|by apply Hbusy].
Qed.

(** With nobody owing a read the claim succeeds and rewrites the slot's marks. *)
Lemma push_claim_quiet n tmo w R :
  fget (ci_ring t c) w = R -> connections R <> 0 -> is_u 32 (connections R) ->
  unread_mask R (fget (ci_table c) w) 0 ->
  runs n (push_claim t fuel n c tmo) w (fun res w' =>
    res = Ok (Some (write_cursor R)) /\
    fget (ci_ring t c) w' =
      with_slot (index_of (write_cursor R))
        (mk_ElemT (data_ (slots R !!! index_of (write_cursor R))) (Z.lor (epoch R) (connections R))) R).
Proof.
  intros HR Hcc Hu Hm. induction n as [|n IH]; [intros tape Ht; lia|].
  apply (push_claim_round (S n) n tmo w R 0); try done. intros _. apply runs_cas_weak.
  - simpl. by rewrite HR.
  - apply runs_ret. split; [done|]. simpl. rewrite get_set. simpl. by rewrite HR.
  - replace (S n - 1)%nat with n by lia. exact IH.
Qed.

(** The ring after the receivers in [m] have been disconnected. *)
Definition evicted (m : Z) (R : ring) : ring :=
  if m =? 0 then R
  else fset connections_f (Z.land (connections R) (unot 32 m))
         (fset epoch_f (wrapping_add 64 (epoch R) EP_INCR) R).

Lemma evicted_bits m R L q : is_u 32 (connections R) -> unread_mask R L m -> 0 <= q ->
  Z.testbit (connections (evicted m R)) q = Z.testbit (connections R) q && negb (unread R L q).
Proof.
  intros Hu Hm Hq. rewrite <- Hm by done. unfold evicted. destruct (Z.eqb_spec m 0) as [->|Hm0].
  { by rewrite Z.bits_0, andb_true_r. }
  simpl. rewrite Z.land_spec, unot_spec by lia. destruct (Z.ltb_spec q 32); [done|].
  destruct (proj1 (is_u_bits 32 _ ltac:(lia)) Hu) as [_ Hh]. by rewrite Hh.
Qed.

Lemma epoch_moves ep : is_u 64 ep -> wrapping_add 64 ep EP_INCR <> ep.
Proof.
  intros Hu E. unfold is_u, wrapping_add, wrap in *. change EP_INCR with (2 ^ 32) in E.
  pose proof (Z.div_mod (ep + 2 ^ 32) (2 ^ 64) ltac:(lia)). nia.
Qed.

(** In the new epoch the marks of the old one no longer count. *)
Lemma evicted_quiet R L rc' :
  is_u 64 (epoch R) -> (Z.land (rc_ (slots R !!! index_of (write_cursor R))) (unot 64 EP_MASK) =? epoch R) = true ->
  Z.land rc' (unot 64 EP_MASK) = Z.land (rc_ (slots R !!! index_of (write_cursor R))) (unot 64 EP_MASK) ->
  forall R', epoch R' = wrapping_add 64 (epoch R) EP_INCR -> write_cursor R' = write_cursor R ->
  rc_ (slots R' !!! index_of (write_cursor R)) = rc' -> unread_mask R' L 0.
Proof.
  intros Hu He Erc R' Eep Ew Es. apply unread_none_no_epoch. rewrite Ew, Es, Erc, Eep.
  apply Z.eqb_eq in He. rewrite He. apply Z.eqb_neq. intros E. by apply (epoch_moves _ Hu).
Qed.

Lemma evict_keeps_epoch rc m : is_u 32 m ->
  Z.land (Z.land rc (unot 64 m)) (unot 64 EP_MASK) = Z.land rc (unot 64 EP_MASK).
Proof.
  intros Hu. apply Z.bits_inj'. intros i Hi. rewrite !Z.land_spec, !unot_spec, EP_MASK_bits by lia.
  destruct (Z.ltb_spec i 64), (Z.ltb_spec i 32); cbn [andb negb]; rewrite ?andb_false_r, ?andb_true_r; try done.
  destruct (proj1 (is_u_bits 32 _ ltac:(lia)) Hu) as [_ Hh]. by rewrite Hh, andb_true_r.
Qed.

Lemma unread_mask_u32 R L m : is_u 32 (connections R) -> 0 <= m -> unread_mask R L m -> is_u 32 m.
Proof.
  intros Hu Hm0 Hm. apply is_u_bits; [lia|]. split; [done|]. intros i Hi. rewrite Hm by lia. unfold unread.
  destruct (proj1 (is_u_bits 32 _ ltac:(lia)) Hu) as [_ Hh]. by rewrite Hh.
Qed.

Lemma unread_mask_ex R L : is_u 32 (connections R) -> exists m, is_u 32 m /\ unread_mask R L m.
Proof.
  intros Hu. destruct (Z.land (rc_ (slots R !!! index_of (write_cursor R))) (unot 64 EP_MASK) =? epoch R) eqn:He.
  2:{ exists 0. split; [unfold is_u; lia|by apply unread_none_no_epoch]. }
  set (bits := Z.land (connections R) (Z.land (rc_ (slots R !!! index_of (write_cursor R))) EP_MASK)).
  assert (is_u 32 bits) as Hb by (apply is_u_land_l; [lia|done]).
  destruct (runs_eval _ _ _ (live_marks_runs (mk_field id (fun v _ => v)) 1 bits
    (wrapping_sub 32 (write_cursor R) RING_LAP) L Hb)) as (m & L' & _ & _ & Hm).
  assert (unread_mask R L m) as Hmask.
  { intros j Hj. rewrite Hm by done. unfold unread, bits. rewrite land_mask_bits, He, andb_true_r by done. done. }
  exists m. split; [|done]. apply (unread_mask_u32 R L); [done| |done].
  apply Z.bits_iff_nonneg_ex. exists 31. intros j Hj. rewrite Hmask by lia. unfold unread.
  destruct (proj1 (is_u_bits 32 _ ltac:(lia)) Hu) as [_ Hh]. by rewrite Hh by lia.
Qed.

(** The wait of a push that may not block: the slot is still busy. *)
Lemma still_busy n w R m :
  fget (ci_ring t c) w = R -> is_u 32 (connections R) -> unread_mask R (fget (ci_table c) w) m -> m <> 0 ->
  runs n (wait_for fuel (slot_busy t c (connections R) (write_cursor R)) (Some 0)) w (fun r w' => w' = w /\ r = Ok false).
Proof.
  intros HR Hu Hm Hm0. unfold wait_for. rewrite bool_decide_true by done. unfold slot_busy.
  run_step. run_step. run_step. cbn [fget sub_field epoch_f ring_slot slots_f at_key rc_f]. rewrite HR.
  set (e := slots R !!! index_of (write_cursor R)).
  destruct (Z.eqb_spec (Z.land (connections R) (Z.land (rc_ e) EP_MASK)) 0) as [E0|E0].
  { by destruct Hm0; apply (unread_mask_unique R _ m 0 Hm), unread_none_no_marks. }
  destruct (Z.land (rc_ e) (unot 64 EP_MASK) =? epoch R) eqn:Ee; cbn [negb andb].
  2:{ by destruct Hm0; apply (unread_mask_unique R _ m 0 Hm), unread_none_no_epoch. }
  apply runs_bind. eapply runs_conseq; [by apply (busy_runs n w R m)|]. intros r w' [-> ->]. run_step. run_step.
  split; [done|]. by destruct (Z.eqb_spec m 0).
Qed.

(** Somebody owes a read only of an element of the current epoch. *)
Lemma unread_epoch R L m : unread_mask R L m -> m <> 0 ->
  (Z.land (rc_ (slots R !!! index_of (write_cursor R))) (unot 64 EP_MASK) =? epoch R) = true.
Proof.
  intros Hm Hm0. destruct (_ =? epoch R) eqn:E; [done|]. destruct Hm0.
  by apply (unread_mask_unique R L m 0 Hm), unread_none_no_epoch.
Qed.

(** The claim of a push that may not block. *)
Lemma push_claim_evict n w R m :
  fget (ci_ring t c) w = R -> connections R <> 0 -> is_u 32 (connections R) -> is_u 64 (epoch R) ->
  is_u 32 m -> unread_mask R (fget (ci_table c) w) m ->
  let R1 := evicted m R in
  let i := index_of (write_cursor R) in
  runs n (push_claim t fuel (S n) c 0) w (fun res w' =>
    if connections R1 =? 0 then res = Ok None /\ fget (ci_ring t c) w' = R1
    else res = Ok (Some (write_cursor R)) /\
         fget (ci_ring t c) w' =
           with_slot i (mk_ElemT (data_ (slots R !!! i)) (Z.lor (epoch R1) (connections R1))) R1).
Proof.
  intros HR Hcc Hu Hep Hmu Hm R1 i. unfold R1, evicted.
  destruct (Z.eqb_spec m 0) as [Em|Em].
  { destruct (Z.eqb_spec (connections R) 0); [done|]. subst m.
    apply (runs_mono (S n)); [lia|]. by apply push_claim_quiet. }
  apply (push_claim_round n n 0 w R m); try done. intros _.
  apply runs_bind. eapply runs_conseq; [by apply (still_busy n w R m)|]. intros r w' [-> ->]. cbv beta iota.
  unfold fetch_add at 1. run_step.
  set (w1 := fset _ _ w).
  set (R' := fset epoch_f (wrapping_add 64 (epoch R) EP_INCR) R).
  assert (fget (ci_ring t c) w1 = R') as HR1 by (unfold w1; simpl; by rewrite get_set, HR).
  assert (fget (ci_table c) w1 = fget (ci_table c) w) as HL1 by (unfold w1; simpl; apply table_ring_set).
  clearbody w1. run_step. apply runs_bind.
  change (fget (sub_field (ring_slot (ci_ring t c) (write_cursor R)) rc_f) w1)
    with (rc_ (slots (fget (ci_ring t c) w1) !!! i)). rewrite HR1. change (slots R') with (slots R).
  rewrite Z.land_comm. eapply runs_conseq; [apply (busy_runs n w1 R m); [done|by rewrite HL1|by apply (unread_epoch R (fget (ci_table c) w) m)]|].
  intros r w2 [-> ->].
  destruct (Z.eqb_spec m 0); [done|]. cbv iota. unfold fetch_and. run_step.
  change (fget (sub_field (ci_ring t c) connections_f) w1) with (connections (fget (ci_ring t c) w1)). rewrite HR1.
  change (connections R') with (connections R).
  set (w2 := fset _ _ w1).
  set (R2 := fset connections_f (Z.land (connections R) (unot 32 m)) R').
  assert (fget (ci_ring t c) w2 = R2) as HR2 by (unfold w2; simpl; by rewrite get_set, HR1).
  assert (fget (ci_table c) w2 = fget (ci_table c) w) as HL2 by (etransitivity; [apply table_ring_set|exact HL1]).
  clearbody w2. change (connections R2) with (Z.land (connections R) (unot 32 m)).
  change (connections (fset connections_f _ _)) with (Z.land (connections R) (unot 32 m)).
  destruct (Z.eqb_spec (Z.land (connections R) (unot 32 m)) 0) as [E0|E0]; cbv iota.
  { apply runs_ret. by split. }
  run_step. set (w3 := fset _ _ w2).
  set (R3 := with_slot i (mk_ElemT (data_ (slots R !!! i)) (Z.land (rc_ (slots R !!! i)) (unot 64 m))) R2).
  assert (fget (ci_ring t c) w3 = R3) as HR3 by (unfold w3; simpl; by rewrite get_set, HR2).
  clearbody w3. eapply runs_conseq; [apply (push_claim_quiet n 0 w3 R3 HR3 E0)|].
  - by apply is_u_land_l.
  - apply (evicted_quiet R _ (Z.land (rc_ (slots R !!! i)) (unot 64 m))); try done.
    + by apply (unread_epoch R (fget (ci_table c) w) m).
    + by apply evict_keeps_epoch.
    + unfold R3. simpl. by rewrite lookup_total_insert_eq.
  - intros res w' [-> Hw']. split; [done|]. rewrite Hw'. unfold R3, with_slot. simpl. fold i.
    rewrite lookup_total_insert_eq. unfold fset, slots_f. simpl. by rewrite insert_insert_eq.
Qed.

End overwrite.

(** A push that may not block, as a change of the ring. *)
Lemma push_fragment_evict t fuel c id remain payload w :
  let R := fget (ci_ring t c) w in
  ci_multi c = false -> connections R <> 0 -> is_u 32 (connections R) -> is_u 64 (epoch R) ->
  runs fuel (push_fragment t (S fuel) c id remain payload 0) w (fun res w' =>
    exists m, is_u 32 m /\ unread_mask R (fget (ci_table c) w) m /\
    if connections (evicted m R) =? 0 then res = Ok false /\ fget (ci_ring t c) w' = evicted m R
    else res = Ok true /\ fget (ci_ring t c) w' = pushed (cc_id c) id (remain, payload) (evicted m R)).
Proof.
  intros R Hmul Hcc Hu Hep. destruct (unread_mask_ex R (fget (ci_table c) w) Hu) as (m & Hmu & Hm).
  unfold push_fragment. rewrite Hmul. apply runs_bind.
  eapply runs_conseq; [by apply (push_claim_evict t (S fuel) c fuel w R m)|]. cbv zeta.
  assert (slots (evicted m R) = slots R /\ write_cursor (evicted m R) = write_cursor R) as [Es Ew]
    by (unfold evicted; by destruct (m =? 0)).
  intros res w1 Hres. destruct (connections (evicted m R) =? 0) eqn:E0; destruct Hres as [-> HR1].
  { run_step. exists m. by rewrite E0. }
  run_step. unfold fetch_add. run_step. unfold broadcast. run_step. run_step. exists m. rewrite E0.
  split; [done|]. split; [done|]. split; [done|].
  rewrite ring_log. simpl. rewrite !get_set. simpl. rewrite HR1. unfold pushed, with_slot. simpl.
  rewrite Es, Ew, lookup_total_insert_eq. simpl. unfold fset, slots_f. simpl. by rewrite insert_insert_eq.
Qed.

(** C14: a push that may not block (timeout 0) never overwrites an element that a
    receiver still counted as connected afterwards had yet to read.  A receiver stays
    connected exactly when it did not owe a read of the element the write cursor is about to
    overwrite; when nobody is left the push reports failure and no slot nor the cursor is
    touched; otherwise the one slot at the cursor is rewritten, addressed to exactly the
    remaining receivers, the cursor moves by one, and the epoch moves exactly when somebody
    was evicted. *)
Theorem push_never_overwrites_unread t fuel c id remain payload w :
  let R := fget (ci_ring t c) w in
  let L := fget (ci_table c) w in
  ci_multi c = false -> connections R <> 0 -> is_u 32 (connections R) -> is_u 64 (epoch R) ->
  runs fuel (push_fragment t (S fuel) c id remain payload 0) w (fun res w' =>
    let R' := fget (ci_ring t c) w' in
    (forall q, 0 <= q -> Z.testbit (connections R') q = Z.testbit (connections R) q && negb (unread R L q)) /\
    (epoch R' = epoch R <-> forall q, 0 <= q -> unread R L q = false) /\
    if connections R' =? 0 then res = Ok false /\ slots R' = slots R /\ write_cursor R' = write_cursor R
    else
      let i := index_of (write_cursor R) in
      res = Ok true /\ write_cursor R' = wrapping_add 32 (write_cursor R) 1 /\
      slots R' = <[i := mk_ElemT (write_msg (data_ (slots R !!! i)) (cc_id c) id remain false payload)
                         (Z.lor (epoch R') (connections R'))]> (slots R)).
Proof.
  intros R L Hmul Hcc Hu Hep. eapply runs_conseq; [by apply push_fragment_evict|].
  intros res w' (m & Hmu & Hm & Hres). fold R L in Hm, Hres. cbv zeta.
  assert (epoch (evicted m R) = epoch R <-> forall q, 0 <= q -> unread R L q = false) as Hepoch.
  { unfold evicted. destruct (Z.eqb_spec m 0) as [->|Hne].
    - split; [|done]. intros _ q Hq. by rewrite <- Hm, Z.bits_0.
    - simpl. split; [intros E; by destruct (epoch_moves _ Hep)|]. intros H. destruct Hne. apply Z.bits_inj'.
      intros q Hq. by rewrite Hm, H, Z.bits_0. }
  pose proof (evicted_bits m R L) as Hbits.
  assert (slots (evicted m R) = slots R /\ write_cursor (evicted m R) = write_cursor R) as [Es Ew]
    by (unfold evicted; by destruct (m =? 0)).
  destruct (connections (evicted m R) =? 0) eqn:E0; destruct Hres as [-> ->].
  { rewrite E0. split; [by intros; apply Hbits|]. by split. }
  change (connections (pushed _ _ _ ?r)) with (connections r). change (epoch (pushed _ _ _ ?r)) with (epoch r). rewrite E0.
  split; [by intros; apply Hbits|]. split; [done|]. split; [done|]. simpl. by rewrite Es, Ew.
Qed.

(** Two receivers; the second has not read the element of the first lap at index 0. *)
Definition lapped_ring : ring := mk_ring 3 1 1 256 (2 ^ 32) 1
  {[0 := mk_ElemT zero_msg (2 ^ 32 + 2)]} ∅ (mk_SlotOwner 7 0 42).
Definition lapped_world : world :=
  mk_world {[ring_shm_name x86_64_linux "" "ch" := lapped_ring]} ∅ ∅ ∅ ∅ (mk_clock 0 []) [] [].

Lemma push_never_overwrites_unread_witness :
  exists res w', eval (push_fragment x86_64_linux 2 demo_sender 5 (-62) [1; 2] 0) lapped_world = Some (res, w') /\
    Z.testbit (connections (fget (ci_ring x86_64_linux demo_sender) w')) 1 = false.
Proof.
  destruct (runs_eval _ _ _ (push_never_overwrites_unread x86_64_linux 1 demo_sender 5 (-62) [1; 2] lapped_world
    eq_refl ltac:(vm_compute; congruence) ltac:(vm_compute; split; congruence) ltac:(vm_compute; split; congruence)))
    as (res & w' & E & Hb & _).
  exists res, w'. split; [exact E|]. rewrite Hb by lia. vm_compute. reflexivity.
Defined.
