(* ===== verification/BroadcastLog.v ===== *)
(** * The log of a multi-writer channel: words, marks, fragments, reassembly

    The vocabulary of Multi.v: the packed word of a slot (marks, generation, epoch),
    masks given by predicates, the fragments of messages as entries of a log, and what
    a receiver's cache holds after a part of the log. *)
From S2P Require Import Prelude Atomics Locks Circ Abi ShmName Buffer Liveness ChunkStorage Ring Channel Fragments Route.

#[local] Arguments Nat.modulo : simpl never.
#[local] Arguments Nat.div : simpl never.

(** ** The packed word of a slot: marks below, generation above, epoch 0 *)

Definition pack (v M : Z) : Z := Z.shiftl v 32 + M.

Lemma pack_bits v M i : 0 <= v -> is_u 32 M -> 0 <= i ->
  Z.testbit (pack v M) i = if i <? 32 then Z.testbit M i else Z.testbit v (i - 32).
Proof.
  intros Hv HM Hi. unfold pack. pose proof (proj1 (is_u_bits 32 M ltac:(lia)) HM) as [_ Hh].
  assert (Z.land (Z.shiftl v 32) M = 0) as E.
  { apply Z.bits_inj'. intros k Hk. rewrite Z.land_spec, Z.bits_0.
    destruct (Z.ltb_spec k 32); [by rewrite Z.shiftl_spec_low by lia|]. by rewrite Hh, andb_false_r by lia. }
  rewrite Z.add_nocarry_lxor, Z.lxor_lor, Z.lor_spec by done. destruct (Z.ltb_spec i 32).
  - by rewrite Z.shiftl_spec_low by lia.
  - rewrite Z.shiftl_spec, Hh by lia. by rewrite orb_false_r.
Qed.

Lemma pack_marks v M : 0 <= v -> is_u 32 M -> Z.land (pack v M) RC_MASK = M.
Proof.
  intros Hv HM. apply Z.bits_inj'. intros i Hi. rewrite Z.land_spec, RC_MASK_bits, pack_bits by done.
  destruct (Z.ltb_spec i 32); [by rewrite andb_true_r|]. rewrite andb_false_r.
  symmetry. apply (proj1 (is_u_bits 32 M ltac:(lia)) HM). lia.
Qed.

Lemma pack_gen v M : 0 <= v -> is_u 32 M -> Z.shiftr (pack v M) 32 = v.
Proof.
  intros Hv HM. unfold pack. rewrite Z.shiftr_div_pow2, Z.shiftl_mul_pow2 by lia. unfold is_u in HM.
  rewrite Z.div_add_l by lia. rewrite Z.div_small by lia. lia.
Qed.

Lemma pack_u64 v M : 0 <= v < 2 ^ 24 -> is_u 32 M -> is_u 64 (pack v M).
Proof. unfold is_u, pack. rewrite Z.shiftl_mul_pow2 by lia. lia. Qed.

(** The epoch of a packed word is 0. *)
Lemma pack_epoch v M : 0 <= v < 2 ^ 24 -> is_u 32 M -> Z.land (pack v M) (unot 64 CH_EP_MASK) = 0.
Proof.
  intros Hv HM. apply Z.bits_inj'. intros i Hi. rewrite Z.land_spec, Z.bits_0, unot_spec by lia.
  change CH_EP_MASK with (Z.ones 56). rewrite Z.testbit_ones_nonneg by lia.
  destruct (Z.ltb_spec i 56); [simpl; by rewrite !andb_false_r|].
  rewrite pack_bits by (try done; lia). destruct (Z.ltb_spec i 32); [lia|].
  rewrite Z.bits_above_log2; [done|lia|]. destruct (decide (v = 0)) as [->|Hv0]; [simpl; lia|].
  assert (Z.log2 v < 24) by (apply Z.log2_lt_pow2; lia). lia.
Qed.

(** Incrementing the generation. *)
Lemma inc_rc_pack v M : 0 <= v -> v + 1 < 2 ^ 24 -> is_u 32 M -> inc_rc (pack v M) = pack (v + 1) M.
Proof.
  intros Hv Hv1 HM. pose proof (pack_u64 v M ltac:(lia) HM) as Hu. pose proof (pack_u64 (v + 1) M ltac:(lia) HM) as Hu1.
  assert (wrapping_add 64 (pack v M) CH_IC_INCR = pack (v + 1) M) as E.
  { unfold wrapping_add. replace (pack v M + CH_IC_INCR) with (pack (v + 1) M); [by apply wrap_id|].
    unfold pack. change CH_IC_INCR with (2 ^ 32). rewrite !Z.shiftl_mul_pow2 by lia. lia. }
  unfold inc_rc. rewrite E. apply Z.bits_inj'. intros i Hi.
  rewrite Z.lor_spec, !Z.land_spec, unot_spec, CH_IC_MASK_bits by lia.
  rewrite !pack_bits by (try done; lia).
  assert (forall x, 0 <= x < 2 ^ 24 -> 56 <= i -> Z.testbit x (i - 32) = false) as Hhigh.
  { intros x Hx Hi'. destruct (decide (x = 0)) as [->|Hx0]; [by rewrite Z.bits_0|].
    apply Z.bits_above_log2; [lia|]. assert (Z.log2 x < 24) by (apply Z.log2_lt_pow2; lia). lia. }
  destruct (Z.ltb_spec i 32), (Z.leb_spec 56 i), (Z.ltb_spec i 64); simpl; try lia;
    rewrite ?andb_true_r, ?andb_false_r, ?orb_false_r; try done; rewrite ?Hhigh by lia; done.
Qed.

Lemma pack_clear v M N : 0 <= v -> v < 2 ^ 24 -> is_u 32 M -> is_u 32 N ->
  Z.land (pack v M) (unot 64 N) = pack v (Z.land M (unot 64 N)).
Proof.
  intros Hv Hv1 HM HN. apply Z.bits_inj'. intros i Hi.
  rewrite Z.land_spec, (pack_bits v M), (pack_bits v (Z.land M _)) by (auto with width; lia).
  rewrite unot_spec by lia. destruct (Z.ltb_spec i 32).
  - by rewrite Z.land_spec, unot_spec by lia.
  - rewrite (proj2 (proj1 (is_u_bits 32 N ltac:(lia)) HN) i) by lia. simpl. destruct (Z.ltb_spec i 64); [by rewrite andb_true_r|].
    rewrite andb_false_r. symmetry. destruct (decide (v = 0)) as [->|]; [by rewrite Z.bits_0|].
    apply Z.bits_above_log2; [lia|]. assert (Z.log2 v < 24) by (apply Z.log2_lt_pow2; lia). lia.
Qed.

(** What a claim writes into a slot whose marks are all gone. *)
Lemma claim_word v M cc : 0 <= v -> v + 1 < 2 ^ 24 -> is_u 32 M -> is_u 32 cc ->
  Z.lor (inc_mask (Z.lor 0 (Z.land (pack v M) CH_EP_MASK))) cc = pack (v + 1) cc.
Proof.
  intros Hv Hv1 HM Hcc. pose proof (pack_u64 v M ltac:(lia) HM) as Hu.
  assert (Z.land (pack v M) CH_EP_MASK = pack v M) as ->.
  { change CH_EP_MASK with (Z.ones 56). rewrite Z.land_ones by lia. apply Z.mod_small.
    unfold pack, is_u in *. rewrite Z.shiftl_mul_pow2 by lia. lia. }
  rewrite Z.lor_0_l. unfold inc_mask. rewrite inc_rc_pack by done.
  apply Z.bits_inj'. intros i Hi. rewrite Z.lor_spec, Z.land_spec, unot_spec, RC_MASK_bits, !pack_bits by (try done; lia).
  pose proof (proj2 (proj1 (is_u_bits 32 cc ltac:(lia)) Hcc)) as Hh.
  destruct (Z.ltb_spec i 32); simpl; [by rewrite !andb_false_r|]. rewrite Hh, orb_false_r by lia.
  destruct (Z.ltb_spec i 64); simpl; [by rewrite andb_true_r|]. rewrite andb_false_r. symmetry.
  apply Z.bits_above_log2; [lia|]. assert (Z.log2 (v + 1) < 24) by (apply Z.log2_lt_pow2; lia). lia.
Qed.

(** ** Marks as masks *)

Definition mask_of (f : Z -> bool) : Z :=
  foldr (fun j m => if f j then Z.lor m (2 ^ j) else m) 0 (seqZ 0 32).

Lemma mask_of_bits f i : 0 <= i -> Z.testbit (mask_of f) i = (i <? 32) && f i.
Proof.
  intros Hi. unfold mask_of.
  assert (forall l : list Z, (forall j, j ∈ l -> 0 <= j) ->
    Z.testbit (foldr (fun j m => if f j then Z.lor m (2 ^ j) else m) 0 l) i = bool_decide (i ∈ l) && f i) as Hfold.
  { induction l as [|j l IH]; intros Hl; cbn [foldr].
    - rewrite Z.bits_0. rewrite bool_decide_false; [done|apply not_elem_of_nil].
    - assert (0 <= j) as Hj0 by (apply Hl; left). specialize (IH ltac:(intros k Hk; apply Hl; by right)).
      destruct (f j) eqn:Ej; rewrite ?Z.lor_spec, ?Z.pow2_bits_eqb by lia; rewrite IH.
      + destruct (Z.eqb_spec j i) as [->|Hne].
        * rewrite Ej, orb_true_r. rewrite bool_decide_true; [done|left].
        * rewrite orb_false_r. f_equal. apply bool_decide_ext. rewrite elem_of_cons. split; [by right|by intros [->|]].
      + destruct (decide (i = j)) as [->|Hne]; [by rewrite Ej, !andb_false_r|].
        f_equal. apply bool_decide_ext. rewrite elem_of_cons. split; [by right|by intros [->|]]. }
  rewrite Hfold; [|intros j; rewrite elem_of_seqZ; lia]. f_equal.
  destruct (Z.ltb_spec i 32); [apply bool_decide_true|apply bool_decide_false]; rewrite elem_of_seqZ; lia.
Qed.

Lemma mask_of_u f : is_u 32 (mask_of f).
Proof.
  apply is_u_bits; [lia|]. split.
  - apply Z.bits_iff_nonneg_ex. exists 32. intros m Hm. rewrite mask_of_bits by lia.
    by destruct (Z.ltb_spec m 32); [lia|].
  - intros i Hi. rewrite mask_of_bits by lia. by destruct (Z.ltb_spec i 32); [lia|].
Qed.
#[export] Hint Resolve mask_of_u : width.

Lemma mask_of_ext f g : (forall j, 0 <= j < 32 -> f j = g j) -> mask_of f = mask_of g.
Proof.
  intros H. apply Z.bits_inj'. intros i Hi. rewrite !mask_of_bits by done.
  destruct (Z.ltb_spec i 32); simpl; [apply H; lia|done].
Qed.

(** ** The log *)

(** One fragment: which message of which identity it belongs to, and its place in it. *)
Record piece := mk_piece { pc_cc : Z; pc_id : Z; pc_data : list Z; pc_idx : nat }.

Definition piece_frag (pc : piece) : option (Z * list Z) := fragments (pc_data pc) !! pc_idx pc.

(** The slot carries the fragment. *)
Definition carries (pc : piece) (d : list Z) : Prop :=
  exists d0 fr, length d0 = 80%nat /\ piece_frag pc = Some fr /\
    d = write_msg d0 (pc_cc pc) (pc_id pc) (fst fr) false (snd fr).

(** The fragments of a message. *)
Definition pieces (cid i : Z) (d : list Z) : list piece := mk_piece cid i d <$> seq 0 (length (fragments d)).

(** The log, with the writer of each entry. *)
Abbreviation log := (list (nat * piece)).

Definition by_writer (j : nat) (H : log) : list piece :=
  snd <$> filter (fun e => e.1 = j) H.

Definition with_id (i : Z) (l : list piece) : list piece := filter (fun pc => pc_id pc = i) l.

(** Fragments of one message follow one another, and an id stands for one message. *)
Definition orderly (l : list piece) : Prop :=
  forall p pc, l !! p = Some pc ->
    pc_idx pc = length (with_id (pc_id pc) (take p l)) /\
    forall p' pc', l !! p' = Some pc' -> pc_id pc' = pc_id pc -> pc_data pc' = pc_data pc /\ pc_cc pc' = pc_cc pc.

Lemma pieces_lookup cid i d k : (k < length (fragments d))%nat -> pieces cid i d !! k = Some (mk_piece cid i d k).
Proof. intros Hk. unfold pieces. rewrite list_lookup_fmap, lookup_seq_lt by done. done. Qed.

Lemma length_pieces cid i d : length (pieces cid i d) = length (fragments d).
Proof. unfold pieces. by rewrite length_fmap, length_seq. Qed.

Lemma frags_from_drop d n k :
  (64 * n + 64 * k <= length d < 64 * n + 64 * k + 64)%nat -> frags_from k d (64 * n) = drop n (fragments d).
Proof.
  intros Hk. unfold fragments.
  assert (forall n k off, (off + 64 * (n + k) <= length d)%nat -> drop n (frags_from (n + k) d off) = frags_from k d (off + 64 * n)) as Hd.
  { induction n0 as [|n0 IH]; intros k0 off Hl; cbn [Nat.add frags_from drop]; [rewrite drop_0; f_equal; lia|]. rewrite IH by lia. f_equal. lia. }
  replace (length d / 64)%nat with (n + k)%nat; [by rewrite Hd by lia|].
  apply (Nat.div_unique _ _ _ (length d - 64 * (n + k))); lia.
Qed.

Lemma lookup_head_drop {A} (l : list A) n : l !! n = drop n l !! 0%nat.
Proof. by rewrite lookup_drop, Nat.add_0_r. Qed.

(** ** Reassembly from a log *)

Lemma length_frags_from k d off : (off + 64 * k <= length d < off + 64 * k + 64)%nat ->
  (length d - off <= 64 * length (frags_from k d off) < length d - off + 64)%nat.
Proof.
  revert off. induction k as [|k IH]; intros off Hk; cbn [frags_from].
  - destruct (Z.ltb_spec 0 (Z.of_nat (length d) - Z.of_nat off)); cbn [length]; lia.
  - specialize (IH (off + 64)%nat ltac:(lia)). cbn [length]. lia.
Qed.

Lemma fragment_at d k fr : fragments d !! k = Some fr ->
  (64 * k < length d)%nat /\ fr.1 = Z.of_nat (length d) - Z.of_nat (64 * k) - 64 /\
  take (64 * k) d ++ fr.2 = take (64 * k + length fr.2) d /\ (0 < length fr.2 <= 64)%nat /\
  ((64 * k + length fr.2 = length d /\ S k = length (fragments d)) \/
   (length fr.2 = 64 /\ 64 * k + 64 < length d /\ S k < length (fragments d)))%nat.
Proof.
  intros Hk. apply lookup_lt_Some in Hk as Hlt. pose proof (fragments_size d) as Hsz.
  pose proof (length_frags_from _ _ _ Hsz) as Hlen. change (frags_from _ d 0) with (fragments d) in Hlen.
  assert (64 * k < length d)%nat as Hlo by lia.
  set (k' := (length d / 64 - k)%nat). assert (64 * k + 64 * k' <= length d < 64 * k + 64 * k' + 64)%nat as Hk' by (unfold k'; lia).
  pose proof (frags_from_drop d k k' Hk') as Ed.
  destruct (frags_from_head k' d (64 * k) Hk' Hlo) as (frag & rest & E & Hf & Hl & Hcase).
  rewrite lookup_head_drop, <- Ed, E in Hk. simplify_eq/=. split; [done|]. split; [done|]. split; [done|]. split; [done|].
  assert (length (fragments d) = S k + length rest)%nat as Er.
  { pose proof (f_equal length Ed) as El. rewrite E, length_drop in El. simpl in El. lia. }
  destruct Hcase as [[? ->]|(H64 & ? & k2 & -> & ->)]; [left; simpl in Er; lia|right].
  split; [done|]. split; [lia|]. pose proof (length_frags_from k2 d (64 * k + 64) ltac:(lia)). lia.
Qed.

Lemma fragment_well_formed d k fr : Z.of_nat (length d) < 2 ^ 31 -> fragments d !! k = Some fr -> well_formed fr.
Proof.
  intros Hd Hk. apply fragment_at in Hk as (Hlt & E & _ & Hl & Hcase). split; [lia|].
  destruct (Z.leb_spec fr.1 0), Hcase as [[? _]|(? & ? & _)]; lia.
Qed.

(** The messages whose last fragment is in the list, in the order of these fragments. *)
Definition completed (l : list piece) : list (list Z) :=
  pc_data <$> filter (fun pc => S (pc_idx pc) = length (fragments (pc_data pc))) l.

Lemma completed_app l l' : completed (l ++ l') = completed l ++ completed l'.
Proof. unfold completed. by rewrite filter_app, fmap_app. Qed.

Lemma completed_one pc : completed [pc] = if decide (S (pc_idx pc) = length (fragments (pc_data pc))) then [pc_data pc] else [].
Proof. unfold completed. rewrite filter_cons, filter_nil. by destruct (decide _). Qed.

(** What the receiver has cached after the fragments of [l]: the messages begun and not finished. *)
Definition cache_ok (cache : gmap Z (Z * list Z)) (l : list piece) : Prop := forall id,
  (with_id id l = [] -> cache !! id = None) /\
  forall pc, pc ∈ l -> pc_id pc = id ->
    if decide (length (with_id id l) < length (fragments (pc_data pc)))%nat
    then cached cache id (pc_data pc) (64 * length (with_id id l)) else cache !! id = None.

Lemma with_id_snoc i l pc : with_id i (l ++ [pc]) = with_id i l ++ (if decide (pc_id pc = i) then [pc] else []).
Proof. unfold with_id. rewrite filter_app, filter_cons, filter_nil. done. Qed.

(** The offset the receiver has reached of the message the next fragment belongs to. *)
Lemma cache_ready cache l pc fr : orderly (l ++ [pc]) -> piece_frag pc = Some fr -> cache_ok cache l ->
  cached cache (pc_id pc) (pc_data pc) (64 * pc_idx pc).
Proof.
  intros Hord Hfr Hc. apply lookup_lt_Some in Hfr. destruct (Hc (pc_id pc)) as [Hnone Hsome].
  destruct (Hord (length l) pc) as [Ei Hsame]; [by apply list_lookup_middle|].
  rewrite take_app_length in Ei. rewrite Ei in *.
  destruct (with_id (pc_id pc) l) as [|pc' rest] eqn:Ew; [by apply Hnone|].
  assert (pc' ∈ l /\ pc_id pc' = pc_id pc) as [Hin Eid].
  { assert (pc' ∈ with_id (pc_id pc) l) as [? ?]%list_elem_of_filter by (rewrite Ew; left). done. }
  apply list_elem_of_lookup_1 in Hin as Hin'. destruct Hin' as [p Hp].
  destruct (Hsame p pc') as [Ed _]; [by apply lookup_app_l_Some|done|].
  specialize (Hsome pc' Hin Eid). rewrite Ed, decide_True in Hsome by done. done.
Qed.

(** The cache after one more fragment. *)
Lemma cache_ok_snoc cache cache' l pc : orderly (l ++ [pc]) -> cache_ok cache l ->
  (forall j, j <> pc_id pc -> cache' !! j = cache !! j) ->
  (if decide (S (pc_idx pc) = length (fragments (pc_data pc))) then cache' !! pc_id pc = None
   else (S (pc_idx pc) < length (fragments (pc_data pc)))%nat /\ cached cache' (pc_id pc) (pc_data pc) (64 * S (pc_idx pc))) ->
  cache_ok cache' (l ++ [pc]).
Proof.
  intros Hord Hc Hj Hcase id. destruct (Hord (length l) pc) as [Ei Hsame]; [by apply list_lookup_middle|].
  rewrite take_app_length in Ei. rewrite with_id_snoc. destruct (decide (pc_id pc = id)) as [<-|Hne].
  - split; [by destruct (with_id _ l)|]. intros pc' Hin Eid. apply list_elem_of_lookup_1 in Hin as [p Hp].
    destruct (Hsame p pc' Hp Eid) as [-> _]. rewrite length_app. cbn [length]. rewrite <- Ei, Nat.add_1_r.
    destruct (decide (S (pc_idx pc) = _)) as [E|E]; [by rewrite decide_False by lia|]. destruct Hcase. by rewrite decide_True.
  - rewrite app_nil_r. destruct (Hc id) as [Hn Hs]. split; [intros E; rewrite Hj by done; auto|].
    intros pc' [Hin|E]%elem_of_app Eid; [|apply list_elem_of_singleton in E; congruence].
    specialize (Hs pc' Hin Eid). unfold cached in *. by rewrite Hj by done.
Qed.

(** One fragment: a buffer comes out with the last one of its message, and no fragment panics. *)
Lemma assemble_piece cache l pc fr : orderly (l ++ [pc]) -> piece_frag pc = Some fr -> cache_ok cache l ->
  exists b cache', assemble_inline cache (pc_id pc) fr.1 (DATA_LENGTH + fr.1) fr.2 = Returned (b, cache') /\
    cache_ok cache' (l ++ [pc]) /\
    match b with Some b => completed [pc] = [IpcBuffer.data b] | None => completed [pc] = [] end.
Proof.
  intros Hord Hfr Hc. pose proof (cache_ready _ _ _ _ Hord Hfr Hc) as Hcd.
  apply fragment_at in Hfr as (Hlt & E1 & Hf & Hl & Hcase). rewrite completed_one.
  destruct Hcase as [[He Hn]|(H64 & Hmore & Hn)].
  - destruct (assemble_inline_last cache (pc_id pc) (pc_data pc) (64 * pc_idx pc) fr.2 fr.1 (DATA_LENGTH + fr.1))
      as (cache' & -> & H1 & H2); try done; try lia; [by rewrite Hf, He, firstn_all|].
    eexists _, cache'. split; [done|]. split; [|by rewrite decide_True].
    eapply cache_ok_snoc; try done. by rewrite decide_True.
  - destruct (assemble_inline_more cache (pc_id pc) (pc_data pc) (64 * pc_idx pc) fr.2) as (cache' & E & Hc' & Hj); try done; try lia.
    replace (Z.of_nat (length (pc_data pc)) - _ - _) with fr.1 in E by lia. rewrite E. exists None, cache'. split; [done|].
    rewrite !decide_False by lia. split; [|done]. eapply cache_ok_snoc; try done. rewrite decide_False by lia. split; [done|].
    rewrite H64 in Hc'. by replace (64 * S (pc_idx pc))%nat with (64 * pc_idx pc + 64)%nat by lia.
Qed.

(** No message in the log is empty. *)
Lemma completed_nonempty l d : d ∈ completed l -> d <> [].
Proof. unfold completed. intros (pc & -> & [E _]%list_elem_of_filter)%list_elem_of_fmap Hd. by rewrite Hd in E. Qed.

(** The buffers that are messages: [recv] returns an empty one when it times out. *)
Definition nonempty (bs : list IpcBuffer) : list (list Z) := filter (fun d => d <> []) (IpcBuffer.data <$> bs).

Lemma nonempty_cons b bs : nonempty (b :: bs) = (if decide (IpcBuffer.data b <> []) then [IpcBuffer.data b] else []) ++ nonempty bs.
Proof. unfold nonempty. csimpl. rewrite filter_cons. by destruct (decide _). Qed.

(** The log entries of a writer with identity [cid]: for each message, in order, its fragments under one id -
    all of them where [send] returned [Ok true], an initial part where it returned [Ok false]. *)
Inductive sent_as (cid : Z) : list (list Z) -> list (io_result bool) -> list piece -> Prop :=
| sent_nil : sent_as cid [] [] []
| sent_cons d msgs r rs i parts rest :
    parts `prefix_of` pieces cid i d ->
    (r = Ok true /\ parts = pieces cid i d \/ r = Ok false) ->
    sent_as cid msgs rs rest ->
    sent_as cid (d :: msgs) (r :: rs) (parts ++ rest).
