(* ===== verification/Multi.v ===== *)
(** * A multi-writer channel under interleaving

    [push_fragment_multi], [recv_multi] and the operations above them ([send],
    [recv] with [multi = true]), run by any number of writers and readers whose
    accesses interleave in any way, on a channel whose set of receivers does not
    change meanwhile.  The channel is a broadcast log: the writers' fragments are
    appended one after the other, each reader receives the log from its beginning,
    and the messages a reader gets are the messages completed in its part of it. *)
From S2P Require Import Prelude Atomics Locks Circ Abi ShmName Buffer Liveness ChunkStorage Ring Channel Fragments Route Concurrent BroadcastLog.

#[local] Arguments Nat.modulo : simpl never.
#[local] Arguments Nat.div : simpl never.

(** ** Ghost states *)

Inductive wphase :=
| WIdle
| WAt (ct : nat)
| WRc (ct : nat) (rc : Z)
| WClear (ct : nat) (rc : Z)
| WClaimed (ct : nat) (pc : piece)
| WAdvanced (ct : nat) (pc : piece)
| WWritten (ct : nat) (pc : piece).

Inductive rphase :=
| RIdle
| RSeen
| RRel (rc : Z)
| ROnly (rc : Z)
| RLast (rc : Z).

(** A writer: what it has put into the log, the message it is sending, and how many
    pushes and sends it may still make.  A reader: its bit and what it has read. *)
Inductive ghost :=
| GW (acc : list piece) (msg : option (Z * Z * list Z)) (pushes sends : nat) (ph : wphase)
| GR (q : Z) (got : list piece) (nx : option piece) (ph : rphase).

Definition pushes_left (g : ghost) : nat := match g with GW _ _ b _ _ => b | GR _ _ _ _ => 0 end.
Definition sends_left (g : ghost) : nat := match g with GW _ _ _ b _ => b | GR _ _ _ _ => 0 end.

(** The position a writer has claimed and not yet committed; the one it has claimed without
    moving the cursor on; the one whose last reader has already handed the slot on. *)
Definition busy_at (g : ghost) : option nat :=
  match g with GW _ _ _ _ (WClaimed ct _ | WAdvanced ct _ | WWritten ct _) => Some ct | _ => None end.

Definition claims_at (g : ghost) : option nat :=
  match g with GW _ _ _ _ (WClaimed ct _) => Some ct | _ => None end.

Definition hands_on (g : ghost) : option nat :=
  match g with GR _ got _ (RLast _) => Some (length got) | _ => None end.

Definition some_thread (f : ghost -> option nat) (Γ : list ghost) (p : nat) : Prop :=
  exists j g, Γ !! j = Some g /\ f g = Some p.

Abbreviation pending := (some_thread busy_at).
Abbreviation handing_on := (some_thread hands_on).

(** Readers have different bits, and writers send different messages. *)
Definition readers_distinct (Γ : list ghost) : Prop := forall j j' q got got' nx nx' ph ph',
  Γ !! j = Some (GR q got nx ph) -> Γ !! j' = Some (GR q got' nx' ph') -> j = j'.

Definition messages_distinct (Γ : list ghost) : Prop := forall j j' acc acc' c c' i d d' b1 b2 b1' b2' ph ph',
  Γ !! j = Some (GW acc (Some (c, i, d)) b1 b2 ph) -> Γ !! j' = Some (GW acc' (Some (c', i, d')) b1' b2' ph') -> j = j'.

(** Enough for the 32-bit cursor and the 24-bit generations not to wrap. *)
Definition BOUND : nat := Z.to_nat (2 ^ 26).

Lemma BOUND_val : Z.of_nat BOUND = 2 ^ 26.
Proof. unfold BOUND. by rewrite Z2Nat.id by lia. Qed.
#[global] Opaque BOUND.

Lemma filter_all {A} (P : A -> Prop) `{!forall x, Decision (P x)} (l : list A) : (forall x, x ∈ l -> P x) -> filter P l = l.
Proof.
  induction l as [|x l IH]; intros Hl; [done|]. rewrite filter_cons, decide_True by (apply Hl; left).
  f_equal. apply IH. intros y Hy. apply Hl. by right.
Qed.

(** Changing one thread's ghost state. *)
Lemma some_thread_same f Γ j g g' p : Γ !! j = Some g -> f g' = f g ->
  some_thread f (<[j := g']> Γ) p <-> some_thread f Γ p.
Proof.
  intros Hj E. split; intros (i & h & Hi & Hf).
  - apply list_lookup_insert_Some in Hi as [(<- & <- & _)|(_ & Hi)]; [exists j, g; split; [done|congruence]|by exists i, h].
  - destruct (decide (i = j)) as [->|Hne].
    + exists j, g'. split; [|congruence]. apply list_lookup_insert_eq. by eapply lookup_lt_Some.
    + exists i, h. by rewrite list_lookup_insert_ne.
Qed.

Lemma some_thread_add f Γ j g g' c p : Γ !! j = Some g -> f g = None -> f g' = Some c ->
  some_thread f (<[j := g']> Γ) p <-> some_thread f Γ p \/ p = c.
Proof.
  intros Hj E E'. split.
  - intros (i & h & Hi & Hf). apply list_lookup_insert_Some in Hi as [(<- & <- & _)|(_ & Hi)].
    + right. congruence.
    + left. by exists i, h.
  - intros [(i & h & Hi & Hf)| ->].
    + exists i, h. rewrite list_lookup_insert_ne; [done|]. intros ->. congruence.
    + exists j, g'. split; [|done]. apply list_lookup_insert_eq. by eapply lookup_lt_Some.
Qed.

Lemma some_thread_remove f Γ j g g' c p : Γ !! j = Some g -> f g = Some c -> f g' = None ->
  (forall i h, Γ !! i = Some h -> f h = Some c -> i = j) ->
  some_thread f (<[j := g']> Γ) p <-> some_thread f Γ p /\ p <> c.
Proof.
  intros Hj E E' Hu. split.
  - intros (i & h & Hi & Hf). apply list_lookup_insert_Some in Hi as [(<- & <- & _)|(Hne & Hi)]; [congruence|].
    split; [by exists i, h|]. intros ->. destruct Hne. symmetry. by eapply Hu.
  - intros [(i & h & Hi & Hf) Hp]. exists i, h. rewrite list_lookup_insert_ne; [done|]. intros ->. congruence.
Qed.

Lemma sum_list_insert (f : ghost -> nat) Γ j g g' : Γ !! j = Some g ->
  (sum_list (f <$> <[j := g']> Γ) + f g = sum_list (f <$> Γ) + f g')%nat.
Proof.
  revert j. induction Γ as [|h Γ IH]; intros [|j] Hj; simplify_eq/=; [lia|]. specialize (IH j Hj). lia.
Qed.

Section channel.
Context (t : target) (prefix name : string) (cc : Z) (offers : list (Z * list Z)).
Hypothesis cc_u : is_u 32 cc.
Hypothesis cc_some : cc <> 0.

Definition chan_ring : field world ring := ring_of (ring_shm_name t prefix name).
Definition chan_table : field world ConnLiveness := liveness_of (liveness_shm_name prefix name).
Definition chan_ids : field world Z := counter_of (msg_id_shm_name prefix name).

Definition bits_of_cc : list Z := filter (fun q => Z.testbit cc q = true) (seqZ 0 32).

(** A fragment of a message on offer: a sender's identity and what it sends. *)
Definition piece_ok (pc : piece) : Prop :=
  (pc_cc pc, pc_data pc) ∈ offers /\ is_u 32 (pc_cc pc) /\ is_u 32 (pc_id pc) /\ Z.of_nat (length (pc_data pc)) < 2 ^ 31 /\ is_Some (piece_frag pc).

(** Given how far each receiver has read: the marks left on position [p], and its generation. *)
Definition marks (cs : Z -> nat) (p : nat) : Z := mask_of (fun q => Z.testbit cc q && bool_decide (cs q <= p)%nat).

Definition cleared (cs : Z -> nat) (p : nat) : nat :=
  length (filter (fun q => p < cs q)%nat bits_of_cc).

Definition gen (cs : Z -> nat) (p : nat) : Z :=
  Z.of_nat (p / 256 * (length bits_of_cc + 1) + 1 + cleared cs p).

Definition slot_at (R : ring) (p : nat) : ChannelElemT := channel_slots R !!! index_of (Z.of_nat p).

Definition slot_ok (H : log) (cs : Z -> nat) (Γ : list ghost) (p : nat) (e : ChannelElemT) : Prop :=
  crc_ e = pack (gen cs p) (marks cs p) /\ length (cdata_ e) = 80%nat /\
  (pending Γ p -> f_ct_ e = if (p <? 256)%nat then 0 else Z.of_nat p) /\
  (~ pending Γ p -> (exists w pc, H !! p = Some (w, pc) /\ carries pc (cdata_ e)) /\
     (marks cs p = 0 \/ handing_on Γ p -> f_ct_ e = Z.of_nat p + 256) /\
     (marks cs p <> 0 -> ~ handing_on Γ p -> f_ct_ e = unot 64 (Z.of_nat p))).

(** The word read earlier is the current one or will not come back. *)
Definition seen (rc : Z) (e : ChannelElemT) : Prop := Z.shiftr rc 32 < Z.shiftr (crc_ e) 32 \/ rc = crc_ e.

Definition message_ok (H : log) (ids : nat) (j : nat) (m : option (Z * Z * list Z)) : Prop :=
  match m with
  | None => True
  | Some (c, i, d) => 0 <= i < Z.of_nat ids /\
      forall w pc, (w, pc) ∈ H -> pc_id pc = i -> w = j /\ pc_data pc = d /\ pc_cc pc = c
  end.

Definition wphase_ok (H : log) (R : ring) (j : nat) (ph : wphase) : Prop :=
  match ph with
  | WIdle => True
  | WAt ct => Z.of_nat ct <= write_cursor R
  | WRc ct rc => Z.of_nat ct <= write_cursor R /\ seen rc (slot_at R ct)
  | WClear ct rc => seen rc (slot_at R ct) /\
      (crc_ (slot_at R ct) = rc -> ct = length H /\ Z.of_nat ct = write_cursor R)
  | WClaimed ct pc => H !! ct = Some (j, pc) /\ Z.of_nat ct = write_cursor R /\ length H = S ct
  | WAdvanced ct pc => H !! ct = Some (j, pc)
  | WWritten ct pc => H !! ct = Some (j, pc) /\ carries pc (cdata_ (slot_at R ct))
  end.

Definition rphase_ok (H : log) (R : ring) (Γ : list ghost) (q : Z) (cur : nat) (ph : rphase) : Prop :=
  match ph with
  | RIdle => True
  | RSeen => (cur < length H)%nat /\ ~ pending Γ cur
  | RRel rc => (cur < length H)%nat /\ ~ pending Γ cur /\ seen rc (slot_at R cur)
  | ROnly rc | RLast rc => (cur < length H)%nat /\ ~ pending Γ cur /\ crc_ (slot_at R cur) = rc /\
      Z.land rc RC_MASK = 2 ^ q
  end.

Definition thread_ok (H : log) (cs : Z -> nat) (R : ring) (Γ : list ghost) (ids : nat) (j : nat) (g : ghost) : Prop :=
  match g with
  | GW acc m _ _ ph => acc = by_writer j H /\ message_ok H ids j m /\ wphase_ok H R j ph
  | GR q got nx ph => 0 <= q < 32 /\ Z.testbit cc q = true /\ cs q = length got /\
      (got ++ option_list nx) `prefix_of` (snd <$> H) /\ rphase_ok H R Γ q (length got) ph
  end.

(** The log's state: ring, owner table, id counter and threads agree. *)
Record log_inv (R : ring) (L : ConnLiveness) (idc : Z) (Γ : list ghost) (H : log) (cs : Z -> nat) (ids : nat) : Prop := {
  li_conn : connections R = cc;
  li_epoch : epoch R = 0;
  li_since : forall q, Z.testbit cc q = true -> so_since (L !!! q) = 0;
  li_ids : idc = Z.of_nat ids;
  li_sends : (ids + sum_list (sends_left <$> Γ) <= BOUND)%nat;
  li_pushes : (length H + sum_list (pushes_left <$> Γ) <= BOUND)%nat;
  li_idH : forall w pc, (w, pc) ∈ H -> 0 <= pc_id pc < Z.of_nat ids /\ piece_ok pc;
  li_orderly : orderly (snd <$> H);
  li_cursor : write_cursor R = Z.of_nat (length H) \/
    (write_cursor R + 1 = Z.of_nat (length H) /\
     some_thread claims_at Γ (length H - 1));
  li_cs : forall q, 0 <= q < 32 -> Z.testbit cc q = true -> (cs q <= length H <= cs q + 256)%nat;
  li_pend : forall p, pending Γ p -> (p < length H)%nat /\ forall q, 0 <= q < 32 -> Z.testbit cc q = true -> (cs q <= p)%nat;
  li_slots : forall p, (p < length H <= p + 256)%nat -> slot_ok H cs Γ p (slot_at R p);
  li_fresh : forall p, (length H <= p < 256)%nat -> crc_ (slot_at R p) = 0 /\ f_ct_ (slot_at R p) = 0 /\ length (cdata_ (slot_at R p)) = 80%nat;
  li_threads : forall j g, Γ !! j = Some g -> thread_ok H cs R Γ ids j g;
  li_bits : readers_distinct Γ;
  li_msgs : messages_distinct Γ;
}.

Definition chan_inv (w : world) (Γ : list ghost) : Prop :=
  exists H cs ids, log_inv (fget chan_ring w) (fget chan_table w) (fget chan_ids w) Γ H cs ids.

(** *** Marks and generations *)

Lemma bits_of_cc_spec q : q ∈ bits_of_cc <-> 0 <= q < 32 /\ Z.testbit cc q = true.
Proof. unfold bits_of_cc. rewrite list_elem_of_filter, elem_of_seqZ. split; intros [? ?]; (split; [lia || done|lia || done]). Qed.

Lemma bits_of_cc_NoDup : NoDup bits_of_cc.
Proof. apply NoDup_filter, NoDup_seqZ. Qed.

Lemma bits_of_cc_length : (length bits_of_cc <= 32)%nat.
Proof. unfold bits_of_cc. etransitivity; [apply length_filter|]. by rewrite length_seqZ. Qed.

Lemma marks_bits cs p q : 0 <= q -> Z.testbit (marks cs p) q = Z.testbit cc q && bool_decide (cs q <= p)%nat.
Proof.
  intros Hq. unfold marks. rewrite mask_of_bits by done. destruct (Z.ltb_spec q 32); [done|].
  by rewrite (proj2 (proj1 (is_u_bits 32 cc ltac:(lia)) cc_u) q) by lia.
Qed.

Lemma marks_u cs p : is_u 32 (marks cs p).
Proof. apply mask_of_u. Qed.

Lemma marks_zero cs p : marks cs p = 0 <-> forall q, 0 <= q < 32 -> Z.testbit cc q = true -> (p < cs q)%nat.
Proof.
  split.
  - intros E q Hq Hcc. assert (Z.testbit (marks cs p) q = false) as Hb by (rewrite E; apply Z.bits_0).
    rewrite marks_bits, Hcc in Hb by lia. simpl in Hb. apply bool_decide_eq_false in Hb. lia.
  - intros Hall. apply Z.bits_inj'. intros q Hq. rewrite marks_bits, Z.bits_0 by done.
    destruct (Z.testbit cc q) eqn:E; [|done]. simpl. apply bool_decide_eq_false.
    destruct (Z.ltb_spec q 32); [|by rewrite (proj2 (proj1 (is_u_bits 32 cc ltac:(lia)) cc_u) q) in E by lia].
    specialize (Hall q ltac:(lia) E). lia.
Qed.

Lemma marks_full cs p : (forall q, 0 <= q < 32 -> Z.testbit cc q = true -> (cs q <= p)%nat) -> marks cs p = cc.
Proof.
  intros Hall. apply Z.bits_inj'. intros q Hq. rewrite marks_bits by done.
  destruct (Z.testbit cc q) eqn:E; [|done]. simpl. apply bool_decide_eq_true.
  destruct (Z.ltb_spec q 32); [by apply Hall|]. by rewrite (proj2 (proj1 (is_u_bits 32 cc ltac:(lia)) cc_u) q) in E by lia.
Qed.

Lemma cleared_le cs p : (cleared cs p <= length bits_of_cc)%nat.
Proof. apply length_filter. Qed.

Lemma cleared_all cs p : marks cs p = 0 -> cleared cs p = length bits_of_cc.
Proof.
  intros Hm. unfold cleared. f_equal. apply filter_all.
  intros q [Hq Hc]%bits_of_cc_spec. by apply (proj1 (marks_zero cs p) Hm).
Qed.

Lemma cleared_none cs p : (forall q, 0 <= q < 32 -> Z.testbit cc q = true -> (cs q <= p)%nat) -> cleared cs p = 0%nat.
Proof.
  intros Hall. unfold cleared. rewrite filter_none; [done|]. intros q [Hq Hc]%bits_of_cc_spec.
  specialize (Hall q Hq Hc). lia.
Qed.

(** One more reader past [p]. *)
Definition advance (cs : Z -> nat) (q : Z) : Z -> nat := fun r => if decide (r = q) then S (cs q) else cs r.

Lemma cleared_advance cs q p : 0 <= q < 32 -> Z.testbit cc q = true ->
  cleared (advance cs q) p = if decide (cs q = p) then S (cleared cs p) else cleared cs p.
Proof.
  intros Hq Hc. unfold cleared, advance. assert (q ∈ bits_of_cc) as Hin by by apply bits_of_cc_spec.
  pose proof bits_of_cc_NoDup as Hnd. revert Hin Hnd. induction bits_of_cc as [|r l IH]; intros Hin Hnd; [by apply elem_of_nil in Hin|].
  apply NoDup_cons in Hnd as [Hr Hnd]. destruct (decide (r = q)) as [->|Hne].
  - assert (forall l' : list Z, q ∉ l' -> filter (fun r => p < (if decide (r = q) then S (cs q) else cs r))%nat l' =
      filter (fun r => p < cs r)%nat l') as Hext.
    { intros l' Hl'. apply filter_ext_in. intros x Hx. by destruct (decide (x = q)) as [->|]. }
    rewrite !filter_cons, Hext by done. destruct (decide (q = q)); [|done].
    destruct (decide (cs q = p)) as [<-|Hp].
    + destruct (decide (cs q < S (cs q))%nat); [|lia]. destruct (decide (cs q < cs q)%nat); [lia|]. done.
    + destruct (decide (p < S (cs q))%nat), (decide (p < cs q)%nat); simpl; lia.
  - apply elem_of_cons in Hin as [->|Hin]; [done|]. specialize (IH Hin Hnd).
    rewrite !filter_cons. destruct (decide (r = q)); [done|].
    destruct (decide (p < cs r)%nat); simpl; rewrite IH; by destruct (decide (cs q = p)).
Qed.

Lemma marks_advance_other cs q p : cs q <> p -> marks (advance cs q) p = marks cs p.
Proof.
  intros Hp. apply mask_of_ext. intros r Hr. f_equal. apply bool_decide_ext. unfold advance.
  destruct (decide (r = q)) as [->|]; lia.
Qed.

Lemma marks_advance_same cs q p : 0 <= q < 32 -> cs q = p ->
  marks (advance cs q) p = Z.land (marks cs p) (unot 64 (2 ^ q)).
Proof.
  intros Hq Hp. apply Z.bits_inj'. intros i Hi. rewrite Z.land_spec, !marks_bits, unot_spec, Z.pow2_bits_eqb by lia.
  unfold advance. destruct (decide (i = q)) as [->|Hne].
  - rewrite Z.eqb_refl, andb_false_r, andb_false_r. rewrite bool_decide_false by lia. by rewrite andb_false_r.
  - destruct (Z.eqb_spec q i); [lia|]. simpl. rewrite andb_true_r. destruct (Z.ltb_spec i 64); [by rewrite andb_true_r|].
    rewrite (proj2 (proj1 (is_u_bits 32 cc ltac:(lia)) cc_u) i) by lia. done.
Qed.

Lemma gen_range cs p : (p < BOUND)%nat -> 1 <= gen cs p /\ gen cs p + 1 < 2 ^ 24.
Proof.
  intros Hp. unfold gen. pose proof (cleared_le cs p). pose proof bits_of_cc_length. pose proof BOUND_val.
  rewrite !Nat2Z.inj_add, Nat2Z.inj_mul, Nat2Z.inj_div, Nat2Z.inj_add.
  assert (0 <= Z.of_nat p / Z.of_nat 256 < 2 ^ 18) as Hq.
  { split; [apply Z.div_pos; lia|]. apply Z.div_lt_upper_bound; lia. }
  split; nia.
Qed.

Lemma gen_lap cs cs' p p' : (p < p')%nat -> (p mod 256 = p' mod 256)%nat -> gen cs p < gen cs' p'.
Proof.
  intros Hlt Hmod. unfold gen. pose proof (cleared_le cs p).
  assert (p / 256 < p' / 256)%nat as Hq.
  { pose proof (Nat.div_mod_eq p 256). pose proof (Nat.div_mod_eq p' 256). lia. }
  nia.
Qed.

(** *** Slots of the ring *)

Definition upd_slot (R : ring) (p : nat) (e : ChannelElemT) : ring :=
  fset channel_slots_f (<[index_of (Z.of_nat p) := e]> (channel_slots R)) R.

Lemma index_of_nat p : index_of (Z.of_nat p) = Z.of_nat (p mod 256).
Proof. unfold index_of, wrap. by rewrite Nat2Z.inj_mod. Qed.

Lemma slot_at_mod R p p' : (p mod 256 = p' mod 256)%nat -> slot_at R p = slot_at R p'.
Proof. intros E. unfold slot_at. by rewrite !index_of_nat, E. Qed.

Lemma slot_at_upd R p e p' :
  slot_at (upd_slot R p e) p' = if decide (p mod 256 = p' mod 256)%nat then e else slot_at R p'.
Proof.
  unfold slot_at, upd_slot. simpl. rewrite !index_of_nat. destruct (decide _) as [->|Hne].
  - apply lookup_total_insert_eq.
  - apply lookup_total_insert_ne. lia.
Qed.

Lemma slot_at_upd_eq R p e : slot_at (upd_slot R p e) p = e.
Proof. rewrite slot_at_upd. by destruct (decide _). Qed.

Lemma window_unique n p p' : (p < n <= p + 256)%nat -> (p' < n <= p' + 256)%nat ->
  (p mod 256 = p' mod 256)%nat -> p = p'.
Proof. intros. pose proof (Nat.div_mod_eq p 256). pose proof (Nat.div_mod_eq p' 256). lia. Qed.

Lemma slot_at_upd_window R n p e p' : (p < n <= p + 256)%nat -> (p' < n <= p' + 256)%nat -> p' <> p ->
  slot_at (upd_slot R p e) p' = slot_at R p'.
Proof.
  intros Hp Hp' Hne. rewrite slot_at_upd. destruct (decide _) as [E|]; [|done].
  by destruct (Hne (eq_sym (window_unique n p p' Hp Hp' E))).
Qed.

Lemma slot_at_upd_fresh R n p e p' : (p < n)%nat -> (n <= p' < 256)%nat ->
  slot_at (upd_slot R p e) p' = slot_at R p'.
Proof.
  intros Hp Hp'. rewrite slot_at_upd. destruct (decide _) as [E|]; [|done].
  rewrite !Nat.mod_small in E by lia. lia.
Qed.

(** *** How facts survive *)

Lemma slot_ok_ext H H' cs Γ Γ' p e :
  (H' !! p = H !! p) -> (pending Γ' p <-> pending Γ p) -> (handing_on Γ' p <-> handing_on Γ p) ->
  slot_ok H cs Γ p e -> slot_ok H' cs Γ' p e.
Proof.
  intros EH Ep Eh (H1 & H2 & H3 & H4). split; [done|]. split; [done|]. rewrite Ep. split; [done|].
  intros Hn. rewrite EH, Eh. by apply H4.
Qed.

Lemma seen_step rc e e' : seen rc e -> crc_ e' = crc_ e \/ Z.shiftr (crc_ e) 32 < Z.shiftr (crc_ e') 32 -> seen rc e'.
Proof. intros [Hlt| ->] [E|Hlt']; unfold seen; rewrite ?E; [by left|left; lia|by right|by left]. Qed.

(** A thread keeps its role; the visible part of a ghost state. *)
Definition same_role (g g' : ghost) : Prop :=
  match g, g' with
  | GW acc m _ _ _, GW acc' m' _ _ _ => m' = m \/ m' = None
  | GR q got _ _, GR q' got' _ _ => q' = q
  | _, _ => False
  end.

Definition same_view (g g' : ghost) : Prop :=
  busy_at g' = busy_at g /\ claims_at g' = claims_at g /\ hands_on g' = hands_on g /\
  (pushes_left g' <= pushes_left g)%nat /\ (sends_left g' <= sends_left g)%nat /\ same_role g g'.

Lemma bits_insert (Γ : list ghost) j g g' :
  Γ !! j = Some g -> same_role g g' -> readers_distinct Γ -> readers_distinct (<[j := g']> Γ).
Proof.
  intros Hj Hv Hb i i' q got got' nx nx' ph ph' Hi Hi'.
  assert (forall i got nx ph, <[j := g']> Γ !! i = Some (GR q got nx ph) -> exists got0 nx0 ph0, Γ !! i = Some (GR q got0 nx0 ph0)) as Hold.
  { intros k got0 nx0 ph0 [(<- & -> & _)|(_ & Hk)]%list_lookup_insert_Some; [|eauto].
    destruct g; [done|]. simpl in Hv. subst. eauto. }
  destruct (Hold i got nx ph Hi) as (? & ? & ? & Hi0). destruct (Hold i' got' nx' ph' Hi') as (? & ? & ? & Hi0'). by eapply Hb.
Qed.

Lemma msgs_insert (Γ : list ghost) j g g' :
  Γ !! j = Some g -> same_role g g' -> messages_distinct Γ -> messages_distinct (<[j := g']> Γ).
Proof.
  intros Hj Hv Hm k k' acc acc' c c' i d d' b1 b2 b1' b2' ph ph' Hk Hk'.
  assert (forall k acc c d b1 b2 ph, <[j := g']> Γ !! k = Some (GW acc (Some (c, i, d)) b1 b2 ph) ->
    exists acc0 b10 b20 ph0, Γ !! k = Some (GW acc0 (Some (c, i, d)) b10 b20 ph0)) as Hold.
  { intros l acc0 c0 d0 b10 b20 ph0 [(<- & -> & _)|(_ & Hl)]%list_lookup_insert_Some; [|eauto 10].
    destruct g as [acc1 m1 b11 b12 ph1|]; [|done]. simpl in Hv. destruct Hv as [<-|?]; [eauto 10|done]. }
  destruct (Hold _ _ _ _ _ _ _ Hk) as (? & ? & ? & ? & Hk0). destruct (Hold _ _ _ _ _ _ _ Hk') as (? & ? & ? & ? & Hk0').
  by eapply Hm.
Qed.

(** A thread learns something or forgets it; nothing else changes. *)
Lemma inv_learn R L idc Γ H cs ids j g g' :
  log_inv R L idc Γ H cs ids -> Γ !! j = Some g -> same_view g g' -> thread_ok H cs R Γ ids j g' ->
  log_inv R L idc (<[j := g']> Γ) H cs ids.
Proof.
  intros [] Hj Hv Ht. pose proof Hv as (V1 & V2 & V3 & V4 & V5 & V6).
  pose proof (sum_list_insert sends_left Γ j g g' Hj). pose proof (sum_list_insert pushes_left Γ j g g' Hj).
  assert (forall p, pending (<[j := g']> Γ) p <-> pending Γ p) as Ep by (intros p; by apply (some_thread_same _ _ _ g)).
  assert (forall p, handing_on (<[j := g']> Γ) p <-> handing_on Γ p) as Eh by (intros p; by apply (some_thread_same _ _ _ g)).
  assert (forall i h, thread_ok H cs R Γ ids i h -> thread_ok H cs R (<[j := g']> Γ) ids i h) as Hok.
  { intros i [acc m b1 b2 ph|q got nx ph]; [done|]. simpl. intros (? & ? & ? & ? & Hph).
    repeat split; try done; [lia..|]. destruct ph; simpl in *; rewrite ?Ep; done. }
  constructor; try done.
  - lia.
  - lia.
  - destruct li_cursor0 as [?|[? ?]]; [by left|right]. split; [done|]. by apply (some_thread_same _ _ _ g).
  - intros p Hp. apply li_pend0. by apply Ep.
  - intros p Hp. eapply slot_ok_ext; eauto.
  - intros i h [(<- & <- & _)|(_ & Hi)]%list_lookup_insert_Some; [by apply Hok|]. by apply Hok, li_threads0.
  - by eapply bits_insert.
  - by eapply msgs_insert.
Qed.

(** *** The log grows *)

Lemma by_writer_snoc j i pc H : by_writer j (H ++ [(i, pc)]) = by_writer j H ++ (if decide (i = j) then [pc] else []).
Proof. unfold by_writer. rewrite filter_app, fmap_app. f_equal. rewrite filter_cons. simpl. by destruct (decide (i = j)). Qed.

Lemma with_id_by_writer j i H : (forall w pc, (w, pc) ∈ H -> pc_id pc = i -> w = j) ->
  with_id i (by_writer j H) = with_id i (snd <$> H).
Proof.
  induction H as [|[w pc] H IH]; intros Hall; [done|]. unfold by_writer, with_id in *. rewrite filter_cons. csimpl.
  specialize (IH ltac:(intros; eapply Hall; [by right|done])).
  destruct (decide (w = j)) as [->|Hne]; csimpl; rewrite !filter_cons; [by rewrite IH|].
  rewrite decide_False; [done|]. intros E. apply Hne. apply (Hall w pc); [left|done].
Qed.

Lemma orderly_snoc l pc :
  orderly l -> pc_idx pc = length (with_id (pc_id pc) l) ->
  (forall pc', pc' ∈ l -> pc_id pc' = pc_id pc -> pc_data pc' = pc_data pc /\ pc_cc pc' = pc_cc pc) ->
  orderly (l ++ [pc]).
Proof.
  intros Hl Hi Hd p x Hx.
  assert (forall p' y, (l ++ [pc]) !! p' = Some y -> pc_id y = pc_id x -> pc_data y = pc_data x /\ pc_cc y = pc_cc x) as Hcons.
  { intros p' y Hy E. apply lookup_app_Some in Hx, Hy. destruct Hx as [Hx|[? Hx]], Hy as [Hy|[? Hy]].
    - by eapply (proj2 (Hl p x Hx)).
    - apply list_lookup_singleton_Some in Hy as [_ <-].
      destruct (Hd x) as [E1 E2]; [by eapply list_elem_of_lookup_2|done|done].
    - apply list_lookup_singleton_Some in Hx as [_ <-]. apply Hd; [by eapply list_elem_of_lookup_2|done].
    - apply list_lookup_singleton_Some in Hx as [_ <-], Hy as [_ <-]. done. }
  split; [|done]. apply lookup_app_Some in Hx as [Hx|[Hp Hx]].
  - rewrite take_app_le by (apply lookup_lt_Some in Hx; lia). by apply Hl.
  - apply list_lookup_singleton_Some in Hx as [Hp' <-]. rewrite take_app_ge by lia.
    replace (p - length l)%nat with 0%nat by lia. by rewrite take_0, app_nil_r.
Qed.

Lemma cc_has_bit : exists q, 0 <= q < 32 /\ Z.testbit cc q = true.
Proof.
  destruct bits_of_cc as [|q l] eqn:E.
  - destruct cc_some. apply Z.bits_inj'. intros i Hi. rewrite Z.bits_0.
    destruct (Z.ltb_spec i 32); [|by apply (proj1 (is_u_bits 32 cc ltac:(lia)) cc_u)].
    destruct (Z.testbit cc i) eqn:Ei; [|done]. assert (i ∈ bits_of_cc) as Hin by (apply bits_of_cc_spec; split; [lia|done]).
    rewrite E in Hin. by apply elem_of_nil in Hin.
  - exists q. apply bits_of_cc_spec. rewrite E. left.
Qed.

(** The slot the next claim takes, when its marks are gone. *)
Lemma next_slot R L idc Γ H cs ids : log_inv R L idc Γ H cs ids ->
  let n := length H in
  Z.land (crc_ (slot_at R n)) RC_MASK = 0 -> (n < BOUND)%nat ->
  exists v, 0 <= v /\ crc_ (slot_at R n) = pack v 0 /\ gen cs n = v + 1 /\
    f_ct_ (slot_at R n) = (if (n <? 256)%nat then 0 else Z.of_nat n) /\ length (cdata_ (slot_at R n)) = 80%nat /\
    forall q, 0 <= q < 32 -> Z.testbit cc q = true -> (n < cs q + 256)%nat.
Proof.
  intros [] n Hm Hn.
  assert (cleared cs n = 0%nat) as Hc0 by (apply cleared_none; intros q Hq Hb; by apply li_cs0).
  destruct (Nat.ltb_spec n 256) as [Hlt|Hge].
  - destruct (li_fresh0 n ltac:(lia)) as (-> & -> & ->). exists 0. repeat split; try lia.
    + unfold gen. rewrite Hc0, Nat.div_small by lia. lia.
  - set (p := (n - 256)%nat). assert (slot_at R n = slot_at R p) as Es.
    { apply slot_at_mod. replace n with (p + 1 * 256)%nat by (unfold p; lia). by rewrite Nat.Div0.mod_add. }
    destruct (li_slots0 p ltac:(unfold p; lia)) as (Ec & El & _ & Hnp). rewrite Es in *.
    pose proof (gen_range cs p ltac:(unfold p; lia)) as Hg.
    rewrite Ec, pack_marks in Hm by (try lia; apply marks_u).
    assert (~ pending Γ p) as Hpend.
    { intros Hp. destruct (li_pend0 p Hp) as [_ Hall]. destruct cc_has_bit as (q & Hq & Hb).
      specialize (Hall q Hq Hb). pose proof (proj1 (marks_zero cs p) Hm q Hq Hb). lia. }
    destruct (Hnp Hpend) as (_ & Hf & _). specialize (Hf (or_introl Hm)).
    exists (gen cs p). rewrite Ec, Hm. repeat split; try done; try lia.
    + unfold gen. rewrite Hc0, (cleared_all cs p Hm). replace (n / 256)%nat with (p / 256 + 1)%nat; [lia|].
      replace n with (p + 1 * 256)%nat by (unfold p; lia). by rewrite Nat.div_add.
    + intros q Hq Hb. pose proof (proj1 (marks_zero cs p) Hm q Hq Hb). unfold p in *. lia.
Qed.

Definition with_rc (e : ChannelElemT) (rc : Z) : ChannelElemT := mk_ChannelElemT (cdata_ e) rc (f_ct_ e).

Lemma message_ok_snoc H ids i j pc m c k d acc b1 b2 ph Γ :
  messages_distinct Γ -> Γ !! j = Some (GW acc (Some (c, k, d)) b1 b2 ph) ->
  (exists acc' b1' b2' ph', Γ !! i = Some (GW acc' m b1' b2' ph')) ->
  pc_id pc = k -> pc_data pc = d -> pc_cc pc = c ->
  message_ok H ids i m -> message_ok (H ++ [(j, pc)]) ids i m.
Proof.
  intros Hd Hj (acc' & b1' & b2' & ph' & Hi) E1 E2 E3. destruct m as [[[c' i'] d']|]; [|done]. simpl.
  intros [? Hall]. split; [done|]. intros w x [Hx|Hx]%elem_of_app Ex; [by apply Hall|].
  apply list_elem_of_singleton in Hx. simplify_eq. assert (i = j) as -> by (by eapply Hd; eauto).
  simplify_eq. done.
Qed.

(** What the other threads know survives a step that only moves the log, the cursor and the
    words of the slots forward. *)
Lemma thread_ok_frame H H' cs cs' R R' Γ Γ' ids ids' k h :
  thread_ok H cs R Γ ids k h ->
  H `prefix_of` H' -> by_writer k H' = by_writer k H -> write_cursor R <= write_cursor R' ->
  (forall p rc, seen rc (slot_at R p) -> seen rc (slot_at R' p)) ->
  (forall p, (p < length H)%nat -> pending Γ' p -> pending Γ p) ->
  match h with
  | GW acc m b1 b2 ph =>
      (message_ok H ids k m -> message_ok H' ids' k m) /\
      match ph with
      | WClear ct rc => wphase_ok H R k ph -> crc_ (slot_at R' ct) = rc -> ct = length H' /\ Z.of_nat ct = write_cursor R'
      | WClaimed ct pc => wphase_ok H R k ph -> Z.of_nat ct = write_cursor R' /\ length H' = S ct
      | WWritten ct pc => wphase_ok H R k ph -> cdata_ (slot_at R' ct) = cdata_ (slot_at R ct)
      | _ => True
      end
  | GR q got nx ph => cs' q = cs q /\
      match ph with
      | ROnly rc | RLast rc => crc_ (slot_at R' (length got)) = crc_ (slot_at R (length got))
      | _ => True
      end
  end ->
  thread_ok H' cs' R' Γ' ids' k h.
Proof.
  intros Ht Hpre Hby Hwc Hseen Hpend Hh. pose proof (prefix_length _ _ Hpre) as Hlen.
  destruct h as [acc m b1 b2 ph|q got nx ph].
  - destruct Hh as [Hm Hph], Ht as (E & Hmsg & Hok). split; [congruence|]. split; [auto|].
    assert (forall ct x, H !! ct = Some x -> H' !! ct = Some x) as Hlook by (intros ct x Hx; by eapply prefix_lookup_Some).
    destruct ph; simpl in *; auto; try lia.
    + destruct Hok. split; [lia|auto].
    + destruct Hok as [? Hc]. split; [auto|]. intros Ec. apply Hph; auto.
    + destruct Hok as (? & ? & ?). split; [auto|]. apply Hph; auto.
    + destruct Hok as [? ?]. split; [auto|]. rewrite Hph by auto. done.
  - destruct Hh as [Hcs Hph], Ht as (Hq & Hb & E & Hg & Hok). split; [done|]. split; [done|]. split; [congruence|].
    split; [etransitivity; [done|]; destruct Hpre as [k' ->]; rewrite fmap_app; by apply prefix_app_r|].
    destruct ph; simpl in *; auto.
    + destruct Hok. split; [lia|]. auto.
    + destruct Hok as (? & ? & ?). split; [lia|]. split; auto.
    + destruct Hok as (? & ? & ? & ?). split; [lia|]. split; [auto|]. by rewrite Hph.
    + destruct Hok as (? & ? & ? & ?). split; [lia|]. split; [auto|]. by rewrite Hph.
Qed.

Lemma inv_claim R L idc Γ H cs ids j acc c i d b1 b2 ct rc :
  log_inv R L idc Γ H cs ids -> Γ !! j = Some (GW acc (Some (c, i, d)) (S b1) b2 (WClear ct rc)) ->
  crc_ (slot_at R ct) = rc -> Z.land rc RC_MASK = 0 ->
  let pc := mk_piece c i d (length (with_id i acc)) in piece_ok pc ->
  exists v, 0 <= v /\ v + 1 < 2 ^ 24 /\ rc = pack v 0 /\
    log_inv (upd_slot R ct (with_rc (slot_at R ct) (pack (v + 1) cc))) L idc
      (<[j := GW (acc ++ [pc]) (Some (c, i, d)) b1 b2 (WClaimed ct pc)]> Γ) (H ++ [(j, pc)]) cs ids.
Proof.
  intros HI Hj Hrc Hm pc Hpc. pose proof HI as [].
  destruct (li_threads0 j _ Hj) as (Eacc & [Hi Hmsg] & Hseen & Hclear).
  destruct (Hclear Hrc) as [-> Hwc]. set (n := length H) in *. clear Hclear.
  set (g := GW acc _ _ _ _) in Hj. set (g' := GW (acc ++ [pc]) _ _ _ _).
  assert (sum_list (pushes_left <$> <[j := g']> Γ) + S b1 = sum_list (pushes_left <$> Γ) + b1)%nat as Hsum
    by exact (sum_list_insert pushes_left Γ j g g' Hj).
  assert (sum_list (sends_left <$> <[j := g']> Γ) + b2 = sum_list (sends_left <$> Γ) + b2)%nat as Hsum2
    by exact (sum_list_insert sends_left Γ j g g' Hj).
  assert (n < BOUND)%nat as Hn by lia.
  pose proof (next_slot _ _ _ _ _ _ _ HI) as Hns. cbv zeta in Hns. fold n in Hns.
  destruct Hns as (v & Hv & Ev & Egen & Ef & El & Hcs); [by rewrite Hrc|done|].
  pose proof (gen_range cs n Hn) as Hg.
  exists v. split; [done|]. split; [lia|]. split; [congruence|].
  set (e := slot_at R n) in *. set (R' := upd_slot R n _).
  assert (forall p, pending (<[j := g']> Γ) p <-> pending Γ p \/ p = n) as Ep by (intros p; by apply (some_thread_add _ _ _ g)).
  assert (forall p, handing_on (<[j := g']> Γ) p <-> handing_on Γ p) as Eh by (intros p; by apply (some_thread_same _ _ _ g)).
  assert (~ pending Γ n) as Hnp by (intros Hp; destruct (li_pend0 n Hp); lia).
  assert (forall p, crc_ (slot_at R' p) = crc_ (slot_at R p) /\ (p mod 256 <> n mod 256)%nat \/
    (p mod 256 = n mod 256)%nat /\ Z.shiftr (crc_ (slot_at R p)) 32 < Z.shiftr (crc_ (slot_at R' p)) 32) as Hcrc.
  { intros p. unfold R'. rewrite slot_at_upd. destruct (decide _) as [E|E]; [right|left; split; [done|congruence]].
    split; [done|]. rewrite (slot_at_mod R p n) by done. fold e. simpl. rewrite Ev, !pack_gen by (try done; try lia; unfold is_u; lia). lia. }
  assert (forall p, cdata_ (slot_at R' p) = cdata_ (slot_at R p)) as Hdata.
  { intros p. unfold R'. rewrite slot_at_upd. destruct (decide _) as [E|E]; [|done]. by rewrite (slot_at_mod R p n). }
  assert (forall p rc', seen rc' (slot_at R p) -> seen rc' (slot_at R' p)) as Hseen'.
  { intros p rc' Hs. eapply seen_step; [done|]. destruct (Hcrc p) as [[? _]|[_ ?]]; auto. }
  constructor; try done.
  - lia.
  - rewrite length_app. simpl. fold n. lia.
  - intros w x [Hx|Hx]%elem_of_app; [by eapply li_idH0|]. apply list_elem_of_singleton in Hx. simplify_eq. done.
  - rewrite fmap_app. apply orderly_snoc; [done| |].
    + subst pc. simpl. rewrite Eacc. f_equal. apply with_id_by_writer. intros w x Hx Ex. by eapply Hmsg.
    + intros x Hx Ex. apply list_elem_of_fmap in Hx as ([w y] & -> & Hy). simpl in *. destruct (Hmsg w y Hy Ex) as (_ & ? & ?). done.
  - right. rewrite length_app. simpl. fold n. split; [lia|]. exists j, g'. rewrite list_lookup_insert_eq by (by eapply lookup_lt_Some).
    split; [done|]. simpl. f_equal. lia.
  - intros q Hq Hb. rewrite length_app. simpl. fold n. specialize (li_cs0 q Hq Hb). specialize (Hcs q Hq Hb). lia.
  - intros p [Hp| ->]%Ep; rewrite length_app; simpl; fold n.
    + destruct (li_pend0 p Hp). split; [lia|done].
    + split; [lia|]. intros q Hq Hb. by apply li_cs0.
  - intros p Hp. rewrite length_app in Hp. simpl in Hp. fold n in Hp. destruct (decide (p = n)) as [->|Hne].
    + unfold R'. rewrite slot_at_upd_eq. split; [|split; [|split]].
      * simpl. rewrite Egen, marks_full; [done|]. intros q Hq Hb. by apply li_cs0.
      * done.
      * intros _. exact Ef.
      * intros Hx. destruct Hx. apply Ep. by right.
    + assert (slot_at R' p = slot_at R p) as ->.
      { unfold R'. rewrite slot_at_upd. destruct (decide _) as [E|]; [|done].
        pose proof (Nat.div_mod_eq p 256). pose proof (Nat.div_mod_eq n 256). lia. }
      eapply slot_ok_ext; [..|apply li_slots0; fold n; lia].
      * apply lookup_app_l. fold n. lia.
      * rewrite Ep. split; [by intros [?|?]|by left].
      * apply Eh.
  - intros p Hp. rewrite length_app in Hp. simpl in Hp. unfold R'. rewrite slot_at_upd_fresh with (n := S n) by (fold n in Hp; lia).
    apply li_fresh0. fold n in Hp. lia.
  - intros k h [(<- & <- & _)|(Hkj & Hk)]%list_lookup_insert_Some.
    + split; [|split].
      * rewrite by_writer_snoc, decide_True by done. by rewrite Eacc.
      * apply (message_ok_snoc H ids j j pc _ c i d acc (S b1) b2 _ Γ li_msgs0 Hj); [repeat eexists; exact Hj|done..|by split].
      * simpl. rewrite length_app. simpl. split; [by apply list_lookup_middle|]. split; [done|]. fold n. lia.
    + apply (thread_ok_frame H _ cs _ R _ Γ _ ids); auto.
      { by apply prefix_app_r. } { rewrite by_writer_snoc, decide_False by done. by rewrite app_nil_r. } { done. }
      { intros p Hp [?| ->]%Ep; [done|]. fold n in Hp. lia. }
      destruct h as [acc1 m1 b11 b12 ph1|q got nx1 ph1].
      * split; [apply (message_ok_snoc H ids k j pc _ c i d acc (S b1) b2 _ Γ li_msgs0 Hj); [repeat eexists; exact Hk|done..]|].
        destruct ph1 as [|ct1|ct1 rc1|ct1 rc1|ct1 pc1|ct1 pc1|ct1 pc1]; try done.
        -- intros [Hs1 Hc1] E. exfalso. destruct (Hcrc ct1) as [[E2 Hne]|[E2 Hlt]].
           ++ rewrite E2 in E. by destruct (Hc1 E) as [-> _].
           ++ rewrite <- E in Hs1. destruct Hs1 as [Hs1|Hs1]; [lia|]. rewrite Hs1 in Hlt. lia.
        -- simpl. lia.
      * split; [done|]. destruct ph1; try done.
        all: destruct (li_threads0 k _ Hk) as (Hq & Hb & Ecs & _ & Hlt & _); destruct (Hcrc (length got)) as [[-> _]|[E5 _]]; [done|]; exfalso; fold n in Hlt;
          specialize (Hcs q Hq Hb); pose proof (Nat.div_mod_eq (length got) 256); pose proof (Nat.div_mod_eq n 256); lia.
  - eapply bits_insert; [done| |done]. by left.
  - eapply msgs_insert; [done| |done]. by left.
Qed.

(** The writer of a claimed position is the only one there. *)
Lemma busy_unique R L idc Γ H cs ids j g c : log_inv R L idc Γ H cs ids ->
  Γ !! j = Some g -> busy_at g = Some c -> forall i h, Γ !! i = Some h -> busy_at h = Some c -> i = j.
Proof.
  intros [] Hj Hb i h Hi Hb'.
  assert (forall k x, Γ !! k = Some x -> busy_at x = Some c -> exists pc, H !! c = Some (k, pc)) as Hk.
  { intros k x Hk Hx. specialize (li_threads0 k x Hk). destruct x as [acc m b1 b2 ph|]; [|done].
    destruct li_threads0 as (_ & _ & Hp). destruct ph; simplify_eq/=; destruct_and?; eauto. }
  destruct (Hk i h Hi Hb') as [pc E], (Hk j g Hj Hb) as [pc' E']. congruence.
Qed.

Definition set_cursor (R : ring) (v : Z) : ring := fset write_cursor_f v R.

Lemma inv_advance R L idc Γ H cs ids j acc m b1 b2 ct pc :
  log_inv R L idc Γ H cs ids -> Γ !! j = Some (GW acc m b1 b2 (WClaimed ct pc)) ->
  log_inv (set_cursor R (Z.of_nat ct + 1)) L idc (<[j := GW acc m b1 b2 (WAdvanced ct pc)]> Γ) H cs ids.
Proof.
  intros HI Hj. pose proof HI as []. destruct (li_threads0 j _ Hj) as (Eacc & Hmsg & Hct & Hwc & Hlen).
  set (g := GW acc _ _ _ _) in Hj. set (g' := GW acc _ _ _ _).
  assert (forall p, pending (<[j := g']> Γ) p <-> pending Γ p) as Ep by (intros p; by apply (some_thread_same _ _ _ g)).
  assert (forall p, handing_on (<[j := g']> Γ) p <-> handing_on Γ p) as Eh by (intros p; by apply (some_thread_same _ _ _ g)).
  pose proof (sum_list_insert sends_left Γ j g g' Hj). pose proof (sum_list_insert pushes_left Γ j g g' Hj).
  constructor; try done.
  - simpl in *. lia.
  - simpl in *. lia.
  - left. simpl. lia.
  - intros p Hp. apply li_pend0. by apply Ep.
  - intros p Hp. eapply slot_ok_ext; eauto.
  - intros k h [(<- & <- & _)|(Hkj & Hk)]%list_lookup_insert_Some; [done|].
    apply (thread_ok_frame H _ cs _ R _ Γ _ ids); auto; [simpl; lia|intros p _; by rewrite Ep|].
    destruct h as [acc1 m1 b11 b12 ph1|q got nx1 ph1]; (split; [done|]); destruct ph1 as [| | |ct1 rc1|ct1 pc1| |] || destruct ph1; try done.
    + intros [_ Hc] E. destruct (Hc E) as [-> ?]. lia.
    + intros (E1 & E2 & _). assert (ct1 = ct) as -> by lia. congruence.
  - eapply bits_insert; [done| |done]. by left.
  - eapply msgs_insert; [done| |done]. by left.
Qed.

(** Changing the contents of a slot, not its word. *)
Lemma upd_same_crc R p e : crc_ e = crc_ (slot_at R p) -> forall p', crc_ (slot_at (upd_slot R p e) p') = crc_ (slot_at R p').
Proof. intros E p'. rewrite slot_at_upd. destruct (decide _) as [Ep|]; [|done]. rewrite E. by rewrite (slot_at_mod R p' p). Qed.

Definition with_data (e : ChannelElemT) (d : list Z) : ChannelElemT := mk_ChannelElemT d (crc_ e) (f_ct_ e).
Definition with_flag (e : ChannelElemT) (fl : Z) : ChannelElemT := mk_ChannelElemT (cdata_ e) (crc_ e) fl.

(** A busy position is in the window. *)
Lemma busy_window R L idc Γ H cs ids p : log_inv R L idc Γ H cs ids -> pending Γ p -> (p < length H <= p + 256)%nat.
Proof.
  intros [] Hp. destruct (li_pend0 p Hp) as [Hlt Hall]. split; [done|].
  destruct cc_has_bit as (q & Hq & Hb). specialize (Hall q Hq Hb). specialize (li_cs0 q Hq Hb). lia.
Qed.

Lemma inv_write R L idc Γ H cs ids j acc m b1 b2 ct pc d :
  log_inv R L idc Γ H cs ids -> Γ !! j = Some (GW acc m b1 b2 (WAdvanced ct pc)) ->
  carries pc d -> length d = 80%nat ->
  log_inv (upd_slot R ct (with_data (slot_at R ct) d)) L idc (<[j := GW acc m b1 b2 (WWritten ct pc)]> Γ) H cs ids.
Proof.
  intros HI Hj Hcar Hd. pose proof HI as []. destruct (li_threads0 j _ Hj) as (Eacc & Hmsg & Hct).
  set (g := GW acc _ _ _ _) in Hj. set (g' := GW acc _ _ _ _). set (R' := upd_slot R ct _).
  assert (forall p, pending (<[j := g']> Γ) p <-> pending Γ p) as Ep by (intros p; by apply (some_thread_same _ _ _ g)).
  assert (forall p, handing_on (<[j := g']> Γ) p <-> handing_on Γ p) as Eh by (intros p; by apply (some_thread_same _ _ _ g)).
  pose proof (sum_list_insert sends_left Γ j g g' Hj). pose proof (sum_list_insert pushes_left Γ j g g' Hj).
  assert (pending Γ ct) as Hpct by (by exists j, g).
  pose proof (busy_window _ _ _ _ _ _ _ ct HI Hpct) as Hwin.
  assert (forall p, crc_ (slot_at R' p) = crc_ (slot_at R p)) as Hcrc by by apply upd_same_crc.
  constructor; try done.
  - simpl in *. lia.
  - simpl in *. lia.
  - destruct li_cursor0 as [?|[? ?]]; [by left|right]. split; [done|]. by apply (some_thread_same _ _ _ g).
  - intros p Hp. apply li_pend0. by apply Ep.
  - intros p Hp. eapply slot_ok_ext; [done|apply Ep|apply Eh|]. destruct (decide (p = ct)) as [->|Hne].
    + unfold R'. rewrite slot_at_upd_eq. destruct (li_slots0 ct Hwin) as (E1 & E2 & E3 & E4).
      split; [done|]. split; [done|]. split; [done|]. by intros Hnp.
    + unfold R'. rewrite (slot_at_upd_window R (length H)) by done. by apply li_slots0.
  - intros p Hp. unfold R'. rewrite (slot_at_upd_fresh R (length H)) by lia. by apply li_fresh0.
  - intros k h [(<- & <- & _)|(Hkj & Hk)]%list_lookup_insert_Some.
    { split; [done|]. split; [done|]. split; [done|]. unfold R'. by rewrite slot_at_upd_eq. }
    apply (thread_ok_frame H _ cs _ R _ Γ _ ids); auto; [done|intros p rc Hs; eapply seen_step; eauto|intros p _; by rewrite Ep|].
    destruct h as [acc1 m1 b11 b12 ph1|q got nx1 ph1]; (split; [done|]).
    + destruct ph1 as [| | |ct1 rc1|ct1 pc1| |ct1 pc1]; try done.
      * rewrite Hcrc. by intros [_ Hc].
      * by intros (_ & ? & ?).
      * intros (E1 & _). assert (ct1 <> ct) as Hne by congruence. unfold R'.
        rewrite (slot_at_upd_window R (length H)); [done|done| |done].
        by eapply busy_window; [|exists k, (GW acc1 m1 b11 b12 (WWritten ct1 pc1))].
    + by destruct ph1.
  - eapply bits_insert; [done| |done]. by left.
  - eapply msgs_insert; [done| |done]. by left.
Qed.

Lemma inv_commit R L idc Γ H cs ids j acc m b1 b2 ct pc :
  log_inv R L idc Γ H cs ids -> Γ !! j = Some (GW acc m b1 b2 (WWritten ct pc)) ->
  log_inv (upd_slot R ct (with_flag (slot_at R ct) (unot 64 (Z.of_nat ct)))) L idc (<[j := GW acc m b1 b2 WIdle]> Γ) H cs ids.
Proof.
  intros HI Hj. pose proof HI as []. destruct (li_threads0 j _ Hj) as (Eacc & Hmsg & Hct & Hcar).
  set (g := GW acc _ _ _ _) in Hj. set (g' := GW acc _ _ _ _). set (R' := upd_slot R ct _).
  assert (forall p, pending (<[j := g']> Γ) p <-> pending Γ p /\ p <> ct) as Ep.
  { intros p. apply (some_thread_remove _ _ _ g); try done. by eapply busy_unique. }
  assert (forall p, handing_on (<[j := g']> Γ) p <-> handing_on Γ p) as Eh by (intros p; by apply (some_thread_same _ _ _ g)).
  pose proof (sum_list_insert sends_left Γ j g g' Hj). pose proof (sum_list_insert pushes_left Γ j g g' Hj).
  assert (pending Γ ct) as Hpct by (by exists j, g).
  pose proof (busy_window _ _ _ _ _ _ _ ct HI Hpct) as Hwin.
  assert (forall p, crc_ (slot_at R' p) = crc_ (slot_at R p)) as Hcrc by by apply upd_same_crc.
  assert (~ handing_on Γ ct) as Hnh.
  { intros (k & h & Hk & Hh). destruct h as [|q got nx ph]; [done|]. destruct (li_threads0 k _ Hk) as (_ & _ & _ & _ & Hp).
    destruct ph; simplify_eq/=. by destruct Hp as (_ & ? & _). }
  assert (forall p, cdata_ (slot_at R' p) = cdata_ (slot_at R p)) as Hdata.
  { intros p. unfold R'. rewrite slot_at_upd. destruct (decide _) as [E|E]; [|done]. by rewrite (slot_at_mod R p ct). }
  constructor; try done.
  - simpl in *. lia.
  - simpl in *. lia.
  - destruct li_cursor0 as [?|[? ?]]; [by left|right]. split; [done|]. by apply (some_thread_same _ _ _ g).
  - intros p [Hp _]%Ep. by apply li_pend0.
  - intros p Hp. destruct (decide (p = ct)) as [->|Hne].
    + unfold R'. rewrite slot_at_upd_eq. destruct (li_slots0 ct Hwin) as (E1 & E2 & _ & _).
      split; [done|]. split; [done|]. split; [intros [_ ?]%Ep; done|]. intros _. split; [by exists j, pc|].
      rewrite marks_full by (intros q Hq Hb; by apply (li_pend0 ct Hpct)). rewrite Eh. split; [by intros [?|?]|done].
    + unfold R'. rewrite (slot_at_upd_window R (length H)) by done. eapply slot_ok_ext; [done| |apply Eh|by apply li_slots0].
      rewrite Ep. split; [by intros [? _]|done].
  - intros p Hp. unfold R'. rewrite (slot_at_upd_fresh R (length H)) by lia. by apply li_fresh0.
  - intros k h [(<- & <- & _)|(Hkj & Hk)]%list_lookup_insert_Some; [done|].
    apply (thread_ok_frame H _ cs _ R _ Γ _ ids); auto; [done|intros p rc Hs; eapply seen_step; eauto|intros p _; by intros [? _]%Ep|].
    destruct h as [acc1 m1 b11 b12 ph1|q got nx1 ph1]; (split; [done|]).
    + destruct ph1 as [| | |ct1 rc1|ct1 pc1| |ct1 pc1]; try done.
      * rewrite Hcrc. by intros [_ Hc].
      * by intros (_ & ? & ?).
    + by destruct ph1.
  - eapply bits_insert; [done| |done]. by left.
  - eapply msgs_insert; [done| |done]. by left.
Qed.

(** The last reader of a position hands its slot on before it clears its mark. *)
Lemma inv_last R L idc Γ H cs ids j q got nx rc ph :
  log_inv R L idc Γ H cs ids -> Γ !! j = Some (GR q got nx ph) -> ph = ROnly rc \/ ph = RLast rc ->
  let cur := length got in
  log_inv (upd_slot R cur (with_flag (slot_at R cur) (Z.of_nat cur + 256))) L idc (<[j := GR q got nx (RLast rc)]> Γ) H cs ids.
Proof.
  intros HI Hj Hph cur. pose proof HI as []. destruct (li_threads0 j _ Hj) as (Hq & Hb & Ecs & Hpre & Hpok).
  assert (rphase_ok H R Γ q (length got) (RLast rc)) as (Hcur & Hnp & Hrc & Hm) by (destruct Hph as [->| ->]; exact Hpok).
  set (g := GR q got _ _) in Hj. set (g' := GR q got _ _). set (R' := upd_slot R cur _).
  assert (forall p, pending (<[j := g']> Γ) p <-> pending Γ p) as Ep by (intros p; by apply (some_thread_same _ _ _ g)).
  assert (forall p, handing_on (<[j := g']> Γ) p <-> handing_on Γ p \/ p = cur) as Eh.
  { intros p. destruct Hph as [->| ->]; [by apply (some_thread_add _ _ _ g)|].
    rewrite (some_thread_same _ _ _ g) by done. split; [by left|]. intros [?| ->]; [done|by exists j, g]. }
  pose proof (sum_list_insert sends_left Γ j g g' Hj). pose proof (sum_list_insert pushes_left Γ j g g' Hj).
  assert (cur < length H <= cur + 256)%nat as Hwin by (specialize (li_cs0 q Hq Hb); unfold cur in *; lia).
  assert (forall p, crc_ (slot_at R' p) = crc_ (slot_at R p)) as Hcrc by by apply upd_same_crc.
  assert (forall p, cdata_ (slot_at R' p) = cdata_ (slot_at R p)) as Hdata.
  { intros p. unfold R'. rewrite slot_at_upd. destruct (decide _) as [E|E]; [|done]. by rewrite (slot_at_mod R p cur). }
  constructor; try done.
  - simpl in *. lia.
  - simpl in *. lia.
  - destruct li_cursor0 as [?|[? ?]]; [by left|right]. split; [done|]. by apply (some_thread_same _ _ _ g).
  - intros p Hp. apply li_pend0. by apply Ep.
  - intros p Hp. destruct (decide (p = cur)) as [->|Hne].
    + unfold R'. rewrite slot_at_upd_eq. destruct (li_slots0 cur Hwin) as (E1 & E2 & _ & E4).
      destruct (E4 Hnp) as (Hcar & _). split; [done|]. split; [done|]. split; [by intros ?%Ep|]. intros _. split; [done|].
      split; [done|]. intros _ Hx. destruct Hx. apply Eh. by right.
    + unfold R'. rewrite (slot_at_upd_window R (length H)) by done. eapply slot_ok_ext; [done|apply Ep| |by apply li_slots0].
      rewrite Eh. split; [by intros [?|?]|by left].
  - intros p Hp. unfold R'. rewrite (slot_at_upd_fresh R (length H)) by lia. by apply li_fresh0.
  - intros k h [(<- & <- & _)|(Hkj & Hk)]%list_lookup_insert_Some.
    { split; [done|]. split; [done|]. split; [done|]. split; [done|]. split; [done|]. rewrite Ep. split; [done|]. by rewrite Hcrc. }
    apply (thread_ok_frame H _ cs _ R _ Γ _ ids); auto; [done|intros p rc' Hs; eapply seen_step; eauto|intros p _; by rewrite Ep|].
    destruct h as [acc1 m1 b11 b12 ph1|q1 got1 nx1 ph1]; (split; [done|]).
    + destruct ph1 as [| | |ct1 rc1|ct1 pc1| |ct1 pc1]; try done.
      * rewrite Hcrc. by intros [_ Hc].
      * by intros (_ & ? & ?).
    + by destruct ph1.
  - eapply bits_insert; done.
  - eapply msgs_insert; done.
Qed.

Lemma land_eq_pow2 M q : 0 <= q -> Z.testbit M q = true -> Z.land M (unot 64 (2 ^ q)) = 0 -> is_u 32 M -> M = 2 ^ q.
Proof.
  intros Hq Hb E HM. apply Z.bits_inj'. intros i Hi. rewrite Z.pow2_bits_eqb by lia.
  destruct (Z.eqb_spec q i) as [->|Hne]; [done|]. destruct (Z.testbit M i) eqn:Ei; [|done].
  assert (Z.testbit (Z.land M (unot 64 (2 ^ q))) i = false) as Hf by (rewrite E; apply Z.bits_0).
  rewrite Z.land_spec, Ei, unot_spec, Z.pow2_bits_eqb in Hf by lia. destruct (Z.eqb_spec q i); [lia|].
  destruct (Z.ltb_spec i 64); [done|]. by rewrite (proj2 (proj1 (is_u_bits 32 M ltac:(lia)) HM) i) in Ei by lia.
Qed.

(** A reader's mark is on the position it is about to read. *)
Lemma own_mark cs q : 0 <= q < 32 -> Z.testbit cc q = true -> Z.testbit (marks cs (cs q)) q = true.
Proof. intros Hq Hb. rewrite marks_bits, Hb by lia. simpl. by apply bool_decide_eq_true. Qed.

(** With one mark left, nobody else has a mark there. *)
Lemma lone_mark R L idc Γ H cs ids j q got nx rc k h : log_inv R L idc Γ H cs ids ->
  Γ !! j = Some (GR q got nx rc) -> Γ !! k = Some h -> k <> j ->
  match h with
  | GR _ got1 _ (ROnly rc1) | GR _ got1 _ (RLast rc1) =>
      (length got < length H <= length got + 256)%nat -> (length got1 mod 256 <> length got mod 256)%nat
  | _ => True
  end.
Proof.
  intros [] Hj Hk Hne. destruct h as [|q1 got1 nx1 ph1]; [done|].
  destruct (li_threads0 j _ Hj) as (Hq & Hb & Ecs & _). pose proof (li_threads0 k _ Hk) as (Hq1 & Hb1 & Ecs1 & _ & Hp1).
  assert (match ph1 with ROnly rc1 | RLast rc1 => (length got1 < length H)%nat /\ crc_ (slot_at R (length got1)) = rc1 /\ Z.land rc1 RC_MASK = 2 ^ q1 | _ => True end) as Hf.
  { destruct ph1; simpl in Hp1; destruct_and?; done. }
  assert ((length got1 < length H)%nat -> Z.land (crc_ (slot_at R (length got1))) RC_MASK = 2 ^ q1 ->
    (length got < length H <= length got + 256)%nat -> (length got1 mod 256 <> length got mod 256)%nat) as Hgoal.
  { intros Hlt E Hw Emod. pose proof (li_cs0 q1 Hq1 Hb1) as Hc1.
    assert (length got1 = length got) as El by (apply (window_unique (length H)); [lia|done|done]).
    rewrite El in *. destruct (li_slots0 _ Hw) as (Ec & _). pose proof BOUND_val.
    rewrite Ec, pack_marks in E; [|pose proof (gen_range cs (length got) ltac:(lia)); lia|apply marks_u].
    pose proof (own_mark cs q Hq Hb) as Ho. rewrite Ecs, E, Z.pow2_bits_eqb in Ho by lia.
    apply Z.eqb_eq in Ho. subst q1. by destruct Hne; eapply li_bits0. }
  destruct ph1; try done; destruct Hf as (Hf1 & Hf2 & Hf3); apply Hgoal; congruence || done.
Qed.

Lemma inv_release R L idc Γ H cs ids j q got ph rc pc :
  log_inv R L idc Γ H cs ids -> Γ !! j = Some (GR q got (Some pc) ph) ->
  let cur := length got in let nxt := Z.land (inc_rc rc) (unot 64 (2 ^ q)) in
  ph = RLast rc \/ (ph = RRel rc /\ Z.land nxt RC_MASK <> 0) ->
  crc_ (slot_at R cur) = rc ->
  log_inv (upd_slot R cur (with_rc (slot_at R cur) nxt)) L idc (<[j := GR q (got ++ [pc]) None RIdle]> Γ) H (advance cs q) ids.
Proof.
  intros HI Hj cur nxt Hph Hrc. pose proof HI as [].
  destruct (li_threads0 j _ Hj) as (Hq & Hb & Ecs & Hpre & Hphok). fold cur in Ecs.
  assert ((cur < length H)%nat /\ ~ pending Γ cur) as [Hcur Hnp] by (destruct Hph as [->|[-> _]]; simpl in Hphok; by destruct_and?).
  set (g := GR q got _ _) in Hj. set (g' := GR q _ _ _). set (R' := upd_slot R cur _).
  assert (cur < length H <= cur + 256)%nat as Hwin by (specialize (li_cs0 q Hq Hb); lia).
  destruct (li_slots0 cur Hwin) as (Ec & El & _ & Hslot). destruct (Hslot Hnp) as (Hcar & Hf1 & Hf2). clear Hslot.
  pose proof (gen_range cs cur ltac:(lia)) as Hg. pose proof (marks_u cs cur) as Hmu.
  assert (nxt = pack (gen (advance cs q) cur) (marks (advance cs q) cur)) as Enxt.
  { unfold nxt. rewrite <- Hrc, Ec, inc_rc_pack, pack_clear by (try done; try lia; apply is_u_pow2; lia).
    rewrite marks_advance_same by done. f_equal. unfold gen. rewrite cleared_advance, decide_True by done. lia. }
  assert (Z.land nxt RC_MASK = marks (advance cs q) cur) as Emk.
  { rewrite Enxt, pack_marks; [done|unfold gen; lia|apply marks_u]. }
  assert (forall p, pending (<[j := g']> Γ) p <-> pending Γ p) as Ep by (intros p; apply (some_thread_same _ _ _ g); [done|by destruct Hph as [->|[-> _]]]).
  assert (forall p, p <> cur -> handing_on (<[j := g']> Γ) p <-> handing_on Γ p) as Eh.
  { intros p Hp. destruct Hph as [->|[-> _]]; [|by apply (some_thread_same _ _ _ g)].
    split; intros (k & h & Hk & Hh).
    - apply list_lookup_insert_Some in Hk as [(<- & <- & _)|(_ & Hk)]; [done|by exists k, h].
    - exists k, h. rewrite list_lookup_insert_ne; [done|]. intros <-. unfold g in Hj. by simplify_eq/=. }
  assert (marks (advance cs q) cur <> 0 -> ~ handing_on (<[j := g']> Γ) cur /\ f_ct_ (slot_at R cur) = unot 64 (Z.of_nat cur)) as Hmore.
  { intros Hm. assert (~ exists k h, k <> j /\ Γ !! k = Some h /\ hands_on h = Some cur) as Hno.
    { intros (k & h & Hkj & Hk & Hh). pose proof (lone_mark _ _ _ _ _ _ _ j q got _ ph k h HI Hj Hk Hkj) as Hl.
      destruct h as [|q1 got1 nx1 []]; simplify_eq/=. apply Hl; [done|]. by rewrite Hh. }
    assert (ph = RRel rc) as ->.
    { destruct Hph as [->|[? _]]; [|done]. destruct Hm. simpl in Hphok. destruct Hphok as (_ & _ & _ & E).
      rewrite marks_advance_same by done. rewrite <- Hrc, Ec, pack_marks in E by (try lia; apply marks_u). rewrite E.
      apply Z.bits_inj'. intros i Hi. rewrite Z.land_spec, unot_spec, Z.bits_0 by lia. destruct (Z.testbit (2 ^ q) i); [by rewrite andb_false_r|done]. }
    split.
    - intros (k & h & Hk & Hh). apply list_lookup_insert_Some in Hk as [(<- & <- & _)|(Hkj & Hk)]; [done|]. apply Hno. eauto.
    - apply Hf2.
      + intros E. rewrite marks_advance_same in Hm by done. rewrite E in Hm. by rewrite Z.land_0_l in Hm.
      + intros (k & h & Hk & Hh). apply Hno. exists k, h. split; [|done]. intros ->. unfold g in Hj. by simplify_eq/=. }
  assert (marks (advance cs q) cur = 0 -> f_ct_ (slot_at R cur) = Z.of_nat cur + 256) as Hdone.
  { intros Hm. apply Hf1. right. destruct Hph as [->|[_ Hx]]; [|congruence]. by exists j, g. }
  pose proof (sum_list_insert sends_left Γ j g g' Hj). pose proof (sum_list_insert pushes_left Γ j g g' Hj).
  assert (forall p, crc_ (slot_at R' p) = crc_ (slot_at R p) /\ (p mod 256 <> cur mod 256)%nat \/
    (p mod 256 = cur mod 256)%nat /\ Z.shiftr (crc_ (slot_at R p)) 32 < Z.shiftr (crc_ (slot_at R' p)) 32) as Hcrc.
  { intros p. unfold R'. rewrite slot_at_upd. destruct (decide _) as [E|E]; [right|left; split; [done|congruence]].
    split; [done|]. rewrite (slot_at_mod R p cur) by done. simpl. rewrite Enxt, Ec, !pack_gen by (try apply marks_u; unfold gen; lia).
    unfold gen. rewrite cleared_advance, decide_True by done. lia. }
  constructor; try done.
  - simpl in *. lia.
  - simpl in *. lia.
  - destruct li_cursor0 as [?|[? ?]]; [by left|right]. split; [done|].
    apply (some_thread_same _ _ _ g); [done|by destruct Hph as [->|[-> _]]|done].
  - intros r Hr Hbr. unfold advance. destruct (decide (r = q)) as [->|]; [lia|by apply li_cs0].
  - intros p Hp%Ep. destruct (li_pend0 p Hp) as [Hlt Hall]. split; [done|]. intros r Hr Hbr. unfold advance.
    destruct (decide (r = q)) as [->|]; [|by apply Hall]. specialize (Hall q Hr Hbr).
    assert (p <> cur) by (intros ->; done). lia.
  - intros p Hp. destruct (decide (p = cur)) as [->|Hne].
    + unfold R'. rewrite slot_at_upd_eq. split; [done|]. split; [done|]. split; [by intros ?%Ep|]. intros _. split; [done|]. simpl.
      destruct (decide (marks (advance cs q) cur = 0)) as [E|E]; [split; [auto|done]|]. destruct (Hmore E). split; [by intros [?|?]|done].
    + unfold R'. rewrite (slot_at_upd_window R (length H)) by done.
      destruct (slot_ok_ext H H cs Γ (<[j := g']> Γ) p (slot_at R p) eq_refl (Ep p) (Eh p Hne) (li_slots0 p Hp)) as (E1 & E2 & E3 & E4).
      unfold slot_ok. rewrite marks_advance_other by congruence. split; [|done]. rewrite E1. f_equal. unfold gen.
      rewrite cleared_advance, decide_False by (done || congruence). done.
  - intros p Hp. unfold R'. rewrite (slot_at_upd_fresh R (length H)) by lia. by apply li_fresh0.
  - intros k h [(<- & <- & _)|(Hkj & Hk)]%list_lookup_insert_Some.
    { split; [done|]. split; [done|]. split; [unfold advance; rewrite decide_True, length_app by done; simpl; lia|]. by rewrite app_nil_r. }
    apply (thread_ok_frame H _ cs _ R _ Γ _ ids); auto; [done| |intros p _; by rewrite Ep|].
    { intros p rc' Hs. eapply seen_step; [done|]. destruct (Hcrc p) as [[? _]|[_ ?]]; auto. }
    pose proof (lone_mark _ _ _ _ _ _ _ j q got _ ph k h HI Hj Hk ltac:(congruence)) as Hlone.
    destruct h as [acc1 m1 b11 b12 ph1|q1 got1 nx1 ph1].
    + split; [done|]. destruct ph1 as [| | |ct1 rc1|ct1 pc1| |ct1 pc1]; try done.
      * intros [Hs1 Hc1] E. destruct (Hcrc ct1) as [[E2 Hne]|[E2 Hlt]]; [rewrite E2 in E; auto|]. exfalso.
        rewrite <- E in Hs1. destruct Hs1 as [Hs1|Hs1]; [lia|]. rewrite Hs1 in Hlt. lia.
      * by intros (_ & ? & ?).
      * intros _. unfold R'. rewrite slot_at_upd. destruct (decide _) as [E|E]; [|done]. by rewrite (slot_at_mod R ct1 cur).
    + split.
      { unfold advance. destruct (decide (q1 = q)) as [->|]; [|done]. destruct Hkj. by eapply li_bits0. }
      destruct ph1; try done; (destruct (Hcrc (length got1)) as [[-> _]|[E _]]; [done|]); by destruct (Hlone Hwin).
  - eapply bits_insert; done.
  - eapply msgs_insert; done.
Qed.

(** Writers that hold no position. *)
Definition quiet (ph : wphase) : Prop :=
  match ph with WClaimed _ _ | WAdvanced _ _ | WWritten _ _ => False | _ => True end.

Lemma quiet_view acc m b1 b2 ph ph' : quiet ph -> quiet ph' -> same_view (GW acc m b1 b2 ph) (GW acc m b1 b2 ph').
Proof. intros H1 H2. destruct ph, ph'; try done; repeat split; simpl; auto. Qed.

(** A writer starts a message under a fresh id. *)
Lemma inv_new_id R L idc Γ H cs ids j acc m b1 b2 c d ph :
  log_inv R L idc Γ H cs ids -> Γ !! j = Some (GW acc m b1 (S b2) ph) -> quiet ph ->
  log_inv R L (Z.of_nat (S ids)) (<[j := GW acc (Some (c, Z.of_nat ids, d)) b1 b2 WIdle]> Γ) H cs (S ids).
Proof.
  intros HI Hj Hquiet. pose proof HI as []. destruct (li_threads0 j _ Hj) as (Eacc & _ & _).
  set (g := GW acc _ _ _ _) in Hj. set (g' := GW acc _ _ _ _).
  assert (forall p, pending (<[j := g']> Γ) p <-> pending Γ p) as Ep by (intros p; apply (some_thread_same _ _ _ g); [done|by destruct ph]).
  assert (forall p, handing_on (<[j := g']> Γ) p <-> handing_on Γ p) as Eh by (intros p; by apply (some_thread_same _ _ _ g)).
  pose proof (sum_list_insert sends_left Γ j g g' Hj). pose proof (sum_list_insert pushes_left Γ j g g' Hj).
  constructor; try done.
  - simpl in *. lia.
  - simpl in *. lia.
  - intros w x Hx. destruct (li_idH0 w x Hx). split; [lia|done].
  - destruct li_cursor0 as [?|[? ?]]; [by left|right]. split; [done|]. apply (some_thread_same _ _ _ g); [done|by destruct ph|done].
  - intros p Hp. apply li_pend0. by apply Ep.
  - intros p Hp. eapply slot_ok_ext; eauto.
  - intros k h [(<- & <- & _)|(Hkj & Hk)]%list_lookup_insert_Some.
    { split; [done|]. split; [|done]. split; [lia|]. intros w x Hx Ex. destruct (li_idH0 w x Hx). lia. }
    apply (thread_ok_frame H _ cs _ R _ Γ _ ids); auto; [done|intros p _; by rewrite Ep|].
    destruct h as [acc1 m1 b11 b12 ph1|q got nx1 ph1].
    + split.
      * destruct m1 as [[[c1 i1] d1]|]; [|done]. intros [? Hall]. split; [lia|done].
      * destruct ph1; try done; simpl; [by intros [_ ?]|by intros (_ & ? & ?)].
    + split; [done|]. by destruct ph1.
  - intros k k' q got got' nx nx' ph1 ph1' Hk Hk'.
    apply list_lookup_insert_Some in Hk as [(_ & ? & _)|(_ & Hk)]; [done|].
    apply list_lookup_insert_Some in Hk' as [(_ & ? & _)|(_ & Hk')]; [done|]. by eapply li_bits0.
  - assert (forall k acc' c' i d' b1' b2' ph', k <> j -> Γ !! k = Some (GW acc' (Some (c', i, d')) b1' b2' ph') -> i <> Z.of_nat ids) as Hne.
    { intros k acc' c' i d' b1' b2' ph' _ Hk. destruct (li_threads0 k _ Hk) as (_ & [? _] & _). lia. }
    intros k k' acc1 acc1' c1 c1' i d1 d1' b11 b21 b11' b21' ph1 ph1' Hk Hk'.
    apply list_lookup_insert_Some in Hk as [(<- & Ek & _)|(Hkj & Hk)];
      apply list_lookup_insert_Some in Hk' as [(<- & Ek' & _)|(Hkj' & Hk')]; unfold g' in *; simplify_eq; try done.
    + by destruct (Hne _ _ _ _ _ _ _ _ (not_eq_sym Hkj') Hk').
    + by destruct (Hne _ _ _ _ _ _ _ _ (not_eq_sym Hkj) Hk).
    + by eapply li_msgs0.
Qed.

(** *** From the ring to the world *)

#[local] Instance chan_ring_lawful : LawfulField chan_ring. Proof. apply _. Qed.
#[local] Instance w_counters_lawful : LawfulField w_counters_f. Proof. split; by intros. Qed.
#[local] Instance chan_ids_lawful : LawfulField chan_ids. Proof. apply sub_field_lawful; apply _. Qed.

Lemma chan_inv_ring w Γ R' H cs ids :
  log_inv R' (fget chan_table w) (fget chan_ids w) Γ H cs ids -> chan_inv (fset chan_ring R' w) Γ.
Proof. intros HI. exists H, cs, ids. by rewrite get_set. Qed.

Lemma chan_inv_log w v Γ : chan_inv w Γ -> chan_inv (fset w_log_f v w) Γ.
Proof. done. Qed.
Lemma chan_inv_clock w v Γ : chan_inv w Γ -> chan_inv (fset w_clock_f v w) Γ.
Proof. done. Qed.

Lemma learn w Γ j g g' : Γ !! j = Some g -> same_view g g' ->
  (exists H cs ids, log_inv (fget chan_ring w) (fget chan_table w) (fget chan_ids w) Γ H cs ids /\
     thread_ok H cs (fget chan_ring w) Γ ids j g') ->
  chan_inv w (<[j := g']> Γ).
Proof. intros Hj Hv (H & cs & ids & HI & Ht). exists H, cs, ids. by eapply inv_learn. Qed.

(** The latest position of a slot. *)
Lemma latest_pos n ct : (ct < n)%nat -> exists p, (p mod 256 = ct mod 256)%nat /\ (p < n <= p + 256)%nat /\ (ct <= p)%nat.
Proof.
  intros Hlt. exists (ct + 256 * ((n - 1 - ct) / 256))%nat.
  split; [rewrite Nat.mul_comm; apply Nat.Div0.mod_add|].
  pose proof (Nat.div_mod_eq (n - 1 - ct) 256). pose proof (Nat.mod_upper_bound (n - 1 - ct) 256 ltac:(lia)). lia.
Qed.

(** The word of a slot, whatever lap it is on. *)
Lemma slot_word R L idc Γ H cs ids p : log_inv R L idc Γ H cs ids -> (p <= length H)%nat ->
  exists v M, crc_ (slot_at R p) = pack v M /\ 0 <= v /\ v < 2 ^ 24 /\ is_u 32 M /\ Z.land cc M = M.
Proof.
  intros [] Hp.
  assert (forall p, (p < length H <= p + 256)%nat -> exists v M, crc_ (slot_at R p) = pack v M /\ 0 <= v /\ v < 2 ^ 24 /\ is_u 32 M /\ Z.land cc M = M) as Hw.
  { intros p' Hw. destruct (li_slots0 p' Hw) as (E & _). pose proof (gen_range cs p' ltac:(lia)).
    exists (gen cs p'), (marks cs p'). split; [done|]. split; [lia|]. split; [lia|]. split; [apply marks_u|].
    apply Z.bits_inj'. intros i Hi. rewrite Z.land_spec, marks_bits by done. by destruct (Z.testbit cc i). }
  destruct (decide (p < length H)%nat) as [Hlt|Hge].
  { destruct (latest_pos _ _ Hlt) as (p' & Em & Hwin & _). rewrite (slot_at_mod R p p') by done. by apply Hw. }
  destruct (decide (p < 256)%nat) as [Hs|Hs].
  - exists 0, 0. destruct (li_fresh0 p ltac:(lia)) as (E & _). repeat split; try done; try lia. apply Z.land_0_r.
  - rewrite (slot_at_mod R p (p - 256)); [apply Hw; lia|].
    replace p with ((p - 256) + 1 * 256)%nat at 1 by lia. by rewrite Nat.Div0.mod_add.
Qed.

Lemma log_small R L idc Γ H cs ids : log_inv R L idc Γ H cs ids -> Z.of_nat (length H) <= 2 ^ 26 /\ Z.of_nat ids <= 2 ^ 26.
Proof. intros []. pose proof BOUND_val. lia. Qed.

(** The flag of a slot whose marks are gone says which position it is free for. *)
Lemma free_flag R L idc Γ H cs ids ct : log_inv R L idc Γ H cs ids -> Z.of_nat ct <= write_cursor R ->
  Z.land (crc_ (slot_at R ct)) RC_MASK = 0 ->
  f_ct_ (slot_at R ct) = Z.of_nat ct \/ f_ct_ (slot_at R ct) = 0 ->
  ct = length H /\ Z.of_nat ct = write_cursor R.
Proof.
  intros HI Hct Hm Hf. pose proof HI as [].
  assert (write_cursor R <= Z.of_nat (length H)) as Hle by (destruct li_cursor0 as [?|[? _]]; lia).
  assert (ct = length H) as E; [|split; [done|lia]].
  destruct (decide (ct = length H)) as [|Hne]; [done|exfalso]. assert (ct < length H)%nat as Hlt by lia.
  destruct (latest_pos _ _ Hlt) as (p & Emod & Hwin & Hge).
  rewrite (slot_at_mod R ct p) in Hm, Hf by done. destruct (li_slots0 p Hwin) as (Ec & _ & _ & Hs).
  pose proof (gen_range cs p ltac:(lia)). rewrite Ec, pack_marks in Hm by (try lia; apply marks_u).
  assert (~ pending Γ p) as Hnp.
  { intros Hp. destruct (li_pend0 p Hp) as [_ Hall]. destruct cc_has_bit as (q & Hq & Hb).
    pose proof (proj1 (marks_zero cs p) Hm q Hq Hb). specialize (Hall q Hq Hb). lia. }
  destruct (Hs Hnp) as (_ & Hfl & _). specialize (Hfl (or_introl Hm)). lia.
Qed.

Section programs.
Context (fuel : nat) (c : ChanInner).
Hypothesis c_name : ci_name c = name.
Hypothesis c_prefix : ci_prefix c = prefix.
Hypothesis c_multi : ci_multi c = true.
Hypothesis c_id : is_u 32 (cc_id c).

Lemma ring_eq : ci_ring t c = chan_ring.
Proof. unfold ci_ring. by rewrite c_name, c_prefix. Qed.

Lemma now_wpc {A} j (h : Z -> prog world A) g Q :
  (forall x, wpc chan_inv j (h x) g Q) -> wpc chan_inv j (now w_clock_f ≫= h) g Q.
Proof. intros H. apply wpc_silent; [|done]. intros w Γ HI _. by apply chan_inv_clock. Qed.

Lemma broadcast_wpc {A} j wn (h : unit -> prog world A) g Q :
  wpc chan_inv j (h tt) g Q -> wpc chan_inv j (broadcast wn ≫= h) g Q.
Proof. intros H. apply wpc_silent; [|by intros []]. intros w Γ HI _. by apply chan_inv_log. Qed.

(** What a writer sees of the cursor. *)
Lemma cursor_nat w Γ H cs ids : log_inv (fget chan_ring w) (fget chan_table w) (fget chan_ids w) Γ H cs ids ->
  exists ct, write_cursor (fget chan_ring w) = Z.of_nat ct /\ (ct <= length H)%nat.
Proof.
  intros []. destruct li_cursor0 as [E|[E (j & g & Hj & Hg)]]; [by exists (length H)|].
  pose proof (li_threads0 j g Hj) as Ht. destruct g as [acc m b1 b2 ph|]; [|done]. destruct ph; simplify_eq/=.
  destruct Ht as (_ & _ & _ & _ & Hl). exists (length H - 1)%nat. lia.
Qed.

Lemma push_claim_multi_wpc n deadline j acc i d b1 b2 ph :
  quiet ph ->
  let m := Some (cc_id c, i, d) in let pc := mk_piece (cc_id c) i d (length (with_id i acc)) in piece_ok pc ->
  wpc chan_inv j (push_claim_multi t n c deadline 0) (GW acc m (S b1) b2 ph) (fun r g =>
    match r with
    | Ok (Some ct) => exists p, ct = Z.of_nat p /\ g = GW (acc ++ [pc]) m b1 b2 (WClaimed p pc)
    | Ok None => exists ph', quiet ph' /\ g = GW acc m (S b1) b2 ph'
    | Err _ => False
    end).
Proof.
  intros Hph m pc Hok. revert ph Hph. induction n as [|n IH]; intros ph Hph; [done|]. cbn [push_claim_multi]. rewrite ring_eq.
  apply wpc_load_same. intros w Γ (H & cs & ids & HI) Hj. cbn [fget sub_field connections_f]. rewrite (li_conn _ _ _ _ _ _ _ HI).
  destruct (Z.eqb_spec cc 0) as [?|_]; [done|]. clear w Γ H cs ids HI Hj.
  (* the cursor *)
  apply wpc_load. intros w Γ (H & cs & ids & HI) Hj. destruct (cursor_nat _ _ _ _ _ HI) as (ct & Ect & Hle).
  cbn [fget sub_field write_cursor_f]. exists (GW acc m (S b1) b2 (WAt ct)). split.
  { apply (learn w Γ j _ _ Hj); [by apply quiet_view|]. exists H, cs, ids. split; [done|].
    destruct (li_threads _ _ _ _ _ _ _ HI j _ Hj) as (? & ? & _). split; [done|]. split; [done|]. cbn [wphase_ok]. lia. }
  rewrite Ect. clear w Γ H cs ids HI Hj Ect Hle.
  (* the word *)
  apply wpc_load. intros w Γ (H & cs & ids & HI) Hj. cbn [fget sub_field crc_f channel_slot channel_slots_f at_key].
  change (channel_slots (fget chan_ring w) !!! index_of (Z.of_nat ct)) with (slot_at (fget chan_ring w) ct).
  destruct (li_threads _ _ _ _ _ _ _ HI j _ Hj) as (Eacc & Hmsg & Hat). cbn [wphase_ok] in Hat.
  destruct (slot_word _ _ _ _ _ _ _ ct HI) as (v & M & Ew & Hv0 & Hv & HM & Hsub).
  { destruct (cursor_nat _ _ _ _ _ HI) as (ct' & ? & ?). lia. }
  rewrite Ew. rewrite pack_marks, Hsub, pack_epoch by (done || lia). rewrite Z.eqb_refl, andb_true_r.
  destruct (Z.eqb_spec M 0) as [->|HM0]; cbn [negb].
  2:{ (* marks left: wait *)
    exists (GW acc m (S b1) b2 (WAt ct)). rewrite list_insert_id by done. split; [by exists H, cs, ids|].
    apply wpc_bind, wpc_ret. apply now_wpc. intros tn. destruct (deadline <=? tn); [by exists (WAt ct)|]. by apply IH. }
  exists (GW acc m (S b1) b2 (WRc ct (pack v 0))). split.
  { apply (learn w Γ j _ _ Hj); [by apply quiet_view|]. exists H, cs, ids. split; [done|]. split; [done|]. split; [done|].
    split; [done|]. right. congruence. }
  clear w Γ H cs ids HI Hj Eacc Hmsg Hat Ew HM Hsub.
  (* the flag *)
  apply wpc_bind, wpc_load. intros w Γ (H & cs & ids & HI) Hj.
  destruct (li_threads _ _ _ _ _ _ _ HI j _ Hj) as (Eacc & Hmsg & Hat & Hseen).
  cbn [fget sub_field f_ct_f channel_slot channel_slots_f at_key].
  change (channel_slots (fget chan_ring w) !!! index_of (Z.of_nat ct)) with (slot_at (fget chan_ring w) ct).
  set (fl := f_ct_ (slot_at (fget chan_ring w) ct)).
  destruct (negb (fl =? Z.of_nat ct) && negb (fl =? 0)) eqn:Efl.
  { exists (GW acc m (S b1) b2 (WRc ct (pack v 0))). rewrite list_insert_id by done. split; [by exists H, cs, ids|].
    apply wpc_ret. apply now_wpc. intros tn. destruct (deadline <=? tn); [by exists (WRc ct (pack v 0))|]. by apply IH. }
  exists (GW acc m (S b1) b2 (WClear ct (pack v 0))). split.
  { apply (learn w Γ j _ _ Hj); [by apply quiet_view|]. exists H, cs, ids. split; [done|]. split; [done|]. split; [done|].
    split; [done|]. intros E. eapply free_flag; [done|done| |].
    - rewrite E. by apply pack_marks.
    - fold fl. apply andb_false_iff in Efl. rewrite !negb_false_iff, !Z.eqb_eq in Efl. exact Efl. }
  apply wpc_ret. clear w Γ H cs ids HI Hj Eacc Hmsg Hat Hseen fl Efl.
  (* the claim *)
  apply wpc_cas_weak; [|intros x; by apply IH]. intros w Γ (H & cs & ids & HI) Hj E.
  destruct (inv_claim _ _ _ _ _ _ _ j acc (cc_id c) i d b1 b2 ct _ HI Hj E) as (v' & Hv' & Hv1 & Ev & HI'); [by apply pack_marks|done|].
  assert (v' = v) as ->.
  { rewrite <- (pack_gen v 0), <- (pack_gen v' 0) by (done || lia). by rewrite Ev. }
  eexists. split.
  - rewrite claim_word by (done || lia). eapply chan_inv_ring. exact HI'.
  - apply wpc_load_same. intros w2 Γ2 (H2 & cs2 & ids2 & HI2) Hj2. cbn [fget sub_field epoch_f].
    rewrite (li_epoch _ _ _ _ _ _ _ HI2). by exists ct.
Qed.

(** Every connected receiver was there from the beginning: all its marks are live. *)
Lemma live_marks_wpc j M pos g : is_u 32 M -> Z.land cc M = M -> 0 <= pos < 2 ^ 31 ->
  wpc chan_inv j (live_marks_of c M pos) g (fun r g' => g' = g /\ r = M).
Proof.
  intros HM Hsub Hpos. unfold live_marks_of, ci_liveness. rewrite c_name, c_prefix, wrap_id by done.
  change (liveness_of (liveness_shm_name prefix name)) with chan_table. unfold live_marks.
  assert (forall live, Z.land cc M = M -> wpc chan_inv j (live_marks_loop 33 chan_table M pos live) g
    (fun r g' => g' = g /\ r = Z.lor live M)) as H; [|by apply (H 0)]. clear Hsub. revert M HM.
  apply (scan_ind (fun fuel M => forall live, Z.land cc M = M -> wpc chan_inv j (live_marks_loop fuel chan_table M pos live) g
    (fun r g' => g' = g /\ r = Z.lor live M))).
  - intros k live _. simpl. by rewrite Z.lor_0_r.
  - intros k M q HM Hq Ht E1 E2 H0 Hu IH live Hsub. cbn [live_marks_loop].
    destruct (Z.eqb_spec M 0); [done|]. rewrite E1, E2. apply wpc_load_same. intros w Γ (H & cs & ids & HI) Hj.
    rewrite slot_get by lia. cbn [fget since_f].
    assert (Z.testbit cc q = true) as Hb.
    { assert (Z.testbit (Z.land cc M) q = true) as E by by rewrite Hsub. rewrite Z.land_spec in E. by apply andb_prop in E as [? _]. }
    rewrite (li_since _ _ _ _ _ _ _ HI q Hb).
    assert ((0 <=? i32 (wrapping_sub 32 pos 0)) = true) as ->.
    { unfold wrapping_sub. rewrite Z.sub_0_r, i32_wrap, i32_id by lia. apply Z.leb_le. lia. }
    eapply wpc_conseq; [apply IH|].
    + apply Z.bits_inj'. intros x Hx. rewrite Z.land_spec, Z.ldiff_spec.
      assert (Z.testbit (Z.land cc M) x = Z.testbit M x) as E by by rewrite Hsub. rewrite Z.land_spec in E.
      by rewrite andb_assoc, E.
    + intros r g' [-> ->]. split; [done|]. apply Z.bits_inj'. intros x Hx. rewrite !Z.lor_spec, Z.ldiff_spec, Z.pow2_bits_eqb by lia.
      destruct (Z.eqb_spec q x) as [->|]; [rewrite Ht; by destruct (Z.testbit live x)|]. by rewrite orb_false_r, andb_true_r.
Qed.

Lemma commit_multi_wpc j acc m b1 b2 ct pc :
  wpc chan_inv j (commit_multi fuel c (channel_slot chan_ring (Z.of_nat ct)) (Z.of_nat ct)) (GW acc m b1 b2 (WWritten ct pc))
    (fun _ g => g = GW acc m b1 b2 (WAt ct)).
Proof.
  unfold commit_multi. apply wpc_act. intros w Γ (H & cs & ids & HI) Hj.
  assert (pending Γ ct) as Hp by (by exists j, (GW acc m b1 b2 (WWritten ct pc))).
  pose proof (busy_window _ _ _ _ _ _ _ ct HI Hp) as Hwin.
  destruct (log_small _ _ _ _ _ _ _ HI) as [Hsm _]. assert (Z.of_nat ct < 2 ^ 31) as Hct by lia.
  exists (GW acc m b1 b2 (WAt ct)). split.
  { pose proof (inv_commit _ _ _ _ _ _ _ _ _ _ _ _ _ _ HI Hj) as HI'. eapply chan_inv_ring.
    rewrite <- (list_insert_insert_eq Γ j _ (GW acc m b1 b2 WIdle)). eapply (inv_learn _ _ _ _ _ _ _ j (GW acc m b1 b2 WIdle)); [exact HI'| |by apply quiet_view|].
    - apply list_lookup_insert_eq. by eapply lookup_lt_Some.
    - destruct (li_threads _ _ _ _ _ _ _ HI j _ Hj) as (? & ? & _). split; [done|]. split; [done|].
      change (Z.of_nat ct <= write_cursor (fget chan_ring w)). destruct (li_cursor _ _ _ _ _ _ _ HI) as [E|[E _]]; lia. }
  clear w Γ H cs ids HI Hj Hp Hwin Hsm.
  apply wpc_load_same. intros w Γ (H & cs & ids & HI) Hj. cbn [fget sub_field crc_f channel_slot channel_slots_f at_key].
  change (channel_slots (fget chan_ring w) !!! index_of (Z.of_nat ct)) with (slot_at (fget chan_ring w) ct).
  assert (ct <= length H)%nat as Hle.
  { destruct (li_threads _ _ _ _ _ _ _ HI j _ Hj) as (_ & _ & Hat). cbn [wphase_ok] in Hat.
    destruct (cursor_nat _ _ _ _ _ HI) as (ct' & ? & ?). lia. }
  destruct (slot_word _ _ _ _ _ _ _ ct HI Hle) as (v & M & -> & Hv0 & Hv & HM & Hsub).
  rewrite pack_marks by done. destruct (Z.eqb_spec M 0); [done|]. apply wpc_bind.
  eapply wpc_conseq; [apply live_marks_wpc; try done; lia|]. intros r g [-> ->].
  assert (Z.land M (unot 64 M) = 0) as ->.
  { apply Z.bits_inj'. intros i Hi. rewrite Z.land_spec, unot_spec, Z.bits_0 by lia. destruct (Z.testbit M i); [by rewrite andb_false_r|done]. }
  done.
Qed.

(** One fragment: it is in the log at the claim, and the slot carries it at the commit. *)
Lemma push_multi_wpc j acc i d b1 b2 ph remain payload tmo :
  quiet ph ->
  let m := Some (cc_id c, i, d) in let pc := mk_piece (cc_id c) i d (length (with_id i acc)) in
  piece_ok pc -> piece_frag pc = Some (remain, payload) ->
  wpc chan_inv j (push_fragment t fuel c i remain payload tmo) (GW acc m (S b1) b2 ph) (fun r g => exists ph', quiet ph' /\
    match r with
    | Ok true => g = GW (acc ++ [pc]) m b1 b2 ph'
    | Ok false => g = GW acc m (S b1) b2 ph'
    | Err _ => False
    end).
Proof.
  intros Hph m pc Hok Hfr. unfold push_fragment. rewrite c_multi. unfold push_fragment_multi. rewrite ring_eq.
  apply now_wpc. intros t0. apply wpc_load_same. intros w Γ (H & cs & ids & HI) Hj. cbn [fget sub_field epoch_f].
  rewrite (li_epoch _ _ _ _ _ _ _ HI). clear w Γ H cs ids HI Hj.
  apply wpc_bind. eapply wpc_conseq; [by apply push_claim_multi_wpc|]. intros [[ct|]|e] g Hg; [| |done].
  2:{ destruct Hg as (ph' & Hq & ->). by exists ph'. }
  destruct Hg as (p & -> & ->). fold pc m.
  (* move the cursor on *)
  apply wpc_act. intros w Γ (H & cs & ids & HI) Hj. exists (GW (acc ++ [pc]) m b1 b2 (WAdvanced p pc)). split.
  { assert (wrapping_add 32 (Z.of_nat p) 1 = Z.of_nat p + 1) as ->.
    { destruct (log_small _ _ _ _ _ _ _ HI) as [Hsm _].
      destruct (li_threads _ _ _ _ _ _ _ HI j _ Hj) as (_ & _ & _ & _ & Hl). apply wrap_id. unfold is_u. lia. }
    eapply chan_inv_ring, inv_advance; eauto. }
  clear w Γ H cs ids HI Hj.
  (* write *)
  apply wpc_act. intros w Γ (H & cs & ids & HI) Hj. exists (GW (acc ++ [pc]) m b1 b2 (WWritten p pc)). split.
  { pose proof (busy_window _ _ _ _ _ _ _ p HI ltac:(by exists j, (GW (acc ++ [pc]) m b1 b2 (WAdvanced p pc)))) as Hwin.
    destruct (li_slots _ _ _ _ _ _ _ HI p Hwin) as (_ & El & _).
    assert (length payload <= 64)%nat as Hpl.
    { destruct Hok as (_ & _ & _ & Hsz & _). pose proof (fragments_payloads d Hsz) as Hall.
      rewrite Forall_lookup in Hall. by apply (Hall _ _ Hfr). }
    eapply chan_inv_ring, inv_write; [exact HI|exact Hj| |].
    - exists (cdata_ (slot_at (fget chan_ring w) p)), (remain, payload). done.
    - by apply length_write_msg. }
  clear w Γ H cs ids HI Hj. simpl fst.
  apply wpc_bind. eapply wpc_conseq; [apply commit_multi_wpc|]. intros [] g ->.
  apply broadcast_wpc. by exists (WAt p).
Qed.

(** *** Sending a message *)

Lemma own_piece_ok i d k fr : (cc_id c, d) ∈ offers -> is_u 32 i -> Z.of_nat (length d) < 2 ^ 31 ->
  piece_frag (mk_piece (cc_id c) i d k) = Some fr -> piece_ok (mk_piece (cc_id c) i d k).
Proof. intros ? ? ? E. unfold piece_ok. rewrite E. eauto. Qed.

Lemma send_full_wpc k n j acc i d b1 b2 ph tmo :
  quiet ph -> (cc_id c, d) ∈ offers -> is_u 32 i -> Z.of_nat (length d) < 2 ^ 31 ->
  (64 * n + 64 * k <= length d < 64 * n + 64 * k + 64)%nat ->
  length (with_id i acc) = n -> (length (frags_from k d (64 * n)) <= b1)%nat ->
  let m := Some (cc_id c, i, d) in
  wpc chan_inv j (send_full t fuel k c i d (64 * n) tmo) (GW acc m b1 b2 ph) (fun r g => exists ph' parts b1',
    quiet ph' /\ g = GW (acc ++ parts) m b1' b2 ph' /\ (b1' + length parts = b1)%nat /\
    parts `prefix_of` drop n (pieces (cc_id c) i d) /\
    match r with Ok true => parts = drop n (pieces (cc_id c) i d) | Ok false => True | Err _ => False end).
Proof.
  intros Hph Hcc Hi Hsz. revert n acc b1 ph Hph. induction k as [|k IH]; intros n acc b1 ph Hph Hk Hn Hb m; cbn [send_full].
  - assert (drop n (fragments d) = frags_from 0 d (64 * n)) as Ed by (by rewrite frags_from_drop). cbn [frags_from] in *.
    rewrite (i32_small (Z.of_nat (length d) - Z.of_nat (64 * n))), i32_id by (unfold DATA_LENGTH, data_length; lia).
    destruct (Z.ltb_spec 0 (Z.of_nat (length d) - Z.of_nat (64 * n))) as [Hlt|Hge].
    + destruct b1 as [|b1]; [simpl in Hb; lia|].
      set (pc := mk_piece (cc_id c) i d (length (with_id i acc))).
      assert (piece_frag pc = Some (Z.of_nat (length d) - Z.of_nat (64 * n) - 64, drop (64 * n) d)) as Hpf.
      { unfold piece_frag, pc. cbn [pc_data pc_idx]. rewrite Hn, lookup_head_drop, Ed. done. }
      assert (drop n (pieces (cc_id c) i d) = [pc]) as Ep.
      { unfold pieces. rewrite <- fmap_drop, drop_seq. unfold pc. rewrite Hn.
        replace (length (fragments d) - n)%nat with 1%nat by (rewrite <- length_drop, Ed; done). done. }
      eapply wpc_conseq; [apply push_multi_wpc; [done|by eapply own_piece_ok|exact Hpf]|].
      intros r g (ph' & Hq & Hr). destruct r as [[|]|]; [| |done].
      * exists ph', [pc], b1. rewrite Ep. split; [done|]. split; [done|]. split; [simpl; lia|done].
      * exists ph', [], (S b1). rewrite app_nil_r. split; [done|]. split; [done|]. split; [simpl; lia|]. split; [apply prefix_nil|done].
    + apply wpc_ret. exists ph, [], b1. rewrite app_nil_r. split; [done|]. split; [done|]. split; [simpl; lia|].
      assert (drop n (pieces (cc_id c) i d) = []) as ->; [|done]. apply drop_ge. rewrite length_pieces.
      assert (length (drop n (fragments d)) = 0%nat) as El by (by rewrite Ed). rewrite length_drop in El. lia.
  - assert (drop n (fragments d) = frags_from (S k) d (64 * n)) as Ed by (by rewrite frags_from_drop). cbn [frags_from] in *.
    rewrite (i32_small (Z.of_nat (length d))), (i32_small (Z.of_nat (64 * n))),
      (i32_small (Z.of_nat (length d) - Z.of_nat (64 * n))), i32_id by (unfold DATA_LENGTH, data_length; lia).
    destruct b1 as [|b1]; [simpl in Hb; lia|].
    set (pc := mk_piece (cc_id c) i d (length (with_id i acc))).
    assert (piece_frag pc = Some (Z.of_nat (length d) - Z.of_nat (64 * n) - 64, slice (64 * n) (64 * n + 64) d)) as Hpf.
    { unfold piece_frag, pc. cbn [pc_data pc_idx]. rewrite Hn, lookup_head_drop, Ed. done. }
    assert (drop n (pieces (cc_id c) i d) = pc :: drop (S n) (pieces (cc_id c) i d)) as Ep.
    { apply drop_S. rewrite pieces_lookup; [by unfold pc; rewrite Hn|]. apply lookup_lt_Some in Hpf. unfold pc in Hpf. cbn in Hpf. by rewrite Hn in Hpf. }
    apply wpc_bind. eapply wpc_conseq; [apply push_multi_wpc; [done|by eapply own_piece_ok|exact Hpf]|].
    intros r g (ph' & Hq & Hr). destruct r as [[|]|]; [| |done]; cbn [negb].
    + subst g. replace (64 * n + 64)%nat with (64 * S n)%nat in * by lia.
      eapply wpc_conseq; [apply IH; [done|lia| |cbn [length] in Hb; lia]|].
      * unfold with_id. rewrite filter_app, length_app. fold (with_id i acc). rewrite Hn, filter_cons. cbn. rewrite decide_True by done. simpl. lia.
      * intros r g (ph2 & parts & b1' & Hq2 & -> & Hb' & Hpre & Hr). exists ph2, (pc :: parts), b1'. rewrite Ep, <- app_assoc.
        split; [done|]. split; [done|]. split; [simpl; lia|]. split; [by apply prefix_cons|]. destruct r as [[|]|]; [by rewrite Hr|done|done].
    + apply wpc_ret. subst g. exists ph', [], (S b1). rewrite app_nil_r. split; [done|]. split; [done|]. split; [simpl; lia|]. split; [apply prefix_nil|done].
Qed.

(** A message: it gets an id of its own, and its fragments follow each other in the log. *)
Lemma send_wpc o j acc m b1 b2 ph d tmo :
  quiet ph -> ci_mode c = Sender -> (cc_id c, d) ∈ offers -> Z.of_nat (length d) < 2 ^ 31 ->
  (length (fragments d) <= b1)%nat ->
  wpc chan_inv j (send o t fuel c d tmo) (GW acc m b1 (S b2) ph) (fun r g => r.2 = c /\ exists i m' b1' b2' ph' parts,
    quiet ph' /\ g = GW (acc ++ parts) m' b1' b2' ph' /\ (b1 <= b1' + length (fragments d))%nat /\ (b2 <= b2')%nat /\
    parts `prefix_of` pieces (cc_id c) i d /\
    (r.1 = Ok true /\ parts = pieces (cc_id c) i d \/ r.1 = Ok false)).
Proof.
  intros Hq Hmode Hoff Hsz Hb. unfold send. case_bool_decide as Hd.
  { apply wpc_ret. split; [done|]. exists 0, m, b1, (S b2), ph, []. rewrite app_nil_r. split; [done|]. split; [done|].
    split; [lia|]. split; [lia|]. split; [apply prefix_nil|by right]. }
  rewrite bool_decide_true by done. unfold sender_ready. rewrite c_multi. cbn [negb orb].
  change (Ret (true, c) ≫= ?h) with (h (true, c)). cbn beta iota. rewrite ring_eq.
  apply wpc_load_same. intros w Γ (H & cs & ids & HI) Hj. cbn [fget sub_field connections_f]. rewrite (li_conn _ _ _ _ _ _ _ HI).
  destruct (Z.eqb_spec cc 0) as [?|_]; [done|]. clear w Γ H cs ids HI Hj. cbn [negb]. rewrite c_multi.
  apply wpc_act. intros w Γ (H & cs & ids & HI) Hj. rewrite c_name, c_prefix. fold chan_ids.
  destruct (log_small _ _ _ _ _ _ _ HI) as [_ Hids]. pose proof (li_ids _ _ _ _ _ _ _ HI) as Eids.
  exists (GW acc (Some (cc_id c, Z.of_nat ids, d)) b1 b2 WIdle). split.
  { cbn [snd]. rewrite Eids. assert (wrapping_add 32 (Z.of_nat ids) 1 = Z.of_nat (S ids)) as ->.
    { unfold wrapping_add. rewrite wrap_id by (unfold is_u; lia). lia. }
    exists H, cs, (S ids). change (log_inv (fget chan_ring w) (fget chan_table w) (fget chan_ids (fset chan_ids (Z.of_nat (S ids)) w))
      (<[j := GW acc (Some (cc_id c, Z.of_nat ids, d)) b1 b2 WIdle]> Γ) H cs (S ids)). rewrite get_set. by eapply inv_new_id. }
  assert (with_id (Z.of_nat ids) acc = []) as Hnew.
  { destruct (li_threads _ _ _ _ _ _ _ HI j _ Hj) as (-> & _). apply filter_none. intros pc Hpc Eid.
    apply list_elem_of_fmap in Hpc as ([w' pc'] & -> & [_ Hin]%list_elem_of_filter).
    destruct (li_idH _ _ _ _ _ _ _ HI _ _ Hin) as [? _]. simpl in Eid. lia. }
  cbn [fst]. rewrite Eids. change (Ret (?a, c) ≫= ?h) with (h (a, c)). cbn beta iota.
  apply wpc_bind. eapply wpc_conseq.
  { apply (send_full_wpc _ 0%nat j acc (Z.of_nat ids) d b1 b2 WIdle tmo); try done.
    - unfold is_u. lia.
    - pose proof (fragments_size d). lia.
    - by rewrite Hnew. }
  intros r g (ph' & parts & b1' & Hq' & -> & Hb' & Hpre & Hr). apply wpc_ret. split; [done|].
  exists (Z.of_nat ids), (Some (cc_id c, Z.of_nat ids, d)), b1', b2, ph', parts. rewrite drop_0 in *.
  split; [done|]. split; [done|]. apply prefix_length in Hpre as Hlen. rewrite length_pieces in Hlen.
  split; [lia|]. split; [lia|]. split; [done|]. destruct r as [[|]|]; [by left|by right|done].
Qed.

End programs.
(** *** Receiving *)

Lemma unot_sub x : is_u 64 x -> unot 64 x = 2 ^ 64 - 1 - x.
Proof.
  intros Hx. unfold unot. change (2 ^ 64 - 1) with (Z.ones 64). rewrite Z.sub_nocarry_ldiff; [done|].
  apply Z.bits_inj'. intros i Hi. rewrite Z.ldiff_spec, Z.bits_0, Z.testbit_ones_nonneg by lia.
  destruct (Z.ltb_spec i 64); [apply andb_false_r|]. rewrite (proj2 (proj1 (is_u_bits 64 x ltac:(lia)) Hx) i); done || lia.
Qed.

(** A reader that finds its position's flag raised: the position is in the log and committed. *)
Lemma committed R L idc Γ H cs ids j q got nx ph :
  log_inv R L idc Γ H cs ids -> Γ !! j = Some (GR q got nx ph) ->
  let cur := length got in
  f_ct_ (slot_at R cur) = unot 64 (Z.of_nat cur) -> (cur < length H)%nat /\ ~ pending Γ cur.
Proof.
  intros HI Hj cur Hf. pose proof HI as []. destruct (li_threads0 j _ Hj) as (Hq & Hb & Ecs & _). fold cur in Ecs.
  specialize (li_cs0 q Hq Hb). pose proof (log_small _ _ _ _ _ _ _ HI) as [Hsm _].
  rewrite unot_sub in Hf by (unfold is_u; lia).
  destruct (decide (cur = length H)) as [E|E].
  - exfalso. destruct (decide (cur < 256)%nat) as [Hs|Hs].
    { destruct (li_fresh0 cur ltac:(lia)) as (_ & E0 & _). lia. }
    assert (slot_at R cur = slot_at R (cur - 256)) as Es.
    { apply slot_at_mod. replace cur with ((cur - 256) + 1 * 256)%nat at 1 by lia. by rewrite Nat.Div0.mod_add. }
    rewrite Es in Hf. destruct (li_slots0 (cur - 256)%nat ltac:(lia)) as (Ec & _ & Hp & Hnp).
    assert (marks cs (cur - 256) <> 0 -> ~ handing_on Γ (cur - 256) -> ~ pending Γ (cur - 256) -> False) as Hlast.
    { intros Hm Hh Hn. destruct (Hnp Hn) as (_ & _ & Hu). rewrite Hu, unot_sub in Hf by (done || unfold is_u; lia). lia. }
    assert (pending Γ (cur - 256) -> False) as Hnot.
    { intros Hx. rewrite (Hp Hx) in Hf. destruct (_ <? 256)%nat; lia. }
    destruct (Hnp Hnot) as (_ & Hz & _). apply Hlast; [|intros Hx; rewrite Hz in Hf by auto; lia|done].
    intros Hx. rewrite Hz in Hf by auto. lia.
  - split; [lia|]. intros Hp. destruct (li_slots0 cur ltac:(lia)) as (_ & _ & Hfl & _). rewrite (Hfl Hp) in Hf.
    destruct (_ <? 256)%nat; lia.
Qed.

(** The word of the position a reader is about to release carries its mark. *)
Lemma reader_word R L idc Γ H cs ids j q got nx ph :
  log_inv R L idc Γ H cs ids -> Γ !! j = Some (GR q got nx ph) -> (length got < length H)%nat ->
  let rc := crc_ (slot_at R (length got)) in
  Z.land rc RC_MASK <> 0 /\ (Z.land (Z.land (inc_rc rc) (unot 64 (2 ^ q))) RC_MASK = 0 <-> Z.land rc RC_MASK = 2 ^ q).
Proof.
  intros HI Hj Hlt rc. pose proof HI as []. destruct (li_threads0 j _ Hj) as (Hq & Hb & Ecs & _).
  specialize (li_cs0 q Hq Hb). destruct (li_slots0 (length got) ltac:(lia)) as (Ec & _). pose proof BOUND_val.
  pose proof (gen_range cs (length got) ltac:(lia)) as Hg. pose proof (marks_u cs (length got)) as Hmu.
  pose proof (own_mark cs q Hq Hb) as Hown. rewrite Ecs in Hown. unfold rc. rewrite Ec.
  clear rc Ec. revert Hg Hmu Hown. generalize (gen cs (length got)). generalize (marks cs (length got)). intros M v Hv HM Hown. clear - Hq Hv HM Hown.
  rewrite inc_rc_pack, pack_clear by (lia || done || (apply is_u_pow2; lia)).
  rewrite !pack_marks by (lia || done || auto with width).
  split; [intros E; by rewrite E, Z.bits_0 in Hown|]. split; [intros E; apply land_eq_pow2; [lia|done..]|intros ->].
  apply Z.bits_inj'. intros i Hi. rewrite Z.land_spec, unot_spec, Z.bits_0 by lia. destruct (Z.testbit (2 ^ q) i); [by rewrite andb_false_r|done].
Qed.

(** Releasing a position: the reader has read one more entry. *)
Lemma release_slot_multi_wpc c n j q got pc ph :
  ci_name c = name -> ci_prefix c = prefix -> conn_id c = 2 ^ q ->
  (ph = RSeen \/ (exists rc, ph = RRel rc) \/ exists rc, ph = RLast rc) ->
  wpc chan_inv j (release_slot_multi t n c (Z.of_nat (length got)) (Z.of_nat (length got) + 256)) (GR q got (Some pc) ph)
    (fun _ g => g = GR q (got ++ [pc]) None RIdle).
Proof.
  intros En Ep Ec. revert ph. induction n as [|n IH]; intros ph Hph; cbn [release_slot_multi]; [done|].
  rewrite (ring_eq c En Ep). apply wpc_load. intros w Γ (H & cs & ids & HI) Hj.
  cbn [fget sub_field crc_f]. change (fget (channel_slot chan_ring _) w) with (slot_at (fget chan_ring w) (length got)).
  set (rc := crc_ (slot_at (fget chan_ring w) (length got))).
  pose proof (li_threads _ _ _ _ _ _ _ HI j _ Hj) as (Hq & Hb & Ecs & Hpre & Hok).
  assert ((length got < length H)%nat /\ ~ pending Γ (length got)) as [Hlt Hnp]
    by (destruct Hph as [->|[[? ->]|[? ->]]]; cbn [rphase_ok] in Hok; by destruct_and?).
  destruct (reader_word _ _ _ _ _ _ _ _ _ _ _ _ HI Hj Hlt) as [Hm Hlast]. fold rc in Hm, Hlast.
  destruct (Z.eqb_spec (Z.land rc RC_MASK) 0) as [?|_]; [done|]. rewrite Ec.
  set (nxt := Z.land (inc_rc rc) (unot 64 (2 ^ q))) in *.
  destruct (Z.eqb_spec (Z.land nxt RC_MASK) 0) as [Ez|Ez].
  - (* the last reader *)
    assert (exists ph', (ph' = ROnly rc \/ ph' = RLast rc) /\ same_view (GR q got (Some pc) ph) (GR q got (Some pc) ph')) as (ph' & Hph' & Hv).
    { destruct Hph as [->|[[? ->]|[rc' ->]]]; [exists (ROnly rc); split; [by left|done]..|].
      exists (RLast rc). split; [by right|]. done. }
    exists (GR q got (Some pc) ph'). split.
    { eapply learn; [done|done|]. exists H, cs, ids. split; [done|]. split; [done|]. split; [done|]. split; [done|]. split; [done|].
      destruct Hph' as [->| ->]; (split; [done|]; split; [done|]; split; [done|]; by apply Hlast). }
    clearbody rc. clear w Γ H cs ids HI Hj Ecs Hpre Hok Hlt Hnp Hv Hlast.
    apply wpc_act. intros w Γ (H & cs & ids & HI) Hj. exists (GR q got (Some pc) (RLast rc)). split.
    { eapply chan_inv_ring, inv_last; eauto. }
    clear w Γ H cs ids HI Hj. apply wpc_cas_weak; [|intros x; apply IH; eauto].
    intros w Γ (H & cs & ids & HI) Hj E. exists (GR q (got ++ [pc]) None RIdle). split; [|done].
    eapply chan_inv_ring, inv_release; eauto.
  - exists (GR q got (Some pc) (RRel rc)). split.
    { eapply learn; [done| |].
      - destruct Hph as [->|[[? ->]|[rc' ->]]]; [done|done|]. destruct Ez. apply Hlast.
        destruct Hok as (_ & _ & E & E2). unfold rc. by rewrite E.
      - exists H, cs, ids. split; [done|]. split; [done|]. split; [done|]. split; [done|]. split; [done|].
        split; [done|]. split; [done|]. by right. }
    clearbody rc. clear w Γ H cs ids HI Hj Ecs Hpre Hok Hlt Hnp Hlast.
    change (Ret tt ≫= ?h) with (h tt). cbn beta.
    apply wpc_cas_weak; [|intros x; apply IH; eauto].
    intros w Γ (H & cs & ids & HI) Hj E. exists (GR q (got ++ [pc]) None RIdle). split; [|done].
    eapply chan_inv_ring, inv_release; eauto.
Qed.

(** The endpoint of a reader that has read [got]. *)
Record reads (c : ChanInner) (q : Z) (got : list piece) : Prop := {
  rd_name : ci_name c = name;
  rd_prefix : ci_prefix c = prefix;
  rd_multi : ci_multi c = true;
  rd_mode : ci_mode c = Receiver;
  rd_bit : conn_id c = 2 ^ q;
  rd_cursor : read_cursor c = Z.of_nat (length got);
  rd_cache : cache_ok (recv_cache c) got;
  rd_other : forall d, (cc_id c, d) ∉ offers;
}.

Lemma orderly_prefix l l' : l `prefix_of` l' -> orderly l' -> orderly l.
Proof.
  intros [k ->] Ho p pc Hp. destruct (Ho p pc) as [Ei Hs]; [by apply lookup_app_l_Some|].
  rewrite take_app_le in Ei by (apply lookup_lt_Some in Hp; lia). split; [done|].
  intros p' pc' Hp'. apply (Hs p'). by apply lookup_app_l_Some.
Qed.

(** The entry at a committed position, as the reader sees it. *)
Lemma committed_piece R L idc Γ H cs ids j q got ph : log_inv R L idc Γ H cs ids ->
  Γ !! j = Some (GR q got None ph) -> (length got < length H)%nat -> ~ pending Γ (length got) ->
  exists pc, carries pc (cdata_ (slot_at R (length got))) /\ (got ++ [pc]) `prefix_of` (snd <$> H) /\
    piece_ok pc /\ orderly (got ++ [pc]).
Proof.
  intros HI Hj Hlt Hnp. pose proof HI as []. destruct (li_threads0 j _ Hj) as (Hq & Hb & Ecs & Hpre & _).
  specialize (li_cs0 q Hq Hb). destruct (li_slots0 (length got) ltac:(lia)) as (_ & _ & _ & Hs).
  destruct (Hs Hnp) as ((w & pc & Hpc & Hcar) & _). exists pc. split; [done|]. cbn [option_list] in Hpre. rewrite app_nil_r in Hpre.
  assert ((got ++ [pc]) `prefix_of` (snd <$> H)) as Hpre'.
  { destruct Hpre as [rest Er]. assert (rest !! 0%nat = Some pc) as E0.
    { rewrite <- (Nat.sub_diag (length got)), <- lookup_app_r by lia. by rewrite <- Er, list_lookup_fmap, Hpc. }
    destruct rest as [|x rest]; [done|]. simplify_eq/=. exists rest. by rewrite Er, <- app_assoc. }
  split; [done|]. split; [|by eapply orderly_prefix]. by apply (li_idH0 w pc), list_elem_of_lookup_2 with (length got).
Qed.

Lemma decode_piece pc d my : carries pc d -> piece_ok pc -> (forall x, (my, x) ∉ offers) ->
  exists fr, piece_frag pc = Some fr /\ decode_slot my d = mk_decoded true (pc_id pc) fr.1 (DATA_LENGTH + fr.1) None (Some fr.2).
Proof.
  intros (d0 & fr & Hd0 & Hfr & ->) (Hin & Hcc & Hid & Hsz & _) Hmy. exists fr. split; [done|].
  apply decode_written; try done; [by eapply fragment_well_formed|]. intros E. apply (Hmy (pc_data pc)). by rewrite <- E.
Qed.

(** What [recv] does for a reader: it reads on in the log until a message is complete, or it
    gives up with an empty buffer; it never panics. *)
Definition recv_post (q : Z) (got : list piece) (r : recv_result) (g : ghost) : Prop :=
  exists l b c', r = (Returned (Ok b), c') /\ g = GR q (got ++ l) None RIdle /\ reads c' q (got ++ l) /\
    (completed l = [IpcBuffer.data b] \/ b = IpcBuffer.new /\ completed l = []).

Lemma recv_multi_loop_wpc fuel n j c q got deadline :
  reads c q got ->
  wpc chan_inv j (recv_multi_loop t fuel n c deadline) (GR q got None RIdle) (recv_post q got).
Proof.
  revert c got. induction n as [|n IH]; intros c got Hc; cbn [recv_multi_loop]; [done|]. destruct Hc.
  rewrite (ring_eq c) by done. rewrite rd_cursor0.
  apply wpc_load. intros w Γ (H & cs & ids & HI) Hj. cbn [fget sub_field f_ct_f].
  change (fget (channel_slot chan_ring _) w) with (slot_at (fget chan_ring w) (length got)).
  destruct (Z.eqb_spec (f_ct_ (slot_at (fget chan_ring w) (length got))) (unot 64 (Z.of_nat (length got)))) as [Ef|Ef]; cbn [negb].
  2:{ exists (GR q got None RIdle). rewrite list_insert_id by done. split; [by exists H, cs, ids|]. clear w Γ H cs ids HI Hj Ef.
    assert (forall e : bool, wpc chan_inv j (if e then returned (Ok IpcBuffer.new) c else recv_multi_loop t fuel n c deadline)
      (GR q got None RIdle) (recv_post q got)) as Hrest.
    { intros []; [|by apply IH]. apply wpc_ret. exists [], IpcBuffer.new, c. rewrite app_nil_r. split; [done|]. split; [done|]. split; [done|by right]. }
    destruct deadline; [|exact (Hrest false)]. apply now_wpc. intros x. exact (Hrest (_ <=? x)). }
  destruct (committed _ _ _ _ _ _ _ _ _ _ _ _ HI Hj Ef) as [Hlt Hnp].
  exists (GR q got None RSeen). split.
  { eapply learn; [done|done|]. exists H, cs, ids. split; [done|].
    pose proof (li_threads _ _ _ _ _ _ _ HI j _ Hj) as (? & ? & ? & ? & _). do 4 (split; [done|]). by split. }
  clear w Γ H cs ids HI Hj Hlt Hnp Ef.
  apply wpc_load. intros w Γ (H & cs & ids & HI) Hj. cbn [fget sub_field cdata_f].
  change (fget (channel_slot chan_ring _) w) with (slot_at (fget chan_ring w) (length got)).
  pose proof (li_threads _ _ _ _ _ _ _ HI j _ Hj) as (Hq & Hb & Ecs & _ & Hlt & Hnp).
  destruct (committed_piece _ _ _ _ _ _ _ _ _ _ _ HI Hj Hlt Hnp) as (pc & Hcar & Hpre & Hok & Hord).
  destruct (decode_piece _ _ (cc_id c) Hcar Hok rd_other0) as (fr & Hfr & ->).
  exists (GR q got (Some pc) RSeen). split.
  { eapply learn; [done|done|]. exists H, cs, ids. split; [done|]. do 4 (split; [done|]). by split. }
  assert (wrapping_add 32 (Z.of_nat (length got)) 1 = Z.of_nat (length (got ++ [pc]))) as ->.
  { destruct (log_small _ _ _ _ _ _ _ HI) as [Hsm _]. unfold wrapping_add. rewrite wrap_id by (unfold is_u; lia). rewrite length_app. simpl. lia. }
  clear w Γ H cs ids HI Hj Hlt Hnp Hcar Hpre Ecs.
  replace (Z.of_nat (length (got ++ [pc])) + (RING_SIZE - 1)) with (Z.of_nat (length got) + 256)
    by (rewrite length_app; change RING_SIZE with 256; simpl; lia).
  apply wpc_bind. eapply wpc_conseq; [by apply release_slot_multi_wpc; auto|]. intros [] g ->.
  apply broadcast_wpc. unfold assemble_message. cbn [d_keep negb d_storage_id d_frag d_id d_remain d_r_size].
  destruct (assemble_piece (recv_cache c) got pc fr Hord Hfr rd_cache0) as (b & cache' & E & Hcache & Hcomp).
  change (recv_cache (set_read_cursor _ c)) with (recv_cache c). rewrite E.
  set (c1 := set_recv_cache cache' (set_read_cursor _ c)).
  assert (reads c1 q (got ++ [pc])) as Hc1 by (by constructor).
  change (Ret (?a, c1) ≫= ?h) with (h (a, c1)). cbn beta iota. destruct b as [b|].
  - apply wpc_ret. exists [pc], b, c1. split; [done|]. split; [done|]. split; [done|by left].
  - eapply wpc_conseq; [by apply IH|]. intros r g (l & b & c' & -> & -> & Hr & Hl). exists (pc :: l), b, c'.
    rewrite <- !app_assoc in *. split; [done|]. split; [done|]. split; [done|]. pose proof (completed_app [pc] l) as Ha. rewrite Hcomp in Ha. simpl in Ha. by rewrite Ha.
Qed.

Lemma recv_wpc fuel j c q got tmo : reads c q got ->
  wpc chan_inv j (recv t fuel c tmo) (GR q got None RIdle) (recv_post q got).
Proof.
  intros Hc. unfold recv. rewrite (rd_multi _ _ _ Hc). unfold recv_multi. rewrite bool_decide_true by (apply Hc). cbn [negb].
  destruct tmo as [ms|]; cbn [deadline_of]; [apply now_wpc; intros x|]; by apply recv_multi_loop_wpc.
Qed.

(** *** Whole sessions *)

Section sessions.
Context (o : os) (fuel : nat).

(** A writer that sends its messages one after the other, and a reader that calls [recv] a number of times. *)
Fixpoint send_all (c : ChanInner) (msgs : list (list Z)) (tmo : Z) : prog world (list (io_result bool)) :=
  match msgs with
  | [] => Ret []
  | d :: msgs =>
      r ← send o t fuel c d tmo;
      rs ← send_all r.2 msgs tmo;
      Ret (r.1 :: rs)
  end.

Fixpoint recv_all (n : nat) (c : ChanInner) (tmo : option Z) : prog world (list (outcome (io_result IpcBuffer))) :=
  match n with
  | O => Ret []
  | S n =>
      r ← recv t fuel c tmo;
      rs ← recv_all n r.2 tmo;
      Ret (r.1 :: rs)
  end.

Lemma send_all_wpc j c msgs tmo acc m b1 b2 ph :
  ci_name c = name -> ci_prefix c = prefix -> ci_multi c = true -> ci_mode c = Sender -> is_u 32 (cc_id c) ->
  Forall (fun d => (cc_id c, d) ∈ offers /\ Z.of_nat (length d) < 2 ^ 31) msgs ->
  quiet ph -> (sum_list (length ∘ fragments <$> msgs) <= b1)%nat -> (length msgs <= b2)%nat ->
  wpc chan_inv j (send_all c msgs tmo) (GW acc m b1 b2 ph) (fun rs g => exists parts m' b1' b2' ph',
    g = GW (acc ++ parts) m' b1' b2' ph' /\ sent_as (cc_id c) msgs rs parts).
Proof.
  intros En Ep Em Emo Hcc Hms. revert acc m b1 b2 ph. induction Hms as [|d msgs [Hoff Hsz] Hms IH]; intros acc m b1 b2 ph Hq H1 H2; cbn [send_all].
  { apply wpc_ret. exists [], m, b1, b2, ph. rewrite app_nil_r. split; [done|constructor]. }
  csimpl in H1. simpl in H2. destruct b2 as [|b2]; [lia|].
  apply wpc_bind. eapply wpc_conseq; [apply send_wpc; try done; unfold compose in *; lia|].
  intros [r c'] g [E (i & m' & b1' & b2' & ph' & parts & Hq' & -> & Hb1 & Hb2 & Hpre & Hr)]. simpl in E, Hr. subst c'. cbn [fst snd].
  apply wpc_bind. eapply wpc_conseq; [apply IH; [done|unfold compose in *; lia|lia]|].
  intros rs g (parts2 & m2 & b12 & b22 & ph2 & -> & Hs). apply wpc_ret.
  exists (parts ++ parts2), m2, b12, b22, ph2. rewrite app_assoc. split; [done|]. by econstructor.
Qed.

Lemma recv_all_wpc j n c q got tmo : reads c q got ->
  wpc chan_inv j (recv_all n c tmo) (GR q got None RIdle) (fun outs g => exists l bs,
    g = GR q (got ++ l) None RIdle /\ outs = (fun b => Returned (Ok b)) <$> bs /\ completed l = nonempty bs).
Proof.
  revert c got. induction n as [|n IH]; intros c got Hc; cbn [recv_all].
  { apply wpc_ret. exists [], []. by rewrite app_nil_r. }
  apply wpc_bind. eapply wpc_conseq; [by apply recv_wpc|]. intros r g (l & b & c' & -> & -> & Hc' & Hl). cbn [fst snd].
  apply wpc_bind. eapply wpc_conseq; [by apply IH|]. intros outs g (l' & bs & -> & -> & Hl'). apply wpc_ret.
  exists (l ++ l'), (b :: bs). rewrite app_assoc. split; [done|]. split; [done|]. rewrite completed_app, Hl', nonempty_cons.
  destruct Hl as [E|[-> E]]; [|by rewrite E]. rewrite E. destruct (decide _) as [Hb|]; [done|].
  exfalso. apply (completed_nonempty l (IpcBuffer.data b)); [rewrite E; left|]. by apply dec_stable.
Qed.

End sessions.

End channel.

(** ** The theorem *)

Inductive role :=
| Writer (c : ChanInner) (msgs : list (list Z)) (timeout_ms : Z)
| Reader (c : ChanInner) (calls : nat) (timeout_ms : option Z).

Inductive report :=
| Sent (rs : list (io_result bool))
| Received (outs : list (outcome (io_result IpcBuffer))).

Definition role_prog (o : os) (t : target) (fuel : nat) (r : role) : prog world report :=
  match r with
  | Writer c msgs tmo => rs ← send_all t o fuel c msgs tmo; Ret (Sent rs)
  | Reader c n tmo => outs ← recv_all t fuel n c tmo; Ret (Received outs)
  end.

Definition role_offers (r : role) : list (Z * list Z) :=
  match r with Writer c msgs _ => pair (cc_id c) <$> msgs | Reader _ _ _ => [] end.

Definition role_pushes (r : role) : nat :=
  match r with Writer _ msgs _ => sum_list (length ∘ fragments <$> msgs) | Reader _ _ _ => 0 end.

Definition role_sends (r : role) : nat :=
  match r with Writer _ msgs _ => length msgs | Reader _ _ _ => 0 end.

(** A channel on which nothing has been sent, with the receivers [cc] connected. *)
Record fresh_channel (t : target) (prefix name : string) (cc : Z) (w : world) : Prop := {
  fc_conn : connections (fget (chan_ring t prefix name) w) = cc;
  fc_epoch : epoch (fget (chan_ring t prefix name) w) = 0;
  fc_cursor : write_cursor (fget (chan_ring t prefix name) w) = 0;
  fc_slots : forall p, (p < 256)%nat -> let e := slot_at (fget (chan_ring t prefix name) w) p in
    crc_ e = 0 /\ f_ct_ e = 0 /\ length (cdata_ e) = 80%nat;
  fc_ids : fget (chan_ids prefix name) w = 0;
  fc_since : forall q, Z.testbit cc q = true -> so_since (fget (chan_table prefix name) w !!! q) = 0;
}.

(** The endpoint of a role, as [open] makes it. *)
Definition endpoint_of (r : role) : ChanInner := match r with Writer c _ _ | Reader c _ _ => c end.

Definition on_channel (prefix name : string) (r : role) : Prop :=
  let c := endpoint_of r in
  ci_name c = name /\ ci_prefix c = prefix /\ ci_multi c = true /\ is_u 32 (cc_id c) /\
  match r with
  | Writer _ msgs _ => ci_mode c = Sender /\ Forall (fun d => Z.of_nat (length d) < 2 ^ 31) msgs
  | Reader _ _ _ => ci_mode c = Receiver /\ read_cursor c = 0 /\ recv_cache c = ∅
  end.

Record session_ok (prefix name : string) (cc : Z) (roles : list role) : Prop := {
  so_roles : Forall (on_channel prefix name) roles;
  so_bits : forall j c n tmo, roles !! j = Some (Reader c n tmo) -> exists q, 0 <= q < 32 /\ conn_id c = 2 ^ q /\ Z.testbit cc q = true;
  so_distinct : forall j j' c c' n n' tmo tmo', roles !! j = Some (Reader c n tmo) -> roles !! j' = Some (Reader c' n' tmo') ->
    conn_id c = conn_id c' -> j = j';
  so_cc : forall j j' c c' n ms tmo tmo', roles !! j = Some (Reader c n tmo) -> roles !! j' = Some (Writer c' ms tmo') -> cc_id c <> cc_id c';
  so_pushes : (sum_list (role_pushes <$> roles) <= BOUND)%nat;
  so_sends : (sum_list (role_sends <$> roles) <= BOUND)%nat;
}.

Definition ghost_of (r : role) : ghost :=
  match r with
  | Writer _ _ _ => GW [] None (role_pushes r) (role_sends r) WIdle
  | Reader c _ _ => GR (Z.log2 (conn_id c)) [] None RIdle
  end.

Definition role_post (r : role) (x : report) (g : ghost) : Prop :=
  match r with
  | Writer c msgs _ => exists rs parts m b1 b2 ph, x = Sent rs /\ g = GW parts m b1 b2 ph /\ sent_as (cc_id c) msgs rs parts
  | Reader c _ _ => exists bs got, x = Received ((fun b => Returned (Ok b)) <$> bs) /\
      g = GR (Z.log2 (conn_id c)) got None RIdle /\ completed got = nonempty bs
  end.

Section session.
Context (o : os) (t : target) (fuel : nat) (prefix name : string) (cc : Z) (roles : list role) (w : world).
Hypothesis Hcc : is_u 32 cc.
Hypothesis Hcc0 : cc <> 0.
Hypothesis Hfresh : fresh_channel t prefix name cc w.
Hypothesis Hok : session_ok prefix name cc roles.

Abbreviation offers := (roles ≫= role_offers).
Abbreviation inv := (chan_inv t prefix name cc offers).

Lemma log2_bit c q : conn_id c = 2 ^ q -> 0 <= q -> Z.log2 (conn_id c) = q.
Proof. intros -> Hq. by apply Z.log2_pow2. Qed.

Lemma roles_quiet f : (forall r, f (ghost_of r) = None) -> forall p, ~ some_thread f (ghost_of <$> roles) p.
Proof. intros Hf p (j & g & Hj & E). rewrite list_lookup_fmap in Hj. destruct (roles !! j) as [r|]; simplify_eq/=. by rewrite Hf in E. Qed.

Lemma sum_ghost (f : ghost -> nat) (h : role -> nat) : (forall r, f (ghost_of r) = h r) -> sum_list (f <$> (ghost_of <$> roles)) = sum_list (h <$> roles).
Proof. intros E. rewrite <- list_fmap_compose. f_equal. apply list_fmap_ext. intros j r _. apply E. Qed.

Lemma session_start : inv w (ghost_of <$> roles).
Proof.
  destruct Hfresh, Hok. exists [], (fun _ => 0%nat), 0%nat.
  constructor; try done.
  - rewrite (sum_ghost _ role_sends) by (by intros []). done.
  - rewrite (sum_ghost _ role_pushes) by (by intros []). done.
  - intros ? ? Hx. by apply elem_of_nil in Hx.
  - by left.
  - intros ? ? ?. simpl. lia.
  - intros p Hp. exfalso. by apply (roles_quiet busy_at) in Hp; [|intros []].
  - intros p. simpl. lia.
  - intros p [_ Hp]. by apply fc_slots0.
  - intros j g Hj. rewrite list_lookup_fmap in Hj. destruct (roles !! j) as [[c msgs tmo|c n tmo]|] eqn:E; simplify_eq/=; [done|].
    destruct (so_bits0 j _ _ _ E) as (q & Hq & Eq & Hb). rewrite (log2_bit c q) by (done || lia). do 3 (split; [done|]). split; [apply prefix_nil|done].
  - intros j j' q got got' nx nx' ph ph' Hj Hj'. rewrite list_lookup_fmap in Hj, Hj'.
    destruct (roles !! j) as [[|c n tmo]|] eqn:E; simplify_eq/=. destruct (roles !! j') as [[|c' n' tmo']|] eqn:E'; simplify_eq/=.
    destruct (so_bits0 j _ _ _ E) as (q & Hq & Eq & _). destruct (so_bits0 j' _ _ _ E') as (q' & Hq' & Eq' & _).
    eapply so_distinct0; [done|done|]. rewrite (log2_bit c q), (log2_bit c' q') in * by (done || lia). congruence.
  - intros j j' acc acc' c c' i d d' b1 b2 b1' b2' ph ph' Hj. rewrite list_lookup_fmap in Hj. by destruct (roles !! j) as [[]|].
Qed.

Lemma role_verified j r : roles !! j = Some r -> wpc inv j (role_prog o t fuel r) (ghost_of r) (role_post r).
Proof.
  intros Hj. destruct Hok. pose proof (proj1 (Forall_lookup _ _) so_roles0 j r Hj) as (En & Ep & Em & Hid & Hr).
  destruct r as [c msgs tmo|c n tmo]; cbn [role_prog ghost_of] in *.
  - destruct Hr as [Hm Hsz]. apply wpc_bind. eapply wpc_conseq.
    { apply (send_all_wpc t prefix name cc); try done. apply Forall_forall. intros d Hd. split; [|by eapply (proj1 (Forall_forall _ _) Hsz)].
      apply list_elem_of_bind. exists (Writer c msgs tmo). split; [|by eapply list_elem_of_lookup_2]. apply list_elem_of_fmap. by exists d. }
    intros rs g (parts & m & b1 & b2 & ph & -> & Hs). apply wpc_ret. exists rs, parts, m, b1, b2, ph. done.
  - destruct Hr as (Hm & Hcur & Hcache). destruct (so_bits0 j _ _ _ Hj) as (q & Hq & Eq & Hb). rewrite (log2_bit c q) by (done || lia).
    apply wpc_bind. eapply wpc_conseq.
    { apply (recv_all_wpc t prefix name cc); [done|]. constructor; try done.
      - simpl in Hcache. rewrite Hcache. intros id. split; [done|]. intros pc Hx. by apply elem_of_nil in Hx.
      - intros d ([c' ms tmo'|] & Hd & Hin)%list_elem_of_bind; [|by apply elem_of_nil in Hd].
        apply list_elem_of_lookup_1 in Hin as [j' Hj']. apply list_elem_of_fmap in Hd as (d' & E & _). simplify_eq. by eapply so_cc0. }
    intros outs g (l & bs & -> & -> & Hl). apply wpc_ret. exists bs, l. rewrite (log2_bit c q) by (done || lia). done.
Qed.

End session.

(** C1: a multi-writer channel is a broadcast log.  Whatever the interleaving of any number of
    senders and receivers, on a freshly opened channel whose receivers stay connected, with at most 2^26
    pushes and sends in all: there is a log of fragments, each of a message some sender was asked to send, in which the fragments of one message are in order
    under an id of their own; a sender that has finished has put into the log, in order, all the
    fragments of each message for which [send] returned [Ok true], and an initial part of the others;
    and a receiver that has finished has got exactly the messages completed in an initial part of the
    log, in the order of the log, without an error or a panic. *)
Theorem channel_broadcast o t fuel prefix name cc roles w w' ps :
  is_u 32 cc -> cc <> 0 -> fresh_channel t prefix name cc w -> session_ok prefix name cc roles ->
  pool_reach (w, role_prog o t fuel <$> roles) (w', ps) ->
  exists H : list (nat * piece),
    (forall j pc, (j, pc) ∈ H -> exists c msgs tmo i, roles !! i = Some (Writer c msgs tmo) /\ pc_cc pc = cc_id c /\ pc_data pc ∈ msgs) /\
    orderly (snd <$> H) /\
    (forall j c msgs tmo x, roles !! j = Some (Writer c msgs tmo) -> ps !! j = Some (Ret x) ->
       exists rs, x = Sent rs /\ sent_as (cc_id c) msgs rs (by_writer j H)) /\
    (forall j c n tmo x, roles !! j = Some (Reader c n tmo) -> ps !! j = Some (Ret x) ->
       exists bs m, x = Received ((fun b => Returned (Ok b)) <$> bs) /\ nonempty bs = completed (take m (snd <$> H))).
Proof.
  intros Hcc Hcc0 Hfresh Hok Hreach.
  destruct (pool_verified (chan_inv t prefix name cc (roles ≫= role_offers))
    (fun j x g => forall r, roles !! j = Some r -> role_post r x g) w (role_prog o t fuel <$> roles) (ghost_of <$> roles) w' ps) as (Γ & (H & cs & ids & HI) & Hv); [|split|done|].
  - by apply session_start.
  - by rewrite !length_fmap.
  - intros j p g Hp Hg. apply list_lookup_fmap_Some in Hp as (r0 & -> & Hr0). apply list_lookup_fmap_Some in Hg as (r & -> & Er). simplify_eq.
    eapply wpc_conseq; [by eapply role_verified|]. intros x g Hx r' Hr'. by simplify_eq.
  - exists H. split; [|split; [|split]].
    + intros j pc Hin. destruct (li_idH _ _ _ _ _ _ _ _ _ HI _ _ Hin) as [_ (Hoff & _)].
      apply list_elem_of_bind in Hoff as ([c msgs tmo|] & Hd & Hr); [|by apply elem_of_nil in Hd].
      apply list_elem_of_lookup_1 in Hr as [i Hi]. apply list_elem_of_fmap in Hd as (d & E & Hd). simplify_eq.
      exists c, msgs, tmo, i. split; [done|]. split; [congruence|]. by simplify_eq.
    + by apply (li_orderly _ _ _ _ _ _ _ _ _ HI).
    + intros j c msgs tmo x Hr Hx. destruct (verified_ret _ _ _ _ _ _ Hv Hx) as (g & Hg & Hq).
      destruct (Hq _ Hr) as (rs & parts & m & b1 & b2 & ph & -> & -> & Hs). exists rs. split; [done|].
      destruct (li_threads _ _ _ _ _ _ _ _ _ HI j _ Hg) as (<- & _). done.
    + intros j c n tmo x Hr Hx. destruct (verified_ret _ _ _ _ _ _ Hv Hx) as (g & Hg & Hq).
      destruct (Hq _ Hr) as (bs & got & -> & -> & Hs). exists bs, (length got). split; [done|].
      destruct (li_threads _ _ _ _ _ _ _ _ _ HI j _ Hg) as (_ & _ & _ & [rest E] & _). simpl in E. rewrite app_nil_r in E.
      by rewrite E, take_app_length.
Qed.

(** Two receivers and two senders open a channel; one sender's message has two fragments. *)
Definition open_four : prog world (io_result (list ChanInner)) :=
  r1 ←? open demo_os x86_64_linux 2 "" "ch" Receiver true;
  r2 ←? open demo_os x86_64_linux 2 "" "ch" Receiver true;
  s1 ←? open demo_os x86_64_linux 2 "" "ch" Sender true;
  s2 ←? open demo_os x86_64_linux 2 "" "ch" Sender true;
  Ret (Ok [s1; s2; r1; r2]).

Definition four : list ChanInner * world :=
  match eval open_four empty_world with Some (Ok l, w) => (l, w) | _ => ([], empty_world) end.

Definition four_roles : list role :=
  match four.1 with
  | [s1; s2; r1; r2] => [Writer s1 [[1; 2; 3]; [4]] 1000; Writer s2 [seqZ 0 70] 1000; Reader r1 3 (Some 0); Reader r2 2 (Some 0)]
  | _ => []
  end.

(** The senders take turns, then the receivers. *)
Definition four_schedule : list (nat * bool) :=
  concat (replicate 60 [(0%nat, false); (1%nat, false)]) ++ concat (replicate 60 [(2%nat, false); (3%nat, false)]).

Definition four_end : world * list (prog world report) :=
  run_sched four_schedule (four.2, role_prog demo_os x86_64_linux 20 <$> four_roles).

Lemma four_runs : pool_reach (four.2, role_prog demo_os x86_64_linux 20 <$> four_roles) (four_end.1, four_end.2).
Proof. exact (run_sched_reach four_schedule four.2 (role_prog demo_os x86_64_linux 20 <$> four_roles)). Qed.

Lemma four_fresh : fresh_channel x86_64_linux "" "ch" 3 four.2.
Proof.
  constructor; [vm_compute; done..| | |].
  - intros p Hp. unfold slot_at.
    assert (channel_slots (fget (chan_ring x86_64_linux "" "ch") four.2) = ∅) as -> by (by vm_compute).
    by rewrite lookup_total_empty.
  - by vm_compute.
  - intros q Hq. assert (q = 0 \/ q = 1) as [->| ->]; [|by vm_compute..].
    destruct (Z.le_gt_cases 0 q); [|by rewrite Z.testbit_neg_r in Hq by lia].
    destruct (decide (q = 0)); [by left|]. destruct (decide (q = 1)); [by right|].
    exfalso. rewrite Z.bits_above_log2 in Hq; [done|done|]. change (Z.log2 3) with 1. lia.
Qed.

Lemma four_ok : session_ok "" "ch" 3 four_roles.
Proof.
  assert (exists s1 s2 r1 r2, let roles := [Writer s1 [[1; 2; 3]; [4]] 1000; Writer s2 [seqZ 0 70] 1000; Reader r1 3 (Some 0); Reader r2 2 (Some 0)] in
    four_roles = roles /\ conn_id r1 = 1 /\ conn_id r2 = 2 /\ (cc_id <$> [r1; r2; s1; s2]) = [1; 2; 3; 4] /\
    Forall (fun r => let c := endpoint_of r in ci_name c = "ch" /\ ci_prefix c = "" /\ ci_multi c = true) roles /\
    ci_mode s1 = Sender /\ ci_mode s2 = Sender /\ ci_mode r1 = Receiver /\ ci_mode r2 = Receiver /\
    read_cursor r1 = 0 /\ read_cursor r2 = 0 /\ recv_cache r1 = ∅ /\ recv_cache r2 = ∅)
    as (s1 & s2 & r1 & r2 & E & B1 & B2 & I & Hall & M1 & M2 & M3 & M4 & C1 & C2 & K1 & K2).
  { eexists _, _, _, _. split; [vm_compute; reflexivity|]. split_and!; try reflexivity. by repeat constructor. }
  injection I as I1 I2 I3 I4. rewrite E. clear E. constructor.
  - repeat match goal with H : Forall _ (_ :: _) |- _ => apply Forall_cons in H as [(? & ? & ?) ?] end. simpl in *.
    apply Forall_lookup. intros [|[|[|[|[]]]]] r Hr; simplify_eq/=; do 3 (split; [done|]); (split; [unfold is_u; simpl; lia|]); (split; [done|]); try done;
      repeat (apply Forall_cons; split; [vm_compute; reflexivity|]); by apply Forall_nil.
  - intros [|[|[|[|[]]]]] c k tmo Hj; simplify_eq/=; [exists 0|exists 1]; (split; [lia|done]).
  - intros [|[|[|[|[]]]]] [|[|[|[|[]]]]] c c' k k' tmo tmo' Hj Hj' Ec; simplify_eq/=; done || congruence.
  - intros [|[|[|[|[]]]]] [|[|[|[|[]]]]] c c' k ms tmo tmo' Hj Hj' Ec; simplify_eq/=; congruence.
  - pose proof BOUND_val. match goal with |- (?x <= _)%nat => change x with 4%nat end. lia.
  - pose proof BOUND_val. simpl. lia.
Qed.

(** The first receiver has got the three messages, the second the first two. *)
Lemma channel_broadcast_witness :
  exists (H : list (nat * piece)) m m', completed (take m (snd <$> H)) = [[1; 2; 3]; [4]; seqZ 0 70] /\
    completed (take m' (snd <$> H)) = [[1; 2; 3]; [4]].
Proof.
  destruct (channel_broadcast demo_os x86_64_linux 20 "" "ch" 3 four_roles four.2 four_end.1 four_end.2) as (H & _ & _ & _ & Hr).
  - unfold is_u. lia.
  - lia.
  - exact four_fresh.
  - exact four_ok.
  - exact four_runs.
  - exists H. edestruct (Hr 2%nat) as (bs & m & E & Hm); [vm_compute; reflexivity..|].
    edestruct (Hr 3%nat) as (bs' & m' & E' & Hm'); [vm_compute; reflexivity..|].
    exists m, m'. rewrite <- Hm, <- Hm'. clear - E E'.
    destruct bs as [|b1 [|b2 [|b3 []]]]; try discriminate. injection E as <- <- <-.
    destruct bs' as [|b1' [|b2' []]]; try discriminate. injection E' as <- <-. by vm_compute.
Defined.
