(* ===== verification/Endpoint.v ===== *)
(** * Connecting and disconnecting

    [ChanInner::open], [disconnect], [sender_ready] and what they do to the
    connection mask, the owner table and the sole-sender record.  [open] as a
    receiver reaps the dead, takes the lowest free bit, records itself and starts
    at the write cursor, or fails with the mask full; [disconnect] undoes it and is
    idempotent; a sender of a route is refused while another live one holds the
    claim. *)
From S2P Require Import Prelude Atomics Locks Circ Abi ShmName Buffer Liveness ChunkStorage Ring Channel Fragments Route.

#[local] Transparent ci_ring.

#[local] Instance connections_f_lawful : LawfulField connections_f. Proof. split; by intros. Qed.

#[local] Instance table_conns_independent n m :
  Independent (liveness_of n) (sub_field (ring_of m) connections_f).
Proof. split; by intros. Qed.


Section reaping.
Context (o : os) (lv : string) (rn : string).


End reaping.

Section receiver.
Context (o : os) (t : target) (fuel : nat) (prefix name : string) (multi : bool).

#[local] Abbreviation RN := (ring_of (ring_shm_name t prefix name)).
#[local] Abbreviation LN := (liveness_of (liveness_shm_name prefix name)).










End receiver.

(** ** [open] and [disconnect] *)










#[local] Instance sender_owner_lawful : LawfulField sender_owner_f. Proof. split; by intros. Qed.

(** The record of the sole sender after this process lets go of it. *)
Definition let_go (o : os) (R : ring) : ring :=
  if so_pid (sender_owner R) =? self_pid o
  then fset sender_owner_f (mk_SlotOwner 0 (so_since (sender_owner R)) 0) R else R.

(** C28: disconnecting gives back exactly what the endpoint held.  A receiver clears its
    own bit of the mask, its entry of the owner table and its reassembly cache, and wakes the
    writers; a sender decrements the sender count and, on a route, gives up the claim if the
    record shows this process.  Nothing else of the ring or of the table changes, the
    endpoint is no longer valid, and disconnecting again does nothing. *)
Theorem disconnect_spec o t n c w i :
  disconnected c = false -> 0 <= i < 32 -> (ci_mode c = Receiver -> conn_id c = 2 ^ i) ->
  runs n (c1 ← disconnect o t c; c2 ← disconnect o t c1; Ret (c1, c2)) w (fun cs w' =>
    let '(c1, c2) := cs in
    let R := fget (ci_ring t c) w in
    c2 = c1 /\ valid c1 = false /\
    match ci_mode c with
    | Receiver =>
        fget (ci_ring t c) w' = fset connections_f (Z.land (connections R) (unot 32 (2 ^ i))) R /\
        fget (ci_table c) w' = <[i := cleared (fget (ci_table c) w !!! i)]> (fget (ci_table c) w) /\
        recv_cache c1 = ∅ /\ w_log w' = w_log w ++ [wt_waiter c]
    | Sender =>
        fget (ci_ring t c) w' =
          (let R1 := fset sender_count_f (wrapping_sub 32 (sender_count R) 1) R in
           if sender_claimed c then let_go o R1 else R1) /\
        fget (ci_table c) w' = fget (ci_table c) w /\ sender_claimed c1 = false /\ w_log w' = w_log w
    end).
Proof.
  intros Hd Hi Hb. unfold disconnect at 2. rewrite Hd. run_step. apply runs_bind.
  assert (forall c1 w1 (Q : _ -> _ -> Prop), disconnected c1 = true -> Q (c1, c1) w1 ->
            runs n (c2 ← disconnect o t c1; Ret (c1, c2)) w1 Q) as Hagain.
  { intros c1 w1 Q E HQ. unfold disconnect. rewrite E. run_step. by run_step. }
  destruct (ci_mode c).
  - unfold fetch_sub. run_step. destruct (sender_claimed c) eqn:Hcl.
    + apply runs_bind. eapply runs_conseq; [apply (release_runs_at (sub_field (ci_ring t c) sender_owner_f))|].
      intros _ w1 ->. run_step. run_step. apply Hagain; [done|]. split; [done|]. split; [done|].
      cbn [fget sub_field sender_owner_f]. unfold let_go. simpl. rewrite lookup_total_insert_eq. simpl.
      destruct (so_pid _ =? self_pid o); simpl; rewrite ?lookup_total_insert_eq; done.
    + run_step. run_step. apply Hagain; [done|]. split; [done|]. split; [done|]. simpl.
      by rewrite lookup_total_insert_eq.
  - rewrite Hb by done. unfold fetch_and. run_step. unfold clear_owner, ci_liveness. destruct (Z.eqb_spec (2 ^ i) 0); [lia|].
    run_step. run_step. apply runs_act, runs_ret. cbn [fst snd]. unfold broadcast. run_step. run_step. run_step.
    apply Hagain; [done|]. split; [done|]. split; [done|]. simpl. rewrite slot_index_pow2 by done.
    rewrite !lookup_total_insert_eq, ?insert_insert_eq. done.
Qed.

Lemma disconnect_spec_witness :
  exists c1 c2 w', eval (c1 ← disconnect demo_os x86_64_linux demo_receiver;
                         c2 ← disconnect demo_os x86_64_linux c1; Ret (c1, c2)) demo_world = Some ((c1, c2), w') /\
    connections (fget (ci_ring x86_64_linux demo_receiver) w') = 0.
Proof.
  destruct (runs_eval _ _ _ (disconnect_spec demo_os x86_64_linux 1 demo_receiver demo_world 0
    eq_refl ltac:(lia) (fun _ => eq_refl))) as ([c1 c2] & w' & E & _ & _ & H).
  exists c1, c2, w'. split; [exact E|]. destruct H as [-> _]. reflexivity.
Defined.

(** ** Sending without blocking *)

(** The words of the ring are in range. *)
Definition ring_ok (R : ring) : Prop := is_u 32 (connections R) /\ is_u 64 (epoch R).

(** What the pushes of a sender that may not block do to a ring: receivers may only go. *)
Definition served (R R' : ring) : Prop :=
  ring_ok R' /\ sender_owner R' = sender_owner R /\
  forall q, 0 <= q -> Z.testbit (connections R') q = true -> Z.testbit (connections R) q = true.

Lemma served_trans R1 R2 R3 : served R1 R2 -> served R2 R3 -> served R1 R3.
Proof.
  intros (_ & E1 & H1) (Hok & E2 & H2). split; [done|]. split; [congruence|]. auto.
Qed.

Lemma evicted_served m R L : ring_ok R -> unread_mask R L m -> served R (evicted m R).
Proof.
  intros [Hu He] Hm. split; [|split; [unfold evicted; by destruct (m =? 0)|]].
  - unfold evicted, ring_ok. destruct (m =? 0); [done|]. simpl. split; [by apply is_u_land_l|by apply wrap_range].
  - intros q Hq. rewrite (evicted_bits m R L) by done. intros [H _]%andb_prop. done.
Qed.

Lemma send_full_evict t fuel c id data k off w :
  ci_multi c = false -> ring_ok (fget (ci_ring t c) w) -> connections (fget (ci_ring t c) w) <> 0 ->
  runs fuel (send_full t (S fuel) k c id data off 0) w (fun res w' =>
    res = Ok (negb (connections (fget (ci_ring t c) w') =? 0)) /\
    served (fget (ci_ring t c) w) (fget (ci_ring t c) w')).
Proof.
  intros Hm. revert off w.
  assert (forall remain payload w, ring_ok (fget (ci_ring t c) w) -> connections (fget (ci_ring t c) w) <> 0 ->
    runs fuel (push_fragment t (S fuel) c id remain payload 0) w (fun res w' =>
      res = Ok (negb (connections (fget (ci_ring t c) w') =? 0)) /\
      served (fget (ci_ring t c) w) (fget (ci_ring t c) w'))) as Hpush.
  { intros remain payload w [Hu He] Hcc. eapply runs_conseq; [by apply push_fragment_evict|].
    intros res w' (m & _ & Hmask & Hres). pose proof (evicted_served m _ _ (conj Hu He) Hmask) as Hs.
    destruct (connections (evicted m _) =? 0) eqn:E; destruct Hres as [-> ->]; [by rewrite E|].
    change (connections (pushed _ _ _ ?r)) with (connections r). rewrite E. done. }
  assert (forall w, ring_ok (fget (ci_ring t c) w) -> served (fget (ci_ring t c) w) (fget (ci_ring t c) w)) as Hrefl by done.
  induction k as [|k IH]; intros off w Hok Hcc; cbn [send_full].
  - destruct (0 <? _); [by apply Hpush|]. run_step. split; [|by apply Hrefl].
    by destruct (Z.eqb_spec (connections (fget (ci_ring t c) w)) 0).
  - apply runs_bind. eapply runs_conseq; [by apply Hpush|]. intros res w1 [-> Hs].
    destruct (Z.eqb_spec (connections (fget (ci_ring t c) w1)) 0) as [E|E]; cbn [negb].
    + run_step. by rewrite E.
    + eapply runs_conseq; [apply IH; [apply Hs|done]|]. intros res w2 [-> Hs2]. split; [done|]. by eapply served_trans.
Qed.

(** C27: on a route, [try_send] of a nonempty message by a sender always returns, whatever the
    receivers have left unread.
    While another live process holds the sole-sender claim (or is taking it) it fails with an
    address-in-use error naming the holder, and neither the shared state nor the endpoint
    changes.  Otherwise the sender has the claim from then on, the record of the ring shows
    it, no receiver is ever added to the mask, and the call reports success exactly when
    some receiver is left in it. *)
Theorem try_send_spec o t fuel c data w :
  let R := fget (ci_ring t c) w in
  ci_multi c = false -> ci_mode c = Sender -> data <> [] -> ring_ok R ->
  runs fuel (try_send o t (S fuel) c data) w (fun rc w' =>
    let R' := fget (ci_ring t c) w' in
    if negb (sender_claimed c) && refused o (sender_owner R) then
      rc = (Err (mk_io_error EkAddrInUse ("route '" +:+ ci_name c +:+ "' has another live sender (pid "
                   +:+ pretty (so_pid (sender_owner R)) +:+ ")")), c) /\ w' = w
    else
      rc.1 = Ok (negb (connections R' =? 0)) /\ sender_claimed rc.2 = true /\
      sender_owner R' =
        (if sender_claimed c then sender_owner R
         else mk_SlotOwner (self_pid o) (so_since (sender_owner R)) (start_token o (self_pid o))) /\
      forall q, 0 <= q -> Z.testbit (connections R') q = true -> Z.testbit (connections R) q = true).
Proof.
  intros R Hm Hmode Hd Hok. unfold try_send, send.
  rewrite bool_decide_false, (bool_decide_true (ci_mode c = Sender)) by done. cbn [negb].
  assert (forall c1 w1, ci_multi c1 = false -> ci_ring t c1 = ci_ring t c -> ring_ok (fget (ci_ring t c) w1) ->
    runs fuel (conns ← load (sub_field (ci_ring t c1) connections_f);
      if conns =? 0 then Ret (Ok false, c1)
      else
        mc ← (if ci_multi c1 then
                m ← fetch_add 32 (counter_of (msg_id_shm_name (ci_prefix c1) (ci_name c1))) 1; Ret (m, c1)
              else Ret (send_seq c1, set_send_seq (wrapping_add 32 (send_seq c1) 1) c1));
        let '(msg_id, c2) := mc : Z * ChanInner in
        res ← send_full t (S fuel) (length data / 64) c2 msg_id data 0 0;
        Ret (res, c2)) w1 (fun rc w' =>
      rc.1 = Ok (negb (connections (fget (ci_ring t c) w') =? 0)) /\ sender_claimed rc.2 = sender_claimed c1 /\
      served (fget (ci_ring t c) w1) (fget (ci_ring t c) w'))) as Hgo.
  { intros c1 w1 Hm1 Hc1 Hok1. run_step. rewrite Hc1, Hm1.
    change (fget (sub_field (ci_ring t c) connections_f) w1) with (connections (fget (ci_ring t c) w1)).
    destruct (Z.eqb_spec (connections (fget (ci_ring t c) w1)) 0) as [E|E]; cbv iota; [run_step; by rewrite E|].
    run_step. cbv beta iota. apply runs_bind. set (c2 := set_send_seq _ c1).
    change (ci_ring t c1) with (ci_ring t c2) in Hc1. rewrite <- Hc1 in Hok1, E.
    eapply runs_conseq; [by apply send_full_evict|]. intros res w' [-> Hs]. run_step. rewrite Hc1 in *. done. }
  unfold sender_ready. rewrite Hm. destruct (sender_claimed c) eqn:Hcl; cbn [orb negb andb].
  - run_step. cbv beta iota. cbn [negb]. eapply runs_conseq; [by apply Hgo|].
    intros rc w' (H1 & H2 & (_ & H3 & H4)). by rewrite H2, Hcl.
  - run_step. apply runs_bind. eapply runs_conseq; [apply (claim_runs_at (sub_field (ci_ring t c) sender_owner_f))|].
    cbv zeta. change (fget (sub_field (ci_ring t c) sender_owner_f) w) with (sender_owner R).
    intros ok w1 [-> Hw1]. run_step. cbv beta iota. destruct (refused o (sender_owner R)) eqn:Er; cbn [negb] in *.
    + subst w1. run_step. run_step. split; [|done]. f_equal. destruct c. by simpl in *; subst.
    + assert (fget (ci_ring t c) w1 =
        fset sender_owner_f (mk_SlotOwner (self_pid o) (so_since (sender_owner R)) (start_token o (self_pid o))) R) as HR1.
      { subst w1. cbn [fset sub_field]. by rewrite get_set. }
      eapply runs_conseq; [apply (Hgo (set_sender_claimed true c) w1 Hm eq_refl); by rewrite HR1|].
      intros rc w' (H1 & H2 & (_ & H3 & H4)). rewrite HR1 in H3, H4. done.
Qed.

(** Process 7 wants to send; process 8, alive, has the claim of the ring. *)
Definition taken_world : world :=
  mk_world {[ring_shm_name x86_64_linux "" "ch" := mk_ring 1 0 1 0 0 1 ∅ ∅ (mk_SlotOwner 8 0 1)]} ∅ ∅ ∅ ∅ (mk_clock 0 []) [] [].
Definition two_alive : os := {|
  os_apple := false; os_getpid := 7; os_kill := fun _ => None; os_proc_stat := fun _ => None;
  os_bsdinfo := fun _ => None; os_p_stat := fun _ => None |}.

Lemma try_send_spec_witness :
  exists rc w', eval (try_send two_alive x86_64_linux 2 (set_sender_claimed false demo_sender) [1; 2]) taken_world
    = Some (rc, w') /\ is_ok rc.1 = false.
Proof.
  destruct (runs_eval _ _ _ (try_send_spec two_alive x86_64_linux 1 (set_sender_claimed false demo_sender) [1; 2]
    taken_world eq_refl eq_refl ltac:(congruence) ltac:(vm_compute; repeat split; congruence))) as (rc & w' & E & H).
  exists rc, w'. split; [exact E|]. vm_compute in E. injection E as <- _. reflexivity.
Defined.
