(* ===== verification/SecureCodec.v ===== *)
(** * Codecs and the secure envelope

    [proto/codec.rs], [proto/codecs/secure_codec.rs] and the typed wrapper of
    [proto/typed_route_codec.rs]: the codec contract, the SIPC envelope (magic,
    version, algorithm, key, three sizes, then nonce, ciphertext and tag) and the
    decorator that seals what an inner codec encodes.

    The inner codec and the cipher are code outside this repository's control and
    enter as class parameters; what they promise is in the hypotheses of the
    theorems.  [usize] is 64 bits wide. *)
From S2P Require Import Prelude Atomics Abi ShmName Buffer Liveness Ring Channel.

(** [CodecId]. *)
Inductive CodecId := FlatBuffers | Protobuf | Capnp.

Definition CodecId_repr (c : CodecId) : Z := match c with FlatBuffers => 1 | Protobuf => 2 | Capnp => 3 end.

(** The trait [Codec<T>]. *)
Class Codec (Builder Message : Type) := {
  CODEC_ID : CodecId;
  encode : Builder -> list Z;
  decode : IpcBuffer -> Message;
  verify : Message -> bool }.

(** The trait [SecureCipher]; [seal] draws its nonce from the randomness [seed], and
    both calls return [None] where the source returns [false]. *)
Class SecureCipher := {
  algorithm_id : Z;
  key_id : Z;
  seal : Z -> list Z -> option (list Z * list Z * list Z);
  open_sealed : list Z -> list Z -> list Z -> option (list Z) }.

(** ** The envelope *)

Definition SECURE_ENVELOPE_MAGIC : list Z := bytes_of_string sipc_magic.
Definition SECURE_ENVELOPE_VERSION : Z := sipc_version.
Definition SECURE_ENVELOPE_FIXED_HEADER_SIZE : Z := sipc_header_size.

Record SecureEnvelopeView := mk_view {
  v_algorithm_id : Z; v_key_id : Z; v_nonce : list Z; v_ciphertext : list Z; v_tag : list Z }.

Definition append_u16_le (out : list Z) (value : Z) : list Z :=
  out ++ [Z.land value 0xff; Z.land (Z.shiftr value 8) 0xff].

Definition append_u32_le (out : list Z) (value : Z) : list Z :=
  out ++ [Z.land value 0xff; Z.land (Z.shiftr value 8) 0xff;
          Z.land (Z.shiftr value 16) 0xff; Z.land (Z.shiftr value 24) 0xff].

Definition len (l : list Z) : Z := Z.of_nat (length l).

(** Indexing, after the bounds checks of the callers. *)
Definition byte_at (data : list Z) (i : Z) : Z := data !!! Z.to_nat i.

Definition read_u16_le (data : list Z) (offset : Z) : option Z :=
  if len data <? offset then None
  else if len data - offset <? 2 then None
  else Some (Z.lor (byte_at data offset) (Z.shiftl (byte_at data (offset + 1)) 8)).

Definition read_u32_le (data : list Z) (offset : Z) : option Z :=
  if len data <? offset then None
  else if len data - offset <? 4 then None
  else Some (Z.lor (Z.lor (Z.lor (byte_at data offset) (Z.shiftl (byte_at data (offset + 1)) 8))
                          (Z.shiftl (byte_at data (offset + 2)) 16))
                   (Z.shiftl (byte_at data (offset + 3)) 24)).

(** [usize::checked_add] and [checked_sub]. *)
Definition checked_add (x y : Z) : option Z := if x + y <? 2 ^ 64 then Some (x + y) else None.
Definition checked_sub (x y : Z) : option Z := if x <? y then None else Some (x - y).

Definition build_secure_envelope (algorithm_id key_id : Z) (nonce ciphertext tag : list Z) : option (list Z) :=
  if 65535 <? len nonce then None
  else if 65535 <? len tag then None
  else if 2 ^ 32 - 1 <? len ciphertext then None
  else
    s ← checked_add (len nonce) (len ciphertext);
    payload_size ← checked_add s (len tag);
    _ ← checked_add SECURE_ENVELOPE_FIXED_HEADER_SIZE payload_size;
    let out := SECURE_ENVELOPE_MAGIC in
    let out := out ++ [SECURE_ENVELOPE_VERSION] in
    let out := append_u16_le out algorithm_id in
    let out := append_u32_le out key_id in
    let out := append_u16_le out (wrap 16 (len nonce)) in
    let out := append_u16_le out (wrap 16 (len tag)) in
    let out := append_u32_le out (wrap 32 (len ciphertext)) in
    Some (out ++ nonce ++ ciphertext ++ tag).

Definition parse_secure_envelope (data : list Z) : option SecureEnvelopeView :=
  if len data <? SECURE_ENVELOPE_FIXED_HEADER_SIZE then None
  else if negb (bool_decide (take (length SECURE_ENVELOPE_MAGIC) data = SECURE_ENVELOPE_MAGIC)) then None
  else if negb (byte_at data sipc_header_version_off =? SECURE_ENVELOPE_VERSION) then None
  else
    algorithm_id ← read_u16_le data sipc_header_alg_id_off;
    key_id ← read_u32_le data sipc_header_key_id_off;
    nonce_size ← read_u16_le data sipc_header_nonce_size_off;
    tag_size ← read_u16_le data sipc_header_tag_size_off;
    ciphertext_size ← read_u32_le data sipc_header_ct_size_off;
    s ← checked_add nonce_size ciphertext_size;
    payload_size ← checked_add s tag_size;
    actual_payload_size ← checked_sub (len data) SECURE_ENVELOPE_FIXED_HEADER_SIZE;
    if negb (payload_size =? actual_payload_size) then None
    else
      let payload := drop (Z.to_nat SECURE_ENVELOPE_FIXED_HEADER_SIZE) data in
      let nonce_end := nonce_size in
      ciphertext_end ← checked_add nonce_end ciphertext_size;
      tag_end ← checked_add ciphertext_end tag_size;
      if negb (tag_end =? len payload) then None
      else Some (mk_view algorithm_id key_id
                   (take (Z.to_nat nonce_end) payload)
                   (slice (Z.to_nat nonce_end) (Z.to_nat ciphertext_end) payload)
                   (slice (Z.to_nat ciphertext_end) (Z.to_nat tag_end) payload)).

(** ** The decorator *)

Section secure.
Context {Builder Message : Type} `{Inner : !Codec Builder Message, Cipher : !SecureCipher}.

Record SecureBuilder := mk_SecureBuilder { sb_bytes : list Z }.

Definition sb_new : SecureBuilder := mk_SecureBuilder [].
Definition sb_from_bytes (bytes : list Z) : SecureBuilder := mk_SecureBuilder bytes.
Definition sb_is_empty (b : SecureBuilder) : bool := bool_decide (sb_bytes b = []).

Definition from_inner (seed : Z) (inner : Builder) : SecureBuilder :=
  let plain := encode inner in
  if bool_decide (plain = []) then sb_new
  else
    match seal seed plain with
    | None => sb_new
    | Some (nonce, ciphertext, tag) =>
        match build_secure_envelope algorithm_id key_id nonce ciphertext tag with
        | Some bytes => sb_from_bytes bytes
        | None => sb_new
        end
    end.

Definition fail_closed : Message := decode IpcBuffer.new.

Definition secure_decode (buf : IpcBuffer) : Message :=
  if IpcBuffer.is_empty buf then fail_closed
  else
    match parse_secure_envelope (IpcBuffer.data buf) with
    | None => fail_closed
    | Some envelope =>
        if negb (v_algorithm_id envelope =? algorithm_id) then fail_closed
        else if negb (v_key_id envelope =? key_id) then fail_closed
        else
          match open_sealed (v_nonce envelope) (v_ciphertext envelope) (v_tag envelope) with
          | None => fail_closed
          | Some plain => decode (IpcBuffer.from_vec plain)
          end
    end.

(** The decorated codec is a codec again. *)
#[export] Instance SecureCodec : Codec SecureBuilder Message := {|
  CODEC_ID := CODEC_ID (Codec := Inner);
  encode := sb_bytes;
  decode := secure_decode;
  verify := verify (Codec := Inner) |}.

End secure.
Arguments SecureBuilder : clear implicits.

(** ** The typed wrapper of a route *)

Section typed.
Context {Builder Message : Type} `{C : !Codec Builder Message} (o : os) (t : target) (fuel : nat).

Definition send_builder (rt : ChanInner) (b : Builder) (timeout_ms : Z) : prog world (io_result bool * ChanInner) :=
  send o t fuel rt (encode b) timeout_ms.

Definition typed_result (r : recv_result) : outcome (io_result Message) * ChanInner :=
  match r with
  | (Returned (Ok buf), c) => (Returned (Ok (decode buf)), c)
  | (Returned (Err e), c) => (Returned (Err e), c)
  | (Panicked, c) => (Panicked, c)
  end.

Definition typed_recv (rt : ChanInner) (timeout_ms : option Z) : prog world (outcome (io_result Message) * ChanInner) :=
  r ← recv t fuel rt timeout_ms; Ret (typed_result r).

Definition typed_try_recv (rt : ChanInner) : prog world (outcome (io_result Message) * ChanInner) :=
  r ← try_recv t fuel rt; Ret (typed_result r).

End typed.

(** ** Little-endian integers *)

Lemma append_u16_le_ne out v : append_u16_le out v = out ++ to_ne_bytes 2 v.
Proof. done. Qed.

Lemma append_u32_le_ne out v : append_u32_le out v = out ++ to_ne_bytes 4 v.
Proof.
  unfold append_u32_le. change (to_ne_bytes 4 v) with
    [Z.land v 0xff; Z.land (Z.shiftr v 8) 0xff; Z.land (Z.shiftr (Z.shiftr v 8) 8) 0xff;
     Z.land (Z.shiftr (Z.shiftr (Z.shiftr v 8) 8) 8) 0xff].
  by rewrite !Z.shiftr_shiftr by lia.
Qed.

Lemma lor_shift4 a b c d :
  Z.lor (Z.lor (Z.lor a (Z.shiftl b 8)) (Z.shiftl c 16)) (Z.shiftl d 24) = from_ne_bytes [a; b; c; d].
Proof.
  unfold from_ne_bytes. cbn [little_endian_to_Z]. rewrite Z.shiftl_0_l, Z.lor_0_r.
  rewrite !Z.shiftl_lor, !Z.shiftl_shiftl by lia. by rewrite !Z.lor_assoc.
Qed.

Lemma lor_shift2 a b : Z.lor a (Z.shiftl b 8) = from_ne_bytes [a; b].
Proof. unfold from_ne_bytes. cbn [little_endian_to_Z]. by rewrite Z.shiftl_0_l, Z.lor_0_r. Qed.

(** The fixed header, field by field. *)
Definition header (alg key nsz tsz csz : Z) : list Z :=
  SECURE_ENVELOPE_MAGIC ++ [SECURE_ENVELOPE_VERSION] ++ to_ne_bytes 2 alg ++ to_ne_bytes 4 key ++
  to_ne_bytes 2 nsz ++ to_ne_bytes 2 tsz ++ to_ne_bytes 4 csz.

(** A byte string is an envelope with these fields. *)
Definition is_envelope (v : SecureEnvelopeView) (data : list Z) : Prop :=
  len (v_nonce v) < 2 ^ 16 /\ len (v_tag v) < 2 ^ 16 /\ len (v_ciphertext v) < 2 ^ 32 /\
  data = header (v_algorithm_id v) (v_key_id v) (len (v_nonce v)) (len (v_tag v)) (len (v_ciphertext v)) ++
         v_nonce v ++ v_ciphertext v ++ v_tag v.

Lemma checked_add_ok x y z : checked_add x y = Some z <-> x + y < 2 ^ 64 /\ z = x + y.
Proof. unfold checked_add. destruct (Z.ltb_spec (x + y) (2 ^ 64)); split; intros; simplify_eq; intuition (lia || congruence). Qed.

Lemma build_is_envelope alg key nonce ct tag data :
  build_secure_envelope alg key nonce ct tag = Some data <-> is_envelope (mk_view alg key nonce ct tag) data.
Proof.
  unfold build_secure_envelope, is_envelope. cbn [v_nonce v_tag v_ciphertext v_algorithm_id v_key_id].
  assert (0 <= len nonce) by (unfold len; lia). assert (0 <= len tag) by (unfold len; lia).
  assert (0 <= len ct) by (unfold len; lia).
  destruct (Z.ltb_spec 65535 (len nonce)); [split; intros; [done|lia]|].
  destruct (Z.ltb_spec 65535 (len tag)); [split; intros; [done|lia]|].
  destruct (Z.ltb_spec (2 ^ 32 - 1) (len ct)); [split; intros; [done|lia]|].
  unfold checked_add. destruct (Z.ltb_spec (len nonce + len ct) (2 ^ 64)); [|lia]. cbn [mbind option_bind].
  destruct (Z.ltb_spec (len nonce + len ct + len tag) (2 ^ 64)); [|lia]. cbn [mbind option_bind].
  unfold SECURE_ENVELOPE_FIXED_HEADER_SIZE, sipc_header_size.
  destruct (Z.ltb_spec (19 + (len nonce + len ct + len tag)) (2 ^ 64)); [|lia]. cbn [mbind option_bind].
  rewrite !append_u16_le_ne, !append_u32_le_ne. rewrite !wrap_id by (unfold is_u; lia).
  unfold header. rewrite <- !app_assoc. split; [intros [= <-]|intros (_ & _ & _ & ->)]; by repeat (split; [lia|]).
Qed.

(** What the parser does to nineteen header bytes and the rest. *)
Lemma parse_bytes m0 m1 m2 m3 ver a0 a1 k0 k1 k2 k3 n0 n1 g0 g1 c0 c1 c2 c3 rest :
  is_bytes [n0; n1] -> is_bytes [g0; g1] -> is_bytes [c0; c1; c2; c3] ->
  let nsz := from_ne_bytes [n0; n1] in
  let tsz := from_ne_bytes [g0; g1] in
  let csz := from_ne_bytes [c0; c1; c2; c3] in
  parse_secure_envelope (m0 :: m1 :: m2 :: m3 :: ver :: a0 :: a1 :: k0 :: k1 :: k2 :: k3 ::
                         n0 :: n1 :: g0 :: g1 :: c0 :: c1 :: c2 :: c3 :: rest) =
  if bool_decide ([m0; m1; m2; m3] = SECURE_ENVELOPE_MAGIC) && (ver =? SECURE_ENVELOPE_VERSION) &&
     (nsz + csz + tsz =? len rest)
  then Some (mk_view (from_ne_bytes [a0; a1]) (from_ne_bytes [k0; k1; k2; k3])
               (take (Z.to_nat nsz) rest) (slice (Z.to_nat nsz) (Z.to_nat (nsz + csz)) rest)
               (slice (Z.to_nat (nsz + csz)) (Z.to_nat (nsz + csz + tsz)) rest))
  else None.
Proof.
  intros Hn%from_ne_bytes_range Hg%from_ne_bytes_range Hc%from_ne_bytes_range nsz tsz csz.
  fold nsz in Hn. fold tsz in Hg. fold csz in Hc. unfold is_u in *. simpl length in *.
  unfold parse_secure_envelope. set (data := m0 :: _).
  assert (len data = 19 + len rest) as Hlen by (unfold len, data; simpl length; lia).
  assert (0 <= len rest) as Hpos by (unfold len; lia).
  unfold read_u16_le, read_u32_le, checked_sub, SECURE_ENVELOPE_FIXED_HEADER_SIZE, sipc_header_size,
    sipc_header_alg_id_off, sipc_header_key_id_off, sipc_header_nonce_size_off, sipc_header_tag_size_off, sipc_header_ct_size_off.
  repeat match goal with |- context [len data <? ?k] => destruct (Z.ltb_spec (len data) k); [lia|] end.
  repeat match goal with |- context [len data - ?k <? ?j] => destruct (Z.ltb_spec (len data - k) j); [lia|] end.
  change (take (length SECURE_ENVELOPE_MAGIC) data) with [m0; m1; m2; m3].
  change (byte_at data sipc_header_version_off) with ver.
  destruct (bool_decide (_ = SECURE_ENVELOPE_MAGIC)); cbn [negb andb]; [|done].
  destruct (ver =? SECURE_ENVELOPE_VERSION); cbn [negb andb]; [|done].
  rewrite !lor_shift4, !lor_shift2. cbn [mbind option_bind].
  change (from_ne_bytes [byte_at data 11; _]) with nsz. change (from_ne_bytes [byte_at data 13; _]) with tsz.
  change (from_ne_bytes [byte_at data 15; _; _; _]) with csz.
  unfold checked_add. destruct (Z.ltb_spec (nsz + csz) (2 ^ 64)); [|lia]. cbn [mbind option_bind].
  destruct (Z.ltb_spec (nsz + csz + tsz) (2 ^ 64)); [|lia]. cbn [mbind option_bind].
  replace (len data - 19) with (len rest) by lia. change (drop (Z.to_nat 19) data) with rest.
  by destruct (nsz + csz + tsz =? len rest).
Qed.

Lemma three_parts (rest : list Z) (a b c : nat) : (a + b + c = length rest)%nat ->
  rest = take a rest ++ slice a (a + b) rest ++ slice (a + b) (a + b + c) rest.
Proof.
  intros H. rewrite app_assoc, slice_app_take by lia. rewrite slice_app_take by lia. by rewrite H, firstn_all.
Qed.

(** Accepted bytes are exactly an envelope of the fields read off them. *)
Lemma parse_sound data v :
  is_bytes data -> parse_secure_envelope data = Some v ->
  is_envelope v data /\ is_u 16 (v_algorithm_id v) /\ is_u 32 (v_key_id v).
Proof.
  intros Hb Hp. assert (19 <= length data)%nat as Hlen.
  { unfold parse_secure_envelope, len, SECURE_ENVELOPE_FIXED_HEADER_SIZE, sipc_header_size in Hp.
    destruct (Z.ltb_spec (Z.of_nat (length data)) 19); [done|lia]. }
  destruct data as [|m0 [|m1 [|m2 [|m3 [|ver [|a0 [|a1 [|k0 [|k1 [|k2 [|k3 [|n0 [|n1 [|g0 [|g1 [|c0 [|c1 [|c2 [|c3 rest]]]]]]]]]]]]]]]]]]];
    try (simpl in Hlen; lia). clear Hlen.
  unfold is_bytes in Hb. rewrite !Forall_cons in Hb. destruct_and!.
  assert (is_bytes [a0; a1]) as Ha by (unfold is_bytes; rewrite !Forall_cons, Forall_nil; tauto).
  assert (is_bytes [k0; k1; k2; k3]) as Hk by (unfold is_bytes; rewrite !Forall_cons, Forall_nil; tauto).
  assert (is_bytes [n0; n1]) as Hn by (unfold is_bytes; rewrite !Forall_cons, Forall_nil; tauto).
  assert (is_bytes [g0; g1]) as Hg by (unfold is_bytes; rewrite !Forall_cons, Forall_nil; tauto).
  assert (is_bytes [c0; c1; c2; c3]) as Hc by (unfold is_bytes; rewrite !Forall_cons, Forall_nil; tauto).
  rewrite parse_bytes in Hp by done.
  pose proof (from_ne_bytes_range _ Ha) as Ra. pose proof (from_ne_bytes_range _ Hk) as Rk.
  pose proof (from_ne_bytes_range _ Hn) as Rn. pose proof (from_ne_bytes_range _ Hg) as Rg.
  pose proof (from_ne_bytes_range _ Hc) as Rc.
  apply to_from_ne_bytes in Ha, Hk, Hn, Hg, Hc.
  set (nsz := from_ne_bytes [n0; n1]) in *. set (tsz := from_ne_bytes [g0; g1]) in *.
  set (csz := from_ne_bytes [c0; c1; c2; c3]) in *.
  unfold is_u in *. simpl length in *. change (Z.of_nat 2) with 2 in *. change (Z.of_nat 4) with 4 in *.
  destruct (bool_decide_reflect ([m0; m1; m2; m3] = SECURE_ENVELOPE_MAGIC)) as [Em|]; [|done].
  destruct (Z.eqb_spec ver SECURE_ENVELOPE_VERSION) as [Ev|]; [|done].
  destruct (Z.eqb_spec (nsz + csz + tsz) (len rest)) as [El|]; [|done]. cbn [andb] in Hp.
  injection Hp as <-. cbn [v_nonce v_tag v_ciphertext v_algorithm_id v_key_id].
  split; [|done]. unfold is_envelope. cbn [v_nonce v_tag v_ciphertext v_algorithm_id v_key_id].
  unfold len in *. rewrite length_take, !length_slice by lia.
  replace (Z.of_nat (Z.to_nat nsz `min` length rest)) with nsz by lia.
  replace (Z.of_nat (Z.to_nat (nsz + csz) - Z.to_nat nsz)) with csz by lia.
  replace (Z.of_nat (Z.to_nat (nsz + csz + tsz) - Z.to_nat (nsz + csz))) with tsz by lia.
  split; [lia|]. split; [lia|]. split; [lia|].
  unfold header. rewrite Ha, Hk, Hn, Hg, Hc, <- Em, <- Ev. cbn [app]. do 19 f_equal.
  rewrite (three_parts rest (Z.to_nat nsz) (Z.to_nat csz) (Z.to_nat tsz)) at 1 by lia.
  by rewrite !Z2Nat.inj_add by lia.
Qed.

Lemma parse_complete data v :
  is_envelope v data -> is_u 16 (v_algorithm_id v) -> is_u 32 (v_key_id v) -> parse_secure_envelope data = Some v.
Proof.
  destruct v as [alg key nonce ct tag]. unfold is_envelope. cbn [v_nonce v_tag v_ciphertext v_algorithm_id v_key_id].
  intros (Hn & Ht & Hc & ->) Ha Hk.
  assert (forall n x, 0 <= n -> is_u (n * 8) x -> from_ne_bytes (to_ne_bytes n x) = x) as Hrt
    by (intros; rewrite from_to_ne_bytes by done; by apply wrap_id).
  pose proof (Hrt 2 alg ltac:(lia) Ha) as Ea. pose proof (Hrt 4 key ltac:(lia) Hk) as Ek.
  pose proof (Hrt 2 (len nonce) ltac:(lia) ltac:(unfold is_u, len in *; lia)) as En.
  pose proof (Hrt 2 (len tag) ltac:(lia) ltac:(unfold is_u, len in *; lia)) as Et.
  pose proof (Hrt 4 (len ct) ltac:(lia) ltac:(unfold is_u, len in *; lia)) as Ec.
  pose proof (to_ne_bytes_range 2 (len nonce) ltac:(lia)) as Bn. pose proof (to_ne_bytes_range 2 (len tag) ltac:(lia)) as Bt.
  pose proof (to_ne_bytes_range 4 (len ct) ltac:(lia)) as Bc.
  unfold header. rewrite <- !app_assoc. cbn [app SECURE_ENVELOPE_MAGIC sipc_magic bytes_of_string].
  change (to_ne_bytes 2 ?x) with [Z.land x 255; Z.land (Z.shiftr x 8) 255] in *.
  change (to_ne_bytes 4 ?x) with [Z.land x 255; Z.land (Z.shiftr x 8) 255; Z.land (Z.shiftr (Z.shiftr x 8) 8) 255;
    Z.land (Z.shiftr (Z.shiftr (Z.shiftr x 8) 8) 8) 255] in *.
  cbn [app]. rewrite parse_bytes by done. rewrite Ea, Ek, En, Et, Ec.
  rewrite bool_decide_true, Z.eqb_refl by done. cbn [andb].
  destruct (Z.eqb_spec (len nonce + len ct + len tag) (len (nonce ++ ct ++ tag))) as [_|Hne].
  2:{ exfalso. apply Hne. unfold len. rewrite !length_app. lia. }
  do 2 f_equal; unfold len, slice.
  - rewrite Nat2Z.id. by rewrite take_app_length.
  - rewrite Nat2Z.id, drop_app_length. rewrite take_app_le by lia. apply take_ge. lia.
  - rewrite app_assoc, drop_app_ge by (rewrite length_app; lia). rewrite length_app.
    replace (Z.to_nat _ - (length nonce + length ct))%nat with 0%nat by lia. rewrite drop_0. apply take_ge. lia.
Qed.

(** ** Properties *)

(** C24: building and parsing an envelope are inverse to one another.  A byte string
    parses to an algorithm, a key, a nonce, a ciphertext and a tag exactly when it is what
    the builder produces from them: nothing is lost, and no byte string with a wrong magic,
    version or size, with trailing bytes or cut short is accepted. *)
Theorem envelope_parse_inverts_build alg key nonce ct tag data :
  is_u 16 alg -> is_u 32 key -> is_bytes data ->
  (build_secure_envelope alg key nonce ct tag = Some data <->
   parse_secure_envelope data = Some (mk_view alg key nonce ct tag)).
Proof.
  intros Ha Hk Hb. rewrite build_is_envelope. split.
  - intros H. by apply parse_complete.
  - intros H%parse_sound; [|done]. apply H.
Qed.

Lemma envelope_parse_inverts_build_witness :
  parse_secure_envelope [83; 73; 80; 67; 1; 1; 0; 7; 0; 0; 0; 2; 0; 1; 0; 3; 0; 0; 0; 9; 8; 1; 2; 3; 5]
    = Some (mk_view 1 7 [9; 8] [1; 2; 3] [5]).
Proof.
  apply (envelope_parse_inverts_build 1 7 [9; 8] [1; 2; 3] [5]).
  - unfold is_u. lia.
  - unfold is_u. lia.
  - unfold is_bytes. rewrite !Forall_cons. unfold is_u. repeat split; try lia. constructor.
  - vm_compute. reflexivity.
Defined.

Section secure_properties.
Context {Builder Message : Type} `{Inner : !Codec Builder Message, Cipher : !SecureCipher}.
Hypothesis alg_u16 : is_u 16 algorithm_id.
Hypothesis key_u32 : is_u 32 key_id.

(** What the decorator seals, it opens again.  With a cipher whose opening inverts its
    sealing, either the builder is empty (nothing to encode, the cipher refused, or a part
    is too long for its size field) or the receiver decodes exactly the bytes the inner codec
    had encoded. *)
Theorem secure_codec_roundtrip :
  (forall seed plain nonce ct tag, seal seed plain = Some (nonce, ct, tag) -> open_sealed nonce ct tag = Some plain) ->
  forall seed (b : Builder),
  let sb := from_inner seed b in
  match seal seed (encode b) with
  | Some (nonce, ct, tag) =>
      if bool_decide (encode b = []) || (65535 <? len nonce) || (65535 <? len tag) || (2 ^ 32 - 1 <? len ct)
      then sb_bytes sb = []
      else sb_bytes sb <> [] /\
           secure_decode (IpcBuffer.from_slice (encode sb)) = decode (IpcBuffer.from_slice (encode b))
  | None => sb_bytes sb = []
  end.
Proof.
  intros Hlaw seed b sb. unfold sb, from_inner. case_bool_decide as E; [by destruct (seal _ _) as [[[] ]|]|].
  destruct (seal seed (encode b)) as [[[nonce ct] tag]|] eqn:Es; [|done]. cbn [orb].
  destruct (build_secure_envelope algorithm_id key_id nonce ct tag) as [data|] eqn:Eb.
  - pose proof Eb as (Hn & Ht & Hc & Ed)%build_is_envelope. cbn [v_nonce v_tag v_ciphertext] in *.
    destruct (Z.ltb_spec 65535 (len nonce)); [lia|]. destruct (Z.ltb_spec 65535 (len tag)); [lia|].
    destruct (Z.ltb_spec (2 ^ 32 - 1) (len ct)); [lia|]. cbn [orb]. split; [by rewrite Ed|].
    unfold secure_decode, IpcBuffer.is_empty, IpcBuffer.data. cbn [buf_data IpcBuffer.from_slice encode SecureCodec sb_bytes sb_from_bytes].
    rewrite bool_decide_false by (by rewrite Ed).
    rewrite (parse_complete data (mk_view algorithm_id key_id nonce ct tag)) by (done || by apply build_is_envelope).
    cbn [v_nonce v_tag v_ciphertext v_algorithm_id v_key_id]. rewrite !Z.eqb_refl. cbn [negb].
    by rewrite (Hlaw _ _ _ _ _ Es).
  - destruct ((65535 <? len nonce) || (65535 <? len tag) || (2 ^ 32 - 1 <? len ct)) eqn:E'; [done|].
    apply orb_false_elim in E' as [[E1 E2]%orb_false_elim E3]. exfalso.
    assert (is_envelope (mk_view algorithm_id key_id nonce ct tag)
      (header algorithm_id key_id (len nonce) (len tag) (len ct) ++ nonce ++ ct ++ tag)) as Hx
      by (unfold is_envelope; cbn; repeat split; lia).
    apply build_is_envelope in Hx. congruence.
Qed.

(** What arrives is an envelope the cipher opens, or the decorator falls back. *)
Lemma secure_decode_cases buf :
  is_bytes (IpcBuffer.data buf) ->
  (exists nonce ct tag plain,
     build_secure_envelope algorithm_id key_id nonce ct tag = Some (IpcBuffer.data buf) /\
     open_sealed nonce ct tag = Some plain /\ secure_decode buf = decode (IpcBuffer.from_vec plain)) \/
  ((forall nonce ct tag, build_secure_envelope algorithm_id key_id nonce ct tag = Some (IpcBuffer.data buf) ->
      open_sealed nonce ct tag = None) /\
   secure_decode buf = fail_closed).
Proof.
  intros Hb. unfold secure_decode.
  assert (forall v, parse_secure_envelope (IpcBuffer.data buf) = Some v ->
    (forall nonce ct tag, build_secure_envelope algorithm_id key_id nonce ct tag = Some (IpcBuffer.data buf) ->
       v = mk_view algorithm_id key_id nonce ct tag)) as Hu.
  { intros v Hv nonce ct tag H%build_is_envelope. apply parse_complete in H; [congruence|done..]. }
  assert (parse_secure_envelope (IpcBuffer.data buf) = None -> forall nonce ct tag,
    build_secure_envelope algorithm_id key_id nonce ct tag = Some (IpcBuffer.data buf) -> False) as Hnone.
  { intros Hv nonce ct tag H%build_is_envelope. apply parse_complete in H; [congruence|done..]. }
  unfold IpcBuffer.is_empty. case_bool_decide as E0.
  { right. split; [|done]. intros nonce ct tag H. exfalso. apply (Hnone ltac:(unfold IpcBuffer.data; by rewrite E0) _ _ _ H). }
  destruct (parse_secure_envelope (IpcBuffer.data buf)) as [v|] eqn:Ep.
  2:{ right. split; [|done]. intros nonce ct tag H. by destruct (Hnone eq_refl _ _ _ H). }
  destruct (Z.eqb_spec (v_algorithm_id v) algorithm_id) as [Ea|Ea]; cbn [negb].
  2:{ right. split; [|done]. intros nonce ct tag H. apply (Hu v eq_refl) in H. by subst v. }
  destruct (Z.eqb_spec (v_key_id v) key_id) as [Ek|Ek]; cbn [negb].
  2:{ right. split; [|done]. intros nonce ct tag H. apply (Hu v eq_refl) in H. by subst v. }
  destruct (open_sealed (v_nonce v) (v_ciphertext v) (v_tag v)) as [plain|] eqn:Eo.
  - left. exists (v_nonce v), (v_ciphertext v), (v_tag v), plain. split; [|done].
    apply build_is_envelope. apply parse_sound in Ep as [Ep _]; [|done]. rewrite <- Ea, <- Ek. by destruct v.
  - right. split; [|done]. intros nonce ct tag H. apply (Hu v eq_refl) in H. by subst v.
Qed.

(** C25: the decorator fails closed.  Whatever bytes arrive, they reach the inner codec
    only as the plaintext of an envelope of this algorithm and key that the cipher opens; in
    every other case the inner codec is given an empty buffer. *)
Theorem secure_decode_fails_closed buf :
  is_bytes (IpcBuffer.data buf) ->
  (exists nonce ct tag plain,
     build_secure_envelope algorithm_id key_id nonce ct tag = Some (IpcBuffer.data buf) /\
     open_sealed nonce ct tag = Some plain /\ secure_decode buf = decode (IpcBuffer.from_vec plain)) \/
  ((forall nonce ct tag, build_secure_envelope algorithm_id key_id nonce ct tag = Some (IpcBuffer.data buf) ->
      open_sealed nonce ct tag = None) /\
   secure_decode buf = fail_closed).
Proof. apply secure_decode_cases. Qed.

End secure_properties.

(** A codec that passes bytes through and a toy cipher with a one-byte key and checksum. *)
#[local] Instance bytes_codec : Codec (list Z) (list Z) := {|
  CODEC_ID := Protobuf; encode := id; decode := IpcBuffer.data; verify := fun _ => true |}.

Definition checksum (l : list Z) : Z := foldr (fun b acc => wrap 8 (b + acc)) 0 l.

#[local] Instance toy_cipher : SecureCipher := {|
  algorithm_id := 1; key_id := 7;
  seal := fun seed p => Some ([wrap 8 seed], (Z.lxor 90) <$> p, [checksum ((Z.lxor 90) <$> p)]);
  open_sealed := fun _ c g => if bool_decide (g = [checksum c]) then Some ((Z.lxor 90) <$> c) else None |}.

Lemma toy_law seed (plain nonce ct tag : list Z) :
  seal seed plain = Some (nonce, ct, tag) -> open_sealed nonce ct tag = Some plain.
Proof.
  intros [= <- <- <-]. cbn. rewrite bool_decide_true by done. f_equal. rewrite <- list_fmap_compose.
  rewrite <- (list_fmap_id plain) at 2. apply list_fmap_ext. intros i x _. cbn.
  by rewrite <- Z.lxor_assoc, Z.lxor_nilpotent, Z.lxor_0_l.
Qed.

Lemma secure_codec_roundtrip_witness :
  sb_bytes (from_inner (Builder := list Z) 3 [10; 20; 30]) <> [] /\
  secure_decode (Message := list Z) (IpcBuffer.from_slice (encode (from_inner (Builder := list Z) 3 [10; 20; 30]))) = [10; 20; 30].
Proof.
  exact (secure_codec_roundtrip (Inner := bytes_codec) (Cipher := toy_cipher)
    ltac:(vm_compute; split; congruence) ltac:(vm_compute; split; congruence) toy_law 3 [10; 20; 30]).
Defined.

(** A flipped ciphertext byte. *)
Lemma secure_decode_fails_closed_witness :
  is_bytes [83; 73; 80; 67; 1; 1; 0; 7; 0; 0; 0; 1; 0; 1; 0; 2; 0; 0; 0; 3; 81; 78; 160] /\
  secure_decode (Builder := list Z) (Message := list Z)
    (mk_IpcBuffer [83; 73; 80; 67; 1; 1; 0; 7; 0; 0; 0; 1; 0; 1; 0; 2; 0; 0; 0; 3; 81; 78; 160]) = [].
Proof.
  assert (is_bytes [83; 73; 80; 67; 1; 1; 0; 7; 0; 0; 0; 1; 0; 1; 0; 2; 0; 0; 0; 3; 81; 78; 160]) as Hb.
  { unfold is_bytes. rewrite !Forall_cons. unfold is_u. repeat split; try lia. constructor. }
  split; [exact Hb|].
  destruct (secure_decode_fails_closed (Inner := bytes_codec) (Cipher := toy_cipher)
    ltac:(vm_compute; split; congruence) ltac:(vm_compute; split; congruence)
    (mk_IpcBuffer [83; 73; 80; 67; 1; 1; 0; 7; 0; 0; 0; 1; 0; 1; 0; 2; 0; 0; 0; 3; 81; 78; 160]) Hb)
    as [(nonce & ct & tag & plain & _ & _ & E)|[_ E]]; [vm_compute; reflexivity|exact E].
Defined.
