(* ===== verification/WireCodecs.v ===== *)
(** * The codecs behind the typed wrappers

    [proto/codecs/protobuf.rs], [proto/codecs/capnp.rs], [proto/codecs/flatbuffers.rs] with
    [proto/message.rs], and [proto/typed_channel_codec.rs].  The wire formats are parameters: a message
    type comes with its encoding and its decoding, the FlatBuffers library with its builder and its
    verifier. *)
From S2P Require Import Prelude Atomics Abi ShmName Buffer Liveness Ring Channel SecureCodec.

(** ** Protocol Buffers *)

(** The trait [ProtobufWireMessage]. *)
Class ProtobufWireMessage (T : Type) := { pb_encode : T -> list Z; pb_decode : list Z -> option T }.

Record ProtobufBuilder (T : Type) := mk_ProtobufBuilder { pb_bytes : list Z }.
Arguments mk_ProtobufBuilder {T} _.
Arguments pb_bytes {T} _.

Record ProtobufMessage (T : Type) := mk_ProtobufMessage { pb_buffer : IpcBuffer; pb_value : option T }.
Arguments mk_ProtobufMessage {T} _ _.
Arguments pb_buffer {T} _.
Arguments pb_value {T} _.

Module Protobuf.
Section protobuf.
Context {T : Type}.

Definition from_bytes (bytes : list Z) : ProtobufBuilder T := mk_ProtobufBuilder bytes.
Definition default_builder : ProtobufBuilder T := from_bytes [].
Definition from_message `{!ProtobufWireMessage T} (message : T) : ProtobufBuilder T := from_bytes (pb_encode message).

Definition empty : ProtobufMessage T := mk_ProtobufMessage IpcBuffer.new None.
Definition is_empty (m : ProtobufMessage T) : bool := IpcBuffer.is_empty (pb_buffer m).
Definition is_valid (m : ProtobufMessage T) : bool := bool_decide (is_Some (pb_value m)).
Definition data (m : ProtobufMessage T) : list Z := IpcBuffer.data (pb_buffer m).
Definition size (m : ProtobufMessage T) : Z := IpcBuffer.len (pb_buffer m).
Definition root (m : ProtobufMessage T) : option T := pb_value m.

Definition decode_buffer `{!ProtobufWireMessage T} (buf : IpcBuffer) : ProtobufMessage T :=
  mk_ProtobufMessage buf (pb_decode (IpcBuffer.data buf)).

#[export] Instance ProtobufCodec `{!ProtobufWireMessage T} : Codec (ProtobufBuilder T) (ProtobufMessage T) := {|
  CODEC_ID := SecureCodec.Protobuf;
  encode := pb_bytes;
  decode := decode_buffer;
  verify := is_valid;
|}.

End protobuf.
End Protobuf.

(** ** Cap'n Proto *)

(** The trait [CapnpWireMessage]. *)
Class CapnpWireMessage (T : Type) := { cp_encode : T -> list Z; cp_decode : list Z -> option T }.

Record CapnpBuilder (T : Type) := mk_CapnpBuilder { cp_bytes : list Z }.
Arguments mk_CapnpBuilder {T} _.
Arguments cp_bytes {T} _.

Record CapnpMessage (T : Type) := mk_CapnpMessage { cp_buffer : IpcBuffer; cp_value : option T }.
Arguments mk_CapnpMessage {T} _ _.
Arguments cp_buffer {T} _.
Arguments cp_value {T} _.

Module Capnp.
Section capnp.
Context {T : Type}.

Definition from_bytes (bytes : list Z) : CapnpBuilder T := mk_CapnpBuilder bytes.
Definition default_builder : CapnpBuilder T := from_bytes [].
Definition from_message `{!CapnpWireMessage T} (message : T) : CapnpBuilder T := from_bytes (cp_encode message).

Definition empty : CapnpMessage T := mk_CapnpMessage IpcBuffer.new None.
Definition is_empty (m : CapnpMessage T) : bool := IpcBuffer.is_empty (cp_buffer m).
Definition is_valid (m : CapnpMessage T) : bool := bool_decide (is_Some (cp_value m)).
Definition data (m : CapnpMessage T) : list Z := IpcBuffer.data (cp_buffer m).
Definition size (m : CapnpMessage T) : Z := IpcBuffer.len (cp_buffer m).
Definition root (m : CapnpMessage T) : option T := cp_value m.

Definition decode_buffer `{!CapnpWireMessage T} (buf : IpcBuffer) : CapnpMessage T :=
  mk_CapnpMessage buf (cp_decode (IpcBuffer.data buf)).

#[export] Instance CapnpCodec `{!CapnpWireMessage T} : Codec (CapnpBuilder T) (CapnpMessage T) := {|
  CODEC_ID := SecureCodec.Capnp;
  encode := cp_bytes;
  decode := decode_buffer;
  verify := is_valid;
|}.

End capnp.
End Capnp.

(** ** FlatBuffers *)

(** The library's builder, verifier and access to the root table of type [T]. *)
Class FlatBufferLib (Fbb Root T : Type) := {
  fbb_with_capacity : Z -> Fbb;
  fbb_finish : Fbb -> Root -> option string -> Fbb;
  fbb_finished_data : Fbb -> list Z;
  fbb_reset : Fbb -> Fbb;
  fb_verifier : list Z -> bool;
  fb_root : list Z -> option T;
}.

Module FlatBuffersMessage.
Section flatbuffers.
Context {Fbb Root T : Type} `{!FlatBufferLib Fbb Root T}.

Record Message := mk_Message { buf : IpcBuffer }.

Definition message_empty : Message := mk_Message IpcBuffer.new.
Definition message_is_empty (m : Message) : bool := IpcBuffer.is_empty (buf m).
Definition message_verify (m : Message) : bool := if IpcBuffer.is_empty (buf m) then false else fb_verifier (IpcBuffer.data (buf m)).
Definition message_root (m : Message) : option T := if IpcBuffer.is_empty (buf m) then None else fb_root (IpcBuffer.data (buf m)).

Record Builder := mk_Builder { fbb : Fbb; finished : bool }.

Definition builder_new (initial_size : Z) : Builder := mk_Builder (fbb_with_capacity initial_size) false.
Definition finish (b : Builder) (root : Root) : Builder := mk_Builder (fbb_finish (fbb b) root None) true.
Definition finish_with_id (b : Builder) (root : Root) (file_id : string) : Builder := mk_Builder (fbb_finish (fbb b) root (Some file_id)) true.
Definition builder_data (b : Builder) : list Z := if negb (finished b) then [] else fbb_finished_data (fbb b).
Definition builder_size (b : Builder) : Z := Z.of_nat (length (builder_data b)).
Definition clear (b : Builder) : Builder := mk_Builder (fbb_reset (fbb b)) false.

(** [verify] is the trait's default. *)
#[export] Instance FlatBuffersCodec : Codec Builder Message := {|
  CODEC_ID := FlatBuffers;
  encode := builder_data;
  decode := mk_Message;
  verify := fun _ => true;
|}.

End flatbuffers.
Arguments Message : clear implicits.
Arguments Builder : clear implicits.
End FlatBuffersMessage.
Import FlatBuffersMessage.

(** ** The typed wrapper of a channel *)

Module TypedChannelCodec.
Section typed.
Context {Builder Message : Type} `{C : !Codec Builder Message} (o : os) (t : target) (fuel : nat).

Definition send_builder (ch : ChanInner) (b : Builder) (timeout_ms : Z) : prog world (io_result bool * ChanInner) :=
  Channel.send o t fuel ch (encode b) timeout_ms.

Definition send (ch : ChanInner) (data : list Z) (timeout_ms : Z) : prog world (io_result bool * ChanInner) :=
  Channel.send o t fuel ch data timeout_ms.

Definition recv (ch : ChanInner) (timeout_ms : option Z) : prog world (outcome (io_result Message) * ChanInner) :=
  r ← Channel.recv t fuel ch timeout_ms; Ret (typed_result r).

Definition try_recv (ch : ChanInner) : prog world (outcome (io_result Message) * ChanInner) :=
  r ← Channel.try_recv t fuel ch; Ret (typed_result r).

End typed.
End TypedChannelCodec.

(** ** Theorems *)

Section secure_protobuf.
Context {T : Type} `{!ProtobufWireMessage T, Cipher : !SecureCipher}.
Hypothesis alg_u16 : is_u 16 algorithm_id.
Hypothesis key_u32 : is_u 32 key_id.
Implicit Types (m : T) (buf : IpcBuffer).

(** The decorated codec, from the message to the message. *)
#[local] Instance secure_protobuf : Codec SecureBuilder (ProtobufMessage T) := SecureCodec (Inner := Protobuf.ProtobufCodec).
Definition sealed (seed : Z) (m : T) : list Z := encode (Codec := secure_protobuf) (from_inner (Inner := Protobuf.ProtobufCodec) seed (Protobuf.from_message m)).
Definition unsealed (buf : IpcBuffer) : ProtobufMessage T := decode (Codec := secure_protobuf) buf.

(** A Protobuf message arrives through the decorator as it was.  With a wire format and a cipher that
    invert what they do, parts that fit their size fields and an encoding that is not empty. *)
Theorem secure_protobuf_roundtrip seed m nonce ct tag :
  (forall seed plain nonce ct tag, seal seed plain = Some (nonce, ct, tag) -> open_sealed nonce ct tag = Some plain) ->
  pb_decode (pb_encode m) = Some m -> pb_encode m <> [] ->
  seal seed (pb_encode m) = Some (nonce, ct, tag) -> SecureCodec.len nonce <= 65535 -> SecureCodec.len tag <= 65535 -> SecureCodec.len ct <= 2 ^ 32 - 1 ->
  Protobuf.root (unsealed (IpcBuffer.from_slice (sealed seed m))) = Some m /\ verify (Codec := secure_protobuf) (unsealed (IpcBuffer.from_slice (sealed seed m))) = true.
Proof.
  intros Hc Hw Hne Hs Hn Ht Hl. pose proof (secure_codec_roundtrip (Inner := Protobuf.ProtobufCodec) alg_u16 key_u32 Hc seed (Protobuf.from_message m)) as H.
  change (encode (Codec := Protobuf.ProtobufCodec) (Protobuf.from_message m)) with (pb_encode m) in H. rewrite Hs, bool_decide_eq_false_2 in H by done.
  assert ((false || (65535 <? SecureCodec.len nonce) || (65535 <? SecureCodec.len tag) || (2 ^ 32 - 1 <? SecureCodec.len ct)) = false) as E by lia.
  rewrite E in H. destruct H as [_ H]. change (unsealed (IpcBuffer.from_slice (sealed seed m))) with (secure_decode (Inner := Protobuf.ProtobufCodec) (IpcBuffer.from_slice (encode (Codec := secure_protobuf) (from_inner (Inner := Protobuf.ProtobufCodec) seed (Protobuf.from_message m))))).
  unfold secure_protobuf. rewrite H. unfold Protobuf.root. cbn. rewrite Hw. split; [done|]. by apply bool_decide_eq_true_2.
Qed.

(** C40: a message the decorator rejects passes for a valid one.  Protobuf encodes a message all of
    whose fields have their defaults as no bytes at all, and decodes no bytes to it.  So bytes that are
    no envelope of this algorithm and key, or that the cipher does not open, are decoded to that
    message, and the codec verifies it; only the empty buffer kept with it tells.  A sender, on the
    other hand, can never send that message: its encoding is refused by the channel and sealed as
    nothing. *)
Theorem rejected_protobuf_verifies (m0 : T) buf :
  pb_decode [] = Some m0 -> pb_encode m0 = [] -> is_bytes (IpcBuffer.data buf) ->
  (forall nonce ct tag, build_secure_envelope algorithm_id key_id nonce ct tag = Some (IpcBuffer.data buf) -> open_sealed nonce ct tag = None) ->
  (Protobuf.root (unsealed buf) = Some m0 /\ verify (Codec := secure_protobuf) (unsealed buf) = true /\ Protobuf.is_empty (unsealed buf) = true) /\
  (forall seed, sealed seed m0 = []) /\
  forall o t fuel ch timeout_ms,
    TypedChannelCodec.send_builder (C := Protobuf.ProtobufCodec) o t fuel ch (Protobuf.from_message m0) timeout_ms = Ret (Ok false, ch).
Proof.
  intros Hd He Hb Hno. split; [|split].
  - assert (unsealed buf = fail_closed (Inner := Protobuf.ProtobufCodec)) as ->.
    { destruct (secure_decode_cases (Inner := Protobuf.ProtobufCodec) alg_u16 key_u32 buf Hb) as [(nonce & ct & tag & plain & H1 & H2 & _)|[_ H]]; [|exact H].
      specialize (Hno _ _ _ H1). congruence. }
    unfold fail_closed, Protobuf.root, Protobuf.is_empty, secure_protobuf. cbn. rewrite Hd. split_and!; [done|by apply bool_decide_eq_true_2|done].
  - intros seed. unfold sealed, from_inner. change (encode (Codec := Protobuf.ProtobufCodec) (Protobuf.from_message m0)) with (pb_encode m0). by rewrite He, bool_decide_eq_true_2.
  - intros. unfold TypedChannelCodec.send_builder, Channel.send. change (encode (Codec := Protobuf.ProtobufCodec) (Protobuf.from_message m0)) with (pb_encode m0). by rewrite He, bool_decide_eq_true_2.
Qed.

End secure_protobuf.

(** A message that is its own wire format, and a cipher that adds a checksum. *)
#[local] Instance plain_message : ProtobufWireMessage (list Z) := {| pb_encode := id; pb_decode := Some |}.

#[local] Instance check_cipher : SecureCipher := {|
  algorithm_id := 1; key_id := 7;
  seal := fun seed p => Some ([wrap 8 seed], p, [checksum p]);
  open_sealed := fun _ c g => if bool_decide (g = [checksum c]) then Some c else None |}.

(** An envelope with a wrong checksum. *)
Definition forged : list Z := [83; 73; 80; 67; 1; 1; 0; 7; 0; 0; 0; 1; 0; 1; 0; 2; 0; 0; 0; 3; 81; 78; 160].

Lemma forged_rejected nonce ct tag : build_secure_envelope 1 7 nonce ct tag = Some forged -> open_sealed nonce ct tag = None.
Proof.
  intros H%build_is_envelope. apply parse_complete in H; [|by split..].
  vm_compute in H. injection H as <- <- <-. by vm_compute.
Qed.

Lemma rejected_protobuf_verifies_witness :
  verify (Codec := secure_protobuf (T := list Z)) (unsealed (T := list Z) (mk_IpcBuffer forged)) = true /\ Protobuf.root (unsealed (T := list Z) (mk_IpcBuffer forged)) = Some [].
Proof.
  destruct (rejected_protobuf_verifies (T := list Z) (Cipher := check_cipher) ltac:(vm_compute; split; congruence) ltac:(vm_compute; split; congruence)
    [] (mk_IpcBuffer forged)) as [(H1 & H2 & _) _]; [reflexivity|reflexivity| |exact forged_rejected|].
  - repeat (apply Forall_cons; split; [by split|]). by apply Forall_nil.
  - split; [exact H2|exact H1].
Defined.
