(* ===== verification/ShmRing.v ===== *)
(** * The single-producer single-consumer ring

    [proto/shm_ring.rs]: a lock-free queue of [N] trivially copyable items in
    shared memory, one process writing and one reading.  The two 64-bit indices
    only ever grow; an item's slot is its index modulo [N].

    Copying an item in or out of a slot is one access of the model: the theorem
    below shows that with one writer and one reader the two never meet on a slot. *)
From S2P Require Import Prelude Atomics.

(** The segment ([Header] and the slots after it); a slot of zero bytes reads as [inhabitant]. *)
Record ring_mem (T : Type) := mk_ring_mem {
  write_idx : Z; read_idx : Z; rm_constructed : bool; rm_slots : gmap Z T }.
Arguments mk_ring_mem {T} _ _ _ _.
Arguments write_idx {T} _.
Arguments read_idx {T} _.
Arguments rm_constructed {T} _.
Arguments rm_slots {T} _.

Definition write_idx_f {T} : field (ring_mem T) Z :=
  mk_field write_idx (fun v m => mk_ring_mem v (read_idx m) (rm_constructed m) (rm_slots m)).
Definition read_idx_f {T} : field (ring_mem T) Z :=
  mk_field read_idx (fun v m => mk_ring_mem (write_idx m) v (rm_constructed m) (rm_slots m)).
Definition constructed_f {T} : field (ring_mem T) bool :=
  mk_field rm_constructed (fun v m => mk_ring_mem (write_idx m) (read_idx m) v (rm_slots m)).
Definition slots_f {T} : field (ring_mem T) (gmap Z T) :=
  mk_field rm_slots (fun v m => mk_ring_mem (write_idx m) (read_idx m) (rm_constructed m) v).

(** [ShmRing]: the name and whether the segment is mapped. *)
Record ShmRing := mk_ShmRing { sr_shm : bool; sr_name : string }.

Definition HEADER_SIZE : Z := 192.
Definition layout_size (size_of_T N : Z) : Z := HEADER_SIZE + size_of_T * N.

(** [new]: the capacity check panics. *)
Definition new (N : Z) (name : string) : outcome ShmRing :=
  if Z.land N (N - 1) =? 0 then Returned (mk_ShmRing false name) else Panicked.

Definition close (r : ShmRing) : ShmRing := mk_ShmRing false (sr_name r).
Definition valid (r : ShmRing) : bool := sr_shm r.

(** An operation on the segment panics when the ring is not open. *)
Definition on_ring {S A} (r : ShmRing) (p : prog S A) : prog S (outcome A) :=
  if sr_shm r then x ← p; Ret (Returned x) else Ret Panicked.

Section ops.
Context {S T : Type} `{Inhabited T} (seg : field S (ring_mem T)) (N : Z).

Definition MASK : Z := N - 1.

Definition slot_ptr (idx : Z) : field S T := sub_field (sub_field seg slots_f) (at_key (Z.land idx MASK)).

(** [acquired] is the outcome of [ShmHandle::acquire]. *)
Definition open_or_create (acquired : io_result unit) (r : ShmRing) : prog S (io_result unit * ShmRing) :=
  match acquired with
  | Err e => Ret (Err e, r)
  | Ok _ =>
      c ← load (sub_field seg constructed_f);
      _ ← (if negb c then
             _ ← store (sub_field seg write_idx_f) 0;
             _ ← store (sub_field seg read_idx_f) 0;
             _ ← store (sub_field seg slots_f) ∅;
             store (sub_field seg constructed_f) true
           else Ret tt);
      Ret (Ok tt, mk_ShmRing true (sr_name r))
  end.

Definition open_existing (acquired : io_result unit) (r : ShmRing) : prog S (io_result bool * ShmRing) :=
  match acquired with
  | Err e => Ret (Err e, r)
  | Ok _ =>
      ready ← load (sub_field seg constructed_f);
      Ret (Ok ready, mk_ShmRing true (sr_name r))
  end.

(** *** Producer *)

Definition write_slot : prog S (option Z) :=
  w ← load (sub_field seg write_idx_f);
  r ← load (sub_field seg read_idx_f);
  if N <=? wrapping_sub 64 w r then Ret None else Ret (Some w).

Definition write_commit : prog S unit := _ ← fetch_add 64 (sub_field seg write_idx_f) 1; Ret tt.

Definition write (item : T) : prog S bool :=
  slot ← write_slot;
  match slot with
  | None => Ret false
  | Some w => _ ← store (slot_ptr w) item; _ ← write_commit; Ret true
  end.

Definition write_overwrite (item : T) : prog S unit :=
  w ← load (sub_field seg write_idx_f);
  r ← load (sub_field seg read_idx_f);
  _ ← (if N <=? wrapping_sub 64 w r then store (sub_field seg read_idx_f) (wrapping_add 64 r 1) else Ret tt);
  _ ← store (slot_ptr w) item;
  _ ← fetch_add 64 (sub_field seg write_idx_f) 1;
  Ret tt.

(** *** Consumer *)

Definition read_slot : prog S (option Z) :=
  r ← load (sub_field seg read_idx_f);
  w ← load (sub_field seg write_idx_f);
  if w <=? r then Ret None else Ret (Some r).

Definition read_commit : prog S unit := _ ← fetch_add 64 (sub_field seg read_idx_f) 1; Ret tt.

(** [read] into [out]: the item, or [None] for [false]. *)
Definition read : prog S (option T) :=
  slot ← read_slot;
  match slot with
  | None => Ret None
  | Some r => x ← load (slot_ptr r); _ ← read_commit; Ret (Some x)
  end.

(** *** Status *)

Definition available : prog S Z :=
  w ← load (sub_field seg write_idx_f);
  r ← load (sub_field seg read_idx_f);
  Ret (wrapping_sub 64 w r).

Definition is_empty : prog S bool := a ← available; Ret (a =? 0).
Definition is_full : prog S bool := a ← available; Ret (N <=? a).

End ops.

(** ** One writer and one reader *)

(** A capacity of [2 ^ e] slots. *)
Definition capacity_ok (e : Z) : Prop := 0 <= e < 64.

Section spsc.
Context {T : Type} `{Inhabited T} (e : Z).
Hypothesis e_range : capacity_ok e.

#[local] Abbreviation N := (2 ^ e).
#[local] Abbreviation mem := (ring_mem T).

Definition segment : field mem mem := mk_field id (fun v _ => v).

(** Offer the items one by one; the items accepted. *)
Fixpoint producer (items acc : list T) : prog mem (list T) :=
  match items with
  | [] => Ret acc
  | x :: items => ok ← write segment N x; producer items (if (ok : bool) then acc ++ [x] else acc)
  end.

(** Try to read [n] times; the items read. *)
Fixpoint consumer (n : nat) (acc : list T) : prog mem (list T) :=
  match n with
  | O => Ret acc
  | S n => r ← read segment N; consumer n (match r with Some x => acc ++ [x] | None => acc end)
  end.

Definition len (l : list T) : Z := Z.of_nat (length l).

(** The ring holds what was sent and not yet received. *)
Definition mem_ok (m : mem) (sent rcvd : list T) : Prop :=
  write_idx m = len sent /\ read_idx m = len rcvd /\ rcvd `prefix_of` sent /\ len sent - len rcvd <= N /\
  forall k, (length rcvd <= k < length sent)%nat ->
    sent !! k = Some (rm_slots m !!! Z.land (Z.of_nat k) (MASK N)).

(** What follows the search for a slot in [write], and a [write] in the producer. *)
Definition write_rest (x : T) (slot : option Z) : prog mem bool :=
  match slot with
  | None => Ret false
  | Some w => _ ← store (slot_ptr segment N w) x; _ ← write_commit segment; Ret true
  end.
Definition next_item (x : T) (items sent : list T) (ok : bool) : prog mem (list T) :=
  producer items (if ok then sent ++ [x] else sent).

(** The items still to offer: the accepted ones are some of those already offered. *)
Definition offered (total sent rest : list T) : Prop :=
  exists done, total = done ++ rest /\ sent `sublist_of` done /\ len total < 2 ^ 64.

Inductive prod_phase (total : list T) (m : mem) (sent : list T) (nr : Z) : prog mem (list T) -> Prop :=
| pp_start items : offered total sent items -> prod_phase total m sent nr (producer items sent)
| pp_loaded x items :
    offered total sent (x :: items) ->
    prod_phase total m sent nr
      (((r ← load (sub_field segment read_idx_f);
         if N <=? wrapping_sub 64 (len sent) r then Ret None else Ret (Some (len sent))) ≫= write_rest x)
         ≫= next_item x items sent)
| pp_slot x items :
    offered total sent (x :: items) -> len sent - nr < N ->
    prod_phase total m sent nr (write_rest x (Some (len sent)) ≫= next_item x items sent)
| pp_written x items :
    offered total sent (x :: items) -> len sent - nr < N ->
    rm_slots m !!! Z.land (len sent) (MASK N) = x ->
    prod_phase total m sent nr ((_ ← write_commit segment; Ret true) ≫= next_item x items sent).

Definition read_rest (slot : option Z) : prog mem (option T) :=
  match slot with
  | None => Ret None
  | Some r => x ← load (slot_ptr segment N r); _ ← read_commit segment; Ret (Some x)
  end.
Definition next_read (n : nat) (rcvd : list T) (r : option T) : prog mem (list T) :=
  consumer n (match r with Some x => rcvd ++ [x] | None => rcvd end).

Inductive cons_phase (sent rcvd : list T) : prog mem (list T) -> Prop :=
| cp_start n : cons_phase sent rcvd (consumer n rcvd)
| cp_loaded n :
    cons_phase sent rcvd
      (((w ← load (sub_field segment write_idx_f);
         if w <=? len rcvd then Ret None else Ret (Some (len rcvd))) ≫= read_rest) ≫= next_read n rcvd)
| cp_slot n :
    (length rcvd < length sent)%nat ->
    cons_phase sent rcvd (read_rest (Some (len rcvd)) ≫= next_read n rcvd)
| cp_copied n x :
    sent !! length rcvd = Some x ->
    cons_phase sent rcvd ((_ ← read_commit segment; Ret (Some x)) ≫= next_read n rcvd).

Lemma land_mask k : Z.land k (MASK N) = k mod N.
Proof. unfold MASK. rewrite Z.sub_1_r, <- Z.ones_equiv. apply Z.land_ones, e_range. Qed.

Lemma mod_window M a b : 0 < M -> a < b < a + M -> a mod M <> b mod M.
Proof.
  intros HM Hab E. pose proof (Z.div_mod a M ltac:(lia)) as Ea. pose proof (Z.div_mod b M ltac:(lia)) as Eb.
  rewrite E in Ea.
  assert (0 < M * (b / M - a / M) < M) as Hk by lia. revert Hk. generalize (b / M - a / M). clear -HM. intros k Hk.
  destruct (Z.le_gt_cases k 0); nia.
Qed.

Lemma slots_differ a b : a < b < a + N -> Z.land a (MASK N) <> Z.land b (MASK N).
Proof. intros Hab. rewrite !land_mask. apply mod_window; [apply Z.pow_pos_nonneg; [lia|apply e_range]|done]. Qed.

Lemma offered_bound total sent rest : offered total sent rest -> len sent + len rest < 2 ^ 64.
Proof.
  intros (done & -> & Hs%sublist_length & Hl). unfold len in *. rewrite length_app in Hl. lia.
Qed.

Lemma offered_skip total sent x rest : offered total sent (x :: rest) -> offered total sent rest.
Proof.
  intros (done & -> & Hs & Hl). exists (done ++ [x]). rewrite <- app_assoc. split; [done|]. split; [|done].
  by apply sublist_inserts_r.
Qed.

Lemma offered_take total sent x rest : offered total sent (x :: rest) -> offered total (sent ++ [x]) rest.
Proof.
  intros (done & -> & Hs & Hl). exists (done ++ [x]). rewrite <- app_assoc. split; [done|]. split; [|done].
  by apply sublist_app.
Qed.

(** The producer's phase survives what the consumer does. *)
Lemma prod_phase_frame total m m' sent nr nr' p :
  rm_slots m' = rm_slots m -> nr <= nr' -> prod_phase total m sent nr p -> prod_phase total m' sent nr' p.
Proof.
  intros Es Hn [items Ho|x items Ho|x items Ho Hl|x items Ho Hl Hx].
  - by apply pp_start.
  - by apply pp_loaded.
  - apply pp_slot; [done|lia].
  - apply pp_written; [done|lia|by rewrite Es].
Qed.

(** The consumer's phase survives what the producer does. *)
Lemma cons_phase_frame sent sent' rcvd c : sent `prefix_of` sent' -> cons_phase sent rcvd c -> cons_phase sent' rcvd c.
Proof.
  intros Hp [n|n|n Hl|n x Hx].
  - apply cp_start.
  - apply cp_loaded.
  - apply cp_slot. apply prefix_length in Hp. lia.
  - apply cp_copied. by eapply prefix_lookup_Some.
Qed.

Lemma not_full sent rcvd total x items : offered total sent (x :: items) -> rcvd `prefix_of` sent ->
  (N <=? wrapping_sub 64 (len sent) (len rcvd)) = (N <=? len sent - len rcvd).
Proof.
  intros Ho%offered_bound Hp%prefix_length. unfold wrapping_sub. rewrite wrap_id; [done|].
  unfold is_u, len in *. lia.
Qed.

Lemma producer_step total m m' sent rcvd p p' :
  mem_ok m sent rcvd -> prod_phase total m sent (len rcvd) p -> thread_step m p m' p' ->
  exists sent', sent `prefix_of` sent' /\ mem_ok m' sent' rcvd /\ prod_phase total m' sent' (len rcvd) p'.
Proof.
  intros (Hw & Hr & Hp & Hcap & Hsl) Hph Hs. destruct Hph as [items Ho|x items Ho|x items Ho Hl|x items Ho Hl Hx].
  - destruct items as [|x items]; inv_step Hs. exists sent. split; [done|]. split; [done|]. rewrite Hw. by apply pp_loaded.
  - inv_step Hs. exists sent. split; [done|]. split; [done|]. rewrite Hr, (not_full _ _ _ _ _ Ho Hp).
    destruct (Z.leb_spec N (len sent - len rcvd)); [|by apply pp_slot].
    apply pp_start. by eapply offered_skip.
  - inv_step Hs. exists sent. split; [done|]. split; [|].
    + split; [done|]. split; [done|]. split; [done|]. split; [done|]. cbn [rm_slots]. intros k Hk.
      rewrite lookup_total_insert_ne; [by apply Hsl|]. apply not_eq_sym, slots_differ. unfold len in *. lia.
    + apply pp_written; [done|done|]. cbn [rm_slots]. apply lookup_total_insert_eq.
  - revert Hx. inv_step Hs. intros Hx. exists (sent ++ [x]). split; [by apply prefix_app_r|]. split.
    + pose proof (offered_bound _ _ _ Ho) as Hb. unfold mem_ok. cbn [write_idx read_idx rm_slots].
      unfold len in *. rewrite length_app in *. simpl length in *.
      split. { rewrite Hw. unfold wrapping_add. rewrite wrap_id; [lia|unfold is_u; lia]. }
      split; [done|]. split; [by apply prefix_app_r|]. split; [lia|]. intros k Hk.
      destruct (decide (k = length sent)) as [->|].
      * rewrite lookup_app_r, Nat.sub_diag by lia. simpl. by rewrite Hx.
      * rewrite lookup_app_l by lia. apply Hsl. lia.
    + apply pp_start. by apply offered_take.
Qed.

Lemma consumer_step m m' sent rcvd c c' :
  mem_ok m sent rcvd -> len sent < 2 ^ 64 -> cons_phase sent rcvd c -> thread_step m c m' c' ->
  exists rcvd', len rcvd <= len rcvd' /\ rm_slots m' = rm_slots m /\ mem_ok m' sent rcvd' /\ cons_phase sent rcvd' c'.
Proof.
  intros (Hw & Hr & Hp & Hcap & Hsl) Hlt Hph Hs. destruct Hph as [n|n|n Hl|n x Hx].
  - destruct n as [|n]; inv_step Hs. exists rcvd. split; [done|]. split; [done|]. split; [done|]. rewrite Hr. apply cp_loaded.
  - inv_step Hs. exists rcvd. split; [done|]. split; [done|]. split; [done|]. rewrite Hw.
    destruct (Z.leb_spec (len sent) (len rcvd)); [apply cp_start|]. apply cp_slot. unfold len in *. lia.
  - inv_step Hs. exists rcvd. split; [done|]. split; [done|]. split; [done|]. apply cp_copied. apply Hsl. lia.
  - inv_step Hs. exists (rcvd ++ [x]). pose proof (lookup_lt_Some _ _ _ Hx) as Hlen. unfold len in *. rewrite length_app.
    simpl length. split; [lia|]. split; [done|]. split; [|apply cp_start].
    unfold mem_ok, len. cbn [write_idx read_idx rm_slots]. rewrite length_app. simpl length.
    split; [done|]. split. { rewrite Hr. unfold wrapping_add. rewrite wrap_id; [lia|unfold is_u; lia]. }
    split; [|split; [lia|intros k Hk; apply Hsl; lia]].
    destruct Hp as [rest ->]. rewrite lookup_app_r, Nat.sub_diag in Hx by lia. destruct rest as [|y rest]; simplify_eq/=.
    exists rest. by rewrite <- app_assoc.
Qed.

Definition spsc_inv (total : list T) (m : mem) (ps : list (prog mem (list T))) : Prop :=
  exists p c sent rcvd, ps = [p; c] /\ mem_ok m sent rcvd /\
    prod_phase total m sent (len rcvd) p /\ cons_phase sent rcvd c.

Lemma prod_phase_offered total m sent nr p : prod_phase total m sent nr p -> exists rest, offered total sent rest.
Proof. intros []; eauto. Qed.

Lemma spsc_inv_step total m ps i p m' p' :
  spsc_inv total m ps -> ps !! i = Some p -> thread_step m p m' p' -> spsc_inv total m' (<[i := p']> ps).
Proof.
  intros (p0 & c0 & sent & rcvd & -> & Hm & Hp & Hc) Hi Hs. destruct i as [|[|i]]; simpl in Hi; simplify_eq/=.
  - destruct (producer_step _ _ _ _ _ _ _ Hm Hp Hs) as (sent' & Hpre & Hm' & Hp').
    exists p', c0, sent', rcvd. split; [done|]. split; [done|]. split; [done|]. by eapply cons_phase_frame.
  - destruct (prod_phase_offered _ _ _ _ _ Hp) as [rest Ho%offered_bound].
    destruct (consumer_step _ _ _ _ _ _ Hm ltac:(unfold len in *; lia) Hc Hs) as (rcvd' & Hl & Es & Hm' & Hc').
    exists p0, p', sent, rcvd'. split; [done|]. split; [done|]. split; [|done]. by eapply prod_phase_frame.
Qed.

Lemma producer_ret items acc l : producer items acc = Ret l -> l = acc /\ items = [].
Proof. destruct items; [by intros [= ->]|done]. Qed.

(** C17: with one writer and one reader whose accesses interleave in any way, the ring is a
    bounded FIFO queue.  The items received are a prefix of the items accepted, which are
    some of those offered, in order; at most [N] are in flight, and the ring holds exactly
    them: none is lost, duplicated, reordered or overwritten before it is read.  A producer
    that has finished reports exactly the items accepted, and a consumer exactly those
    received. *)
Theorem spsc_ring_is_fifo items n m p c :
  len items < 2 ^ 64 ->
  pool_reach (mk_ring_mem 0 0 true ∅, [producer items []; consumer n []]) (m, [p; c]) ->
  exists sent rcvd in_flight, sent = rcvd ++ in_flight /\ sent `sublist_of` items /\ len in_flight <= N /\
    write_idx m = len sent /\ read_idx m = len rcvd /\
    (forall k x, in_flight !! k = Some x -> rm_slots m !!! ((read_idx m + Z.of_nat k) mod N) = x) /\
    (forall l, p = Ret l -> l = sent) /\ (forall l, c = Ret l -> l = rcvd).
Proof.
  intros Hl Hr. assert (spsc_inv items m [p; c]) as (p' & c' & sent & rcvd & E & (Hw & Hrd & [fl ->] & Hcap & Hsl) & Hp & Hc).
  { eapply (pool_invariant (spsc_inv items)); [|intros; by eapply spsc_inv_step|exact Hr].
    eexists _, _, [], []. split; [done|]. split; [|split; [apply pp_start; by exists []|apply (cp_start _ _ n)]].
    split; [done|]. split; [done|]. split; [done|]. split; [|simpl; intros; lia].
    unfold len. simpl. apply Z.pow_nonneg. lia. }
  simplify_eq. exists (rcvd ++ fl), rcvd, fl. split; [done|].
  split. { destruct (prod_phase_offered _ _ _ _ _ Hp) as (rest & d & -> & Hsub & _).
    etransitivity; [exact Hsub|]. by apply sublist_inserts_r. }
  unfold len in *. rewrite length_app in *. split; [lia|]. split; [lia|]. split; [done|]. split.
  - intros k x Hk. pose proof (lookup_lt_Some _ _ _ Hk). specialize (Hsl (length rcvd + k)%nat ltac:(lia)).
    rewrite lookup_app_r in Hsl by lia. replace (length rcvd + k - length rcvd)%nat with k in Hsl by lia.
    rewrite land_mask in Hsl. rewrite Hk in Hsl. injection Hsl as ->. rewrite Hrd. do 2 f_equal. lia.
  - split.
    + intros l ->. inversion Hp as [its Ho E'| | |]. by apply producer_ret in E' as [-> _].
    + intros l ->. inversion Hc as [k E'| | |]. destruct k; [by injection E'|done].
Qed.

End spsc.

(** Two slots; three items offered, the reader catches the first. *)
Definition spsc_schedule : list (nat * bool) :=
  (fun i => (i, false)) <$> ([0; 0; 0; 0; 1; 1; 0; 1; 1; 0; 0; 0; 0; 0; 0; 0])%nat.

Lemma spsc_ring_is_fifo_witness :
  let cfg := run_sched spsc_schedule (mk_ring_mem 0 0 true ∅, [producer 1 [10; 20; 30] []; consumer 1 1 []]) in
  exists m p c, cfg = (m, [p; c]) /\ write_idx m = 3 /\
  exists sent rcvd in_flight, sent = rcvd ++ in_flight /\ rcvd = [10] /\ sent = [10; 20; 30].
Proof.
  intros cfg. assert (exists m, cfg = (m, [Ret [10; 20; 30]; Ret [10]]) /\ write_idx m = 3) as (m & E & Hw)
    by (eexists; split; vm_compute; reflexivity).
  exists m, (Ret [10; 20; 30]), (Ret [10]). split; [exact E|]. split; [exact Hw|].
  pose proof (run_sched_reach spsc_schedule (mk_ring_mem 0 0 true ∅) [producer 1 [10; 20; 30] []; consumer 1 1 []]) as Hr.
  rewrite <- surjective_pairing in Hr. fold cfg in Hr. rewrite E in Hr.
  destruct (@spsc_ring_is_fifo Z _ 1 ltac:(vm_compute; split; congruence) [10; 20; 30] 1 m _ _ ltac:(vm_compute; reflexivity) Hr)
    as (sent & rcvd & fl & H1 & _ & _ & _ & _ & _ & H2 & H3).
  exists sent, rcvd, fl. split; [exact H1|]. split; [symmetry; apply H3; reflexivity|symmetry; apply H2; reflexivity].
Defined.

(** ** Overwriting *)

(** A writer that overwrites, against a reader: the reader takes items 10 and 20 while the
    writer is between reading the read index and advancing it. *)
Definition overwrite_schedule : list (nat * bool) :=
  (fun i => (i, false)) <$> ([0; 0; 1; 1; 1; 1; 1; 1; 1; 1; 0; 0; 0; 1; 1; 1; 1])%nat.

(** [write_overwrite] is not safe against a concurrent [read]: it stores a read
    index computed from an earlier load, so a reader that advanced in between is set back and
    receives an item a second time.  Here a full ring of two items is overwritten with a
    third while the reader reads three times: it receives 10, 20 and then 20 again. *)
Theorem write_overwrite_can_repeat :
  (run_sched overwrite_schedule
    (mk_ring_mem 2 0 true {[0 := 10; 1 := 20]},
     [(_ ← write_overwrite segment 2 30; Ret []); consumer 1 3 []])).2 = [Ret []; Ret [10; 20; 20]].
Proof. vm_compute. reflexivity. Qed.
