(* ===== verification/ServiceRegistry.v ===== *)
(** * The service registry

    [proto/service_registry.rs]: a fixed table of 32 named services in shared
    memory under a spin lock.  Every operation locks, works on the whole table and
    unlocks; the work is one access of the model (the lock is the protocol of
    [Locks], whose holder works alone).

    Strings are their UTF-8 bytes; [services] is the abstract view of a table: the
    live services by name. *)
From S2P Require Import Prelude Atomics Liveness.

Definition MAX_SERVICES : Z := 32.
Definition MAX_NAME_LEN : nat := 64.

Record ServiceEntry := mk_ServiceEntry {
  se_name : list Z; control_channel : list Z; reply_channel : list Z;
  se_pid : Z; registered_at : Z; flags : Z }.

#[export] Instance ServiceEntry_eq_dec : EqDecision ServiceEntry.
Proof. solve_decision. Defined.

Definition default_entry : ServiceEntry :=
  mk_ServiceEntry (replicate MAX_NAME_LEN 0) (replicate MAX_NAME_LEN 0) (replicate MAX_NAME_LEN 0) 0 0 0.

(** [str::from_utf8] succeeds: well-formed UTF-8 (no overlong forms, surrogates or values past U+10FFFF). *)
Definition in_range (a b x : Z) : bool := (a <=? x) && (x <=? b).
Definition cont (x : Z) : bool := in_range 0x80 0xBF x.

Fixpoint utf8_valid (l : list Z) : bool :=
  match l with
  | [] => true
  | b0 :: l1 =>
      if in_range 0 0x7F b0 then utf8_valid l1
      else match l1 with
      | [] => false
      | b1 :: l2 =>
          if in_range 0xC2 0xDF b0 then cont b1 && utf8_valid l2
          else match l2 with
          | [] => false
          | b2 :: l3 =>
              if b0 =? 0xE0 then in_range 0xA0 0xBF b1 && cont b2 && utf8_valid l3
              else if b0 =? 0xED then in_range 0x80 0x9F b1 && cont b2 && utf8_valid l3
              else if in_range 0xE1 0xEF b0 then cont b1 && cont b2 && utf8_valid l3
              else match l3 with
              | [] => false
              | b3 :: l4 =>
                  if b0 =? 0xF0 then in_range 0x90 0xBF b1 && cont b2 && cont b3 && utf8_valid l4
                  else if b0 =? 0xF4 then in_range 0x80 0x8F b1 && cont b2 && cont b3 && utf8_valid l4
                  else in_range 0xF1 0xF3 b0 && cont b1 && cont b2 && cont b3 && utf8_valid l4
              end
          end
      end
  end.

(** The bytes up to the first NUL, or all of them. *)
Fixpoint until_nul (l : list Z) : list Z :=
  match l with
  | [] => []
  | b :: l => if b =? 0 then [] else b :: until_nul l
  end.

(** [name_str], [control_channel_str], [reply_channel_str]. *)
Definition field_str (f : list Z) : list Z := if utf8_valid (until_nul f) then until_nul f else [].

Definition name_str (e : ServiceEntry) : list Z := field_str (se_name e).
Definition control_channel_str (e : ServiceEntry) : list Z := field_str (control_channel e).
Definition reply_channel_str (e : ServiceEntry) : list Z := field_str (reply_channel e).

Definition active (e : ServiceEntry) : bool := (0 <? se_pid e) && negb (se_name e !!! 0%nat =? 0).

(** [copy_str]: truncate to 63 bytes and terminate. *)
Definition copy_str (dst src : list Z) : list Z :=
  let len := (length src `min` (MAX_NAME_LEN - 1))%nat in
  splice len [0] (splice 0 (take len src) dst).

(** [fill_entry]; [secs] is the wall clock. *)
Definition fill_entry (name ctrl reply : list Z) (pid secs : Z) : ServiceEntry :=
  let e := default_entry in
  mk_ServiceEntry (copy_str (se_name e) name) (copy_str (control_channel e) ctrl) (copy_str (reply_channel e) reply)
    pid secs (flags e).

(** The segment ([RegistryData]). *)
Record RegistryData := mk_RegistryData { spinlock : Z; count : Z; entries : list ServiceEntry }.

Definition spinlock_f : field RegistryData Z :=
  mk_field spinlock (fun v d => mk_RegistryData v (count d) (entries d)).

(** A fresh segment is zero-filled. *)
Definition fresh_registry : RegistryData := mk_RegistryData 0 0 (replicate (Z.to_nat MAX_SERVICES) default_entry).

Fixpoint reg_lock (fuel : nat) : prog RegistryData unit :=
  match fuel with
  | O => Spin
  | S fuel =>
      r ← compare_exchange spinlock_f 0 1;
      match r with Ok _ => Ret tt | Err _ => reg_lock fuel end
  end.

Definition reg_unlock : prog RegistryData unit := store spinlock_f 0.

(** Work on the table between [lock] and [unlock]. *)
Definition locked {A} (fuel : nat) (work : Z * list ServiceEntry -> A * (Z * list ServiceEntry)) : prog RegistryData A :=
  _ ← reg_lock fuel;
  r ← act (fun d => let '(a, (n, es)) := work (count d, entries d) in (a, mk_RegistryData (spinlock d) n es));
  _ ← reg_unlock;
  Ret r.

Section registry.
Context (o : os) (fuel : nat).

Definition is_pid_alive (pid : Z) : bool :=
  match os_kill o pid with None => true | Some errno => negb (errno =? ESRCH) end.

Definition is_alive (e : ServiceEntry) : bool := if se_pid e <=? 0 then false else is_pid_alive (se_pid e).

Definition named (name : list Z) (e : ServiceEntry) : bool := active e && bool_decide (name_str e = name).

(** The two loops of [register_service_as]. *)
Definition register_work (name ctrl reply : list Z) (pid secs : Z) (st : Z * list ServiceEntry)
    : bool * (Z * list ServiceEntry) :=
  let '(n, es) := st in
  let filled := fill_entry name ctrl reply pid secs in
  match list_find (fun e => named name e = true) es with
  | Some (i, e) => if is_alive e then (false, (n, es)) else (true, (n, <[i := filled]> es))
  | None =>
      match list_find (fun e => negb (active e) || negb (is_alive e) = true) es with
      | Some (i, e) => (true, (if n <? MAX_SERVICES then n + 1 else n, <[i := filled]> es))
      | None => (false, (n, es))
      end
  end.

Definition register_service_as (name ctrl reply : list Z) (pid secs : Z) : prog RegistryData bool :=
  if bool_decide (name = []) then Ret false else locked fuel (register_work name ctrl reply pid secs).

Definition register_service (name ctrl reply : list Z) (secs : Z) : prog RegistryData bool :=
  register_service_as name ctrl reply (os_getpid o) secs.

Definition unregister_work (name : list Z) (pid : Z) (st : Z * list ServiceEntry) : bool * (Z * list ServiceEntry) :=
  let '(n, es) := st in
  match list_find (fun e => named name e && (se_pid e =? pid) = true) es with
  | Some (i, _) => (true, (n, <[i := default_entry]> es))
  | None => (false, (n, es))
  end.

Definition unregister_service_as (name : list Z) (pid : Z) : prog RegistryData bool := locked fuel (unregister_work name pid).

Definition unregister_service (name : list Z) : prog RegistryData bool := unregister_service_as name (os_getpid o).

(** [find] clears the stale entries of the name it passes. *)
Fixpoint find_loop (name : list Z) (es : list ServiceEntry) : option ServiceEntry * list ServiceEntry :=
  match es with
  | [] => (None, [])
  | e :: es' =>
      if named name e then
        if negb (is_alive e) then let '(r, es'') := find_loop name es' in (r, default_entry :: es'')
        else (Some e, e :: es')
      else let '(r, es'') := find_loop name es' in (r, e :: es'')
  end.

Definition find (name : list Z) : prog RegistryData (option ServiceEntry) :=
  locked fuel (fun st => let '(n, es) := st in let '(r, es') := find_loop name es in (r, (n, es'))).

(** [starts_with]. *)
Definition starts_with (prefix s : list Z) : bool := bool_decide (take (length prefix) s = prefix).

(** One pass that drops the dead and collects the live entries that [keep] selects. *)
Definition swept (e : ServiceEntry) : ServiceEntry := if active e && negb (is_alive e) then default_entry else e.
Definition live (e : ServiceEntry) : bool := active e && is_alive e.

Definition sweep (keep : ServiceEntry -> bool) (st : Z * list ServiceEntry)
    : list ServiceEntry * (Z * list ServiceEntry) :=
  let '(n, es) := st in (List.filter (fun e => live e && keep e) es, (n, swept <$> es)).

Definition find_all (prefix : list Z) : prog RegistryData (list ServiceEntry) :=
  locked fuel (sweep (fun e => starts_with prefix (name_str e))).

Definition list_services : prog RegistryData (list ServiceEntry) := locked fuel (sweep (fun _ => true)).

Definition gc : prog RegistryData Z :=
  locked fuel (fun st => let '(n, es) := st in
    (Z.of_nat (length (List.filter (fun e => active e && negb (is_alive e)) es)), (n, swept <$> es))).

Definition clear : prog RegistryData unit :=
  locked fuel (fun st => let '(n, es) := st in (tt, (0, (fun _ => default_entry) <$> es))).

End registry.

(** ** The abstract view *)

(** A name that fits the fixed field: not empty, at most 63 bytes, UTF-8 without NUL. *)
Definition fits (s : list Z) : Prop :=
  s <> [] /\ (length s <= 63)%nat /\ Forall (fun b => b <> 0) s /\ utf8_valid s = true.

Lemma copy_str_fits (s : list Z) : (length s <= 63)%nat ->
  copy_str (replicate MAX_NAME_LEN 0) s = s ++ replicate (64 - length s) 0.
Proof.
  intros Hl. unfold copy_str, MAX_NAME_LEN. rewrite Nat.min_l by lia. rewrite take_ge by lia.
  assert (splice 0 s (replicate 64 0) = s ++ replicate (64 - length s) 0) as ->.
  { unfold splice. cbn [take app Nat.add]. by rewrite drop_replicate. }
  unfold splice. rewrite take_app_length. f_equal. rewrite drop_app_ge by (simpl; lia).
  replace (64 - length s)%nat with (S (63 - length s)) by lia. cbn [replicate app length].
  replace (length s + 1 - length s)%nat with 1%nat by lia. done.
Qed.

Lemma until_nul_app s l : Forall (fun b => b <> 0) s -> until_nul (s ++ 0 :: l) = s.
Proof.
  induction 1 as [|b s Hb _ IH]; cbn; [done|]. destruct (Z.eqb_spec b 0); [done|]. by rewrite IH.
Qed.

Lemma field_str_copy s : fits s -> field_str (copy_str (replicate MAX_NAME_LEN 0) s) = s.
Proof.
  intros (_ & Hl & Hn & Hu). rewrite copy_str_fits by done.
  replace (64 - length s)%nat with (S (63 - length s)) by lia. cbn [replicate].
  unfold field_str. by rewrite until_nul_app, Hu.
Qed.

Lemma fill_active name ctrl reply pid secs : fits name -> 0 < pid -> active (fill_entry name ctrl reply pid secs) = true.
Proof.
  intros (Hne & Hl & Hn & _) Hp. unfold active, fill_entry. cbn [se_pid se_name default_entry].
  rewrite copy_str_fits by done. destruct name as [|b name]; [done|]. apply Forall_cons in Hn as [Hb _]. simpl.
  destruct (Z.ltb_spec 0 pid), (Z.eqb_spec b 0); simpl; done || lia.
Qed.

Lemma default_inactive : active default_entry = false.
Proof. done. Qed.

Section views.
Context (o : os) (fuel : nat).

(** No two active entries have the same name. *)
Definition uniq (es : list ServiceEntry) : Prop :=
  forall i j ei ej, es !! i = Some ei -> es !! j = Some ej ->
    active ei = true -> active ej = true -> name_str ei = name_str ej -> i = j.

(** The live services, by name. *)
Definition services (es : list ServiceEntry) : gmap (list Z) ServiceEntry :=
  list_to_map ((fun e => (name_str e, e)) <$> List.filter (live o) es).

Lemma live_active e : live o e = true -> active e = true.
Proof. by intros [H _]%andb_prop. Qed.

Lemma services_lookup es nm e : uniq es ->
  services es !! nm = Some e <-> exists i, es !! i = Some e /\ live o e = true /\ name_str e = nm.
Proof.
  intros Hu. unfold services.
  assert (forall x, (nm, x) ∈ (fun e => (name_str e, e)) <$> List.filter (live o) es <->
                    exists i, es !! i = Some x /\ live o x = true /\ name_str x = nm) as Hin.
  { intros x. rewrite list_elem_of_fmap. split.
    - intros (y & [= -> ->] & Hy%list_elem_of_In). apply filter_In in Hy as [Hy%list_elem_of_In Hl].
      apply list_elem_of_lookup in Hy as [i Hi]. eauto.
    - intros (i & Hi & Hl & <-). exists x. split; [done|]. apply list_elem_of_In, filter_In.
      split; [|done]. apply list_elem_of_In. by eapply list_elem_of_lookup_2. }
  rewrite <- Hin. split; [apply elem_of_list_to_map_2|].
  intros He. apply elem_of_list_to_map_1'; [|done]. intros y Hy%Hin. apply Hin in He.
  destruct He as (i & Hi & Hli & Hni), Hy as (j & Hj & Hlj & Hnj).
  assert (i = j) as -> by (eapply Hu; eauto using live_active; congruence). congruence.
Qed.

(** Maps are compared through what is live in the tables. *)
Lemma services_eq (es : list ServiceEntry) (m : gmap (list Z) ServiceEntry) : uniq es ->
  (forall nm e, (exists i, es !! i = Some e /\ live o e = true /\ name_str e = nm) <-> m !! nm = Some e) ->
  services es = m.
Proof.
  intros Hu H. apply map_eq. intros nm. apply option_eq. intros e. rewrite <- H. by apply services_lookup.
Qed.

(** *** Writing a slot *)

Lemma uniq_insert es i new :
  uniq es ->
  (active new = true -> forall j ej, es !! j = Some ej -> j <> i -> active ej = true -> name_str ej <> name_str new) ->
  uniq (<[i := new]> es).
Proof.
  intros Hu Hn j k ej ek Hj Hk Haj Hak E.
  apply list_lookup_insert_Some in Hj as [(<- & <- & _)|[Hij Ej]], Hk as [(<- & <- & _)|[Hik Ek]]; try done.
  - destruct (Hn Haj k ek Ek); done.
  - destruct (Hn Hak j ej Ej); done.
  - by eapply Hu.
Qed.

Lemma services_add es i old new :
  uniq es -> uniq (<[i := new]> es) -> es !! i = Some old -> live o old = false -> live o new = true ->
  services (<[i := new]> es) = <[name_str new := new]> (services es).
Proof.
  intros Hu Hu' Hi Hold Hnew. apply services_eq; [done|]. intros nm e. rewrite lookup_insert_Some. split.
  - intros (j & Hj & Hl & Hnm). apply list_lookup_insert_Some in Hj as [(-> & <- & _)|[Hne Hj]]; [by left|].
    right. split; [|apply services_lookup; eauto]. intros E. apply Hne.
    eapply (Hu' i j new e); [|by rewrite list_lookup_insert_ne|by eauto using live_active..|congruence].
    apply list_lookup_insert_eq. by eapply lookup_lt_Some.
  - intros [[<- <-]|[Hne (j & Hj & Hl & Hnm)%services_lookup]]; [| |done].
    + exists i. split; [|done]. apply list_lookup_insert_eq. by eapply lookup_lt_Some.
    + exists j. split; [|done]. rewrite list_lookup_insert_ne; [done|]. intros ->. congruence.
Qed.

Lemma services_drop es i old new :
  uniq es -> uniq (<[i := new]> es) -> es !! i = Some old -> live o old = true -> live o new = false ->
  services (<[i := new]> es) = delete (name_str old) (services es).
Proof.
  intros Hu Hu' Hi Hold Hnew. apply services_eq; [done|]. intros nm e. rewrite lookup_delete_Some. split.
  - intros (j & Hj & Hl & Hnm). apply list_lookup_insert_Some in Hj as [(-> & <- & _)|[Hne Hj]]; [congruence|].
    split; [|apply services_lookup; eauto]. intros E. apply Hne.
    eapply (Hu i j old e); eauto using live_active. congruence.
  - intros [Hne (j & Hj & Hl & Hnm)%services_lookup]; [|done].
    exists j. split; [|done]. rewrite list_lookup_insert_ne; [done|]. intros ->. congruence.
Qed.

(** *** Clearing stale entries *)

(** Some entries that are not live have been replaced by empty ones. *)
Definition cleaned (es es' : list ServiceEntry) : Prop :=
  Forall2 (fun e e' => e' = e \/ (live o e = false /\ e' = default_entry)) es es'.

Lemma cleaned_services es es' : cleaned es es' -> uniq es -> uniq es' /\ services es' = services es.
Proof.
  intros Hc Hu.
  assert (forall i e', es' !! i = Some e' -> active e' = true -> es !! i = Some e') as Hback.
  { intros i e' Hi Ha. destruct (Forall2_lookup_r _ _ _ _ _ Hc Hi) as (e & He & [->|[_ ->]]); done. }
  assert (uniq es') as Hu'. { intros i j ei ej Hi Hj Hai Haj. apply (Hu i j); auto. }
  split; [done|]. apply services_eq; [done|]. intros nm e. rewrite services_lookup by done. split.
  - intros (i & Hi & Hl & Hn). exists i. split; [|done]. apply Hback; [done|]. by apply live_active.
  - intros (i & Hi & Hl & Hn). exists i. split; [|done].
    destruct (Forall2_lookup_l _ _ _ _ _ Hc Hi) as (e' & He' & [->|[? _]]); [done|congruence].
Qed.

Lemma swept_cleaned es : cleaned es (swept o <$> es).
Proof.
  unfold cleaned. apply Forall2_fmap_r. induction es as [|e es IH]; constructor; [|done]. cbv beta delta [compose swept live].
  destruct (active e), (is_alive o e); simpl; by (left + right).
Qed.

Lemma find_loop_spec name es : uniq es ->
  cleaned es (find_loop o name es).2 /\ (find_loop o name es).1 = services es !! name.
Proof.
  intros Hu. split.
  - clear Hu. induction es as [|e es IH]; cbn [find_loop]; [constructor|].
    assert (cleaned es es) as Hrefl by (apply Forall_Forall2_diag, Forall_true; by left).
    unfold named, cleaned in *. destruct (active e) eqn:Ha, (bool_decide _), (is_alive o e) eqn:El; cbn [andb negb];
      destruct (find_loop o name es) as [r es']; constructor; auto. right. unfold live. by rewrite Ha, El.
  - apply option_eq. intros e. rewrite services_lookup by done.
    assert (forall e, (find_loop o name es).1 = Some e -> exists i, es !! i = Some e /\ live o e = true /\ name_str e = name) as H1.
    { clear Hu e. induction es as [|e0 es IH]; cbn [find_loop]; [done|]. intros e. destruct (named name e0) eqn:En.
      - unfold named in En. apply andb_prop in En as [Ha Hn%bool_decide_eq_true].
        destruct (is_alive o e0) eqn:El; cbn [negb].
        + intros [= <-]. exists 0%nat. unfold live. by rewrite Ha, El.
        + destruct (find_loop o name es) as [r es']. intros Hr. destruct (IH e Hr) as (i & Hi). by exists (S i).
      - destruct (find_loop o name es) as [r es']. intros Hr. destruct (IH e Hr) as (i & Hi). by exists (S i). }
    assert ((find_loop o name es).1 = None -> forall i e, es !! i = Some e -> live o e = true -> name_str e <> name) as H2.
    { clear Hu e H1. induction es as [|e0 es IH]; cbn [find_loop]; [done|]. unfold named.
      destruct (active e0) eqn:Ha, (bool_decide_reflect (name_str e0 = name)) as [Hn|Hn], (is_alive o e0) eqn:El; cbn [andb negb];
        destruct (find_loop o name es) as [r es']; try done; intros Hr [|i] e Hi Hl; simplify_eq/=;
        try (by eapply IH); try done; unfold live in Hl; rewrite ?Ha, ?El in Hl; done. }
    split.
    + apply H1.
    + intros (i & Hi & Hl & Hn). destruct (find_loop o name es).1 as [e'|] eqn:E; [|by destruct (H2 eq_refl i e)].
      destruct (H1 e' eq_refl) as (j & Hj & Hlj & Hnj). f_equal.
      assert (i = j) as -> by (eapply Hu; eauto using live_active; congruence). congruence.
Qed.

End views.

(** ** Properties *)

Section properties.
Context (o : os) (fuel : nat).

(** A locked operation run alone on an unlocked table. *)
Lemma locked_runs {A} n (work : Z * list ServiceEntry -> A * (Z * list ServiceEntry)) d :
  spinlock d = 0 -> (0 < fuel)%nat ->
  runs n (locked fuel work) d (fun r d' =>
    (r, (count d', entries d')) = work (count d, entries d) /\ spinlock d' = 0).
Proof.
  intros Hl Hf. destruct fuel as [|f]; [lia|]. unfold locked. cbn [reg_lock]. apply runs_bind. run_step.
  cbn [fget spinlock_f]. rewrite Hl. cbn [Z.eqb fst snd]. run_step. run_step. cbn [fset spinlock_f count entries].
  destruct (work (count d, entries d)) as [a [k es]]. cbn [fst snd].
  unfold reg_unlock. run_step. run_step. done.
Qed.

(** A table between operations: unlocked, active names unique. *)
Definition settled (d : RegistryData) : Prop := spinlock d = 0 /\ uniq (entries d).

Definition view (d : RegistryData) : gmap (list Z) ServiceEntry := services o (entries d).

(** C29: registering a service under a name that fits adds exactly that service to the live
    ones, and is refused only when a live service already has the name or when all the slots
    hold live services; a refused registration changes nothing.  Either way no two active
    entries share a name afterwards and the lock is free again. *)
Theorem register_service_spec name ctrl reply pid secs d n :
  settled d -> fits name -> 0 < pid -> is_pid_alive o pid = true -> (0 < fuel)%nat ->
  runs n (register_service_as o fuel name ctrl reply pid secs) d (fun ok d' =>
    settled d' /\
    if ok then view d !! name = None /\ view d' = <[name := fill_entry name ctrl reply pid secs]> (view d)
    else entries d' = entries d /\
         (is_Some (view d !! name) \/ forall i e, entries d !! i = Some e -> live o e = true)).
Proof.
  intros [Hl Hu] Hfit Hp Ha Hf. unfold register_service_as.
  rewrite bool_decide_false by apply Hfit. eapply runs_conseq; [by apply locked_runs|].
  intros ok d' [E Hl']. unfold settled, view. set (new := fill_entry name ctrl reply pid secs) in *.
  assert (name_str new = name) as Hname by (by apply field_str_copy).
  assert (active new = true) as Hact by (by apply fill_active).
  assert (live o new = true) as Hlive.
  { unfold live, is_alive. rewrite Hact. cbn [se_pid new fill_entry]. destruct (Z.leb_spec pid 0); [lia|done]. }
  unfold register_work in E. fold new in E.
  destruct (list_find _ (entries d)) as [[i e]|] eqn:Hd; [|destruct (list_find _ (entries d)) as [[i e]|] eqn:Hd2 in E].
  - apply list_find_Some in Hd as (Hi & [Hae Hne%bool_decide_eq_true]%andb_prop & _).
    destruct (is_alive o e) eqn:El; injection E as -> _ Ees; rewrite Ees.
    + split; [done|]. split; [done|]. left. exists e. apply services_lookup; [done|]. exists i.
      split; [done|]. split; [|done]. unfold live. by rewrite Hae, El.
    + assert (live o e = false) as Hdead by (unfold live; by rewrite El, andb_false_r).
      assert (uniq (<[i := new]> (entries d))) as Hu'.
      { apply uniq_insert; [done|]. intros _ j ej Hj Hji Haj Hnj. apply Hji. eapply Hu; eauto. congruence. }
      split; [done|]. split.
      * apply eq_None_not_Some. intros [e' (j & Hj & Hlj & Hnj)%services_lookup]; [|done].
        assert (j = i) as -> by (eapply Hu; eauto using live_active; congruence). congruence.
      * rewrite (services_add o _ i e new), Hname by done. done.
  - apply list_find_Some in Hd2 as (Hi & Hfree & _). injection E as -> _ Ees. rewrite Ees.
    pose proof (proj1 (list_find_None _ _) Hd) as Hnone. rewrite Forall_forall in Hnone.
    assert (forall j ej, entries d !! j = Some ej -> active ej = true -> name_str ej <> name) as Hno.
    { intros j ej Hj Haj Hnj. apply (Hnone ej); [by eapply list_elem_of_lookup_2|]. unfold named.
      by rewrite Haj, bool_decide_true. }
    assert (uniq (<[i := new]> (entries d))) as Hu'.
    { apply uniq_insert; [done|]. intros _ j ej Hj _ Haj. rewrite Hname. eauto. }
    split; [done|]. split.
    + apply eq_None_not_Some. intros [e' (j & Hj & Hlj & Hnj)%services_lookup]; [|done].
      by apply (Hno j e'); [|apply (live_active o)|].
    + rewrite (services_add o _ i e new), Hname; try done. unfold live. by destruct (active e), (is_alive o e).
  - injection E as -> _ Ees. rewrite Ees. split; [done|]. split; [done|]. right. intros i e Hi.
    pose proof (proj1 (list_find_None _ _) Hd2) as Hnone. rewrite Forall_forall in Hnone.
    specialize (Hnone e ltac:(by eapply list_elem_of_lookup_2)). unfold live. by destruct (active e), (is_alive o e).
Qed.

Lemma sweep_runs {A} n (result : list ServiceEntry -> A) d :
  settled d -> (0 < fuel)%nat ->
  runs n (locked fuel (fun st => let '(k, es) := st in (result es, (k, swept o <$> es)))) d (fun r d' =>
    r = result (entries d) /\ settled d' /\ view d' = view d).
Proof.
  intros [Hl Hu] Hf. eapply runs_conseq; [by apply locked_runs|]. intros r d' [E Hl'].
  injection E as -> _ Ees. unfold settled, view. rewrite Ees.
  by destruct (cleaned_services o _ _ (swept_cleaned o (entries d)) Hu) as [Hu' ->].
Qed.

(** C30: on a registry whose active names are unique, looking up, listing and collecting never
    change the set of live services, however many stale entries they clear on the way: [find]
    returns exactly the live service of the name, if any; [find_all] and [list] exactly the live ones (whose name starts with the
    prefix); [gc] the number of stale entries. *)
Theorem registry_lookup_spec name prefix d n :
  settled d -> (0 < fuel)%nat ->
  runs n (find o fuel name) d (fun r d' => r = view d !! name /\ settled d' /\ view d' = view d) /\
  runs n (find_all o fuel prefix) d (fun r d' =>
    (forall e, e ∈ r <-> exists nm, view d !! nm = Some e /\ prefix `prefix_of` nm) /\ settled d' /\ view d' = view d) /\
  runs n (list_services o fuel) d (fun r d' =>
    (forall e, e ∈ r <-> exists nm, view d !! nm = Some e) /\ settled d' /\ view d' = view d) /\
  runs n (gc o fuel) d (fun k d' =>
    k = Z.of_nat (length (List.filter (fun e => active e && negb (is_alive o e)) (entries d))) /\
    settled d' /\ view d' = view d).
Proof.
  intros Hd Hf. pose proof Hd as [Hl Hu].
  assert (forall keep e, e ∈ List.filter (fun e => live o e && keep e) (entries d) <->
            exists nm, view d !! nm = Some e /\ keep e = true) as Hmem.
  { intros keep e. rewrite list_elem_of_In, filter_In, <- list_elem_of_In, list_elem_of_lookup. split.
    - intros [[i Hi] [Hle Hk]%andb_prop]. exists (name_str e). split; [|done]. apply services_lookup; eauto.
    - intros (nm & (i & Hi & Hle & _)%services_lookup & Hk); [|done]. split; [eauto|]. by rewrite Hle, Hk. }
  split; [|split; [|split]].
  - eapply runs_conseq; [by apply locked_runs|]. intros r d' [E Hl'].
    destruct (find_loop_spec o name (entries d) Hu) as [Hc Hr].
    destruct (find_loop o name (entries d)) as [r0 es0]. cbn [fst snd] in *. injection E as -> _ Ees.
    unfold settled, view. rewrite Ees. by destruct (cleaned_services o _ _ Hc Hu) as [Hu' ->].
  - eapply runs_conseq; [apply (sweep_runs n (fun es => List.filter (fun e => live o e && starts_with prefix (name_str e)) es) d Hd Hf)|].
    intros r d' [-> H]. split; [|done]. intros e. rewrite Hmem. split.
    + intros (nm & Hnm & Hp%bool_decide_eq_true). exists nm. split; [done|].
      apply services_lookup in Hnm as (i & _ & _ & <-); [|done]. rewrite <- Hp. apply prefix_take.
    + intros (nm & Hnm & Hp). exists nm. split; [done|]. pose proof Hnm as (i & _ & _ & E)%services_lookup; [|done].
      rewrite E. unfold starts_with. apply bool_decide_eq_true. destruct Hp as [l ->]. by rewrite take_app_length.
  - eapply runs_conseq; [apply (sweep_runs n (fun es => List.filter (fun e => live o e && true) es) d Hd Hf)|].
    intros r d' [-> H]. split; [|done]. intros e. rewrite (Hmem (fun _ => true)).
    split; [intros (nm & Hnm & _); eauto|intros [nm Hnm]; eauto].
  - apply (sweep_runs n (fun es => Z.of_nat (length (List.filter (fun e => active e && negb (is_alive o e)) es))) d Hd Hf).
Qed.

(** C31: a process can remove its own service and no other (active names being unique).  [unregister] succeeds exactly
    when an active entry of the name belongs to the pid; a live service removed so is the one
    that goes, and on failure nothing changes.  [clear] removes them all. *)
Theorem unregister_service_spec name pid d n :
  settled d -> (0 < fuel)%nat ->
  runs n (unregister_service_as fuel name pid) d (fun ok d' =>
    settled d' /\
    if ok then (exists i e, entries d !! i = Some e /\ active e = true /\ name_str e = name /\ se_pid e = pid) /\
               view d' = delete name (view d)
    else entries d' = entries d /\
         forall i e, entries d !! i = Some e -> active e = true -> name_str e = name -> se_pid e <> pid) /\
  runs n (clear fuel) d (fun _ d' => settled d' /\ view d' = ∅ /\ count d' = 0).
Proof.
  intros [Hl Hu] Hf. split; (eapply runs_conseq; [by apply locked_runs|]); intros r d' [E Hl']; unfold settled, view.
  - unfold unregister_work in E. destruct (list_find _ (entries d)) as [[i e]|] eqn:Hd; injection E as -> _ Ees; rewrite Ees.
    + apply list_find_Some in Hd as (Hi & [[Hae Hne%bool_decide_eq_true]%andb_prop Hpe%Z.eqb_eq]%andb_prop & _).
      assert (uniq (<[i := default_entry]> (entries d))) as Hu' by (by apply uniq_insert).
      split; [done|]. split; [by exists i, e|]. destruct (live o e) eqn:Hle.
      * rewrite (services_drop o _ i e default_entry), Hne by done. done.
      * assert (services o (entries d) !! name = None) as Hnone.
        { apply eq_None_not_Some. intros [e' (j & Hj & Hlj & Hnj)%services_lookup]; [|done].
          assert (j = i) as -> by (eapply Hu; eauto using live_active; congruence). congruence. }
        rewrite delete_id by done. apply (cleaned_services o (entries d)); [|done].
        apply Forall2_same_length_lookup_2; [by rewrite length_insert|]. intros j x y Hj Hy.
        apply list_lookup_insert_Some in Hy as [(-> & <- & _)|[_ Hy]]; [right|left]; [|congruence].
        split; [congruence|done].
    + split; [done|]. split; [done|]. intros i e Hi Hae Hne Hpe.
      pose proof (proj1 (list_find_None _ _) Hd) as Hnone. rewrite Forall_forall in Hnone.
      apply (Hnone e); [by eapply list_elem_of_lookup_2|]. unfold named.
      by rewrite Hae, bool_decide_true, Hpe, Z.eqb_refl.
  - injection E as _ Ec Ees. rewrite Ees.
    assert (uniq ((fun _ => default_entry) <$> entries d)) as Hu'.
    { intros i j ei ej Hi. rewrite list_lookup_fmap in Hi. by destruct (entries d !! i); simplify_eq/=. }
    split; [done|]. split; [|done]. apply map_eq. intros nm. rewrite lookup_empty. apply eq_None_not_Some.
    intros [e (j & Hj & Hlj & _)%services_lookup]; [|done]. rewrite list_lookup_fmap in Hj.
    by destruct (entries d !! j); simplify_eq/=.
Qed.

End properties.

(** Only processes 7 and 9 run. *)
Definition registry_os : os := {|
  os_apple := false; os_getpid := 7; os_kill := fun p => if (p =? 7) || (p =? 9) then None else Some ESRCH;
  os_proc_stat := fun _ => None; os_bsdinfo := fun _ => None; os_p_stat := fun _ => None |}.

(** A service of process 9 and the leftover of a dead one. *)
Definition small_registry : RegistryData := mk_RegistryData 0 2
  [fill_entry [97] [98] [99] 9 0; fill_entry [120] [98] [99] 1000 0; default_entry].

Lemma small_settled : settled small_registry.
Proof.
  split; [reflexivity|]. intros i j ei ej Hi Hj.
  destruct i as [|[|[|i]]], j as [|[|[|j]]]; try done; vm_compute in Hi, Hj; simplify_eq; vm_compute; congruence.
Qed.

Lemma x_fits : fits [120].
Proof. split; [done|]. split; [simpl; lia|]. split; [by constructor|reflexivity]. Qed.

Lemma register_service_spec_witness :
  exists ok d', eval (register_service_as registry_os 1 [120] [] [] 7 5) small_registry = Some (ok, d') /\ ok = true /\ settled d'.
Proof.
  destruct (runs_eval _ _ _ (register_service_spec registry_os 1 [120] [] [] 7 5 small_registry 1
    small_settled x_fits ltac:(lia) ltac:(reflexivity) ltac:(lia))) as (ok & d' & E & Hs & _).
  exists ok, d'. split; [exact E|]. split; [|exact Hs]. vm_compute in E. congruence.
Defined.

Lemma registry_lookup_spec_witness :
  exists r d', eval (find registry_os 1 [97]) small_registry = Some (r, d') /\ is_Some r /\ settled d'.
Proof.
  destruct (registry_lookup_spec registry_os 1 [97] [] small_registry 1 small_settled ltac:(lia)) as (H & _).
  destruct (runs_eval _ _ _ H) as (r & d' & E & _ & Hs & _). exists r, d'. split; [exact E|]. split; [|exact Hs].
  vm_compute in E. injection E as <- _. eauto.
Defined.

Lemma unregister_service_spec_witness :
  exists d', eval (unregister_service_as 1 [97] 9) small_registry = Some (true, d') /\ settled d' /\
    view registry_os d' = delete [97] (view registry_os small_registry).
Proof.
  destruct (unregister_service_spec registry_os 1 [97] 9 small_registry 1 small_settled ltac:(lia)) as (H & _).
  destruct (runs_eval _ _ _ H) as (ok & d' & E & Hs & Hv). assert (ok = true) as -> by (vm_compute in E; congruence).
  exists d'. split; [exact E|]. split; [exact Hs|]. apply Hv.
Defined.

(** A name of 64 bytes or more is stored truncated, so the registration succeeds but
    the service cannot be found under its name, and the same live process can register it
    again and again: the check for duplicates does not see it. *)
Theorem long_name_registered_but_lost :
  let long := replicate 64 97 in
  (fun x => x.1) <$> eval (a ← register_service registry_os 1 long [98] [99] 5;
                           b ← find registry_os 1 long;
                           c ← register_service registry_os 1 long [98] [99] 5;
                           l ← list_services registry_os 1;
                           Ret (a, b, c, length l)) fresh_registry = Some (true, None, true, 2%nat).
Proof. vm_compute. reflexivity. Qed.
