(* ===== verification/ServiceGroup.v ===== *)
(** * Processes and redundant service groups

    [proto/process_manager.rs] and [proto/service_group.rs]: spawning, signalling
    and waiting for child processes, and the group of redundant instances with its
    primary and failover.

    What happens outside the group is part of the world: a table of processes, the
    registry, and a list of changes the environment makes between one observation
    and the next.  A terminated child stays in the process table as a zombie until
    its parent waits for it, and [kill(pid, 0)] succeeds on it. *)
From S2P Require Import Prelude Atomics Liveness ServiceRegistry.

(** ** The world *)

Inductive exit_status := Exited (code : Z) | Signaled (sig : Z).
Inductive pstate := Running | Zombie (st : exit_status).

Record sys := mk_sys { procs : gmap Z pstate; registry : RegistryData; signals : list (Z * Z) }.

Record gworld := mk_gworld {
  g_sys : sys;
  g_future : list (sys -> sys);     (** what the environment does before each observation *)
  g_spawns : list (option Z);       (** outcomes of [posix_spawn]: a pid, or failure *)
  g_clk : clock }.

Definition g_clk_f : field gworld clock :=
  mk_field g_clk (fun v w => mk_gworld (g_sys w) (g_future w) (g_spawns w) v).

(** The environment moves, then the access happens. *)
Definition moved (w : gworld) : sys := match g_future w with [] => g_sys w | f :: _ => f (g_sys w) end.

Definition observe {A} (f : sys -> A * sys) : prog gworld A :=
  act (fun w => let '(a, s) := f (moved w) in (a, mk_gworld s (tail (g_future w)) (g_spawns w) (g_clk w))).

Definition kill_exists (s : sys) (pid : Z) : bool := bool_decide (is_Some (procs s !! pid)).

(** The process table as the registry sees it. *)
Definition os_of (s : sys) : os := {|
  os_apple := false; os_getpid := 1; os_kill := fun pid => if kill_exists s pid then None else Some ESRCH;
  os_proc_stat := fun _ => None; os_bsdinfo := fun _ => None; os_p_stat := fun _ => None |}.

(** ** Processes *)

Record ProcessHandle := mk_ProcessHandle { ph_pid : Z; ph_name : list Z; ph_executable : list Z }.

Definition invalid : ProcessHandle := mk_ProcessHandle 0 [] [].

Definition ph_valid (h : ProcessHandle) : bool := 0 <? ph_pid h.

Definition ph_is_alive (h : ProcessHandle) : prog gworld bool :=
  if negb (ph_valid h) then Ret false else observe (fun s => (kill_exists s (ph_pid h), s)).

Record WaitResult := mk_WaitResult { exited : bool; exit_code : Z; signaled : bool; signal : Z }.
Definition no_result : WaitResult := mk_WaitResult false 0 false 0.

(** [CString::new] fails on an interior NUL. *)
Definition has_nul (s : list Z) : bool := existsb (Z.eqb 0) s.

Definition spawn (name executable : list Z) (args : list (list Z)) : prog gworld ProcessHandle :=
  if has_nul executable || existsb has_nul args then Ret (mk_ProcessHandle 0 name executable)
  else
    act (fun w =>
      let s := moved w in
      match head (g_spawns w) with
      | Some (Some pid) =>
          (mk_ProcessHandle pid name executable,
           mk_gworld (mk_sys (<[pid := Running]> (procs s)) (registry s) (signals s))
             (tail (g_future w)) (tail (g_spawns w)) (g_clk w))
      | _ => (mk_ProcessHandle 0 name executable, mk_gworld s (tail (g_future w)) (tail (g_spawns w)) (g_clk w))
      end).

Definition spawn_simple (name executable : list Z) : prog gworld ProcessHandle := spawn name executable [].

Definition SIGKILL : Z := 9.
Definition SIGTERM : Z := 15.

(** [kill(pid, sig)]: SIGKILL ends a running process; what SIGTERM does is up to the process. *)
Definition send_signal (pid sig : Z) : prog gworld bool :=
  observe (fun s =>
    (kill_exists s pid,
     mk_sys (match procs s !! pid with
             | Some Running => if sig =? SIGKILL then <[pid := Zombie (Signaled SIGKILL)]> (procs s) else procs s
             | _ => procs s
             end) (registry s) (signals s ++ [(pid, sig)]))).

Definition request_shutdown (h : ProcessHandle) : prog gworld bool :=
  if negb (ph_valid h) then Ret false else send_signal (ph_pid h) SIGTERM.

Definition force_kill (h : ProcessHandle) : prog gworld bool :=
  if negb (ph_valid h) then Ret false else send_signal (ph_pid h) SIGKILL.

(** [waitpid(pid, .., WNOHANG)]: reaps a zombie; [Err] for no such child, [Ok None] for still running. *)
Definition waitpid (pid : Z) : prog gworld (result (option exit_status) unit) :=
  observe (fun s =>
    match procs s !! pid with
    | Some (Zombie st) => (Ok (Some st), mk_sys (delete pid (procs s)) (registry s) (signals s))
    | Some Running => (Ok None, s)
    | None => (Err tt, s)
    end).

Fixpoint wait_loop (fuel : nat) (pid deadline : Z) : prog gworld WaitResult :=
  match fuel with
  | O => Spin
  | S fuel =>
      r ← waitpid pid;
      match r with
      | Ok (Some (Exited c)) => Ret (mk_WaitResult true c false 0)
      | Ok (Some (Signaled sg)) => Ret (mk_WaitResult false 0 true sg)
      | Err _ => Ret no_result
      | Ok None =>
          n ← now g_clk_f;
          if deadline <=? n then Ret no_result else wait_loop fuel pid deadline
      end
  end.

Definition wait_for_exit (fuel : nat) (h : ProcessHandle) (timeout : Z) : prog gworld WaitResult :=
  if negb (ph_valid h) then Ret no_result
  else n ← now g_clk_f; wait_loop fuel (ph_pid h) (n + timeout).

Definition SECOND : Z := 1000000000.

Definition shutdown (fuel : nat) (h : ProcessHandle) (grace : Z) : prog gworld WaitResult :=
  if negb (ph_valid h) then Ret no_result
  else
    _ ← request_shutdown h;
    r ← wait_for_exit fuel h grace;
    alive ← (if negb (exited r) && negb (signaled r) then ph_is_alive h else Ret false);
    if (alive : bool) then _ ← force_kill h; wait_for_exit fuel h SECOND else Ret r.

(** ** The group *)

Inductive InstanceRole := Primary | Standby | Dead.

#[export] Instance InstanceRole_eq_dec : EqDecision InstanceRole.
Proof. solve_decision. Defined.

Record ManagedInstance := mk_Instance {
  mi_id : Z; role : InstanceRole; proc : ProcessHandle; entry : ServiceEntry; instance_name : list Z }.

Definition set_role (r : InstanceRole) (i : ManagedInstance) : ManagedInstance :=
  mk_Instance (mi_id i) r (proc i) (entry i) (instance_name i).

Record ServiceGroup := mk_Group {
  executable : list Z; auto_respawn : bool; spawn_timeout : Z;
  instances : list ManagedInstance; primary_idx : option nat }.

Definition set_instances (l : list ManagedInstance) (g : ServiceGroup) : ServiceGroup :=
  mk_Group (executable g) (auto_respawn g) (spawn_timeout g) l (primary_idx g).
Definition set_primary_idx (p : option nat) (g : ServiceGroup) : ServiceGroup :=
  mk_Group (executable g) (auto_respawn g) (spawn_timeout g) (instances g) p.

(** [format!("{service_name}.{i}")]. *)
Definition instance_name_of (service_name : list Z) (i : nat) : list Z :=
  service_name ++ [46] ++ bytes_of_string (pretty (Z.of_nat i)).

Definition group_new (service_name executable : list Z) (replicas : nat) (auto_respawn : bool) (spawn_timeout : Z)
    : ServiceGroup :=
  mk_Group executable auto_respawn spawn_timeout
    ((fun i => mk_Instance (Z.of_nat i) Dead invalid default_entry (instance_name_of service_name i)) <$> seq 0 replicas)
    None.

Definition is_alive (i : ManagedInstance) : prog gworld bool := ph_is_alive (proc i).

(** The registry calls: each holds the registry's lock for the whole of its work. *)
Definition registry_gc : prog gworld unit :=
  observe (fun s => (tt, mk_sys (procs s)
    (mk_RegistryData (spinlock (registry s)) (count (registry s)) (swept (os_of s) <$> entries (registry s))) (signals s))).

Definition registry_find (name : list Z) : prog gworld (option ServiceEntry) :=
  observe (fun s =>
    let '(r, es) := find_loop (os_of s) name (entries (registry s)) in
    (r, mk_sys (procs s) (mk_RegistryData (spinlock (registry s)) (count (registry s)) es) (signals s))).

Fixpoint await_registration (fuel : nat) (i : nat) (h : ProcessHandle) (deadline : Z) (inst : ManagedInstance)
    (g : ServiceGroup) : prog gworld (bool * ServiceGroup) :=
  match fuel with
  | O => Spin
  | S fuel =>
      e ← registry_find (instance_name inst);
      match e with
      | Some e =>
          let inst := mk_Instance (mi_id inst) Standby h e (instance_name inst) in
          Ret (true, set_instances (<[i := inst]> (instances g)) g)
      | None =>
          gone ← (a ← is_alive inst; if (a : bool) then Ret false else b ← ph_is_alive h; Ret (negb b));
          if (gone : bool) then Ret (false, g)
          else
            n ← now g_clk_f;
            if deadline <=? n then Ret (false, g) else await_registration fuel i h deadline inst g
      end
  end.

Definition spawn_instance (fuel : nat) (i : nat) (g : ServiceGroup) : prog gworld (bool * ServiceGroup) :=
  match instances g !! i with
  | None => Ret (false, g)
  | Some inst =>
      _ ← registry_gc;
      h ← spawn (instance_name inst) (executable g) [bytes_of_string (pretty (Z.of_nat i))];
      if negb (ph_valid h) then Ret (false, g)
      else
        n ← now g_clk_f;
        await_registration fuel i h (n + spawn_timeout g) inst g
  end.

(** The inner loop of [elect_primary], over the instances from index [j] on. *)
Fixpoint demote_others (i j : nat) (l : list ManagedInstance) : prog gworld (list ManagedInstance) :=
  match l with
  | [] => Ret []
  | x :: l =>
      x ← (if bool_decide (j = i) then Ret x
           else a ← is_alive x; Ret (if (a : bool) then set_role Standby x else x));
      rest ← demote_others i (S j) l;
      Ret (x :: rest)
  end.

Fixpoint elect_loop (todo : list ManagedInstance) (i : nat) (g : ServiceGroup) : prog gworld (bool * ServiceGroup) :=
  match todo with
  | [] => Ret (false, g)
  | x :: todo =>
      a ← is_alive x;
      if (a : bool) then
        l ← demote_others i 0 (<[i := set_role Primary x]> (instances g));
        Ret (true, set_primary_idx (Some i) (set_instances l g))
      else elect_loop todo (S i) g
  end.

Definition elect_primary (g : ServiceGroup) : prog gworld (bool * ServiceGroup) :=
  elect_loop (instances g) 0 (set_primary_idx None g).

Fixpoint respawn_loop (fuel : nat) (idxs : list nat) (g : ServiceGroup) : prog gworld ServiceGroup :=
  match idxs with
  | [] => Ret g
  | i :: idxs =>
      g ← (match instances g !! i with
           | Some x => if bool_decide (role x = Dead) then r ← spawn_instance fuel i g; Ret (snd r) else Ret g
           | None => Ret g
           end);
      respawn_loop fuel idxs g
  end.

Definition respawn_dead (fuel : nat) (g : ServiceGroup) : prog gworld ServiceGroup :=
  respawn_loop fuel (seq 0 (length (instances g))) g.

Fixpoint start_loop (fuel : nat) (idxs : list nat) (g : ServiceGroup) : prog gworld ServiceGroup :=
  match idxs with
  | [] => Ret g
  | i :: idxs => r ← spawn_instance fuel i g; start_loop fuel idxs (snd r)
  end.

Definition start (fuel : nat) (g : ServiceGroup) : prog gworld (bool * ServiceGroup) :=
  g ← start_loop fuel (seq 0 (length (instances g))) g; elect_primary g.

(** The first loop of [health_check]: whether the primary has gone, and the updated roles. *)
Fixpoint check_loop (l : list ManagedInstance) : prog gworld (bool * list ManagedInstance) :=
  match l with
  | [] => Ret (false, [])
  | x :: l =>
      fx ← (if bool_decide (role x = Dead) then Ret (false, x)
            else
              a ← is_alive x;
              if (a : bool) then Ret (false, x) else Ret (bool_decide (role x = Primary), set_role Dead x));
      fl ← check_loop l;
      Ret (fst fx || fst fl, snd fx :: snd fl)
  end.

Definition health_check (fuel : nat) (g : ServiceGroup) : prog gworld (bool * ServiceGroup) :=
  fl ← check_loop (instances g);
  let g := set_instances (snd fl) g in
  if (fst fl : bool) then
    r ← elect_primary g;
    g ← (if auto_respawn g then respawn_dead fuel (snd r) else Ret (snd r));
    Ret (true, g)
  else
    g ← (if auto_respawn g then respawn_dead fuel g else Ret g);
    Ret (false, g).

Definition primary (g : ServiceGroup) : option ManagedInstance :=
  match primary_idx g with
  | None => None
  | Some idx =>
      match instances g !! idx with
      | Some inst => if bool_decide (role inst = Primary) then Some inst else None
      | None => None
      end
  end.

Fixpoint stop_loop (fuel : nat) (grace : Z) (l : list ManagedInstance) : prog gworld (list ManagedInstance) :=
  match l with
  | [] => Ret []
  | x :: l =>
      a ← is_alive x;
      _ ← (if (a : bool) then shutdown fuel (proc x) grace else Ret no_result);
      rest ← stop_loop fuel grace l;
      Ret (set_role Dead x :: rest)
  end.

Definition stop (fuel : nat) (grace : Z) (g : ServiceGroup) : prog gworld ServiceGroup :=
  l ← stop_loop fuel grace (instances g); Ret (set_primary_idx None (set_instances l g)).

Fixpoint alive_count (l : list ManagedInstance) : prog gworld Z :=
  match l with
  | [] => Ret 0
  | x :: l => a ← is_alive x; n ← alive_count l; Ret (if (a : bool) then n + 1 else n)
  end.

Definition force_failover (fuel : nat) (g : ServiceGroup) : prog gworld (bool * ServiceGroup) :=
  g ← (match primary_idx g with
       | None => Ret g
       | Some idx =>
           match instances g !! idx with
           | None => Ret g
           | Some inst =>
               a ← is_alive inst;
               _ ← (if (a : bool) then _ ← force_kill (proc inst); wait_for_exit fuel (proc inst) (2 * SECOND)
                    else Ret no_result);
               Ret (set_instances (<[idx := set_role Dead inst]> (instances g)) g)
           end
       end);
  r ← elect_primary g;
  g ← (if auto_respawn (snd r) then respawn_dead fuel (snd r) else Ret (snd r));
  Ret (fst r, g).

(** ** At most one primary *)

(** An instance with the role of primary is the one the group points to. *)
Definition one_primary (g : ServiceGroup) : Prop :=
  forall i x, instances g !! i = Some x -> role x = Primary -> primary_idx g = Some i.

Definition no_primary (g : ServiceGroup) : Prop :=
  forall i x, instances g !! i = Some x -> role x <> Primary.

(** Nothing happened to the primary, and no other instance became one. *)
Definition steady (g g' : ServiceGroup) : Prop :=
  primary_idx g' = primary_idx g /\ auto_respawn g' = auto_respawn g /\
  length (instances g') = length (instances g) /\
  forall k x, role x = Primary -> instances g' !! k = Some x <-> instances g !! k = Some x.

Lemma steady_refl g : steady g g.
Proof. done. Qed.

Lemma steady_trans g1 g2 g3 : steady g1 g2 -> steady g2 g3 -> steady g1 g3.
Proof.
  intros (E1 & E2 & E3 & H1) (F1 & F2 & F3 & H2). split; [congruence|]. split; [congruence|]. split; [congruence|].
  intros k x Hx. by rewrite H2, H1.
Qed.

Lemma steady_one g g' : steady g g' -> one_primary g -> one_primary g'.
Proof. intros (E & _ & _ & H) Hg i x Hi Hx. rewrite E. apply (Hg i x); [by apply H|done]. Qed.

Lemma steady_no g g' : steady g g' -> no_primary g -> no_primary g'.
Proof. intros (_ & _ & _ & H) Hg i x Hi Hx. by apply (Hg i x); [apply H|]. Qed.

Lemma steady_primary g g' : steady g g' -> is_Some (primary g) -> is_Some (primary g').
Proof.
  intros (E & _ & _ & H) [x Hx]. unfold primary in *. rewrite E. destruct (primary_idx g) as [i|]; [|done].
  destruct (instances g !! i) as [y|] eqn:Ey; [|done]. case_bool_decide as Hy; [|done].
  rewrite (proj2 (H i y Hy) Ey). rewrite bool_decide_true by done. eauto.
Qed.

Lemma spawn_instance_steady fuel i g :
  (forall x, instances g !! i = Some x -> role x <> Primary) ->
  always (spawn_instance fuel i g) (fun r => steady g (snd r)).
Proof.
  intros Hi. unfold spawn_instance. destruct (instances g !! i) as [inst|] eqn:Ei; [|apply steady_refl].
  apply always_bind. eapply always_conseq; [apply always_true|]. intros _ _.
  apply always_bind. eapply always_conseq; [apply always_true|]. intros h _.
  destruct (negb _); [apply steady_refl|].
  apply always_bind. eapply always_conseq; [apply always_true|]. intros n _.
  generalize (n + spawn_timeout g). intros dl. clear n.
  induction fuel as [|fuel IH]; cbn [await_registration]; [exact I|].
  apply always_bind. eapply always_conseq; [apply always_true|]. intros [e|] _.
  - split; [done|]. split; [done|]. split; [by cbn; rewrite length_insert|]. intros k x Hx. cbn [instances set_instances snd].
    destruct (decide (k = i)) as [->|Hne].
    + rewrite list_lookup_insert_eq by (by eapply lookup_lt_Some). split; intros E; exfalso.
      * injection E as <-. done.
      * by apply (Hi x); [congruence|].
    + by rewrite list_lookup_insert_ne by done.
  - apply always_bind. eapply always_conseq; [apply always_true|]. intros gone _.
    destruct gone; [apply steady_refl|]. apply always_bind. eapply always_conseq; [apply always_true|]. intros n _.
    destruct (_ <=? _); [apply steady_refl|apply IH].
Qed.

Lemma respawn_dead_steady fuel g : always (respawn_dead fuel g) (steady g).
Proof.
  unfold respawn_dead. generalize (seq 0 (length (instances g))). intros idxs.
  enough (forall g0, steady g0 g -> always (respawn_loop fuel idxs g) (steady g0)) as H by (apply H, steady_refl).
  revert g. induction idxs as [|i idxs IH]; intros g g0 H0; cbn [respawn_loop]; [done|].
  apply always_bind. apply (always_conseq _ (steady g0)); [|intros g' Hg'; by apply IH].
  destruct (instances g !! i) as [x|] eqn:Ei; [|done]. case_bool_decide as Hx; [|done].
  apply always_bind. eapply always_conseq; [apply (spawn_instance_steady fuel i g); intros y Hy; congruence|].
  intros r Hr. by eapply steady_trans.
Qed.

Lemma start_loop_steady fuel idxs g : no_primary g -> always (start_loop fuel idxs g) (steady g).
Proof.
  intros Hn. enough (forall g0, no_primary g -> steady g0 g -> always (start_loop fuel idxs g) (steady g0)) as H
    by (apply H; [done|apply steady_refl]).
  clear Hn. revert g. induction idxs as [|i idxs IH]; intros g g0 Hn H0; cbn [start_loop]; [done|].
  apply always_bind. eapply always_conseq; [apply (spawn_instance_steady fuel i g); intros x Hx; by apply (Hn i)|].
  intros r Hr. apply IH; [exact (steady_no _ _ Hr Hn)|exact (steady_trans _ _ _ H0 Hr)].
Qed.

(** Demoting keeps the elected instance and makes no primary. *)
Lemma demote_others_spec i j l :
  always (demote_others i j l) (fun l' => length l' = length l /\
    forall k x', l' !! k = Some x' ->
      ((j + k)%nat = i -> l !! k = Some x') /\ (role x' = Primary -> l !! k = Some x')).
Proof.
  revert j. induction l as [|x l IH]; intros j; cbn [demote_others]; [by split|].
  apply always_bind. apply (always_conseq _ (fun y => (j = i -> y = x) /\ (role y = Primary -> y = x))).
  { case_bool_decide as E; [done|]. apply always_bind. eapply always_conseq; [apply always_true|]. intros [] _; cbn; done. }
  intros y Hy. apply always_bind. eapply always_conseq; [apply IH|]. intros l' [Hl H]. cbn. split; [by rewrite Hl|].
  intros [|k] x' Hx'; simplify_eq/=.
  - rewrite Nat.add_0_r. destruct Hy as [Hy1 Hy2]. split; intros E; f_equal; symmetry; [by apply Hy1|by apply Hy2].
  - destruct (H k x' Hx') as [H1 H2]. split; [|done]. intros E. apply H1. lia.
Qed.

Definition elected (ok : bool) (g' : ServiceGroup) : Prop :=
  one_primary g' /\ if ok then is_Some (primary g') else primary_idx g' = None.

Lemma elect_primary_spec g : no_primary g ->
  always (elect_primary g) (fun r => elected (fst r) (snd r) /\ auto_respawn (snd r) = auto_respawn g).
Proof.
  intros Hn. unfold elect_primary. set (g0 := set_primary_idx None g).
  assert (forall i todo, (forall k x, todo !! k = Some x -> instances g0 !! (i + k)%nat = Some x) ->
    always (elect_loop todo i g0) (fun r => elected (fst r) (snd r) /\ auto_respawn (snd r) = auto_respawn g)) as H.
  2:{ apply H. intros k x Hk. exact Hk. }
  intros i todo. revert i. induction todo as [|x todo IH]; intros i Hin; cbn [elect_loop].
  { split; [|done]. split; [|done]. intros k y Hk Hy. exfalso. by apply (Hn k y). }
  apply always_bind. eapply always_conseq; [apply always_true|]. intros a _. destruct a.
  2:{ apply IH. intros k y Hk. specialize (Hin (S k) y Hk). by rewrite Nat.add_succ_r in Hin. }
  pose proof (Hin 0%nat x eq_refl) as Hi. rewrite Nat.add_0_r in Hi. pose proof (lookup_lt_Some _ _ _ Hi) as Hlt.
  apply always_bind. eapply always_conseq; [apply demote_others_spec|]. intros l [Hl H]. cbn. split; [|done].
  rewrite length_insert in Hl. split.
  - intros k y Hk Hy. cbn in *. destruct (H k y Hk) as [_ H2]. specialize (H2 Hy).
    apply list_lookup_insert_Some in H2 as [(-> & _)|[_ H2]]; [done|]. exfalso. by apply (Hn k y).
  - unfold primary. cbn. destruct (l !! i) as [y|] eqn:Ey.
    + destruct (H i y Ey) as [H1 _]. specialize (H1 eq_refl). rewrite list_lookup_insert_eq in H1 by done.
      injection H1 as <-. rewrite bool_decide_true by done. eauto.
    + apply lookup_ge_None in Ey. lia.
Qed.

Lemma check_loop_spec l :
  always (check_loop l) (fun r => length (snd r) = length l /\
    (forall k x', snd r !! k = Some x' -> role x' = Primary -> l !! k = Some x') /\
    (fst r = true -> exists k x, l !! k = Some x /\ role x = Primary /\ snd r !! k = Some (set_role Dead x))).
Proof.
  induction l as [|x l IH]; cbn [check_loop]; [by split|].
  apply always_bind. apply (always_conseq _ (fun fx => (role (snd fx) = Primary -> snd fx = x) /\
    (fst fx = true -> role x = Primary /\ snd fx = set_role Dead x))).
  { case_bool_decide as E; [by cbn|]. apply always_bind. eapply always_conseq; [apply always_true|].
    intros [] _; cbn; [done|]. split; [done|]. by intros H%bool_decide_eq_true. }
  intros [f y] [Hy1 Hy2]. apply always_bind. eapply always_conseq; [apply IH|]. intros [f' l'] (Hl & H1 & H2). cbn in *.
  split; [by rewrite Hl|]. split.
  - intros [|k] x' Hx' Hr; simplify_eq/=; [by rewrite Hy1|by apply H1].
  - intros [-> | ->]%orb_prop; [exists 0%nat, x; destruct (Hy2 eq_refl) as [? ->]; done|].
    destruct (H2 eq_refl) as (k & z & Hk). by exists (S k), z.
Qed.

Lemma stop_loop_spec fuel grace l : always (stop_loop fuel grace l) (Forall (fun x => role x = Dead)).
Proof.
  induction l as [|x l IH]; cbn [stop_loop]; [constructor|].
  apply always_bind. eapply always_conseq; [apply always_true|]. intros a _.
  apply always_bind. eapply always_conseq; [apply always_true|]. intros w _.
  apply always_bind. eapply always_conseq; [apply IH|]. intros l' Hl'. by constructor.
Qed.

(** An election, then the respawning, then whatever follows. *)
Lemma elect_then {A} fuel g (b : bool * ServiceGroup -> bool) (K : bool * ServiceGroup -> ServiceGroup -> prog gworld A) Q :
  no_primary g ->
  (forall r g', one_primary g' -> (fst r = true -> is_Some (primary g')) -> always (K r g') Q) ->
  always (r ← elect_primary g; g' ← (if b r then respawn_dead fuel (snd r) else Ret (snd r)); K r g') Q.
Proof.
  intros Hn HK. apply always_bind. eapply always_conseq; [by apply elect_primary_spec|]. intros [ok g1] [[H1 H2] _].
  cbn [fst snd] in *. apply always_bind. apply (always_conseq _ (steady g1)).
  { destruct (b _); [apply respawn_dead_steady|apply steady_refl]. }
  intros g2 Hs. apply HK; [by eapply steady_one|]. cbn. intros ->. by eapply steady_primary.
Qed.

(** Starting from a group in which only the instance it points to may have the role of
    primary, every health check, forced failover and stop leaves such a group, and so does a
    start of a group without a primary. *)
Lemma group_steps fuel grace g :
  one_primary g ->
  always (health_check fuel g) (fun r => one_primary (snd r) /\ (no_primary g -> no_primary (snd r))) /\
  always (force_failover fuel g) (fun r => one_primary (snd r) /\ (fst r = true -> is_Some (primary (snd r)))) /\
  always (stop fuel grace g) (fun g' => one_primary g' /\ no_primary g' /\ primary g' = None) /\
  (no_primary g -> always (start fuel g) (fun r => one_primary (snd r) /\ (fst r = true -> is_Some (primary (snd r))))).
Proof.
  intros Hg. split; [|split; [|split]].
  - unfold health_check. apply always_bind. eapply always_conseq; [apply check_loop_spec|]. intros [f l] (Hl & H1 & H2).
    cbn [fst snd] in *. set (g1 := set_instances l g).
    assert (one_primary g1) as Hg1 by (intros k x Hk Hx; apply (Hg k x); [by apply H1|done]).
    destruct f.
    + assert (no_primary g1) as Hn.
      { intros k x Hk Hx. destruct (H2 eq_refl) as (j & y & Hj & Hy & Hj'). pose proof (Hg j y Hj Hy) as E1.
        pose proof (Hg k x (H1 k x Hk Hx) Hx) as E2. assert (j = k) as -> by congruence. cbn in Hk. rewrite Hj' in Hk. injection Hk as <-. done. }
      apply (elect_then fuel g1 (fun _ => auto_respawn g1)); [done|]. intros r g' Hr _. split; [done|]. intros Hno. exfalso.
      destruct (H2 eq_refl) as (j & y & Hj & Hy & _). by apply (Hno j y).
    + apply always_bind. apply (always_conseq _ (steady g1)).
      { destruct (auto_respawn g1); [apply respawn_dead_steady|apply steady_refl]. }
      intros g3 Hs. cbn. split; [by eapply steady_one|]. intros Hno. eapply steady_no; [done|].
      intros k x Hk Hx. by apply (Hno k x); [apply H1|].
  - unfold force_failover. apply always_bind. apply (always_conseq _ no_primary).
    { destruct (primary_idx g) as [idx|] eqn:Ep.
      - destruct (instances g !! idx) as [inst|] eqn:Ei.
        + apply always_bind. eapply always_conseq; [apply always_true|]. intros a _.
          apply always_bind. eapply always_conseq; [apply always_true|]. intros wr _. cbn.
          intros k x Hk Hx. cbn in Hk. apply list_lookup_insert_Some in Hk as [(-> & <- & _)|[Hne Hk]]; [done|].
          pose proof (Hg k x Hk Hx). congruence.
        + intros k x Hk Hx. pose proof (Hg k x Hk Hx). congruence.
      - intros k x Hk Hx. pose proof (Hg k x Hk Hx). congruence. }
    intros g1 Hn. by apply (elect_then fuel g1 (fun r => auto_respawn (snd r))).
  - unfold stop. apply always_bind. eapply always_conseq; [apply stop_loop_spec|]. intros l Hl. cbn.
    assert (no_primary (set_primary_idx None (set_instances l g))) as Hn.
    { intros k x Hk Hx. cbn in Hk. pose proof (Forall_lookup_1 _ _ _ _ Hl Hk) as E. cbn in E. congruence. }
    split; [|done]. intros k x Hk Hx. by destruct (Hn k x).
  - intros Hn. unfold start. apply always_bind. eapply always_conseq; [by apply start_loop_steady|].
    intros g1 Hs. eapply always_conseq; [apply elect_primary_spec; by eapply steady_no|].
    intros [ok g2] [[H1 H2] _]. cbn in *. split; [done|]. by intros ->.
Qed.

(** *** The life of a group *)

(** What the owner of a group asks of it, and what it is told. *)
Inductive request := Start | HealthCheck | Failover | Stop (grace : Z).

Definition serve_one (fuel : nat) (q : request) (g : ServiceGroup) : prog gworld (bool * ServiceGroup) :=
  match q with
  | Start => start fuel g
  | HealthCheck => health_check fuel g
  | Failover => force_failover fuel g
  | Stop grace => g ← stop fuel grace g; Ret (true, g)
  end.

(** A run of requests: after each, the request, its result and the group. *)
Fixpoint serve (fuel : nat) (qs : list request) (g : ServiceGroup) : prog gworld (list (request * bool * ServiceGroup)) :=
  match qs with
  | [] => Ret []
  | q :: qs => r ← serve_one fuel q g; h ← serve fuel qs (snd r); Ret ((q, fst r, snd r) :: h)
  end.

(** Requests in order: a group is started only when it is new or was stopped, with no start
    or failover since. *)
Fixpoint orderly (running : bool) (qs : list request) : bool :=
  match qs with
  | [] => true
  | Start :: qs => negb running && orderly true qs
  | HealthCheck :: qs => orderly running qs
  | Failover :: qs => orderly true qs
  | Stop _ :: qs => orderly false qs
  end.

(** What holds after a request. *)
Definition answered (a : request * bool * ServiceGroup) : Prop :=
  let '(q, ok, g) := a in
  one_primary g /\
  match q with
  | Start | Failover => ok = true -> is_Some (primary g)
  | HealthCheck => True
  | Stop _ => primary g = None
  end.

Definition in_order (running : bool) (g : ServiceGroup) : Prop :=
  one_primary g /\ (running = false -> no_primary g).

Definition running_after (q : request) (running : bool) : bool :=
  match q with Start | Failover => true | HealthCheck => running | Stop _ => false end.

Lemma orderly_cons running q qs :
  orderly running (q :: qs) = (match q with Start => negb running | _ => true end && orderly (running_after q running) qs)%bool.
Proof. by destruct q. Qed.

Lemma serve_one_spec fuel q running g :
  in_order running g -> (q = Start -> running = false) ->
  always (serve_one fuel q g) (fun r => in_order (running_after q running) (snd r) /\ answered (q, fst r, snd r)).
Proof.
  intros [Hg Hn] Hq.
  destruct (group_steps fuel (match q with Stop grace => grace | _ => 0 end) g Hg) as (Hc & Hf & Hs & Ht).
  destruct q as [| | |grace]; cbn [serve_one].
  - eapply always_conseq; [by apply Ht, Hn, Hq|]. intros r [H1 H2]. by repeat split.
  - eapply always_conseq; [exact Hc|]. intros r [H1 H2]. split; [|done]. split; [done|]. intros E. by apply H2, Hn.
  - eapply always_conseq; [exact Hf|]. intros r [H1 H2]. by repeat split.
  - apply always_bind. eapply always_conseq; [exact Hs|]. intros g' (H1 & H2 & H3). by repeat split.
Qed.

Lemma group_new_no_primary name exe n auto timeout : no_primary (group_new name exe n auto timeout).
Proof. intros i x Hx. apply list_lookup_fmap_Some in Hx as (k & -> & _). done. Qed.

(** C32: however processes come and go between its observations, a group never has two
    primaries as long as it is started only when it is new or stopped (a second start of a
    running group can leave two, [restart_can_leave_two_primaries]).  From a new group, after
    each request of such a run (starts, health checks, forced failovers and stops in any
    number and otherwise any order) no instance but the one the group points to has the role
    of primary; when the request was a start or a failover that reports success there is a
    primary, and when it was a stop there is none. *)
Theorem group_has_one_primary fuel name exe n auto timeout qs :
  orderly false qs = true ->
  always (serve fuel qs (group_new name exe n auto timeout)) (Forall answered).
Proof.
  assert (in_order false (group_new name exe n auto timeout)) as Hg.
  { pose proof (group_new_no_primary name exe n auto timeout) as Hn. split; [|done]. intros i x Hi Hx. by destruct (Hn i x). }
  revert Hg. generalize false. generalize (group_new name exe n auto timeout).
  induction qs as [|q qs IH]; intros g running Hg Hq; cbn [serve]; [constructor|].
  rewrite orderly_cons, andb_true_iff in Hq. destruct Hq as [Hq Hqs].
  apply always_bind. eapply always_conseq.
  { apply (serve_one_spec fuel q running g Hg). intros ->. by destruct running. }
  intros r [Hr Ha]. apply always_bind. eapply always_conseq; [by apply (IH _ _ Hr)|]. intros h Hh. by constructor.
Qed.

(** A group of two whose instances run as processes 10 and 11, the first the primary. *)
Definition duo (auto : bool) : ServiceGroup := mk_Group [97] auto 0
  [mk_Instance 0 Primary (mk_ProcessHandle 10 [] []) default_entry [115; 46; 48];
   mk_Instance 1 Standby (mk_ProcessHandle 11 [] []) default_entry [115; 46; 49]] (Some 0%nat).

Definition duo_world (p : gmap Z pstate) : gworld :=
  mk_gworld (mk_sys p fresh_registry []) [] [] (mk_clock 0 []).

(** A group of two that respawns its dead, started, forced to fail over, checked, stopped and
    started again; both instances find themselves in the registry, and the processes started
    are 10 to 14. *)
Definition two_lives : list request := [Start; Failover; HealthCheck; Stop 0; Start].

Definition pair_group : ServiceGroup := group_new [115] [97] 2 true 0.

Definition pair_world : gworld :=
  mk_gworld (mk_sys {[1 := Running]}
      (mk_RegistryData 0 2 [fill_entry [115; 46; 48] [] [] 1 0; fill_entry [115; 46; 49] [] [] 1 0]) [])
    [] [Some 10; Some 11; Some 12; Some 13; Some 14] (mk_clock 0 []).

Lemma group_has_one_primary_witness :
  exists h w', eval (serve 2 two_lives pair_group) pair_world = Some (h, w') /\
    (fun '(_, ok, g) => (ok, primary_idx g, role <$> instances g)) <$> h =
      [(true, Some 0%nat, [Primary; Standby]); (true, Some 1%nat, [Standby; Primary]);
       (false, Some 1%nat, [Standby; Primary]); (true, None, [Dead; Dead]); (true, Some 0%nat, [Primary; Standby])] /\
    Forall answered h.
Proof.
  pose proof (group_has_one_primary 2 [115] [97] 2 true 0 two_lives eq_refl) as H.
  destruct (eval (serve 2 two_lives pair_group) pair_world) as [[h w']|] eqn:E; [|vm_compute in E; congruence].
  exists h, w'. split; [reflexivity|]. split.
  - vm_compute in E. injection E as <- _. reflexivity.
  - unfold eval in E. destruct (exec _ _ _) as [[[r' w''] tape]|] eqn:Ex; [|done]. simpl in E. injection E as -> ->.
    exact (exec_always _ _ _ _ _ _ _ H Ex).
Defined.

(** A group does not notice that its primary has crashed.  A child that has terminated and
    has not been waited for is still in the process table, and the liveness test of a process
    handle accepts it: with the primary a zombie and the standby running, the health check
    reports no failover and the dead instance stays primary. *)
Theorem crashed_primary_goes_unnoticed fuel st :
  eval (health_check fuel (duo false)) (duo_world {[10 := Zombie st; 11 := Running]}) =
  Some ((false, duo false), duo_world {[10 := Zombie st; 11 := Running]}).
Proof. reflexivity. Qed.

(** Starting a running group again can leave two instances with the role of primary: one
    whose process is gone and cannot be respawned keeps the role, while the election gives it
    to another. *)
Theorem restart_can_leave_two_primaries :
  (fun x => role <$> instances (snd (fst x))) <$> eval (start 1 (duo false)) (duo_world {[11 := Running]}) =
  Some [Primary; Primary].
Proof. vm_compute. reflexivity. Qed.
