(* ===== verification/AbiTool.v ===== *)
(** * The ABI tool

    [tools/abi]: the generators that turn the interface description [abi/abi.json] into the constants of
    each port, and the gates that check it.  A panic is [None].  Files, the schema validator and the C++
    compiler are arguments. *)
From Stdlib Require Import Ascii.
From S2P Require Import Prelude ShmName.

(** ** Text *)

(** A double quote and a line feed, which literals can not hold. *)
Definition dq : string := String (Ascii.ascii_of_nat 34) "".
Definition nl : string := String (Ascii.ascii_of_nat 10) "".

(** [format!]. *)
Definition fmt (pieces : list string) : string := String.concat "" pieces.
Definition quoted (s : string) : string := dq +:+ s +:+ dq.

Fixpoint strip_prefix (p s : string) : option string :=
  match p, s with
  | EmptyString, _ => Some s
  | String a p, String b s => if Ascii.eqb a b then strip_prefix p s else None
  | String _ _, EmptyString => None
  end.

(** [str::replace], for a pattern that is not empty. *)
Fixpoint replace_loop (fuel : nat) (pat rep s : string) : string :=
  match fuel with
  | O => s
  | S fuel =>
      match strip_prefix pat s with
      | Some rest => rep +:+ replace_loop fuel pat rep rest
      | None => match s with EmptyString => "" | String c s => String c (replace_loop fuel pat rep s) end
      end
  end.

Definition replace (pat rep s : string) : string := replace_loop (String.length s) pat rep s.

(** [str::trim]: the UTF-8 forms of the characters with the property White_Space. *)
Definition of_bytes (l : list nat) : string := String.string_of_list_ascii (Ascii.ascii_of_nat <$> l).
Definition WHITE : list string :=
  of_bytes <$> ([[9]; [10]; [11]; [12]; [13]; [32]; [0xc2; 0x85]; [0xc2; 0xa0]; [0xe1; 0x9a; 0x80]] ++
    ((fun b => [0xe2; 0x80; b]) <$> (seq 0x80 11 ++ [0xa8; 0xa9; 0xaf])) ++ [[0xe2; 0x81; 0x9f]; [0xe3; 0x80; 0x80]])%nat.

Fixpoint trim_with (fuel : nat) (white : list string) (s : string) : string :=
  match fuel with
  | O => s
  | S fuel => match list_find (fun w => is_Some (strip_prefix w s)) white with
              | Some (_, w) => match strip_prefix w s with Some rest => trim_with fuel white rest | None => s end
              | None => s
              end
  end.

Definition trim (s : string) : string :=
  let s := trim_with (String.length s) WHITE s in
  String.rev (trim_with (String.length s) (String.rev <$> WHITE) (String.rev s)).

Definition digit_value (radix : Z) (c : ascii) : option Z :=
  let n := Z.of_N (Ascii.N_of_ascii c) in
  let d := if (48 <=? n) && (n <=? 57) then n - 48 else if (97 <=? n) && (n <=? 122) then n - 87 else if (65 <=? n) && (n <=? 90) then n - 55 else radix in
  if d <? radix then Some d else None.

Fixpoint digits_value (radix acc : Z) (s : string) : option Z :=
  match s with
  | EmptyString => Some acc
  | String c s =>
      d ← digit_value radix c;
      let acc := acc * radix + d in
      if acc <? 2 ^ 64 then digits_value radix acc s else None
  end.

(** [u64::from_str_radix], and [parse], which is the one with radix 10. *)
Definition u64_from_str_radix (s : string) (radix : Z) : option Z :=
  let s := default s (strip_prefix "+" s) in
  if bool_decide (s = "") then None else digits_value radix 0 s.

(** [{:?}] of a string; characters beyond ASCII are printed as they are. *)
Fixpoint hex_digits (fuel : nat) (n : Z) (acc : string) : string :=
  match fuel with
  | O => acc
  | S fuel => let acc := String (digit (n mod 16)) acc in if n <? 16 then acc else hex_digits fuel (n / 16) acc
  end.

Definition debug_char (c : ascii) : string :=
  let n := Z.of_N (Ascii.N_of_ascii c) in
  let bs := String (Ascii.ascii_of_nat 92) "" in
  if n =? 34 then bs +:+ dq else if n =? 92 then bs +:+ bs
  else if n =? 0 then bs +:+ "0" else if n =? 9 then bs +:+ "t" else if n =? 10 then bs +:+ "n" else if n =? 13 then bs +:+ "r"
  else if (n <? 32) || (n =? 127) then bs +:+ "u{" +:+ hex_digits 2 n "" +:+ "}"
  else String c "".

Definition debug_str (s : string) : string := quoted (fmt (debug_char <$> String.list_ascii_of_string s)).

(** ** JSON *)

Inductive number := PosInt (n : Z) | NegInt (n : Z) | Float (text : string).

(** An object is its entries in the order of their keys. *)
Inductive Value :=
| Null
| Boolean (b : bool)
| Number (n : number)
| Text (s : string)
| Arr (l : list Value)
| Obj (m : list (string * Value)).

(** The entry of a key. *)
Fixpoint entry_of {A} (k : string) (m : list (string * A)) : option A :=
  match m with
  | [] => None
  | (k', v) :: m => if bool_decide (k' = k) then Some v else entry_of k m
  end.

(** [v.get(k)]; [v[k]] reads as null what is not there. *)
Definition get (v : Value) (k : string) : option Value := match v with Obj m => entry_of k m | _ => None end.
Definition at_ (v : Value) (k : string) : Value := default Null (get v k).

Definition as_str (v : Value) : option string := match v with Text s => Some s | _ => None end.
Definition as_array (v : Value) : option (list Value) := match v with Arr l => Some l | _ => None end.
Definition keys (v : Value) : option (list string) := match v with Obj m => Some m.*1 | _ => None end.
Definition number_as_u64 (n : number) : option Z := match n with PosInt n => Some n | _ => None end.
Definition as_i64 (v : Value) : option Z :=
  match v with Number (PosInt n) => if n <? 2 ^ 63 then Some n else None | Number (NegInt n) => Some n | _ => None end.
Definition number_to_string (n : number) : string := match n with PosInt n | NegInt n => pretty n | Float s => s end.
Definition array_or_empty (v : Value) : list Value := default [] (as_array v).

(** A loop whose body returns text. *)
Fixpoint each (l : list Value) (body : Value -> option string) : option string :=
  match l with
  | [] => Some ""
  | v :: l => a ← body v; rest ← each l body; Some (a +:+ rest)
  end.

(** ** Values per target *)

Definition TARGET : string := "apple_arm64".

Definition as_u64 (v : Value) : option Z :=
  match v with
  | Number n => number_as_u64 n
  | Text s =>
      let s := trim s in
      match strip_prefix "0x" s with
      | Some h => u64_from_str_radix h 16
      | None => match strip_prefix "0X" s with Some h => u64_from_str_radix h 16 | None => u64_from_str_radix s 10 end
      end
  | _ => None
  end.

Definition resolve_int (v : Value) (target : string) : option Z :=
  match as_u64 v with Some u => Some u | None => get v target ≫= as_u64 end.

Definition resolve_str (v : Value) (target : string) : option string :=
  match as_str v with Some s => Some s | None => get v target ≫= as_str end.

Definition each_field (s : Value) : list Value := array_or_empty (at_ s "fields").

Definition struct_target_list (s : Value) : option (list string) :=
  match as_array (at_ s "targets") with Some a => Some (omap as_str a) | None => None end.

Definition struct_on (s : Value) (target : string) : bool :=
  match struct_target_list s with None => true | Some l => bool_decide (target ∈ l) end.

Definition struct_targets (s : Value) (ts : list string) : list string := filter (fun t => struct_on s t = true) ts.

Definition struct_scope_note (comment : string) (s : Value) : option (option string) :=
  match struct_target_list s with
  | None => Some None
  | Some l =>
      name ← as_str (at_ s "name");
      Some (Some (fmt [comment; " "; name; ": a layout of target "; String.concat ", " l; " only (abi.json `targets`); emitted for every build"]))
  end.

(** [sort_by_key] with the key [(t != "apple_arm64", t)]. *)
Definition key_le (a b : string) : bool :=
  let x := negb (bool_decide (a = TARGET)) in
  let y := negb (bool_decide (b = TARGET)) in
  if Bool.eqb x y then String.leb a b else implb x y.

Fixpoint insert_target (t : string) (l : list string) : list string :=
  match l with
  | [] => [t]
  | u :: l => if key_le t u then t :: u :: l else u :: insert_target t l
  end.

Definition targets (abi : Value) : option (list string) :=
  match keys (at_ abi "targets") with Some ks => Some (foldr insert_target [] ks) | None => None end.

(** ** Emitting one declaration

    [ts.iter().all(|t| render(t) == render(&ts[0]))]: stops at the first that differs. *)
Fixpoint all_like (first : option string) (ts : list string) (render : string -> option string) : option bool :=
  match ts with
  | [] => Some true
  | t :: ts =>
      a ← render t;
      b ← first;
      if bool_decide (a = b) then all_like first ts render else Some false
  end.

(** Whether all targets have the same text, and that of the first target; [ts[0]] panics on an empty list. *)
Definition uniform (ts : list string) (render : string -> option string) : option (bool * option string) :=
  let first := match ts with [] => None | t :: _ => render t end in
  same ← all_like first ts render;
  Some (same, first).

(** [find(|t| *t != "apple_arm64").expect(..)]. *)
Definition non_apple (ts : list string) : option string := snd <$> list_find (fun t => t <> TARGET) ts.

Definition rust_cfg (target : string) : string :=
  let pred := fmt ["any(all(target_arch = "; quoted "aarch64"; ", target_vendor = "; quoted "apple"; "), target_env = "; quoted "msvc"; ")"] in
  if bool_decide (target = TARGET) then fmt ["#[cfg("; pred; ")]"] else fmt ["#[cfg(not("; pred; "))]"].

Fixpoint rust_lines (prefix : string) (ts : list string) (render : string -> option string) : option string :=
  match ts with
  | [] => Some ""
  | t :: ts =>
      v ← render t;
      rest ← rust_lines prefix ts render;
      Some (fmt [rust_cfg t; nl; prefix; " = "; v; ";"; nl; rest])
  end.

Definition emit_rust (prefix : string) (ts : list string) (render : string -> option string) : option string :=
  u ← uniform ts render;
  if (u.1 : bool) then v ← u.2; Some (fmt [prefix; " = "; v; ";"; nl])
  else rust_lines prefix ts render.

Definition ZIG_ALIGN8 : string := "align8_target".

Definition emit_zig (prefix : string) (ts : list string) (render : string -> option string) : option string :=
  u ← uniform ts render;
  if (u.1 : bool) then v ← u.2; Some (fmt [prefix; " = "; v; ";"; nl])
  else
    other ← non_apple ts;
    a ← render TARGET;
    b ← render other;
    Some (fmt [prefix; " = if ("; ZIG_ALIGN8; ") "; a; " else "; b; ";"; nl]).

Definition CPP_IF : string := "#if (defined(__APPLE__) && defined(__aarch64__)) || defined(_MSC_VER)".

Definition emit_cpp (prefix suffix : string) (ts : list string) (render : string -> option string) : option string :=
  u ← uniform ts render;
  if (u.1 : bool) then v ← u.2; Some (fmt [prefix; " = "; v; suffix; ";"; nl])
  else
    other ← non_apple ts;
    a ← render TARGET;
    b ← render other;
    Some (fmt [CPP_IF; nl; prefix; " = "; a; suffix; ";"; nl; "#else"; nl; prefix; " = "; b; suffix; ";"; nl; "#endif"; nl]).

Definition SWIFT_IF : string := "    #if os(macOS) && arch(arm64)".

Definition emit_swift (prefix : string) (ts : list string) (render : string -> option string) : option string :=
  u ← uniform ts render;
  if (u.1 : bool) then v ← u.2; Some (fmt ["    "; prefix; " = "; v; nl])
  else
    other ← non_apple ts;
    a ← render TARGET;
    b ← render other;
    Some (fmt [SWIFT_IF; nl; "    "; prefix; " = "; a; nl; "    #else"; nl; "    "; prefix; " = "; b; nl; "    #endif"; nl]).

(** ** What the generators share *)

Definition zig_num (v : Value) (target : string) : option string :=
  match v with
  | Text s => Some s
  | Number n => Some (number_to_string n)
  | Obj _ => n ← resolve_int v target; Some (pretty n)
  | _ => None
  end.

(** The text of a number that has to resolve. *)
Definition int_text (v : Value) (target : string) : option string := n ← resolve_int v target; Some (pretty n).

Definition str_text (v : Value) (target : string) : option string := s ← resolve_str v target; Some (debug_str s).

Definition protocol_note (comment probe : string) : string :=
  fmt [comment; " protocol: exercised by the `"; probe; "` conformance probe (byte-for-byte across ports)"].

Definition gen_header (lang target comment : string) : string :=
  fmt [comment; " SPDX-License-Identifier: Apache-2.0 WITH LLVM-exception OR MIT"; nl;
       comment; " SPDX-FileCopyrightText: 2025-2026 natyamatsya and thoth-ipc contributors"; nl; comment; nl;
       comment; " @generated by `tools/abi` from abi/abi.json — DO NOT EDIT."; nl;
       comment; " Regenerate: cargo run --manifest-path tools/abi/Cargo.toml -- generate --lang "; lang; nl;
       comment; " Target: "; target; "."; nl].

Definition INT_TYPES : list string := ["u8"; "u16"; "u32"; "u64"; "i32"; "usize"].

Definition zig_int_type (t : string) : option string := if bool_decide (t ∈ INT_TYPES) then Some t else None.
Definition rust_type (t : string) : option string := if bool_decide (t ∈ INT_TYPES) then Some t else None.
Definition swift_type (t : string) : option string :=
  entry_of t [("u8", "UInt8"); ("u16", "UInt16"); ("u32", "UInt32"); ("u64", "UInt64"); ("i32", "Int32"); ("usize", "Int")].
Definition cpp_type (t : string) : option string :=
  entry_of t [("u8", "std::uint8_t"); ("u16", "std::uint16_t"); ("u32", "std::uint32_t"); ("u64", "std::uint64_t"); ("i32", "std::int32_t"); ("usize", "std::size_t")].

(** [if let Some(x) = v.as_str() { push(..) }]. *)
Definition if_str (v : Value) (line : string -> string) : string := match as_str v with Some d => line d +:+ nl | None => "" end.
Definition if_note (n : option string) : string := match n with Some d => d +:+ nl | None => "" end.

(** ** Zig *)

Definition zig_constant (ts : list string) (c : Value) : option string :=
  name ← as_str (at_ c "name");
  ty ← as_str (at_ c "type");
  let doc := if_str (at_ c "description") (fun d => "/// " +:+ d) in
  decl ← (if bool_decide (ty = "string") then
            v ← as_str (at_ c "value");
            Some (fmt ["pub const "; name; ": []const u8 = "; quoted v; ";"; nl])
          else
            it ← zig_int_type ty;
            emit_zig (fmt ["pub const "; name; ": "; it]) ts (zig_num (at_ c "value")));
  Some (doc +:+ decl).

Definition zig_enum (e : Value) : option string :=
  name ← as_str (at_ e "name");
  let doc := if_str (at_ e "description") (fun d => "/// " +:+ d) in
  ty ← as_str (at_ e "type");
  it ← zig_int_type ty;
  values ← as_array (at_ e "values");
  body ← each values (fun v =>
    vn ← as_str (at_ v "name");
    n ← as_i64 (at_ v "value");
    Some (fmt ["    "; vn; " = "; pretty n; ","; nl]));
  Some (fmt [doc; "pub const "; name; " = enum("; it; ") {"; nl; body; "};"; nl]).

Definition zig_struct (ts : list string) (s : Value) : option string :=
  name ← as_str (at_ s "name");
  let sts := struct_targets s ts in
  let doc := if_str (at_ s "description") (fun d => "/// " +:+ d) in
  note ← struct_scope_note "//" s;
  size ← emit_zig (fmt ["pub const "; name; "_size: usize"]) sts (int_text (at_ s "size"));
  align ← emit_zig (fmt ["pub const "; name; "_align: usize"]) sts (int_text (at_ s "align"));
  fields ← each (each_field s) (fun f =>
    fname ← as_str (at_ f "name");
    let p := if_str (at_ f "protocol") (protocol_note "///") in
    off ← emit_zig (fmt ["pub const "; name; "_"; fname; "_off: usize"]) sts (int_text (at_ f "offset"));
    Some (p +:+ off));
  Some (fmt [doc; if_note note; size; align; fields]).

(** The two goldens of a name, by the emitter of a language. *)
Definition goldens (emit : string -> list string -> (string -> option string) -> option string) (prefix posix : string -> string) (ts : list string) (n : Value) : option string :=
  nm ← as_str (at_ n "name");
  g ← match get n "golden" with None => Some "" | Some _ => emit (prefix nm) ts (str_text (at_ n "golden")) end;
  p ← match get n "posix_golden" with None => Some "" | Some _ => emit (posix nm) ts (str_text (at_ n "posix_golden")) end;
  Some (g +:+ p).

Definition gen_zig (abi : Value) (_target : string) : option string :=
  ts ← targets abi;
  version ← as_str (at_ abi "version");
  cs ← as_array (at_ abi "constants");
  constants ← each cs (zig_constant ts);
  enums ← each (array_or_empty (at_ abi "enums")) zig_enum;
  ss ← as_array (at_ abi "structs");
  structs ← each ss (zig_struct ts);
  names ← each (array_or_empty (at_ abi "names"))
    (goldens emit_zig (fun nm => fmt ["pub const name_golden_"; nm; ": []const u8"]) (fun nm => fmt ["pub const name_golden_"; nm; "_posix: []const u8"]) ts);
  Some (fmt [gen_header "zig" (String.concat " / " ts) "//"; nl;
    "const builtin = @import("; quoted "builtin"; ");"; nl;
    "/// The align-8 ABI class (apple_arm64: alignof(max_align_t) == 8); every other"; nl;
    "/// target (x86_64, Linux aarch64) is align-16."; nl;
    "const "; ZIG_ALIGN8; " = builtin.cpu.arch == .aarch64 and builtin.os.tag.isDarwin();"; nl; nl;
    "/// ABI contract version (semver; decoupled from the release version). Peers"; nl;
    "/// interoperate iff they share the same MAJOR. See abi/README.md#abi-versioning."; nl;
    "pub const abi_version: []const u8 = "; quoted version; ";"; nl; nl;
    "// --- constants ---"; nl; constants;
    nl; "// --- enums ---"; nl; enums;
    nl; "// --- struct layout (byte sizes + field offsets) ---"; nl; structs;
    nl; "// --- shm-name goldens (canonical binding — see abi/README.md) ---"; nl; names]).

(** ** The listing of protocols *)

Definition gen_protocols (abi : Value) : option string :=
  ss ← as_array (at_ abi "structs");
  body ← each ss (fun s =>
    name ← as_str (at_ s "name");
    each (array_or_empty (at_ s "fields")) (fun f =>
      match as_str (at_ f "protocol") with
      | None => Some ""
      | Some p => fname ← as_str (at_ f "name"); Some (fmt [name; "."; fname; " "; p; nl])
      end));
  Some (fmt ["# @generated by `tools/abi` from abi/abi.json — DO NOT EDIT."; nl;
    "# Regenerate: cargo run --manifest-path tools/abi/Cargo.toml -- generate --lang protocols"; nl;
    "# <struct>.<field> <conformance-probe>"; nl; body]).

(** ** Rust *)

Definition rust_constant (ts : list string) (c : Value) : option string :=
  name ← as_str (at_ c "name");
  ty ← as_str (at_ c "type");
  let doc := if_str (at_ c "description") (fun d => "/// " +:+ d) in
  decl ← (if bool_decide (ty = "string") then
            v ← as_str (at_ c "value");
            Some (fmt ["pub const "; name; ": &str = "; quoted v; ";"; nl])
          else
            it ← rust_type ty;
            emit_rust (fmt ["pub const "; name; ": "; it]) ts (zig_num (at_ c "value")));
  Some (doc +:+ decl).

Definition rust_enum (e : Value) : option string :=
  name ← as_str (at_ e "name");
  let doc := if_str (at_ e "description") (fun d => "/// " +:+ d) in
  ty ← as_str (at_ e "type");
  it ← rust_type ty;
  values ← as_array (at_ e "values");
  body ← each values (fun v =>
    vn ← as_str (at_ v "name");
    n ← as_i64 (at_ v "value");
    Some (fmt ["    "; vn; " = "; pretty n; ","; nl]));
  Some (fmt [doc; "#[repr("; it; ")]"; nl; "pub enum "; name; " {"; nl; body; "}"; nl]).

Definition rust_struct (ts : list string) (s : Value) : option string :=
  name ← as_str (at_ s "name");
  let sts := struct_targets s ts in
  note ← struct_scope_note "//" s;
  size ← emit_rust (fmt ["pub const "; name; "_size: usize"]) sts (int_text (at_ s "size"));
  align ← emit_rust (fmt ["pub const "; name; "_align: usize"]) sts (int_text (at_ s "align"));
  fields ← each (each_field s) (fun f =>
    fname ← as_str (at_ f "name");
    let p := if_str (at_ f "protocol") (protocol_note "///") in
    off ← emit_rust (fmt ["pub const "; name; "_"; fname; "_off: usize"]) sts (int_text (at_ f "offset"));
    Some (p +:+ off));
  Some (fmt [if_note note; size; align; fields]).

Definition gen_rust (abi : Value) (_target : string) : option string :=
  ts ← targets abi;
  version ← as_str (at_ abi "version");
  cs ← as_array (at_ abi "constants");
  constants ← each cs (rust_constant ts);
  enums ← each (array_or_empty (at_ abi "enums")) rust_enum;
  ss ← as_array (at_ abi "structs");
  structs ← each ss (rust_struct ts);
  names ← each (array_or_empty (at_ abi "names"))
    (goldens emit_rust (fun nm => fmt ["pub const name_golden_"; nm; ": &str"]) (fun nm => fmt ["pub const name_golden_"; nm; "_posix: &str"]) ts);
  Some (fmt [gen_header "rust" (String.concat " / " ts) "//";
    "#![allow(non_upper_case_globals, non_camel_case_types, dead_code)]"; nl; nl;
    "pub const abi_version: &str = "; quoted version; ";"; nl; nl;
    "// --- constants ---"; nl; constants;
    nl; "// --- enums ---"; nl; enums;
    nl; "// --- struct layout (byte sizes + field offsets) ---"; nl; structs;
    nl; "// --- shm-name goldens (canonical binding — see abi/README.md) ---"; nl; names]).

(** ** Swift *)

Definition swift_constant (ts : list string) (c : Value) : option string :=
  name ← as_str (at_ c "name");
  ty ← as_str (at_ c "type");
  let doc := if_str (at_ c "description") (fun d => "    /// " +:+ d) in
  decl ← (if bool_decide (ty = "string") then
            v ← as_str (at_ c "value");
            Some (fmt ["    public static let "; name; ": String = "; quoted v; nl])
          else
            it ← swift_type ty;
            emit_swift (fmt ["public static let "; name; ": "; it]) ts (zig_num (at_ c "value")));
  Some (doc +:+ decl).

Definition swift_enum (e : Value) : option string :=
  name ← as_str (at_ e "name");
  let doc := if_str (at_ e "description") (fun d => "    /// " +:+ d) in
  ty ← as_str (at_ e "type");
  it ← swift_type ty;
  values ← as_array (at_ e "values");
  body ← each values (fun v =>
    vn ← as_str (at_ v "name");
    n ← as_i64 (at_ v "value");
    Some (fmt ["        case "; vn; " = "; pretty n; nl]));
  Some (fmt [doc; "    public enum "; name; ": "; it; " {"; nl; body; "    }"; nl]).

Definition swift_struct (ts : list string) (s : Value) : option string :=
  name ← as_str (at_ s "name");
  let sts := struct_targets s ts in
  note ← struct_scope_note "    //" s;
  size ← emit_swift (fmt ["public static let "; name; "_size: Int"]) sts (int_text (at_ s "size"));
  align ← emit_swift (fmt ["public static let "; name; "_align: Int"]) sts (int_text (at_ s "align"));
  fields ← each (each_field s) (fun f =>
    fname ← as_str (at_ f "name");
    let p := if_str (at_ f "protocol") (fun p => "    " +:+ protocol_note "///" p) in
    off ← emit_swift (fmt ["public static let "; name; "_"; fname; "_off: Int"]) sts (int_text (at_ f "offset"));
    Some (p +:+ off));
  Some (fmt [if_note note; size; align; fields]).

Definition gen_swift (abi : Value) (_target : string) : option string :=
  ts ← targets abi;
  version ← as_str (at_ abi "version");
  cs ← as_array (at_ abi "constants");
  constants ← each cs (swift_constant ts);
  enums ← each (array_or_empty (at_ abi "enums")) swift_enum;
  ss ← as_array (at_ abi "structs");
  structs ← each ss (swift_struct ts);
  names ← each (array_or_empty (at_ abi "names"))
    (goldens emit_swift (fun nm => fmt ["public static let name_golden_"; nm; ": String"]) (fun nm => fmt ["public static let name_golden_"; nm; "_posix: String"]) ts);
  Some (fmt [gen_header "swift" (String.concat " / " ts) "//"; nl; "public enum ABI {"; nl;
    "    public static let abi_version: String = "; quoted version; nl; nl;
    "    // MARK: constants"; nl; constants;
    nl; "    // MARK: enums"; nl; enums;
    nl; "    // MARK: struct layout (byte sizes + field offsets)"; nl; structs;
    nl; "    // MARK: shm-name goldens (canonical binding — see abi/README.md)"; nl; names;
    "}"; nl]).

(** ** C++ *)

Definition cpp_constant (ts : list string) (c : Value) : option string :=
  name ← as_str (at_ c "name");
  ty ← as_str (at_ c "type");
  let doc := if_str (at_ c "description") (fun d => "/// " +:+ d) in
  decl ← (if bool_decide (ty = "string") then
            v ← as_str (at_ c "value");
            Some (fmt ["inline constexpr const char* "; name; " = "; quoted v; ";"; nl])
          else
            let suffix := if bool_decide (ty = "u64") then "ull" else "" in
            it ← cpp_type ty;
            emit_cpp (fmt ["inline constexpr "; it; " "; name]) suffix ts (zig_num (at_ c "value")));
  Some (doc +:+ decl).

(** The parts of an enum, collected before they are joined. *)
Fixpoint cpp_parts (values : list Value) : option (list string) :=
  match values with
  | [] => Some []
  | v :: values =>
      vn ← as_str (at_ v "name");
      n ← as_i64 (at_ v "value");
      rest ← cpp_parts values;
      Some (fmt [vn; " = "; pretty n] :: rest)
  end.

Definition cpp_enum (e : Value) : option string :=
  name ← as_str (at_ e "name");
  let doc := if_str (at_ e "description") (fun d => "/// " +:+ d) in
  ty ← as_str (at_ e "type");
  it ← cpp_type ty;
  values ← as_array (at_ e "values");
  parts ← cpp_parts values;
  Some (fmt [doc; "enum class "; name; " : "; it; " { "; String.concat ", " parts; " };"; nl]).

Definition cpp_struct (ts : list string) (s : Value) : option string :=
  name ← as_str (at_ s "name");
  let sts := struct_targets s ts in
  note ← struct_scope_note "//" s;
  size ← emit_cpp (fmt ["inline constexpr std::size_t "; name; "_size"]) "" sts (int_text (at_ s "size"));
  align ← emit_cpp (fmt ["inline constexpr std::size_t "; name; "_align"]) "" sts (int_text (at_ s "align"));
  fields ← each (each_field s) (fun f =>
    fname ← as_str (at_ f "name");
    let p := if_str (at_ f "protocol") (protocol_note "//") in
    off ← emit_cpp (fmt ["inline constexpr std::size_t "; name; "_"; fname; "_off"]) "" sts (int_text (at_ f "offset"));
    Some (p +:+ off));
  Some (fmt [if_note note; size; align; fields]).

Definition gen_cpp (abi : Value) (_target : string) : option string :=
  ts ← targets abi;
  version ← as_str (at_ abi "version");
  cs ← as_array (at_ abi "constants");
  constants ← each cs (cpp_constant ts);
  enums ← each (array_or_empty (at_ abi "enums")) cpp_enum;
  ss ← as_array (at_ abi "structs");
  structs ← each ss (cpp_struct ts);
  names ← each (array_or_empty (at_ abi "names"))
    (goldens (fun prefix => emit_cpp prefix "") (fun nm => fmt ["inline constexpr const char* name_golden_"; nm]) (fun nm => fmt ["inline constexpr const char* name_golden_"; nm; "_posix"]) ts);
  Some (fmt [gen_header "cpp" (String.concat " / " ts) "//"; nl;
    "#pragma once"; nl; "#include <cstddef>"; nl; "#include <cstdint>"; nl; nl; "namespace thoth::abi {"; nl; nl;
    "inline constexpr const char* abi_version = "; quoted version; ";"; nl; nl;
    "// --- constants ---"; nl; constants;
    nl; "// --- enums ---"; nl; enums;
    nl; "// --- struct layout (byte sizes + field offsets) ---"; nl; structs;
    nl; "// --- shm-name goldens (canonical binding — see abi/README.md) ---"; nl; names;
    nl; "} // namespace thoth::abi"; nl]).

(** ** The gates *)

(** How a command ends: a panic, a status, or a file written. *)
Inductive ending := Panic | Exit (code : Z) | Wrote (path contents : string).

(** The names and values that have to resolve for a struct. *)
Definition needed (s : Value) : list Value := [at_ s "size"; at_ s "align"] ++ ((fun f => at_ f "offset") <$> each_field s).

Definition count (P : Value -> bool) (l : list Value) : nat := length (filter (fun v => P v = true) l).

(** The complaints about one target of a struct. *)
Definition target_complaints (declared : list string) (s : Value) (t : string) : nat :=
  if bool_decide (t ∈ declared) then count (fun v => negb (bool_decide (is_Some (resolve_int v t)))) (needed s) else 1.

Definition struct_complaints (declared : list string) (s : Value) : nat :=
  sum_list_with (target_complaints declared s) (default declared (struct_target_list s)).

Definition check_struct_targets (abi : Value) : option bool :=
  declared ← keys (at_ abi "targets");
  Some (sum_list_with (struct_complaints declared) (array_or_empty (at_ abi "structs")) =? 0)%nat.

(** [abi["constants"].as_array().unwrap().iter().find(|c| c["name"] == n)], [None] for the panic. *)
Definition constant (abi : Value) (n : string) : option (option Value) :=
  cs ← as_array (at_ abi "constants");
  Some (snd <$> list_find (fun c => as_str (at_ c "name") = Some n) cs).

Definition subst (data_length align_size : Z) (notify_hash template : string) : string :=
  replace "{notify_hash}" notify_hash (replace "{chunk_size}" "1024" (replace "{align_size}" (pretty align_size)
    (replace "{data_length}" (pretty data_length) (replace "{name}" "xchan" (replace "{prefix}" "" template))))).

(** The complaints about one name. *)
Definition name_complaints (data_length align_size shm_name_max : Z) (notify_hash target : string) (dumped : Value) (n : Value) : option nat :=
  name ← as_str (at_ n "name");
  match get n "golden" ≫= (fun g => resolve_str g target) with
  | None => Some 0%nat
  | Some golden =>
      template ← as_str (at_ n "template");
      let a := if bool_decide (subst data_length align_size notify_hash template = golden) then 0%nat else 1%nat in
      let b := match get dumped ("name:" +:+ name) ≫= as_str with
               | Some cpp => if bool_decide (cpp = golden) then 0%nat else 1%nat
               | None => 0%nat
               end in
      let c := match get n "posix_golden" ≫= (fun g => resolve_str g target) with
               | Some pg => if bool_decide (abi_make_shm_name golden shm_name_max = pg) then 0%nat else 1%nat
               | None => 0%nat
               end in
      Some (a + b + c)%nat
  end.

Fixpoint sum_complaints (f : Value -> option nat) (l : list Value) : option nat :=
  match l with
  | [] => Some 0%nat
  | v :: l => a ← f v; rest ← sum_complaints f l; Some (a + rest)%nat
  end.

Definition notify_id : string := "__THOTH_SHM__NOTIFY__xchan".

Definition check_naming (abi : Value) (target : string) (dumped : Value) : option bool :=
  data_length ← c ← constant abi "data_length"; c ≫= (fun c => resolve_int (at_ c "value") target);
  align_size ← resolve_int (at_ (at_ (at_ abi "targets") target) "align_size") target;
  let shm_name_max := default 0 (resolve_int (at_ (at_ (at_ abi "targets") target) "shm_name_max") target) in
  notify_hash ← c ← constant abi "notify_hash_xchan"; c ≫= (fun c => as_str (at_ c "value"));
  bad ← sum_complaints (name_complaints data_length align_size shm_name_max notify_hash target dumped) (array_or_empty (at_ abi "names"));
  let fnv_ok := bool_decide (to_hex (fnv1a_64 (bytes_of_string notify_id)) = notify_hash) in
  Some ((bad + (if fnv_ok then 0 else 1) =? 0)%nat).

Definition flat_constant (target : string) (flat : gmap string Z) (c : Value) : gmap string Z :=
  match as_str (at_ c "name"), resolve_int (at_ c "value") target with Some name, Some u => <[name := u]> flat | _, _ => flat end.

Definition flat_struct (target : string) (flat : gmap string Z) (s : Value) : gmap string Z :=
  if struct_on s target then
    match as_str (at_ s "name"), resolve_int (at_ s "size") target with Some name, Some u => <[name +:+ ".size" := u]> flat | _, _ => flat end
  else flat.

Definition flat_of (abi : Value) (target : string) : gmap string Z :=
  foldl (flat_struct target) (foldl (flat_constant target) ∅ (array_or_empty (at_ abi "constants"))) (array_or_empty (at_ abi "structs")).

Definition offset_field (target name : string) (offsets : gmap string Z) (f : Value) : gmap string Z :=
  match as_str (at_ f "name"), resolve_int (at_ f "offset") target with Some field, Some u => <[name +:+ "." +:+ field := u]> offsets | _, _ => offsets end.

Definition offset_struct (target : string) (offsets : gmap string Z) (s : Value) : gmap string Z :=
  if struct_on s target then
    match as_str (at_ s "name") with Some name => foldl (offset_field target name) offsets (array_or_empty (at_ s "fields")) | None => offsets end
  else offsets.

Definition offsets_of (abi : Value) (target : string) : gmap string Z := foldl (offset_struct target) ∅ (array_or_empty (at_ abi "structs")).

(** The value the document gives to a key of the dump. *)
Definition expected (abi : Value) (target k : string) : option Z :=
  match flat_of abi target !! k with Some u => Some u | None => offsets_of abi target !! k end.

Definition mismatch (abi : Value) (target : string) (kv : string * Value) : bool :=
  match as_u64 kv.2 with
  | None => false
  | Some cpp => match expected abi target kv.1 with Some v => negb (v =? cpp) | None => false end
  end.

(** [check [--target <t>]]; [None]: a value is missing. *)
Fixpoint check_args (target : string) (args : list string) : option string :=
  match args with
  | [] => Some target
  | a :: args =>
      if bool_decide (a = "--target") then match args with [] => None | t :: args => check_args t args end
      else check_args target args
  end.

(** [host]: the target the tool was built for; [schema_errors]: what the validator says; [compiles]:
    whether the dumper was compiled; [dump]: what it printed, if that is JSON. *)
Definition run_check (host : string) (abi : Value) (schema_errors : list string) (compiles : bool) (dump : option Value) (args : list string) : ending :=
  match check_args host args with
  | None => Panic
  | Some target =>
      if negb (bool_decide (schema_errors = [])) then Exit 1
      else
        match check_struct_targets abi with
        | None => Panic
        | Some false => Exit 1
        | Some true =>
            if negb (bool_decide (target = host)) && negb (bool_decide (target ∈ ["x86_64"; "apple_arm64"])) then Exit 2
            else if negb compiles then Exit 1
            else
              match dump with
              | Some (Obj dobj as dumped) =>
                  let mismatches := length (filter (fun kv => mismatch abi target kv = true) dobj) in
                  match check_naming abi target dumped with
                  | None => Panic
                  | Some naming_ok => if (0 <? mismatches)%nat || negb naming_ok then Exit 1 else Exit 0
                  end
              | _ => Panic
              end
        end
  end.

(** ** The command [generate] *)

Record gen_opts := mk_opts { o_lang : string; o_target : string; o_out : option string; o_check : bool }.

(** [None]: a value is missing; [Some None]: an unknown flag. *)
Fixpoint generate_args (o : gen_opts) (args : list string) : option (option gen_opts) :=
  match args with
  | [] => Some (Some o)
  | a :: args =>
      if bool_decide (a = "--lang") then
        match args with [] => None | v :: args => generate_args (mk_opts v (o_target o) (o_out o) (o_check o)) args end
      else if bool_decide (a = "--target") then
        match args with [] => None | v :: args => generate_args (mk_opts (o_lang o) v (o_out o) (o_check o)) args end
      else if bool_decide (a = "--out") then
        match args with [] => None | v :: args => generate_args (mk_opts (o_lang o) (o_target o) (Some v) (o_check o)) args end
      else if bool_decide (a = "--check") then generate_args (mk_opts (o_lang o) (o_target o) (o_out o) true) args
      else Some None
  end.

(** The generator of a language and the file it writes. *)
Definition generator (lang : string) : option ((Value -> string -> option string) * string) :=
  entry_of lang [("zig", (gen_zig, "zig/thoth-ipc/src/abi_generated.zig")); ("rust", (gen_rust, "rust/thoth-ipc/src/abi_generated.rs"));
    ("swift", (gen_swift, "swift/thoth-ipc/Sources/ThothIPC/Generated/abi_generated.swift"));
    ("cpp", (gen_cpp, "cpp/thoth-ipc/include/thoth-ipc/abi_generated.hpp")); ("protocols", (fun abi _ => gen_protocols abi, "abi/protocols.txt"))].

(** [files]: the contents of a file, empty when it can not be read. *)
Definition run_generate (root : string) (abi : Value) (files : string -> string) (args : list string) : ending :=
  match generate_args (mk_opts "zig" TARGET None false) args with
  | None => Panic
  | Some None => Exit 2
  | Some (Some o) =>
      match generator (o_lang o) with
      | None => Exit 2
      | Some (gen, default_out) =>
          match gen abi (o_target o) with
          | None => Panic
          | Some rendered =>
              let out := default (root +:+ "/" +:+ default_out) (o_out o) in
              if o_check o then if bool_decide (files out = rendered) then Exit 0 else Exit 1
              else Wrote out rendered
          end
      end
  end.

(** [main].  Without a subcommand [args[2..]] slices past the end. *)
Definition main (host root : string) (abi : Value) (schema_errors : list string) (compiles : bool) (dump : option Value) (files : string -> string) (args : list string) : ending :=
  match args with
  | [] => Panic
  | a :: args =>
      if bool_decide (a = "check") then run_check host abi schema_errors compiles dump args
      else if bool_decide (a = "generate") then run_generate root abi files args
      else Exit 2
  end.
