(* ===== verification/AbiDoc.v ===== *)
(** * The interface description and what is generated from it

    [abi/abi.json] as a JSON value, and the generated files of the ports, line by line.  A caret stands
    for a double quote. *)
From Stdlib Require Import Ascii.
From S2P Require Import Prelude AbiTool.

Fixpoint t (s : string) : string :=
  match s with
  | EmptyString => ""
  | String c s => String (if Ascii.eqb c "^" then Ascii.ascii_of_nat 34 else c) (t s)
  end.

(** Lines, each ended by a line feed. *)
Definition text (lines : list string) : string := fmt ((fun l => t l +:+ nl) <$> lines).

Definition abi_constants : Value :=
  Arr [Obj [("description", Text "msg_t payload fragment size (large_msg_limit)"); ("name", Text "data_length"); ("type", Text "usize"); ("value", Number (PosInt 64))];
    Obj [("description", Text "ring slot count (block_[256])"); ("name", Text "ring_size"); ("type", Text "usize"); ("value", Number (PosInt 256))];
    Obj [("description", Text "chunk-size alignment"); ("name", Text "large_msg_align"); ("type", Text "usize"); ("value", Number (PosInt 1024))];
    Obj [("description", Text "chunk slots per chunk size (id_pool capacity)"); ("name", Text "large_msg_cache"); ("type", Text "usize"); ("value", Number (PosInt 32))];
    Obj [("description", Text "per-chunk header = make_align(alignof(max_align_t), sizeof(atomic<cc_t>)=4); align-dependent"); ("name", Text "chunk_header_size"); ("type", Text "usize"); ("value", Obj [("apple_arm64", Number (PosInt 8)); ("x86_64", Number (PosInt 16))])];
    Obj [("description", Text "route rc_: low 32 = connection bitmask"); ("name", Text "route_ep_mask"); ("type", Text "u64"); ("value", Text "0x00000000ffffffff")];
    Obj [("description", Text "route rc_: epoch increment (high 32)"); ("name", Text "route_ep_incr"); ("type", Text "u64"); ("value", Text "0x0000000100000000")];
    Obj [("description", Text "channel rc_: low 32 = per-reader bitmask"); ("name", Text "chan_rc_mask"); ("type", Text "u64"); ("value", Text "0x00000000ffffffff")];
    Obj [("description", Text "channel rc_: low 56 = rc bits + internal read-gen"); ("name", Text "chan_ep_mask"); ("type", Text "u64"); ("value", Text "0x00ffffffffffffff")];
    Obj [("description", Text "channel rc_: epoch increment (top byte)"); ("name", Text "chan_ep_incr"); ("type", Text "u64"); ("value", Text "0x0100000000000000")];
    Obj [("description", Text "channel rc_: invert-carry mask"); ("name", Text "chan_ic_mask"); ("type", Text "u64"); ("value", Text "0xff000000ffffffff")];
    Obj [("description", Text "channel rc_: internal read-generation increment (bits 32..)"); ("name", Text "chan_ic_incr"); ("type", Text "u64"); ("value", Text "0x0000000100000000")];
    Obj [("description", Text (t "SyncAbi stamp magic ^LISA^ (0x4C495341)")); ("name", Text "syncabi_magic"); ("type", Text "u32"); ("value", Number (PosInt 1279873857))];
    Obj [("description", Text "SyncAbi backend id: posix_pthread (pthread_mutex_t / pthread_cond_t; FreeBSD, QNX and other POSIX)"); ("name", Text "syncabi_backend_posix_pthread"); ("type", Text "u32"); ("value", Number (PosInt 1))];
    Obj [("description", Text "SyncAbi backend id: apple_ulock"); ("name", Text "syncabi_backend_ulock"); ("type", Text "u32"); ("value", Number (PosInt 2))];
    Obj [("description", Text "SyncAbi backend id: apple_mach (App-Store-safe macOS profile; C++ only)"); ("name", Text "syncabi_backend_apple_mach"); ("type", Text "u32"); ("value", Number (PosInt 3))];
    Obj [("description", Text "SyncAbi backend id: win32 (named kernel objects, payload size 0)"); ("name", Text "syncabi_backend_win32"); ("type", Text "u32"); ("value", Number (PosInt 4))];
    Obj [("description", Text "SyncAbi backend id: linux_a0 (vendored alephzero robust PI futex mutex a0_mtx_t + condition a0_cnd_t; Linux and Android)"); ("name", Text "syncabi_backend_linux_a0"); ("type", Text "u32"); ("value", Number (PosInt 5))];
    Obj [("description", Text "secure envelope v1 magic"); ("name", Text "sipc_magic"); ("type", Text "string"); ("value", Text "SIPC")];
    Obj [("description", Text "secure envelope v1 version"); ("name", Text "sipc_version"); ("type", Text "u8"); ("value", Number (PosInt 1))];
    Obj [("description", Text (t "golden fnv1a_64(^__THOTH_SHM__NOTIFY__xchan^) for (prefix=^^, name=^xchan^)")); ("name", Text "notify_hash_xchan"); ("type", Text "string"); ("value", Text "098e889ce378ae04")];
    Obj [("description", Text "cross-process sync sidecar shm-name suffix for a mutex; full name = <channel-name> + this suffix (byte-exact across all ports)"); ("name", Text "sync_abi_suffix_mutex"); ("type", Text "string"); ("value", Text "__thoth_ipc_sync_abi_mutex")];
    Obj [("description", Text "cross-process sync sidecar shm-name suffix for a condition variable; full name = <channel-name> + this suffix (byte-exact across all ports)"); ("name", Text "sync_abi_suffix_condition"); ("type", Text "string"); ("value", Text "__thoth_ipc_sync_abi_condition")]].

Definition abi_enums : Value :=
  Arr [Obj [("description", Text "typed codec ids"); ("name", Text "codec_id"); ("type", Text "u32"); ("values", Arr [Obj [("name", Text "flatbuffers"); ("value", Number (PosInt 1))];
       Obj [("name", Text "protobuf"); ("value", Number (PosInt 2))];
       Obj [("name", Text "capnp"); ("value", Number (PosInt 3))]])];
    Obj [("description", Text "AEAD algorithm ids (SIPC envelope)"); ("name", Text "secure_alg"); ("type", Text "u16"); ("values", Arr [Obj [("name", Text "aes256gcm"); ("value", Number (PosInt 1))];
       Obj [("name", Text "chacha20poly1305"); ("value", Number (PosInt 2))]])]].

Definition abi_structs : Value :=
  Arr [Obj [("align", Number (PosInt 8)); ("description", Text "message framing inside a slot's data_ (msg_t<64,8>)"); ("fields", Arr [Obj [("description", Text "sender identity (self-message filter)"); ("name", Text "cc_id"); ("offset", Number (PosInt 0)); ("type", Text "u32")];
       Obj [("description", Text "message id (fragments share it)"); ("name", Text "id"); ("offset", Number (PosInt 4)); ("type", Text "u32")];
       Obj [("description", Text "bytes remaining after this fragment"); ("name", Text "remain"); ("offset", Number (PosInt 8)); ("type", Text "i32")];
       Obj [("description", Text "payload is a storage_id (large-message path)"); ("name", Text "storage"); ("offset", Number (PosInt 12)); ("type", Text "u8")];
       Obj [("count", Number (PosInt 64)); ("description", Text "payload fragment or storage_id"); ("name", Text "payload"); ("offset", Number (PosInt 16)); ("type", Text "bytes")]]); ("name", Text "msg_t"); ("size", Number (PosInt 80))];
    Obj [("align", Number (PosInt 64)); ("description", Text "shared conn_head_base + cache-line-aligned prod_cons head; identical offsets for route and channel (block_ starts at size)"); ("fields", Arr [Obj [("atomic", Boolean true); ("description", Text "connection bitmask"); ("name", Text "cc"); ("offset", Number (PosInt 0)); ("type", Text "u32")];
       Obj [("description", Text "header lock: thoth::spin_lock = atomic<u32> test-and-set on every target (NOT os_unfair_lock; see context/xlang-channel-abi.md §2), 4 bytes"); ("name", Text "lc"); ("offset", Number (PosInt 4)); ("protocol", Text "spinlock"); ("type", Text "lock")];
       Obj [("atomic", Boolean true); ("description", Text "DCLP init flag"); ("name", Text "constructed"); ("offset", Number (PosInt 8)); ("type", Text "u8")];
       Obj [("atomic", Boolean true); ("description", Text "route wt_ / channel ct_ (write cursor / commit index)"); ("name", Text "cursor"); ("offset", Number (PosInt 64)); ("type", Text "u32")];
       Obj [("description", Text "writer epoch (atomic on channel, plain on route)"); ("name", Text "epoch"); ("offset", Number (PosInt 128)); ("type", Text "u64")]]); ("name", Text "ring_header"); ("size", Number (PosInt 192))];
    Obj [("align", Obj [("apple_arm64", Number (PosInt 8)); ("x86_64", Number (PosInt 16))]); ("description", Text "single-writer route slot (elem_t<80,AlignSize>): `alignas(AlignSize) byte_t data_[80]` + `atomic<u64> rc_`. AlignSize = min(DataSize, alignof(max_align_t)), so the ALIGNMENT is what makes the slot 88 on the align-8 targets and 96 elsewhere; it is per-target for the same reason the size is, and a port that hardcodes 8 gets the stride wrong off Apple/MSVC"); ("fields", Arr [Obj [("count", Number (PosInt 80)); ("description", Text "holds a msg_t"); ("name", Text "data"); ("offset", Number (PosInt 0)); ("type", Text "bytes")];
       Obj [("atomic", Boolean true); ("description", Text "read-counter (bitmask + epoch)"); ("name", Text "rc"); ("offset", Number (PosInt 80)); ("type", Text "u64")]]); ("name", Text "route_elem"); ("size", Obj [("apple_arm64", Number (PosInt 88)); ("x86_64", Number (PosInt 96))])];
    Obj [("align", Obj [("apple_arm64", Number (PosInt 8)); ("x86_64", Number (PosInt 16))]); ("description", Text "multi-writer channel slot (adds the f_ct_ commit flag). Same AlignSize story as route_elem, but the size is unaffected: 80 + 8 + 8 is already a multiple of 16"); ("fields", Arr [Obj [("count", Number (PosInt 80)); ("description", Text "holds a msg_t"); ("name", Text "data"); ("offset", Number (PosInt 0)); ("type", Text "bytes")];
       Obj [("atomic", Boolean true); ("description", Text "read-counter (3-region packing)"); ("name", Text "rc"); ("offset", Number (PosInt 80)); ("type", Text "u64")];
       Obj [("atomic", Boolean true); ("description", Text "commit flag (~ct published / next-lap free)"); ("name", Text "f_ct"); ("offset", Number (PosInt 88)); ("type", Text "u64")]]); ("name", Text "channel_elem"); ("size", Number (PosInt 96))];
    Obj [("align", Number (PosInt 64)); ("description", Text "sizeof(elem_array<route,80,AlignSize>) — ftruncate target; align-dependent"); ("fields", Arr [Obj [("count", Number (PosInt 16)); ("description", Text "the single sender's owner record: a liveness_slot right after block_ (elem_array's sender_checker). pid 0 = free, -1 = a claim in flight, >0 = the holder, whose start_tok is its start token. Claim: CAS pid (0, or a DEAD holder's pid) -> -1, store start_tok, store pid (release); a live holder or -1 refuses. Release: start_tok = 0, CAS own pid -> 0. See context/xlang-channel-abi.md §2a"); ("name", Text "sender_owner"); ("offset", Obj [("apple_arm64", Number (PosInt 22720)); ("x86_64", Number (PosInt 24768))]); ("protocol", Text "sole-owner"); ("type", Text "bytes")]]); ("name", Text "route_ring"); ("size", Obj [("apple_arm64", Number (PosInt 22784)); ("x86_64", Number (PosInt 24832))])];
    Obj [("align", Number (PosInt 64)); ("description", Text "sizeof(elem_array<channel,80,AlignSize>) — ftruncate target; same on both align classes (the f_ct_ flag already makes the slot 96)"); ("fields", Arr []); ("name", Text "channel_ring"); ("size", Number (PosInt 24832))];
    Obj [("align", Number (PosInt 4)); ("description", Text "CHUNK_INFO__<size> header: id_pool free list + the pool spin_lock. Chunks start at offset `size` (C++ `this + 1`)."); ("fields", Arr [Obj [("count", Number (PosInt 32)); ("description", Text "id_pool free-list links, one u8 per slot (max_count = large_msg_cache)"); ("name", Text "next"); ("offset", Number (PosInt 0)); ("protocol", Text "idpool"); ("type", Text "bytes")];
       Obj [("description", Text "id_pool head of the free list; == max_count means empty"); ("name", Text "cursor"); ("offset", Number (PosInt 32)); ("protocol", Text "idpool"); ("type", Text "u8")];
       Obj [("description", Text "id_pool prepared_ flag (bool); init() runs once when the pool reads all-zero"); ("name", Text "prepared"); ("offset", Number (PosInt 33)); ("protocol", Text "idpool"); ("type", Text "u8")];
       Obj [("description", Text "thoth::spin_lock guarding the pool: atomic<u32> test-and-set, 1 = locked, on every target (see context/xlang-channel-abi.md §2)"); ("name", Text "lock"); ("offset", Number (PosInt 36)); ("protocol", Text "spinlock"); ("type", Text "lock")]]); ("name", Text "chunk_info"); ("size", Number (PosInt 40))];
    Obj [("align", Number (PosInt 8)); ("description", Text "LV_CONN__ owner table entry (32 of them = 512 B)"); ("fields", Arr [Obj [("description", Text "owner pid, 0 = free"); ("name", Text "pid"); ("offset", Number (PosInt 0)); ("type", Text "i32")];
       Obj [("description", Text "broadcast receivers: the ring write cursor (route wt_, channel ct_) the owner read just before claiming its connection bit, stored right after the claim (release). Every element the owner must read is at or after it, so a writer reusing an element whose previous position is before `since` treats the owner's mark on it as a previous owner's leftover, not as unread. 0 until a receiver records it (older peers never do: all marks count, as before). See context/xlang-channel-abi.md §9a"); ("name", Text "since"); ("offset", Number (PosInt 4)); ("type", Text "u32")];
       Obj [("description", Text "process incarnation token (defeats PID reuse)"); ("name", Text "start_tok"); ("offset", Number (PosInt 8)); ("type", Text "u64")]]); ("name", Text "liveness_slot"); ("size", Number (PosInt 16))];
    Obj [("align", Number (PosInt 1)); ("description", Text "secure envelope v1 fixed header (all little-endian)"); ("fields", Arr [Obj [("count", Number (PosInt 4)); ("description", Text (t "^SIPC^")); ("name", Text "magic"); ("offset", Number (PosInt 0)); ("type", Text "bytes")];
       Obj [("name", Text "version"); ("offset", Number (PosInt 4)); ("type", Text "u8")];
       Obj [("name", Text "alg_id"); ("offset", Number (PosInt 5)); ("type", Text "u16")];
       Obj [("name", Text "key_id"); ("offset", Number (PosInt 7)); ("type", Text "u32")];
       Obj [("name", Text "nonce_size"); ("offset", Number (PosInt 11)); ("type", Text "u16")];
       Obj [("name", Text "tag_size"); ("offset", Number (PosInt 13)); ("type", Text "u16")];
       Obj [("description", Text "ciphertext size"); ("name", Text "ct_size"); ("offset", Number (PosInt 15)); ("type", Text "u32")]]); ("name", Text "sipc_header"); ("size", Number (PosInt 19))];
    Obj [("align", Number (PosInt 4)); ("description", Text "sync ABI guard sidecar (6 x u32)"); ("fields", Arr [Obj [("atomic", Boolean true); ("name", Text "magic"); ("offset", Number (PosInt 0)); ("type", Text "u32")];
       Obj [("name", Text "ver_major"); ("offset", Number (PosInt 4)); ("type", Text "u32")];
       Obj [("name", Text "ver_minor"); ("offset", Number (PosInt 8)); ("type", Text "u32")];
       Obj [("name", Text "backend_id"); ("offset", Number (PosInt 12)); ("type", Text "u32")];
       Obj [("description", Text "1=mutex, 2=condition"); ("name", Text "primitive_id"); ("offset", Number (PosInt 16)); ("type", Text "u32")];
       Obj [("description", Text "byte size of the backend's shared primitive payload, so peers on different backends or layouts refuse to share it: ulock_mutex_size / ulock_cond_size (apple_ulock), a0_mtx_size / a0_cnd_size (linux_a0), sizeof(pthread_mutex_t / pthread_cond_t) (posix_pthread), 12 / 8 (apple_mach), 0 (win32)"); ("name", Text "payload_size"); ("offset", Number (PosInt 20)); ("type", Text "u32")]]); ("name", Text "syncabi_stamp"); ("size", Number (PosInt 24))];
    Obj [("align", Number (PosInt 4)); ("description", Text "apple_ulock mutex payload (C++ platform/apple/mutex.h ulock_mutex_t, Rust platform/apple.rs, Swift, Zig): the lock word is the __ulock_wait/__ulock_wake address (UL_COMPARE_AND_WAIT_SHARED); holder is the owner pid for dead-holder recovery. Followed in shm by C++'s trailing atomic<i32> ref counter (calc_size)"); ("fields", Arr [Obj [("atomic", Boolean true); ("description", Text "0 = unlocked, 1 = locked, 2 = locked + waiters. Lock: spin CAS 0->1 (0->2 once the locker has slept), else set 1->2 and __ulock_wait(state, 2); unlock: holder = 0, exchange state 0, __ulock_wake one if it was 2"); ("name", Text "state"); ("offset", Number (PosInt 0)); ("protocol", Text "ulock-mutex"); ("type", Text "u32")];
       Obj [("atomic", Boolean true); ("description", Text "pid of the holder, 0 = none (stored after acquiring). A timed lock that times out, or a try_lock that finds the mutex held, checks once whether this pid is dead (kill(pid, 0) == ESRCH) and if so recovers: exchange state 0, holder 0, __ulock_wake all if state was 2, then retries"); ("name", Text "holder"); ("offset", Number (PosInt 4)); ("protocol", Text "ulock-mutex"); ("type", Text "i32")]]); ("name", Text "ulock_mutex"); ("size", Number (PosInt 8)); ("targets", Arr [Text "apple_arm64"])];
    Obj [("align", Number (PosInt 4)); ("description", Text "apple_ulock condition payload (C++ platform/apple/condition.h ulock_cond_t, Rust condition.rs AppleCondState, Swift, Zig): a sequence-counter condition variable over __ulock_wait/__ulock_wake"); ("fields", Arr [Obj [("atomic", Boolean true); ("description", Text "wake sequence. Wait: read seq under the mutex, waiters += 1, unlock, __ulock_wait(seq, read value), waiters -= 1, relock. Notify/broadcast: seq += 1, then __ulock_wake (one / ULF_WAKE_ALL) if waiters > 0"); ("name", Text "seq"); ("offset", Number (PosInt 0)); ("protocol", Text "ulock-cond"); ("type", Text "u32")];
       Obj [("atomic", Boolean true); ("description", Text "threads currently blocked in __ulock_wait on seq (lets notify skip the syscall)"); ("name", Text "waiters"); ("offset", Number (PosInt 4)); ("protocol", Text "ulock-cond"); ("type", Text "i32")]]); ("name", Text "ulock_cond"); ("size", Number (PosInt 8)); ("targets", Arr [Text "apple_arm64"])];
    Obj [("align", Number (PosInt 8)); ("description", Text (t "linux_a0 mutex payload: the vendored alephzero a0_mtx_t (C++ platform/linux/a0/mtx.c, Rust platform/linux.rs) - a robust, error-checking, priority-inheriting futex mutex. It ^inherits^ the kernel's struct robust_list: next must be the first field, and robust_list_head.futex_offset = offset of ftx. LP64 layout (x86_64 / aarch64 Linux). Followed in shm by C++'s trailing atomic<i32> ref counter (calc_size)")); ("fields", Arr [Obj [("description", Text "robust_list.next: links the mutex into its holder THREAD's kernel robust list (set_robust_list; a process-local address, meaningful only to the holder). Set by the locker after acquiring, unlinked before release, with robust_list_head.list_op_pending = this mutex around both, so the kernel marks ftx FUTEX_OWNER_DIED when the holder dies"); ("name", Text "next"); ("offset", Number (PosInt 0)); ("protocol", Text "robust-list"); ("type", Text "ptr")];
       Obj [("description", Text "back link used to unlink in O(1); points at the previous held mutex or at the thread's robust_list_head"); ("name", Text "prev"); ("offset", Number (PosInt 8)); ("protocol", Text "robust-list"); ("type", Text "ptr")];
       Obj [("atomic", Boolean true); ("description", Text "PI futex word: 0 = unlocked, else holder tid (FUTEX_TID_MASK 0x3fffffff) | FUTEX_WAITERS | FUTEX_OWNER_DIED. Lock: CAS 0->tid, else FUTEX_LOCK_PI (absolute CLOCK_REALTIME timeout); OWNER_DIED after acquiring = EOWNERDEAD until made consistent (clear OWNER_DIED). Unlock (owner tid only, else EPERM): CAS tid->0, else FUTEX_UNLOCK_PI; unlocking while OWNER_DIED leaves FUTEX_TID_MASK|FUTEX_OWNER_DIED = not recoverable (ENOTRECOVERABLE)"); ("name", Text "ftx"); ("offset", Number (PosInt 16)); ("protocol", Text "pi-futex"); ("type", Text "u32")]]); ("name", Text "a0_mtx"); ("size", Number (PosInt 24)); ("targets", Arr [Text "x86_64"])];
    Obj [("align", Number (PosInt 4)); ("description", Text "linux_a0 condition payload: the alephzero a0_cnd_t, a u32 futex sequence word whose waiters are requeued onto the paired a0_mtx.ftx by the kernel (priority-inheritance-aware). Followed in shm by C++'s trailing atomic<i32> ref counter (calc_size)"); ("fields", Arr [Obj [("atomic", Boolean true); ("description", Text "wake sequence. Wait: read seq, unlock the mutex, FUTEX_WAIT_REQUEUE_PI(seq, read value, &mtx.ftx, absolute CLOCK_MONOTONIC timeout), retried on EINTR; on ETIMEDOUT / EAGAIN re-lock the mutex manually. Signal/broadcast: seq += 1, then FUTEX_CMP_REQUEUE_PI(seq, wake 1, requeue 1 / INT_MAX, &mtx.ftx, new seq), re-reading seq on EAGAIN"); ("name", Text "seq"); ("offset", Number (PosInt 0)); ("protocol", Text "requeue-pi-cond"); ("type", Text "u32")]]); ("name", Text "a0_cnd"); ("size", Number (PosInt 4)); ("targets", Arr [Text "x86_64"])]].

Definition abi_names : Value :=
  Arr [Obj [("description", Text "route AND channel ring (distinguished by layout, not name). posix_golden = make_shm_name(golden): the ring name (35 chars) exceeds macOS PSHMNAMLEN=31 so it shortens to /<13 body chars>_<16-hex fnv1a_64 of the /-name>; off macOS it just gets a leading /."); ("golden", Obj [("apple_arm64", Text "__THOTH_SHM__QU_CONN__xchan__64__8"); ("x86_64", Text "__THOTH_SHM__QU_CONN__xchan__64__16")]); ("name", Text "ring"); ("posix_golden", Obj [("apple_arm64", Text "/__THOTH_SHM___7d090bf7fa85c547"); ("x86_64", Text "/__THOTH_SHM__QU_CONN__xchan__64__16")]); ("template", Text "{prefix}__THOTH_SHM__QU_CONN__{name}__{data_length}__{align_size}")];
    Obj [("description", Text "prefix-global endpoint identity counter"); ("golden", Text "__THOTH_SHM__CA_CONN__"); ("name", Text "cc_id"); ("template", Text "{prefix}__THOTH_SHM__CA_CONN__")];
    Obj [("description", Text "per-channel shared message-id counter"); ("golden", Text "__THOTH_SHM__AC_CONN__xchan"); ("name", Text "msg_id"); ("template", Text "{prefix}__THOTH_SHM__AC_CONN__{name}")];
    Obj [("description", Text "dead-connection reaper owner table"); ("golden", Text "__THOTH_SHM__LV_CONN__xchan"); ("name", Text "liveness"); ("template", Text "{prefix}__THOTH_SHM__LV_CONN__{name}")];
    Obj [("description", Text "large-message chunk storage (per prefix+chunk_size)"); ("golden", Text "__THOTH_SHM__CHUNK_INFO__1024"); ("name", Text "chunk"); ("template", Text "{prefix}__THOTH_SHM__CHUNK_INFO__{chunk_size}")];
    Obj [("description", Text "libnotify service key; notify_hash = 16-hex fnv1a_64({prefix}__THOTH_SHM__NOTIFY__{name})"); ("golden", Text "thoth.ntf.098e889ce378ae04"); ("name", Text "notify_key"); ("template", Text "thoth.ntf.{notify_hash}")]].

Definition abi_json : Value :=
  Obj [("$protocol_note", Text "A field carrying `protocol` runs a coordination algorithm over its bytes that layout cannot express (a lock discipline, a free-list rule). The value names the conformance probe that must reproduce it in every port — see context/abi-consistency-review.md. tools/abi emits abi/protocols.txt from these, and the xlang runner fails if a listed probe has no case.");
    ("$schema", Text "./abi.schema.json");
    ("constants", abi_constants);
    ("description", Text "thoth-ipc cross-language ABI — language-neutral source of truth. Structurally validated by abi.schema.json; semantically validated against the deployed C++ by abi/dump_abi.cpp via the `tools/abi` Rust checker; behaviourally validated by the xlang matrix. This is an initial slice (ring layouts + core constants); extend it as the codegen adopts more of the surface.");
    ("enums", abi_enums);
    ("names", abi_names);
    ("structs", abi_structs);
    ("targets", Obj [("apple_arm64", Obj [("align_size", Number (PosInt 8)); ("description", Text "macOS arm64 — the implemented target; AlignSize = min(64, alignof(max_align_t)) = 8; PSHMNAMLEN = 31"); ("shm_name_max", Number (PosInt 31))]); ("x86_64", Obj [("align_size", Number (PosInt 16)); ("description", Text "x86-64 / Linux aarch64 — AlignSize = 16; shm_name_max = 0 (no shortening off macOS)"); ("shm_name_max", Number (PosInt 0))])]);
    ("version", Text "1.3.0")].

(** [rust/thoth-ipc/src/abi_generated.rs] *)
Definition generated_rust : list string := [
  "// SPDX-License-Identifier: Apache-2.0 WITH LLVM-exception OR MIT";
  "// SPDX-FileCopyrightText: 2025-2026 natyamatsya and thoth-ipc contributors";
  "//";
  "// @generated by `tools/abi` from abi/abi.json — DO NOT EDIT.";
  "// Regenerate: cargo run --manifest-path tools/abi/Cargo.toml -- generate --lang rust";
  "// Target: apple_arm64 / x86_64.";
  "#![allow(non_upper_case_globals, non_camel_case_types, dead_code)]";
  "";
  "pub const abi_version: &str = ^1.3.0^;";
  "";
  "// --- constants ---";
  "/// msg_t payload fragment size (large_msg_limit)";
  "pub const data_length: usize = 64;";
  "/// ring slot count (block_[256])";
  "pub const ring_size: usize = 256;";
  "/// chunk-size alignment";
  "pub const large_msg_align: usize = 1024;";
  "/// chunk slots per chunk size (id_pool capacity)";
  "pub const large_msg_cache: usize = 32;";
  "/// per-chunk header = make_align(alignof(max_align_t), sizeof(atomic<cc_t>)=4); align-dependent";
  "#[cfg(any(all(target_arch = ^aarch64^, target_vendor = ^apple^), target_env = ^msvc^))]";
  "pub const chunk_header_size: usize = 8;";
  "#[cfg(not(any(all(target_arch = ^aarch64^, target_vendor = ^apple^), target_env = ^msvc^)))]";
  "pub const chunk_header_size: usize = 16;";
  "/// route rc_: low 32 = connection bitmask";
  "pub const route_ep_mask: u64 = 0x00000000ffffffff;";
  "/// route rc_: epoch increment (high 32)";
  "pub const route_ep_incr: u64 = 0x0000000100000000;";
  "/// channel rc_: low 32 = per-reader bitmask";
  "pub const chan_rc_mask: u64 = 0x00000000ffffffff;";
  "/// channel rc_: low 56 = rc bits + internal read-gen";
  "pub const chan_ep_mask: u64 = 0x00ffffffffffffff;";
  "/// channel rc_: epoch increment (top byte)";
  "pub const chan_ep_incr: u64 = 0x0100000000000000;";
  "/// channel rc_: invert-carry mask";
  "pub const chan_ic_mask: u64 = 0xff000000ffffffff;";
  "/// channel rc_: internal read-generation increment (bits 32..)";
  "pub const chan_ic_incr: u64 = 0x0000000100000000;";
  "/// SyncAbi stamp magic ^LISA^ (0x4C495341)";
  "pub const syncabi_magic: u32 = 1279873857;";
  "/// SyncAbi backend id: posix_pthread (pthread_mutex_t / pthread_cond_t; FreeBSD, QNX and other POSIX)";
  "pub const syncabi_backend_posix_pthread: u32 = 1;";
  "/// SyncAbi backend id: apple_ulock";
  "pub const syncabi_backend_ulock: u32 = 2;";
  "/// SyncAbi backend id: apple_mach (App-Store-safe macOS profile; C++ only)";
  "pub const syncabi_backend_apple_mach: u32 = 3;";
  "/// SyncAbi backend id: win32 (named kernel objects, payload size 0)";
  "pub const syncabi_backend_win32: u32 = 4;";
  "/// SyncAbi backend id: linux_a0 (vendored alephzero robust PI futex mutex a0_mtx_t + condition a0_cnd_t; Linux and Android)";
  "pub const syncabi_backend_linux_a0: u32 = 5;";
  "/// secure envelope v1 magic";
  "pub const sipc_magic: &str = ^SIPC^;";
  "/// secure envelope v1 version";
  "pub const sipc_version: u8 = 1;";
  "/// golden fnv1a_64(^__THOTH_SHM__NOTIFY__xchan^) for (prefix=^^, name=^xchan^)";
  "pub const notify_hash_xchan: &str = ^098e889ce378ae04^;";
  "/// cross-process sync sidecar shm-name suffix for a mutex; full name = <channel-name> + this suffix (byte-exact across all ports)";
  "pub const sync_abi_suffix_mutex: &str = ^__thoth_ipc_sync_abi_mutex^;";
  "/// cross-process sync sidecar shm-name suffix for a condition variable; full name = <channel-name> + this suffix (byte-exact across all ports)";
  "pub const sync_abi_suffix_condition: &str = ^__thoth_ipc_sync_abi_condition^;";
  "";
  "// --- enums ---";
  "/// typed codec ids";
  "#[repr(u32)]";
  "pub enum codec_id {";
  "    flatbuffers = 1,";
  "    protobuf = 2,";
  "    capnp = 3,";
  "}";
  "/// AEAD algorithm ids (SIPC envelope)";
  "#[repr(u16)]";
  "pub enum secure_alg {";
  "    aes256gcm = 1,";
  "    chacha20poly1305 = 2,";
  "}";
  "";
  "// --- struct layout (byte sizes + field offsets) ---";
  "pub const msg_t_size: usize = 80;";
  "pub const msg_t_align: usize = 8;";
  "pub const msg_t_cc_id_off: usize = 0;";
  "pub const msg_t_id_off: usize = 4;";
  "pub const msg_t_remain_off: usize = 8;";
  "pub const msg_t_storage_off: usize = 12;";
  "pub const msg_t_payload_off: usize = 16;";
  "pub const ring_header_size: usize = 192;";
  "pub const ring_header_align: usize = 64;";
  "pub const ring_header_cc_off: usize = 0;";
  "/// protocol: exercised by the `spinlock` conformance probe (byte-for-byte across ports)";
  "pub const ring_header_lc_off: usize = 4;";
  "pub const ring_header_constructed_off: usize = 8;";
  "pub const ring_header_cursor_off: usize = 64;";
  "pub const ring_header_epoch_off: usize = 128;";
  "#[cfg(any(all(target_arch = ^aarch64^, target_vendor = ^apple^), target_env = ^msvc^))]";
  "pub const route_elem_size: usize = 88;";
  "#[cfg(not(any(all(target_arch = ^aarch64^, target_vendor = ^apple^), target_env = ^msvc^)))]";
  "pub const route_elem_size: usize = 96;";
  "#[cfg(any(all(target_arch = ^aarch64^, target_vendor = ^apple^), target_env = ^msvc^))]";
  "pub const route_elem_align: usize = 8;";
  "#[cfg(not(any(all(target_arch = ^aarch64^, target_vendor = ^apple^), target_env = ^msvc^)))]";
  "pub const route_elem_align: usize = 16;";
  "pub const route_elem_data_off: usize = 0;";
  "pub const route_elem_rc_off: usize = 80;";
  "pub const channel_elem_size: usize = 96;";
  "#[cfg(any(all(target_arch = ^aarch64^, target_vendor = ^apple^), target_env = ^msvc^))]";
  "pub const channel_elem_align: usize = 8;";
  "#[cfg(not(any(all(target_arch = ^aarch64^, target_vendor = ^apple^), target_env = ^msvc^)))]";
  "pub const channel_elem_align: usize = 16;";
  "pub const channel_elem_data_off: usize = 0;";
  "pub const channel_elem_rc_off: usize = 80;";
  "pub const channel_elem_f_ct_off: usize = 88;";
  "#[cfg(any(all(target_arch = ^aarch64^, target_vendor = ^apple^), target_env = ^msvc^))]";
  "pub const route_ring_size: usize = 22784;";
  "#[cfg(not(any(all(target_arch = ^aarch64^, target_vendor = ^apple^), target_env = ^msvc^)))]";
  "pub const route_ring_size: usize = 24832;";
  "pub const route_ring_align: usize = 64;";
  "/// protocol: exercised by the `sole-owner` conformance probe (byte-for-byte across ports)";
  "#[cfg(any(all(target_arch = ^aarch64^, target_vendor = ^apple^), target_env = ^msvc^))]";
  "pub const route_ring_sender_owner_off: usize = 22720;";
  "#[cfg(not(any(all(target_arch = ^aarch64^, target_vendor = ^apple^), target_env = ^msvc^)))]";
  "pub const route_ring_sender_owner_off: usize = 24768;";
  "pub const channel_ring_size: usize = 24832;";
  "pub const channel_ring_align: usize = 64;";
  "pub const chunk_info_size: usize = 40;";
  "pub const chunk_info_align: usize = 4;";
  "/// protocol: exercised by the `idpool` conformance probe (byte-for-byte across ports)";
  "pub const chunk_info_next_off: usize = 0;";
  "/// protocol: exercised by the `idpool` conformance probe (byte-for-byte across ports)";
  "pub const chunk_info_cursor_off: usize = 32;";
  "/// protocol: exercised by the `idpool` conformance probe (byte-for-byte across ports)";
  "pub const chunk_info_prepared_off: usize = 33;";
  "/// protocol: exercised by the `spinlock` conformance probe (byte-for-byte across ports)";
  "pub const chunk_info_lock_off: usize = 36;";
  "pub const liveness_slot_size: usize = 16;";
  "pub const liveness_slot_align: usize = 8;";
  "pub const liveness_slot_pid_off: usize = 0;";
  "pub const liveness_slot_since_off: usize = 4;";
  "pub const liveness_slot_start_tok_off: usize = 8;";
  "pub const sipc_header_size: usize = 19;";
  "pub const sipc_header_align: usize = 1;";
  "pub const sipc_header_magic_off: usize = 0;";
  "pub const sipc_header_version_off: usize = 4;";
  "pub const sipc_header_alg_id_off: usize = 5;";
  "pub const sipc_header_key_id_off: usize = 7;";
  "pub const sipc_header_nonce_size_off: usize = 11;";
  "pub const sipc_header_tag_size_off: usize = 13;";
  "pub const sipc_header_ct_size_off: usize = 15;";
  "pub const syncabi_stamp_size: usize = 24;";
  "pub const syncabi_stamp_align: usize = 4;";
  "pub const syncabi_stamp_magic_off: usize = 0;";
  "pub const syncabi_stamp_ver_major_off: usize = 4;";
  "pub const syncabi_stamp_ver_minor_off: usize = 8;";
  "pub const syncabi_stamp_backend_id_off: usize = 12;";
  "pub const syncabi_stamp_primitive_id_off: usize = 16;";
  "pub const syncabi_stamp_payload_size_off: usize = 20;";
  "// ulock_mutex: a layout of target apple_arm64 only (abi.json `targets`); emitted for every build";
  "pub const ulock_mutex_size: usize = 8;";
  "pub const ulock_mutex_align: usize = 4;";
  "/// protocol: exercised by the `ulock-mutex` conformance probe (byte-for-byte across ports)";
  "pub const ulock_mutex_state_off: usize = 0;";
  "/// protocol: exercised by the `ulock-mutex` conformance probe (byte-for-byte across ports)";
  "pub const ulock_mutex_holder_off: usize = 4;";
  "// ulock_cond: a layout of target apple_arm64 only (abi.json `targets`); emitted for every build";
  "pub const ulock_cond_size: usize = 8;";
  "pub const ulock_cond_align: usize = 4;";
  "/// protocol: exercised by the `ulock-cond` conformance probe (byte-for-byte across ports)";
  "pub const ulock_cond_seq_off: usize = 0;";
  "/// protocol: exercised by the `ulock-cond` conformance probe (byte-for-byte across ports)";
  "pub const ulock_cond_waiters_off: usize = 4;";
  "// a0_mtx: a layout of target x86_64 only (abi.json `targets`); emitted for every build";
  "pub const a0_mtx_size: usize = 24;";
  "pub const a0_mtx_align: usize = 8;";
  "/// protocol: exercised by the `robust-list` conformance probe (byte-for-byte across ports)";
  "pub const a0_mtx_next_off: usize = 0;";
  "/// protocol: exercised by the `robust-list` conformance probe (byte-for-byte across ports)";
  "pub const a0_mtx_prev_off: usize = 8;";
  "/// protocol: exercised by the `pi-futex` conformance probe (byte-for-byte across ports)";
  "pub const a0_mtx_ftx_off: usize = 16;";
  "// a0_cnd: a layout of target x86_64 only (abi.json `targets`); emitted for every build";
  "pub const a0_cnd_size: usize = 4;";
  "pub const a0_cnd_align: usize = 4;";
  "/// protocol: exercised by the `requeue-pi-cond` conformance probe (byte-for-byte across ports)";
  "pub const a0_cnd_seq_off: usize = 0;";
  "";
  "// --- shm-name goldens (canonical binding — see abi/README.md) ---";
  "#[cfg(any(all(target_arch = ^aarch64^, target_vendor = ^apple^), target_env = ^msvc^))]";
  "pub const name_golden_ring: &str = ^__THOTH_SHM__QU_CONN__xchan__64__8^;";
  "#[cfg(not(any(all(target_arch = ^aarch64^, target_vendor = ^apple^), target_env = ^msvc^)))]";
  "pub const name_golden_ring: &str = ^__THOTH_SHM__QU_CONN__xchan__64__16^;";
  "#[cfg(any(all(target_arch = ^aarch64^, target_vendor = ^apple^), target_env = ^msvc^))]";
  "pub const name_golden_ring_posix: &str = ^/__THOTH_SHM___7d090bf7fa85c547^;";
  "#[cfg(not(any(all(target_arch = ^aarch64^, target_vendor = ^apple^), target_env = ^msvc^)))]";
  "pub const name_golden_ring_posix: &str = ^/__THOTH_SHM__QU_CONN__xchan__64__16^;";
  "pub const name_golden_cc_id: &str = ^__THOTH_SHM__CA_CONN__^;";
  "pub const name_golden_msg_id: &str = ^__THOTH_SHM__AC_CONN__xchan^;";
  "pub const name_golden_liveness: &str = ^__THOTH_SHM__LV_CONN__xchan^;";
  "pub const name_golden_chunk: &str = ^__THOTH_SHM__CHUNK_INFO__1024^;";
  "pub const name_golden_notify_key: &str = ^thoth.ntf.098e889ce378ae04^;"].

(** [zig/thoth-ipc/src/abi_generated.zig] *)
Definition generated_zig : list string := [
  "// SPDX-License-Identifier: Apache-2.0 WITH LLVM-exception OR MIT";
  "// SPDX-FileCopyrightText: 2025-2026 natyamatsya and thoth-ipc contributors";
  "//";
  "// @generated by `tools/abi` from abi/abi.json — DO NOT EDIT.";
  "// Regenerate: cargo run --manifest-path tools/abi/Cargo.toml -- generate --lang zig";
  "// Target: apple_arm64 / x86_64.";
  "";
  "const builtin = @import(^builtin^);";
  "/// The align-8 ABI class (apple_arm64: alignof(max_align_t) == 8); every other";
  "/// target (x86_64, Linux aarch64) is align-16.";
  "const align8_target = builtin.cpu.arch == .aarch64 and builtin.os.tag.isDarwin();";
  "";
  "/// ABI contract version (semver; decoupled from the release version). Peers";
  "/// interoperate iff they share the same MAJOR. See abi/README.md#abi-versioning.";
  "pub const abi_version: []const u8 = ^1.3.0^;";
  "";
  "// --- constants ---";
  "/// msg_t payload fragment size (large_msg_limit)";
  "pub const data_length: usize = 64;";
  "/// ring slot count (block_[256])";
  "pub const ring_size: usize = 256;";
  "/// chunk-size alignment";
  "pub const large_msg_align: usize = 1024;";
  "/// chunk slots per chunk size (id_pool capacity)";
  "pub const large_msg_cache: usize = 32;";
  "/// per-chunk header = make_align(alignof(max_align_t), sizeof(atomic<cc_t>)=4); align-dependent";
  "pub const chunk_header_size: usize = if (align8_target) 8 else 16;";
  "/// route rc_: low 32 = connection bitmask";
  "pub const route_ep_mask: u64 = 0x00000000ffffffff;";
  "/// route rc_: epoch increment (high 32)";
  "pub const route_ep_incr: u64 = 0x0000000100000000;";
  "/// channel rc_: low 32 = per-reader bitmask";
  "pub const chan_rc_mask: u64 = 0x00000000ffffffff;";
  "/// channel rc_: low 56 = rc bits + internal read-gen";
  "pub const chan_ep_mask: u64 = 0x00ffffffffffffff;";
  "/// channel rc_: epoch increment (top byte)";
  "pub const chan_ep_incr: u64 = 0x0100000000000000;";
  "/// channel rc_: invert-carry mask";
  "pub const chan_ic_mask: u64 = 0xff000000ffffffff;";
  "/// channel rc_: internal read-generation increment (bits 32..)";
  "pub const chan_ic_incr: u64 = 0x0000000100000000;";
  "/// SyncAbi stamp magic ^LISA^ (0x4C495341)";
  "pub const syncabi_magic: u32 = 1279873857;";
  "/// SyncAbi backend id: posix_pthread (pthread_mutex_t / pthread_cond_t; FreeBSD, QNX and other POSIX)";
  "pub const syncabi_backend_posix_pthread: u32 = 1;";
  "/// SyncAbi backend id: apple_ulock";
  "pub const syncabi_backend_ulock: u32 = 2;";
  "/// SyncAbi backend id: apple_mach (App-Store-safe macOS profile; C++ only)";
  "pub const syncabi_backend_apple_mach: u32 = 3;";
  "/// SyncAbi backend id: win32 (named kernel objects, payload size 0)";
  "pub const syncabi_backend_win32: u32 = 4;";
  "/// SyncAbi backend id: linux_a0 (vendored alephzero robust PI futex mutex a0_mtx_t + condition a0_cnd_t; Linux and Android)";
  "pub const syncabi_backend_linux_a0: u32 = 5;";
  "/// secure envelope v1 magic";
  "pub const sipc_magic: []const u8 = ^SIPC^;";
  "/// secure envelope v1 version";
  "pub const sipc_version: u8 = 1;";
  "/// golden fnv1a_64(^__THOTH_SHM__NOTIFY__xchan^) for (prefix=^^, name=^xchan^)";
  "pub const notify_hash_xchan: []const u8 = ^098e889ce378ae04^;";
  "/// cross-process sync sidecar shm-name suffix for a mutex; full name = <channel-name> + this suffix (byte-exact across all ports)";
  "pub const sync_abi_suffix_mutex: []const u8 = ^__thoth_ipc_sync_abi_mutex^;";
  "/// cross-process sync sidecar shm-name suffix for a condition variable; full name = <channel-name> + this suffix (byte-exact across all ports)";
  "pub const sync_abi_suffix_condition: []const u8 = ^__thoth_ipc_sync_abi_condition^;";
  "";
  "// --- enums ---";
  "/// typed codec ids";
  "pub const codec_id = enum(u32) {";
  "    flatbuffers = 1,";
  "    protobuf = 2,";
  "    capnp = 3,";
  "};";
  "/// AEAD algorithm ids (SIPC envelope)";
  "pub const secure_alg = enum(u16) {";
  "    aes256gcm = 1,";
  "    chacha20poly1305 = 2,";
  "};";
  "";
  "// --- struct layout (byte sizes + field offsets) ---";
  "/// message framing inside a slot's data_ (msg_t<64,8>)";
  "pub const msg_t_size: usize = 80;";
  "pub const msg_t_align: usize = 8;";
  "pub const msg_t_cc_id_off: usize = 0;";
  "pub const msg_t_id_off: usize = 4;";
  "pub const msg_t_remain_off: usize = 8;";
  "pub const msg_t_storage_off: usize = 12;";
  "pub const msg_t_payload_off: usize = 16;";
  "/// shared conn_head_base + cache-line-aligned prod_cons head; identical offsets for route and channel (block_ starts at size)";
  "pub const ring_header_size: usize = 192;";
  "pub const ring_header_align: usize = 64;";
  "pub const ring_header_cc_off: usize = 0;";
  "/// protocol: exercised by the `spinlock` conformance probe (byte-for-byte across ports)";
  "pub const ring_header_lc_off: usize = 4;";
  "pub const ring_header_constructed_off: usize = 8;";
  "pub const ring_header_cursor_off: usize = 64;";
  "pub const ring_header_epoch_off: usize = 128;";
  "/// single-writer route slot (elem_t<80,AlignSize>): `alignas(AlignSize) byte_t data_[80]` + `atomic<u64> rc_`. AlignSize = min(DataSize, alignof(max_align_t)), so the ALIGNMENT is what makes the slot 88 on the align-8 targets and 96 elsewhere; it is per-target for the same reason the size is, and a port that hardcodes 8 gets the stride wrong off Apple/MSVC";
  "pub const route_elem_size: usize = if (align8_target) 88 else 96;";
  "pub const route_elem_align: usize = if (align8_target) 8 else 16;";
  "pub const route_elem_data_off: usize = 0;";
  "pub const route_elem_rc_off: usize = 80;";
  "/// multi-writer channel slot (adds the f_ct_ commit flag). Same AlignSize story as route_elem, but the size is unaffected: 80 + 8 + 8 is already a multiple of 16";
  "pub const channel_elem_size: usize = 96;";
  "pub const channel_elem_align: usize = if (align8_target) 8 else 16;";
  "pub const channel_elem_data_off: usize = 0;";
  "pub const channel_elem_rc_off: usize = 80;";
  "pub const channel_elem_f_ct_off: usize = 88;";
  "/// sizeof(elem_array<route,80,AlignSize>) — ftruncate target; align-dependent";
  "pub const route_ring_size: usize = if (align8_target) 22784 else 24832;";
  "pub const route_ring_align: usize = 64;";
  "/// protocol: exercised by the `sole-owner` conformance probe (byte-for-byte across ports)";
  "pub const route_ring_sender_owner_off: usize = if (align8_target) 22720 else 24768;";
  "/// sizeof(elem_array<channel,80,AlignSize>) — ftruncate target; same on both align classes (the f_ct_ flag already makes the slot 96)";
  "pub const channel_ring_size: usize = 24832;";
  "pub const channel_ring_align: usize = 64;";
  "/// CHUNK_INFO__<size> header: id_pool free list + the pool spin_lock. Chunks start at offset `size` (C++ `this + 1`).";
  "pub const chunk_info_size: usize = 40;";
  "pub const chunk_info_align: usize = 4;";
  "/// protocol: exercised by the `idpool` conformance probe (byte-for-byte across ports)";
  "pub const chunk_info_next_off: usize = 0;";
  "/// protocol: exercised by the `idpool` conformance probe (byte-for-byte across ports)";
  "pub const chunk_info_cursor_off: usize = 32;";
  "/// protocol: exercised by the `idpool` conformance probe (byte-for-byte across ports)";
  "pub const chunk_info_prepared_off: usize = 33;";
  "/// protocol: exercised by the `spinlock` conformance probe (byte-for-byte across ports)";
  "pub const chunk_info_lock_off: usize = 36;";
  "/// LV_CONN__ owner table entry (32 of them = 512 B)";
  "pub const liveness_slot_size: usize = 16;";
  "pub const liveness_slot_align: usize = 8;";
  "pub const liveness_slot_pid_off: usize = 0;";
  "pub const liveness_slot_since_off: usize = 4;";
  "pub const liveness_slot_start_tok_off: usize = 8;";
  "/// secure envelope v1 fixed header (all little-endian)";
  "pub const sipc_header_size: usize = 19;";
  "pub const sipc_header_align: usize = 1;";
  "pub const sipc_header_magic_off: usize = 0;";
  "pub const sipc_header_version_off: usize = 4;";
  "pub const sipc_header_alg_id_off: usize = 5;";
  "pub const sipc_header_key_id_off: usize = 7;";
  "pub const sipc_header_nonce_size_off: usize = 11;";
  "pub const sipc_header_tag_size_off: usize = 13;";
  "pub const sipc_header_ct_size_off: usize = 15;";
  "/// sync ABI guard sidecar (6 x u32)";
  "pub const syncabi_stamp_size: usize = 24;";
  "pub const syncabi_stamp_align: usize = 4;";
  "pub const syncabi_stamp_magic_off: usize = 0;";
  "pub const syncabi_stamp_ver_major_off: usize = 4;";
  "pub const syncabi_stamp_ver_minor_off: usize = 8;";
  "pub const syncabi_stamp_backend_id_off: usize = 12;";
  "pub const syncabi_stamp_primitive_id_off: usize = 16;";
  "pub const syncabi_stamp_payload_size_off: usize = 20;";
  "/// apple_ulock mutex payload (C++ platform/apple/mutex.h ulock_mutex_t, Rust platform/apple.rs, Swift, Zig): the lock word is the __ulock_wait/__ulock_wake address (UL_COMPARE_AND_WAIT_SHARED); holder is the owner pid for dead-holder recovery. Followed in shm by C++'s trailing atomic<i32> ref counter (calc_size)";
  "// ulock_mutex: a layout of target apple_arm64 only (abi.json `targets`); emitted for every build";
  "pub const ulock_mutex_size: usize = 8;";
  "pub const ulock_mutex_align: usize = 4;";
  "/// protocol: exercised by the `ulock-mutex` conformance probe (byte-for-byte across ports)";
  "pub const ulock_mutex_state_off: usize = 0;";
  "/// protocol: exercised by the `ulock-mutex` conformance probe (byte-for-byte across ports)";
  "pub const ulock_mutex_holder_off: usize = 4;";
  "/// apple_ulock condition payload (C++ platform/apple/condition.h ulock_cond_t, Rust condition.rs AppleCondState, Swift, Zig): a sequence-counter condition variable over __ulock_wait/__ulock_wake";
  "// ulock_cond: a layout of target apple_arm64 only (abi.json `targets`); emitted for every build";
  "pub const ulock_cond_size: usize = 8;";
  "pub const ulock_cond_align: usize = 4;";
  "/// protocol: exercised by the `ulock-cond` conformance probe (byte-for-byte across ports)";
  "pub const ulock_cond_seq_off: usize = 0;";
  "/// protocol: exercised by the `ulock-cond` conformance probe (byte-for-byte across ports)";
  "pub const ulock_cond_waiters_off: usize = 4;";
  "/// linux_a0 mutex payload: the vendored alephzero a0_mtx_t (C++ platform/linux/a0/mtx.c, Rust platform/linux.rs) - a robust, error-checking, priority-inheriting futex mutex. It ^inherits^ the kernel's struct robust_list: next must be the first field, and robust_list_head.futex_offset = offset of ftx. LP64 layout (x86_64 / aarch64 Linux). Followed in shm by C++'s trailing atomic<i32> ref counter (calc_size)";
  "// a0_mtx: a layout of target x86_64 only (abi.json `targets`); emitted for every build";
  "pub const a0_mtx_size: usize = 24;";
  "pub const a0_mtx_align: usize = 8;";
  "/// protocol: exercised by the `robust-list` conformance probe (byte-for-byte across ports)";
  "pub const a0_mtx_next_off: usize = 0;";
  "/// protocol: exercised by the `robust-list` conformance probe (byte-for-byte across ports)";
  "pub const a0_mtx_prev_off: usize = 8;";
  "/// protocol: exercised by the `pi-futex` conformance probe (byte-for-byte across ports)";
  "pub const a0_mtx_ftx_off: usize = 16;";
  "/// linux_a0 condition payload: the alephzero a0_cnd_t, a u32 futex sequence word whose waiters are requeued onto the paired a0_mtx.ftx by the kernel (priority-inheritance-aware). Followed in shm by C++'s trailing atomic<i32> ref counter (calc_size)";
  "// a0_cnd: a layout of target x86_64 only (abi.json `targets`); emitted for every build";
  "pub const a0_cnd_size: usize = 4;";
  "pub const a0_cnd_align: usize = 4;";
  "/// protocol: exercised by the `requeue-pi-cond` conformance probe (byte-for-byte across ports)";
  "pub const a0_cnd_seq_off: usize = 0;";
  "";
  "// --- shm-name goldens (canonical binding — see abi/README.md) ---";
  "pub const name_golden_ring: []const u8 = if (align8_target) ^__THOTH_SHM__QU_CONN__xchan__64__8^ else ^__THOTH_SHM__QU_CONN__xchan__64__16^;";
  "pub const name_golden_ring_posix: []const u8 = if (align8_target) ^/__THOTH_SHM___7d090bf7fa85c547^ else ^/__THOTH_SHM__QU_CONN__xchan__64__16^;";
  "pub const name_golden_cc_id: []const u8 = ^__THOTH_SHM__CA_CONN__^;";
  "pub const name_golden_msg_id: []const u8 = ^__THOTH_SHM__AC_CONN__xchan^;";
  "pub const name_golden_liveness: []const u8 = ^__THOTH_SHM__LV_CONN__xchan^;";
  "pub const name_golden_chunk: []const u8 = ^__THOTH_SHM__CHUNK_INFO__1024^;";
  "pub const name_golden_notify_key: []const u8 = ^thoth.ntf.098e889ce378ae04^;"].

(** [swift/thoth-ipc/Sources/ThothIPC/Generated/abi_generated.swift] *)
Definition generated_swift : list string := [
  "// SPDX-License-Identifier: Apache-2.0 WITH LLVM-exception OR MIT";
  "// SPDX-FileCopyrightText: 2025-2026 natyamatsya and thoth-ipc contributors";
  "//";
  "// @generated by `tools/abi` from abi/abi.json — DO NOT EDIT.";
  "// Regenerate: cargo run --manifest-path tools/abi/Cargo.toml -- generate --lang swift";
  "// Target: apple_arm64 / x86_64.";
  "";
  "public enum ABI {";
  "    public static let abi_version: String = ^1.3.0^";
  "";
  "    // MARK: constants";
  "    /// msg_t payload fragment size (large_msg_limit)";
  "    public static let data_length: Int = 64";
  "    /// ring slot count (block_[256])";
  "    public static let ring_size: Int = 256";
  "    /// chunk-size alignment";
  "    public static let large_msg_align: Int = 1024";
  "    /// chunk slots per chunk size (id_pool capacity)";
  "    public static let large_msg_cache: Int = 32";
  "    /// per-chunk header = make_align(alignof(max_align_t), sizeof(atomic<cc_t>)=4); align-dependent";
  "    #if os(macOS) && arch(arm64)";
  "    public static let chunk_header_size: Int = 8";
  "    #else";
  "    public static let chunk_header_size: Int = 16";
  "    #endif";
  "    /// route rc_: low 32 = connection bitmask";
  "    public static let route_ep_mask: UInt64 = 0x00000000ffffffff";
  "    /// route rc_: epoch increment (high 32)";
  "    public static let route_ep_incr: UInt64 = 0x0000000100000000";
  "    /// channel rc_: low 32 = per-reader bitmask";
  "    public static let chan_rc_mask: UInt64 = 0x00000000ffffffff";
  "    /// channel rc_: low 56 = rc bits + internal read-gen";
  "    public static let chan_ep_mask: UInt64 = 0x00ffffffffffffff";
  "    /// channel rc_: epoch increment (top byte)";
  "    public static let chan_ep_incr: UInt64 = 0x0100000000000000";
  "    /// channel rc_: invert-carry mask";
  "    public static let chan_ic_mask: UInt64 = 0xff000000ffffffff";
  "    /// channel rc_: internal read-generation increment (bits 32..)";
  "    public static let chan_ic_incr: UInt64 = 0x0000000100000000";
  "    /// SyncAbi stamp magic ^LISA^ (0x4C495341)";
  "    public static let syncabi_magic: UInt32 = 1279873857";
  "    /// SyncAbi backend id: posix_pthread (pthread_mutex_t / pthread_cond_t; FreeBSD, QNX and other POSIX)";
  "    public static let syncabi_backend_posix_pthread: UInt32 = 1";
  "    /// SyncAbi backend id: apple_ulock";
  "    public static let syncabi_backend_ulock: UInt32 = 2";
  "    /// SyncAbi backend id: apple_mach (App-Store-safe macOS profile; C++ only)";
  "    public static let syncabi_backend_apple_mach: UInt32 = 3";
  "    /// SyncAbi backend id: win32 (named kernel objects, payload size 0)";
  "    public static let syncabi_backend_win32: UInt32 = 4";
  "    /// SyncAbi backend id: linux_a0 (vendored alephzero robust PI futex mutex a0_mtx_t + condition a0_cnd_t; Linux and Android)";
  "    public static let syncabi_backend_linux_a0: UInt32 = 5";
  "    /// secure envelope v1 magic";
  "    public static let sipc_magic: String = ^SIPC^";
  "    /// secure envelope v1 version";
  "    public static let sipc_version: UInt8 = 1";
  "    /// golden fnv1a_64(^__THOTH_SHM__NOTIFY__xchan^) for (prefix=^^, name=^xchan^)";
  "    public static let notify_hash_xchan: String = ^098e889ce378ae04^";
  "    /// cross-process sync sidecar shm-name suffix for a mutex; full name = <channel-name> + this suffix (byte-exact across all ports)";
  "    public static let sync_abi_suffix_mutex: String = ^__thoth_ipc_sync_abi_mutex^";
  "    /// cross-process sync sidecar shm-name suffix for a condition variable; full name = <channel-name> + this suffix (byte-exact across all ports)";
  "    public static let sync_abi_suffix_condition: String = ^__thoth_ipc_sync_abi_condition^";
  "";
  "    // MARK: enums";
  "    /// typed codec ids";
  "    public enum codec_id: UInt32 {";
  "        case flatbuffers = 1";
  "        case protobuf = 2";
  "        case capnp = 3";
  "    }";
  "    /// AEAD algorithm ids (SIPC envelope)";
  "    public enum secure_alg: UInt16 {";
  "        case aes256gcm = 1";
  "        case chacha20poly1305 = 2";
  "    }";
  "";
  "    // MARK: struct layout (byte sizes + field offsets)";
  "    public static let msg_t_size: Int = 80";
  "    public static let msg_t_align: Int = 8";
  "    public static let msg_t_cc_id_off: Int = 0";
  "    public static let msg_t_id_off: Int = 4";
  "    public static let msg_t_remain_off: Int = 8";
  "    public static let msg_t_storage_off: Int = 12";
  "    public static let msg_t_payload_off: Int = 16";
  "    public static let ring_header_size: Int = 192";
  "    public static let ring_header_align: Int = 64";
  "    public static let ring_header_cc_off: Int = 0";
  "    /// protocol: exercised by the `spinlock` conformance probe (byte-for-byte across ports)";
  "    public static let ring_header_lc_off: Int = 4";
  "    public static let ring_header_constructed_off: Int = 8";
  "    public static let ring_header_cursor_off: Int = 64";
  "    public static let ring_header_epoch_off: Int = 128";
  "    #if os(macOS) && arch(arm64)";
  "    public static let route_elem_size: Int = 88";
  "    #else";
  "    public static let route_elem_size: Int = 96";
  "    #endif";
  "    #if os(macOS) && arch(arm64)";
  "    public static let route_elem_align: Int = 8";
  "    #else";
  "    public static let route_elem_align: Int = 16";
  "    #endif";
  "    public static let route_elem_data_off: Int = 0";
  "    public static let route_elem_rc_off: Int = 80";
  "    public static let channel_elem_size: Int = 96";
  "    #if os(macOS) && arch(arm64)";
  "    public static let channel_elem_align: Int = 8";
  "    #else";
  "    public static let channel_elem_align: Int = 16";
  "    #endif";
  "    public static let channel_elem_data_off: Int = 0";
  "    public static let channel_elem_rc_off: Int = 80";
  "    public static let channel_elem_f_ct_off: Int = 88";
  "    #if os(macOS) && arch(arm64)";
  "    public static let route_ring_size: Int = 22784";
  "    #else";
  "    public static let route_ring_size: Int = 24832";
  "    #endif";
  "    public static let route_ring_align: Int = 64";
  "    /// protocol: exercised by the `sole-owner` conformance probe (byte-for-byte across ports)";
  "    #if os(macOS) && arch(arm64)";
  "    public static let route_ring_sender_owner_off: Int = 22720";
  "    #else";
  "    public static let route_ring_sender_owner_off: Int = 24768";
  "    #endif";
  "    public static let channel_ring_size: Int = 24832";
  "    public static let channel_ring_align: Int = 64";
  "    public static let chunk_info_size: Int = 40";
  "    public static let chunk_info_align: Int = 4";
  "    /// protocol: exercised by the `idpool` conformance probe (byte-for-byte across ports)";
  "    public static let chunk_info_next_off: Int = 0";
  "    /// protocol: exercised by the `idpool` conformance probe (byte-for-byte across ports)";
  "    public static let chunk_info_cursor_off: Int = 32";
  "    /// protocol: exercised by the `idpool` conformance probe (byte-for-byte across ports)";
  "    public static let chunk_info_prepared_off: Int = 33";
  "    /// protocol: exercised by the `spinlock` conformance probe (byte-for-byte across ports)";
  "    public static let chunk_info_lock_off: Int = 36";
  "    public static let liveness_slot_size: Int = 16";
  "    public static let liveness_slot_align: Int = 8";
  "    public static let liveness_slot_pid_off: Int = 0";
  "    public static let liveness_slot_since_off: Int = 4";
  "    public static let liveness_slot_start_tok_off: Int = 8";
  "    public static let sipc_header_size: Int = 19";
  "    public static let sipc_header_align: Int = 1";
  "    public static let sipc_header_magic_off: Int = 0";
  "    public static let sipc_header_version_off: Int = 4";
  "    public static let sipc_header_alg_id_off: Int = 5";
  "    public static let sipc_header_key_id_off: Int = 7";
  "    public static let sipc_header_nonce_size_off: Int = 11";
  "    public static let sipc_header_tag_size_off: Int = 13";
  "    public static let sipc_header_ct_size_off: Int = 15";
  "    public static let syncabi_stamp_size: Int = 24";
  "    public static let syncabi_stamp_align: Int = 4";
  "    public static let syncabi_stamp_magic_off: Int = 0";
  "    public static let syncabi_stamp_ver_major_off: Int = 4";
  "    public static let syncabi_stamp_ver_minor_off: Int = 8";
  "    public static let syncabi_stamp_backend_id_off: Int = 12";
  "    public static let syncabi_stamp_primitive_id_off: Int = 16";
  "    public static let syncabi_stamp_payload_size_off: Int = 20";
  "    // ulock_mutex: a layout of target apple_arm64 only (abi.json `targets`); emitted for every build";
  "    public static let ulock_mutex_size: Int = 8";
  "    public static let ulock_mutex_align: Int = 4";
  "    /// protocol: exercised by the `ulock-mutex` conformance probe (byte-for-byte across ports)";
  "    public static let ulock_mutex_state_off: Int = 0";
  "    /// protocol: exercised by the `ulock-mutex` conformance probe (byte-for-byte across ports)";
  "    public static let ulock_mutex_holder_off: Int = 4";
  "    // ulock_cond: a layout of target apple_arm64 only (abi.json `targets`); emitted for every build";
  "    public static let ulock_cond_size: Int = 8";
  "    public static let ulock_cond_align: Int = 4";
  "    /// protocol: exercised by the `ulock-cond` conformance probe (byte-for-byte across ports)";
  "    public static let ulock_cond_seq_off: Int = 0";
  "    /// protocol: exercised by the `ulock-cond` conformance probe (byte-for-byte across ports)";
  "    public static let ulock_cond_waiters_off: Int = 4";
  "    // a0_mtx: a layout of target x86_64 only (abi.json `targets`); emitted for every build";
  "    public static let a0_mtx_size: Int = 24";
  "    public static let a0_mtx_align: Int = 8";
  "    /// protocol: exercised by the `robust-list` conformance probe (byte-for-byte across ports)";
  "    public static let a0_mtx_next_off: Int = 0";
  "    /// protocol: exercised by the `robust-list` conformance probe (byte-for-byte across ports)";
  "    public static let a0_mtx_prev_off: Int = 8";
  "    /// protocol: exercised by the `pi-futex` conformance probe (byte-for-byte across ports)";
  "    public static let a0_mtx_ftx_off: Int = 16";
  "    // a0_cnd: a layout of target x86_64 only (abi.json `targets`); emitted for every build";
  "    public static let a0_cnd_size: Int = 4";
  "    public static let a0_cnd_align: Int = 4";
  "    /// protocol: exercised by the `requeue-pi-cond` conformance probe (byte-for-byte across ports)";
  "    public static let a0_cnd_seq_off: Int = 0";
  "";
  "    // MARK: shm-name goldens (canonical binding — see abi/README.md)";
  "    #if os(macOS) && arch(arm64)";
  "    public static let name_golden_ring: String = ^__THOTH_SHM__QU_CONN__xchan__64__8^";
  "    #else";
  "    public static let name_golden_ring: String = ^__THOTH_SHM__QU_CONN__xchan__64__16^";
  "    #endif";
  "    #if os(macOS) && arch(arm64)";
  "    public static let name_golden_ring_posix: String = ^/__THOTH_SHM___7d090bf7fa85c547^";
  "    #else";
  "    public static let name_golden_ring_posix: String = ^/__THOTH_SHM__QU_CONN__xchan__64__16^";
  "    #endif";
  "    public static let name_golden_cc_id: String = ^__THOTH_SHM__CA_CONN__^";
  "    public static let name_golden_msg_id: String = ^__THOTH_SHM__AC_CONN__xchan^";
  "    public static let name_golden_liveness: String = ^__THOTH_SHM__LV_CONN__xchan^";
  "    public static let name_golden_chunk: String = ^__THOTH_SHM__CHUNK_INFO__1024^";
  "    public static let name_golden_notify_key: String = ^thoth.ntf.098e889ce378ae04^";
  "}"].

(** [cpp/thoth-ipc/include/thoth-ipc/abi_generated.hpp] *)
Definition generated_cpp : list string := [
  "// SPDX-License-Identifier: Apache-2.0 WITH LLVM-exception OR MIT";
  "// SPDX-FileCopyrightText: 2025-2026 natyamatsya and thoth-ipc contributors";
  "//";
  "// @generated by `tools/abi` from abi/abi.json — DO NOT EDIT.";
  "// Regenerate: cargo run --manifest-path tools/abi/Cargo.toml -- generate --lang cpp";
  "// Target: apple_arm64 / x86_64.";
  "";
  "#pragma once";
  "#include <cstddef>";
  "#include <cstdint>";
  "";
  "namespace thoth::abi {";
  "";
  "inline constexpr const char* abi_version = ^1.3.0^;";
  "";
  "// --- constants ---";
  "/// msg_t payload fragment size (large_msg_limit)";
  "inline constexpr std::size_t data_length = 64;";
  "/// ring slot count (block_[256])";
  "inline constexpr std::size_t ring_size = 256;";
  "/// chunk-size alignment";
  "inline constexpr std::size_t large_msg_align = 1024;";
  "/// chunk slots per chunk size (id_pool capacity)";
  "inline constexpr std::size_t large_msg_cache = 32;";
  "/// per-chunk header = make_align(alignof(max_align_t), sizeof(atomic<cc_t>)=4); align-dependent";
  "#if (defined(__APPLE__) && defined(__aarch64__)) || defined(_MSC_VER)";
  "inline constexpr std::size_t chunk_header_size = 8;";
  "#else";
  "inline constexpr std::size_t chunk_header_size = 16;";
  "#endif";
  "/// route rc_: low 32 = connection bitmask";
  "inline constexpr std::uint64_t route_ep_mask = 0x00000000ffffffffull;";
  "/// route rc_: epoch increment (high 32)";
  "inline constexpr std::uint64_t route_ep_incr = 0x0000000100000000ull;";
  "/// channel rc_: low 32 = per-reader bitmask";
  "inline constexpr std::uint64_t chan_rc_mask = 0x00000000ffffffffull;";
  "/// channel rc_: low 56 = rc bits + internal read-gen";
  "inline constexpr std::uint64_t chan_ep_mask = 0x00ffffffffffffffull;";
  "/// channel rc_: epoch increment (top byte)";
  "inline constexpr std::uint64_t chan_ep_incr = 0x0100000000000000ull;";
  "/// channel rc_: invert-carry mask";
  "inline constexpr std::uint64_t chan_ic_mask = 0xff000000ffffffffull;";
  "/// channel rc_: internal read-generation increment (bits 32..)";
  "inline constexpr std::uint64_t chan_ic_incr = 0x0000000100000000ull;";
  "/// SyncAbi stamp magic ^LISA^ (0x4C495341)";
  "inline constexpr std::uint32_t syncabi_magic = 1279873857;";
  "/// SyncAbi backend id: posix_pthread (pthread_mutex_t / pthread_cond_t; FreeBSD, QNX and other POSIX)";
  "inline constexpr std::uint32_t syncabi_backend_posix_pthread = 1;";
  "/// SyncAbi backend id: apple_ulock";
  "inline constexpr std::uint32_t syncabi_backend_ulock = 2;";
  "/// SyncAbi backend id: apple_mach (App-Store-safe macOS profile; C++ only)";
  "inline constexpr std::uint32_t syncabi_backend_apple_mach = 3;";
  "/// SyncAbi backend id: win32 (named kernel objects, payload size 0)";
  "inline constexpr std::uint32_t syncabi_backend_win32 = 4;";
  "/// SyncAbi backend id: linux_a0 (vendored alephzero robust PI futex mutex a0_mtx_t + condition a0_cnd_t; Linux and Android)";
  "inline constexpr std::uint32_t syncabi_backend_linux_a0 = 5;";
  "/// secure envelope v1 magic";
  "inline constexpr const char* sipc_magic = ^SIPC^;";
  "/// secure envelope v1 version";
  "inline constexpr std::uint8_t sipc_version = 1;";
  "/// golden fnv1a_64(^__THOTH_SHM__NOTIFY__xchan^) for (prefix=^^, name=^xchan^)";
  "inline constexpr const char* notify_hash_xchan = ^098e889ce378ae04^;";
  "/// cross-process sync sidecar shm-name suffix for a mutex; full name = <channel-name> + this suffix (byte-exact across all ports)";
  "inline constexpr const char* sync_abi_suffix_mutex = ^__thoth_ipc_sync_abi_mutex^;";
  "/// cross-process sync sidecar shm-name suffix for a condition variable; full name = <channel-name> + this suffix (byte-exact across all ports)";
  "inline constexpr const char* sync_abi_suffix_condition = ^__thoth_ipc_sync_abi_condition^;";
  "";
  "// --- enums ---";
  "/// typed codec ids";
  "enum class codec_id : std::uint32_t { flatbuffers = 1, protobuf = 2, capnp = 3 };";
  "/// AEAD algorithm ids (SIPC envelope)";
  "enum class secure_alg : std::uint16_t { aes256gcm = 1, chacha20poly1305 = 2 };";
  "";
  "// --- struct layout (byte sizes + field offsets) ---";
  "inline constexpr std::size_t msg_t_size = 80;";
  "inline constexpr std::size_t msg_t_align = 8;";
  "inline constexpr std::size_t msg_t_cc_id_off = 0;";
  "inline constexpr std::size_t msg_t_id_off = 4;";
  "inline constexpr std::size_t msg_t_remain_off = 8;";
  "inline constexpr std::size_t msg_t_storage_off = 12;";
  "inline constexpr std::size_t msg_t_payload_off = 16;";
  "inline constexpr std::size_t ring_header_size = 192;";
  "inline constexpr std::size_t ring_header_align = 64;";
  "inline constexpr std::size_t ring_header_cc_off = 0;";
  "// protocol: exercised by the `spinlock` conformance probe (byte-for-byte across ports)";
  "inline constexpr std::size_t ring_header_lc_off = 4;";
  "inline constexpr std::size_t ring_header_constructed_off = 8;";
  "inline constexpr std::size_t ring_header_cursor_off = 64;";
  "inline constexpr std::size_t ring_header_epoch_off = 128;";
  "#if (defined(__APPLE__) && defined(__aarch64__)) || defined(_MSC_VER)";
  "inline constexpr std::size_t route_elem_size = 88;";
  "#else";
  "inline constexpr std::size_t route_elem_size = 96;";
  "#endif";
  "#if (defined(__APPLE__) && defined(__aarch64__)) || defined(_MSC_VER)";
  "inline constexpr std::size_t route_elem_align = 8;";
  "#else";
  "inline constexpr std::size_t route_elem_align = 16;";
  "#endif";
  "inline constexpr std::size_t route_elem_data_off = 0;";
  "inline constexpr std::size_t route_elem_rc_off = 80;";
  "inline constexpr std::size_t channel_elem_size = 96;";
  "#if (defined(__APPLE__) && defined(__aarch64__)) || defined(_MSC_VER)";
  "inline constexpr std::size_t channel_elem_align = 8;";
  "#else";
  "inline constexpr std::size_t channel_elem_align = 16;";
  "#endif";
  "inline constexpr std::size_t channel_elem_data_off = 0;";
  "inline constexpr std::size_t channel_elem_rc_off = 80;";
  "inline constexpr std::size_t channel_elem_f_ct_off = 88;";
  "#if (defined(__APPLE__) && defined(__aarch64__)) || defined(_MSC_VER)";
  "inline constexpr std::size_t route_ring_size = 22784;";
  "#else";
  "inline constexpr std::size_t route_ring_size = 24832;";
  "#endif";
  "inline constexpr std::size_t route_ring_align = 64;";
  "// protocol: exercised by the `sole-owner` conformance probe (byte-for-byte across ports)";
  "#if (defined(__APPLE__) && defined(__aarch64__)) || defined(_MSC_VER)";
  "inline constexpr std::size_t route_ring_sender_owner_off = 22720;";
  "#else";
  "inline constexpr std::size_t route_ring_sender_owner_off = 24768;";
  "#endif";
  "inline constexpr std::size_t channel_ring_size = 24832;";
  "inline constexpr std::size_t channel_ring_align = 64;";
  "inline constexpr std::size_t chunk_info_size = 40;";
  "inline constexpr std::size_t chunk_info_align = 4;";
  "// protocol: exercised by the `idpool` conformance probe (byte-for-byte across ports)";
  "inline constexpr std::size_t chunk_info_next_off = 0;";
  "// protocol: exercised by the `idpool` conformance probe (byte-for-byte across ports)";
  "inline constexpr std::size_t chunk_info_cursor_off = 32;";
  "// protocol: exercised by the `idpool` conformance probe (byte-for-byte across ports)";
  "inline constexpr std::size_t chunk_info_prepared_off = 33;";
  "// protocol: exercised by the `spinlock` conformance probe (byte-for-byte across ports)";
  "inline constexpr std::size_t chunk_info_lock_off = 36;";
  "inline constexpr std::size_t liveness_slot_size = 16;";
  "inline constexpr std::size_t liveness_slot_align = 8;";
  "inline constexpr std::size_t liveness_slot_pid_off = 0;";
  "inline constexpr std::size_t liveness_slot_since_off = 4;";
  "inline constexpr std::size_t liveness_slot_start_tok_off = 8;";
  "inline constexpr std::size_t sipc_header_size = 19;";
  "inline constexpr std::size_t sipc_header_align = 1;";
  "inline constexpr std::size_t sipc_header_magic_off = 0;";
  "inline constexpr std::size_t sipc_header_version_off = 4;";
  "inline constexpr std::size_t sipc_header_alg_id_off = 5;";
  "inline constexpr std::size_t sipc_header_key_id_off = 7;";
  "inline constexpr std::size_t sipc_header_nonce_size_off = 11;";
  "inline constexpr std::size_t sipc_header_tag_size_off = 13;";
  "inline constexpr std::size_t sipc_header_ct_size_off = 15;";
  "inline constexpr std::size_t syncabi_stamp_size = 24;";
  "inline constexpr std::size_t syncabi_stamp_align = 4;";
  "inline constexpr std::size_t syncabi_stamp_magic_off = 0;";
  "inline constexpr std::size_t syncabi_stamp_ver_major_off = 4;";
  "inline constexpr std::size_t syncabi_stamp_ver_minor_off = 8;";
  "inline constexpr std::size_t syncabi_stamp_backend_id_off = 12;";
  "inline constexpr std::size_t syncabi_stamp_primitive_id_off = 16;";
  "inline constexpr std::size_t syncabi_stamp_payload_size_off = 20;";
  "// ulock_mutex: a layout of target apple_arm64 only (abi.json `targets`); emitted for every build";
  "inline constexpr std::size_t ulock_mutex_size = 8;";
  "inline constexpr std::size_t ulock_mutex_align = 4;";
  "// protocol: exercised by the `ulock-mutex` conformance probe (byte-for-byte across ports)";
  "inline constexpr std::size_t ulock_mutex_state_off = 0;";
  "// protocol: exercised by the `ulock-mutex` conformance probe (byte-for-byte across ports)";
  "inline constexpr std::size_t ulock_mutex_holder_off = 4;";
  "// ulock_cond: a layout of target apple_arm64 only (abi.json `targets`); emitted for every build";
  "inline constexpr std::size_t ulock_cond_size = 8;";
  "inline constexpr std::size_t ulock_cond_align = 4;";
  "// protocol: exercised by the `ulock-cond` conformance probe (byte-for-byte across ports)";
  "inline constexpr std::size_t ulock_cond_seq_off = 0;";
  "// protocol: exercised by the `ulock-cond` conformance probe (byte-for-byte across ports)";
  "inline constexpr std::size_t ulock_cond_waiters_off = 4;";
  "// a0_mtx: a layout of target x86_64 only (abi.json `targets`); emitted for every build";
  "inline constexpr std::size_t a0_mtx_size = 24;";
  "inline constexpr std::size_t a0_mtx_align = 8;";
  "// protocol: exercised by the `robust-list` conformance probe (byte-for-byte across ports)";
  "inline constexpr std::size_t a0_mtx_next_off = 0;";
  "// protocol: exercised by the `robust-list` conformance probe (byte-for-byte across ports)";
  "inline constexpr std::size_t a0_mtx_prev_off = 8;";
  "// protocol: exercised by the `pi-futex` conformance probe (byte-for-byte across ports)";
  "inline constexpr std::size_t a0_mtx_ftx_off = 16;";
  "// a0_cnd: a layout of target x86_64 only (abi.json `targets`); emitted for every build";
  "inline constexpr std::size_t a0_cnd_size = 4;";
  "inline constexpr std::size_t a0_cnd_align = 4;";
  "// protocol: exercised by the `requeue-pi-cond` conformance probe (byte-for-byte across ports)";
  "inline constexpr std::size_t a0_cnd_seq_off = 0;";
  "";
  "// --- shm-name goldens (canonical binding — see abi/README.md) ---";
  "#if (defined(__APPLE__) && defined(__aarch64__)) || defined(_MSC_VER)";
  "inline constexpr const char* name_golden_ring = ^__THOTH_SHM__QU_CONN__xchan__64__8^;";
  "#else";
  "inline constexpr const char* name_golden_ring = ^__THOTH_SHM__QU_CONN__xchan__64__16^;";
  "#endif";
  "#if (defined(__APPLE__) && defined(__aarch64__)) || defined(_MSC_VER)";
  "inline constexpr const char* name_golden_ring_posix = ^/__THOTH_SHM___7d090bf7fa85c547^;";
  "#else";
  "inline constexpr const char* name_golden_ring_posix = ^/__THOTH_SHM__QU_CONN__xchan__64__16^;";
  "#endif";
  "inline constexpr const char* name_golden_cc_id = ^__THOTH_SHM__CA_CONN__^;";
  "inline constexpr const char* name_golden_msg_id = ^__THOTH_SHM__AC_CONN__xchan^;";
  "inline constexpr const char* name_golden_liveness = ^__THOTH_SHM__LV_CONN__xchan^;";
  "inline constexpr const char* name_golden_chunk = ^__THOTH_SHM__CHUNK_INFO__1024^;";
  "inline constexpr const char* name_golden_notify_key = ^thoth.ntf.098e889ce378ae04^;";
  "";
  "} // namespace thoth::abi"].

(** [abi/protocols.txt] *)
Definition generated_protocols : list string := [
  "# @generated by `tools/abi` from abi/abi.json — DO NOT EDIT.";
  "# Regenerate: cargo run --manifest-path tools/abi/Cargo.toml -- generate --lang protocols";
  "# <struct>.<field> <conformance-probe>";
  "ring_header.lc spinlock";
  "route_ring.sender_owner sole-owner";
  "chunk_info.next idpool";
  "chunk_info.cursor idpool";
  "chunk_info.prepared idpool";
  "chunk_info.lock spinlock";
  "ulock_mutex.state ulock-mutex";
  "ulock_mutex.holder ulock-mutex";
  "ulock_cond.seq ulock-cond";
  "ulock_cond.waiters ulock-cond";
  "a0_mtx.next robust-list";
  "a0_mtx.prev robust-list";
  "a0_mtx.ftx pi-futex";
  "a0_cnd.seq requeue-pi-cond"].
