(* ===== verification/AbiGen.v ===== *)
(** * What the ABI tool guarantees

    The generators do not panic on a description that passes the gates, every target gets its own value
    from what they emit, the files of the repository are what they generate, and the constants and names
    of the port are those of the description. *)
From Stdlib Require Import Ascii.
From S2P Require Import Prelude Abi ShmName AbiTool AbiDoc.

(** ** Text *)

Lemma str_nil_r (s : string) : s +:+ "" = s.
Proof. induction s as [|c s IH]; [done|]. apply (f_equal (String c)), IH. Qed.

Lemma str_app_assoc (a b c : string) : (a +:+ b) +:+ c = a +:+ b +:+ c.
Proof. induction a as [|x a IH]; [done|]. apply (f_equal (String x)), IH. Qed.

Lemma fmt_cons a l : fmt (a :: l) = a +:+ fmt l.
Proof. destruct l as [|b l]; unfold fmt; simpl; [by rewrite str_nil_r|done]. Qed.

Lemma fmt_nil : fmt [] = "".
Proof. done. Qed.

(** ** The generators do not panic *)

Lemma each_total l body : (forall v, v ∈ l -> is_Some (body v)) -> is_Some (each l body).
Proof.
  induction l as [|v l IH]; intros H; simpl; [by eexists|].
  destruct (H v) as [a Ea]; [by left|]. destruct IH as [b Eb]; [intros u Hu; apply H; by right|]. rewrite Ea. simpl. rewrite Eb. by eexists.
Qed.

(** Apple's target, another one, or both. *)
Definition pair_like (ts : list string) : Prop :=
  ts = [TARGET] \/ exists o, o <> TARGET /\ (ts = [o] \/ ts = [TARGET; o]).

(** What an emitter returns when all targets agree, and when Apple's and the other do not. *)
Definition emits (emit : string -> list string -> (string -> option string) -> option string) (same : string -> string -> string) (differ : string -> string -> string -> string -> string) : Prop :=
  forall prefix ts render, pair_like ts -> (forall t, t ∈ ts -> is_Some (render t)) ->
    (exists v, (forall t, t ∈ ts -> render t = Some v) /\ emit prefix ts render = Some (same prefix v)) \/
    (exists o a b, ts = [TARGET; o] /\ o <> TARGET /\ a <> b /\ render TARGET = Some a /\ render o = Some b /\ emit prefix ts render = Some (differ o prefix a b)).

(** The text of a declaration, and the two gated ones. *)
Definition rust_same prefix v := fmt [prefix; " = "; v; ";"; nl].
Definition rust_differ o prefix a b := fmt [rust_cfg TARGET; nl; prefix; " = "; a; ";"; nl; fmt [rust_cfg o; nl; prefix; " = "; b; ";"; nl; ""]].
Definition zig_differ (o : string) prefix a b := fmt [prefix; " = if ("; ZIG_ALIGN8; ") "; a; " else "; b; ";"; nl].
Definition cpp_same suffix prefix v := fmt [prefix; " = "; v; suffix; ";"; nl].
Definition cpp_differ suffix (o : string) prefix a b := fmt [CPP_IF; nl; prefix; " = "; a; suffix; ";"; nl; "#else"; nl; prefix; " = "; b; suffix; ";"; nl; "#endif"; nl].
Definition swift_same prefix v := fmt ["    "; prefix; " = "; v; nl].
Definition swift_differ (o : string) prefix a b := fmt [SWIFT_IF; nl; "    "; prefix; " = "; a; nl; "    #else"; nl; "    "; prefix; " = "; b; nl; "    #endif"; nl].

(** One target: its text; two: equal or not. *)
Ltac emitter emit :=
  intros prefix ts render [->|(o & Ho & [->| ->])] Hr;
  [ destruct (Hr TARGET) as [v Ev]; [by left|]; left; exists v; split; [by intros t ->%list_elem_of_singleton|]
  | destruct (Hr o) as [v Ev]; [by left|]; left; exists v; split; [by intros t ->%list_elem_of_singleton|]
  | destruct (Hr TARGET) as [a Ea]; [by left|]; destruct (Hr o) as [b Eb]; [right; by left|];
    destruct (decide (a = b)) as [<-|Hne];
    [ left; exists a; split; [by intros t [->| ->%list_elem_of_singleton]%elem_of_cons|]
    | right; exists o, a, b; repeat (split; [done|]) ] ];
  unfold emit, uniform; cbn [all_like];
  repeat (match goal with
          | H : render ?t = Some _ |- context [render ?t] => rewrite H
          | |- context [bool_decide (?x = ?x)] => rewrite (bool_decide_eq_true_2 (x = x)) by reflexivity
          | H : ?a <> ?b |- context [bool_decide (?b = ?a)] => rewrite (bool_decide_eq_false_2 (b = a)) by congruence
          end; cbn [mbind option_bind fst snd all_like rust_lines]).

Lemma non_apple_pair o : o <> TARGET -> non_apple [TARGET; o] = Some o.
Proof. intros Ho. unfold non_apple. cbn. by rewrite decide_False, decide_True by (done || tauto). Qed.

Lemma emit_rust_emits : emits emit_rust rust_same rust_differ.
Proof. emitter emit_rust; done. Qed.

Lemma emit_zig_emits : emits emit_zig rust_same zig_differ.
Proof. emitter emit_zig; rewrite ?non_apple_pair by done; cbn; rewrite ?Ea; cbn; rewrite ?Eb; done. Qed.

Lemma emit_cpp_emits suffix : emits (fun prefix => emit_cpp prefix suffix) (cpp_same suffix) (cpp_differ suffix).
Proof. emitter emit_cpp; rewrite ?non_apple_pair by done; cbn; rewrite ?Ea; cbn; rewrite ?Eb; done. Qed.

Lemma emit_swift_emits : emits emit_swift swift_same swift_differ.
Proof. emitter emit_swift; rewrite ?non_apple_pair by done; cbn; rewrite ?Ea; cbn; rewrite ?Eb; done. Qed.

Lemma emits_total emit same differ prefix ts render :
  emits emit same differ -> pair_like ts -> (forall t, t ∈ ts -> is_Some (render t)) -> is_Some (emit prefix ts render).
Proof. intros He Hp Hr. destruct (He prefix ts render Hp Hr) as [(v & _ & ->)|(o & a & b & _ & _ & _ & _ & _ & ->)]; by eexists. Qed.

(** What the schema and the gates leave to be required of a description: the parts the generators read
    are there, constants and goldens resolve on every target, enums have an integer type, and there is
    Apple's target with at most one other. *)
Definition is_str (v : Value) : bool := bool_decide (is_Some (as_str v)).
Definition resolves (ts : list string) (f : string -> option string) : bool := forallb (fun t => bool_decide (is_Some (f t))) ts.

Definition constant_ok (ts : list string) (c : Value) : bool :=
  is_str (at_ c "name") &&
  match as_str (at_ c "type") with
  | Some ty => if bool_decide (ty = "string") then is_str (at_ c "value") else bool_decide (ty ∈ INT_TYPES) && resolves ts (zig_num (at_ c "value"))
  | None => false
  end.

Definition enum_value_ok (v : Value) : bool := is_str (at_ v "name") && bool_decide (is_Some (as_i64 (at_ v "value"))).

Definition enum_ok (e : Value) : bool :=
  is_str (at_ e "name") &&
  match as_str (at_ e "type"), as_array (at_ e "values") with
  | Some ty, Some vs => bool_decide (ty ∈ INT_TYPES) && forallb enum_value_ok vs
  | _, _ => false
  end.

Definition struct_ok (s : Value) : bool :=
  is_str (at_ s "name") && forallb (fun f => is_str (at_ f "name")) (each_field s) && negb (bool_decide (struct_target_list s = Some [])).

Definition name_ok (ts : list string) (n : Value) : bool :=
  is_str (at_ n "name") &&
  forallb (fun k => match get n k with None => true | Some _ => resolves ts (str_text (at_ n k)) end) ["golden"; "posix_golden"].

Definition shaped (abi : Value) : bool :=
  match targets abi, as_str (at_ abi "version"), as_array (at_ abi "constants"), as_array (at_ abi "structs") with
  | Some ts, Some _, Some cs, Some ss =>
      match ts with [a] => true | [a; b] => bool_decide (a = TARGET) && negb (bool_decide (b = TARGET)) | _ => false end &&
      forallb (constant_ok ts) cs && forallb enum_ok (array_or_empty (at_ abi "enums")) && forallb struct_ok ss &&
      forallb (name_ok ts) (array_or_empty (at_ abi "names"))
  | _, _, _, _ => false
  end.

Example description_shaped : shaped abi_json = true.
Proof. by vm_compute. Qed.

Lemma is_str_true v : is_str v = true -> is_Some (as_str v).
Proof. apply bool_decide_eq_true_1. Qed.

Lemma resolves_true ts f : resolves ts f = true -> forall t, t ∈ ts -> is_Some (f t).
Proof. unfold resolves. rewrite forallb_forall. intros H t Ht. eapply bool_decide_eq_true_1, H. by apply list_elem_of_In. Qed.

Lemma forallb_elem {A} (P : A -> bool) l x : forallb P l = true -> x ∈ l -> P x = true.
Proof. rewrite forallb_forall. intros H Hx. by apply H, list_elem_of_In. Qed.

Lemma bind_total {A B} (x : option A) (f : A -> option B) : is_Some x -> (forall a, x = Some a -> is_Some (f a)) -> is_Some (x ≫= f).
Proof. intros [a Ha] Hf. rewrite Ha. by apply Hf. Qed.

Lemma some_total {A} (x : A) : is_Some (Some x).
Proof. by eexists. Qed.

Lemma types_total ty : ty ∈ INT_TYPES -> is_Some (zig_int_type ty) /\ is_Some (rust_type ty) /\ is_Some (swift_type ty) /\ is_Some (cpp_type ty).
Proof.
  intros H. unfold zig_int_type, rust_type. rewrite bool_decide_eq_true_2 by done. unfold INT_TYPES in H.
  repeat (apply elem_of_cons in H as [->|H]; [repeat split; by eexists|]). by apply elem_of_nil in H.
Qed.

Lemma constant_ok_inv ts c : constant_ok ts c = true ->
  is_Some (as_str (at_ c "name")) /\ exists ty, as_str (at_ c "type") = Some ty /\
    if bool_decide (ty = "string") then is_Some (as_str (at_ c "value")) else ty ∈ INT_TYPES /\ forall t, t ∈ ts -> is_Some (zig_num (at_ c "value") t).
Proof.
  unfold constant_ok. intros [Hn Ht]%andb_true_iff. split; [by apply is_str_true|]. destruct (as_str (at_ c "type")) as [ty|]; [|done].
  exists ty. split; [done|]. case_bool_decide; [by apply is_str_true|]. apply andb_true_iff in Ht as [Hty Hr]. apply bool_decide_eq_true in Hty.
  split; [done|]. by apply resolves_true.
Qed.

Lemma constants_total ts c : pair_like ts -> constant_ok ts c = true ->
  is_Some (zig_constant ts c) /\ is_Some (rust_constant ts c) /\ is_Some (swift_constant ts c) /\ is_Some (cpp_constant ts c).
Proof.
  intros Hp (Hn & ty & Ety & Hv)%constant_ok_inv.
  assert (forall u, as_str (at_ c "type") = Some u -> u = ty) as Hty by (intros; congruence).
  unfold zig_constant, rust_constant, swift_constant, cpp_constant. rewrite Ety. destruct (bool_decide (ty = "string")) eqn:Es.
  - repeat split; apply bind_total; try done; intros name _; cbn; rewrite Es; destruct Hv as [v ->]; by eexists.
  - destruct Hv as [Hi Hr]. destruct (types_total ty Hi) as (H1 & H2 & H3 & H4).
    repeat split; apply bind_total; try done; intros name _; cbn; rewrite Es; apply bind_total; try (by eexists); apply bind_total; try done; intros it _.
    + eapply emits_total; [apply emit_zig_emits|done|done].
    + eapply emits_total; [apply emit_rust_emits|done|done].
    + eapply emits_total; [apply emit_swift_emits|done|done].
    + eapply (emits_total (fun prefix => emit_cpp prefix _)); [apply emit_cpp_emits|done|done].
Qed.

Lemma enums_total e : enum_ok e = true -> is_Some (zig_enum e) /\ is_Some (rust_enum e) /\ is_Some (swift_enum e) /\ is_Some (cpp_enum e).
Proof.
  unfold enum_ok. intros [Hn He]%andb_true_iff. apply is_str_true in Hn. destruct (as_str (at_ e "type")) as [ty|] eqn:Ety; [|done].
  destruct (as_array (at_ e "values")) as [vs|] eqn:Evs; [|done]. apply andb_true_iff in He as [Hi Hv]. apply bool_decide_eq_true in Hi.
  destruct (types_total ty Hi) as (H1 & H2 & H3 & H4).
  assert (forall v, v ∈ vs -> is_Some (as_str (at_ v "name")) /\ is_Some (as_i64 (at_ v "value"))) as Hvs.
  { intros v Hv'. pose proof (forallb_elem _ _ _ Hv Hv') as [? ?]%andb_true_iff. split; [by apply is_str_true|by eapply bool_decide_eq_true_1]. }
  assert (is_Some (cpp_parts vs)) as Hparts.
  { clear -Hvs. induction vs as [|v vs IH]; simpl; [by eexists|]. destruct (Hvs v) as [Ha Hb]; [by left|].
    apply bind_total; [done|intros]. apply bind_total; [done|intros]. apply bind_total; [|intros; by eexists]. apply IH. intros u Hu. apply Hvs. by right. }
  unfold zig_enum, rust_enum, swift_enum, cpp_enum. rewrite Ety, Evs.
  repeat split; (apply bind_total; [done|intros name _]); cbn; (apply bind_total; [done|intros it _]); cbn.
  4: { apply bind_total; [done|intros; by eexists]. }
  all: apply bind_total; [apply each_total; intros v [Ha Hb]%Hvs; apply bind_total; [done|intros]; apply bind_total; [done|intros; by eexists]|intros; by eexists].
Qed.

(** ** Structs *)

Lemma sum_zero {A} (f : A -> nat) l x : sum_list_with f l = 0%nat -> x ∈ l -> f x = 0%nat.
Proof. induction l as [|y l IH]; intros H Hx; simpl in H; [by apply elem_of_nil in Hx|]. apply elem_of_cons in Hx as [->|Hx]; [lia|]. apply IH; [lia|done]. Qed.

(** What the gate on struct targets establishes. *)
Lemma check_struct_targets_spec abi declared s t :
  check_struct_targets abi = Some true -> keys (at_ abi "targets") = Some declared -> s ∈ array_or_empty (at_ abi "structs") ->
  t ∈ default declared (struct_target_list s) -> t ∈ declared /\ forall v, v ∈ needed s -> is_Some (resolve_int v t).
Proof.
  unfold check_struct_targets. intros H Hk Hs Ht. rewrite Hk in H. cbn in H. injection H as H%Nat.eqb_eq.
  pose proof (sum_zero _ _ _ (sum_zero _ _ _ H Hs) Ht) as Hc. unfold target_complaints in Hc. case_bool_decide as Hd; [|done]. split; [done|].
  intros v Hv. unfold count in Hc. apply length_zero_iff_nil in Hc. destruct (decide (is_Some (resolve_int v t))) as [|Hno]; [done|]. exfalso.
  apply (not_elem_of_nil v). rewrite <- Hc. apply list_elem_of_filter. split; [|done]. by rewrite bool_decide_eq_false_2.
Qed.

Lemma insert_target_perm t l : insert_target t l ≡ₚ t :: l.
Proof. induction l as [|u l IH]; simpl; [done|]. destruct (key_le t u); [done|]. rewrite IH. apply Permutation_swap. Qed.

Lemma targets_perm abi ts : targets abi = Some ts -> exists declared, keys (at_ abi "targets") = Some declared /\ ts ≡ₚ declared.
Proof.
  unfold targets. destruct (keys _) as [ks|]; [|done]. intros [= <-]. exists ks. split; [done|].
  induction ks as [|k ks IH]; simpl; [done|]. rewrite insert_target_perm. by f_equiv.
Qed.

Lemma pair_like_filter (P : string -> bool) ts t : pair_like ts -> t ∈ ts -> P t = true -> pair_like (filter (fun t => P t = true) ts).
Proof.
  intros Hp Ht HP. assert (t ∈ filter (fun t => P t = true) ts) as Hf by (by apply list_elem_of_filter).
  destruct Hp as [->|(o & Ho & [->| ->])]; rewrite !filter_cons in *; repeat case_decide; rewrite ?filter_nil in *; unfold pair_like; eauto 10; by apply elem_of_nil in Hf.
Qed.

Section structs.
Context (abi : Value) (ts : list string) (declared : list string) (s : Value).
Hypothesis Hp : pair_like ts.
Hypothesis Hts : ts ≡ₚ declared.
Hypothesis Hk : keys (at_ abi "targets") = Some declared.
Hypothesis Hcheck : check_struct_targets abi = Some true.
Hypothesis Hs : s ∈ array_or_empty (at_ abi "structs").
Hypothesis Hok : struct_ok s = true.

Lemma struct_targets_pair : pair_like (struct_targets s ts).
Proof.
  unfold struct_targets. destruct (struct_target_list s) as [[|x l]|] eqn:E.
  - exfalso. unfold struct_ok in Hok. rewrite !andb_true_iff, negb_true_iff in Hok. destruct Hok as [_ H]. by apply bool_decide_eq_false in H.
  - apply (pair_like_filter (struct_on s) ts x); [done| |].
    + rewrite Hts. apply (check_struct_targets_spec abi declared s x); try done. rewrite E. by left.
    + unfold struct_on. rewrite E. apply bool_decide_eq_true_2. by left.
  - destruct ts as [|x l] eqn:Ets; [by destruct Hp as [?|(? & _ & [?|?])]|]. apply (pair_like_filter (struct_on s) _ x); [done|by left|]. unfold struct_on. by rewrite E.
Qed.

Lemma struct_resolves v t : v ∈ needed s -> t ∈ struct_targets s ts -> is_Some (int_text v t).
Proof.
  intros Hv [Hon Ht]%list_elem_of_filter. unfold int_text. apply bind_total; [|intros; by eexists].
  eapply (check_struct_targets_spec abi declared s t); [done|done|done| |done]. unfold struct_on in Hon.
  destruct (struct_target_list s) as [l|]; cbn; [by apply bool_decide_eq_true in Hon|by rewrite <- Hts].
Qed.

Lemma struct_note comment : is_Some (struct_scope_note comment s).
Proof.
  unfold struct_scope_note. destruct (struct_target_list s); [|by eexists]. apply bind_total; [|intros; by eexists].
  unfold struct_ok in Hok. rewrite !andb_true_iff in Hok. apply is_str_true. tauto.
Qed.

(** Size, alignment and offsets, by any emitter. *)
Lemma struct_emits emit same differ prefix v : emits emit same differ -> v ∈ needed s -> is_Some (emit prefix (struct_targets s ts) (int_text v)).
Proof. intros He Hv. eapply emits_total; [done|apply struct_targets_pair|]. intros t Ht. by apply struct_resolves. Qed.

Lemma field_needed f : f ∈ each_field s -> at_ f "offset" ∈ needed s /\ is_Some (as_str (at_ f "name")).
Proof.
  intros Hf. split; [unfold needed; apply elem_of_app; right; apply list_elem_of_fmap; by exists f|].
  unfold struct_ok in Hok. rewrite !andb_true_iff in Hok. destruct Hok as [[_ H] _]. apply is_str_true. exact (forallb_elem _ _ _ H Hf).
Qed.

Lemma structs_total : is_Some (zig_struct ts s) /\ is_Some (rust_struct ts s) /\ is_Some (swift_struct ts s) /\ is_Some (cpp_struct ts s).
Proof.
  assert (is_Some (as_str (at_ s "name"))) as Hn by (unfold struct_ok in Hok; rewrite !andb_true_iff in Hok; apply is_str_true; tauto).
  assert (at_ s "size" ∈ needed s) as Hsz by (by left). assert (at_ s "align" ∈ needed s) as Hal by (right; by left).
  unfold zig_struct, rust_struct, swift_struct, cpp_struct.
  repeat split; (apply bind_total; [done|intros name _]); cbv zeta; (apply bind_total; [apply struct_note|intros note _]).
  1: pose proof emit_zig_emits as He. 2: pose proof emit_rust_emits as He. 3: pose proof emit_swift_emits as He. 4: pose proof (emit_cpp_emits "") as He.
  all: apply bind_total; [apply (struct_emits _ _ _ _ _ He Hsz)|intros]; apply bind_total; [apply (struct_emits _ _ _ _ _ He Hal)|intros].
  all: apply bind_total; [apply each_total; intros f [Hoff Hf]%field_needed; apply bind_total; [done|intros]|intros; by eexists].
  all: apply bind_total; [apply (struct_emits _ _ _ _ _ He Hoff)|intros; by eexists].
Qed.

End structs.

Lemma goldens_total emit same differ prefix posix ts n :
  emits emit same differ -> pair_like ts -> name_ok ts n = true -> is_Some (goldens emit prefix posix ts n).
Proof.
  intros He Hp [Hn Hg]%andb_true_iff. unfold goldens. apply bind_total; [by apply is_str_true|intros nm _].
  assert (forall k, k ∈ ["golden"; "posix_golden"] -> forall v, get n k = Some v -> forall t, t ∈ ts -> is_Some (str_text (at_ n k) t)) as Hk.
  { intros k Hk v Ev. pose proof (forallb_elem _ _ _ Hg Hk) as H. cbn beta in H. rewrite Ev in H. by apply resolves_true. }
  apply bind_total; [|intros; apply bind_total; [|intros; by eexists]].
  - destruct (get n "golden") as [v|] eqn:E; [|by eexists]. eapply emits_total; [done|done|]. apply (Hk "golden" ltac:(by left) v E).
  - destruct (get n "posix_golden") as [v|] eqn:E; [|by eexists]. eapply emits_total; [done|done|]. apply (Hk "posix_golden" ltac:(right; by left) v E).
Qed.

(** A description that passes the gates can be generated from.  If the parts a generator reads
    have the shape described by [shaped] and the gate on struct targets passes, no generator panics,
    whatever the language: every lookup it unwraps is there, on every target. *)
Theorem generators_never_panic abi target lang gen out :
  shaped abi = true -> check_struct_targets abi = Some true -> generator lang = Some (gen, out) -> is_Some (gen abi target).
Proof.
  unfold shaped. intros Hsh Hcheck Hgen. destruct (targets abi) as [ts|] eqn:Ets; [|done]. destruct (as_str (at_ abi "version")) as [ver|] eqn:Ev; [|done].
  destruct (as_array (at_ abi "constants")) as [cs|] eqn:Ec; [|done]. destruct (as_array (at_ abi "structs")) as [ss|] eqn:Es; [|done].
  rewrite !andb_true_iff in Hsh. destruct Hsh as ((((Hts & Hc) & He) & Hs) & Hn).
  assert (pair_like ts) as Hp.
  { destruct ts as [|a [|b [|]]]; try done.
    - destruct (decide (a = TARGET)) as [->|Ha]; [by left|right]. exists a. auto.
    - apply andb_true_iff in Hts as [->%bool_decide_eq_true Hb%negb_true_iff%bool_decide_eq_false]. right. exists b. auto. }
  destruct (targets_perm abi ts Ets) as (declared & Hk & Hperm).
  assert (array_or_empty (at_ abi "structs") = ss) as Ess by (unfold array_or_empty; by rewrite Es).
  assert (forall s, s ∈ ss -> struct_ok s = true) as Hok by (intros s; by apply forallb_elem).
  assert (forall s, s ∈ ss -> is_Some (zig_struct ts s) /\ is_Some (rust_struct ts s) /\ is_Some (swift_struct ts s) /\ is_Some (cpp_struct ts s)) as Hst.
  { intros s Hin. apply (structs_total abi ts declared s); try done; [by rewrite Ess|by apply Hok]. }
  assert (forall c, c ∈ cs -> constant_ok ts c = true) as Hco by (intros c; by apply forallb_elem).
  assert (forall e, e ∈ array_or_empty (at_ abi "enums") -> enum_ok e = true) as Hen by (intros e; by apply forallb_elem).
  assert (forall n, n ∈ array_or_empty (at_ abi "names") -> name_ok ts n = true) as Hna by (intros n; by apply forallb_elem).
  unfold generator in Hgen. cbn [entry_of] in Hgen. repeat case_bool_decide; simplify_eq.
  5: { unfold gen_protocols. rewrite Es. cbn [mbind option_bind]. apply bind_total; [|intros; by eexists]. apply each_total. intros s Hin%Hok. unfold struct_ok in Hin. rewrite !andb_true_iff in Hin.
       destruct Hin as [[Hn1 Hn2] _]. apply bind_total; [by apply is_str_true|intros name _]. apply each_total. intros f Hf. destruct (as_str (at_ f "protocol")); [|by eexists].
       apply bind_total; [apply is_str_true; exact (forallb_elem _ _ _ Hn2 Hf)|intros; by eexists]. }
  1: unfold gen_zig. 2: unfold gen_rust. 3: unfold gen_swift. 4: unfold gen_cpp.
  all: rewrite Ets, Ev, Ec, Es; cbn [mbind option_bind].
  all: apply bind_total; [apply each_total; intros c Hin%Hco; by destruct (constants_total ts c Hp Hin) as (? & ? & ? & ?)|intros constants _].
  all: apply bind_total; [apply each_total; intros e Hin%Hen; by destruct (enums_total e Hin) as (? & ? & ? & ?)|intros enums _].
  all: apply bind_total; [apply each_total; intros s Hin; by destruct (Hst s Hin) as (? & ? & ? & ?)|intros structs _].
  all: apply bind_total; [apply each_total; intros n Hin%Hna|intros; by eexists].
  - by apply (goldens_total _ _ _ _ _ _ _ emit_zig_emits).
  - by apply (goldens_total _ _ _ _ _ _ _ emit_rust_emits).
  - by apply (goldens_total _ _ _ _ _ _ _ emit_swift_emits).
  - by apply (goldens_total _ _ _ _ _ _ _ (emit_cpp_emits "")).
Qed.

Lemma generators_never_panic_witness : shaped abi_json = true /\ check_struct_targets abi_json = Some true /\ is_Some (gen_cpp abi_json TARGET).
Proof.
  assert (shaped abi_json = true) as H1 by (by vm_compute). assert (check_struct_targets abi_json = Some true) as H2 by (by vm_compute).
  split; [exact H1|]. split; [exact H2|]. exact (generators_never_panic abi_json TARGET "cpp" gen_cpp _ H1 H2 eq_refl).
Defined.

(** ** What a target reads

    The lines of a text, and those a build keeps: an attribute of Rust decides about the line after it,
    the directives of C++ and Swift about those up to the next directive; in Zig the value is chosen
    within the line. *)
Fixpoint lines (s : string) : list string :=
  match s with
  | EmptyString => []
  | String c s =>
      if bool_decide (c = Ascii.ascii_of_nat 10) then "" :: lines s
      else match lines s with [] => [String c ""] | l :: ls => String c l :: ls end
  end.

Fixpoint rust_view (apple : bool) (ls : list string) : list string :=
  match ls with
  | [] => []
  | l :: ls =>
      let gate (keep : bool) := match ls with [] => [] | d :: ls => if keep then d :: rust_view apple ls else rust_view apple ls end in
      if bool_decide (l = rust_cfg TARGET) then gate apple
      else if bool_decide (l = rust_cfg "") then gate (negb apple)
      else l :: rust_view apple ls
  end.

Fixpoint cond_view (if_ else_ endif_ : string) (apple keep : bool) (ls : list string) : list string :=
  match ls with
  | [] => []
  | l :: ls =>
      if bool_decide (l = if_) then cond_view if_ else_ endif_ apple apple ls
      else if bool_decide (l = else_) then cond_view if_ else_ endif_ apple (negb apple) ls
      else if bool_decide (l = endif_) then cond_view if_ else_ endif_ apple true ls
      else if keep then l :: cond_view if_ else_ endif_ apple keep ls
      else cond_view if_ else_ endif_ apple keep ls
  end.

Definition cpp_view (apple : bool) : list string -> list string := cond_view CPP_IF "#else" "#endif" apple true.
Definition swift_view (apple : bool) : list string -> list string := cond_view SWIFT_IF "    #else" "    #endif" apple true.

(** The parts before and after the first occurrence. *)
Fixpoint split_at (pat s : string) : option (string * string) :=
  match strip_prefix pat s with
  | Some rest => Some ("", rest)
  | None => match s with EmptyString => None | String c s => '(a, b) ← split_at pat s; Some (String c a, b) end
  end.

Definition zig_line (apple : bool) (l : string) : string :=
  match split_at (" = if (" +:+ ZIG_ALIGN8 +:+ ") ") l with
  | None => l
  | Some (prefix, rest) =>
      match split_at " else " rest with
      | Some (a, b) => prefix +:+ " = " +:+ (if apple then a +:+ ";" else b)
      | None => l
      end
  end.

Definition zig_view (apple : bool) (ls : list string) : list string := zig_line apple <$> ls.

(** No line feed; no space either. *)
Definition lacks (c : ascii) (s : string) : Prop := c ∉ String.list_ascii_of_string s.
Definition LF : ascii := Ascii.ascii_of_nat 10.
Definition SPACE : ascii := Ascii.ascii_of_nat 32.

Lemma lacks_app c a b : lacks c a -> lacks c b -> lacks c (a +:+ b).
Proof. unfold lacks. induction a as [|x a IH]; [done|]. intros Ha Hb. apply not_elem_of_cons in Ha as [? ?]. apply not_elem_of_cons. auto. Qed.

Lemma lines_app a rest : lacks LF a -> lines (a +:+ nl +:+ rest) = a :: lines rest.
Proof.
  induction a as [|c a IH]; intros Ha; [done|]. apply not_elem_of_cons in Ha as [Hc Ha].
  change (lines (String c (a +:+ nl +:+ rest)) = String c a :: lines rest). cbn [lines]. rewrite bool_decide_eq_false_2 by (intros ->; by apply Hc). by rewrite IH.
Qed.

(** A declaration does not look like a directive. *)
Definition opens_with (c : ascii) (s : string) : bool := match s with String x _ => Ascii.eqb x c | EmptyString => false end.

Lemma opens_ne c a b : opens_with c a = true -> opens_with c b = false -> b <> a.
Proof. intros Ha Hb ->. congruence. Qed.

Lemma strip_app p s : strip_prefix p (p +:+ s) = Some s.
Proof.
  induction p as [|c p IH]; [done|]. change (String c p +:+ s) with (String c (p +:+ s)). cbn [strip_prefix]. by rewrite Ascii.eqb_refl.
Qed.

(** A pattern with a character the text lacks does not match. *)
Lemma strip_lacks c p q s : lacks c s -> strip_prefix (p +:+ String c q) s = None.
Proof.
  revert s. induction p as [|x p IH]; intros [|y s] Hs; try done; apply not_elem_of_cons in Hs as [Hy Hs].
  - change ("" +:+ String c q) with (String c q). cbn [strip_prefix]. destruct (Ascii.eqb_spec c y); [congruence|done].
  - change (String x p +:+ String c q) with (String x (p +:+ String c q)). cbn [strip_prefix]. destruct (Ascii.eqb x y); [by apply IH|done].
Qed.

Lemma split_lacks c q s : lacks c s -> split_at (String c q) s = None.
Proof.
  induction s as [|y s IH]; intros Hs; [done|]. apply not_elem_of_cons in Hs as [Hy Hs]. cbn [split_at strip_prefix].
  destruct (Ascii.eqb_spec c y); [congruence|]. by rewrite IH.
Qed.

(** The first [" = "] of a declaration. *)
Lemma split_prefix prefix q x : lacks "=" prefix ->
  split_at (" = " +:+ q) (prefix +:+ " = " +:+ x) = match strip_prefix q x with Some rest => Some (prefix, rest) | None =>
    '(a, b) ← split_at (" = " +:+ q) ("= " +:+ x); Some (prefix +:+ String " " a, b) end.
Proof.
  induction prefix as [|c prefix IH]; intros Hp.
  - change ("" +:+ " = " +:+ x) with (String " " ("= " +:+ x)). cbn [split_at]. change (strip_prefix (" = " +:+ q) (String " " ("= " +:+ x))) with (strip_prefix q x).
    by destruct (strip_prefix q x).
  - apply not_elem_of_cons in Hp as [Hc Hp]. change (String c prefix +:+ " = " +:+ x) with (String c (prefix +:+ " = " +:+ x)). cbn [split_at].
    assert (strip_prefix (" = " +:+ q) (String c (prefix +:+ " = " +:+ x)) = None) as ->.
    { change (" = " +:+ q) with (String " " (String "=" (" " +:+ q))). cbn [strip_prefix]. destruct (Ascii.eqb " " c); [|done]. destruct prefix as [|d prefix]; [done|].
      change (String d prefix +:+ " = " +:+ x) with (String d (prefix +:+ " = " +:+ x)). cbn [strip_prefix]. apply not_elem_of_cons in Hp as [Hd _].
      destruct (Ascii.eqb_spec "=" d); [congruence|done]. }
    rewrite IH by done. destruct (strip_prefix q x) as [rest|]; [done|]. by destruct (split_at (" = " +:+ q) ("= " +:+ x)) as [[]|].
Qed.

Lemma split_else a b : lacks SPACE a -> split_at " else " (a +:+ " else " +:+ b) = Some (a, b).
Proof.
  induction a as [|c a IH]; intros Ha; [done|]. apply not_elem_of_cons in Ha as [Hc Ha].
  change (String c a +:+ " else " +:+ b) with (String c (a +:+ " else " +:+ b)). cbn [split_at strip_prefix].
  destruct (Ascii.eqb_spec " " c) as [<-|]; [by destruct Hc|]. by rewrite IH.
Qed.

Lemma zig_line_same apple prefix v : lacks "=" prefix -> lacks SPACE v -> zig_line apple (prefix +:+ " = " +:+ v +:+ ";") = prefix +:+ " = " +:+ v +:+ ";".
Proof.
  intros Hp Hv. assert (lacks SPACE (v +:+ ";")) as Hv' by (apply lacks_app; [done|by intros ?%list_elem_of_singleton]).
  unfold zig_line. change (" = if (" +:+ ZIG_ALIGN8 +:+ ") ") with (" = " +:+ "if (align8_target) "). rewrite split_prefix by done.
  rewrite (strip_lacks SPACE "if" "(align8_target) ") by done.
  assert (split_at (" = " +:+ "if (align8_target) ") ("= " +:+ v +:+ ";") = None) as ->; [|done].
  change ("= " +:+ v +:+ ";") with (String "=" (String " " (v +:+ ";"))). cbn [split_at].
  change (strip_prefix (" = " +:+ "if (align8_target) ") (String "=" (String " " (v +:+ ";")))) with (@None string).
  change (strip_prefix (" = " +:+ "if (align8_target) ") (String " " (v +:+ ";"))) with (strip_prefix ("=" +:+ String SPACE "if (align8_target) ") (v +:+ ";")).
  rewrite (strip_lacks SPACE "=") by done. change (" = " +:+ "if (align8_target) ") with (String SPACE "= if (align8_target) "). by rewrite split_lacks.
Qed.

Lemma zig_line_differ apple prefix a b : lacks "=" prefix -> lacks SPACE a ->
  zig_line apple (prefix +:+ " = if (" +:+ ZIG_ALIGN8 +:+ ") " +:+ a +:+ " else " +:+ b +:+ ";") = prefix +:+ " = " +:+ (if apple then a else b) +:+ ";".
Proof.
  intros Hp Ha. unfold zig_line. change (" = if (" +:+ ZIG_ALIGN8 +:+ ") ") with (" = " +:+ "if (align8_target) ").
  change (prefix +:+ " = if (" +:+ ZIG_ALIGN8 +:+ ") " +:+ a +:+ " else " +:+ b +:+ ";") with (prefix +:+ " = " +:+ "if (align8_target) " +:+ a +:+ " else " +:+ b +:+ ";").
  rewrite split_prefix, strip_app by done. rewrite split_else by done. by destruct apple.
Qed.

(** Lines, each ended by a line feed. *)
Definition unlines (ls : list string) : string := fmt ((fun l => l +:+ nl) <$> ls).

Lemma lines_unlines ls : Forall (lacks LF) ls -> lines (unlines ls) = ls.
Proof.
  induction 1 as [|l ls Hl _ IH]; [done|]. unfold unlines in *. rewrite fmap_cons, fmt_cons, str_app_assoc, lines_app by done. by rewrite IH.
Qed.

Ltac in_pieces :=
  unfold unlines, rust_same, rust_differ, zig_differ, cpp_same, cpp_differ, swift_same, swift_differ; cbn [fmap list_fmap];
  rewrite ?fmt_cons, ?fmt_nil, ?str_app_assoc, ?str_nil_r; reflexivity.

(** A literal without a character. *)
Ltac lacking := unfold lacks; apply (bool_decide_unpack _); vm_compute; exact I.

Section view.
Context (prefix suffix : string).
Hypothesis prefix_line : lacks LF prefix.
Hypothesis suffix_line : lacks LF suffix.
Hypothesis prefix_decl : opens_with "#" prefix = false.
Hypothesis prefix_name : lacks "=" prefix.

(** A declaration as a line. *)
Definition declares (v : string) : string := prefix +:+ " = " +:+ v.

Lemma declares_line v s : lacks LF v -> lacks LF s -> lacks LF (declares v +:+ s).
Proof. intros Hv Hs. unfold declares. repeat apply lacks_app; try done. lacking. Qed.

Lemma declares_opens v s : opens_with "#" (declares v +:+ s) = false.
Proof. unfold declares. destruct prefix; [done|exact prefix_decl]. Qed.

Lemma rust_cfg_other o : o <> TARGET -> rust_cfg o = rust_cfg "".
Proof. intros Ho. unfold rust_cfg. by rewrite !bool_decide_eq_false_2. Qed.

Lemma rust_line_other v o : declares v +:+ ";" <> rust_cfg o.
Proof. apply (opens_ne "#"); [|apply declares_opens]. unfold rust_cfg. by case_bool_decide. Qed.

Lemma rust_view_one apple d : d <> rust_cfg TARGET -> d <> rust_cfg "" -> rust_view apple [d] = [d].
Proof. intros H1 H2. cbn [rust_view]. by rewrite !bool_decide_eq_false_2. Qed.

Lemma rust_sees_same apple v : lacks LF v -> rust_view apple (lines (rust_same prefix v)) = [declares v +:+ ";"].
Proof.
  intros Hv. replace (rust_same prefix v) with (unlines [declares v +:+ ";"]) by (unfold declares; in_pieces).
  rewrite lines_unlines; [apply rust_view_one; apply rust_line_other|]. repeat constructor. apply declares_line; [done|lacking].
Qed.

Lemma cfg_line o : lacks LF (rust_cfg o).
Proof. unfold rust_cfg. case_bool_decide; lacking. Qed.

Lemma rust_sees_differ apple o a b : o <> TARGET -> lacks LF a -> lacks LF b ->
  rust_view apple (lines (rust_differ o prefix a b)) = [declares (if apple then a else b) +:+ ";"].
Proof.
  intros Ho Ha Hb. replace (rust_differ o prefix a b) with (unlines [rust_cfg TARGET; declares a +:+ ";"; rust_cfg o; declares b +:+ ";"]) by (unfold declares; in_pieces).
  rewrite lines_unlines by (repeat constructor; (apply cfg_line || (apply declares_line; [done|lacking]))).
  rewrite (rust_cfg_other o) by done. cbn [rust_view lines]. rewrite (bool_decide_eq_true_2 (rust_cfg TARGET = rust_cfg TARGET)) by done.
  rewrite (bool_decide_eq_false_2 (rust_cfg "" = rust_cfg TARGET)) by done. rewrite (bool_decide_eq_true_2 (rust_cfg "" = rust_cfg "")) by done. by destruct apple.
Qed.

Lemma cond_view_keep i e n apple keep d ls : d <> i -> d <> e -> d <> n ->
  cond_view i e n apple keep (d :: ls) = if keep then d :: cond_view i e n apple keep ls else cond_view i e n apple keep ls.
Proof. intros H1 H2 H3. cbn [cond_view]. by rewrite !bool_decide_eq_false_2. Qed.

Lemma cpp_sees_same apple v : lacks LF v -> cpp_view apple (lines (cpp_same suffix prefix v)) = [declares v +:+ suffix +:+ ";"].
Proof.
  intros Hv. replace (cpp_same suffix prefix v) with (unlines [declares v +:+ suffix +:+ ";"]) by (unfold declares; in_pieces).
  rewrite lines_unlines by (repeat constructor; apply declares_line; [done|apply lacks_app; [done|lacking]]).
  unfold cpp_view. by rewrite cond_view_keep by (apply (opens_ne "#"); [done|apply declares_opens]).
Qed.

Lemma cpp_sees_differ apple o a b : lacks LF a -> lacks LF b ->
  cpp_view apple (lines (cpp_differ suffix o prefix a b)) = [declares (if apple then a else b) +:+ suffix +:+ ";"].
Proof.
  intros Ha Hb. replace (cpp_differ suffix o prefix a b) with (unlines [CPP_IF; declares a +:+ suffix +:+ ";"; "#else"; declares b +:+ suffix +:+ ";"; "#endif"]) by (unfold declares; in_pieces).
  assert (lacks LF (suffix +:+ ";")) by (apply lacks_app; [done|lacking]).
  rewrite lines_unlines by (repeat constructor; try lacking; by apply declares_line).
  unfold cpp_view. cbn [cond_view]. rewrite (bool_decide_eq_true_2 (CPP_IF = CPP_IF)) by done.
  rewrite !(bool_decide_eq_false_2 (declares _ +:+ _ = _)) by (apply (opens_ne "#"); [done|apply declares_opens]).
  by destruct apple.
Qed.

Lemma indent_ne v s d : opens_with "#" d = true -> "    " +:+ declares v +:+ s <> "    " +:+ d.
Proof.
  intros Hd E. apply (f_equal (strip_prefix "    ")) in E. rewrite !strip_app in E. pose proof (declares_opens v s) as H.
  assert (declares v +:+ s = d) as E' by congruence. congruence.
Qed.

Lemma swift_sees_same apple v : lacks LF v -> swift_view apple (lines (swift_same prefix v)) = ["    " +:+ declares v].
Proof.
  intros Hv. replace (swift_same prefix v) with (unlines ["    " +:+ declares v +:+ ""]) by (unfold declares; in_pieces).
  rewrite lines_unlines by (repeat constructor; apply lacks_app; [lacking|apply declares_line; [done|lacking]]).
  unfold swift_view. rewrite cond_view_keep by by apply (indent_ne v ""). by rewrite str_nil_r.
Qed.

Lemma swift_sees_differ apple o a b : lacks LF a -> lacks LF b ->
  swift_view apple (lines (swift_differ o prefix a b)) = ["    " +:+ declares (if apple then a else b)].
Proof.
  intros Ha Hb. replace (swift_differ o prefix a b) with (unlines [SWIFT_IF; "    " +:+ declares a +:+ ""; "    #else"; "    " +:+ declares b +:+ ""; "    #endif"]) by (unfold declares; in_pieces).
  rewrite lines_unlines by (repeat constructor; try lacking; (apply lacks_app; [lacking|apply declares_line; [done|lacking]])).
  unfold swift_view. cbn [cond_view]. rewrite (bool_decide_eq_true_2 (SWIFT_IF = SWIFT_IF)) by done.
  rewrite !(bool_decide_eq_false_2 ("    " +:+ declares _ +:+ _ = _)) by by apply indent_ne.
  rewrite !str_nil_r. by destruct apple.
Qed.

Lemma zig_sees_same apple v : lacks LF v -> lacks SPACE v -> zig_view apple (lines (rust_same prefix v)) = [declares v +:+ ";"].
Proof.
  intros Hv Hs. replace (rust_same prefix v) with (unlines [declares v +:+ ";"]) by (unfold declares; in_pieces).
  rewrite lines_unlines by (repeat constructor; apply declares_line; [done|lacking]). cbn. unfold declares. rewrite !str_app_assoc. by rewrite zig_line_same.
Qed.

Lemma zig_sees_differ apple o a b : lacks LF a -> lacks LF b -> lacks SPACE a ->
  zig_view apple (lines (zig_differ o prefix a b)) = [declares (if apple then a else b) +:+ ";"].
Proof.
  intros Ha Hb Hs. replace (zig_differ o prefix a b) with (unlines [prefix +:+ " = if (" +:+ ZIG_ALIGN8 +:+ ") " +:+ a +:+ " else " +:+ b +:+ ";"]) by in_pieces.
  rewrite lines_unlines by (repeat constructor; repeat apply lacks_app; try done; lacking). cbn [zig_view fmap list_fmap]. unfold declares. rewrite !str_app_assoc. by rewrite zig_line_differ.
Qed.

End view.

(** C33: every target reads its own value.  Whatever values a declaration has on the targets, all
    equal or not, the Rust, Zig, C++ and Swift emitters produce text from which a build for any of the
    targets keeps exactly one declaration, and it has that target's value.  For Apple's target with at
    most one other, and values that are words on a line. *)
Theorem each_target_reads_its_value prefix suffix ts (render : string -> option string) t v :
  pair_like ts -> t ∈ ts -> render t = Some v ->
  (forall u, u ∈ ts -> exists x, render u = Some x /\ lacks LF x /\ lacks SPACE x) ->
  lacks LF prefix -> lacks LF suffix -> opens_with "#" prefix = false -> lacks "=" prefix ->
  let apple := bool_decide (t = TARGET) in
  (exists r, emit_rust prefix ts render = Some r /\ rust_view apple (lines r) = [prefix +:+ " = " +:+ v +:+ ";"]) /\
  (exists r, emit_zig prefix ts render = Some r /\ zig_view apple (lines r) = [prefix +:+ " = " +:+ v +:+ ";"]) /\
  (exists r, emit_cpp prefix suffix ts render = Some r /\ cpp_view apple (lines r) = [prefix +:+ " = " +:+ v +:+ suffix +:+ ";"]) /\
  (exists r, emit_swift prefix ts render = Some r /\ swift_view apple (lines r) = ["    " +:+ prefix +:+ " = " +:+ v]).
Proof.
  intros Hp Ht Hv Hr H1 H2 H3 H4 apple.
  assert (forall u, u ∈ ts -> is_Some (render u)) as Hs by (intros u Hu; destruct (Hr u Hu) as (x & -> & _); by eexists).
  assert (forall u x, u ∈ ts -> render u = Some x -> lacks LF x /\ lacks SPACE x) as Hl by (intros u x Hu Hx; destruct (Hr u Hu) as (y & Hy & ?); by simplify_eq).
  (* the value of the branch taken is that of [t] *)
  assert (forall o a b, ts = [TARGET; o] -> o <> TARGET -> render TARGET = Some a -> render o = Some b ->
    (if apple then a else b) = v /\ lacks LF a /\ lacks LF b /\ lacks SPACE a) as Hsel.
  { intros o a b -> Ho Ha Hb. destruct (Hl TARGET a) as [? ?]; [by left|done|]. destruct (Hl o b) as [? ?]; [right; by left|done|].
    split; [|done]. unfold apple. apply elem_of_cons in Ht as [->| ->%list_elem_of_singleton]; [rewrite bool_decide_eq_true_2 by done|rewrite bool_decide_eq_false_2 by done]; congruence. }
  pose proof (Hl t v Ht Hv) as [Hv1 Hv2].
  assert (forall x s, declares prefix x +:+ s = prefix +:+ " = " +:+ x +:+ s) as Hd by (intros; unfold declares; by rewrite !str_app_assoc).
  split; [|split; [|split]].
  - destruct (emit_rust_emits prefix ts render Hp Hs) as [(x & Hx & E)|(o & a & b & Ets & Ho & _ & Ha & Hb & E)]; eexists; (split; [exact E|]); rewrite <- Hd.
    + rewrite (Hx t Ht) in Hv. simplify_eq. by apply rust_sees_same.
    + destruct (Hsel o a b Ets Ho Ha Hb) as (<- & ? & ? & ?). by apply rust_sees_differ.
  - destruct (emit_zig_emits prefix ts render Hp Hs) as [(x & Hx & E)|(o & a & b & Ets & Ho & _ & Ha & Hb & E)]; eexists; (split; [exact E|]); rewrite <- Hd.
    + rewrite (Hx t Ht) in Hv. simplify_eq. by apply zig_sees_same.
    + destruct (Hsel o a b Ets Ho Ha Hb) as (<- & ? & ? & ?). by apply zig_sees_differ.
  - destruct (emit_cpp_emits suffix prefix ts render Hp Hs) as [(x & Hx & E)|(o & a & b & Ets & Ho & _ & Ha & Hb & E)]; eexists; (split; [exact E|]); rewrite <- Hd.
    + rewrite (Hx t Ht) in Hv. simplify_eq. by apply cpp_sees_same.
    + destruct (Hsel o a b Ets Ho Ha Hb) as (<- & ? & ? & ?). by apply cpp_sees_differ.
  - destruct (emit_swift_emits prefix ts render Hp Hs) as [(x & Hx & E)|(o & a & b & Ets & Ho & _ & Ha & Hb & E)]; eexists; (split; [exact E|]).
    + rewrite (Hx t Ht) in Hv. simplify_eq. by apply swift_sees_same.
    + destruct (Hsel o a b Ets Ho Ha Hb) as (<- & ? & ? & ?). by apply swift_sees_differ.
Qed.

(** ** The files of the repository *)

Definition checked_in (lang : string) : string :=
  text (default [] (entry_of lang [("zig", generated_zig); ("rust", generated_rust); ("swift", generated_swift); ("cpp", generated_cpp); ("protocols", generated_protocols)])).

Lemma regenerates lang gen out : generator lang = Some (gen, out) -> gen abi_json TARGET = Some (checked_in lang).
Proof.
  unfold generator. cbn [entry_of]. intros H. repeat case_bool_decide; simplify_eq; vm_compute; reflexivity.
Qed.

(** C34: the generated files are current.  From the interface description of the repository the
    generators produce, byte for byte, the Rust, Zig, Swift and C++ files and the listing of protocols
    that are checked in; so the staleness gate passes on them, and fails on anything else. *)
Theorem generated_files_current root files lang gen out :
  generator lang = Some (gen, out) ->
  gen abi_json TARGET = Some (checked_in lang) /\
  run_generate root abi_json files ["--lang"; lang] = Wrote (root +:+ "/" +:+ out) (checked_in lang) /\
  (run_generate root abi_json files ["--lang"; lang; "--check"] = Exit 0 <-> files (root +:+ "/" +:+ out) = checked_in lang).
Proof.
  intros Hg. pose proof (regenerates lang gen out Hg) as Hr. split; [done|].
  unfold run_generate.
  change (generate_args _ ["--lang"; lang]) with (Some (Some (mk_opts lang TARGET None false))).
  change (generate_args _ ["--lang"; lang; "--check"]) with (Some (Some (mk_opts lang TARGET None true))).
  cbn [o_lang o_target o_out o_check]. rewrite Hg, Hr. split; [done|]. case_bool_decide; split; intros; done.
Qed.

Lemma generated_files_current_witness : run_generate "." abi_json (fun _ => checked_in "rust") ["--lang"; "rust"; "--check"] = Exit 0.
Proof. by apply (generated_files_current "." (fun _ => checked_in "rust") "rust" gen_rust "rust/thoth-ipc/src/abi_generated.rs"). Defined.

Lemma each_target_reads_its_value_witness :
  let render := zig_num (Obj [("apple_arm64", Number (PosInt 8)); ("x86_64", Number (PosInt 16))]) in
  exists r, emit_rust "pub const chunk_header_size: usize" ["apple_arm64"; "x86_64"] render = Some r /\ rust_view false (lines r) = ["pub const chunk_header_size: usize = 16;"].
Proof.
  intros render. apply (each_target_reads_its_value "pub const chunk_header_size: usize" "" ["apple_arm64"; "x86_64"] render "x86_64" "16").
  - right. exists "x86_64". split; [discriminate|by right].
  - right. by left.
  - by vm_compute.
  - intros u [->| ->%list_elem_of_singleton]%elem_of_cons; [exists "8"|exists "16"]; (split; [by vm_compute|split; lacking]).
  - lacking.
  - lacking.
  - by vm_compute.
  - lacking.
Defined.

(** ** The port and the description *)

(** The value of a constant among the lines a build keeps, as text. *)
Definition declared_in (view : list string) (name : string) : option string :=
  l ← list_find (fun l => is_Some (strip_prefix ("pub const " +:+ name +:+ ": ") l)) view;
  '(_, v) ← split_at " = " l.2;
  '(v, _) ← split_at ";" v;
  Some v.

(** The constants as the rest of the development uses them. *)
Definition port_numbers : list (string * (target -> Z)) := [
    ("data_length", fun _ => data_length); ("ring_size", fun _ => ring_size); ("large_msg_align", fun _ => large_msg_align); ("large_msg_cache", fun _ => large_msg_cache);
    ("chunk_header_size", chunk_header_size); ("route_ep_mask", fun _ => route_ep_mask); ("route_ep_incr", fun _ => route_ep_incr); ("chan_rc_mask", fun _ => chan_rc_mask);
    ("chan_ep_mask", fun _ => chan_ep_mask); ("chan_ep_incr", fun _ => chan_ep_incr); ("chan_ic_mask", fun _ => chan_ic_mask); ("chan_ic_incr", fun _ => chan_ic_incr);
    ("syncabi_magic", fun _ => syncabi_magic); ("syncabi_backend_posix_pthread", fun _ => syncabi_backend_posix_pthread); ("syncabi_backend_ulock", fun _ => syncabi_backend_ulock);
    ("syncabi_backend_apple_mach", fun _ => syncabi_backend_apple_mach); ("syncabi_backend_win32", fun _ => syncabi_backend_win32);
    ("syncabi_backend_linux_a0", fun _ => syncabi_backend_linux_a0); ("sipc_version", fun _ => sipc_version); ("msg_t_size", fun _ => msg_t_size);
    ("msg_t_align", fun _ => msg_t_align); ("msg_t_cc_id_off", fun _ => msg_t_cc_id_off); ("msg_t_id_off", fun _ => msg_t_id_off); ("msg_t_remain_off", fun _ => msg_t_remain_off);
    ("msg_t_storage_off", fun _ => msg_t_storage_off); ("msg_t_payload_off", fun _ => msg_t_payload_off); ("ring_header_size", fun _ => ring_header_size);
    ("ring_header_align", fun _ => ring_header_align); ("ring_header_cc_off", fun _ => ring_header_cc_off); ("ring_header_lc_off", fun _ => ring_header_lc_off);
    ("ring_header_constructed_off", fun _ => ring_header_constructed_off); ("ring_header_cursor_off", fun _ => ring_header_cursor_off);
    ("ring_header_epoch_off", fun _ => ring_header_epoch_off); ("route_elem_size", route_elem_size); ("route_elem_align", route_elem_align);
    ("route_elem_data_off", fun _ => route_elem_data_off); ("route_elem_rc_off", fun _ => route_elem_rc_off); ("channel_elem_size", fun _ => channel_elem_size);
    ("channel_elem_align", channel_elem_align); ("channel_elem_data_off", fun _ => channel_elem_data_off); ("channel_elem_rc_off", fun _ => channel_elem_rc_off);
    ("channel_elem_f_ct_off", fun _ => channel_elem_f_ct_off); ("route_ring_size", route_ring_size); ("route_ring_align", fun _ => route_ring_align);
    ("route_ring_sender_owner_off", route_ring_sender_owner_off); ("channel_ring_size", fun _ => channel_ring_size); ("channel_ring_align", fun _ => channel_ring_align);
    ("chunk_info_size", fun _ => chunk_info_size); ("chunk_info_align", fun _ => chunk_info_align); ("chunk_info_next_off", fun _ => chunk_info_next_off);
    ("chunk_info_cursor_off", fun _ => chunk_info_cursor_off); ("chunk_info_prepared_off", fun _ => chunk_info_prepared_off); ("chunk_info_lock_off", fun _ => chunk_info_lock_off);
    ("liveness_slot_size", fun _ => liveness_slot_size); ("liveness_slot_align", fun _ => liveness_slot_align); ("liveness_slot_pid_off", fun _ => liveness_slot_pid_off);
    ("liveness_slot_since_off", fun _ => liveness_slot_since_off); ("liveness_slot_start_tok_off", fun _ => liveness_slot_start_tok_off);
    ("sipc_header_size", fun _ => sipc_header_size); ("sipc_header_align", fun _ => sipc_header_align); ("sipc_header_magic_off", fun _ => sipc_header_magic_off);
    ("sipc_header_version_off", fun _ => sipc_header_version_off); ("sipc_header_alg_id_off", fun _ => sipc_header_alg_id_off);
    ("sipc_header_key_id_off", fun _ => sipc_header_key_id_off); ("sipc_header_nonce_size_off", fun _ => sipc_header_nonce_size_off);
    ("sipc_header_tag_size_off", fun _ => sipc_header_tag_size_off); ("sipc_header_ct_size_off", fun _ => sipc_header_ct_size_off);
    ("syncabi_stamp_size", fun _ => syncabi_stamp_size); ("syncabi_stamp_align", fun _ => syncabi_stamp_align); ("syncabi_stamp_magic_off", fun _ => syncabi_stamp_magic_off);
    ("syncabi_stamp_ver_major_off", fun _ => syncabi_stamp_ver_major_off); ("syncabi_stamp_ver_minor_off", fun _ => syncabi_stamp_ver_minor_off);
    ("syncabi_stamp_backend_id_off", fun _ => syncabi_stamp_backend_id_off); ("syncabi_stamp_primitive_id_off", fun _ => syncabi_stamp_primitive_id_off);
    ("syncabi_stamp_payload_size_off", fun _ => syncabi_stamp_payload_size_off); ("ulock_mutex_size", fun _ => ulock_mutex_size); ("ulock_mutex_align", fun _ => ulock_mutex_align);
    ("ulock_mutex_state_off", fun _ => ulock_mutex_state_off); ("ulock_mutex_holder_off", fun _ => ulock_mutex_holder_off); ("ulock_cond_size", fun _ => ulock_cond_size);
    ("ulock_cond_align", fun _ => ulock_cond_align); ("ulock_cond_seq_off", fun _ => ulock_cond_seq_off); ("ulock_cond_waiters_off", fun _ => ulock_cond_waiters_off);
    ("a0_mtx_size", fun _ => a0_mtx_size); ("a0_mtx_align", fun _ => a0_mtx_align); ("a0_mtx_next_off", fun _ => a0_mtx_next_off); ("a0_mtx_prev_off", fun _ => a0_mtx_prev_off);
    ("a0_mtx_ftx_off", fun _ => a0_mtx_ftx_off); ("a0_cnd_size", fun _ => a0_cnd_size); ("a0_cnd_align", fun _ => a0_cnd_align); ("a0_cnd_seq_off", fun _ => a0_cnd_seq_off)].

Definition port_strings : list (string * (target -> string)) := [
    ("abi_version", fun _ => abi_version); ("sipc_magic", fun _ => sipc_magic); ("notify_hash_xchan", fun _ => notify_hash_xchan);
    ("sync_abi_suffix_mutex", fun _ => sync_abi_suffix_mutex); ("sync_abi_suffix_condition", fun _ => sync_abi_suffix_condition); ("name_golden_ring", name_golden_ring);
    ("name_golden_ring_posix", name_golden_ring_posix); ("name_golden_cc_id", fun _ => name_golden_cc_id); ("name_golden_msg_id", fun _ => name_golden_msg_id);
    ("name_golden_liveness", fun _ => name_golden_liveness); ("name_golden_chunk", fun _ => name_golden_chunk); ("name_golden_notify_key", fun _ => name_golden_notify_key)].

Definition declared_name (l : string) : option string := r ← strip_prefix "pub const " l; fst <$> split_at ":" r.

(** The port's constants and names are those of the interface description.  On every target, a
    build of the file generated from it reads exactly the numbers and strings transcribed in Abi.v, and
    no others; and for the canonical binding the names the port builds are the golden ones, shortened for
    POSIX as the description says. *)
Theorem port_agrees_with_description t :
  let view := rust_view (align8 t) (lines (checked_in "rust")) in
  Forall (fun x => (declared_in view x.1 ≫= fun s => as_u64 (Text s)) = Some (x.2 t)) port_numbers /\
  Forall (fun x => declared_in view x.1 = Some (quoted (x.2 t))) port_strings /\
  list_to_set (omap declared_name view) =@{gset string} list_to_set (port_numbers.*1 ++ port_strings.*1) /\
  Forall (fun t => make_shm_name t (ring_shm_name t "" "xchan") = Some (name_golden_ring_posix t)) [apple_arm64; x86_64_linux] /\
  ring_shm_name t "" "xchan" = name_golden_ring t /\ cc_id_shm_name "" = name_golden_cc_id /\ msg_id_shm_name "" "xchan" = name_golden_msg_id /\
  liveness_shm_name "" "xchan" = name_golden_liveness /\ chunk_shm_name (full_prefix "") 1024 = name_golden_chunk /\ notify_key "" "xchan" = name_golden_notify_key.
Proof.
  intros view. split; [|split; [|split; [|split]]].
  1-3: apply (bool_decide_unpack _); subst view; destruct t as [[] m]; vm_compute; exact I.
  - repeat constructor; vm_compute; reflexivity.
  - destruct t as [[] m]; repeat split; vm_compute; reflexivity.
Qed.

(** ** The conformance gate *)





(** With a third target whose value differs, the Rust emitter gates two declarations by the same
    predicate, and C++ gives the third target the value of the second. *)
Example third_target_collides :
  let render := zig_num (Obj [("apple_arm64", Number (PosInt 8)); ("linux", Number (PosInt 16)); ("riscv", Number (PosInt 32))]) in
  let ts := ["apple_arm64"; "linux"; "riscv"] in
  (r ← emit_rust "pub const x: usize" ts render; Some (rust_view false (lines r))) = Some ["pub const x: usize = 16;"; "pub const x: usize = 32;"] /\
  (r ← emit_cpp "inline constexpr std::size_t x" "" ts render; Some (cpp_view false (lines r))) = Some ["inline constexpr std::size_t x = 16;"].
Proof. by vm_compute. Qed.
